(* ===== verification/_CoqProject ===== *)
-Q . S2P
Prelude.v
Decimal.v
Utf8.v
Json.v
EnvNames.v
Bridge.v
World.v
Protocol.v
Contact.v
RuntimeEnv.v
CustomerEnvironment.v
Sampler.v
Thermal.v
Memory.v
Monitor.v
RestartPolicy.v
Supervisor.v
Lifecycle.v
Liveness.v
Wire.v
Gateway.v
Traversal.v
Evidence.v
Mapping.v
Xml.v
Upnp.v
MappingLifecycle.v
SnapshotFormat.v
SnapshotWrite.v
SnapshotRestore.v
PayloadProtocol.v
PayloadDownload.v
FileSecrets.v
Lockbox.v
Igd.v
LogConfig.v
LogRedact.v
LogQueue.v
LogWorker.v
