(* ===== verification/Prelude.v ===== *)
(** * Verification of liskov-runtime-cargo

    liskov-runtime-cargo is the native helper of a Liskov-managed Acurast job. It
    makes first contact with the control plane over a signed exchange, assembles
    the customer's environment, supervises the customer process and its restarts,
    samples the device, and, under an explicit grant, measures the network and
    maps ports on the local router. It also writes and restores encrypted
    snapshots of the customer's state, downloads verified payloads, and fetches the
    job's secrets into the environment and into private files. All source names
    below are under [src/src/].

    ** How programs are modelled

    Pure code is Gallina. A Rust integer is a [Z] with its width written out, a
    string or [OsString] is its bytes, a packet is a list of octets. Fallible code
    returns [result]. Effectful code runs in the history monad [io E A] of this
    file: a computation extends a history of events (newest first) and may run out
    of the fuel of a loop ([None]). The outside world - sockets, files, clocks,
    processes, randomness, third-party crates - is a class of oracles over the
    history or over their arguments, so a theorem holds whatever they answer; where
    a theorem needs documented behaviour of a crate it is a named hypothesis with a
    witness. [hoare], [keeps], [emits], [yields], [does], [adds] and [always] below
    are the program logic.

    ** Files

    - [Prelude]: results, strings, machine integers, the history monad and its
      logic, the shared tactics and hint databases. [Decimal]: numerals. [Utf8]: which
      bytes are a Rust string.
    - [Json], [World], [Bridge], [EnvNames]: JSON values and canonical order
      ([sort_json] of protocol.rs, [canonical_json_bytes] of diagnostics.rs), the
      crates' interfaces, the JSON-RPC client of bridge.rs, the names of
      env_names.rs.
    - [Protocol], [Contact], [RuntimeEnv]: protocol.rs, contact.rs, runtime_env.rs.
    - [CustomerEnvironment]: customer_environment.rs and the environment half of
      supervisor.rs.
    - [Sampler], [Thermal], [Memory]: the sampler threads and readers of thermal.rs
      and memory.rs.
    - [RestartPolicy], [Supervisor], [Lifecycle], [Liveness]: the supervision loop
      of supervisor.rs; [Monitor] is the automaton logic used for it.
    - [Wire], [Gateway]: octets and addresses; route reading, gateway selection
      and control exchanges of network_traversal/gateway.rs.
    - [Traversal], [Evidence]: the grants of network_traversal/descriptor.rs and
      reserve.rs; the capabilities, receipts, transcripts and results of auth.rs,
      proof.rs and result.rs.
    - [Mapping], [Xml], [Upnp]: PCP and NAT-PMP of mapping.rs; the XML lexer and
      the UPnP adapter of mapping/upnp.rs.
    - [Igd]: SSDP discovery of the gateway's control point, igd.rs.
    - [MappingLifecycle]: the mapping run of lifecycle.rs.
    - [SnapshotFormat], [SnapshotWrite], [SnapshotRestore]: state_snapshot.rs: the
      sealed chunks and the signed manifest chain; the source walk, the chunk sink
      and the object directory; the restore into a staging directory.
    - [PayloadProtocol], [PayloadDownload]: payload_protocol.rs with
      descriptor.rs; payload_download.rs over the GET seam of http.rs.
    - [FileSecrets], [Lockbox]: file_secrets.rs over a file system whose calls may
      fail; the Lockbox exchanges of log_config_secret.rs and the customer delivery
      of job_secrets.rs, which installs its files through [FileSecrets].
    - [LogConfig], [LogRedact], [LogQueue], [LogWorker]: logging.rs: the sink's
      configuration; the redaction of provider lines; the producers as threads over
      the shared queues and counters; the worker that batches, signs and sends.

    ** What the theorems show

    Supervision: every run refines a life-cycle automaton (one process group at a
    time, no start after a signal, SIGTERM only once the process is over, SIGKILL only
    then or after its grace), terminates on a host that makes progress, starts the
    customer in an environment whose protected names are only those handed to it, and
    returns the status it should. First contact and the runtime environment: a response reaches
    the caller only as the bound answer to the one request that was signed.
    Environments, restart decisions, memory and thermal readings: exact functional
    characterisations. Bridge: a call accepts only its own reply. Gateway: selection
    is exact, discovery always returns, exchanges stay at the gateway. Grants and
    evidence: codecs are exact, a phase of a result equals the transcript of its proof
    or says that nothing was attempted, mutation needs consent. Mappings: what an attempt reports agrees with what it exchanged; UPnP
    refines an abstract protocol. IGD discovery: a control point that is found lies
    on the gateway and was selected from the description that the gateway's own reply
    names, the device description reader is well
    typed and total, the search ends. Mapping lifecycle: a run stays within its grant,
    measures before it mutates, stops at uncertainty and deletes what it adopted
    while there is time. Snapshots: a chunk opens to what was sealed, a head digest
    determines the whole history, a write leaves earlier objects readable at every
    moment and a successful one is complete, a restore replaces its target only by the
    rename of a verified staging directory and otherwise changes only what is below
    that directory or named by an absolute entry path, and what was written restores. Payloads: a verified download is exactly
    the bound artifact, its requests are authorised, fresh and bounded, and an
    accepted inventory can be unpacked below a directory. Secrets: a payload comes
    only from the bound answer to a signed request and carries each requested secret
    once; the customer's environment gets all variables of a delivery, after its files
    were installed, or none; and an installation never leaves a torn file, even when it
    is interrupted. Logging: a
    configuration is bound to the bootstrap, a sanitized line follows no marker with a
    value, admission to the queues is exact under every interleaving and its rate is
    bounded, records are delivered in order and at least once and leave the worker
    exactly when the sink acknowledged them, and the end of a run is always
    acknowledged.

    ** Fuel and bounds

    A loop of the code that ends by a bound of its own gets that bound as fuel (the
    retry limits, the eight netlink receives, the 64 KiB route file, the length of
    the text a parser consumes, the bytes a download lacks) and a theorem shows
    that the fuel is enough. The supervision loop has none; its termination
    theorem gives the fuel from the host's progress. Saturating and checked arithmetic is written out at its width.

    ** Not modelled

    The ureq transport, serde_json, SHA-256, HMAC, the ciphers and signatures,
    FastCDC, the tar reader, hex and base64, URL parsing and the kernel are
    parameters. Not modelled yet: the access providers (access.rs and access/), the
    diagnostics client, coverage and processor facts,
    discovery directories, network samples, UDP behaviour experiments, the native listener of the mapping lifecycle, and the command-line
    binaries, which only wire the parts together. [Debug] instances and log texts are left out. *)
From Stdlib Require Import Ascii.
From stdpp Require Import prelude strings.

Local Open Scope Z_scope.

(** ** Fallible results

    Rust's [Result], with the [?] operator as the notation [let? x := c in k]. *)

Inductive result (A E : Type) : Type :=
| Ok (a : A)
| Err (e : E).
Arguments Ok {A E} a.
Arguments Err {A E} e.

Declare Scope rust_scope.
Delimit Scope rust_scope with rust.
Open Scope rust_scope.

Notation "'let?' x ':=' c 'in' k" :=
  (match c with Ok x => k | Err e => Err e end)
  (at level 10, x name, c at level 200, k at level 200) : rust_scope.

Definition map_err {A E F} (f : E -> F) (r : result A E) : result A F :=
  match r with Ok a => Ok a | Err e => Err (f e) end.

Definition ok_or {A E} (e : E) (o : option A) : result A E :=
  match o with Some a => Ok a | None => Err e end.

Definition is_ok {A E} (r : result A E) : bool :=
  match r with Ok _ => true | Err _ => false end.

(** [Result::ok]. *)
Definition result_ok {A E} (r : result A E) : option A :=
  match r with Ok a => Some a | Err _ => None end.

#[global] Instance result_eq_dec {A E} `{!EqDecision A, !EqDecision E} :
  EqDecision (result A E).
Proof. solve_decision. Defined.

(** [Option::filter], [Option::is_none_or], [Option::is_some_and] and
    [bool::then_some]. *)
Definition opt_filter {A} (p : A -> bool) (o : option A) : option A :=
  match o with Some a => if p a then Some a else None | None => None end.

Definition is_none_or {A} (o : option A) (p : A -> bool) : bool :=
  match o with Some a => p a | None => true end.

Definition is_some_and {A} (o : option A) (p : A -> bool) : bool :=
  match o with Some a => p a | None => false end.

Definition opt_is_some {A} (o : option A) : bool :=
  match o with Some _ => true | None => false end.

Definition opt_is_none {A} (o : option A) : bool :=
  match o with Some _ => false | None => true end.

Definition then_some {A} (b : bool) (a : A) : option A :=
  if b then Some a else None.

(** ** Machine integers

    Unsigned integers are [Z] kept inside their width by the operations the
    source uses: checked, saturating and narrowing conversions. *)

Definition u8_max : Z := 2 ^ 8 - 1.
Definition u16_max : Z := 2 ^ 16 - 1.
Definition u32_max : Z := 2 ^ 32 - 1.
Definition u64_max : Z := 2 ^ 64 - 1.
Definition i32_max : Z := 2 ^ 31 - 1.
Definition i32_min : Z := - 2 ^ 31.

Definition is_u8 (z : Z) : Prop := 0 <= z <= u8_max.
Definition is_u16 (z : Z) : Prop := 0 <= z <= u16_max.
Definition is_u32 (z : Z) : Prop := 0 <= z <= u32_max.
Definition is_u64 (z : Z) : Prop := 0 <= z <= u64_max.

Definition checked_add_u64 (a b : Z) : option Z :=
  if a + b <=? u64_max then Some (a + b) else None.

Definition checked_sub_u64 (a b : Z) : option Z :=
  if b <=? a then Some (a - b) else None.

Definition saturating_add (max a b : Z) : Z := Z.min max (a + b).
Definition saturating_sub_u (a b : Z) : Z := Z.max 0 (a - b).

(** [u8::try_from], [i32::try_from]. *)
Definition u8_try_from (z : Z) : option Z :=
  if (0 <=? z) && (z <=? u8_max) then Some z else None.
Definition i32_try_from (z : Z) : option Z :=
  if (i32_min <=? z) && (z <=? i32_max) then Some z else None.

(** ** Time

    [std::time::Duration] is a number of nanoseconds, at most [u64::MAX]
    seconds and 999999999 nanoseconds.  [Instant] is a monotonic nanosecond
    count whose seconds fit an [i64]. *)

Definition NANOS_PER_SEC : Z := 1000000000.
Definition NANOS_PER_MILLI : Z := 1000000.
Definition DURATION_MAX : Z := u64_max * NANOS_PER_SEC + 999999999.
Definition INSTANT_MAX : Z := (2 ^ 63 - 1) * NANOS_PER_SEC + 999999999.

Definition from_secs (s : Z) : Z := s * NANOS_PER_SEC.
Definition from_millis (ms : Z) : Z := ms * NANOS_PER_MILLI.
Definition as_millis (d : Z) : Z := d / NANOS_PER_MILLI.

Definition duration_checked_add (a b : Z) : option Z :=
  if a + b <=? DURATION_MAX then Some (a + b) else None.
Definition duration_saturating_sub (a b : Z) : Z := Z.max 0 (a - b).

Definition instant_checked_add (i d : Z) : option Z :=
  if i + d <=? INSTANT_MAX then Some (i + d) else None.
Definition saturating_duration_since (later earlier : Z) : Z :=
  Z.max 0 (later - earlier).

(** ** Byte strings

    A Rust [str] or [&[u8]] is a [string] of bytes, so that [len] is a byte
    count. *)

Definition byte (a : ascii) : Z := Z.of_N (N_of_ascii a).
Definition bytes (s : string) : list ascii := String.list_ascii_of_string s.
Definition of_bytes (l : list ascii) : string := String.string_of_list_ascii l.
Definition len (s : string) : Z := Z.of_nat (String.length s).
Definition str_is_empty (s : string) : bool :=
  match s with EmptyString => true | String _ _ => false end.
Definition str_eqb (a b : string) : bool := String.eqb a b.
Notation "a =s b" := (str_eqb a b) (at level 70) : rust_scope.

Definition byte_between (lo hi : Z) (a : ascii) : bool :=
  (lo <=? byte a) && (byte a <=? hi).
Definition byte_is (z : Z) (a : ascii) : bool := byte a =? z.

Definition is_ascii_digit : ascii -> bool := byte_between 48 57.
Definition is_ascii_uppercase : ascii -> bool := byte_between 65 90.
Definition is_ascii_lowercase : ascii -> bool := byte_between 97 122.
Definition is_ascii_alphanumeric (a : ascii) : bool :=
  is_ascii_digit a || is_ascii_uppercase a || is_ascii_lowercase a.
Definition is_ascii_hexdigit (a : ascii) : bool :=
  is_ascii_digit a || byte_between 65 70 a || byte_between 97 102 a.
Definition is_ascii_graphic : ascii -> bool := byte_between 33 126.
Definition is_ascii_control (a : ascii) : bool :=
  byte_between 0 31 a || byte_is 127 a.

Definition byte_to_ascii_lowercase (a : ascii) : ascii :=
  if is_ascii_uppercase a then ascii_of_N (N_of_ascii a + 32) else a.

Definition bytes_all (p : ascii -> bool) (s : string) : bool := forallb p (bytes s).
Definition bytes_any (p : ascii -> bool) (s : string) : bool := existsb p (bytes s).

Fixpoint to_ascii_lowercase (s : string) : string :=
  match s with
  | EmptyString => EmptyString
  | String a s => String (byte_to_ascii_lowercase a) (to_ascii_lowercase s)
  end.

Fixpoint strip_prefix (p s : string) : option string :=
  match p, s with
  | EmptyString, _ => Some s
  | String a p, String b s => if Ascii.eqb a b then strip_prefix p s else None
  | String _ _, EmptyString => None
  end.

Definition starts_with (p s : string) : bool := opt_is_some (strip_prefix p s).
Definition str_rev (s : string) : string := of_bytes (rev (bytes s)).
Definition contains_nul (s : string) : bool := bytes_any (byte_is 0) s.
Definition ends_with (p s : string) : bool := starts_with (str_rev p) (str_rev s).

(** [slice::split]: the pieces between the bytes [p] selects, empty ones
    included. *)
Fixpoint split_bytes (p : ascii -> bool) (l : list ascii) : list (list ascii) :=
  match l with
  | [] => [[]]
  | a :: l =>
      if p a then [] :: split_bytes p l
      else match split_bytes p l with
           | [] => [[a]]
           | w :: ws => (a :: w) :: ws
           end
  end.
Definition split (p : ascii -> bool) (s : string) : list string :=
  map of_bytes (split_bytes p (bytes s)).

(** The first [n] bytes. *)
Definition str_take (n : Z) (s : string) : string := of_bytes (take (Z.to_nat n) (bytes s)).

(** [str::contains]. *)
Fixpoint contains (needle s : string) : bool :=
  starts_with needle s ||
  match s with EmptyString => false | String _ s => contains needle s end.

(** [str::split_once]. *)
Fixpoint split_once (sep s : string) : option (string * string) :=
  match strip_prefix sep s with
  | Some rest => Some (EmptyString, rest)
  | None =>
      match s with
      | EmptyString => None
      | String a s => '(before, after) ← split_once sep s; Some (String a before, after)
      end
  end.

(** [str::parse] for integers: an optional sign, at least one digit, and a
    value in range. *)
Definition digit_value (a : ascii) : Z := byte a - 48.
Definition digits_value (l : list ascii) : Z := foldl (fun acc a => acc * 10 + digit_value a) 0 l.
Definition parse_digits (s : string) : option Z :=
  if negb (str_is_empty s) && bytes_all is_ascii_digit s then Some (digits_value (bytes s)) else None.
Definition parse_unsigned (max : Z) (s : string) : option Z :=
  opt_filter (fun z => z <=? max) (parse_digits (default s (strip_prefix "+" s))).
Definition parse_i32 (s : string) : option Z :=
  match strip_prefix "-" s with
  | Some digits => z ← parse_digits digits; i32_try_from (- z)
  | None => z ← parse_digits (default s (strip_prefix "+" s)); i32_try_from z
  end.

(** [str::trim]: the UTF-8 encodings of the code points with the Unicode
    [White_Space] property, removed from both ends.  Encodings are
    self-synchronising, so a suffix that spells one of them is the last
    character. *)
Definition utf8 (l : list N) : string := of_bytes (map ascii_of_N l).
Definition WHITE_SPACE : list string :=
  map utf8
    ([[9]; [10]; [11]; [12]; [13]; [32]; [194; 133]; [194; 160]; [225; 154; 128];
      [226; 128; 168]; [226; 128; 169]; [226; 128; 175]; [226; 129; 159]; [227; 128; 128]]
     ++ map (fun b => [226; 128; b]) [128; 129; 130; 131; 132; 133; 134; 135; 136; 137; 138])%N.

Fixpoint strip_any (ps : list string) (s : string) : option string :=
  match ps with
  | [] => None
  | p :: ps => match strip_prefix p s with Some r => Some r | None => strip_any ps s end
  end.
Fixpoint strip_all (ps : list string) (fuel : nat) (s : string) : string :=
  match fuel with
  | O => s
  | S fuel => match strip_any ps s with Some r => strip_all ps fuel r | None => s end
  end.
Definition trim_start (s : string) : string := strip_all WHITE_SPACE (String.length s) s.
Definition trim_end (s : string) : string :=
  str_rev (strip_all (map str_rev WHITE_SPACE) (String.length s) (str_rev s)).
Definition trim (s : string) : string := trim_end (trim_start s).

(** [str::lines] splits at newlines, drops one final empty piece and one
    carriage return before each newline; [split_whitespace] takes the
    non-empty pieces between Unicode white space. *)
Definition strip_cr (s : string) : string :=
  match strip_prefix (String (ascii_of_N 13) EmptyString) (str_rev s) with
  | Some r => str_rev r
  | None => s
  end.

Definition lines (contents : string) : list string :=
  match rev (split (byte_is 10) contents) with
  | [] => []
  | last :: before =>
      map strip_cr (rev before) ++ (if str_is_empty last then [] else [last])
  end.

(** The fuel is the length of the text, which every step shortens. *)
Fixpoint words (fuel : nat) (word : list ascii) (s : string) : list (list ascii) :=
  match fuel, s with
  | S fuel, String a rest =>
      match strip_any WHITE_SPACE s with
      | Some r => rev word :: words fuel [] r
      | None => words fuel (a :: word) rest
      end
  | _, _ => [rev word]
  end.
Definition split_whitespace (s : string) : list string :=
  List.filter (fun w => negb (str_is_empty w)) (map of_bytes (words (String.length s) [] s)).

(** ** Effects

    A computation reads its environment through oracles that see the whole
    history of events, newest first, and appends what it does.  Quantifying
    over the oracles is quantifying over every environment.  [None] is a run
    that used up the bound of one of its loops. *)

Definition io (E A : Type) : Type := list E -> option A * list E.

#[global] Instance io_ret {E} : MRet (io E) := fun A a t => (Some a, t).
#[global] Instance io_bind {E} : MBind (io E) := fun A B k m t =>
  match m t with
  | (Some a, t') => k a t'
  | (None, t') => (None, t')
  end.

Definition diverge {E A} : io E A := fun t => (None, t).
Definition emit {E} (e : E) : io E unit := fun t => (Some tt, e :: t).
Definition ask {E A} (oracle : list E -> A) (ev : A -> E) : io E A :=
  fun t => let a := oracle t in (Some a, ev a :: t).

(** [for _ in 0..n] and [loop]/[while]: one fuel unit per iteration; [inl]
    continues and [inr] leaves the loop. *)
Fixpoint loop {E S A} (fuel : nat) (body : S -> io E (S + A)) (s : S) : io E A :=
  match fuel with
  | O => diverge
  | Datatypes.S fuel =>
      r ← body s;
      match r with
      | inl s' => loop fuel body s'
      | inr a => mret a
      end
  end.

Notation "'let!?' x ':=' c 'in' k" :=
  (r ← c; match r with Ok x => k | Err e => mret (Err e) end)
  (at level 10, x name, c at level 200, k at level 200) : rust_scope.

Definition io_lift {E A} (a : A) : io E A := mret a.

(** *** Program logic

    [hoare P m Q D]: from a history satisfying [P], [m] either returns [a] in a
    history satisfying [Q a] or exhausts a loop bound in a history satisfying
    [D]. *)

Definition hoare {E A} (P : list E -> Prop) (m : io E A)
    (Q : A -> list E -> Prop) (D : list E -> Prop) : Prop :=
  forall t, P t ->
    match m t with
    | (Some a, t') => Q a t'
    | (None, t') => D t'
    end.

Section hoare_rules.
Context {E : Type}.
Implicit Types (P D : list E -> Prop).

Lemma hoare_ret {A} (a : A) (Q : A -> list E -> Prop) D : hoare (Q a) (mret a) Q D.
Proof. intros t H. exact H. Qed.

Lemma hoare_bind {A B} P (m : io E A) (k : A -> io E B) R Q D :
  hoare P m R D -> (forall a, hoare (R a) (k a) Q D) -> hoare P (m ≫= k) Q D.
Proof.
  intros Hm Hk t Ht. specialize (Hm t Ht). unfold mbind, io_bind.
  destruct (m t) as [[a|] t']; [by apply Hk | done].
Qed.

Lemma hoare_conseq {A} P P' (m : io E A) (Q Q' : A -> list E -> Prop) D D' :
  hoare P' m Q' D' -> (forall t, P t -> P' t) ->
  (forall a t, Q' a t -> Q a t) -> (forall t, D' t -> D t) -> hoare P m Q D.
Proof.
  intros Hm HP HQ HD t Ht. specialize (Hm t (HP t Ht)).
  destruct (m t) as [[a|] t']; auto.
Qed.

Lemma hoare_pre {A} P P' (m : io E A) Q D :
  hoare P' m Q D -> (forall t, P t -> P' t) -> hoare P m Q D.
Proof. intros Hm HP. by eapply hoare_conseq. Qed.

Lemma hoare_and {A} P P' (m : io E A) Q Q' D D' :
  hoare P m Q D -> hoare P' m Q' D' ->
  hoare (fun t => P t /\ P' t) m (fun a t => Q a t /\ Q' a t) (fun t => D t /\ D' t).
Proof.
  intros Hm Hm' t [Ht Ht']. specialize (Hm t Ht). specialize (Hm' t Ht').
  by destruct (m t) as [[a|] t'].
Qed.

Lemma hoare_emit P (e : E) (Q : unit -> list E -> Prop) D :
  (forall t, P t -> Q tt (e :: t)) -> hoare P (emit e) Q D.
Proof. intros H t Ht. by apply H. Qed.

Lemma hoare_ask {A} P (oracle : list E -> A) ev (Q : A -> list E -> Prop) D :
  (forall t, P t -> Q (oracle t) (ev (oracle t) :: t)) -> hoare P (ask oracle ev) Q D.
Proof. intros H t Ht. by apply H. Qed.

Lemma hoare_loop {S A} (I : S -> list E -> Prop) (body : S -> io E (S + A)) Q D fuel s :
  (forall s, hoare (I s) (body s)
     (fun r t => match r with inl s' => I s' t | inr a => Q a t end) D) ->
  (forall s t, I s t -> D t) ->
  hoare (I s) (loop fuel body s) Q D.
Proof.
  intros Hbody HD. revert s. induction fuel as [|fuel IH]; intros s; simpl.
  - intros t Ht. simpl. by eapply HD.
  - eapply hoare_bind; [apply Hbody |]. intros [s'|a]; simpl; [apply IH | by intros t ?].
Qed.

(** An invariant that every step keeps is kept by the whole run, whether it
    returns or not. *)
Lemma hoare_use {A} P (m : io E A) Q D t :
  hoare P m Q D -> P t -> (forall a t', Q a t' -> D t') -> D (snd (m t)).
Proof. intros Hm Ht HQ. specialize (Hm t Ht). destruct (m t) as [[a|] t']; simpl; eauto. Qed.

End hoare_rules.

(** [keeps I m]: [m] always returns and keeps the invariant [I] of the history. *)
Definition keeps {E A} (I : list E -> Prop) (m : io E A) : Prop := hoare I m (fun _ => I) (fun _ => False).

Section keeps_rules.
Context {E : Type} (I : list E -> Prop).

Lemma keeps_ret {A} (a : A) : keeps I (mret a).
Proof. by intros t. Qed.

Lemma keeps_bind {A B} (m : io E A) (k : A -> io E B) :
  keeps I m -> (forall a, keeps I (k a)) -> keeps I (m ≫= k).
Proof. apply hoare_bind. Qed.

Lemma keeps_elim {A} (m : io E A) : keeps I m -> hoare I m (fun _ => I) (fun _ => False).
Proof. done. Qed.

Lemma keeps_ask {A} (oracle : list E -> A) ev :
  (forall t a, I t -> I (ev a :: t)) -> keeps I (ask oracle ev).
Proof. intros H t Ht. by apply H. Qed.

End keeps_rules.

Create HintDb keeps.
#[export] Hint Resolve keeps_ret : keeps.

(** Walk through a computation built from binds and tests. *)
Ltac solve_keeps :=
  repeat first
    [ apply keeps_ret
    | solve [auto with keeps]
    | apply keeps_bind; [| intros ?]
    | match goal with |- keeps _ (match ?x with _ => _ end) => destruct x end ];
  auto with keeps.

Lemma loop_S {E S A} fuel (body : S -> io E (S + A)) s t :
  loop (Datatypes.S fuel) body s t =
    match body s t with
    | (Some (inl s'), t') => loop fuel body s' t'
    | (Some (inr a), t') => (Some a, t')
    | (None, t') => (None, t')
    end.
Proof. simpl. unfold mbind, io_bind. by destruct (body s t) as [[[s'|a]|] t']. Qed.

(** *** Totality

    A loop whose state decreases a measure returns as soon as its fuel exceeds
    the measure of the initial state. *)
Lemma loop_total {E S A} (m : S -> nat) (body : S -> io E (S + A)) :
  (forall s t, exists r t', body s t = (Some r, t') /\
     match r with inl s' => (m s' < m s)%nat | inr _ => True end) ->
  forall fuel s t, (m s < fuel)%nat -> exists a t', loop fuel body s t = (Some a, t').
Proof.
  intros Hbody fuel. induction fuel as [|fuel IH]; intros s t Hlt; [lia |].
  rewrite loop_S. destruct (Hbody s t) as ([s'|a] & t' & Hb & Hm); rewrite Hb.
  - apply IH. lia.
  - by exists a, t'.
Qed.

(** [emits P m]: [m] always returns, and every event it adds satisfies [P]. *)
Definition emits {E A} (P : E -> Prop) (m : io E A) : Prop :=
  forall t, exists a es, m t = (Some a, es ++ t) /\ Forall P es.

Section emits_rules.
Context {E : Type} (P : E -> Prop).

Lemma emits_ret {A} (a : A) : emits P (mret a).
Proof. intros t. by exists a, []. Qed.

Lemma emits_bind {A B} (m : io E A) (k : A -> io E B) :
  emits P m -> (forall a, emits P (k a)) -> emits P (m ≫= k).
Proof.
  intros Hm Hk t. destruct (Hm t) as (a & es & Hrun & Hes).
  destruct (Hk a (es ++ t)) as (b & es' & Hrun' & Hes').
  exists b, (es' ++ es). unfold mbind, io_bind. rewrite Hrun, Hrun', app_assoc.
  split; [done |]. by apply Forall_app.
Qed.

Lemma emits_ask {A} (oracle : list E -> A) ev : (forall a, P (ev a)) -> emits P (ask oracle ev).
Proof. intros H t. exists (oracle t), [ev (oracle t)]. split; [done |]. by constructor. Qed.

Lemma emits_emit e : P e -> emits P (emit e).
Proof. intros H t. exists tt, [e]. split; [done |]. by constructor. Qed.

Lemma emits_grows {A} (m : io E A) t o t' :
  emits P m -> m t = (o, t') -> exists es, t' = es ++ t.
Proof. intros Hm Hrun. destruct (Hm t) as (a & es & Hrun' & _). exists es. congruence. Qed.

End emits_rules.

(** [yields P Q m]: [m] always returns, with a value satisfying [Q], and every
    event it adds satisfies [P]. *)
Definition yields {E A} (P : E -> Prop) (Q : A -> Prop) (m : io E A) : Prop :=
  forall t, exists a es, m t = (Some a, es ++ t) /\ Forall P es /\ Q a.

Section yields_rules.
Context {E : Type} (P : E -> Prop).

Lemma yields_ret {A} (Q : A -> Prop) (a : A) : Q a -> yields P Q (mret a).
Proof. intros Ha t. by exists a, []. Qed.

Lemma yields_bind {A B} (R : A -> Prop) (Q : B -> Prop) (m : io E A) (k : A -> io E B) :
  yields P R m -> (forall a, R a -> yields P Q (k a)) -> yields P Q (m ≫= k).
Proof.
  intros Hm Hk t. destruct (Hm t) as (a & es & Hrun & Hes & Ha).
  destruct (Hk a Ha (es ++ t)) as (b & es' & Hrun' & Hes' & Hb).
  exists b, (es' ++ es). unfold mbind, io_bind. rewrite Hrun, Hrun', app_assoc.
  split_and!; [done | by apply Forall_app | done].
Qed.

Lemma yields_ask {A} (Q : A -> Prop) (oracle : list E -> A) ev :
  (forall t, P (ev (oracle t)) /\ Q (oracle t)) -> yields P Q (ask oracle ev).
Proof. intros H t. exists (oracle t), [ev (oracle t)]. destruct (H t). split_and!; [done | by repeat constructor | done]. Qed.

Lemma yields_conseq {A} (R Q : A -> Prop) (m : io E A) :
  yields P R m -> (forall a, R a -> Q a) -> yields P Q m.
Proof. intros Hm HRQ t. destruct (Hm t) as (a & es & ? & ? & ?). exists a, es. auto. Qed.

Lemma emits_yields {A} (m : io E A) : emits P m -> yields P (fun _ => True) m.
Proof. intros Hm t. destruct (Hm t) as (a & es & ? & ?). by exists a, es. Qed.

Lemma yields_emits {A} (Q : A -> Prop) (m : io E A) : yields P Q m -> emits P m.
Proof. intros Hm t. destruct (Hm t) as (a & es & ? & ? & _). by exists a, es. Qed.

(** A loop whose state keeps an invariant and decreases a measure. *)
Lemma yields_loop {S A} (I : S -> Prop) (measure : S -> nat) (Q : A -> Prop)
    (body : S -> io E (S + A)) fuel s :
  (forall s, I s -> yields P (fun r => match r with
     | inl s' => I s' /\ (measure s' < measure s)%nat
     | inr a => Q a
     end) (body s)) ->
  I s -> (measure s < fuel)%nat -> yields P Q (loop fuel body s).
Proof.
  intros Hbody. revert s. induction fuel as [|fuel IH]; intros s Hs Hm; [lia |].
  simpl. eapply yields_bind; [by apply Hbody |]. intros [s'|a] Hr; [| by apply yields_ret].
  destruct Hr. apply IH; [done | lia].
Qed.

End yields_rules.

(** [returns Q m]: every value [m] returns satisfies [Q], in any environment. *)
Definition returns {E A} (Q : A -> Prop) (m : io E A) : Prop :=
  forall t a t', m t = (Some a, t') -> Q a.

Section returns_rules.
Context {E : Type}.

Lemma returns_ret {A} (Q : A -> Prop) (a : A) : Q a -> returns (E := E) Q (mret a).
Proof. intros Ha t b t' [= <- _]. done. Qed.

Lemma returns_bind {A B} (R : A -> Prop) (Q : B -> Prop) (m : io E A) (k : A -> io E B) :
  returns R m -> (forall a, R a -> returns Q (k a)) -> returns Q (m ≫= k).
Proof.
  intros Hm Hk t b t'. unfold mbind, io_bind. destruct (m t) as [[a|] t1] eqn:Hrun; [| done].
  intros Hb. by eapply Hk; [eapply Hm |].
Qed.

Lemma returns_any {A} (m : io E A) : returns (fun _ => True) m.
Proof. by intros t a t'. Qed.

Lemma returns_conseq {A} (R Q : A -> Prop) (m : io E A) :
  returns R m -> (forall a, R a -> Q a) -> returns Q m.
Proof. intros Hm HRQ t a t' Hrun. by eapply HRQ, Hm. Qed.

End returns_rules.

(** [does m Q]: [m] always returns, and [Q] holds of what it returns and of the
    events it adds, newest first. *)
Definition does {E A} (m : io E A) (Q : A -> list E -> Prop) : Prop :=
  forall t, exists a es, m t = (Some a, es ++ t) /\ Q a es.

Section does_rules.
Context {E : Type}.

Lemma does_ret {A} (a : A) (Q : A -> list E -> Prop) : Q a [] -> does (mret a) Q.
Proof. intros HQ t. by exists a, []. Qed.

Lemma does_bind {A B} (R : A -> list E -> Prop) (m : io E A) (k : A -> io E B) (Q : B -> list E -> Prop) :
  does m R -> (forall a es, R a es -> does (k a) (fun b es' => Q b (es' ++ es))) -> does (m ≫= k) Q.
Proof.
  intros Hm Hk t. destruct (Hm t) as (a & es & Hr & HR). destruct (Hk a es HR (es ++ t)) as (b & es' & Hr' & HQ).
  exists b, (es' ++ es). unfold mbind, io_bind. by rewrite Hr, Hr', app_assoc.
Qed.

Lemma does_conseq {A} (m : io E A) (Q Q' : A -> list E -> Prop) :
  does m Q' -> (forall a es, Q' a es -> Q a es) -> does m Q.
Proof. intros Hm HQ t. destruct (Hm t) as (a & es & Hr & ?). exists a, es. auto. Qed.

Lemma does_and {A} (m : io E A) (Q Q' : A -> list E -> Prop) :
  does m Q -> does m Q' -> does m (fun a es => Q a es /\ Q' a es).
Proof.
  intros Hm Hm' t. destruct (Hm t) as (a & es & Hr & ?). destruct (Hm' t) as (a' & es' & Hr' & HQ').
  rewrite Hr in Hr'. injection Hr' as <- He. apply app_inv_tail in He as <-. by exists a, es.
Qed.

Lemma does_ask {A} (oracle : list E -> A) ev (Q : A -> list E -> Prop) :
  (forall t, Q (oracle t) [ev (oracle t)]) -> does (ask oracle ev) Q.
Proof. intros HQ t. by exists (oracle t), [ev (oracle t)]. Qed.

Lemma does_loop {S A} (measure : S -> nat) (I : S -> list E -> Prop) (body : S -> io E (S + A))
    (Q : A -> list E -> Prop) :
  (forall s es, I s es -> does (body s) (fun r es' =>
     match r with
     | inl s' => I s' (es' ++ es) /\ (measure s' < measure s)%nat
     | inr a => Q a (es' ++ es)
     end)) ->
  forall fuel s es, I s es -> (measure s < fuel)%nat ->
    does (loop fuel body s) (fun a es' => Q a (es' ++ es)).
Proof.
  intros Hbody fuel. induction fuel as [|fuel IH]; intros s es HI Hf; [lia |]. cbn [loop].
  eapply does_bind; [by apply Hbody |]. intros [s'|a] es'; cbn beta iota.
  - intros [HI' Hm]. eapply does_conseq; [apply (IH s' (es' ++ es)); [done | lia] |].
    intros a es2 HQ. by rewrite <- app_assoc.
  - intros HQ. by apply does_ret.
Qed.

End does_rules.

(** [adds m Q]: whether [m] returns or runs out of fuel, [Q] holds of what it
    returns and of the events it adds, newest first. *)
Definition adds {E A} (m : io E A) (Q : option A -> list E -> Prop) : Prop :=
  forall t, exists o es, m t = (o, es ++ t) /\ Q o es.

Section adds_rules.
Context {E : Type}.

Lemma adds_ret {A} (a : A) (Q : option A -> list E -> Prop) : Q (Some a) [] -> adds (mret a) Q.
Proof. intros HQ t. by exists (Some a), []. Qed.

Lemma adds_diverge {A} (Q : option A -> list E -> Prop) : Q None [] -> adds diverge Q.
Proof. intros HQ t. by exists None, []. Qed.

Lemma adds_bind {A B} (R : option A -> list E -> Prop) (m : io E A) (k : A -> io E B) (Q : option B -> list E -> Prop) :
  adds m R -> (forall es, R None es -> Q None es) ->
  (forall a es, R (Some a) es -> adds (k a) (fun o es' => Q o (es' ++ es))) -> adds (m ≫= k) Q.
Proof.
  intros Hm Hn Hk t. destruct (Hm t) as ([a|] & es & Hr & HR); unfold mbind, io_bind; rewrite Hr.
  - destruct (Hk a es HR (es ++ t)) as (o & es' & Hr' & HQ). exists o, (es' ++ es). by rewrite Hr', app_assoc.
  - exists None, es. auto.
Qed.

Lemma adds_conseq {A} (m : io E A) (Q Q' : option A -> list E -> Prop) :
  adds m Q' -> (forall o es, Q' o es -> Q o es) -> adds m Q.
Proof. intros Hm HQ t. destruct (Hm t) as (o & es & Hr & ?). exists o, es. auto. Qed.

Lemma adds_ask {A} (oracle : list E -> A) ev (Q : option A -> list E -> Prop) :
  (forall a, Q (Some a) [ev a]) -> adds (ask oracle ev) Q.
Proof. intros HQ t. by exists (Some (oracle t)), [ev (oracle t)]. Qed.

Lemma adds_does {A} (m : io E A) (Q : option A -> list E -> Prop) :
  does m (fun a => Q (Some a)) -> adds m Q.
Proof. intros Hm t. destruct (Hm t) as (a & es & Hr & ?). by exists (Some a), es. Qed.

(** An invariant of the loop's state and of the events so far. *)
Lemma adds_loop {S A} (I : S -> list E -> Prop) (body : S -> io E (S + A)) (Q : option A -> list E -> Prop) :
  (forall s es, I s es -> Q None es) ->
  (forall s es, I s es -> adds (body s) (fun r es' =>
     match r with
     | Some (inl s') => I s' (es' ++ es)
     | Some (inr a) => Q (Some a) (es' ++ es)
     | None => Q None (es' ++ es)
     end)) ->
  forall fuel s es, I s es -> adds (loop fuel body s) (fun o es' => Q o (es' ++ es)).
Proof.
  intros Hn Hbody fuel. induction fuel as [|fuel IH]; intros s es HI; cbn [loop].
  { apply adds_diverge. by eapply Hn. }
  eapply adds_bind; [by apply Hbody | done |]. intros [s'|a] es' HQ; [| by apply adds_ret].
  eapply adds_conseq; [apply (IH s' (es' ++ es) HQ) |]. intros o es2 HQ2. by rewrite <- app_assoc.
Qed.

End adds_rules.

(** [always safe P m Q]: from a safe history satisfying [P], [m] returns, leaves a
    safe history and [Q] holds of its result and of that history.  With [safe] a
    property of every moment of a history, no moment of [m] breaks it. *)
Definition always {E A} (safe P : list E -> Prop) (m : io E A) (Q : A -> list E -> Prop) : Prop :=
  forall t, safe t -> P t -> exists a es, m t = (Some a, es ++ t) /\ safe (es ++ t) /\ Q a (es ++ t).

Section always_rules.
Context {E : Type} {safe : list E -> Prop}.

Lemma always_ret {A} (a : A) P (Q : A -> list E -> Prop) : (forall t, P t -> Q a t) -> always safe P (mret a) Q.
Proof. intros HQ t Hs HP. exists a, []. auto. Qed.

Lemma always_bind {A B} P (m : io E A) (k : A -> io E B) R Q :
  always safe P m R -> (forall a, always safe (R a) (k a) Q) -> always safe P (m ≫= k) Q.
Proof.
  intros Hm Hk t Hs HP. destruct (Hm t Hs HP) as (a & es & Hr & Hs' & HR).
  destruct (Hk a _ Hs' HR) as (b & es' & Hr' & Hs'' & HQ). exists b, (es' ++ es).
  unfold mbind, io_bind. rewrite Hr, <- app_assoc. done.
Qed.

Lemma always_conseq {A} P P' (m : io E A) (Q Q' : A -> list E -> Prop) :
  always safe P' m Q' -> (forall t, P t -> P' t) -> (forall a t, Q' a t -> Q a t) -> always safe P m Q.
Proof.
  intros Hm HP HQ t Hs Ht. destruct (Hm t Hs (HP _ Ht)) as (a & es & ? & ? & ?). exists a, es. auto.
Qed.

Lemma always_pre {A} P P' (m : io E A) Q : always safe P' m Q -> (forall t, P t -> P' t) -> always safe P m Q.
Proof. intros Hm HP. by eapply always_conseq. Qed.

Lemma always_post {A} P (m : io E A) (Q Q' : A -> list E -> Prop) :
  always safe P m Q' -> (forall a t, Q' a t -> Q a t) -> always safe P m Q.
Proof. intros Hm HQ. by eapply always_conseq. Qed.

Lemma always_pure {A} (phi : Prop) P (m : io E A) Q :
  (phi -> always safe P m Q) -> always safe (fun t => P t /\ phi) m Q.
Proof. intros Hm t Hs [HP Hphi]. by apply Hm. Qed.

Lemma always_exists {A X} (P : X -> list E -> Prop) (m : io E A) Q :
  (forall x, always safe (P x) m Q) -> always safe (fun t => exists x, P x t) m Q.
Proof. intros Hm t Hs [x HP]. by apply (Hm x). Qed.

Lemma always_ask {A} P (oracle : list E -> A) ev (Q : A -> list E -> Prop) :
  (forall t, safe t -> P t -> safe (ev (oracle t) :: t) /\ Q (oracle t) (ev (oracle t) :: t)) ->
  always safe P (ask oracle ev) Q.
Proof. intros HQ t Hs HP. exists (oracle t), [ev (oracle t)]. destruct (HQ t Hs HP). auto. Qed.

Lemma always_loop {S A} (measure : S -> nat) (I : S -> list E -> Prop) (body : S -> io E (S + A)) Q :
  (forall s, always safe (I s) (body s)
     (fun r t => match r with inl s' => I s' t /\ (measure s' < measure s)%nat | inr a => Q a t end)) ->
  forall fuel s, (measure s < fuel)%nat -> always safe (I s) (loop fuel body s) Q.
Proof.
  intros Hbody fuel. induction fuel as [|fuel IH]; intros s Hf; [lia |]. cbn [loop].
  eapply always_bind; [apply Hbody |]. intros [s'|a]; [| by apply always_ret].
  apply always_pure. intros Hm. apply IH. lia.
Qed.

End always_rules.

Create HintDb emits.
#[export] Hint Resolve emits_ret emits_emit : emits.

(** Walk through a computation built from binds, tests and oracle calls. *)
Ltac solve_emits :=
  repeat first
    [ apply emits_ret
    | apply emits_ask; intros ?
    | apply emits_emit
    | apply emits_bind; [| intros ?]
    | match goal with |- emits _ (match ?x with _ => _ end) => destruct x end
    | progress simpl ];
  auto with emits.

(** ** Automation *)

(** Turn boolean tests of the code into the propositions they decide. *)
Ltac reflect_bool :=
  repeat match goal with
  | H : (_ && _) = true |- _ => apply andb_true_iff in H; destruct H
  | H : (_ || _) = false |- _ => apply orb_false_iff in H; destruct H
  | H : negb _ = true |- _ => apply negb_true_iff in H
  | H : negb _ = false |- _ => apply negb_false_iff in H
  | H : (_ =? _)%Z = true |- _ => apply Z.eqb_eq in H
  | H : (_ =? _)%Z = false |- _ => apply Z.eqb_neq in H
  | H : (_ <=? _)%Z = true |- _ => apply Z.leb_le in H
  | H : (_ <=? _)%Z = false |- _ => apply Z.leb_gt in H
  | H : (_ <? _)%Z = true |- _ => apply Z.ltb_lt in H
  | H : (_ <? _)%Z = false |- _ => apply Z.ltb_ge in H
  | H : (_ =s _) = true |- _ => apply String.eqb_eq in H
  | H : (_ =s _) = false |- _ => apply String.eqb_neq in H
  end.

(** Split on the scrutinee of a [match] of the goal or of a hypothesis. *)
Ltac split_match :=
  match goal with
  | |- context [match ?x with _ => _ end] => destruct x eqn:?
  end.

Ltac split_match_in H :=
  match type of H with
  | context [match ?x with _ => _ end] => destruct x eqn:?
  end.

Ltac split_all_in H := repeat (split_match_in H; simplify_eq).

(** ** Byte-string lemmas *)

Lemma str_app_assoc (a b c : string) : (a +:+ b) +:+ c = a +:+ (b +:+ c).
Proof. unfold String.app. induction a as [|x a IH]; simpl; congruence. Qed.

Lemma bytes_inj s1 s2 : bytes s1 = bytes s2 -> s1 = s2.
Proof.
  intros H. rewrite <- (String.string_of_list_ascii_of_string s1).
  rewrite <- (String.string_of_list_ascii_of_string s2). by f_equal.
Qed.

Lemma len_nonneg s : 0 <= len s.
Proof. unfold len. lia. Qed.

Lemma bytes_app s1 s2 : bytes (s1 +:+ s2) = bytes s1 ++ bytes s2.
Proof. unfold String.app. induction s1 as [|a s1 IH]; simpl; [done | by f_equal]. Qed.

Lemma bytes_len s : len s = Z.of_nat (length (bytes s)).
Proof. unfold len. f_equal. induction s; simpl; congruence. Qed.

Lemma len_app s1 s2 : len (s1 +:+ s2) = len s1 + len s2.
Proof. rewrite !bytes_len, bytes_app, length_app. lia. Qed.

Lemma len_str_take n s : len (str_take n s) <= len s.
Proof.
  unfold str_take. rewrite !bytes_len. unfold bytes, of_bytes.
  rewrite String.list_ascii_of_string_of_list_ascii, length_take. lia.
Qed.

Lemma str_app_nil_r s : s +:+ EmptyString = s.
Proof. induction s as [|a s IH]; [done |]. exact (f_equal (String a) IH). Qed.

Lemma str_is_empty_false s : str_is_empty s = false <-> s <> EmptyString.
Proof. by destruct s. Qed.

Lemma str_eqb_refl s : (s =s s) = true.
Proof. apply String.eqb_refl. Qed.

Lemma str_eqb_eq s1 s2 : (s1 =s s2) = true <-> s1 = s2.
Proof. apply String.eqb_eq. Qed.

Lemma str_eqb_spec a b : reflect (a = b) (a =s b).
Proof. apply String.eqb_spec. Qed.

Lemma strip_prefix_Some p s r : strip_prefix p s = Some r <-> s = p +:+ r.
Proof.
  unfold String.app. revert s. induction p as [|a p IH]; intros s; simpl.
  - split; congruence.
  - destruct s as [|b s]; [done |]. destruct (Ascii.eqb_spec a b) as [->|Hne].
    + rewrite IH. split; congruence.
    + split; congruence.
Qed.

Lemma strip_prefix_app p r : strip_prefix p (p +:+ r) = Some r.
Proof. by apply strip_prefix_Some. Qed.

Lemma split_once_Some sep s before after :
  split_once sep s = Some (before, after) -> s = before +:+ sep +:+ after.
Proof.
  revert before after. induction s as [|a s IH]; intros before after; cbn [split_once];
    destruct (strip_prefix sep _) as [r|] eqn:Hp; try done.
  - intros [= <- <-]. by apply strip_prefix_Some in Hp.
  - intros [= <- <-]. by apply strip_prefix_Some in Hp.
  - destruct (split_once sep s) as [[b r]|]; [| done]. intros [= <- <-]. cbn. by rewrite (IH b r eq_refl).
Qed.

Lemma bytes_all_lowercase (p : ascii -> bool) s :
  (forall a, p (byte_to_ascii_lowercase a) = p a) ->
  bytes_all p (to_ascii_lowercase s) = bytes_all p s.
Proof.
  intros Hp. unfold bytes_all. induction s as [|a s IH]; simpl; [done |].
  by rewrite Hp, IH.
Qed.

Lemma len_lowercase s : len (to_ascii_lowercase s) = len s.
Proof. unfold len. f_equal. induction s; simpl; congruence. Qed.

Lemma byte_lowercase_idemp a :
  byte_to_ascii_lowercase (byte_to_ascii_lowercase a) = byte_to_ascii_lowercase a.
Proof. by destruct a as [[] [] [] [] [] [] [] []]. Qed.

Lemma to_ascii_lowercase_idemp s : to_ascii_lowercase (to_ascii_lowercase s) = to_ascii_lowercase s.
Proof. induction s as [|a s IH]; simpl; [done |]. by rewrite byte_lowercase_idemp, IH. Qed.

Lemma hexdigit_lowercase a :
  is_ascii_hexdigit (byte_to_ascii_lowercase a) = is_ascii_hexdigit a.
Proof. by destruct a as [[] [] [] [] [] [] [] []]. Qed.

Lemma bytes_all_weaken (p q : ascii -> bool) s :
  (forall a, p a = true -> q a = true) -> bytes_all p s = true -> bytes_all q s = true.
Proof. unfold bytes_all. rewrite !forallb_forall. auto. Qed.

Lemma bytes_all_app p s1 s2 : bytes_all p (s1 +:+ s2) = bytes_all p s1 && bytes_all p s2.
Proof. unfold bytes_all. by rewrite bytes_app, forallb_app. Qed.
