(* ===== verification/Decimal.v ===== *)
(** * Decimal numerals

    What [pretty] prints, what [str::parse] reads back, and the splitting of text at
    a byte it contains once.  The code prints numbers into headers, URLs and names
    and reads them from files and replies. *)
From Stdlib Require Import Ascii.
From stdpp Require Import prelude strings pretty.
From S2P Require Import Prelude.

Local Open Scope Z_scope.

(** The decimal text of a number, of any width, without a leading zero. *)
Definition canonical_digits (s : string) : bool :=
  negb (str_is_empty s || negb (bytes_all is_ascii_digit s) || ((1 <? len s) && starts_with "0" s)).

Lemma digits_value_snoc l a : digits_value (l ++ [a]) = digits_value l * 10 + digit_value a.
Proof. unfold digits_value. by rewrite foldl_app. Qed.

Lemma digit_value_bounds a : is_ascii_digit a = true -> 0 <= digit_value a <= 9.
Proof. unfold is_ascii_digit, byte_between, digit_value. intros H. reflect_bool. lia. Qed.

Lemma digits_value_nonneg l : forallb is_ascii_digit l = true -> 0 <= digits_value l.
Proof.
  induction l as [|a l IH] using rev_ind; [done |]. rewrite forallb_app, digits_value_snoc. cbn [forallb].
  intros H. reflect_bool. pose proof (digit_value_bounds a ltac:(done)). specialize (IH ltac:(done)). lia.
Qed.

Lemma pretty_char_digit a : is_ascii_digit a = true -> pretty_N_char (Z.to_N (digit_value a)) = a.
Proof.
  intros H. destruct a as [[] [] [] [] [] [] [] []]; try discriminate H; reflexivity.
Qed.

Lemma digit_pretty_char n : (n < 10)%N ->
  is_ascii_digit (pretty_N_char n) = true /\ digit_value (pretty_N_char n) = Z.of_N n.
Proof.
  intros Hn. destruct n as [|p]; [done |].
  do 4 (try (destruct p as [p|p|]; try done)); lia.
Qed.

Lemma of_bytes_snoc l a s : of_bytes (l ++ [a]) +:+ s = of_bytes l +:+ String a s.
Proof.
  apply bytes_inj. rewrite !bytes_app. unfold bytes, of_bytes.
  rewrite !String.list_ascii_of_string_of_list_ascii. by rewrite <-app_assoc.
Qed.

(** A numeral without a leading zero prints back. *)
Lemma pretty_N_go_digits l s : forallb is_ascii_digit l = true -> 0 < digits_value (take 1 l) ->
  pretty_N_go (Z.to_N (digits_value l)) s = of_bytes l +:+ s /\ 0 < digits_value l.
Proof.
  revert s. induction l as [|a l IH] using rev_ind; intros s; [done |].
  rewrite forallb_app, digits_value_snoc. cbn [forallb]. intros Hd Hlead. reflect_bool.
  pose proof (digit_value_bounds a ltac:(done)) as Ha. pose proof (digits_value_nonneg l ltac:(done)) as Hl.
  assert (Hpos : 0 < digits_value l * 10 + digit_value a).
  { destruct l as [|b l]; [exact Hlead |]. destruct (IH EmptyString) as [_ ?]; [done | exact Hlead | lia]. }
  split; [| done].
  rewrite pretty_N_go_step by lia.
  replace (Z.to_N _ `div` 10)%N with (Z.to_N (digits_value l)).
  2: { change 10%N with (Z.to_N 10). rewrite <-Z2N.inj_div by lia. f_equal.
       rewrite Z.div_add_l by lia. rewrite (Z.div_small (digit_value a)) by lia. lia. }
  replace (Z.to_N _ `mod` 10)%N with (Z.to_N (digit_value a)).
  2: { change 10%N with (Z.to_N 10). rewrite <-Z2N.inj_mod by lia. f_equal.
       rewrite Z.add_comm, Z.mod_add, Z.mod_small by lia. done. }
  rewrite pretty_char_digit by done.
  destruct l as [|b l]; [by rewrite pretty_N_go_0 |].
  destruct (IH (String a s)) as [-> _]; [done | exact Hlead |].
  by rewrite of_bytes_snoc.
Qed.

(** What is printed is a numeral of the number, without a leading zero. *)
Lemma pretty_N_go_spec n s : exists p,
  pretty_N_go n s = p +:+ s /\ bytes_all is_ascii_digit p = true /\ digits_value (bytes p) = Z.of_N n /\
  ((0 < n)%N -> 0 < digits_value (take 1 (bytes p))) /\ (n = 0%N -> p = EmptyString).
Proof.
  revert s. induction n as [n IH] using (well_founded_ind N.lt_wf_0). intros s.
  destruct (decide (n = 0)%N) as [->|Hn]; [exists EmptyString; rewrite pretty_N_go_0; by repeat split |].
  rewrite pretty_N_go_step by lia.
  destruct (IH (n `div` 10)%N ltac:(apply N.div_lt; lia) (String (pretty_N_char (n `mod` 10)) s))
    as (p & -> & Hall & Hv & Hlead & Hnil).
  pose proof (N.mod_lt n 10 ltac:(lia)) as Hm. destruct (digit_pretty_char _ Hm) as [Hd Hc].
  exists (p +:+ String (pretty_N_char (n `mod` 10)) EmptyString). split_and!.
  - by rewrite str_app_assoc.
  - rewrite bytes_all_app, Hall. unfold bytes_all. cbn. by rewrite Hd.
  - rewrite bytes_app. change (bytes (String _ EmptyString)) with [pretty_N_char (n `mod` 10)].
    rewrite digits_value_snoc, Hv, Hc. pose proof (N.div_mod' n 10). lia.
  - intros _. rewrite bytes_app. destruct (bytes p) as [|b l] eqn:Hp.
    + change (0 < digit_value (pretty_N_char (n `mod` 10))). rewrite Hc.
      change (0 = Z.of_N (n `div` 10)) in Hv. pose proof (N.div_mod' n 10). lia.
    + apply Hlead. destruct (decide (n `div` 10 = 0)%N) as [E|E]; [by rewrite (Hnil E) in Hp |]. by apply N.neq_0_lt_0.
  - lia.
Qed.

Lemma pretty_Z_N n : 0 <= n -> pretty n = pretty (Z.to_N n).
Proof. by destruct n. Qed.

(** No sign precedes a digit. *)
Lemma digits_unsigned s : bytes_all is_ascii_digit s = true -> default s (strip_prefix "+" s) = s.
Proof.
  destruct s as [|a s]; [done |]. intros Hd. destruct (strip_prefix "+" (String a s)) as [r|] eqn:Hp; [| done].
  apply strip_prefix_Some in Hp. change ("+" +:+ r) with (String "+" r) in Hp. by injection Hp as -> ->.
Qed.

Lemma starts_with_zero s : bytes_all is_ascii_digit s = true -> s <> EmptyString ->
  starts_with "0" s = (digits_value (take 1 (bytes s)) =? 0).
Proof.
  destruct s as [|a s]; [done |]. unfold bytes_all. cbn [bytes String.list_ascii_of_string forallb]. intros Hd _.
  reflect_bool. destruct a as [[] [] [] [] [] [] [] []]; try done; by destruct s.
Qed.

Lemma pretty_pos n : 0 < n -> pretty n = pretty_N_go (Z.to_N n) EmptyString.
Proof. intros Hn. rewrite pretty_Z_N by lia. unfold pretty, pretty_N. by rewrite decide_False by lia. Qed.

Lemma parse_unsigned_digits max s : bytes_all is_ascii_digit s = true -> s <> EmptyString ->
  digits_value (bytes s) <= max -> parse_unsigned max s = Some (digits_value (bytes s)).
Proof.
  intros Hd Hne Hmax. unfold parse_unsigned, parse_digits. rewrite digits_unsigned by done.
  apply str_is_empty_false in Hne. rewrite Hne, Hd. cbn. by rewrite (proj2 (Z.leb_le _ _) Hmax).
Qed.

Lemma parse_unsigned_Some max s n : bytes_all is_ascii_digit s = true -> parse_unsigned max s = Some n ->
  n = digits_value (bytes s) /\ 0 <= n <= max.
Proof.
  intros Hd. unfold parse_unsigned, parse_digits, opt_filter. rewrite digits_unsigned, Hd by done. intros Hp.
  repeat case_match; simplify_eq. pose proof (digits_value_nonneg _ Hd). reflect_bool. lia.
Qed.

Lemma canonical_digits_spec s : canonical_digits s = true -> bytes_all is_ascii_digit s = true /\ s <> EmptyString.
Proof. unfold canonical_digits. intros H. reflect_bool. split; [done |]. by apply str_is_empty_false. Qed.

Lemma canonical_digits_pretty s : canonical_digits s = true ->
  s = pretty (digits_value (bytes s)).
Proof.
  intros Hc. destruct (canonical_digits_spec s Hc) as [Hd Hne]. unfold canonical_digits in Hc. reflect_bool.
  destruct (starts_with "0" s) eqn:Hz.
  - rewrite andb_true_r in *. destruct s as [|a [|b s]]; [done | | unfold len in *; cbn [String.length] in *; reflect_bool; lia].
    rewrite starts_with_zero in Hz by done. destruct a as [[] [] [] [] [] [] [] []]; done.
  - rewrite starts_with_zero in Hz by done. reflect_bool.
    assert (Hlead : 0 < digits_value (take 1 (bytes s))).
    { enough (0 <= digits_value (take 1 (bytes s))) by lia. apply digits_value_nonneg.
      destruct s as [|a s]; [done |]. apply andb_true_iff in Hd as [Hd _]. cbn. by rewrite Hd. }
    destruct (pretty_N_go_digits (bytes s) EmptyString) as [Hp ?]; [done.. |].
    rewrite pretty_pos, Hp, str_app_nil_r by done. unfold of_bytes, bytes. by rewrite String.string_of_list_ascii_of_string.
Qed.

Lemma pretty_canonical_digits n : 0 <= n ->
  canonical_digits (pretty n) = true /\ digits_value (bytes (pretty n)) = n.
Proof.
  intros Hn. destruct (decide (n = 0)) as [->|]; [done |].
  rewrite pretty_pos by lia.
  destruct (pretty_N_go_spec (Z.to_N n) EmptyString) as (p & -> & Hall & Hv & Hlead & _).
  rewrite str_app_nil_r, Hv, Z2N.id by lia. split; [| done].
  specialize (Hlead ltac:(lia)).
  assert (Hne : p <> EmptyString) by (by intros ->).
  unfold canonical_digits. rewrite Hall, starts_with_zero by done.
  apply str_is_empty_false in Hne. rewrite Hne.
  rewrite (proj2 (Z.eqb_neq _ _)) by lia. by rewrite andb_false_r.
Qed.

Lemma parse_unsigned_pretty max n : 0 <= n <= max -> parse_unsigned max (pretty n) = Some n.
Proof.
  intros Hn. destruct (pretty_canonical_digits n) as [Hc Hv]; [lia |]. apply canonical_digits_spec in Hc as [Hd Hne].
  rewrite parse_unsigned_digits, Hv; [done | done | intros He; rewrite He in Hne; naive_solver | lia].
Qed.

(** What is printed for any number: digits, after a sign if it is negative. *)
Lemma pretty_numeral (z : Z) : bytes_all (fun a => is_ascii_digit a || byte_is 45 a) (pretty z) = true.
Proof.
  assert (Hpos : forall n, 0 <= n -> bytes_all (fun a => is_ascii_digit a || byte_is 45 a) (pretty n) = true).
  { intros n Hn. destruct (pretty_canonical_digits n Hn) as [Hc _]. apply canonical_digits_spec in Hc as [Hd _].
    revert Hd. apply bytes_all_weaken. intros a ->. done. }
  destruct z as [|p|p]; [done | by apply Hpos |].
  change (pretty (Z.neg p)) with ("-" +:+ pretty (Z.pos p)). rewrite bytes_all_app, Hpos by done. done.
Qed.

(** ** Splitting *)

Lemma split_once_byte a l r : bytes_all (fun b => negb (Ascii.eqb a b)) l = true ->
  split_once (String a EmptyString) (l +:+ String a r) = Some (l, r).
Proof.
  induction l as [|b l IH]; intros Hl.
  - change (split_once (String a EmptyString) (String a r) = Some (EmptyString, r)). cbn. by rewrite Ascii.eqb_refl.
  - apply andb_true_iff in Hl as [Hb Hl]. apply negb_true_iff in Hb.
    change (split_once (String a EmptyString) (String b (l +:+ String a r)) = Some (String b l, r)).
    cbn [split_once strip_prefix]. by rewrite Hb, IH.
Qed.
