(* ===== verification/Utf8.v ===== *)
(** * UTF-8

    What [str::from_utf8] accepts. A Rust string is its bytes, so a reader of bytes
    checks them with [valid_utf8] before it treats them as text. *)
From Stdlib Require Import Ascii.
From stdpp Require Import prelude strings.
From S2P Require Import Prelude.

Local Open Scope Z_scope.

(** [str::from_utf8]: the well-formed byte sequences of the Unicode standard. *)
Definition continuation (lo hi : Z) (l : list ascii) : option (list ascii) :=
  match l with
  | a :: l => if byte_between lo hi a then Some l else None
  | [] => None
  end.

Definition utf8_char (l : list ascii) : option (list ascii) :=
  match l with
  | [] => None
  | a :: l =>
      if byte_between 0 127 a then Some l
      else if byte_between 194 223 a then continuation 128 191 l
      else if byte_is 224 a then l ← continuation 160 191 l; continuation 128 191 l
      else if byte_between 225 236 a || byte_between 238 239 a
      then l ← continuation 128 191 l; continuation 128 191 l
      else if byte_is 237 a then l ← continuation 128 159 l; continuation 128 191 l
      else if byte_is 240 a
      then l ← continuation 144 191 l; l ← continuation 128 191 l; continuation 128 191 l
      else if byte_between 241 243 a
      then l ← continuation 128 191 l; l ← continuation 128 191 l; continuation 128 191 l
      else if byte_is 244 a
      then l ← continuation 128 143 l; l ← continuation 128 191 l; continuation 128 191 l
      else None
  end.

(** Every character takes a byte: the length bounds the number of characters. *)
Fixpoint valid_utf8_from (fuel : nat) (l : list ascii) : bool :=
  match fuel, l with
  | _, [] => true
  | O, _ => false
  | S fuel, _ => match utf8_char l with Some r => valid_utf8_from fuel r | None => false end
  end.
Definition valid_utf8 (s : string) : bool := valid_utf8_from (String.length s) (bytes s).
