(* ===== verification/Json.v ===== *)
(** * JSON values

    The [serde_json::Value] data the helper inspects, the accessors it uses and
    the canonicalisation [sort_json] of [protocol.rs] and [diagnostics.rs].
    An object is an association list; [BTreeMap] objects are the strictly
    sorted ones.  Parsing and printing of text belong to serde_json and are the
    interface [JsonText]. *)
From Stdlib Require Import Ascii SpecFloat Sorting.Sorted.
From stdpp Require Import prelude strings.
From S2P Require Import Prelude.

Local Open Scope Z_scope.

(** ** Byte order on keys *)

Definition str_lt (a b : string) : Prop := String.compare a b = Lt.

Lemma ascii_compare_lt a b : Ascii.compare a b = Lt <-> byte a < byte b.
Proof. unfold Ascii.compare, byte. rewrite N.compare_lt_iff. lia. Qed.

Lemma ascii_compare_eq a b : Ascii.compare a b = Eq <-> a = b.
Proof.
  split.
  - apply Ascii.compare_eq_iff.
  - intros ->. unfold Ascii.compare. apply N.compare_refl.
Qed.

Lemma str_compare_refl s : String.compare s s = Eq.
Proof.
  induction s as [|a s IH]; simpl; [done |].
  by rewrite (proj2 (ascii_compare_eq a a) eq_refl).
Qed.

Lemma str_lt_irrefl s : ~ str_lt s s.
Proof. unfold str_lt. by rewrite str_compare_refl. Qed.

Lemma str_lt_trans a b c : str_lt a b -> str_lt b c -> str_lt a c.
Proof.
  unfold str_lt. revert b c.
  induction a as [|x a IH]; intros [|y b] [|z c]; simpl; try done.
  destruct (Ascii.compare x y) eqn:Hxy; destruct (Ascii.compare y z) eqn:Hyz; try done.
  - apply ascii_compare_eq in Hxy as ->. rewrite Hyz. apply IH.
  - apply ascii_compare_eq in Hxy as ->. by rewrite Hyz.
  - apply ascii_compare_eq in Hyz as <-. by rewrite Hxy.
  - apply ascii_compare_lt in Hxy, Hyz.
    intros _ _. by rewrite (proj2 (ascii_compare_lt x z)) by lia.
Qed.

Lemma str_compare_gt a b : String.compare a b = Gt -> str_lt b a.
Proof. unfold str_lt. rewrite String.compare_antisym. by destruct (String.compare b a). Qed.

Lemma str_lt_ne a b : str_lt a b -> a <> b.
Proof. intros H ->. by apply str_lt_irrefl in H. Qed.

#[global] Instance str_lt_transitive : Transitive str_lt.
Proof. exact str_lt_trans. Qed.

(** ** Ordered maps

    [BTreeMap<String, V>] as the list of its entries in key order. *)

Section btree.
Context {V : Type}.
Implicit Types (m : list (string * V)) (k : string) (v : V).

Fixpoint btree_insert k v m : list (string * V) :=
  match m with
  | [] => [(k, v)]
  | (k', v') :: m' =>
      match String.compare k k' with
      | Lt => (k, v) :: m
      | Eq => (k, v) :: m'
      | Gt => (k', v') :: btree_insert k v m'
      end
  end.

Fixpoint btree_get k m : option V :=
  match m with
  | [] => None
  | (k', v') :: m' => if String.eqb k k' then Some v' else btree_get k m'
  end.

Fixpoint btree_remove k m : list (string * V) :=
  match m with
  | [] => []
  | (k', v') :: m' => if String.eqb k k' then btree_remove k m' else (k', v') :: btree_remove k m'
  end.

Definition btree_contains_key k m : bool := opt_is_some (btree_get k m).

(** [collect::<BTreeMap<_, _>>()] and [Map::from_iter]: entries are inserted
    in iteration order, a later entry replacing an earlier one. *)
Definition btree_collect (l : list (string * V)) : list (string * V) :=
  foldl (fun m kv => btree_insert kv.1 kv.2 m) [] l.

(** The invariant of a [BTreeMap]. *)
Definition btree_wf m : Prop := StronglySorted str_lt (map fst m).

Lemma btree_insert_keys k v m k' :
  k' ∈ map fst (btree_insert k v m) -> k' = k \/ k' ∈ map fst m.
Proof.
  induction m as [|[k0 v0] m IH]; simpl.
  - set_solver.
  - destruct (String.compare k k0); simpl; set_solver.
Qed.

Lemma btree_insert_wf k v m : btree_wf m -> btree_wf (btree_insert k v m).
Proof.
  unfold btree_wf. induction m as [|[k0 v0] m IH]; simpl; intros Hm.
  - by repeat constructor.
  - apply StronglySorted_inv in Hm as [Hm Hk0].
    destruct (String.compare k k0) eqn:Hc; simpl.
    + apply String.compare_eq_iff in Hc as ->. by constructor.
    + constructor; [by constructor |]. constructor; [done |].
      eapply List.Forall_impl; [| exact Hk0]. intros x Hx. by eapply str_lt_trans.
    + constructor; [by apply IH |]. apply Forall_forall. intros x Hx.
      apply btree_insert_keys in Hx as [->|Hx]; [by apply str_compare_gt |].
      rewrite Forall_forall in Hk0. by apply Hk0.
Qed.

Lemma btree_collect_wf l : btree_wf (btree_collect l).
Proof.
  unfold btree_collect. assert (H : btree_wf []) by constructor.
  revert H. generalize (@nil (string * V)). induction l as [|[k v] l IH]; intros m Hm; simpl;
    [done | by apply IH, btree_insert_wf].
Qed.

Lemma btree_get_insert_eq k v m : btree_get k (btree_insert k v m) = Some v.
Proof.
  induction m as [|[k0 v0] m IH]; simpl.
  - by rewrite String.eqb_refl.
  - destruct (String.compare k k0) eqn:Hc; simpl; rewrite ?String.eqb_refl; try done.
    apply str_compare_gt, str_lt_ne in Hc. apply not_eq_sym, String.eqb_neq in Hc. by rewrite Hc.
Qed.

Lemma btree_get_insert_ne k k' v m : k' <> k -> btree_get k' (btree_insert k v m) = btree_get k' m.
Proof.
  intros Hne. apply String.eqb_neq in Hne as Hb.
  induction m as [|[k0 v0] m IH]; simpl; [by rewrite Hb |].
  destruct (String.compare k k0) eqn:Hc; simpl; rewrite ?Hb; try done.
  - apply String.compare_eq_iff in Hc as <-. by rewrite Hb.
  - by rewrite IH.
Qed.

Lemma btree_get_insert k k' v m :
  btree_get k' (btree_insert k v m) = if decide (k' = k) then Some v else btree_get k' m.
Proof. case_decide; subst; [apply btree_get_insert_eq | by apply btree_get_insert_ne]. Qed.

Lemma btree_get_not_in k m : k ∉ map fst m -> btree_get k m = None.
Proof.
  induction m as [|[k0 v0] m IH]; simpl; [done |]. intros H.
  destruct (String.eqb_spec k k0); set_solver.
Qed.

Lemma btree_get_Some_in k v m : btree_get k m = Some v -> (k, v) ∈ m.
Proof.
  induction m as [|[k0 v0] m IH]; simpl; [done |].
  destruct (String.eqb_spec k k0); intros; simplify_eq; set_solver.
Qed.

Lemma btree_get_in k v m : NoDup (map fst m) -> (k, v) ∈ m -> btree_get k m = Some v.
Proof.
  induction m as [|[k0 v0] m IH]; simpl; [set_solver |].
  intros [Hn Hd]%NoDup_cons [?|Hin]%elem_of_cons; simplify_eq/=.
  - by rewrite String.eqb_refl.
  - destruct (String.eqb_spec k k0) as [->|]; [| by apply IH].
    exfalso. apply Hn. apply list_elem_of_In, in_map_iff. exists (k0, v).
    split; [done | by apply list_elem_of_In].
Qed.

Lemma btree_get_remove k k' m :
  btree_get k' (btree_remove k m) = if decide (k' = k) then None else btree_get k' m.
Proof.
  induction m as [|[k0 v0] m IH]; simpl; [by case_decide |].
  destruct (String.eqb_spec k k0) as [->|Hne]; simpl; rewrite IH.
  - case_decide as Hd; [done |]. apply String.eqb_neq in Hd. by rewrite Hd.
  - case_decide; subst; [by rewrite (proj2 (String.eqb_neq _ _) Hne) | done].
Qed.

Lemma btree_remove_wf k m : btree_wf m -> btree_wf (btree_remove k m).
Proof.
  unfold btree_wf. induction m as [|[k0 v0] m IH]; simpl; [done |].
  intros [Hm Hk0]%StronglySorted_inv. destruct (String.eqb k k0); simpl; [by apply IH |].
  constructor; [by apply IH |]. clear -Hk0. induction m as [|[k1 v1] m IH]; simpl in *; [done |].
  apply Forall_cons in Hk0 as [? ?]. destruct (String.eqb k k1); simpl; [by apply IH |].
  constructor; [done | by apply IH].
Qed.

(** Equal contents and equal order mean equal maps. *)
Lemma btree_wf_cons_get k v m k' v' :
  btree_wf ((k, v) :: m) -> btree_get k' m = Some v' -> str_lt k k'.
Proof.
  unfold btree_wf. simpl. intros [_ Hk]%StronglySorted_inv Hg.
  rewrite Forall_forall in Hk. apply Hk, list_elem_of_In, in_map_iff. exists (k', v').
  split; [done |]. by apply list_elem_of_In, btree_get_Some_in.
Qed.

Lemma btree_wf_head_fresh k v m : btree_wf ((k, v) :: m) -> btree_get k m = None.
Proof.
  intros H. destruct (btree_get k m) as [v'|] eqn:E; [| done].
  by apply (btree_wf_cons_get k v m), str_lt_irrefl in E.
Qed.

Lemma btree_ext m1 m2 :
  btree_wf m1 -> btree_wf m2 -> (forall k, btree_get k m1 = btree_get k m2) -> m1 = m2.
Proof.
  revert m2. induction m1 as [|[k1 v1] m1 IH]; intros [|[k2 v2] m2] H1 H2 Heq.
  - done.
  - specialize (Heq k2). simpl in Heq. by rewrite String.eqb_refl in Heq.
  - specialize (Heq k1). simpl in Heq. by rewrite String.eqb_refl in Heq.
  - assert (k1 = k2) as <-.
    { pose proof (Heq k1) as E1. pose proof (Heq k2) as E2. simpl in E1, E2.
      rewrite String.eqb_refl in E1, E2.
      destruct (String.eqb_spec k1 k2) as [->|Hne]; [done |].
      apply not_eq_sym, String.eqb_neq in Hne. rewrite Hne in E2.
      symmetry in E1. apply (btree_wf_cons_get k2 v2 m2) in E1; [| done].
      apply (btree_wf_cons_get k1 v1 m1) in E2; [| done].
      exfalso. by eapply str_lt_irrefl, str_lt_trans. }
    pose proof (Heq k1) as E1. simpl in E1. rewrite String.eqb_refl in E1. simplify_eq.
    f_equal. apply IH.
    + by apply StronglySorted_inv in H1 as [? _].
    + by apply StronglySorted_inv in H2 as [? _].
    + intros k. specialize (Heq k). simpl in Heq.
      destruct (String.eqb_spec k k1) as [Ek|]; [subst k | done].
      rewrite (btree_wf_head_fresh k1 v2 m1), (btree_wf_head_fresh k1 v2 m2) by done. done.
Qed.

Lemma btree_wf_NoDup m : btree_wf m -> NoDup (map fst m).
Proof.
  unfold btree_wf. induction 1 as [|k l Hl IH Hk]; constructor; [| done].
  intros Hin. rewrite Forall_forall in Hk. by apply Hk, str_lt_irrefl in Hin.
Qed.

Lemma btree_get_foldl (l : list (string * V)) m k :
  NoDup (map fst l) ->
  btree_get k (foldl (fun m kv => btree_insert kv.1 kv.2 m) m l) =
    match btree_get k l with Some v => Some v | None => btree_get k m end.
Proof.
  revert m. induction l as [|[k0 v0] l IH]; intros m; simpl; [done |].
  intros [Hn Hd]%NoDup_cons. rewrite IH by done.
  destruct (String.eqb_spec k k0) as [->|Hne].
  - rewrite (btree_get_not_in k0 l) by done. apply btree_get_insert_eq.
  - by rewrite btree_get_insert_ne.
Qed.

Lemma btree_get_collect l k : NoDup (map fst l) -> btree_get k (btree_collect l) = btree_get k l.
Proof.
  intros H. unfold btree_collect. rewrite btree_get_foldl by done. by destruct (btree_get k l).
Qed.

(** Collecting an already ordered map gives the same map. *)
Lemma btree_collect_id m : btree_wf m -> btree_collect m = m.
Proof.
  intros H. apply btree_ext; [apply btree_collect_wf | done |].
  intros k. apply btree_get_collect. by apply btree_wf_NoDup.
Qed.

(** The order in which distinct entries arrive does not matter. *)
Lemma btree_get_perm l1 l2 k :
  NoDup (map fst l1) -> l1 ≡ₚ l2 -> btree_get k l1 = btree_get k l2.
Proof.
  intros Hd Hp. assert (Hd2 : NoDup (map fst l2)) by (by rewrite <- Hp).
  destruct (btree_get k l1) as [v|] eqn:E1.
  - apply btree_get_Some_in in E1. rewrite Hp in E1. symmetry. by apply btree_get_in.
  - destruct (btree_get k l2) as [v|] eqn:E2; [| done].
    apply btree_get_Some_in in E2. rewrite <- Hp in E2. apply btree_get_in in E2; [| done].
    congruence.
Qed.

Lemma btree_collect_perm l1 l2 :
  NoDup (map fst l1) -> l1 ≡ₚ l2 -> btree_collect l1 = btree_collect l2.
Proof.
  intros Hd Hp. apply btree_ext; try apply btree_collect_wf. intros k.
  rewrite !btree_get_collect; [by apply btree_get_perm | by rewrite <- Hp | done].
Qed.

End btree.

Create HintDb json.
#[export] Hint Resolve btree_insert_wf btree_remove_wf btree_collect_wf btree_wf_NoDup : json.

(** ** Values *)

(** [serde_json::Number]: [PosInt] holds a [u64], [NegInt] a negative [i64]. *)
Inductive Number :=
| PosInt (n : Z)
| NegInt (z : Z)
| Float (f : spec_float).

Inductive Value :=
| Null
| Bool (b : bool)
| Num (n : Number)
| Str (s : string)
| Arr (items : list Value)
| Obj (items : list (string * Value)).

Section value_ind.
Variable P : Value -> Prop.
Hypothesis HNull : P Null.
Hypothesis HBool : forall b, P (Bool b).
Hypothesis HNum : forall n, P (Num n).
Hypothesis HStr : forall s, P (Str s).
Hypothesis HArr : forall l, Forall P l -> P (Arr l).
Hypothesis HObj : forall l, Forall (fun kv => P kv.2) l -> P (Obj l).

Fixpoint Value_ind' (v : Value) : P v :=
  match v with
  | Null => HNull
  | Bool b => HBool b
  | Num n => HNum n
  | Str s => HStr s
  | Arr l =>
      HArr l ((fix go l : Forall P l :=
        match l with
        | [] => List.Forall_nil _
        | x :: l => List.Forall_cons _ _ _ (Value_ind' x) (go l)
        end) l)
  | Obj l =>
      HObj l ((fix go l : Forall (fun kv : string * Value => P kv.2) l :=
        match l with
        | [] => List.Forall_nil _
        | x :: l => List.Forall_cons _ _ _ (Value_ind' x.2) (go l)
        end) l)
  end.
End value_ind.

(** Accessors: [Value::as_object], [as_array], [as_str], [as_u64], [as_i64],
    [as_bool], [is_object], [is_null], [get] and indexing by a key. *)
Definition as_object (v : Value) : option (list (string * Value)) :=
  match v with Obj m => Some m | _ => None end.
Definition as_array (v : Value) : option (list Value) :=
  match v with Arr l => Some l | _ => None end.
Definition as_str (v : Value) : option string :=
  match v with Str s => Some s | _ => None end.
Definition as_u64 (v : Value) : option Z :=
  match v with Num (PosInt n) => Some n | _ => None end.
Definition as_i64 (v : Value) : option Z :=
  match v with
  | Num (PosInt n) => if n <=? 2 ^ 63 - 1 then Some n else None
  | Num (NegInt z) => Some z
  | _ => None
  end.
Definition as_bool (v : Value) : option bool :=
  match v with Bool b => Some b | _ => None end.
Definition is_object (v : Value) : bool := opt_is_some (as_object v).
Definition is_null (v : Value) : bool := match v with Null => true | _ => false end.
Definition value_get (k : string) (v : Value) : option Value :=
  match v with Obj m => btree_get k m | _ => None end.
Definition value_index (k : string) (v : Value) : Value := default Null (value_get k v).

(** The [json!] macro on an object literal, an integer, an optional integer. *)
Definition jobj (l : list (string * Value)) : Value := Obj (btree_collect l).
Definition jint (z : Z) : Value := Num (if 0 <=? z then PosInt z else NegInt z).
Definition jopt_int (o : option Z) : Value := match o with Some z => jint z | None => Null end.

(** [attrs.insert(key, value)] and [value["key"] = v] on an object. *)
Definition value_insert (k : string) (x v : Value) : Value :=
  match v with Obj m => Obj (btree_insert k x m) | _ => v end.

(** Values as serde_json builds them: every object is an ordered map. *)
Fixpoint json_wf (v : Value) : Prop :=
  match v with
  | Arr l => foldr (fun x Q => json_wf x /\ Q) True l
  | Obj m => btree_wf m /\ foldr (fun kv Q => json_wf kv.2 /\ Q) True m
  | _ => True
  end.

(** ** Canonical form *)

Fixpoint sort_json (value : Value) : Value :=
  match value with
  | Arr items => Arr (map sort_json items)
  | Obj items =>
      let sorted := btree_collect (map (fun kv => (kv.1, sort_json kv.2)) items) in
      Obj (btree_collect sorted)
  | value => value
  end.

(** Text encoding, provided by serde_json: of a [Value], and of a struct whose
    derived serialisation writes its fields in declaration order. *)
Class JsonText := {
  to_vec : Value -> string;
  to_vec_fields : list (string * Value) -> string;
  from_str : string -> option Value
}.

Definition canonical_json_bytes `{!JsonText} (value : Value) : string :=
  to_vec (sort_json value).

(** [serde_json::from_slice::<T>], derived per type. *)
Class Deserialize (A : Type) := from_slice : string -> option A.

(** ** Properties of the canonical form *)

Lemma foldr_and_Forall {A} (P : A -> Prop) l : foldr (fun x Q => P x /\ Q) True l <-> Forall P l.
Proof. induction l as [|x l IH]; simpl; [done |]. by rewrite IH, Forall_cons. Qed.

Lemma Forall_mp {A} (P Q : A -> Prop) l :
  Forall (fun x => P x -> Q x) l -> Forall P l -> Forall Q l.
Proof. induction 1; intros HP; inversion HP; subst; constructor; auto. Qed.

Lemma map_sort_keys (l : list (string * Value)) :
  map fst (map (fun kv => (kv.1, sort_json kv.2)) l) = map fst l.
Proof. rewrite map_map. by apply map_ext. Qed.

Lemma map_id_Forall {A} (f : A -> A) l : Forall (fun x => f x = x) l -> map f l = l.
Proof. induction 1; simpl; congruence. Qed.

(** On the ordered objects serde_json builds, canonicalisation is the
    identity. *)
Lemma sort_json_ordered v : json_wf v -> sort_json v = v.
Proof.
  induction v as [| | | |l IH|m IH] using Value_ind'; simpl; try done.
  - rewrite foldr_and_Forall. intros H. f_equal. apply map_id_Forall.
    by apply (Forall_mp json_wf).
  - intros [Hm H]. rewrite (foldr_and_Forall (fun kv => json_wf kv.2)) in H.
    replace (map _ m) with m.
    + by rewrite !(btree_collect_id m).
    + symmetry. apply map_id_Forall.
      apply (Forall_mp (fun kv => json_wf kv.2)); [| done].
      eapply List.Forall_impl; [| exact IH]. intros [k v] Hv Hwf; simpl in *. by rewrite Hv.
Qed.

Lemma btree_insert_values {V} (P : V -> Prop) k v m :
  P v -> Forall (fun kv : string * V => P kv.2) m ->
  Forall (fun kv => P kv.2) (btree_insert k v m).
Proof.
  intros Hv. induction 1 as [|[k0 v0] m H0 Hm IH]; simpl; [by repeat constructor |].
  destruct (String.compare k k0); by repeat constructor.
Qed.

Lemma btree_collect_values {V} (P : V -> Prop) l :
  Forall (fun kv : string * V => P kv.2) l -> Forall (fun kv => P kv.2) (btree_collect l).
Proof.
  unfold btree_collect. intros Hl.
  assert (H : Forall (fun kv : string * V => P kv.2) []) by constructor.
  revert H. generalize (@nil (string * V)).
  induction Hl as [|[k v] l Hv Hl IH]; intros m Hm; simpl; [done |].
  by apply IH, btree_insert_values.
Qed.

Lemma jobj_wf l : Forall (fun kv => json_wf kv.2) l -> json_wf (jobj l).
Proof.
  intros Hl. split; [apply btree_collect_wf |].
  apply (foldr_and_Forall (fun kv => json_wf kv.2)). by apply btree_collect_values.
Qed.

(** The canonical form is ordered whatever the order of the input. *)
Lemma sort_json_wf v : json_wf (sort_json v).
Proof.
  induction v as [| | | |l IH|m IH] using Value_ind'; simpl; try done.
  - apply foldr_and_Forall. by apply Forall_map.
  - split; [apply btree_collect_wf |]. apply (foldr_and_Forall (fun kv => json_wf kv.2)).
    do 2 apply btree_collect_values. by apply Forall_map.
Qed.

(** Values that differ only in the order of object entries. *)
Inductive json_equiv : Value -> Value -> Prop :=
| equiv_scalar v : match v with Arr _ | Obj _ => False | _ => True end -> json_equiv v v
| equiv_arr l1 l2 : Forall2 json_equiv l1 l2 -> json_equiv (Arr l1) (Arr l2)
| equiv_obj l1 l l2 :
    NoDup (map fst l1) ->
    Forall2 (fun kv1 kv => kv1.1 = kv.1 /\ json_equiv kv1.2 kv.2) l1 l ->
    l ≡ₚ l2 ->
    json_equiv (Obj l1) (Obj l2).

Lemma sort_json_equiv v w : json_equiv v w -> sort_json v = sort_json w.
Proof.
  revert w. induction v as [| | | |l IH|m IH] using Value_ind'; intros w H; inversion H; subst; try done.
  - simpl. f_equal. match goal with HF : Forall2 _ _ _ |- _ => induction HF end; simpl; [done |].
    inversion IH; subst. f_equal; auto using equiv_arr.
  - simpl. do 2 f_equal.
    match goal with HF : Forall2 _ m ?l', HP : ?l' ≡ₚ ?l'' |- _ =>
      assert (E : map (fun kv => (kv.1, sort_json kv.2)) m = map (fun kv => (kv.1, sort_json kv.2)) l')
    end.
    { match goal with HF : Forall2 _ _ _ |- _ => clear -IH HF; induction HF as [|? ? ? ? [? ?] ? IHF] end;
        simpl; [done |]. inversion IH; subst. f_equal; [f_equal; auto | auto]. }
    rewrite E. apply btree_collect_perm.
    + rewrite <- E, map_sort_keys. done.
    + by apply Permutation_map.
Qed.
