(* ===== verification/EnvNames.v ===== *)
(** * Environment names

    The Liskov-owned variable names of [env_names.rs] and the list that is both
    refused in signed runtime environments and redacted from the customer's. *)
From stdpp Require Import prelude strings.
From S2P Require Import Prelude.

Definition BOOTSTRAP_ENV : string := "LISKOV_BOOTSTRAP".
Definition LEGACY_BOOTSTRAP_ENV : string := "PROOF_SLIPWAY_BOOTSTRAP".
Definition BOOTSTRAP_ENV_NAMES : list string := [BOOTSTRAP_ENV].
Definition RESERVED_BOOTSTRAP_ENV_NAMES : list string := [BOOTSTRAP_ENV; LEGACY_BOOTSTRAP_ENV].
Definition LOCKBOX_BOOTSTRAP_ENV : string := "LISKOV_LOCKBOX_BOOTSTRAP".
Definition LOCKBOX_BOOTSTRAP_ENV_NAMES : list string := [LOCKBOX_BOOTSTRAP_ENV].
Definition SUPERVISION_CANARY_ENV : string := "LISKOV_CARGO_SUPERVISION_CANARY_JSON".
Definition RUNTIME_SSH_CREDENTIAL_ENV : string := "LISKOV_RUNTIME_SSH_CREDENTIAL_V1".

Definition PROTECTED_ENV_NAMES : list string :=
  [BOOTSTRAP_ENV; LEGACY_BOOTSTRAP_ENV; SUPERVISION_CANARY_ENV; RUNTIME_SSH_CREDENTIAL_ENV].

(** [slice.contains(&name)]. *)
Definition names_contain (names : list string) (name : string) : bool :=
  existsb (str_eqb name) names.

(** [names.iter().find_map(|name| lookup(name))]. *)
Fixpoint first_present (names : list string) (lookup : string -> option string) : option string :=
  match names with
  | [] => None
  | name :: names =>
      match lookup name with
      | Some value => Some value
      | None => first_present names lookup
      end
  end.

Lemma names_contain_spec names name : names_contain names name = true <-> name ∈ names.
Proof.
  unfold names_contain. rewrite existsb_exists. split.
  - intros (x & Hin & Hx). apply String.eqb_eq in Hx as ->. by apply list_elem_of_In.
  - intros Hin. exists name. split; [by apply list_elem_of_In | apply String.eqb_refl].
Qed.

Lemma names_contain_false names name : names_contain names name = false <-> name ∉ names.
Proof. rewrite <- names_contain_spec. by destruct (names_contain names name). Qed.

(** A value is found under the first of the names that is set, even when that
    value is empty. *)
Lemma first_present_Some names lookup v :
  first_present names lookup = Some v <->
  exists before name after, names = before ++ name :: after /\
    Forall (fun n => lookup n = None) before /\ lookup name = Some v.
Proof.
  induction names as [|n names IH]; simpl.
  - split; [done |]. intros (b & ? & ? & H & _). by destruct b.
  - destruct (lookup n) as [x|] eqn:Hn.
    + split.
      * intros [= ->]. by exists [], n, names.
      * intros ([|b0 b] & m & a & Heq & Hb & Hm); simplify_eq/=; [congruence |].
        inversion Hb; congruence.
    + rewrite IH. split.
      * intros (b & m & a & -> & Hb & Hm). exists (n :: b), m, a. by repeat constructor.
      * intros ([|b0 b] & m & a & Heq & Hb & Hm); simplify_eq/=.
        inversion Hb; subst. by exists b, m, a.
Qed.
