(* ===== verification/Bridge.v ===== *)
(** * The Cargo bridge client

    [bridge.rs]: one newline-framed JSON-RPC exchange over an abstract Unix
    socket.  Socket calls are the events of the component's own world; every
    payload of an [io::Error] is dropped, since no code reads it. *)
From Stdlib Require Import Ascii.
From stdpp Require Import prelude strings pretty.
From S2P Require Import Prelude Json.

Local Open Scope Z_scope.

Definition DEFAULT_MAX_BRIDGE_RESPONSE_BYTES : Z := 64 * 1024.
Definition BRIDGE_TIMEOUT : Z := from_secs 5.

Inductive BridgeError :=
| InvalidSocketName
| InvalidSocketAddress
| Connect
| TimeoutConfiguration
| WriteError
| ReadError
| Timeout
| Eof
| ResponseTooLarge
| InvalidJson
| JsonRpcVersion
| IdMismatch
| RpcError (code : option Z)
| MissingResult.

Definition failure_code (e : BridgeError) : string :=
  match e with
  | InvalidSocketName | InvalidSocketAddress => "bridge_socket_construction"
  | Connect => "bridge_connect"
  | TimeoutConfiguration => "bridge_timeout_configuration"
  | WriteError => "bridge_write"
  | ReadError => "bridge_read"
  | Timeout => "bridge_timeout"
  | Eof => "bridge_eof"
  | ResponseTooLarge => "bridge_reply_oversized"
  | InvalidJson => "bridge_json"
  | JsonRpcVersion => "bridge_jsonrpc_version"
  | IdMismatch => "bridge_id_mismatch"
  | RpcError _ => "bridge_rpc_error"
  | MissingResult => "bridge_missing_result"
  end.

Definition rpc_code (e : BridgeError) : option Z :=
  match e with RpcError code => code | _ => None end.

Record UnixBridge := {
  socket_name : string;
  next_id : Z;
  max_response_bytes : Z
}.

Inductive RequestIdStyle := Long | DocumentedShort.

Definition new_bridge (socket_name : string) : result UnixBridge BridgeError :=
  if str_is_empty socket_name || bytes_any (byte_is 0) socket_name
  then Err InvalidSocketName
  else Ok {| socket_name := socket_name;
             next_id := 1;
             max_response_bytes := DEFAULT_MAX_BRIDGE_RESPONSE_BYTES |}.

(** [AtomicU64::fetch_add(1)], which wraps. *)
Definition fetch_add_id (b : UnixBridge) : Z * UnixBridge :=
  (next_id b, {| socket_name := socket_name b;
                 next_id := (next_id b + 1) mod 2 ^ 64;
                 max_response_bytes := max_response_bytes b |}).

Definition request_id (id_style : RequestIdStyle) (sequence : Z) : string :=
  match id_style with
  | Long => "liskov-runtime-contact-" +:+ pretty sequence
  | DocumentedShort => pretty sequence
  end.

(** The fields of [RpcRequest] in declaration order. *)
Definition rpc_request (method : string) (params : Value) (id : string) : list (string * Value) :=
  [("jsonrpc", Str "2.0"); ("method", Str method); ("params", params); ("id", Str id)].

(** Socket calls. [read_until] of a reader limited to [n] bytes returns the
    bytes read, which end at the first newline, at the limit or at the end of
    the stream. *)
Inductive read_reply := ReadBytes (b : string) | ReadTimedOut | ReadWouldBlock | ReadFailed.

Inductive socket_event :=
| SockAddress (ok : bool)
| SockConnect (ok : bool)
| SockReadTimeout (d : Z) (ok : bool)
| SockWriteTimeout (d : Z) (ok : bool)
| SockWrite (b : string) (ok : bool)
| SockFlush (ok : bool)
| SockRead (limit : Z) (r : read_reply).

Class Socket := {
  on_address : list socket_event -> string -> bool;
  on_connect : list socket_event -> bool;
  on_set_read_timeout : list socket_event -> bool;
  on_set_write_timeout : list socket_event -> bool;
  on_write : list socket_event -> string -> bool;
  on_flush : list socket_event -> bool;
  on_read : list socket_event -> Z -> read_reply
}.

(** The newline byte. *)
Definition newline : ascii := ascii_of_N 10.
Definition last_byte (s : string) : option ascii := last (bytes s).
Definition pop_byte (s : string) : string := of_bytes (removelast (bytes s)).

Definition value_eqb_str (v : Value) (s : string) : bool :=
  match v with Str s' => s' =s s | _ => false end.

Section call.
Context `{!JsonText, !Socket}.

(** From the bytes read to the RPC result. *)
Definition parse_reply (b : UnixBridge) (id : string) (response_bytes : string)
    : result Value BridgeError :=
  if max_response_bytes b <? len response_bytes then Err ResponseTooLarge
  else if negb (is_some_and (last_byte response_bytes) (Ascii.eqb newline)) then Err Eof
  else
    match from_str (pop_byte response_bytes) with
    | None => Err InvalidJson
    | Some response =>
        if negb (value_eqb_str (value_index "jsonrpc" response) "2.0") then Err JsonRpcVersion
        else if negb (value_eqb_str (value_index "id" response) id) then Err IdMismatch
        else
          match value_get "error" response with
          | Some error =>
              Err (RpcError (code ← value_get "code" error; c ← as_i64 code; i32_try_from c))
          | None => ok_or MissingResult (value_get "result" response)
          end
    end.

Definition guard_io (ok : bool) (e : BridgeError) : result unit BridgeError :=
  if ok then Ok tt else Err e.

Definition call_with_options (b : UnixBridge) (method : string) (params : Value)
    (id_style : RequestIdStyle) (timeout : Z)
    : io socket_event (result Value BridgeError * UnixBridge) :=
  let '(sequence, b') := fetch_add_id b in
  let id := request_id id_style sequence in
  let request_bytes := to_vec_fields (rpc_request method params id) +:+ String newline EmptyString in
  r ← (
    a ← ask (fun t => on_address t (socket_name b)) SockAddress;
    if negb a then mret (Err InvalidSocketAddress) else
    c ← ask on_connect SockConnect;
    if negb c then mret (Err Connect) else
    rt ← ask on_set_read_timeout (SockReadTimeout timeout);
    if negb rt then mret (Err TimeoutConfiguration) else
    wt ← ask on_set_write_timeout (SockWriteTimeout timeout);
    if negb wt then mret (Err TimeoutConfiguration) else
    w ← ask (fun t => on_write t request_bytes) (SockWrite request_bytes);
    if negb w then mret (Err WriteError) else
    f ← ask on_flush SockFlush;
    if negb f then mret (Err WriteError) else
    read ← ask (fun t => on_read t (max_response_bytes b + 1)) (SockRead (max_response_bytes b + 1));
    match read with
    | ReadBytes EmptyString => mret (Err Eof)
    | ReadBytes response_bytes => mret (parse_reply b id response_bytes)
    | ReadTimedOut | ReadWouldBlock => mret (Err Timeout)
    | ReadFailed => mret (Err ReadError)
    end);
  mret (r, b').

Definition call (b : UnixBridge) (method : string) (params : Value)
    : io socket_event (result Value BridgeError * UnixBridge) :=
  call_with_options b method params DocumentedShort BRIDGE_TIMEOUT.

End call.

(** * Properties *)

Lemma str_app_inj p a b : p +:+ a = p +:+ b -> a = b.
Proof. intros H. apply strip_prefix_Some in H. rewrite strip_prefix_app in H. congruence. Qed.

Lemma request_id_inj style n m : request_id style n = request_id style m -> n = m.
Proof. destruct style; simpl; intros Heq; [apply str_app_inj in Heq |]; by apply (inj pretty) in Heq. Qed.

(** The bridge after [k] calls. *)
Definition after_calls (k : nat) (b : UnixBridge) : UnixBridge :=
  Nat.iter k (fun b => (fetch_add_id b).2) b.

Lemma after_calls_spec k b :
  0 <= next_id b < 2 ^ 64 ->
  next_id (after_calls k b) = (next_id b + Z.of_nat k) mod 2 ^ 64 /\
  max_response_bytes (after_calls k b) = max_response_bytes b.
Proof.
  intros Hb. induction k as [|k [IH IHm]].
  - simpl. rewrite Z.add_0_r, Z.mod_small; done.
  - change (after_calls (S k) b) with ((fetch_add_id (after_calls k b)).2). simpl.
    rewrite IH, IHm. split; [| done]. rewrite Zplus_mod_idemp_l. f_equal. lia.
Qed.

Section bridge_properties.
Context `{!JsonText, !Socket}.

Definition reply_accepted (b : UnixBridge) (id text : string) (v : Value) : Prop :=
  len text <= max_response_bytes b /\ last_byte text = Some newline /\
  exists response, from_str (pop_byte text) = Some response /\
    value_get "jsonrpc" response = Some (Str "2.0") /\ value_get "id" response = Some (Str id) /\
    value_get "error" response = None /\ value_get "result" response = Some v.

Lemma value_index_str k response s :
  value_eqb_str (value_index k response) s = true <-> value_get k response = Some (Str s).
Proof.
  unfold value_index. destruct (value_get k response) as [[]|]; simpl; try naive_solver.
  rewrite str_eqb_eq. naive_solver.
Qed.

Lemma parse_reply_Ok b id text v : parse_reply b id text = Ok v <-> reply_accepted b id text v.
Proof.
  unfold parse_reply, reply_accepted. destruct (max_response_bytes b <? len text) eqn:Hlen; reflect_bool.
  { split; [done |]. intros [? _]. lia. }
  destruct (last_byte text) as [c|]; cbn [is_some_and]; [| naive_solver].
  destruct (Ascii.eqb_spec newline c) as [<-|Hne]; simpl; cycle 1.
  { split; [done |]. intros (_ & [= ->] & _). done. }
  destruct (from_str (pop_byte text)) as [response|]; [| naive_solver].
  destruct (value_eqb_str (value_index "jsonrpc" response) "2.0") eqn:Hv; simpl.
  2:{ split; [done |]. intros (_ & _ & r & [= <-] & Hr & _). apply value_index_str in Hr. congruence. }
  destruct (value_eqb_str (value_index "id" response) id) eqn:Hid; simpl.
  2:{ split; [done |]. intros (_ & _ & r & [= <-] & _ & Hr & _). apply value_index_str in Hr. congruence. }
  apply value_index_str in Hv, Hid.
  destruct (value_get "error" response) as [e|] eqn:He.
  { split; [done |]. intros (_ & _ & r & [= <-] & _ & _ & ? & _). congruence. }
  destruct (value_get "result" response) as [x|] eqn:Hx; simpl; split; intros Hg; try done.
  - injection Hg as <-. split_and!; try done. by exists response.
  - destruct Hg as (_ & _ & r & [= <-] & _ & _ & _ & ?). congruence.
  - destruct Hg as (_ & _ & r & [= <-] & _ & _ & _ & ?). congruence.
Qed.

(** C40: a bridge call that succeeds performed one complete exchange: it sent
    its own request line, and the value returned is the [result] of a JSON-RPC
    2.0 reply within the size limit, ended by a newline, carrying this call's
    request id and no error. *)
Theorem call_success_exchange b method params style timeout t v b' t' :
  call_with_options b method params style timeout t = (Some (Ok v, b'), t') ->
  exists text id, id = request_id style (next_id b) /\
    t' = SockRead (max_response_bytes b + 1) (ReadBytes text) :: SockFlush true
      :: SockWrite (to_vec_fields (rpc_request method params id) +:+ String newline EmptyString) true
      :: SockWriteTimeout timeout true :: SockReadTimeout timeout true
      :: SockConnect true :: SockAddress true :: t /\
    reply_accepted b id text v /\ b' = (fetch_add_id b).2.
Proof.
  unfold call_with_options, fetch_add_id, mbind, io_bind, ask, mret, io_ret. intros Hrun.
  destruct (on_address _ _); cbn [negb] in Hrun; [| done].
  destruct (on_connect _); cbn [negb] in Hrun; [| done].
  destruct (on_set_read_timeout _); cbn [negb] in Hrun; [| done].
  destruct (on_set_write_timeout _); cbn [negb] in Hrun; [| done].
  destruct (on_write _ _); cbn [negb] in Hrun; [| done].
  destruct (on_flush _); cbn [negb] in Hrun; [| done].
  destruct (on_read _ _) as [[|a text]| | |] eqn:Hrd; simpl in Hrun; try done.
  injection Hrun as Hp <- <-. apply parse_reply_Ok in Hp.
  exists (String a text), (request_id style (next_id b)). done.
Qed.

(** Replies cannot be replayed.  The reply accepted by one call is refused
    with an id mismatch by each of the next 2^64 - 1 calls of the same style. *)
Theorem reply_not_replayable b style text v k :
  0 <= next_id b < 2 ^ 64 -> (0 < k)%nat -> Z.of_nat k < 2 ^ 64 ->
  parse_reply b (request_id style (next_id b)) text = Ok v ->
  parse_reply (after_calls k b) (request_id style (next_id (after_calls k b))) text = Err IdMismatch.
Proof.
  intros Hb Hk Hmax Hok. apply parse_reply_Ok in Hok as (Hlen & Hlast & response & Htext & Hv & Hid & _).
  destruct (after_calls_spec k b Hb) as [Hnext Hmaxb].
  unfold parse_reply. rewrite Hmaxb, (proj2 (Z.ltb_ge _ _)), Hlast by done. cbn [is_some_and].
  rewrite Ascii.eqb_refl. simpl.
  rewrite Htext, (proj2 (value_index_str _ _ _) Hv). simpl.
  replace (value_eqb_str _ _) with false; [done |]. symmetry. apply not_true_is_false.
  rewrite value_index_str, Hid. intros [= Heq%request_id_inj]. rewrite Hnext in Heq.
  destruct (decide (next_id b + Z.of_nat k < 2 ^ 64)).
  - rewrite Z.mod_small in Heq; lia.
  - rewrite <- (Z.mod_unique_pos _ (2 ^ 64) 1 (next_id b + Z.of_nat k - 2 ^ 64)) in Heq by lia. lia.
Qed.

End bridge_properties.

Definition sample_reply (id : string) : Value :=
  jobj [("jsonrpc", Str "2.0"); ("id", Str id); ("result", Str "done")].
Definition sample_line (s : string) : string := s +:+ String newline EmptyString.
Definition reply_text : JsonText :=
  {| to_vec := fun _ => "{}"; to_vec_fields := fun _ => "{}";
     from_str := fun s => Some (sample_reply s) |}.
Definition sample_socket : Socket :=
  {| on_address := fun _ _ => true; on_connect := fun _ => true;
     on_set_read_timeout := fun _ => true; on_set_write_timeout := fun _ => true;
     on_write := fun _ _ => true; on_flush := fun _ => true;
     on_read := fun _ _ => ReadBytes (sample_line "1") |}.
Definition sample_unix_bridge : UnixBridge :=
  {| socket_name := "bridge"; next_id := 1; max_response_bytes := DEFAULT_MAX_BRIDGE_RESPONSE_BYTES |}.

Lemma call_success_exchange_witness :
  exists t' b', @call_with_options reply_text sample_socket sample_unix_bridge "deployment_id" (Arr [])
      DocumentedShort BRIDGE_TIMEOUT [] = (Some (Ok (Str "done"), b'), t') /\
    b' = (fetch_add_id sample_unix_bridge).2.
Proof.
  assert (Hrun : exists t' b', @call_with_options reply_text sample_socket sample_unix_bridge
    "deployment_id" (Arr []) DocumentedShort BRIDGE_TIMEOUT [] = (Some (Ok (Str "done"), b'), t'))
    by (do 2 eexists; vm_compute; reflexivity).
  destruct Hrun as (t' & b' & Hrun). exists t', b'. split; [exact Hrun |].
  destruct (@call_success_exchange reply_text sample_socket sample_unix_bridge "deployment_id" (Arr [])
    DocumentedShort BRIDGE_TIMEOUT [] (Str "done") b' t' Hrun) as (_ & _ & _ & _ & _ & Hb).
  exact Hb.
Defined.

Lemma reply_not_replayable_witness :
  @parse_reply reply_text (after_calls 1 sample_unix_bridge)
    (request_id DocumentedShort (next_id (after_calls 1 sample_unix_bridge))) (sample_line "1") =
  Err IdMismatch.
Proof.
  apply (@reply_not_replayable reply_text sample_unix_bridge DocumentedShort (sample_line "1")
    (Str "done") 1); vm_compute; auto; split; congruence.
Defined.
