(* ===== verification/World.v ===== *)
(** * The bootstrap world

    The interfaces the contact path is written against: the [Bridge],
    [HttpClient] and [ContactRuntime] traits and the URL, hex and base64 crates.
    Each interaction is an event; an environment answers each one from the
    whole history. *)
From Stdlib Require Import Ascii.
From stdpp Require Import prelude strings.
From S2P Require Import Prelude Json Bridge.

Local Open Scope Z_scope.

(** [http.rs] *)
Record HttpResponse := { status : Z; body : string }.
Inductive HttpError := Transport | HttpResponseTooLarge.

Inductive event :=
| EvBridge (method : string) (params : Value) (reply : result Value BridgeError)
| EvHttp (url body : string) (reply : result HttpResponse HttpError)
| EvRandom (reply : option string)
| EvUnixTime (reply : option Z)
| EvElapsed (d : Z)
| EvSleep (d : Z)
| EvRetryNotice (attempt : Z).

Class World := {
  on_bridge : list event -> string -> Value -> result Value BridgeError;
  on_http : list event -> string -> string -> result HttpResponse HttpError;
  on_random : list event -> nat -> option string;
  on_unix_time : list event -> option Z;
  on_elapsed : list event -> Z
}.

Section effects.
Context `{!World}.

Definition bridge_call (method : string) (params : Value) : io event (result Value BridgeError) :=
  ask (fun t => on_bridge t method params) (EvBridge method params).
Definition http_post (url body : string) : io event (result HttpResponse HttpError) :=
  ask (fun t => on_http t url body) (EvHttp url body).
Definition fill_random (n : nat) : io event (option string) :=
  ask (fun t => on_random t n) EvRandom.
Definition unix_time_ms : io event (option Z) := ask on_unix_time EvUnixTime.
Definition elapsed : io event Z := ask on_elapsed EvElapsed.
Definition sleep (d : Z) : io event unit := emit (EvSleep d).

End effects.

(** The [url] crate: what a parsed URL answers. *)
Record Url := {
  url_scheme : string;
  url_host_str : option string;
  url_username : string;
  url_password : option string;
  url_query : option string;
  url_fragment : option string;
  url_path : string;
  url_as_str : string
}.

Class UrlApi := {
  url_parse : string -> option Url;
  url_join : Url -> string -> option Url
}.

(** The [hex] and [base64] crates. *)
Class Encodings := {
  hex_encode : string -> string;
  base64_standard_no_pad_decode : string -> option string;
  base64_url_safe_no_pad_decode : string -> option string;
  base64_url_safe_no_pad_encode : string -> string
}.

(** ** A concrete environment

    Instances small enough to evaluate, for the examples of the later files:
    the bridge of one deployment, a server that answers 200, a clock and a hex
    encoder. *)

Definition sample_text : JsonText :=
  {| to_vec := fun v => match v with Obj ((k, _) :: _) => k | _ => "null" end;
     to_vec_fields := fun l => match l with (k, _) :: _ => k | [] => "null" end;
     from_str := fun s => Some (Str s) |}.

Definition hex_digit (n : N) : ascii :=
  ascii_of_N (if (n <? 10)%N then 48 + n else 87 + n)%N.
Fixpoint sample_hex (s : string) : string :=
  match s with
  | EmptyString => EmptyString
  | String a s =>
      let n := N_of_ascii a in
      String (hex_digit (n / 16)) (String (hex_digit (n mod 16)) (sample_hex s))
  end.

Definition sample_encodings : Encodings :=
  {| hex_encode := sample_hex;
     base64_standard_no_pad_decode := fun s => Some s;
     base64_url_safe_no_pad_decode := fun s => Some s;
     base64_url_safe_no_pad_encode := fun s => s |}.

Definition sample_url (s : string) : Url :=
  {| url_scheme := "https"; url_host_str := Some "core.test"; url_username := EmptyString;
     url_password := None; url_query := None; url_fragment := None; url_path := "/";
     url_as_str := s |}.
Definition sample_urls : UrlApi :=
  {| url_parse := fun s => Some (sample_url s);
     url_join := fun u path => Some (sample_url (url_as_str u +:+ path)) |}.

Definition repeat_byte (n : nat) (a : ascii) : string := of_bytes (replicate n a).
Definition sample_key : string := repeat_byte 64 "a".

Definition sample_bridge (method : string) : result Value BridgeError :=
  if method =s "deployment_id" then Ok (jobj [("id", Str "7"); ("origin", jobj [])])
  else if method =s "deployment_publicKeys" then
    Ok (jobj [("publicKeys", jobj [("ed25519", Str sample_key)])])
  else if method =s "deployment_assignedProcessors" then
    Ok (jobj [("processors", jobj [("5Proc", jobj [("ed25519", Str ("0x" +:+ sample_key))])])])
  else if method =s "signer_sign" then Ok (jobj [("bytes", Str (repeat_byte 128 "b"))])
  else Err Timeout.

Definition sample_nonce (n : nat) : string := repeat_byte n "r".

Definition sample_world : World :=
  {| on_bridge := fun _ method _ => sample_bridge method;
     on_http := fun _ _ _ => Ok {| status := 200; body := "accepted" |};
     on_random := fun _ n => Some (sample_nonce n);
     on_unix_time := fun _ => Some 1700000000000;
     on_elapsed := fun _ => 0 |}.
