(* ===== verification/Protocol.v ===== *)
(** * The runtime-bootstrap protocol

    [protocol.rs]: the wire records of the bootstrap exchange, their closed
    validity predicates, the server-owned policy decisions, identity discovery
    over the bridge, request construction and signing, and the validation that
    binds a response to the signed request. *)
From Stdlib Require Import Ascii.
From stdpp Require Import prelude strings gmap.
From S2P Require Import Prelude Json EnvNames Bridge World.

Local Open Scope Z_scope.

Definition RUNTIME_BOOTSTRAP_REQUEST_DOMAIN_V2 : string :=
  "proof.liskov.runtime-bootstrap-request.v2".
Definition RUNTIME_BOOTSTRAP_RESPONSE_DOMAIN_V2 : string :=
  "proof.liskov.runtime-bootstrap-response.v2".
Definition RUNTIME_BOOTSTRAP_TTL_MS : Z := 60000.

(** ** Wire records *)

Record RuntimeIdentity := { id_job_id : string; id_processor_id : string }.

Record UnsignedRuntimeBootstrapRequest := {
  unsigned_domain : string;
  unsigned_job_id : string;
  unsigned_processor_id : string;
  unsigned_nonce : string;
  unsigned_issued_at_ms : Z;
  unsigned_expires_at_ms : Z
}.

Record SignedRuntimeBootstrapRequest := {
  req_domain : string;
  req_job_id : string;
  req_processor_id : string;
  req_nonce : string;
  req_issued_at_ms : Z;
  req_expires_at_ms : Z;
  req_signature : string
}.

Record RuntimeSecretsBootstrap := { customer_required : option bool }.

Inductive ProviderLogMode := Disabled | Sanitized | RawTailscaledStderr.

Record ProviderLogsBootstrap := {
  pl_mode : ProviderLogMode;
  pl_expires_at_ms : option Z
}.

Record RuntimeDiagnosticsBootstrap := { provider_logs : option ProviderLogsBootstrap }.

Record RuntimeEnvBootstrap := { re_enabled : bool; re_url : string }.

Inductive RuntimeAccessProviderKind := Tailscale | Liskov.

Record RuntimeAccessArtifact := {
  descriptor_id : string;
  art_version : string;
  art_url : string;
  art_sha256 : string;
  byte_size : Z
}.

Inductive RuntimeAccessLaunchProfile := TailscaleStandardV1 | TailscaleAcurastProotV1.

Record TailscaleRuntimeAccessCredential := {
  tc_schema : string;
  tc_auth_key : string;
  tc_organization_id : string;
  tc_integration_id : string;
  tc_attachment_id : string;
  tc_application_uid : string;
  tc_deployment_id : string;
  tc_job_id : string;
  tc_policy_digest : string;
  tc_expires_at_ms : Z
}.

Inductive EndpointProbe :=
| ProbeHttp (path : string) (contains : option string)
| ProbeTcp (port : Z)
| ProbeExec (argv : list string).

Record EndpointHealth := { live : option EndpointProbe; ready : option EndpointProbe }.

Record TailscaleEndpointPublication := {
  use_site : string;
  service_name : string;
  local_port : Z;
  health : option EndpointHealth
}.

Record TailscaleRuntimeAccessBootstrap := {
  ts_provider_kind : RuntimeAccessProviderKind;
  ts_attachment_id : string;
  expected_tailnet : string;
  ts_setup_deadline_ms : Z;
  ts_fence : Z;
  launch_profile : option RuntimeAccessLaunchProfile;
  artifact : RuntimeAccessArtifact;
  ts_credential : option TailscaleRuntimeAccessCredential;
  publications : list TailscaleEndpointPublication;
  ssh_enabled : bool
}.

Inductive ManagedRuntimeAccessProtocol := LiskovAccessV1.

Record ManagedRuntimeAccessBinding := {
  mb_organization_id : string;
  mb_application_id : string;
  mb_application_uid : string;
  mb_liskov_deployment_id : string;
  mb_deployment_id : string;
  mb_liskov_job_id : string;
  mb_job_id : string;
  mb_policy_digest : string
}.

Record ManagedRuntimeAccessToolchain := {
  runtime_contact_sha256 : string;
  dropbear_sha256 : string;
  dropbearkey_sha256 : string
}.

Record ManagedRuntimeAccessCredential := {
  mc_schema : string;
  mc_connector_token : string;
  mc_attachment_id : string;
  mc_fence : Z;
  mc_expires_at_ms : Z
}.

Record ManagedRuntimeAccessBootstrap := {
  mg_provider_kind : RuntimeAccessProviderKind;
  mg_attachment_id : string;
  mg_fence : Z;
  gateway_url : string;
  tunnel_id : string;
  mg_protocol : ManagedRuntimeAccessProtocol;
  mg_setup_deadline_ms : Z;
  mg_binding : option ManagedRuntimeAccessBinding;
  authorized_keys : list string;
  authorized_key_fingerprints : list string;
  toolchain : option ManagedRuntimeAccessToolchain;
  mg_credential : option ManagedRuntimeAccessCredential;
  credential_consumed : bool
}.

Inductive RuntimeAccessBootstrap :=
| AccessTailscale (a : TailscaleRuntimeAccessBootstrap)
| AccessManaged (a : ManagedRuntimeAccessBootstrap).

Record RuntimeBootstrapResponse := {
  rb_ok : bool;
  rb_domain : string;
  rb_application_uid : string;
  rb_application_id : string;
  rb_policy_digest : string;
  rb_deployment_id : string;
  rb_job_id : string;
  rb_processor_id : string;
  rb_runtime_instance_id : string;
  rb_slipway_url : string;
  rb_runtime_env : option RuntimeEnvBootstrap;
  rb_secrets : option RuntimeSecretsBootstrap;
  rb_supervision : option Value;
  rb_logging : option Value;
  rb_logging_outage_canary : bool;
  rb_diagnostics : option RuntimeDiagnosticsBootstrap;
  rb_access : option RuntimeAccessBootstrap;
  rb_processor_facts : option Value;
  rb_fact_authorization : option Value
}.

#[global] Instance ProviderKind_eq_dec : EqDecision RuntimeAccessProviderKind.
Proof. solve_decision. Defined.
#[global] Instance ProviderLogMode_eq_dec : EqDecision ProviderLogMode.
Proof. solve_decision. Defined.
#[global] Instance EndpointProbe_eq_dec : EqDecision EndpointProbe.
Proof. solve_decision. Defined.
#[global] Instance EndpointHealth_eq_dec : EqDecision EndpointHealth.
Proof. solve_decision. Defined.

(** ** Validity of the access block *)

Definition tailscale_credential_valid_for (c : TailscaleRuntimeAccessCredential)
    (access : TailscaleRuntimeAccessBootstrap) : bool :=
  (tc_schema c =s "proof.liskov.runtime-ssh-credential.v1")
  && (tc_attachment_id c =s ts_attachment_id access)
  && (tc_expires_at_ms c =? ts_setup_deadline_ms access)
  && (negb (str_is_empty (tc_auth_key c)) && (len (tc_auth_key c) <=? 512)).

Definition MAX_ENDPOINT_PUBLICATIONS : Z := 8.

Definition probe_valid (p : EndpointProbe) : bool :=
  match p with
  | ProbeHttp path contains =>
      starts_with "/" path
      && (len path <=? 256)
      && negb (bytes_any (fun b => is_ascii_control b || byte_is 32 b) path)
      && is_none_or contains (fun needle => negb (str_is_empty needle) && (len needle <=? 256))
  | ProbeTcp port => 0 <? port
  | ProbeExec argv =>
      negb (Nat.eqb (length argv) 0)
      && (Z.of_nat (length argv) <=? 32)
      && forallb (fun arg => negb (str_is_empty arg) && (len arg <=? 1024)) argv
  end.

Definition health_valid (h : EndpointHealth) : bool :=
  (opt_is_some (live h) || opt_is_some (ready h))
  && forallb probe_valid (omap id [live h; ready h]).

Definition publication_valid (p : TailscaleEndpointPublication) : bool :=
  (len (use_site p) <=? 512)
  && starts_with "/ingress/" (use_site p)
  && ends_with "/provider" (use_site p)
  && negb (str_is_empty (service_name p))
  && (len (service_name p) <=? 63)
  && bytes_all (fun b => is_ascii_alphanumeric b || byte_is 45 b || byte_is 95 b) (service_name p)
  && (0 <? local_port p)
  && is_none_or (health p) health_valid.

(** The [all] closure of [publications_valid], threading its set of use sites
    and its map from port to service; it stops at the first refusal. *)
Fixpoint publications_all (use_sites : gset string) (ports : gmap Z string)
    (ps : list TailscaleEndpointPublication) : bool :=
  match ps with
  | [] => true
  | p :: ps =>
      if negb (publication_valid p) then false
      else if decide (use_site p ∈ use_sites) then false
      else
        let use_sites := {[use_site p]} ∪ use_sites in
        let owner := default (service_name p) (ports !! local_port p) in
        let ports := <[local_port p := owner]> ports in
        if owner =s service_name p then publications_all use_sites ports ps else false
  end.

Definition publications_valid (ps : list TailscaleEndpointPublication) : bool :=
  (Z.of_nat (length ps) <=? MAX_ENDPOINT_PUBLICATIONS) && publications_all ∅ ∅ ps.

Definition valid_sha256 (value : string) : bool :=
  (len value =? 64) && bytes_all (fun b => is_ascii_digit b || byte_between 97 102 b) value.

Section access_validity.
Context `{!UrlApi, !Encodings}.

Definition tailscale_valid (a : TailscaleRuntimeAccessBootstrap) : bool :=
  let url_valid :=
    is_some_and (url_parse (art_url (artifact a))) (fun url =>
      (url_scheme url =s "https")
      && opt_is_some (url_host_str url)
      && str_is_empty (url_username url)
      && opt_is_none (url_password url)
      && opt_is_none (url_fragment url)) in
  negb (str_is_empty (ts_attachment_id a))
  && (len (ts_attachment_id a) <=? 256)
  && negb (str_is_empty (expected_tailnet a))
  && negb (expected_tailnet a =s "-")
  && (len (expected_tailnet a) <=? 253)
  && negb (bytes_any (byte_is 47) (expected_tailnet a))
  && (0 <? ts_fence a)
  && negb (str_is_empty (descriptor_id (artifact a)))
  && negb (str_is_empty (art_version (artifact a)))
  && (len (art_sha256 (artifact a)) =? 64)
  && bytes_all (fun b => is_ascii_hexdigit b && negb (is_ascii_uppercase b)) (art_sha256 (artifact a))
  && ((1 <=? byte_size (artifact a)) && (byte_size (artifact a) <=? 134217728))
  && url_valid
  && is_none_or (ts_credential a) (fun c => tailscale_credential_valid_for c a)
  && publications_valid (publications a).

(** [value.split('.').count()] is one more than the number of separators. *)
Definition split_count (sep : Z) (value : string) : nat :=
  S (length (filter (fun b => byte_is sep b) (bytes value))).

Definition managed_credential_valid_for (c : ManagedRuntimeAccessCredential)
    (access : ManagedRuntimeAccessBootstrap) : bool :=
  (mc_schema c =s "proof.liskov.runtime-ssh-credential.v2")
  && (mc_attachment_id c =s mg_attachment_id access)
  && (mc_fence c =? mg_fence access)
  && (mg_setup_deadline_ms access <=? mc_expires_at_ms c)
  && ((len (mc_connector_token c) <=? 4096)
      && Nat.eqb (split_count 46 (mc_connector_token c)) 3
      && bytes_all is_ascii_graphic (mc_connector_token c)).

(** No carriage return, newline or NUL. *)
Definition single_line (value : string) : bool :=
  negb (bytes_any (fun b => byte_is 13 b || byte_is 10 b || byte_is 0 b) value).

Definition valid_managed_binding (b : ManagedRuntimeAccessBinding) : bool :=
  forallb (fun value => negb (str_is_empty value) && (len value <=? 512) && single_line value)
    [mb_organization_id b; mb_application_id b; mb_application_uid b;
     mb_liskov_deployment_id b; mb_deployment_id b; mb_liskov_job_id b; mb_job_id b;
     mb_policy_digest b].

Definition valid_ssh_fingerprint (value : string) : bool :=
  match strip_prefix "SHA256:" value with
  | None => false
  | Some encoded =>
      negb (str_is_empty encoded)
      && negb (bytes_any (byte_is 61) encoded)
      && is_some_and (base64_standard_no_pad_decode encoded) (fun bytes => len bytes =? 32)
  end.

Definition unique_values (values : list string) : bool :=
  Nat.eqb (size (list_to_set values : gset string)) (length values).

Definition one_to_eight {A} (l : list A) : bool :=
  (1 <=? Z.of_nat (length l)) && (Z.of_nat (length l) <=? 8).

Definition managed_valid (a : ManagedRuntimeAccessBootstrap) : bool :=
  let gateway_valid :=
    is_some_and (url_parse (gateway_url a)) (fun url =>
      (url_scheme url =s "wss")
      && opt_is_some (url_host_str url)
      && str_is_empty (url_username url)
      && opt_is_none (url_password url)
      && opt_is_none (url_query url)
      && opt_is_none (url_fragment url)
      && (str_is_empty (url_path url) || (url_path url =s "/"))) in
  let v1_valid :=
    is_some_and (mg_binding a) valid_managed_binding
    && (Nat.eqb (length (authorized_keys a)) 0
        || (one_to_eight (authorized_keys a)
            && unique_values (authorized_keys a)
            && forallb (fun value =>
                 starts_with "ssh-ed25519 " value && (len value <=? 256) && single_line value)
                 (authorized_keys a)))
    && one_to_eight (authorized_key_fingerprints a)
    && unique_values (authorized_key_fingerprints a)
    && forallb valid_ssh_fingerprint (authorized_key_fingerprints a)
    && is_some_and (toolchain a) (fun t =>
         valid_sha256 (runtime_contact_sha256 t)
         && valid_sha256 (dropbear_sha256 t)
         && valid_sha256 (dropbearkey_sha256 t))
    && is_none_or (mg_credential a) (fun c => managed_credential_valid_for c a) in
  bool_decide (mg_provider_kind a = Liskov)
  && match mg_protocol a with LiskovAccessV1 => true end
  && negb (str_is_empty (mg_attachment_id a))
  && (len (mg_attachment_id a) <=? 256)
  && (0 <? mg_fence a)
  && negb (str_is_empty (tunnel_id a))
  && (len (tunnel_id a) <=? 256)
  && bytes_all (fun b => is_ascii_alphanumeric b || byte_is 95 b || byte_is 45 b) (tunnel_id a)
  && gateway_valid
  && v1_valid.

Definition access_valid (a : RuntimeAccessBootstrap) : bool :=
  match a with
  | AccessTailscale access =>
      bool_decide (ts_provider_kind access = Tailscale) && tailscale_valid access
  | AccessManaged access => managed_valid access
  end.

End access_validity.

Definition provider_kind (a : RuntimeAccessBootstrap) : RuntimeAccessProviderKind :=
  match a with
  | AccessTailscale access => ts_provider_kind access
  | AccessManaged access => mg_provider_kind access
  end.

Definition attachment_id (a : RuntimeAccessBootstrap) : string :=
  match a with
  | AccessTailscale access => ts_attachment_id access
  | AccessManaged access => mg_attachment_id access
  end.

Definition fence (a : RuntimeAccessBootstrap) : Z :=
  match a with
  | AccessTailscale access => ts_fence access
  | AccessManaged access => mg_fence access
  end.

(** The crate version of [Cargo.toml]. *)
Definition CARGO_PKG_VERSION : string := "0.12.2".

Definition binding_attrs (a : RuntimeAccessBootstrap) : Value :=
  jobj [("attachmentId", Str (attachment_id a));
        ("fence", jint (fence a));
        ("providerKind", Str (match provider_kind a with
                              | Tailscale => "tailscale"
                              | Liskov => "liskov"
                              end));
        ("runtimeContactVersion", Str CARGO_PKG_VERSION)].

(** ** Server-owned decisions carried by the response *)

Inductive RestartLimit := Attempts (max_restarts : Z) | ScheduleEnd.
Inductive SupervisionMode := Never | OnFailure (restart_limit : RestartLimit).

Record SupervisionPolicy := {
  sp_mode : SupervisionMode;
  server_time_ms : Z;
  schedule_end_ms : Z
}.

Definition logging_enabled (r : RuntimeBootstrapResponse) : bool :=
  match (l ← rb_logging r; as_object l) with
  | None => false
  | Some object =>
      Nat.eqb (length object) 1
      && match (v ← btree_get "enabled" object; as_bool v) with
         | Some true => true
         | _ => false
         end
  end.

Definition logging_outage_canary_enabled (r : RuntimeBootstrapResponse) : bool :=
  logging_enabled r && rb_logging_outage_canary r.

Definition provider_log_mode (r : RuntimeBootstrapResponse) (now_ms : Z) : ProviderLogMode :=
  if negb (logging_enabled r) || opt_is_none (rb_access r) then Disabled
  else
    match (d ← rb_diagnostics r; provider_logs d) with
    | None => Disabled
    | Some logs =>
        match pl_mode logs with
        | Disabled => Disabled
        | Sanitized => if opt_is_none (pl_expires_at_ms logs) then Sanitized else Disabled
        | RawTailscaledStderr =>
            if is_some_and (pl_expires_at_ms logs) (fun expires_at_ms =>
                 (now_ms <? expires_at_ms)
                 && is_some_and (checked_add_u64 now_ms (60 * 60 * 1000))
                      (fun ceiling => expires_at_ms <=? ceiling))
            then RawTailscaledStderr else Disabled
        end
    end.

Definition provider_log_expiry_ms (r : RuntimeBootstrapResponse) : option Z :=
  d ← rb_diagnostics r;
  logs ← provider_logs d;
  expires ← pl_expires_at_ms logs;
  then_some (bool_decide (pl_mode logs = RawTailscaledStderr)) expires.

Definition supervision_keys : list string :=
  ["mode"; "restartLimit"; "serverTimeMs"; "scheduleEndMs"].
Definition limit_keys : list string := ["kind"; "maxRestarts"].

(** [object.keys().any(|key| !matches!(key, ...))]. *)
Definition has_unknown_key (known : list string) (object : list (string * Value)) : bool :=
  existsb (fun kv => negb (names_contain known kv.1)) object.

Definition parse_restart_limit (limit : list (string * Value)) : option RestartLimit :=
  if has_unknown_key limit_keys limit then None
  else
    kind ← (v ← btree_get "kind" limit; as_str v);
    if kind =s "attempts" then
      max_restarts ← (v ← btree_get "maxRestarts" limit; as_u64 v);
      n ← opt_filter (fun n => n <=? 10) (u8_try_from max_restarts);
      Some (Attempts n)
    else if kind =s "schedule_end" then
      if is_some_and (btree_get "maxRestarts" limit) (fun v => negb (is_null v)) then None
      else Some ScheduleEnd
    else None.

Definition parse_supervision_mode (object : list (string * Value)) : option SupervisionMode :=
  mode ← (v ← btree_get "mode" object; as_str v);
  if mode =s "never" then
    if is_some_and (btree_get "restartLimit" object) (fun v => negb (is_null v)) then None
    else Some Never
  else if mode =s "on_failure" then
    limit ← (v ← btree_get "restartLimit" object; as_object v);
    restart_limit ← parse_restart_limit limit;
    Some (OnFailure restart_limit)
  else None.

Definition supervision_policy (r : RuntimeBootstrapResponse) : option SupervisionPolicy :=
  value ← rb_supervision r;
  object ← as_object value;
  if has_unknown_key supervision_keys object then None
  else
    mode ← parse_supervision_mode object;
    server_time ← (v ← btree_get "serverTimeMs" object; as_u64 v);
    schedule_end ← (v ← btree_get "scheduleEndMs" object; as_u64 v);
    then_some (server_time <? schedule_end)
      {| sp_mode := mode; server_time_ms := server_time; schedule_end_ms := schedule_end |}.

(** ** The signed exchange *)

Inductive ProtocolError :=
| BridgeSetup (e : BridgeError)
| DeploymentIdentityBridge (e : BridgeError)
| InvalidDeploymentIdentity
| PublicKeyBridge (e : BridgeError)
| InvalidPublicKey
| AssignedProcessorsBridge (e : BridgeError)
| ProcessorMatchCount
| SignerBridge (e : BridgeError)
| InvalidSignature
| TimestampOverflow
| Serialization
| InvalidResponse
| ResponseBinding.

Definition normalize_hex_exact (value : string) (bytes : Z) : option string :=
  let value := to_ascii_lowercase (default value (strip_prefix "0x" value)) in
  then_some ((len value =? bytes * 2) && bytes_all is_ascii_hexdigit value) value.

Definition unsigned_to_value (u : UnsignedRuntimeBootstrapRequest) : Value :=
  jobj [("domain", Str (unsigned_domain u));
        ("jobId", Str (unsigned_job_id u));
        ("processorId", Str (unsigned_processor_id u));
        ("nonce", Str (unsigned_nonce u));
        ("issuedAtMs", jint (unsigned_issued_at_ms u));
        ("expiresAtMs", jint (unsigned_expires_at_ms u))].

(** The signed request is posted with its fields in declaration order. *)
Definition signed_fields (s : SignedRuntimeBootstrapRequest) : list (string * Value) :=
       [("domain", Str (req_domain s));
        ("jobId", Str (req_job_id s));
        ("processorId", Str (req_processor_id s));
        ("nonce", Str (req_nonce s));
        ("issuedAtMs", jint (req_issued_at_ms s));
        ("expiresAtMs", jint (req_expires_at_ms s));
        ("signature", Str (req_signature s))].

Definition build_unsigned_request (identity : RuntimeIdentity) (nonce : string) (issued_at_ms : Z)
    : result UnsignedRuntimeBootstrapRequest ProtocolError :=
  let? expires_at_ms := ok_or TimestampOverflow (checked_add_u64 issued_at_ms RUNTIME_BOOTSTRAP_TTL_MS) in
  Ok {| unsigned_domain := RUNTIME_BOOTSTRAP_REQUEST_DOMAIN_V2;
        unsigned_job_id := id_job_id identity;
        unsigned_processor_id := id_processor_id identity;
        unsigned_nonce := nonce;
        unsigned_issued_at_ms := issued_at_ms;
        unsigned_expires_at_ms := expires_at_ms |}.

(** [keys.get("ed25519").and_then(as_str).and_then(normalize)]. *)
Definition ed25519_key (keys : Value) : option string :=
  v ← value_get "ed25519" keys; s ← as_str v; normalize_hex_exact s 32.

(** The entries of [processors] whose Ed25519 key equals [current_key]. *)
Definition processor_matches (current_key : string) (processors : list (string * Value)) : list string :=
  omap (fun ak : string * Value =>
    key ← opt_filter (fun key => key =s current_key) (ed25519_key ak.2);
    Some ak.1) processors.

Section exchange.
Context `{!JsonText, !World, !UrlApi, !Encodings, !Deserialize RuntimeBootstrapResponse}.

Definition discover_runtime_identity : io event (result RuntimeIdentity ProtocolError) :=
  deployment_reply ← bridge_call "deployment_id" (Arr []);
  match deployment_reply with
  | Err e => mret (Err (DeploymentIdentityBridge e))
  | Ok deployment =>
  if opt_is_none (opt_filter (fun id => negb (str_is_empty id))
       (v ← value_get "id" deployment; as_str v))
  then mret (Err InvalidDeploymentIdentity)
  else if opt_is_none (opt_filter is_object (value_get "origin" deployment))
  then mret (Err InvalidDeploymentIdentity)
  else
  let job_id := to_vec (sort_json deployment) in
  keys_reply ← bridge_call "deployment_publicKeys" (Arr []);
  match keys_reply with
  | Err e => mret (Err (PublicKeyBridge e))
  | Ok public_keys =>
  match (keys ← value_get "publicKeys" public_keys; ed25519_key keys) with
  | None => mret (Err InvalidPublicKey)
  | Some current_key =>
  assigned_reply ← bridge_call "deployment_assignedProcessors" (Arr []);
  match assigned_reply with
  | Err e => mret (Err (AssignedProcessorsBridge e))
  | Ok assigned =>
  match (v ← value_get "processors" assigned; as_object v) with
  | None => mret (Err ProcessorMatchCount)
  | Some processors =>
  match processor_matches current_key processors with
  | [processor_id] =>
      if str_is_empty processor_id then mret (Err ProcessorMatchCount)
      else mret (Ok {| id_job_id := job_id; id_processor_id := processor_id |})
  | _ => mret (Err ProcessorMatchCount)
  end
  end
  end
  end
  end
  end.

Definition canonical_unsigned_request_bytes (u : UnsignedRuntimeBootstrapRequest) : string :=
  to_vec (sort_json (unsigned_to_value u)).

Definition sign_params (message : string) : Value :=
  Arr [jobj [("curve", Str "ed25519"); ("bytes", Str (hex_encode message))]].

Definition sign_request (u : UnsignedRuntimeBootstrapRequest)
    : io event (result SignedRuntimeBootstrapRequest ProtocolError) :=
  let message := canonical_unsigned_request_bytes u in
  reply ← bridge_call "signer_sign" (sign_params message);
  match reply with
  | Err e => mret (Err (SignerBridge e))
  | Ok result =>
      match (v ← value_get "bytes" result; s ← as_str v; normalize_hex_exact s 64) with
      | None => mret (Err InvalidSignature)
      | Some signature =>
          mret (Ok {| req_domain := unsigned_domain u;
                      req_job_id := unsigned_job_id u;
                      req_processor_id := unsigned_processor_id u;
                      req_nonce := unsigned_nonce u;
                      req_issued_at_ms := unsigned_issued_at_ms u;
                      req_expires_at_ms := unsigned_expires_at_ms u;
                      req_signature := "0x" +:+ signature |})
      end
  end.

Definition validate_response (request : SignedRuntimeBootstrapRequest) (body : string)
    : result RuntimeBootstrapResponse ProtocolError :=
  match from_slice body with
  | None => Err InvalidResponse
  | Some response =>
      if negb (rb_ok response)
         || negb (rb_domain response =s RUNTIME_BOOTSTRAP_RESPONSE_DOMAIN_V2)
         || str_is_empty (rb_application_uid response)
         || str_is_empty (rb_application_id response)
         || str_is_empty (rb_policy_digest response)
         || str_is_empty (rb_deployment_id response)
         || str_is_empty (rb_slipway_url response)
         || is_some_and (rb_runtime_env response) (fun e => re_enabled e && str_is_empty (re_url e))
         || is_some_and (rb_access response) (fun a => negb (access_valid a))
      then Err InvalidResponse
      else if negb (rb_job_id response =s req_job_id request)
              || negb (rb_processor_id response =s req_processor_id request)
              || negb (rb_runtime_instance_id response =s req_nonce request)
      then Err ResponseBinding
      else Ok response
  end.

End exchange.

(** * Properties *)

(** ** Publications *)

(** What a well-formed list of publications is, without the two collections
    the code threads through its scan. *)
Definition publications_spec (ps : list TailscaleEndpointPublication) : Prop :=
  Forall (fun p => publication_valid p = true) ps /\
  NoDup (map use_site ps) /\
  (forall p q, p ∈ ps -> q ∈ ps -> local_port p = local_port q -> service_name p = service_name q).

Lemma publications_all_spec ps S M :
  publications_all S M ps = true <->
  publications_spec ps /\
  Forall (fun p => use_site p ∉ S) ps /\
  Forall (fun p => forall s, M !! local_port p = Some s -> s = service_name p) ps.
Proof.
  unfold publications_spec. revert S M. induction ps as [|p ps IH]; intros S M; simpl.
  { split; [| done]. intros _. split_and!; try constructor. set_solver. }
  destruct (publication_valid p) eqn:Hv; simpl; cycle 1.
  { split; [done |]. intros ((Hf & _) & _). apply Forall_cons in Hf as [? _]. congruence. }
  case_decide as HS.
  { split; [done |]. intros (_ & Hf & _). by apply Forall_cons in Hf as [? _]. }
  set (owner := default (service_name p) (M !! local_port p)).
  destruct (owner =s service_name p) eqn:Ho; cycle 1.
  { split; [done |]. intros (_ & _ & Hf). apply Forall_cons in Hf as [Hp _].
    unfold owner in Ho. destruct (M !! local_port p) as [s|] eqn:E; simpl in Ho.
    - rewrite (Hp s eq_refl), str_eqb_refl in Ho. done.
    - by rewrite str_eqb_refl in Ho. }
  apply str_eqb_eq in Ho. rewrite IH, !Forall_cons, NoDup_cons.
  rewrite list_elem_of_In, in_map_iff. split.
  - intros ((Hval & Hnd & Hports) & Hfresh & Hown).
    rewrite Forall_forall in Hfresh. rewrite Forall_forall in Hown.
    assert (Hhead : forall q, q ∈ ps -> local_port p = local_port q -> service_name p = service_name q).
    { intros q Hq Heq. rewrite <- Ho. apply Hown; [done |]. by rewrite <- Heq, lookup_insert_eq. }
    split_and!; try done.
    + intros (q & Hq & Hin). apply list_elem_of_In in Hin. apply (Hfresh q Hin). set_solver.
    + intros a b [->|Ha]%elem_of_cons [->|Hb]%elem_of_cons; try done.
      * by apply Hhead.
      * intros. symmetry. by apply Hhead.
      * by apply Hports.
    + apply Forall_forall. intros q Hq. specialize (Hfresh q Hq). set_solver.
    + intros s Hs. rewrite <- Ho. unfold owner. by rewrite Hs.
    + apply Forall_forall. intros q Hq s Hs.
      destruct (decide (local_port p = local_port q)) as [Hpq|Hpq].
      * rewrite <- (Hhead q) by done. rewrite <- Ho. unfold owner. by rewrite Hpq, Hs.
      * apply (Hown q Hq). by rewrite lookup_insert_ne.
  - intros (((_ & Hval) & (Hfr & Hnd) & Hports) & (_ & Hfresh) & Hp & Hown).
    split_and!; try done.
    + intros a b Ha Hb. apply Hports; set_solver.
    + rewrite Forall_forall in Hfresh |- *. intros q Hq Hin.
      apply elem_of_union in Hin as [Hin%elem_of_singleton|Hin]; [| by eapply Hfresh].
      apply Hfr. exists q. split; [done | by apply list_elem_of_In].
    + rewrite Forall_forall in Hown |- *. intros q Hq s Hs.
      destruct (decide (local_port p = local_port q)) as [Hpq|Hpq].
      * rewrite Hpq, lookup_insert_eq in Hs. simplify_eq. rewrite Ho. apply Hports; set_solver.
      * rewrite lookup_insert_ne in Hs by done. by eapply Hown.
Qed.

(** The publication check, which threads a set of use sites and a map of
    port owners, accepts exactly the lists of at most eight well-formed
    publications whose use sites are pairwise distinct and in which two
    publications sharing a local port belong to the same service. *)
Theorem publications_valid_iff ps :
  publications_valid ps = true <->
  Z.of_nat (length ps) <= MAX_ENDPOINT_PUBLICATIONS /\ publications_spec ps.
Proof.
  unfold publications_valid. rewrite andb_true_iff, Z.leb_le, publications_all_spec.
  split; [naive_solver |]. intros [Hlen Hspec]. split_and!; try done.
  - apply Forall_forall. set_solver.
  - apply Forall_forall. intros p _ s Hs. by rewrite lookup_empty in Hs.
Qed.

(** ** The supervision decision *)

(** The JSON encodings of a policy: an absent [restartLimit] (mode [never]) or
    [maxRestarts] (limit [schedule_end]) may also be written as [null]. *)
Definition limit_encodings (l : RestartLimit) : list Value :=
  match l with
  | Attempts n => [jobj [("kind", Str "attempts"); ("maxRestarts", Num (PosInt n))]]
  | ScheduleEnd =>
      [jobj [("kind", Str "schedule_end")];
       jobj [("kind", Str "schedule_end"); ("maxRestarts", Null)]]
  end.

Definition policy_fields (p : SupervisionPolicy) (mode : string) : list (string * Value) :=
  [("mode", Str mode);
   ("serverTimeMs", Num (PosInt (server_time_ms p)));
   ("scheduleEndMs", Num (PosInt (schedule_end_ms p)))].

Definition policy_encodings (p : SupervisionPolicy) : list Value :=
  match sp_mode p with
  | Never =>
      [jobj (policy_fields p "never");
       jobj (("restartLimit", Null) :: policy_fields p "never")]
  | OnFailure l =>
      map (fun lv => jobj (("restartLimit", lv) :: policy_fields p "on_failure")) (limit_encodings l)
  end.

Definition policy_wf (p : SupervisionPolicy) : Prop :=
  server_time_ms p < schedule_end_ms p /\
  match sp_mode p with
  | OnFailure (Attempts n) => 0 <= n <= 10
  | _ => True
  end.

Definition response_with_supervision (v : Value) : RuntimeBootstrapResponse :=
  {| rb_ok := true; rb_domain := EmptyString; rb_application_uid := EmptyString;
     rb_application_id := EmptyString; rb_policy_digest := EmptyString;
     rb_deployment_id := EmptyString; rb_job_id := EmptyString; rb_processor_id := EmptyString;
     rb_runtime_instance_id := EmptyString; rb_slipway_url := EmptyString;
     rb_runtime_env := None; rb_secrets := None; rb_supervision := Some v; rb_logging := None;
     rb_logging_outage_canary := false; rb_diagnostics := None; rb_access := None;
     rb_processor_facts := None; rb_fact_authorization := None |}.

Lemma has_unknown_key_false known object k :
  has_unknown_key known object = false -> k ∉ known -> btree_get k object = None.
Proof.
  unfold has_unknown_key. intros H Hk. destruct (btree_get k object) as [v|] eqn:E; [| done].
  apply btree_get_Some_in in E. exfalso.
  assert (existsb (fun kv : string * Value => negb (names_contain known kv.1)) object = true) as HT.
  { apply existsb_exists. exists (k, v). split; [by apply list_elem_of_In |].
    simpl. apply names_contain_false in Hk. by rewrite Hk. }
  congruence.
Qed.

(** An ordered object with only known keys is the object literal of its
    entries. *)
Lemma closed_object_eq known object l :
  btree_wf object -> has_unknown_key known object = false -> NoDup (map fst l) ->
  map fst l ⊆ known ->
  (forall k, k ∈ known -> btree_get k object = btree_get k l) -> object = btree_collect l.
Proof.
  intros Hwf Hunk Hnd Hsub Hget. apply btree_ext; [done | apply btree_collect_wf |].
  intros k. rewrite btree_get_collect by done. destruct (decide (k ∈ known)) as [Hk|Hk]; [auto |].
  rewrite (has_unknown_key_false known) by done. symmetry. apply btree_get_not_in. set_solver.
Qed.

(** Solves [object = btree_collect literal] from the lookups of [object]. *)
Ltac closed_object known :=
  unfold jobj; f_equal;
  first [apply (closed_object_eq known) | symmetry; apply (closed_object_eq known)]; try done;
  match goal with
  | |- NoDup _ => simpl; rewrite ?NoDup_cons; split_and!; try apply NoDup_nil_2; set_solver
  | |- _ ⊆ _ => set_solver
  | |- forall k, _ =>
      let k := fresh in let Hk := fresh in
      intros k Hk; unfold known in Hk; set_unfold in Hk;
      repeat (destruct Hk as [->|Hk]; [done |]); destruct Hk
  end.

Lemma parse_restart_limit_sound m l :
  btree_wf m -> parse_restart_limit m = Some l ->
  Obj m ∈ limit_encodings l /\ match l with Attempts n => 0 <= n <= 10 | ScheduleEnd => True end.
Proof.
  unfold parse_restart_limit. intros Hwf H.
  destruct (has_unknown_key limit_keys m) eqn:Hunk; [done |].
  destruct (btree_get "kind" m) as [[]|] eqn:Hk; simplify_eq/=.
  destruct (s =s "attempts") eqn:Ha; [| destruct (s =s "schedule_end") eqn:Hs; [| done]].
  - apply str_eqb_eq in Ha as ->.
    destruct (btree_get "maxRestarts" m) as [[| |[n| |]| | |]|] eqn:Hm; simplify_eq/=.
    unfold u8_try_from in H. destruct ((0 <=? n) && (n <=? u8_max)) eqn:Hu; simplify_eq/=.
    destruct (n <=? 10) eqn:Hn; simplify_eq/=. reflect_bool. split; [| lia].
    apply list_elem_of_singleton. closed_object limit_keys.
  - apply str_eqb_eq in Hs as ->.
    destruct (btree_get "maxRestarts" m) as [[]|] eqn:Hm; simplify_eq/=;
      (split; [| done]); apply list_elem_of_In; simpl.
    + right. left. closed_object limit_keys.
    + left. closed_object limit_keys.
Qed.

Lemma limit_encodings_complete l m :
  match l with Attempts n => 0 <= n <= 10 | ScheduleEnd => True end ->
  Obj m ∈ limit_encodings l -> parse_restart_limit m = Some l.
Proof.
  destruct l as [n|]; simpl.
  - intros Hn Hm%list_elem_of_singleton. injection Hm as ->.
    unfold parse_restart_limit; simpl. unfold u8_try_from, u8_max.
    rewrite (proj2 (andb_true_iff _ _)) by lia. simpl. by rewrite (proj2 (Z.leb_le _ _)) by lia.
  - intros _ Hm. set_unfold in Hm. destruct Hm as [[= ->]|[[= ->]|[]]]; done.
Qed.

Lemma parse_supervision_mode_sound object p :
  json_wf (Obj object) -> has_unknown_key supervision_keys object = false ->
  parse_supervision_mode object = Some (sp_mode p) ->
  btree_get "serverTimeMs" object = Some (Num (PosInt (server_time_ms p))) ->
  btree_get "scheduleEndMs" object = Some (Num (PosInt (schedule_end_ms p))) ->
  Obj object ∈ policy_encodings p /\
  match sp_mode p with OnFailure (Attempts n) => 0 <= n <= 10 | _ => True end.
Proof.
  unfold parse_supervision_mode, policy_encodings. intros Hj Hunk H Hst Hse. destruct Hj as [Hwf Hj].
  destruct (btree_get "mode" object) as [[| | |mode| |]|] eqn:Hm; simplify_eq/=.
  destruct (mode =s "never") eqn:Hn; [| destruct (mode =s "on_failure") eqn:Ho; [| done]].
  - apply str_eqb_eq in Hn as ->.
    destruct (btree_get "restartLimit" object) as [[]|] eqn:Hl; simplify_eq/=;
      rewrite <- H; (split; [| done]); apply list_elem_of_In; simpl.
    + right. left. closed_object supervision_keys.
    + left. closed_object supervision_keys.
  - apply str_eqb_eq in Ho as ->.
    destruct (btree_get "restartLimit" object) as [[| | | | |limit]|] eqn:Hl; simplify_eq/=.
    destruct (parse_restart_limit limit) as [l|] eqn:Hp; simplify_eq/=. rewrite <- H.
    destruct (parse_restart_limit_sound limit l) as [Henc Hb]; [| done |].
    { apply btree_get_Some_in in Hl.
      rewrite (foldr_and_Forall (fun kv => json_wf kv.2)) in Hj. rewrite Forall_forall in Hj.
      apply (Hj _) in Hl. by destruct Hl. }
    split; [| done]. apply list_elem_of_In, in_map_iff. exists (Obj limit).
    split; [| by apply list_elem_of_In]. closed_object supervision_keys.
Qed.

(** The supervision decision fails closed.  A bootstrap response yields a
    policy exactly when its [supervision] value is one of the JSON encodings of
    that policy and the policy is well formed: the schedule ends after the
    server time and an attempt limit is at most ten.  Every other value, an
    unknown key or a wrong type included, yields none. *)
Theorem supervision_policy_exact r p :
  (forall v, rb_supervision r = Some v -> json_wf v) ->
  supervision_policy r = Some p <->
  policy_wf p /\ exists v, rb_supervision r = Some v /\ v ∈ policy_encodings p.
Proof.
  intros Hwf. unfold supervision_policy. split.
  - intros H. destruct (rb_supervision r) as [[| | | | |object]|] eqn:Hr; simplify_eq/=.
    specialize (Hwf _ eq_refl) as Hj. destruct (has_unknown_key supervision_keys object) eqn:Hunk; [done |].
    destruct (parse_supervision_mode object) as [mode|] eqn:Hmode; simplify_eq/=.
    destruct (btree_get "serverTimeMs" object) as [[| |[st| |]| | |]|] eqn:Hst; simplify_eq/=.
    destruct (btree_get "scheduleEndMs" object) as [[| |[se| |]| | |]|] eqn:Hse; simplify_eq/=.
    unfold then_some in H. destruct (st <? se) eqn:Hlt; simplify_eq. reflect_bool.
    destruct (parse_supervision_mode_sound object
      {| sp_mode := mode; server_time_ms := st; schedule_end_ms := se |}) as [Henc Hb]; try done.
    split; [by split | by exists (Obj object)].
  - intros ([Hlt Hb] & v & -> & Hv). unfold policy_encodings in Hv.
    destruct p as [mode st se]; simpl in *.
    assert (Hts : then_some (st <? se) {| sp_mode := mode; server_time_ms := st; schedule_end_ms := se |}
                  = Some {| sp_mode := mode; server_time_ms := st; schedule_end_ms := se |}).
    { unfold then_some. by rewrite (proj2 (Z.ltb_lt _ _)). }
    destruct mode as [|l].
    + set_unfold in Hv. destruct Hv as [->|[->|[]]]; exact Hts.
    + apply list_elem_of_In, in_map_iff in Hv as (lv & <- & Hlv). apply list_elem_of_In in Hlv.
      assert (exists m, lv = Obj m) as [m ->].
      { destruct l; set_unfold in Hlv; naive_solver. }
      apply limit_encodings_complete in Hlv; [| by destruct l].
      simpl. unfold parse_supervision_mode. simpl. rewrite Hlv. simpl. exact Hts.
Qed.

Definition sample_policy : SupervisionPolicy :=
  {| sp_mode := OnFailure (Attempts 3); server_time_ms := 1000; schedule_end_ms := 61000 |}.
Definition sample_supervision : Value :=
  jobj [("mode", Str "on_failure");
        ("restartLimit", jobj [("kind", Str "attempts"); ("maxRestarts", Num (PosInt 3))]);
        ("serverTimeMs", Num (PosInt 1000)); ("scheduleEndMs", Num (PosInt 61000))].

Lemma sample_supervision_wf v :
  rb_supervision (response_with_supervision sample_supervision) = Some v -> json_wf v.
Proof. intros [= <-]. apply jobj_wf. repeat constructor; by apply jobj_wf; repeat constructor. Qed.

Lemma supervision_policy_exact_witness :
  supervision_policy (response_with_supervision sample_supervision) = Some sample_policy.
Proof.
  apply (proj2 (supervision_policy_exact (response_with_supervision sample_supervision) sample_policy
    sample_supervision_wf)).
  split; [by repeat split |]. exists sample_supervision. split; [done |].
  apply list_elem_of_In. by left.
Defined.

(** ** Provider logs *)

(** Raw provider-log capture is a bounded, expiring exception.  It is on
    only while logging is enabled, an access attachment is present and the
    server's expiry lies in the future and at most one hour ahead; from the
    expiry on it stays off at every later time. *)
Theorem provider_log_mode_raw r now_ms :
  provider_log_mode r now_ms = RawTailscaledStderr ->
  logging_enabled r = true /\ rb_access r <> None /\
  exists expires_at_ms,
    provider_log_expiry_ms r = Some expires_at_ms /\
    now_ms < expires_at_ms <= now_ms + 3600000 /\
    (forall later, expires_at_ms <= later -> provider_log_mode r later = Disabled).
Proof.
  unfold provider_log_mode, provider_log_expiry_ms. intros H.
  destruct (logging_enabled r) eqn:Hlog; [| done].
  destruct (rb_access r) as [a|] eqn:Ha; [| done]. simpl in H |- *.
  destruct (rb_diagnostics r) as [d|] eqn:Hd; [| done]. simpl in H |- *.
  destruct (provider_logs d) as [logs|] eqn:Hl; [| done]. simpl in H |- *.
  destruct (pl_mode logs) eqn:Hm; [done | by destruct (opt_is_none _) |].
  destruct (pl_expires_at_ms logs) as [e|] eqn:He; [| done]. simpl in H |- *.
  destruct (now_ms <? e) eqn:Hnow; [| done]. simpl in H.
  unfold checked_add_u64 in H. destruct (now_ms + 60 * 60 * 1000 <=? u64_max) eqn:Hov; [| done].
  simpl in H. destruct (e <=? now_ms + 60 * 60 * 1000) eqn:Hcap; [| done]. reflect_bool.
  split_and!; [done | done |]. exists e. split_and!; [done | done | lia |].
  intros later Hlater. by rewrite (proj2 (Z.ltb_ge _ _)) by lia.
Qed.

Definition sample_artifact : RuntimeAccessArtifact :=
  {| descriptor_id := "descriptor-1"; art_version := "1.98.10-liskov.1";
     art_url := "https://liskov.example/client.tgz"; art_sha256 := EmptyString; byte_size := 10 |}.

Definition sample_access : TailscaleRuntimeAccessBootstrap :=
  {| ts_provider_kind := Tailscale; ts_attachment_id := "att-1"; expected_tailnet := "example.com";
     ts_setup_deadline_ms := 1800000000000; ts_fence := 3; launch_profile := None;
     artifact := sample_artifact; ts_credential := None; publications := []; ssh_enabled := true |}.

Definition sample_logging_response : RuntimeBootstrapResponse :=
  {| rb_ok := true; rb_domain := RUNTIME_BOOTSTRAP_RESPONSE_DOMAIN_V2; rb_application_uid := "uid";
     rb_application_id := "app"; rb_policy_digest := "digest"; rb_deployment_id := "deployment";
     rb_job_id := "job"; rb_processor_id := "processor"; rb_runtime_instance_id := "nonce";
     rb_slipway_url := "https://liskov.example"; rb_runtime_env := None; rb_secrets := None;
     rb_supervision := None; rb_logging := Some (jobj [("enabled", Bool true)]);
     rb_logging_outage_canary := false;
     rb_diagnostics := Some {| provider_logs :=
       Some {| pl_mode := RawTailscaledStderr; pl_expires_at_ms := Some 2000 |} |};
     rb_access := Some (AccessTailscale sample_access);
     rb_processor_facts := None; rb_fact_authorization := None |}.

Lemma provider_log_mode_raw_witness :
  provider_log_mode sample_logging_response 1000 = RawTailscaledStderr /\
  logging_enabled sample_logging_response = true.
Proof.
  split; [reflexivity |].
  exact (proj1 (provider_log_mode_raw sample_logging_response 1000 eq_refl)).
Defined.

(** ** Hex normalisation *)

Lemma hex_no_0x s : bytes_all is_ascii_hexdigit s = true -> strip_prefix "0x" s = None.
Proof.
  intros H. destruct (strip_prefix "0x" s) as [r|] eqn:E; [| done].
  apply strip_prefix_Some in E as ->. rewrite bytes_all_app in H. by apply andb_true_iff in H as [H _].
Qed.

(** Keys and signatures reported by the bridge are compared in one
    normal form.  A normalised value has exactly the requested length, only
    lower-case hexadecimal digits, and normalising it again, with or without
    the [0x] prefix, gives it back. *)
Theorem normalize_hex_exact_canonical value n w :
  normalize_hex_exact value n = Some w ->
  len w = 2 * n /\ bytes_all is_ascii_hexdigit w = true /\ to_ascii_lowercase w = w /\
  normalize_hex_exact w n = Some w /\ normalize_hex_exact ("0x" +:+ w) n = Some w.
Proof.
  unfold normalize_hex_exact, then_some. intros H.
  set (u := to_ascii_lowercase (default value (strip_prefix "0x" value))) in H.
  destruct ((len u =? n * 2) && bytes_all is_ascii_hexdigit u) eqn:Hc; [| done].
  injection H as <-. assert (Hlow : to_ascii_lowercase u = u) by apply to_ascii_lowercase_idemp.
  clearbody u. pose proof Hc as Hc'. apply andb_true_iff in Hc' as [Hl%Z.eqb_eq Hx].
  rewrite strip_prefix_app, (hex_no_0x u) by done. unfold default, id.
  rewrite !Hlow, Hc. split_and!; try done. lia.
Qed.

Lemma normalize_hex_exact_canonical_witness :
  normalize_hex_exact "0xAB01" 2 = Some "ab01" /\ len "ab01" = 4.
Proof.
  split; [reflexivity |].
  exact (proj1 (normalize_hex_exact_canonical "0xAB01" 2 "ab01" eq_refl)).
Defined.

(** ** Requests and responses *)

Lemma jint_inj a b : jint a = jint b -> a = b.
Proof. unfold jint. destruct (0 <=? a), (0 <=? b); congruence. Qed.

(** The bytes handed to the signer identify the request: two unsigned
    requests with the same canonical JSON value are the same request, so a
    signature never covers a second reading of the fields. *)
Theorem unsigned_request_injective a b :
  sort_json (unsigned_to_value a) = sort_json (unsigned_to_value b) -> a = b.
Proof.
  assert (Hwf : forall u, json_wf (unsigned_to_value u)).
  { intros u. apply jobj_wf. repeat constructor; by unfold jint. }
  rewrite !sort_json_ordered by apply Hwf. intros H.
  assert (Hget : forall k, value_get k (unsigned_to_value a) = value_get k (unsigned_to_value b)).
  { intros k. by rewrite H. }
  pose proof (Hget "domain") as H1. pose proof (Hget "jobId") as H2.
  pose proof (Hget "processorId") as H3. pose proof (Hget "nonce") as H4.
  pose proof (Hget "issuedAtMs") as H5. pose proof (Hget "expiresAtMs") as H6.
  cbv in H1, H2, H3, H4. unfold unsigned_to_value in H5, H6. cbn in H5, H6.
  apply (inj Some), jint_inj in H5, H6.
  destruct a, b; simpl in *. congruence.
Qed.

Definition sample_unsigned : UnsignedRuntimeBootstrapRequest :=
  {| unsigned_domain := RUNTIME_BOOTSTRAP_REQUEST_DOMAIN_V2; unsigned_job_id := "job";
     unsigned_processor_id := "processor"; unsigned_nonce := "nonce";
     unsigned_issued_at_ms := 1000; unsigned_expires_at_ms := 61000 |}.

Lemma unsigned_request_injective_witness : sample_unsigned = sample_unsigned.
Proof. apply (unsigned_request_injective sample_unsigned sample_unsigned). reflexivity. Defined.

Definition response_accepted `{!UrlApi, !Encodings} (r : RuntimeBootstrapResponse) : Prop :=
  rb_ok r = true /\ rb_domain r = RUNTIME_BOOTSTRAP_RESPONSE_DOMAIN_V2 /\
  rb_application_uid r <> EmptyString /\ rb_application_id r <> EmptyString /\
  rb_policy_digest r <> EmptyString /\ rb_deployment_id r <> EmptyString /\
  rb_slipway_url r <> EmptyString /\
  (forall e, rb_runtime_env r = Some e -> re_enabled e = true -> re_url e <> EmptyString) /\
  (forall a, rb_access r = Some a -> access_valid a = true).

Definition response_bound (r : RuntimeBootstrapResponse) (q : SignedRuntimeBootstrapRequest) : Prop :=
  rb_job_id r = req_job_id q /\ rb_processor_id r = req_processor_id q /\
  rb_runtime_instance_id r = req_nonce q.

Lemma is_some_and_false {A} (o : option A) p :
  is_some_and o p = false <-> forall a, o = Some a -> p a = false.
Proof. destruct o as [a|]; simpl; split; intros H; [intros ? [= <-]; done | by apply H | done | done]. Qed.

Section response_validation.
Context `{!UrlApi, !Encodings, !Deserialize RuntimeBootstrapResponse}.

Lemma response_accepted_decide (x : RuntimeBootstrapResponse) :
  negb (rb_ok x)
   || negb (rb_domain x =s RUNTIME_BOOTSTRAP_RESPONSE_DOMAIN_V2)
   || str_is_empty (rb_application_uid x)
   || str_is_empty (rb_application_id x)
   || str_is_empty (rb_policy_digest x)
   || str_is_empty (rb_deployment_id x)
   || str_is_empty (rb_slipway_url x)
   || is_some_and (rb_runtime_env x) (fun e => re_enabled e && str_is_empty (re_url e))
   || is_some_and (rb_access x) (fun a => negb (access_valid a)) = false <-> response_accepted x.
Proof.
  unfold response_accepted.
  rewrite !orb_false_iff, !negb_false_iff, !str_is_empty_false, !is_some_and_false, str_eqb_eq.
  split.
  - intros ((((((((?&?)&?)&?)&?)&?)&?)&He)&Ha). split_and!; try done.
    + intros e Hre Hen. specialize (He e Hre). rewrite Hen in He. by apply str_is_empty_false.
    + intros a Hra. specialize (Ha a Hra). by apply negb_false_iff in Ha.
  - intros (?&?&?&?&?&?&?&He&Ha). split_and!; try done.
    + intros e Hre. destruct (re_enabled e) eqn:Hen; simpl; [| done].
      by apply str_is_empty_false, He.
    + intros a Hra. apply negb_false_iff. by apply Ha.
Qed.

Lemma response_bound_decide (x : RuntimeBootstrapResponse) request :
  negb (rb_job_id x =s req_job_id request)
   || negb (rb_processor_id x =s req_processor_id request)
   || negb (rb_runtime_instance_id x =s req_nonce request) = false <-> response_bound x request.
Proof. unfold response_bound. rewrite !orb_false_iff, !negb_false_iff, !str_eqb_eq. tauto. Qed.

Lemma validate_response_Ok request text r :
  validate_response request text = Ok r <->
    from_slice text = Some r /\ response_accepted r /\ response_bound r request.
Proof.
  unfold validate_response. destruct (from_slice text) as [x|] eqn:Hx; [| naive_solver].
  rewrite <- response_accepted_decide, <- response_bound_decide. split.
  - intros Hv. repeat (split_match_in Hv; [done |]). by simplify_eq.
  - intros ([= <-] & -> & ->). done.
Qed.

(** A bootstrap response is used only when it decodes, satisfies every
    closed check and is bound to the exact signed request: same job, same
    processor, and the request's nonce as runtime instance.  A response that
    fails only the binding is reported as a binding failure. *)
Theorem validate_response_correct request text r :
  (validate_response request text = Ok r <->
     from_slice text = Some r /\ response_accepted r /\ response_bound r request) /\
  (validate_response request text = Err ResponseBinding <->
     exists r', from_slice text = Some r' /\ response_accepted r' /\ ~ response_bound r' request).
Proof.
  split; [apply validate_response_Ok |].
  unfold validate_response. destruct (from_slice text) as [x|] eqn:Hx; [| naive_solver]. split.
  - intros Hv. exists x. rewrite <- response_accepted_decide, <- response_bound_decide.
    split_match_in Hv; [done |]. split_match_in Hv; [| done]. by rewrite not_false_iff_true.
  - intros (r' & [= <-] & Ha & Hb).
    rewrite <- response_accepted_decide in Ha. rewrite Ha.
    rewrite <- response_bound_decide, not_false_iff_true in Hb. by rewrite Hb.
Qed.

End response_validation.

(** ** Identity *)

Lemma processor_matches_spec key procs a :
  a ∈ processor_matches key procs <-> exists v, (a, v) ∈ procs /\ ed25519_key v = Some key.
Proof.
  unfold processor_matches. rewrite list_elem_of_omap. split.
  - intros ([a' v] & Hin & Hm). simpl in Hm. exists v.
    destruct (ed25519_key v) as [k|] eqn:Hk; [| done]. simpl in Hm.
    destruct (k =s key) eqn:Heq; [| done]. apply str_eqb_eq in Heq as ->. by simplify_eq/=.
  - intros (v & Hin & Hk). exists (a, v). split; [done |]. simpl. rewrite Hk. simpl.
    by rewrite str_eqb_refl.
Qed.

Section identity.
Context `{!JsonText, !World}.

(** A discovered identity names the one processor this deployment runs
    on.  Discovery made exactly the three bridge calls, the job id is the
    canonical text of the bridge's deployment object, and the processor id is
    the non-empty address of the only assigned processor whose Ed25519 key is
    the deployment's own key. *)
Theorem discover_runtime_identity_sound t t' id :
  discover_runtime_identity t = (Some (Ok id), t') ->
  exists deployment public_keys assigned keys key procs,
    t' = EvBridge "deployment_assignedProcessors" (Arr []) (Ok assigned)
      :: EvBridge "deployment_publicKeys" (Arr []) (Ok public_keys)
      :: EvBridge "deployment_id" (Arr []) (Ok deployment) :: t /\
    id_job_id id = to_vec (sort_json deployment) /\
    value_get "publicKeys" public_keys = Some keys /\ ed25519_key keys = Some key /\
    value_get "processors" assigned = Some (Obj procs) /\
    id_processor_id id <> EmptyString /\
    (forall a, (exists v, (a, v) ∈ procs /\ ed25519_key v = Some key) <-> a = id_processor_id id).
Proof.
  unfold discover_runtime_identity, bridge_call, ask, mbind, io_bind, mret, io_ret. intros Hrun.
  destruct (on_bridge t _ _) as [deployment|e] eqn:Hd; [| done].
  destruct (opt_is_none (opt_filter _ _)); [done |].
  destruct (opt_is_none (opt_filter is_object _)); [done |].
  match type of Hrun with context [on_bridge ?u "deployment_publicKeys" _] =>
    destruct (on_bridge u "deployment_publicKeys" _) as [public_keys|e] eqn:Hp; [| done] end.
  destruct (value_get "publicKeys" public_keys) as [keys|] eqn:Hkeys; simpl in Hrun; [| done].
  destruct (ed25519_key keys) as [key|] eqn:Hkey; [| done].
  match type of Hrun with context [on_bridge ?u "deployment_assignedProcessors" _] =>
    destruct (on_bridge u "deployment_assignedProcessors" _) as [assigned|e] eqn:Ha; [| done] end.
  destruct (value_get "processors" assigned) as [[| | | | |procs]|] eqn:Hprocs; simpl in Hrun; try done.
  destruct (processor_matches key procs) as [|pid [|]] eqn:Hm; simpl in Hrun; try done.
  destruct (str_is_empty pid) eqn:Hpid; [done |]. injection Hrun as <- <-.
  exists deployment, public_keys, assigned, keys, key, procs. split_and!; try done.
  - by apply str_is_empty_false.
  - intros a. rewrite <- processor_matches_spec, Hm. apply list_elem_of_singleton.
Qed.

End identity.

Definition sample_identity : RuntimeIdentity :=
  {| id_job_id := "id"; id_processor_id := "5Proc" |}.

Lemma discover_runtime_identity_sound_witness :
  id_processor_id sample_identity <> EmptyString /\
  exists t, @discover_runtime_identity sample_text sample_world [] = (Some (Ok sample_identity), t).
Proof.
  assert (Hrun : exists t, @discover_runtime_identity sample_text sample_world [] =
    (Some (Ok sample_identity), t)) by (eexists; vm_compute; reflexivity).
  split; [| exact Hrun]. destruct Hrun as [t' Hrun].
  destruct (@discover_runtime_identity_sound sample_text sample_world [] t' sample_identity Hrun)
    as (_ & _ & _ & _ & _ & _ & _ & _ & _ & _ & _ & Hne & _). exact Hne.
Defined.
