(* ===== verification/Contact.v ===== *)
(** * First contact

    [contact.rs]: core URL selection, error categories, the retry policy and
    the signed bootstrap exchange with its two bounded retry loops. *)
From stdpp Require Import prelude strings.
From S2P Require Import Prelude Json EnvNames Bridge World Protocol.

Local Open Scope Z_scope.

Definition DEFAULT_CORE_URL : string := "https://runtime.liskov.proof.computer".
Definition CORE_URL_ENV : string := "LISKOV_CORE_URL".

Definition resolve_core_url (cli_core_url : option string) (env_lookup : string -> option string)
    : string :=
  match cli_core_url with
  | Some url => url
  | None => default DEFAULT_CORE_URL (env_lookup CORE_URL_ENV)
  end.

(** ** Errors *)

Inductive ExitCategory := CatConfiguration | CatProtocol | CatTemporaryFailure.

(** [category as u8]. *)
Definition exit_category_code (c : ExitCategory) : Z :=
  match c with CatConfiguration => 2 | CatProtocol => 70 | CatTemporaryFailure => 75 end.

Inductive ContactError :=
| Configuration (message : string)
| ContactProtocol (e : ProtocolError)
| Randomness
| Clock
| PermanentServerRejection
| RetryExhausted.

Definition exit_category (e : ContactError) : ExitCategory :=
  match e with
  | Configuration _ => CatConfiguration
  | RetryExhausted => CatTemporaryFailure
  | ContactProtocol _ | Randomness | Clock | PermanentServerRejection => CatProtocol
  end.

Definition diagnostic_exit_code (e : ContactError) : Z :=
  match e with
  | Configuration _ => 2
  | ContactProtocol (BridgeSetup _) => 80
  | ContactProtocol (DeploymentIdentityBridge _) => 81
  | ContactProtocol InvalidDeploymentIdentity => 82
  | ContactProtocol (PublicKeyBridge _) => 83
  | ContactProtocol InvalidPublicKey => 84
  | ContactProtocol (AssignedProcessorsBridge _) => 85
  | ContactProtocol ProcessorMatchCount => 86
  | ContactProtocol (SignerBridge _) => 87
  | ContactProtocol InvalidSignature => 88
  | ContactProtocol (TimestampOverflow | Serialization) => 89
  | PermanentServerRejection => 90
  | ContactProtocol InvalidResponse => 91
  | ContactProtocol ResponseBinding => 92
  | Randomness => 93
  | Clock => 94
  | RetryExhausted => 95
  end.

Record RetryPolicy := {
  initial_delay : Z;
  interval : Z;
  max_elapsed : Z;
  max_attempts : Z
}.

Definition default_retry : RetryPolicy :=
  {| initial_delay := from_millis 250;
     interval := from_secs 2;
     max_elapsed := from_secs 60;
     max_attempts := 30 |}.

(** ** Server answers *)

Record ServerErrorEnvelope := {
  envelope_error : option string;
  envelope_retryable : option bool
}.

Inductive AttemptError :=
| Retryable
| Permanent
| AttemptProtocol (e : ProtocolError).

Definition retryable_statuses : list Z := [404; 409; 425; 429; 500; 502; 503; 504].

Section contact.
Context `{!JsonText, !World, !UrlApi, !Encodings,
          !Deserialize RuntimeBootstrapResponse, !Deserialize ServerErrorEnvelope}.

Definition response_is_retryable (response : HttpResponse) : bool :=
  let envelope : option ServerErrorEnvelope := from_slice (body response) in
  match (e ← envelope; envelope_retryable e) with
  | Some true => true
  | Some false => false
  | None =>
      if is_some_and (e ← envelope; envelope_error e) (ends_with "_not_found") then true
      else existsb (Z.eqb (status response)) retryable_statuses
  end.

Definition validate_core_url (raw : string) : result Url ContactError :=
  match url_parse raw with
  | None => Err (Configuration "invalid core URL")
  | Some url =>
      if negb (url_scheme url =s "https")
         || opt_is_none (url_host_str url)
         || negb (str_is_empty (url_username url))
         || opt_is_some (url_password url)
         || opt_is_some (url_query url)
         || opt_is_some (url_fragment url)
      then Err (Configuration "core URL must be HTTPS without user information, query, or fragment")
      else Ok url
  end.

Definition identity_error_is_retryable (e : ProtocolError) : bool :=
  match e with
  | DeploymentIdentityBridge _ | InvalidDeploymentIdentity | PublicKeyBridge _
  | InvalidPublicKey | AssignedProcessorsBridge _ | ProcessorMatchCount => true
  | _ => false
  end.

Definition attempt_contact (endpoint body_text : string) (request : SignedRuntimeBootstrapRequest)
    : io event (result RuntimeBootstrapResponse AttemptError) :=
  reply ← http_post endpoint body_text;
  mret match reply with
  | Err Transport => Err Retryable
  | Err HttpResponseTooLarge => Err (AttemptProtocol InvalidResponse)
  | Ok response =>
      if (200 <=? status response) && (status response <? 300)
      then map_err AttemptProtocol (validate_response request (body response))
      else if response_is_retryable response then Err Retryable
      else Err Permanent
  end.

(** One turn of the loop both retrying operations run: [inr] of the action is
    a final answer, [inl a] a failure worth retrying whose error is [a] once the
    budget is spent. *)
Definition retry_step {A} (retry : RetryPolicy) (action : io event (A + A)) (st : Z * Z)
    : io event (Z * Z + A) :=
  let '(attempt, next_delay) := st in
  let attempt := attempt + 1 in
  r ← action;
  match r with
  | inr a => mret (inr a)
  | inl a =>
      if max_attempts retry <=? attempt then mret (inr a)
      else
        spent ← elapsed;
        if is_none_or (duration_checked_add spent next_delay)
             (fun total => max_elapsed retry <? total)
        then mret (inr a)
        else
          _ ← emit (EvRetryNotice attempt);
          _ ← sleep next_delay;
          mret (inl (attempt, interval retry))
  end.

(** The fuel is the attempt bound, so it never runs out. *)
Definition retry_loop {A} (retry : RetryPolicy) (action : io event (A + A)) : io event A :=
  loop (S (Z.to_nat (max_attempts retry))) (retry_step retry action) (0, initial_delay retry).

Definition discover_runtime_identity_with_retry (retry : RetryPolicy)
    : io event (result RuntimeIdentity ContactError) :=
  retry_loop retry
    (r ← discover_runtime_identity;
     mret match r with
     | Ok identity => inr (Ok identity)
     | Err e =>
         if identity_error_is_retryable e
         then inl (Err (ContactProtocol e))
         else inr (Err (ContactProtocol e))
     end).

Definition post_with_retry (retry : RetryPolicy) (endpoint body_text : string)
    (signed : SignedRuntimeBootstrapRequest)
    : io event (result RuntimeBootstrapResponse ContactError) :=
  retry_loop retry
    (r ← attempt_contact endpoint body_text signed;
     mret match r with
     | Ok response => inr (Ok response)
     | Err Permanent => inr (Err PermanentServerRejection)
     | Err (AttemptProtocol e) => inr (Err (ContactProtocol e))
     | Err Retryable => inl (Err RetryExhausted)
     end).

Definition establish_runtime_contact_with (core_url : string) (retry : RetryPolicy)
    : io event (result RuntimeBootstrapResponse ContactError) :=
  match validate_core_url core_url with
  | Err e => mret (Err e)
  | Ok url =>
  match url_join url "/api/jobs/runtime-bootstrap" with
  | None => mret (Err (Configuration "invalid core URL"))
  | Some endpoint =>
  let!? identity := discover_runtime_identity_with_retry retry in
  random ← fill_random 16;
  match random with
  | None => mret (Err Randomness)
  | Some nonce =>
  now ← unix_time_ms;
  match now with
  | None => mret (Err Clock)
  | Some issued_at_ms =>
  match build_unsigned_request identity (hex_encode nonce) issued_at_ms with
  | Err e => mret (Err (ContactProtocol e))
  | Ok unsigned =>
  signing ← sign_request unsigned;
  match signing with
  | Err e => mret (Err (ContactProtocol e))
  | Ok signed =>
      post_with_retry retry (url_as_str endpoint) (to_vec_fields (signed_fields signed)) signed
  end
  end
  end
  end
  end
  end.

(** [establish_runtime_contact]: the bridge socket must be usable before
    anything is sent. *)
Definition establish_runtime_contact (core_url bridge_socket : string)
    : io event (result RuntimeBootstrapResponse ContactError) :=
  match new_bridge bridge_socket with
  | Err e => mret (Err (ContactProtocol (BridgeSetup e)))
  | Ok _ => establish_runtime_contact_with core_url default_retry
  end.

End contact.

(** * Properties *)

(** ** Retry sessions

    What a retry loop promises, without its code: [waited n es] is a history in
    which [n] attempts failed and each was followed by the wait that budget and
    attempt bound admit; [concluded a es] is a finished session with answer
    [a]. *)

Section sessions.
Context `{!World} {A : Type} (retry : RetryPolicy) (action : io event (A + A)).
Context (attempt_ok : A + A -> list event -> Prop).

Definition delay_after (n : Z) : Z :=
  if n =? 0 then initial_delay retry else interval retry.

Inductive waited : Z -> list event -> Prop :=
| waited_start : waited 0 []
| waited_next n ws a es spent :
    waited n ws -> attempt_ok (inl a) es ->
    n + 1 < max_attempts retry ->
    spent + delay_after n <= max_elapsed retry ->
    waited (n + 1)
      (EvSleep (delay_after n) :: EvRetryNotice (n + 1) :: EvElapsed spent :: es ++ ws).

Inductive concluded : A -> list event -> Prop :=
| concluded_final n ws a es :
    waited n ws -> attempt_ok (inr a) es -> concluded a (es ++ ws)
| concluded_attempts n ws a es :
    waited n ws -> attempt_ok (inl a) es -> max_attempts retry <= n + 1 ->
    concluded a (es ++ ws)
| concluded_time n ws a es spent :
    waited n ws -> attempt_ok (inl a) es -> n + 1 < max_attempts retry ->
    max_elapsed retry < spent + delay_after n ->
    concluded a (EvElapsed spent :: es ++ ws).

Lemma waited_bound n ws : waited n ws -> 0 <= n <= Z.max 0 (max_attempts retry - 1).
Proof. induction 1; lia. Qed.

Hypothesis action_ok :
  forall t, exists r es, action t = (Some r, es ++ t) /\ attempt_ok r es.
Hypothesis budget_is_duration : max_elapsed retry <= DURATION_MAX.

Lemma budget_check spent d :
  is_none_or (duration_checked_add spent d) (fun total => max_elapsed retry <? total) =
  (max_elapsed retry <? spent + d).
Proof using budget_is_duration.
  unfold duration_checked_add. destruct (spent + d <=? DURATION_MAX) eqn:E; simpl; [done |].
  symmetry. apply Z.ltb_lt. apply Z.leb_gt in E. lia.
Qed.

Lemma retry_step_eq n d t r es :
  action t = (Some r, es ++ t) ->
  retry_step retry action (n, d) t =
    match r with
    | inr a => (Some (inr a), es ++ t)
    | inl a =>
        if max_attempts retry <=? n + 1 then (Some (inr a), es ++ t)
        else
          let spent := on_elapsed (es ++ t) in
          if max_elapsed retry <? spent + d then (Some (inr a), EvElapsed spent :: es ++ t)
          else (Some (inl (n + 1, interval retry)),
                EvSleep d :: EvRetryNotice (n + 1) :: EvElapsed spent :: es ++ t)
    end.
Proof using budget_is_duration.
  intros Hact. unfold retry_step, mbind, io_bind, elapsed, ask, emit, sleep, mret, io_ret.
  rewrite Hact. destruct r as [a|a]; [| done].
  destruct (max_attempts retry <=? n + 1); [done |]. rewrite budget_check.
  by destruct (max_elapsed retry <? on_elapsed (es ++ t) + d).
Qed.

Lemma retry_loop_from fuel n ws t :
  waited n ws -> (Z.to_nat (max_attempts retry - n) < fuel)%nat ->
  exists a es, loop fuel (retry_step retry action) (n, delay_after n) (ws ++ t) = (Some a, es ++ t)
    /\ concluded a es.
Proof using action_ok budget_is_duration.
  revert n ws. induction fuel as [|fuel IH]; intros n ws Hw Hfuel; [lia |]. rewrite loop_S.
  pose proof (waited_bound n ws Hw) as Hn.
  destruct (action_ok (ws ++ t)) as (r & es & Hact & Hok). rewrite (retry_step_eq _ _ _ r es) by done.
  rewrite app_assoc. destruct r as [a|a]; [| exists a, (es ++ ws); split; [done | by eapply concluded_final]].
  destruct (max_attempts retry <=? n + 1) eqn:Hmax.
  { apply Z.leb_le in Hmax. exists a, (es ++ ws). split; [done | by eapply concluded_attempts]. }
  apply Z.leb_gt in Hmax. set (spent := on_elapsed ((es ++ ws) ++ t)). simpl.
  destruct (max_elapsed retry <? spent + delay_after n) eqn:Hbud.
  { apply Z.ltb_lt in Hbud. exists a, (EvElapsed spent :: es ++ ws).
    split; [done | by eapply concluded_time]. }
  apply Z.ltb_ge in Hbud.
  replace (interval retry) with (delay_after (n + 1))
    by (unfold delay_after; by rewrite (proj2 (Z.eqb_neq _ _)) by lia).
  rewrite !app_comm_cons. apply IH; [by eapply waited_next | lia].
Qed.

(** A retry loop always returns, after a session its policy admits. *)
Lemma retry_loop_concludes t :
  exists a es, retry_loop retry action t = (Some a, es ++ t) /\ concluded a es.
Proof using action_ok budget_is_duration.
  apply (retry_loop_from (S (Z.to_nat (max_attempts retry))) 0 [] t); [constructor | lia].
Qed.

End sessions.

(** ** The exchange *)

(** Projections of a history: what was posted, what was signed, how often
    randomness was drawn. *)
Definition post_of (e : event) : option (string * string) :=
  match e with EvHttp url text _ => Some (url, text) | _ => None end.
Definition signing_of (e : event) : option Value :=
  match e with
  | EvBridge method params _ => if method =s "signer_sign" then Some params else None
  | _ => None
  end.
Definition random_of (e : event) : option (option string) :=
  match e with EvRandom r => Some r | _ => None end.

Definition quiet (e : event) : Prop :=
  post_of e = None /\ signing_of e = None /\ random_of e = None.

Lemma omap_all_None {A B} (f : A -> option B) l : Forall (fun x => f x = None) l -> omap f l = [].
Proof. induction 1 as [|x l Hx Hl IH]; simpl; [done |]. by rewrite Hx. Qed.

Lemma quiet_projections es :
  Forall quiet es -> omap post_of es = [] /\ omap signing_of es = [] /\ omap random_of es = [].
Proof.
  intros H. split_and!; apply omap_all_None; eapply List.Forall_impl; try exact H; by intros e (?&?&?).
Qed.

(** Every sleep in a history was announced, had the policy's delay, and fitted
    in the elapsed-time budget when it was decided. *)
Fixpoint waits_ok (retry : RetryPolicy) (es : list event) : Prop :=
  match es with
  | [] => True
  | EvSleep d :: es' =>
      (d = initial_delay retry \/ d = interval retry) /\
      match es' with
      | EvRetryNotice _ :: EvElapsed spent :: _ => spent + d <= max_elapsed retry
      | _ => False
      end /\ waits_ok retry es'
  | _ :: es' => waits_ok retry es'
  end.

Definition is_sleep (e : event) : bool := match e with EvSleep _ => true | _ => false end.
Definition silent (e : event) : Prop := quiet e /\ is_sleep e = false.

Lemma waits_ok_app retry l1 l2 : waits_ok retry l1 -> waits_ok retry l2 -> waits_ok retry (l1 ++ l2).
Proof.
  induction l1 as [|e l1 IH]; simpl; [done |].
  destruct e; auto. intros (? & Hpre & ?) ?. split_and!; auto.
  destruct l1 as [|[] [|[] ?]]; done.
Qed.

Lemma no_sleep_waits_ok retry es : Forall (fun e => is_sleep e = false) es -> waits_ok retry es.
Proof. induction 1 as [|[] es He _ IH]; simpl in *; done. Qed.

Lemma waited_waits_ok {A} retry (ok : A + A -> list event -> Prop) n ws :
  (forall r es, ok r es -> Forall (fun e => is_sleep e = false) es) ->
  waited retry ok n ws -> waits_ok retry ws.
Proof.
  intros Hok. induction 1 as [|n ws a es spent Hw IH Ha Hn Hs]; simpl; [done |].
  split_and!; [| lia |].
  - unfold delay_after. destruct (n =? 0); auto.
  - apply waits_ok_app; [| done]. eapply no_sleep_waits_ok, Hok, Ha.
Qed.

Lemma concluded_waits_ok {A} retry (ok : A + A -> list event -> Prop) a es :
  (forall r es, ok r es -> Forall (fun e => is_sleep e = false) es) ->
  concluded retry ok a es -> waits_ok retry es.
Proof.
  intros Hok Hc. destruct Hc; simpl; apply waits_ok_app;
    eauto using waited_waits_ok, no_sleep_waits_ok.
Qed.

Definition quiet_session (retry : RetryPolicy) (es : list event) : Prop :=
  Forall quiet es /\ waits_ok retry es.

Section exchange_properties.
Context `{!JsonText, !World, !UrlApi, !Encodings,
          !Deserialize RuntimeBootstrapResponse, !Deserialize ServerErrorEnvelope}.

Lemma discover_runtime_identity_silent : emits silent discover_runtime_identity.
Proof. unfold discover_runtime_identity, bridge_call. solve_emits; by repeat split. Qed.

Lemma waited_quiet {A} retry (ok : A + A -> list event -> Prop) n ws :
  (forall r es, ok r es -> Forall quiet es) -> waited retry ok n ws -> Forall quiet ws.
Proof.
  intros Hok. induction 1 as [|n ws a es spent Hw IH Ha _ _]; [constructor |].
  repeat (constructor; [by repeat split |]). apply Forall_app. eauto.
Qed.

Lemma concluded_quiet {A} retry (ok : A + A -> list event -> Prop) a es :
  (forall r es, ok r es -> Forall quiet es) -> concluded retry ok a es -> Forall quiet es.
Proof.
  intros Hok Hc. destruct Hc; try (constructor; [by repeat split |]);
    apply Forall_app; split; eauto using waited_quiet.
Qed.

Lemma discover_with_retry_quiet retry t :
  max_elapsed retry <= DURATION_MAX ->
  exists r es, discover_runtime_identity_with_retry retry t = (Some r, es ++ t) /\ quiet_session retry es.
Proof.
  intros Hb. unfold discover_runtime_identity_with_retry.
  match goal with |- context [retry_loop retry ?act] => set (action := act) end.
  destruct (retry_loop_concludes retry action (fun _ es => Forall silent es)) with (t := t)
    as (a & es & Hrun & Hc); [| done |].
  - assert (Hq : emits silent action).
    { unfold action. apply emits_bind; [apply discover_runtime_identity_silent | intros; apply emits_ret]. }
    intros t'. destruct (Hq t') as (r & es & ? & ?). by exists r, es.
  - exists a, es. split; [done |]. split.
    + eapply concluded_quiet; [| exact Hc]. intros ?? Hs. eapply List.Forall_impl; [| exact Hs]. by intros ? [].
    + eapply concluded_waits_ok; [| exact Hc]. intros ?? Hs. eapply List.Forall_impl; [| exact Hs]. by intros ? [].
Qed.

(** One posting attempt of the session: a single POST, classified. *)
Definition posted (endpoint text : string) (signed : SignedRuntimeBootstrapRequest)
    (r : result RuntimeBootstrapResponse ContactError + result RuntimeBootstrapResponse ContactError)
    (es : list event) : Prop :=
  exists reply, es = [EvHttp endpoint text reply] /\
    match r with
    | inr (Ok response) => exists h, reply = Ok h /\ 200 <= status h < 300 /\
        validate_response signed (body h) = Ok response
    | inr (Err (ContactProtocol e)) =>
        (reply = Err HttpResponseTooLarge /\ e = InvalidResponse) \/
        exists h, reply = Ok h /\ 200 <= status h < 300 /\ validate_response signed (body h) = Err e
    | inr (Err PermanentServerRejection) => exists h, reply = Ok h /\
        ~ 200 <= status h < 300 /\ response_is_retryable h = false
    | inl (Err RetryExhausted) => reply = Err Transport \/
        exists h, reply = Ok h /\ ~ 200 <= status h < 300 /\ response_is_retryable h = true
    | _ => False
    end.

Lemma post_with_retry_concludes retry endpoint text signed t :
  max_elapsed retry <= DURATION_MAX ->
  exists r es, post_with_retry retry endpoint text signed t = (Some r, es ++ t) /\
    concluded retry (posted endpoint text signed) r es.
Proof.
  intros Hb. unfold post_with_retry. apply retry_loop_concludes; [| done].
  clear t. intros t. unfold attempt_contact, http_post, ask, mbind, io_bind, mret, io_ret, posted.
  destruct (on_http t endpoint text) as [h|[]] eqn:Hh; simpl.
  - destruct ((200 <=? status h) && (status h <? 300)) eqn:Hs.
    + reflect_bool. destruct (validate_response signed (body h)) as [resp|e] eqn:Hv; simpl;
        eexists _, [_]; (split; [done |]); eexists; (split; [done |]); [| right]; eauto.
    + apply andb_false_iff in Hs.
      assert (~ 200 <= status h < 300) by (destruct Hs; reflect_bool; lia).
      destruct (response_is_retryable h) eqn:Hr;
        eexists _, [_]; (split; [done |]); eexists; (split; [done |]); [right |]; eauto.
  - eexists _, [_]. split; [done |]. eexists. split; [done |]. by left.
  - eexists _, [_]. split; [done |]. eexists. split; [done |]. by left.
Qed.

(** What the exchange may do, phase by phase. *)
Inductive exchange (core_url : string) (retry : RetryPolicy)
    : result RuntimeBootstrapResponse ContactError -> list event -> Prop :=
| exchange_refused m :
    exchange core_url retry (Err (Configuration m)) []
| exchange_unidentified e es :
    quiet_session retry es -> exchange core_url retry (Err e) es
| exchange_no_random es :
    quiet_session retry es -> exchange core_url retry (Err Randomness) (EvRandom None :: es)
| exchange_no_clock nonce es :
    quiet_session retry es ->
    exchange core_url retry (Err Clock) (EvUnixTime None :: EvRandom (Some nonce) :: es)
| exchange_overflow nonce now es :
    quiet_session retry es -> u64_max < now + RUNTIME_BOOTSTRAP_TTL_MS ->
    exchange core_url retry (Err (ContactProtocol TimestampOverflow))
      (EvUnixTime (Some now) :: EvRandom (Some nonce) :: es)
| exchange_unsigned nonce now identity u reply e es :
    quiet_session retry es -> build_unsigned_request identity (hex_encode nonce) now = Ok u ->
    e = InvalidSignature \/ (exists b, e = SignerBridge b) ->
    exchange core_url retry (Err (ContactProtocol e))
      (EvBridge "signer_sign" (sign_params (canonical_unsigned_request_bytes u)) reply
       :: EvUnixTime (Some now) :: EvRandom (Some nonce) :: es)
| exchange_posted url endpoint nonce now identity u signed reply signature r ps es :
    validate_core_url core_url = Ok url ->
    url_join url "/api/jobs/runtime-bootstrap" = Some endpoint ->
    quiet_session retry es -> build_unsigned_request identity (hex_encode nonce) now = Ok u ->
    signed = {| req_domain := unsigned_domain u;
                req_job_id := unsigned_job_id u;
                req_processor_id := unsigned_processor_id u;
                req_nonce := unsigned_nonce u;
                req_issued_at_ms := unsigned_issued_at_ms u;
                req_expires_at_ms := unsigned_expires_at_ms u;
                req_signature := "0x" +:+ signature |} ->
    (v ← value_get "bytes" reply; s ← as_str v; normalize_hex_exact s 64) = Some signature ->
    concluded retry (posted (url_as_str endpoint) (to_vec_fields (signed_fields signed)) signed) r ps ->
    exchange core_url retry r
      (ps ++ EvBridge "signer_sign" (sign_params (canonical_unsigned_request_bytes u)) (Ok reply)
       :: EvUnixTime (Some now) :: EvRandom (Some nonce) :: es).

Lemma build_unsigned_request_Err identity nonce now e :
  build_unsigned_request identity nonce now = Err e ->
  e = TimestampOverflow /\ u64_max < now + RUNTIME_BOOTSTRAP_TTL_MS.
Proof.
  unfold build_unsigned_request, checked_add_u64.
  destruct (_ <=? _) eqn:E; simpl; intros; simplify_eq. reflect_bool. done.
Qed.

Lemma sign_request_run u t :
  exists r reply,
    sign_request u t =
      (Some r, EvBridge "signer_sign" (sign_params (canonical_unsigned_request_bytes u)) reply :: t) /\
    match r with
    | Err e => e = InvalidSignature \/ (exists b, e = SignerBridge b)
    | Ok signed => exists v signature, reply = Ok v /\
        (v ← value_get "bytes" v; s ← as_str v; normalize_hex_exact s 64) = Some signature /\
        signed = {| req_domain := unsigned_domain u;
                    req_job_id := unsigned_job_id u;
                    req_processor_id := unsigned_processor_id u;
                    req_nonce := unsigned_nonce u;
                    req_issued_at_ms := unsigned_issued_at_ms u;
                    req_expires_at_ms := unsigned_expires_at_ms u;
                    req_signature := "0x" +:+ signature |}
    end.
Proof.
  unfold sign_request, bridge_call, ask, mbind, io_bind, mret, io_ret.
  destruct (on_bridge t _ _) as [v|e] eqn:Hb.
  - destruct (value_get "bytes" v) as [b|] eqn:Hbytes; simpl;
      [destruct (as_str b) as [s|] eqn:Hstr; simpl; [destruct (normalize_hex_exact s 64) as [signature|] eqn:Hn |] |];
      eexists _, _; (split; [done |]); simpl; auto.
    exists v, signature. split_and!; [done | by rewrite Hbytes; simpl; rewrite Hstr | done].
  - eexists _, _. split; [done |]. simpl. eauto.
Qed.

Lemma establish_runtime_contact_with_exchange core_url retry t :
  max_elapsed retry <= DURATION_MAX ->
  exists r es, establish_runtime_contact_with core_url retry t = (Some r, es ++ t) /\
    exchange core_url retry r es.
Proof.
  intros Hb. unfold establish_runtime_contact_with.
  destruct (validate_core_url core_url) as [url|e] eqn:Hurl.
  2:{ exists (Err e), []. split; [done |]. by apply exchange_unidentified; split. }
  destruct (url_join url _) as [endpoint|] eqn:Hjoin.
  2:{ eexists _, []. split; [done |]. constructor. }
  unfold mbind, io_bind, fill_random, unix_time_ms, ask, mret, io_ret.
  destruct (discover_with_retry_quiet retry t Hb) as (r & es & -> & Hq).
  destruct r as [identity|e]; [| eexists _, es; split; [done | by constructor]].
  destruct (on_random (es ++ t) 16) as [nonce|]; cycle 1.
  { eexists _, (_ :: _). split; [done |]. by constructor. }
  destruct (on_unix_time _) as [now|]; cycle 1.
  { eexists _, (_ :: _ :: _). split; [done |]. by constructor. }
  destruct (build_unsigned_request identity _ now) as [u|e] eqn:Hu; cycle 1.
  { apply build_unsigned_request_Err in Hu as [-> ?].
    eexists _, (_ :: _ :: _). split; [done |]. by constructor. }
  destruct (sign_request_run u (EvUnixTime (Some now) :: EvRandom (Some nonce) :: es ++ t))
    as (r & reply & -> & Hr).
  destruct r as [signed|e]; cycle 1.
  { eexists _, (_ :: _ :: _ :: _). split; [done |]. by eapply exchange_unsigned. }
  destruct Hr as (v & signature & -> & Hsig & Hsigned).
  destruct (post_with_retry_concludes retry (url_as_str endpoint) (to_vec_fields (signed_fields signed))
    signed (EvBridge "signer_sign" (sign_params (canonical_unsigned_request_bytes u)) (Ok v)
      :: EvUnixTime (Some now) :: EvRandom (Some nonce) :: es ++ t) Hb) as (r & ps & -> & Hc).
  eexists r, (ps ++ _ :: _ :: _ :: es). rewrite <- app_assoc. split; [done |].
  by eapply exchange_posted.
Qed.

Lemma posted_projections endpoint text signed r es :
  posted endpoint text signed r es ->
  omap post_of es = [(endpoint, text)] /\ omap signing_of es = [] /\ omap random_of es = [] /\
  Forall (fun e => is_sleep e = false) es.
Proof. intros (reply & -> & _). split_and!; try done. by repeat constructor. Qed.

Lemma waited_posts retry endpoint text signed n ws :
  waited retry (posted endpoint text signed) n ws ->
  omap post_of ws = replicate (Z.to_nat n) (endpoint, text) /\
  omap signing_of ws = [] /\ omap random_of ws = [].
Proof.
  induction 1 as [|n ws a es spent Hw (IHp & IHs & IHr) Ha Hn _]; [done |].
  apply posted_projections in Ha as (Hp & Hs & Hr & _).
  pose proof (waited_bound _ _ _ _ Hw). cbn. rewrite !omap_app, Hp, Hs, Hr, IHp, IHs, IHr.
  split_and!; try done. rewrite Z2Nat.inj_add by lia. by rewrite Nat.add_comm.
Qed.

Lemma concluded_posts retry endpoint text signed r ps :
  concluded retry (posted endpoint text signed) r ps ->
  exists k, omap post_of ps = replicate k (endpoint, text) /\
    1 <= Z.of_nat k <= Z.max 1 (max_attempts retry) /\
    omap signing_of ps = [] /\ omap random_of ps = [].
Proof.
  intros Hc.
  assert (Hjoin : forall n ws a es, waited retry (posted endpoint text signed) n ws ->
    posted endpoint text signed a es ->
    exists k, omap post_of (es ++ ws) = replicate k (endpoint, text) /\
      1 <= Z.of_nat k <= Z.max 1 (max_attempts retry) /\
      omap signing_of (es ++ ws) = [] /\ omap random_of (es ++ ws) = []).
  { intros n ws a es Hw (Hp & Hs & Hr & _)%posted_projections.
    pose proof (waited_bound _ _ _ _ Hw). apply waited_posts in Hw as (Hwp & Hws & Hwr).
    exists (S (Z.to_nat n)). rewrite !omap_app, Hp, Hs, Hr, Hwp, Hws, Hwr.
    split_and!; try done; lia. }
  destruct Hc; simpl; eauto.
Qed.

(** First contact always finishes, and however often it retries it draws
    randomness once, asks for one signature and posts the same bytes to the
    same endpoint, at most [max_attempts] times.  Each wait has the policy's
    delay and was started inside the elapsed-time budget. *)
Theorem contact_signs_once core_url retry t :
  max_elapsed retry <= DURATION_MAX ->
  exists r es, establish_runtime_contact_with core_url retry t = (Some r, es ++ t) /\
    (length (omap random_of es) <= 1)%nat /\ (length (omap signing_of es) <= 1)%nat /\
    (exists k post, omap post_of es = replicate k post /\
       Z.of_nat k <= Z.max 1 (max_attempts retry)) /\
    waits_ok retry es.
Proof.
  intros Hb. destruct (establish_runtime_contact_with_exchange core_url retry t Hb) as (r & es & Hrun & Hx).
  exists r, es. split; [done |]. clear Hrun.
  assert (Hz : exists k (post : string * string), [] = replicate k post /\ Z.of_nat k <= Z.max 1 (max_attempts retry))
    by (exists 0%nat, (EmptyString, EmptyString); split; [done | lia]).
  destruct Hx as [| e es [Hq ?] | es [Hq ?] | nonce es [Hq ?] | nonce now es [Hq ?] ?
    | nonce now identity u reply e es [Hq ?] ? ?
    | url endpoint nonce now identity u signed reply signature r ps es ? ? [Hq ?] ? ? ? Hc];
    [cbn; by auto with lia | ..];
  destruct (quiet_projections es Hq) as (Hp & Hs & Hr); cbn; rewrite ?omap_app; cbn;
    rewrite ?Hp, ?Hs, ?Hr; auto with lia.
  pose proof (concluded_posts _ _ _ _ _ _ Hc) as (k & Hkp & Hk & Hks & Hkr).
  rewrite Hkp, Hks, Hkr. split_and!; auto.
  - eexists k, _. rewrite app_nil_r. split; [done | lia].
  - apply waits_ok_app; [| done]. eapply concluded_waits_ok; [| exact Hc].
    intros r' es' Hpost. by apply posted_projections in Hpost as (_ & _ & _ & ?).
Qed.

Lemma concluded_success retry endpoint text signed resp ps :
  concluded retry (posted endpoint text signed) (Ok resp) ps ->
  exists h rest, ps = EvHttp endpoint text (Ok h) :: rest /\ 200 <= status h < 300 /\
    validate_response signed (body h) = Ok resp.
Proof.
  inversion 1 as [n ws a es Hw Hok | n ws a es Hw Hok | n ws a es spent Hw Hok]; subst;
    destruct Hok as (reply & -> & Hok); try done.
  destruct Hok as (h & -> & ? & ?). eauto.
Qed.

Lemma validate_core_url_https core_url url :
  validate_core_url core_url = Ok url -> url_parse core_url = Some url /\ url_scheme url = "https".
Proof.
  unfold validate_core_url. destruct (url_parse core_url) as [u|]; [| done].
  split_match; [done |]. intros [= <-]. reflect_bool. done.
Qed.

(** C3: a bootstrap response reaches the caller only as the 2xx answer to the
    signed request.  The last event is the post of that request to the bootstrap
    path of an HTTPS core URL; the signer was given the canonical bytes of the
    same fields, which carry the freshly drawn nonce and expire 60 seconds after
    the clock reading; the accepted response passes every check and names the
    request's job, processor and nonce. *)
Theorem contact_success_bound core_url retry t resp t' :
  max_elapsed retry <= DURATION_MAX ->
  establish_runtime_contact_with core_url retry t = (Some (Ok resp), t') ->
  exists url endpoint nonce now u signed sig h rest,
    url_parse core_url = Some url /\ url_scheme url = "https" /\
    url_join url "/api/jobs/runtime-bootstrap" = Some endpoint /\
    t' = EvHttp (url_as_str endpoint) (to_vec_fields (signed_fields signed)) (Ok h) :: rest /\
    EvBridge "signer_sign" (sign_params (canonical_unsigned_request_bytes u)) (Ok sig) ∈ rest /\
    EvRandom (Some nonce) ∈ rest /\ EvUnixTime (Some now) ∈ rest /\
    unsigned_nonce u = hex_encode nonce /\ unsigned_issued_at_ms u = now /\
    unsigned_expires_at_ms u = now + 60000 /\ now + 60000 <= u64_max /\
    (req_domain signed, req_job_id signed, req_processor_id signed, req_nonce signed,
     req_issued_at_ms signed, req_expires_at_ms signed) =
    (unsigned_domain u, unsigned_job_id u, unsigned_processor_id u, unsigned_nonce u,
     unsigned_issued_at_ms u, unsigned_expires_at_ms u) /\
    200 <= status h < 300 /\ from_slice (body h) = Some resp /\
    response_accepted resp /\ response_bound resp signed.
Proof.
  intros Hb Hrun.
  destruct (establish_runtime_contact_with_exchange core_url retry t Hb) as (r & es & Hrun' & Hx).
  rewrite Hrun in Hrun'. injection Hrun' as <- ->. inversion Hx as [| | | | | | url endpoint nonce now
    identity u signed reply signature r ps es' Hurl Hjoin _ Hbuild Hsigned _ Hc]; subst r es.
  apply concluded_success in Hc as (h & rest & -> & Hstatus & Hv).
  apply validate_core_url_https in Hurl as [Hparse Hscheme].
  apply validate_response_Ok in Hv as (Hdecode & Hacc & Hbound).
  unfold build_unsigned_request, checked_add_u64 in Hbuild.
  destruct (now + RUNTIME_BOOTSTRAP_TTL_MS <=? u64_max) eqn:Hexp; [| done]. reflect_bool.
  injection Hbuild as Hu.
  exists url, endpoint, nonce, now, u, signed, reply, h.
  eexists. split_and!; try done; try set_solver; subst signed u; done.
Qed.

End exchange_properties.

Definition sample_response : RuntimeBootstrapResponse :=
  {| rb_ok := true; rb_domain := RUNTIME_BOOTSTRAP_RESPONSE_DOMAIN_V2; rb_application_uid := "uid";
     rb_application_id := "app"; rb_policy_digest := "digest"; rb_deployment_id := "deployment";
     rb_job_id := "id"; rb_processor_id := "5Proc";
     rb_runtime_instance_id := sample_hex (sample_nonce 16);
     rb_slipway_url := "https://liskov.example"; rb_runtime_env := None; rb_secrets := None;
     rb_supervision := None; rb_logging := None; rb_logging_outage_canary := false;
     rb_diagnostics := None; rb_access := None;
     rb_processor_facts := None; rb_fact_authorization := None |}.
Definition sample_decoder : Deserialize RuntimeBootstrapResponse := fun _ => Some sample_response.
Definition sample_envelopes : Deserialize ServerErrorEnvelope := fun _ => None.

Lemma contact_signs_once_witness :
  exists r es,
    @establish_runtime_contact_with sample_text sample_world sample_urls sample_encodings
      sample_decoder sample_envelopes "https://core.test" default_retry [] = (Some r, es ++ []) /\
    (length (omap signing_of es) <= 1)%nat.
Proof.
  destruct (@contact_signs_once sample_text sample_world sample_urls sample_encodings
    sample_decoder sample_envelopes "https://core.test" default_retry [] ltac:(done))
    as (r & es & Hrun & _ & Hs & _).
  exists r, es. split; [exact Hrun | exact Hs].
Defined.

Lemma contact_success_bound_witness :
  exists t',
    @establish_runtime_contact_with sample_text sample_world sample_urls sample_encodings
      sample_decoder sample_envelopes "https://core.test" default_retry [] =
      (Some (Ok sample_response), t') /\
    exists h rest url text, t' = EvHttp url text (Ok h) :: rest /\ 200 <= status h < 300.
Proof.
  assert (Hrun : exists t', @establish_runtime_contact_with sample_text sample_world sample_urls
    sample_encodings sample_decoder sample_envelopes "https://core.test" default_retry [] =
    (Some (Ok sample_response), t')) by (eexists; vm_compute; reflexivity).
  destruct Hrun as [t' Hrun]. exists t'. split; [exact Hrun |].
  destruct (@contact_success_bound sample_text sample_world sample_urls sample_encodings
    sample_decoder sample_envelopes "https://core.test" default_retry [] sample_response t'
    ltac:(done) Hrun)
    as (url & endpoint & nonce & now & u & signed & sig & h & rest & _ & _ & _ & Ht & _ & _ & _ & _
        & _ & _ & _ & _ & Hs & _).
  exists h, rest. eauto.
Defined.
