(* ===== verification/RuntimeEnv.v ===== *)
(** * Runtime environment

    [runtime_env.rs]: the signed request that fetches the customer's
    environment values before startup, and the checks on what comes back. *)
From stdpp Require Import prelude strings.
From S2P Require Import Prelude Json EnvNames Bridge World Protocol Contact.

Local Open Scope Z_scope.

Definition RUNTIME_ENV_REQUEST_DOMAIN_V2 : string := "proof.liskov.runtime-env-request.v2".
Definition RUNTIME_ENV_RESPONSE_DOMAIN_V2 : string := "proof.liskov.runtime-env-response.v2".
Definition RUNTIME_ENV_REQUEST_TTL_MS : Z := 60000.
Definition MAX_RUNTIME_ENV_VALUES : Z := 128.

Inductive RuntimeEnvError :=
| EnvInvalidEndpoint
| EnvRandomness
| EnvClock
| EnvTimestampOverflow
| EnvSigning (e : BridgeError)
| EnvInvalidSignature
| EnvSerialization
| EnvTransport
| EnvRejected
| EnvInvalidResponse
| EnvResponseBinding.

Definition env_exit_status (e : RuntimeEnvError) : Z :=
  match e with EnvTransport => 75 | _ => 70 end.

Definition env_diagnostic_exit_code (e : RuntimeEnvError) : Z :=
  match e with
  | EnvInvalidEndpoint => 96
  | EnvRandomness => 97
  | EnvClock | EnvTimestampOverflow => 98
  | EnvSigning _ | EnvInvalidSignature => 99
  | EnvSerialization => 100
  | EnvTransport => 101
  | EnvRejected => 102
  | EnvInvalidResponse => 103
  | EnvResponseBinding => 104
  end.

Record UnsignedRuntimeEnvRequest := {
  er_domain : string;
  er_application_uid : string;
  er_application_id : string;
  er_policy_digest : string;
  er_job_id : string;
  er_deployment_id : string;
  er_processor_id : string;
  er_nonce : string;
  er_issued_at_ms : Z;
  er_expires_at_ms : Z
}.

Record RuntimeEnvResponse := {
  ev_ok : bool;
  ev_domain : string;
  ev_request_id : string;
  ev_application_uid : string;
  ev_application_id : string;
  ev_policy_digest : string;
  ev_job_id : string;
  ev_deployment_id : string;
  ev_processor_id : string;
  ev_revision : string;
  ev_issued_at_ms : Z;
  ev_expires_at_ms : Z;
  ev_refresh_after_ms : Z;
  ev_values : list (string * string)
}.

(** The fields of the request in declaration order; the signed request is the
    same list followed by the signature. *)
Definition env_request_fields (u : UnsignedRuntimeEnvRequest) : list (string * Value) :=
  [("domain", Str (er_domain u));
   ("applicationUid", Str (er_application_uid u));
   ("applicationId", Str (er_application_id u));
   ("policyDigest", Str (er_policy_digest u));
   ("jobId", Str (er_job_id u));
   ("deploymentId", Str (er_deployment_id u));
   ("processorId", Str (er_processor_id u));
   ("nonce", Str (er_nonce u));
   ("issuedAtMs", jint (er_issued_at_ms u));
   ("expiresAtMs", jint (er_expires_at_ms u))].
Definition signed_env_request_fields (u : UnsignedRuntimeEnvRequest) (signature : string)
    : list (string * Value) :=
  env_request_fields u ++ [("signature", Str signature)].

Definition normalize_signature (value : string) : option string :=
  let value := to_ascii_lowercase (default value (strip_prefix "0x" value)) in
  then_some ((len value =? 128) && bytes_all is_ascii_hexdigit value) value.

Definition valid_env_name (name : string) : bool :=
  match name with
  | EmptyString => false
  | String first rest =>
      (byte_between 65 90 first || byte_is 95 first) &&
      bytes_all (fun b => is_ascii_uppercase b || is_ascii_digit b || byte_is 95 b) rest
  end.

Definition unsigned_env_request `{!Encodings} (bootstrap : RuntimeBootstrapResponse)
    (nonce : string) (issued_at_ms : Z) : result UnsignedRuntimeEnvRequest RuntimeEnvError :=
  let? expires_at_ms :=
    ok_or EnvTimestampOverflow (checked_add_u64 issued_at_ms RUNTIME_ENV_REQUEST_TTL_MS) in
  Ok {| er_domain := RUNTIME_ENV_REQUEST_DOMAIN_V2;
        er_application_uid := trim (rb_application_uid bootstrap);
        er_application_id := trim (rb_application_id bootstrap);
        er_policy_digest := to_ascii_lowercase (trim (rb_policy_digest bootstrap));
        er_job_id := trim (rb_job_id bootstrap);
        er_deployment_id := trim (rb_deployment_id bootstrap);
        er_processor_id := trim (rb_processor_id bootstrap);
        er_nonce := hex_encode nonce;
        er_issued_at_ms := issued_at_ms;
        er_expires_at_ms := expires_at_ms |}.

Section runtime_env.
Context `{!JsonText, !World, !UrlApi, !Encodings, !Deserialize RuntimeEnvResponse}.

Definition secure_endpoint (raw : string) : result Url RuntimeEnvError :=
  match url_parse raw with
  | None => Err EnvInvalidEndpoint
  | Some base =>
      if negb (url_scheme base =s "https")
         || opt_is_none (url_host_str base)
         || negb (str_is_empty (url_username base))
         || opt_is_some (url_password base)
         || opt_is_some (url_query base)
         || opt_is_some (url_fragment base)
      then Err EnvInvalidEndpoint
      else ok_or EnvInvalidEndpoint (url_join base "/api/jobs/runtime-env")
  end.

Definition sign (message : string) : io event (result string RuntimeEnvError) :=
  reply ← bridge_call "signer_sign" (sign_params message);
  mret match reply with
  | Err e => Err (EnvSigning e)
  | Ok result =>
      match (v ← value_get "bytes" result; s ← as_str v; normalize_signature s) with
      | None => Err EnvInvalidSignature
      | Some signature => Ok ("0x" +:+ signature)
      end
  end.

Definition validate_env_response (request : UnsignedRuntimeEnvRequest) (body : string)
    : result (list (string * string)) RuntimeEnvError :=
  match from_slice body with
  | None => Err EnvInvalidResponse
  | Some response =>
      if negb (ev_ok response)
         || negb (ev_domain response =s RUNTIME_ENV_RESPONSE_DOMAIN_V2)
         || str_is_empty (ev_request_id response)
         || str_is_empty (ev_revision response)
         || (ev_expires_at_ms response <=? ev_issued_at_ms response)
         || (ev_refresh_after_ms response <? ev_issued_at_ms response)
         || (ev_expires_at_ms response <? ev_refresh_after_ms response)
      then Err EnvInvalidResponse
      else if negb (ev_application_uid response =s er_application_uid request)
         || negb (ev_application_id response =s er_application_id request)
         || negb (ev_policy_digest response =s er_policy_digest request)
         || negb (ev_job_id response =s er_job_id request)
         || negb (ev_deployment_id response =s er_deployment_id request)
         || negb (ev_processor_id response =s er_processor_id request)
      then Err EnvResponseBinding
      else if (MAX_RUNTIME_ENV_VALUES <? Z.of_nat (length (ev_values response)))
         || existsb (fun nv : string * string =>
              negb (valid_env_name nv.1)
              || names_contain PROTECTED_ENV_NAMES nv.1
              || contains_nul nv.2) (ev_values response)
      then Err EnvInvalidResponse
      else Ok (ev_values response)
  end.

Definition load_runtime_environment_with (bootstrap : RuntimeBootstrapResponse)
    (issued_at_ms : Z) (nonce : string) : io event (result (list (string * string)) RuntimeEnvError) :=
  match rb_runtime_env bootstrap with
  | None => mret (Ok [])
  | Some config =>
  if negb (re_enabled config) then mret (Ok [])
  else if negb (re_url config =s rb_slipway_url bootstrap) then mret (Err EnvResponseBinding)
  else
  match secure_endpoint (re_url config) with
  | Err e => mret (Err e)
  | Ok endpoint =>
  match unsigned_env_request bootstrap nonce issued_at_ms with
  | Err e => mret (Err e)
  | Ok unsigned =>
  if existsb str_is_empty
       [er_application_uid unsigned; er_application_id unsigned; er_policy_digest unsigned;
        er_job_id unsigned; er_deployment_id unsigned; er_processor_id unsigned]
  then mret (Err EnvResponseBinding)
  else
  let message := canonical_json_bytes (jobj (env_request_fields unsigned)) in
  let!? signature := sign message in
  let body_text := to_vec_fields (signed_env_request_fields unsigned signature) in
  reply ← http_post (url_as_str endpoint) body_text;
  mret match reply with
  | Err Transport => Err EnvTransport
  | Err HttpResponseTooLarge => Err EnvInvalidResponse
  | Ok response =>
      if negb ((200 <=? status response) && (status response <? 300)) then Err EnvRejected
      else validate_env_response unsigned (body response)
  end
  end
  end
  end.

Definition load_runtime_environment (bootstrap : RuntimeBootstrapResponse)
    : io event (result (list (string * string)) RuntimeEnvError) :=
  if is_none_or (rb_runtime_env bootstrap) (fun config => negb (re_enabled config))
  then mret (Ok [])
  else
    random ← fill_random 16;
    match random with
    | None => mret (Err EnvRandomness)
    | Some nonce =>
        now ← unix_time_ms;
        match now with
        | None => mret (Err EnvClock)
        | Some issued_at_ms => load_runtime_environment_with bootstrap issued_at_ms nonce
        end
    end.

End runtime_env.

(** * Properties *)

(** What every environment handed to the supervisor satisfies. *)
Definition env_entry_safe (nv : string * string) : Prop :=
  valid_env_name nv.1 = true /\ (nv.1 ∉ PROTECTED_ENV_NAMES) /\ contains_nul nv.2 = false.
Definition env_values_safe (values : list (string * string)) : Prop :=
  Z.of_nat (length values) <= MAX_RUNTIME_ENV_VALUES /\ Forall env_entry_safe values.

Definition env_response_accepted (r : RuntimeEnvResponse) : Prop :=
  ev_ok r = true /\ ev_domain r = RUNTIME_ENV_RESPONSE_DOMAIN_V2 /\
  ev_request_id r <> EmptyString /\ ev_revision r <> EmptyString /\
  ev_issued_at_ms r < ev_expires_at_ms r /\
  ev_issued_at_ms r <= ev_refresh_after_ms r <= ev_expires_at_ms r.

Definition env_response_bound (r : RuntimeEnvResponse) (q : UnsignedRuntimeEnvRequest) : Prop :=
  ev_application_uid r = er_application_uid q /\ ev_application_id r = er_application_id q /\
  ev_policy_digest r = er_policy_digest q /\ ev_job_id r = er_job_id q /\
  ev_deployment_id r = er_deployment_id q /\ ev_processor_id r = er_processor_id q.

Lemma env_entry_decide nv :
  negb (valid_env_name nv.1) || names_contain PROTECTED_ENV_NAMES nv.1 || contains_nul nv.2 = false
  <-> env_entry_safe nv.
Proof.
  unfold env_entry_safe. rewrite !orb_false_iff, negb_false_iff, names_contain_false. tauto.
Qed.

Lemma existsb_false_Forall {A} (p : A -> bool) l :
  existsb p l = false <-> Forall (fun x => p x = false) l.
Proof.
  induction l as [|x l IH]; simpl; [done |]. rewrite orb_false_iff, Forall_cons, IH. done.
Qed.

Lemma env_values_decide values :
  (MAX_RUNTIME_ENV_VALUES <? Z.of_nat (length values))
    || existsb (fun nv : string * string =>
         negb (valid_env_name nv.1) || names_contain PROTECTED_ENV_NAMES nv.1 || contains_nul nv.2)
         values = false <-> env_values_safe values.
Proof.
  unfold env_values_safe. rewrite orb_false_iff, existsb_false_Forall, Z.ltb_ge.
  apply and_iff_compat_l. apply Forall_proper; [| done]. intros nv. apply env_entry_decide.
Qed.

Section env_properties.
Context `{!JsonText, !World, !UrlApi, !Encodings, !Deserialize RuntimeEnvResponse}.

Lemma validate_env_response_Ok request text values :
  validate_env_response request text = Ok values <->
    exists r, from_slice text = Some r /\ env_response_accepted r /\ env_response_bound r request /\
      ev_values r = values /\ env_values_safe values.
Proof.
  unfold validate_env_response. destruct (from_slice text) as [x|] eqn:Hx; [| naive_solver].
  match goal with |- context [if ?c then Err EnvInvalidResponse else if _ then _ else _] =>
    assert (Hacc : c = false <-> env_response_accepted x) end.
  { unfold env_response_accepted.
    rewrite !orb_false_iff, !negb_false_iff, !str_is_empty_false, str_eqb_eq, Z.leb_gt, !Z.ltb_ge. tauto. }
  match goal with |- context [if ?c then Err EnvResponseBinding else _] =>
    assert (Hbound : c = false <-> env_response_bound x request) end.
  { unfold env_response_bound. rewrite !orb_false_iff, !negb_false_iff, !str_eqb_eq. tauto. }
  split.
  - intros Hv. repeat (split_match_in Hv; [done |]). injection Hv as <-. exists x.
    rewrite <- Hacc, <- Hbound, <- env_values_decide. done.
  - intros (r & [= <-] & Ha & Hb & <- & Hs). apply Hacc in Ha as ->. apply Hbound in Hb as ->.
    by apply env_values_decide in Hs as ->.
Qed.

(** Environment values are taken only from a response that is well formed,
    unexpired on its own terms and bound to the request's application, policy,
    job, deployment and processor; there are at most 128 of them, every name
    matches [A-Z_][A-Z0-9_]*, none is a protected helper name and no value
    contains a NUL byte. *)
Theorem runtime_env_values_safe request text values :
  validate_env_response request text = Ok values <->
    exists r, from_slice text = Some r /\ env_response_accepted r /\ env_response_bound r request /\
      ev_values r = values /\
      Z.of_nat (length values) <= 128 /\
      Forall (fun nv => valid_env_name nv.1 = true /\ (nv.1 ∉ PROTECTED_ENV_NAMES) /\
        contains_nul nv.2 = false) values.
Proof. apply validate_env_response_Ok. Qed.

Lemma secure_endpoint_https raw endpoint :
  secure_endpoint raw = Ok endpoint ->
  exists base, url_parse raw = Some base /\ url_scheme base = "https" /\
    url_join base "/api/jobs/runtime-env" = Some endpoint.
Proof.
  unfold secure_endpoint. destruct (url_parse raw) as [base|]; [| done]. split_match; [done |].
  destruct (url_join _ _) eqn:Hj; [| done]. intros [= <-]. reflect_bool. eauto.
Qed.

Lemma unsigned_env_request_Ok bootstrap nonce now u :
  unsigned_env_request bootstrap nonce now = Ok u ->
  er_nonce u = hex_encode nonce /\ er_issued_at_ms u = now /\
  er_expires_at_ms u = now + 60000 /\ now + 60000 <= u64_max /\
  er_job_id u = trim (rb_job_id bootstrap) /\ er_processor_id u = trim (rb_processor_id bootstrap) /\
  er_policy_digest u = to_ascii_lowercase (trim (rb_policy_digest bootstrap)).
Proof.
  unfold unsigned_env_request, checked_add_u64. split_match; [| done]. simpl in *.
  split_match_in Heqr; simplify_eq/=. intros [= <-]. reflect_bool. done.
Qed.

(** A runtime environment that is switched off costs nothing: no random
    bytes, no signature and no request, and the customer gets no values. *)
Theorem runtime_env_disabled_silent bootstrap t :
  (forall config, rb_runtime_env bootstrap = Some config -> re_enabled config = false) ->
  load_runtime_environment bootstrap t = (Some (Ok []), t).
Proof.
  intros Hoff. unfold load_runtime_environment.
  destruct (rb_runtime_env bootstrap) as [config|]; simpl; [| done]. by rewrite (Hoff config).
Qed.

(** C7: values of an enabled runtime environment come from exactly one signed
    exchange with the Slipway endpoint of the accepted bootstrap, over HTTPS:
    one nonce, one clock reading, one signature over the canonical request and
    one 2xx post, in this order; the values returned are safe. *)
Theorem runtime_env_success_exchange bootstrap config t values t' :
  rb_runtime_env bootstrap = Some config -> re_enabled config = true ->
  load_runtime_environment bootstrap t = (Some (Ok values), t') ->
  exists base endpoint nonce now u v signature h,
    re_url config = rb_slipway_url bootstrap /\
    url_parse (re_url config) = Some base /\ url_scheme base = "https" /\
    url_join base "/api/jobs/runtime-env" = Some endpoint /\
    unsigned_env_request bootstrap nonce now = Ok u /\ er_expires_at_ms u = now + 60000 /\
    t' = EvHttp (url_as_str endpoint) (to_vec_fields (signed_env_request_fields u signature)) (Ok h)
      :: EvBridge "signer_sign" (sign_params (canonical_json_bytes (jobj (env_request_fields u)))) (Ok v)
      :: EvUnixTime (Some now) :: EvRandom (Some nonce) :: t /\
    200 <= status h < 300 /\ validate_env_response u (body h) = Ok values /\ env_values_safe values.
Proof.
  intros Hconf Hen. unfold load_runtime_environment, load_runtime_environment_with.
  rewrite Hconf. simpl. rewrite Hen. simpl.
  unfold fill_random, unix_time_ms, mbind, io_bind, ask, mret, io_ret. intros Hrun.
  destruct (on_random t 16) as [nonce|]; [| done]. destruct (on_unix_time _) as [now|]; [| done].
  destruct (re_url config =s rb_slipway_url bootstrap) eqn:Hslip; simpl in Hrun; [| done].
  destruct (secure_endpoint (re_url config)) as [endpoint|e] eqn:Hsec; [| done].
  destruct (unsigned_env_request bootstrap nonce now) as [u|e] eqn:Hu; [| done].
  destruct (str_is_empty (er_application_uid u) || _); [done |].
  destruct (on_bridge _ _ _) as [v|e]; [| done].
  destruct (value_get "bytes" v ≫= _) as [signature|]; [| done].
  destruct (on_http _ _ _) as [h|[]]; try done.
  destruct ((200 <=? status h) && (status h <? 300)) eqn:Hst; simpl in Hrun; [| done].
  injection Hrun as Hv <-. apply secure_endpoint_https in Hsec as (base & ? & ? & ?).
  pose proof Hv as Hsafe. apply validate_env_response_Ok in Hsafe as (_ & _ & _ & _ & _ & Hsafe).
  pose proof (unsigned_env_request_Ok _ _ _ _ Hu) as (_ & _ & ? & _). reflect_bool.
  exists base, endpoint, nonce, now, u, v, ("0x" +:+ signature), h. split_and!; done.
Qed.

Definition bootstrap_event (e : event) : Prop :=
  match e with EvBridge _ _ _ | EvHttp _ _ _ | EvRandom _ | EvUnixTime _ => True | _ => False end.

(** Loading always returns; it never sleeps or retries. *)
Lemma load_runtime_environment_emits bootstrap :
  emits bootstrap_event (load_runtime_environment bootstrap).
Proof.
  unfold load_runtime_environment, load_runtime_environment_with, sign, bridge_call, http_post,
    fill_random, unix_time_ms. solve_emits; done.
Qed.

End env_properties.

Definition sample_env_bootstrap : RuntimeBootstrapResponse :=
  {| rb_ok := true; rb_domain := RUNTIME_BOOTSTRAP_RESPONSE_DOMAIN_V2; rb_application_uid := "uid";
     rb_application_id := "app"; rb_policy_digest := "digest"; rb_deployment_id := "deployment";
     rb_job_id := "job"; rb_processor_id := "5Proc"; rb_runtime_instance_id := "nonce";
     rb_slipway_url := "https://slipway.test";
     rb_runtime_env := Some {| re_enabled := true; re_url := "https://slipway.test" |};
     rb_secrets := None; rb_supervision := None; rb_logging := None;
     rb_logging_outage_canary := false; rb_diagnostics := None; rb_access := None;
     rb_processor_facts := None; rb_fact_authorization := None |}.
Definition sample_env_values : list (string * string) := [("API_URL", "https://api.test")].
Definition sample_env_response : RuntimeEnvResponse :=
  {| ev_ok := true; ev_domain := RUNTIME_ENV_RESPONSE_DOMAIN_V2; ev_request_id := "req-1";
     ev_application_uid := "uid"; ev_application_id := "app"; ev_policy_digest := "digest";
     ev_job_id := "job"; ev_deployment_id := "deployment"; ev_processor_id := "5Proc";
     ev_revision := "1"; ev_issued_at_ms := 10; ev_expires_at_ms := 20; ev_refresh_after_ms := 15;
     ev_values := sample_env_values |}.
Definition sample_env_decoder : Deserialize RuntimeEnvResponse := fun _ => Some sample_env_response.

Lemma runtime_env_disabled_silent_witness :
  @load_runtime_environment sample_text sample_world sample_urls sample_encodings sample_env_decoder
    sample_response [] = (Some (Ok []), []).
Proof. apply runtime_env_disabled_silent. intros config [=]. Defined.

Lemma runtime_env_success_exchange_witness :
  exists t', @load_runtime_environment sample_text sample_world sample_urls sample_encodings
      sample_env_decoder sample_env_bootstrap [] = (Some (Ok sample_env_values), t') /\
    env_values_safe sample_env_values.
Proof.
  assert (Hrun : exists t', @load_runtime_environment sample_text sample_world sample_urls
    sample_encodings sample_env_decoder sample_env_bootstrap [] = (Some (Ok sample_env_values), t'))
    by (eexists; vm_compute; reflexivity).
  destruct Hrun as [t' Hrun]. exists t'. split; [exact Hrun |].
  destruct (@runtime_env_success_exchange sample_text sample_world sample_urls sample_encodings
    sample_env_decoder sample_env_bootstrap _ [] sample_env_values t' eq_refl eq_refl Hrun)
    as (_ & _ & _ & _ & _ & _ & _ & _ & _ & _ & _ & _ & _ & _ & _ & _ & _ & Hsafe).
  exact Hsafe.
Defined.
