(* ===== verification/CustomerEnvironment.v ===== *)
(** * Customer environment

    [customer_environment.rs] and the environment half of [supervisor.rs]: the
    inherited process environment is stripped of helper-owned names, repaired
    where it is invalid in the guest, and overlaid by the signed values.

    An [OsString] is its bytes.  The names the code compares against are ASCII,
    so comparing through [to_str] and comparing bytes agree. *)
From stdpp Require Import prelude strings.
From S2P Require Import Prelude Json EnvNames Protocol RuntimeEnv.

Local Open Scope Z_scope.

Definition TMPDIR : string := "TMPDIR".
Definition LD_PRELOAD : string := "LD_PRELOAD".
Definition PATH : string := "PATH".
Definition HOME : string := "HOME".
Definition DEFAULT_TMPDIR : string := "/tmp".
Definition DEFAULT_PATH : string :=
  "/usr/local/sbin:/usr/local/bin:/usr/sbin:/usr/bin:/sbin:/bin".
Definition DEFAULT_HOME : string := "/root".

Inductive NormalizationReason :=
  DirectoryMissing | DirectoryNotWritable | ObjectMissing | Unset | Empty.

Definition reason_as_str (r : NormalizationReason) : string :=
  match r with
  | DirectoryMissing => "directory_missing"
  | DirectoryNotWritable => "directory_not_writable"
  | ObjectMissing => "object_missing"
  | Unset => "unset"
  | Empty => "empty"
  end.

Record Normalization := { norm_name : string; norm_reason : NormalizationReason }.

(** [Vec<(OsString, OsString)>] in order, duplicates allowed. *)
Abbreviation environment := (list (string * string)).

(** [GuestFilesystem]: questions to the guest's filesystem and the one change
    the rules make to it, over the events of any caller. *)
Inductive guest_event :=
| GuestDirectory (path : string) (reply : bool)
| GuestWritable (path : string) (reply : bool)
| GuestFile (path : string) (reply : bool)
| GuestCreateSticky (path : string) (ok : bool).

Class Guest (E : Type) := {
  guest_ev : guest_event -> E;
  on_directory : list E -> string -> bool;
  on_writable : list E -> string -> bool;
  on_file : list E -> string -> bool;
  on_create_sticky : list E -> string -> bool
}.

Section guest_calls.
Context {E : Type} `{!Guest E}.

Definition is_directory (path : string) : io E bool :=
  ask (fun t => on_directory t path) (fun b => guest_ev (GuestDirectory path b)).
Definition is_writable_directory (path : string) : io E bool :=
  ask (fun t => on_writable t path) (fun b => guest_ev (GuestWritable path b)).
Definition is_file (path : string) : io E bool :=
  ask (fun t => on_file t path) (fun b => guest_ev (GuestFile path b)).
Definition create_sticky_directory (path : string) : io E bool :=
  ask (fun t => on_create_sticky t path) (fun b => guest_ev (GuestCreateSticky path b)).

End guest_calls.

Fixpoint lookup (e : environment) (name : string) : option string :=
  match e with
  | [] => None
  | (existing, value) :: e => if existing =s name then Some value else lookup e name
  end.

Fixpoint set (e : environment) (name value : string) : environment :=
  match e with
  | [] => [(name, value)]
  | (existing, old) :: e =>
      if existing =s name then (existing, value) :: e else (existing, old) :: set e name value
  end.

(** [Vec::retain] of the entries with another name. *)
Definition retain_other (name : string) (e : environment) : environment :=
  filter (fun nv : string * string => negb (nv.1 =s name)) e.

Section normalize.
Context {E : Type} `{!Guest E}.

Fixpoint all_resolve (entries : list string) : io E bool :=
  match entries with
  | [] => mret true
  | entry :: entries =>
      if negb (bytes_any (byte_is 47) entry) then all_resolve entries
      else
        found ← is_file entry;
        if found : bool then all_resolve entries else mret false
  end.

Definition preload_resolves (value : string) : io E bool :=
  all_resolve (filter (fun entry => negb (str_is_empty entry))
    (split (fun b => byte_is 32 b || byte_is 58 b) value)).

Definition normalize_tmpdir (signed : string -> bool) (inherited : environment)
    : io E (environment * list Normalization) :=
  if signed TMPDIR then mret (inherited, [])
  else
    match lookup inherited TMPDIR with
    | None => mret (inherited, [])
    | Some value =>
        writable ← is_writable_directory value;
        if writable : bool then mret (inherited, [])
        else
          directory ← is_directory value;
          let reason := if directory : bool then DirectoryNotWritable else DirectoryMissing in
          present ← is_directory DEFAULT_TMPDIR;
          _ ← (if present : bool then mret true else create_sticky_directory DEFAULT_TMPDIR);
          mret (set inherited TMPDIR DEFAULT_TMPDIR,
                [{| norm_name := TMPDIR; norm_reason := reason |}])
    end.

Definition normalize_preload (signed : string -> bool) (inherited : environment)
    : io E (environment * list Normalization) :=
  if signed LD_PRELOAD then mret (inherited, [])
  else
    match lookup inherited LD_PRELOAD with
    | None => mret (inherited, [])
    | Some value =>
        resolves ← preload_resolves value;
        mret (if resolves : bool then (inherited, [])
              else (retain_other LD_PRELOAD inherited,
                    [{| norm_name := LD_PRELOAD; norm_reason := ObjectMissing |}]))
    end.

Definition normalize_path (signed : string -> bool) (inherited : environment)
    : environment * list Normalization :=
  if signed PATH then (inherited, [])
  else
    let reason :=
      match lookup inherited PATH with
      | None => Some Unset
      | Some value => if str_is_empty value then Some Empty else None
      end in
    match reason with
    | Some reason =>
        (set inherited PATH DEFAULT_PATH, [{| norm_name := PATH; norm_reason := reason |}])
    | None => (inherited, [])
    end.

Definition normalize_home (signed : string -> bool) (inherited : environment)
    : environment * list Normalization :=
  if negb (signed HOME) && opt_is_none (lookup inherited HOME)
  then (set inherited HOME DEFAULT_HOME, [{| norm_name := HOME; norm_reason := Unset |}])
  else (inherited, []).

Definition normalize_customer_environment (inherited : environment) (signed : string -> bool)
    : io E (environment * list Normalization) :=
  '(e1, c1) ← normalize_tmpdir signed inherited;
  '(e2, c2) ← normalize_preload signed e1;
  let '(e3, c3) := normalize_path signed e2 in
  let '(e4, c4) := normalize_home signed e3 in
  mret (e4, c1 ++ c2 ++ c3 ++ c4).

End normalize.

(** ** The environment the customer is spawned with *)

Definition DISCOVERY_FILE_ENV : string := "LISKOV_DISCOVERY_FILE".
Definition PEER_PROXY_ENV : string := "LISKOV_PEER_PROXY".
Definition ADVERTISEMENT_FILE_ENV : string := "LISKOV_PEER_ADVERTISEMENT_FILE".
Definition DIRECTORY_FILE_ENV : string := "LISKOV_PEER_DIRECTORY_FILE".
Definition RUNTIME_INSTANCE_ID_ENV : string := "LISKOV_RUNTIME_INSTANCE_ID".
Definition OPT_IN_ENV : string := "LISKOV_APPLICATION_READINESS".
Definition OPT_IN_VALUE : string := "v1".
Definition READY_FILE_ENV : string := "LISKOV_APPLICATION_READY_FILE".

(** The names only the helper may set. *)
Definition HELPER_OWNED : list string :=
  [DISCOVERY_FILE_ENV; PEER_PROXY_ENV; ADVERTISEMENT_FILE_ENV; DIRECTORY_FILE_ENV;
   RUNTIME_INSTANCE_ID_ENV; OPT_IN_ENV; READY_FILE_ENV].

Definition insert_opt (name : string) (value : option string) (e : list (string * string))
    : list (string * string) :=
  match value with Some v => btree_insert name v e | None => e end.

(** [discovery], [peer] and [ready] are the file paths the respective
    components allocated, [peer_proxy] the access session's proxy. *)
Definition discovery_environment (runtime_environment : list (string * string))
    (bootstrap : RuntimeBootstrapResponse) (discovery : option string)
    (direct_peer : option (string * string)) (peer_proxy : option string)
    (application_ready : option string) : list (string * string) :=
  let e := btree_remove DISCOVERY_FILE_ENV runtime_environment in
  let e := btree_remove PEER_PROXY_ENV e in
  let e := btree_remove ADVERTISEMENT_FILE_ENV e in
  let e := btree_remove DIRECTORY_FILE_ENV e in
  let e := btree_remove OPT_IN_ENV e in
  let e := btree_remove READY_FILE_ENV e in
  let e := btree_insert RUNTIME_INSTANCE_ID_ENV (rb_runtime_instance_id bootstrap) e in
  let e := insert_opt DISCOVERY_FILE_ENV discovery e in
  let e := insert_opt ADVERTISEMENT_FILE_ENV (fst <$> direct_peer) e in
  let e := insert_opt DIRECTORY_FILE_ENV (snd <$> direct_peer) e in
  let e := insert_opt PEER_PROXY_ENV peer_proxy e in
  let e := insert_opt OPT_IN_ENV ((fun _ => OPT_IN_VALUE) <$> application_ready) e in
  insert_opt READY_FILE_ENV application_ready e.

Definition sanitize_environment_values (values : environment) : environment :=
  filter (fun kv : string * string => negb (names_contain PROTECTED_ENV_NAMES kv.1)) values.

Fixpoint merge_runtime_environment (e : environment) (runtime_environment : list (string * string))
    : environment :=
  match runtime_environment with
  | [] => e
  | (name, value) :: rest => merge_runtime_environment (retain_other name e ++ [(name, value)]) rest
  end.

Section customer.
Context {E : Type} `{!Guest E}.

Definition customer_environment (inherited : environment) (runtime_environment : list (string * string))
    : io E (environment * list Normalization) :=
  let inherited := filter (fun nv : string * string => negb (names_contain HELPER_OWNED nv.1)) inherited in
  '(inherited, normalized) ←
    normalize_customer_environment (sanitize_environment_values inherited)
      (fun name => btree_contains_key name runtime_environment);
  mret (merge_runtime_environment inherited runtime_environment, normalized).

End customer.

(** * Properties *)

(** The entries of one name, in order. *)
Definition entries (name : string) (e : environment) : environment :=
  filter (fun nv : string * string => nv.1 = name) e.

Lemma filter_none {A} (P : A -> Prop) `{!forall x, Decision (P x)} l :
  Forall (fun x => ~ P x) l -> filter P l = [].
Proof. induction 1; [done |]. by rewrite filter_cons_False. Qed.

Lemma app_nil_4 {A} (a b c d : list A) :
  a ++ b ++ c ++ d = [] -> a = [] /\ b = [] /\ c = [] /\ d = [].
Proof. by destruct a, b, c, d. Qed.

Lemma entries_app name e1 e2 : entries name (e1 ++ e2) = entries name e1 ++ entries name e2.
Proof. apply filter_app. Qed.

Lemma entries_set_ne name name' v e : name <> name' -> entries name (set e name' v) = entries name e.
Proof.
  intros Hne. unfold entries. induction e as [|[n x] e IH]; cbn [set].
  - by rewrite filter_cons_False.
  - destruct (str_eqb_spec n name') as [->|Hn].
    + by rewrite !filter_cons_False.
    + rewrite !filter_cons. by rewrite IH.
Qed.

Lemma entries_retain_ne name name' e : name <> name' -> entries name (retain_other name' e) = entries name e.
Proof.
  intros Hne. unfold entries, retain_other. rewrite list_filter_filter.
  apply list_filter_iff. intros [n v]. simpl. destruct (str_eqb_spec n name'); simpl; naive_solver.
Qed.

Lemma entries_retain_eq name e : entries name (retain_other name e) = [].
Proof.
  unfold entries, retain_other. rewrite list_filter_filter. apply filter_none.
  apply Forall_forall. intros [n v] _. simpl. destruct (str_eqb_spec n name); simpl; naive_solver.
Qed.

Lemma lookup_entries name e : lookup e name = snd <$> head (entries name e).
Proof.
  unfold entries. induction e as [|[n v] e IH]; [done |].
  rewrite filter_cons. cbn [lookup fst snd]. destruct (str_eqb_spec n name); simpl; case_decide; naive_solver.
Qed.

Lemma lookup_set_eq name v e : lookup (set e name v) name = Some v.
Proof.
  induction e as [|[n x] e IH]; simpl; [by rewrite str_eqb_refl |].
  destruct (n =s name) eqn:Hn; simpl; by rewrite Hn.
Qed.

Lemma lookup_set_ne name name' v e : name <> name' -> lookup (set e name' v) name = lookup e name.
Proof. intros. by rewrite !lookup_entries, entries_set_ne. Qed.

Definition REPAIRED : list string := [TMPDIR; LD_PRELOAD; PATH; HOME].

(** What a repair leaves under its name, from what was there: an unusable
    [LD_PRELOAD] is dropped, the first entry of the others gets the default. *)
Definition repair_default (name : string) : string :=
  if name =s TMPDIR then DEFAULT_TMPDIR else if name =s PATH then DEFAULT_PATH else DEFAULT_HOME.
Definition repaired (name : string) (before : environment) : environment :=
  if name =s LD_PRELOAD then [] else (name, repair_default name) :: tail before.

Lemma entries_set_eq name v e : entries name (set e name v) = (name, v) :: tail (entries name e).
Proof.
  unfold entries. induction e as [|[n x] e IH]; cbn [set].
  - by rewrite filter_cons_True.
  - destruct (str_eqb_spec n name) as [->|Hn].
    + by rewrite !filter_cons_True.
    + by rewrite !filter_cons_False.
Qed.

Section normalize_properties.
Context {E : Type} `{!Guest E}.

(** What a repair of one name may do. *)
Definition repairs (name : string) (signed : string -> bool) (e : environment)
    (r : environment * list Normalization) : Prop :=
  (signed name = true -> r = (e, [])) /\ (r.2 = [] -> r.1 = e) /\
  (forall n, n <> name -> entries n r.1 = entries n e) /\
  (forall c, c ∈ r.2 -> norm_name c = name) /\
  (r.2 <> [] -> entries name r.1 = repaired name (entries name e)).

Lemma repairs_none name signed e : repairs name signed e (e, []).
Proof. split_and!; try done. intros c Hc. by apply not_elem_of_nil in Hc. Qed.

Lemma repairs_set name signed e reason :
  signed name = false -> (name =s LD_PRELOAD) = false ->
  repairs name signed e (set e name (repair_default name), [{| norm_name := name; norm_reason := reason |}]).
Proof.
  intros Hs Hpre. split_and!; simpl; [congruence | done | | |].
  - intros n Hn. by apply entries_set_ne.
  - by intros c ->%list_elem_of_singleton.
  - intros _. unfold repaired. rewrite Hpre. apply entries_set_eq.
Qed.

Lemma normalize_tmpdir_repairs signed e :
  returns (fun r => repairs TMPDIR signed e r /\
    (signed TMPDIR = false -> r.2 <> [] -> lookup r.1 TMPDIR = Some DEFAULT_TMPDIR))
    (normalize_tmpdir signed e).
Proof.
  unfold normalize_tmpdir. destruct (signed TMPDIR) eqn:Hs; [apply returns_ret; split; [apply repairs_none | done] |].
  destruct (lookup e TMPDIR); [| apply returns_ret; split; [apply repairs_none | done]].
  eapply returns_bind; [apply returns_any |]. intros [] _;
    [apply returns_ret; split; [apply repairs_none | done] |].
  do 3 (eapply returns_bind; [apply returns_any |]; intros ? _).
  apply returns_ret. split; [by apply (repairs_set TMPDIR) |]. intros _ _. apply lookup_set_eq.
Qed.

Lemma normalize_preload_repairs signed e : returns (repairs LD_PRELOAD signed e) (normalize_preload signed e).
Proof.
  unfold normalize_preload. destruct (signed LD_PRELOAD) eqn:Hs; [apply returns_ret, repairs_none |].
  destruct (lookup e LD_PRELOAD); [| apply returns_ret, repairs_none].
  eapply returns_bind; [apply returns_any |]. intros [] _; apply returns_ret; [apply repairs_none |].
  split_and!; simpl; [congruence | done | | |].
  - intros n Hn. by apply entries_retain_ne.
  - by intros c ->%list_elem_of_singleton.
  - intros _. apply entries_retain_eq.
Qed.

Lemma normalize_path_repairs signed e :
  repairs PATH signed e (normalize_path signed e) /\
  (signed PATH = false -> exists v, lookup (normalize_path signed e).1 PATH = Some v /\ v <> EmptyString).
Proof.
  unfold normalize_path. destruct (signed PATH) eqn:Hs; [split; [apply repairs_none | done] |].
  destruct (lookup e PATH) as [v|] eqn:Hl; [destruct (str_is_empty v) eqn:Hv |];
    (split; [first [by apply (repairs_set PATH) | apply repairs_none] |]); intros _; simpl.
  - eexists. by rewrite lookup_set_eq.
  - exists v. split; [done |]. by apply str_is_empty_false.
  - eexists. by rewrite lookup_set_eq.
Qed.

Lemma normalize_home_repairs signed e :
  repairs HOME signed e (normalize_home signed e) /\
  (signed HOME = false -> lookup (normalize_home signed e).1 HOME <> None).
Proof.
  unfold normalize_home. destruct (signed HOME) eqn:Hs; simpl; [split; [apply repairs_none | done] |].
  destruct (lookup e HOME) as [v|] eqn:Hl; simpl.
  - split; [apply repairs_none |]. by rewrite Hl.
  - split; [by apply (repairs_set HOME) |]. by rewrite lookup_set_eq.
Qed.

Lemma normalize_repairs inherited signed :
  returns (fun r => exists e1 e2 e3 c1 c2 c3 c4,
      repairs TMPDIR signed inherited (e1, c1) /\ repairs LD_PRELOAD signed e1 (e2, c2) /\
      repairs PATH signed e2 (e3, c3) /\ repairs HOME signed e3 (r.1, c4) /\
      r.2 = c1 ++ c2 ++ c3 ++ c4 /\
      (signed PATH = false -> exists v, lookup e3 PATH = Some v /\ v <> EmptyString) /\
      (signed HOME = false -> lookup r.1 HOME <> None))
    (normalize_customer_environment inherited signed).
Proof.
  unfold normalize_customer_environment.
  eapply returns_bind; [apply normalize_tmpdir_repairs |]. intros [e1 c1] [H1 _].
  eapply returns_bind; [apply normalize_preload_repairs |]. intros [e2 c2] H2.
  destruct (normalize_path_repairs signed e2) as [H3 H3'].
  destruct (normalize_path signed e2) as [e3 c3].
  destruct (normalize_home_repairs signed e3) as [H4 H4'].
  destruct (normalize_home signed e3) as [e4 c4]. apply returns_ret.
  by exists e1, e2, e3, c1, c2, c3, c4.
Qed.

Lemma repairs_entries name signed e r n :
  repairs name signed e r -> n <> name \/ signed n = true -> entries n r.1 = entries n e.
Proof.
  intros (Hs & _ & Hn & _) Hor. destruct (decide (n = name)) as [->|Hne]; [| by apply Hn].
  destruct Hor as [?|Hsig]; [done |]. by rewrite (Hs Hsig).
Qed.

Lemma repairs_signed name signed e r c :
  repairs name signed e r -> c ∈ r.2 -> norm_name c = name /\ signed name = false.
Proof.
  intros (Hs & _ & _ & Hc & _) Hin. split; [by apply Hc |].
  destruct (signed name); [| done]. rewrite Hs in Hin by done. by apply not_elem_of_nil in Hin.
Qed.

(** Whether a repair of [name] was recorded. *)
Definition recorded (name : string) (cs : list Normalization) : bool :=
  existsb (fun c => norm_name c =s name) cs.

Lemma recorded_spec name cs : recorded name cs = true <-> exists c, c ∈ cs /\ norm_name c = name.
Proof.
  unfold recorded. rewrite existsb_exists. setoid_rewrite str_eqb_eq. by setoid_rewrite list_elem_of_In.
Qed.

Lemma recorded_app name cs cs' : recorded name (cs ++ cs') = recorded name cs || recorded name cs'.
Proof. apply existsb_app. Qed.

(** One repair: its own name changes as recorded, no other does. *)
Lemma repairs_exact name signed e r n :
  repairs name signed e r ->
  entries n r.1 = (if recorded n r.2 then repaired n (entries n e) else entries n e) /\
  (recorded n r.2 = true -> n = name).
Proof.
  intros (_ & He & Hn & Hc & Hr). split.
  - destruct (recorded n r.2) eqn:Hrec.
    + apply recorded_spec in Hrec as (c & Hin & Hname). rewrite (Hc c Hin) in Hname. subst n.
      apply Hr. intros Hnil. rewrite Hnil in Hin. by apply not_elem_of_nil in Hin.
    + destruct (decide (n = name)) as [->|Hne]; [| by apply Hn]. rewrite He; [done |].
      destruct (r.2) as [|c cs]; [done |]. exfalso. apply not_true_iff_false in Hrec. apply Hrec, recorded_spec.
      exists c. split; [set_solver |]. apply Hc. set_solver.
  - intros (c & Hin & <-)%recorded_spec. by apply Hc.
Qed.

(** What normalisation does to each name. *)
Lemma normalize_exact inherited signed :
  returns (fun r => forall n,
      entries n r.1 = (if recorded n r.2 then repaired n (entries n inherited) else entries n inherited) /\
      (recorded n r.2 = true -> n ∈ REPAIRED /\ signed n = false))
    (normalize_customer_environment inherited signed).
Proof.
  eapply returns_conseq; [apply normalize_repairs |].
  intros r (e1 & e2 & e3 & c1 & c2 & c3 & c4 & H1 & H2 & H3 & H4 & Hc & _) n.
  destruct (repairs_exact _ _ _ _ n H1) as [E1 N1], (repairs_exact _ _ _ _ n H2) as [E2 N2],
    (repairs_exact _ _ _ _ n H3) as [E3 N3], (repairs_exact _ _ _ _ n H4) as [E4 N4].
  cbn [fst snd] in *. rewrite Hc, !recorded_app. split.
  - rewrite E4, E3, E2, E1.
    destruct (recorded n c1), (recorded n c2), (recorded n c3), (recorded n c4); try done;
      repeat match goal with HN : true = true -> _ |- _ => specialize (HN eq_refl) end; subst; discriminate.
  - rewrite !orb_true_iff. intros Hor.
    assert (Hsig : forall m e e' c, repairs m signed e (e', c) -> recorded n c = true -> n = m /\ signed n = false).
    { intros m e e' c HR (x & Hin & <-)%recorded_spec.
      destruct (repairs_signed _ _ _ _ _ HR Hin) as [-> ?]. done. }
    unfold REPAIRED. rewrite !elem_of_cons.
    destruct Hor as [Hr|[Hr|[Hr|Hr]]]; (eapply Hsig in Hr as [-> Hs]; [| eassumption]); (split; [| exact Hs]); tauto.
Qed.

(** What normalisation does to names it may not repair. *)
Lemma normalize_entries inherited signed :
  returns (fun r => forall n, (n ∉ REPAIRED) \/ signed n = true -> entries n r.1 = entries n inherited)
    (normalize_customer_environment inherited signed).
Proof.
  eapply returns_conseq; [apply normalize_exact |]. intros r Hr n Hn. destruct (Hr n) as [-> Hrec].
  destruct (recorded n r.2); [| done]. destruct (Hrec eq_refl) as [HR Hs].
  destruct Hn as [|Hn]; [done | congruence].
Qed.

(** Repairing the inherited environment touches only [TMPDIR],
    [LD_PRELOAD], [PATH] and [HOME], and of those only the ones the signed
    environment does not set: every other entry is kept, in order.  Each change
    is recorded under its name; an empty record means an untouched environment.
    Afterwards [PATH] is set and non-empty and [HOME] is set, unless signed. *)
Theorem normalize_touches_only_four inherited signed t r t' :
  normalize_customer_environment inherited signed t = (Some r, t') ->
  (forall n, (n ∉ REPAIRED) \/ signed n = true -> entries n r.1 = entries n inherited) /\
  (forall c, c ∈ r.2 -> norm_name c ∈ REPAIRED /\ signed (norm_name c) = false) /\
  (r.2 = [] -> r.1 = inherited) /\
  (signed PATH = false -> exists v, lookup r.1 PATH = Some v /\ v <> EmptyString) /\
  (signed HOME = false -> lookup r.1 HOME <> None).
Proof.
  intros Hrun. split; [by eapply normalize_entries |].
  destruct (normalize_repairs inherited signed t r t' Hrun)
    as (e1 & e2 & e3 & c1 & c2 & c3 & c4 & H1 & H2 & H3 & H4 & Hc & Hpath & Hhome).
  split_and!; [| | | done].
  - intros c Hin. rewrite Hc, !elem_of_app in Hin. unfold REPAIRED.
    destruct Hin as [Hin|[Hin|[Hin|Hin]]];
      [destruct (repairs_signed _ _ _ _ c H1 Hin) as [-> ?] | destruct (repairs_signed _ _ _ _ c H2 Hin) as [-> ?]
      | destruct (repairs_signed _ _ _ _ c H3 Hin) as [-> ?] | destruct (repairs_signed _ _ _ _ c H4 Hin) as [-> ?]];
      (split; [| done]); rewrite !elem_of_cons; tauto.
  - rewrite Hc. intros (-> & -> & -> & ->)%app_nil_4.
    destruct H1 as (_ & E1 & _), H2 as (_ & E2 & _), H3 as (_ & E3 & _), H4 as (_ & E4 & _).
    simpl in *. rewrite E4, E3, E2, E1; done.
  - intros Hs. destruct (Hpath Hs) as (v & Hv & Hne). exists v. split; [| done].
    pose proof (repairs_entries _ _ _ _ PATH H4 ltac:(left; discriminate)) as A4. simpl in A4.
    by rewrite lookup_entries, A4, <- lookup_entries.
Qed.

End normalize_properties.

(** ** Signed values over inherited ones *)

Lemma merge_entries e rt n :
  NoDup (map fst rt) ->
  entries n (merge_runtime_environment e rt) =
    match btree_get n rt with Some v => [(n, v)] | None => entries n e end.
Proof.
  revert e. induction rt as [|[m v] rt IH]; intros e; simpl; [done |].
  intros [Hm Hrt]%NoDup_cons. rewrite IH by done.
  destruct (String.eqb_spec n m) as [->|Hne].
  - rewrite (btree_get_not_in m rt) by done.
    rewrite entries_app, entries_retain_eq. unfold entries. by rewrite filter_cons_True.
  - destruct (btree_get n rt); [done |]. rewrite entries_app, entries_retain_ne by done.
    unfold entries at 2. rewrite filter_cons_False by (simpl; congruence). by rewrite app_nil_r.
Qed.

Lemma entries_filter_names names n (e : environment) :
  entries n (filter (fun nv : string * string => negb (names_contain names nv.1)) e) =
    if names_contain names n then [] else entries n e.
Proof.
  unfold entries. rewrite list_filter_filter. destruct (names_contain names n) eqn:Hn.
  - apply filter_none, Forall_forall. intros [m v] _ [<- Hm]. simpl in *. by rewrite Hn in Hm.
  - apply list_filter_iff. intros [m v]. simpl. split; [tauto |]. intros ->. by rewrite Hn.
Qed.

Lemma insert_opt_get name value e k :
  btree_get k (insert_opt name value e) =
    if decide (k = name) then match value with Some v => Some v | None => btree_get k e end
    else btree_get k e.
Proof.
  destruct value; simpl; [rewrite btree_get_insert | ]; by case_decide.
Qed.

Lemma insert_opt_wf name value e : btree_wf e -> btree_wf (insert_opt name value e).
Proof. destruct value; simpl; [apply btree_insert_wf | done]. Qed.

Lemma discovery_environment_wf values bootstrap d p x r :
  btree_wf values -> btree_wf (discovery_environment values bootstrap d p x r).
Proof.
  intros Hwf. unfold discovery_environment. repeat apply insert_opt_wf.
  apply btree_insert_wf. by repeat apply btree_remove_wf.
Qed.

Lemma discovery_environment_get values bootstrap d p x r k :
  btree_get k (discovery_environment values bootstrap d p x r) =
    if k =s READY_FILE_ENV then r
    else if k =s OPT_IN_ENV then (fun _ => OPT_IN_VALUE) <$> r
    else if k =s PEER_PROXY_ENV then x
    else if k =s DIRECTORY_FILE_ENV then snd <$> p
    else if k =s ADVERTISEMENT_FILE_ENV then fst <$> p
    else if k =s DISCOVERY_FILE_ENV then d
    else if k =s RUNTIME_INSTANCE_ID_ENV then Some (rb_runtime_instance_id bootstrap)
    else btree_get k values.
Proof.
  unfold discovery_environment. rewrite !insert_opt_get, btree_get_insert, !btree_get_remove.
  repeat match goal with |- context [k =s ?n] =>
    destruct (str_eqb_spec k n) as [->|?]; [destruct d, p, x, r; reflexivity |] end.
  repeat (case_decide; [done |]). done.
Qed.

(** The helper's own value for a name it owns. *)
Definition helper_value (bootstrap : RuntimeBootstrapResponse) (discovery : option string)
    (direct_peer : option (string * string)) (peer_proxy application_ready : option string)
    (n : string) : option string :=
  if n =s RUNTIME_INSTANCE_ID_ENV then Some (rb_runtime_instance_id bootstrap)
  else if n =s DISCOVERY_FILE_ENV then discovery
  else if n =s ADVERTISEMENT_FILE_ENV then fst <$> direct_peer
  else if n =s DIRECTORY_FILE_ENV then snd <$> direct_peer
  else if n =s PEER_PROXY_ENV then peer_proxy
  else if n =s OPT_IN_ENV then (fun _ => OPT_IN_VALUE) <$> application_ready
  else if n =s READY_FILE_ENV then application_ready
  else None.

Lemma discovery_environment_owned values bootstrap d p x r n :
  n ∈ HELPER_OWNED ->
  btree_get n (discovery_environment values bootstrap d p x r) = helper_value bootstrap d p x r n.
Proof.
  intros Hown. rewrite discovery_environment_get. unfold HELPER_OWNED in Hown.
  repeat (apply elem_of_cons in Hown as [->|Hown]; [reflexivity |]). by apply not_elem_of_nil in Hown.
Qed.

Lemma discovery_environment_other values bootstrap d p x r n :
  n ∉ HELPER_OWNED ->
  btree_get n (discovery_environment values bootstrap d p x r) = btree_get n values.
Proof.
  intros Hown. rewrite discovery_environment_get.
  repeat (case_match; [reflect_bool; subst n; exfalso; apply Hown; by apply names_contain_spec |]). done.
Qed.

Lemma protected_not_owned n : n ∈ PROTECTED_ENV_NAMES -> n ∉ HELPER_OWNED ++ REPAIRED.
Proof.
  intros Hp Hq. apply names_contain_spec in Hp. apply names_contain_spec in Hq.
  unfold PROTECTED_ENV_NAMES, HELPER_OWNED, REPAIRED, names_contain in *. cbn [existsb app] in *.
  repeat (apply orb_true_iff in Hp as [Hp|Hp]; [apply str_eqb_eq in Hp as ->; vm_compute in Hq; done |]). done.
Qed.

Lemma owned_not_repaired n : n ∈ HELPER_OWNED -> n ∉ REPAIRED.
Proof.
  intros Hp Hq. apply names_contain_spec in Hp. apply names_contain_spec in Hq.
  unfold HELPER_OWNED, REPAIRED, names_contain in *. cbn [existsb] in *.
  repeat (apply orb_true_iff in Hp as [Hp|Hp]; [apply str_eqb_eq in Hp as ->; vm_compute in Hq; done |]). done.
Qed.

(** The values of the signed runtime environment carry no protected name. *)
Lemma signed_never_protected values n :
  env_values_safe values -> n ∈ PROTECTED_ENV_NAMES -> btree_get n values = None.
Proof.
  intros [_ Hall] Hp. destruct (btree_get n values) as [v|] eqn:Hv; [| done]. exfalso.
  apply btree_get_Some_in in Hv. rewrite Forall_forall in Hall.
  destruct (Hall _ Hv) as (_ & Hnot & _). by apply Hnot.
Qed.

Section end_to_end.
Context {E : Type} `{!Guest E}.

(** The entries of one name that a process gets, given the values handed to the
    supervisor, what it inherited and the repairs recorded. *)
Definition expected_entries (inherited : environment) (values : list (string * string)) (owned : string -> option string)
    (normalized : list Normalization) (n : string) : environment :=
  if names_contain HELPER_OWNED n then option_list ((fun v => (n, v)) <$> owned n)
  else match btree_get n values with
  | Some v => [(n, v)]
  | None =>
      if names_contain PROTECTED_ENV_NAMES n then []
      else if recorded n normalized then repaired n (entries n inherited) else entries n inherited
  end.

Lemma customer_environment_entries inherited values bootstrap d p x r :
  btree_wf values ->
  returns (fun res => forall n,
      entries n res.1 = expected_entries inherited values (helper_value bootstrap d p x r) res.2 n /\
      (recorded n res.2 = true -> n ∈ REPAIRED /\ btree_get n values = None))
    (customer_environment inherited (discovery_environment values bootstrap d p x r)).
Proof.
  intros Hwf. set (rt := discovery_environment _ _ _ _ _ _).
  assert (Hnd : NoDup (map fst rt)) by (by apply btree_wf_NoDup, discovery_environment_wf).
  unfold customer_environment. eapply returns_bind; [apply normalize_exact |].
  intros [e0 norm] He0. cbn [fst snd] in He0. apply returns_ret. intros n. cbn [fst snd].
  destruct (He0 n) as [Hent Hrec]. split.
  - rewrite merge_entries by done. unfold expected_entries, rt.
    destruct (names_contain HELPER_OWNED n) eqn:Hown.
    + apply names_contain_spec in Hown as Hin. rewrite discovery_environment_owned by done.
      destruct (helper_value bootstrap d p x r n); [done |]. cbn [fmap option_fmap option_map option_list].
      rewrite Hent. destruct (recorded n norm) eqn:Hn.
      { destruct (Hrec eq_refl) as [HR _]. by apply owned_not_repaired in Hin. }
      unfold sanitize_environment_values. rewrite !entries_filter_names, Hown. destruct (names_contain PROTECTED_ENV_NAMES n); reflexivity.
    + apply names_contain_false in Hown as Hout. rewrite discovery_environment_other by done.
      destruct (btree_get n values); [done |]. rewrite Hent.
      unfold sanitize_environment_values. rewrite !entries_filter_names, Hown.
      destruct (names_contain PROTECTED_ENV_NAMES n) eqn:Hp; [| done].
      destruct (recorded n norm) eqn:Hn; [| done]. destruct (Hrec eq_refl) as [HR _].
      apply names_contain_spec, protected_not_owned in Hp. set_solver.
  - intros Hn. destruct (Hrec Hn) as [HR Hs]. split; [done |].
    destruct (decide (n ∈ HELPER_OWNED)) as [Hown|Hown]; [by apply owned_not_repaired in Hown |].
    unfold btree_contains_key, rt in Hs. rewrite discovery_environment_other in Hs by done.
    by destruct (btree_get n values).
Qed.

(** C38: the environment the customer process is started with, name by name.
    A name the helper owns has the helper's value or no entry; a value handed to
    the supervisor is the only entry of any other name; what is inherited under a
    protected name is dropped; a recorded repair, possible only for [TMPDIR],
    [LD_PRELOAD], [PATH] and [HOME] when no value was handed for them, drops
    [LD_PRELOAD] or puts the default in the first entry; every other inherited
    entry passes through unchanged.  A protected name is thus present exactly when
    the handed values have it, which those of the signed runtime environment never
    do. *)
Theorem customer_environment_end_to_end inherited values bootstrap discovery peer proxy ready t env normalized t' :
  btree_wf values ->
  customer_environment inherited (discovery_environment values bootstrap discovery peer proxy ready) t =
    (Some (env, normalized), t') ->
  (forall n, n ∈ HELPER_OWNED ->
    entries n env = option_list ((fun v => (n, v)) <$> helper_value bootstrap discovery peer proxy ready n)) /\
  (forall n v, n ∉ HELPER_OWNED -> btree_get n values = Some v -> entries n env = [(n, v)]) /\
  (forall n, n ∈ PROTECTED_ENV_NAMES -> btree_get n values = None -> entries n env = []) /\
  (forall n, n ∈ PROTECTED_ENV_NAMES -> env_values_safe values -> entries n env = []) /\
  (forall n, recorded n normalized = true ->
    n ∈ REPAIRED /\ btree_get n values = None /\ entries n env = repaired n (entries n inherited)) /\
  (forall n, n ∉ PROTECTED_ENV_NAMES ++ HELPER_OWNED -> btree_get n values = None -> recorded n normalized = false ->
    entries n env = entries n inherited).
Proof.
  intros Hwf Hrun. pose proof (customer_environment_entries inherited _ _ _ _ _ _ Hwf _ _ _ Hrun) as Hent.
  cbn [fst snd] in Hent. unfold expected_entries in Hent.
  assert (Hprot : forall n, n ∈ PROTECTED_ENV_NAMES -> btree_get n values = None -> entries n env = []).
  { intros n Hp Hv. destruct (Hent n) as [-> _]. apply protected_not_owned in Hp as Hout.
    rewrite (proj2 (names_contain_false HELPER_OWNED n)) by set_solver. rewrite Hv.
    by rewrite (proj2 (names_contain_spec _ _) Hp). }
  split_and!; [| | exact Hprot | | |].
  - intros n Hown. destruct (Hent n) as [-> _]. by rewrite (proj2 (names_contain_spec _ _) Hown).
  - intros n v Hown Hv. destruct (Hent n) as [-> _]. by rewrite (proj2 (names_contain_false _ _) Hown), Hv.
  - intros n Hp Hsafe. by apply Hprot, signed_never_protected.
  - intros n Hr. destruct (Hent n) as [-> Hrec]. destruct (Hrec Hr) as [HR Hv]. split_and!; [done | done |].
    rewrite Hv, Hr. rewrite (proj2 (names_contain_false HELPER_OWNED n)) by (intros Ho; by apply owned_not_repaired in Ho).
    rewrite (proj2 (names_contain_false PROTECTED_ENV_NAMES n)); [done |].
    intros Hp. apply protected_not_owned in Hp. set_solver.
  - intros n Hnot Hv Hr. destruct (Hent n) as [-> _].
    rewrite (proj2 (names_contain_false HELPER_OWNED n)) by set_solver.
    rewrite Hv, (proj2 (names_contain_false PROTECTED_ENV_NAMES n)) by set_solver. by rewrite Hr.
Qed.

End end_to_end.

(** ** Guest validity *)

(** [Command::envs] after [env_clear]: the last entry of a name is the one the
    child sees. *)
Definition child_lookup (e : environment) (name : string) : option string :=
  snd <$> last (entries name e).

Lemma child_lookup_first name (e : environment) :
  (length (entries name e) <= 1)%nat -> child_lookup e name = lookup e name.
Proof.
  intros Hlen. rewrite lookup_entries. unfold child_lookup.
  destruct (entries name e) as [|x [|y l]]; simpl in *; [done | done | lia].
Qed.

Lemma child_lookup_entries name e e' :
  entries name e = entries name e' -> child_lookup e name = child_lookup e' name.
Proof. unfold child_lookup. by intros ->. Qed.

Lemma entries_set_length name v e :
  (length (entries name e) <= 1)%nat -> (length (entries name (set e name v)) <= 1)%nat.
Proof.
  unfold entries. induction e as [|[n x] e IH]; cbn [set].
  - intros _. by rewrite filter_cons_True.
  - destruct (str_eqb_spec n name) as [->|Hn].
    + by rewrite !filter_cons_True.
    + by rewrite !filter_cons_False.
Qed.

Section guest_validity.
Context {E : Type} `{!Guest E}.

(** What the guest confirmed about a value the customer will see. *)
Definition tmpdir_valid (t : list E) (v : string) : Prop :=
  v = DEFAULT_TMPDIR \/ guest_ev (GuestWritable v true) ∈ t.
Definition preload_valid (t : list E) (v : string) : Prop :=
  forall entry, entry ∈ split (fun b => byte_is 32 b || byte_is 58 b) v ->
    bytes_any (byte_is 47) entry = true -> guest_ev (GuestFile entry true) ∈ t.

Lemma normalize_tmpdir_valid signed e t r t' :
  signed TMPDIR = false -> normalize_tmpdir signed e t = (Some r, t') ->
  (forall v, lookup r.1 TMPDIR = Some v -> tmpdir_valid t' v) /\
  ((length (entries TMPDIR e) <= 1)%nat -> (length (entries TMPDIR r.1) <= 1)%nat).
Proof.
  intros Hs. unfold normalize_tmpdir. rewrite Hs.
  unfold mbind, io_bind, is_writable_directory, is_directory, create_sticky_directory, ask, mret, io_ret.
  destruct (lookup e TMPDIR) as [v0|] eqn:Hl; [| intros [= <- <-]; simpl; by rewrite Hl].
  destruct (on_writable t v0) eqn:Hw.
  - intros [= <- <-]. simpl. rewrite Hl. split; [| done]. intros v [= <-]. right. apply elem_of_cons. by left.
  - intros Hrun. assert (r.1 = set e TMPDIR DEFAULT_TMPDIR) as ->
      by (repeat case_match; simplify_eq/=; done).
    split; [| by apply entries_set_length]. rewrite lookup_set_eq. intros v [= <-]. by left.
Qed.

Lemma all_resolve_emits l : emits (fun _ : E => True) (all_resolve l).
Proof. induction l as [|x l IH]; unfold all_resolve, is_file in *; solve_emits; done. Qed.

Lemma normalize_preload_emits signed e : emits (fun _ : E => True) (normalize_preload signed e).
Proof.
  unfold normalize_preload, preload_resolves.
  solve_emits; try done; apply all_resolve_emits.
Qed.

Lemma all_resolve_valid l t t' :
  all_resolve l t = (Some true, t') ->
  forall entry, entry ∈ l -> bytes_any (byte_is 47) entry = true -> guest_ev (GuestFile entry true) ∈ t'.
Proof.
  revert t. induction l as [|x l IH]; intros t; simpl; [set_solver |].
  destruct (bytes_any (byte_is 47) x) eqn:Hx; simpl.
  - unfold is_file, mbind, io_bind, ask. destruct (on_file t x) eqn:Hf; [| done].
    intros Hrun entry [->|Hin]%elem_of_cons Hslash; [| by eapply IH].
    destruct (emits_grows _ _ _ _ _ (all_resolve_emits l) Hrun) as [es ->]. set_solver.
  - intros Hrun entry [->|Hin]%elem_of_cons Hslash; [congruence | by eapply IH].
Qed.

Lemma normalize_preload_valid signed e t r t' :
  signed LD_PRELOAD = false -> normalize_preload signed e t = (Some r, t') ->
  (forall v, lookup r.1 LD_PRELOAD = Some v -> preload_valid t' v) /\
  ((length (entries LD_PRELOAD e) <= 1)%nat -> (length (entries LD_PRELOAD r.1) <= 1)%nat).
Proof.
  intros Hs. unfold normalize_preload. rewrite Hs. unfold mbind, io_bind, mret, io_ret.
  destruct (lookup e LD_PRELOAD) as [v0|] eqn:Hl; [| intros [= <- <-]; simpl; by rewrite Hl].
  unfold preload_resolves. destruct (all_resolve _ t) as [[[]|] t1] eqn:Hrun; [| | done].
  - intros [= <- <-]. simpl. rewrite Hl. split; [| done]. intros v [= <-] entry Hin Hslash.
    eapply all_resolve_valid; [exact Hrun | | done]. apply list_elem_of_filter. split; [| done].
    by destruct entry.
  - intros [= <- <-]. cbn [fst]. rewrite lookup_entries, entries_retain_eq. split; [done | simpl; lia].
Qed.

(** What the guest cannot use is not handed on.  With distinct inherited
    names and neither name signed, the [TMPDIR] the child sees is [/tmp] or a
    directory the guest reported writable, and every path in the [LD_PRELOAD]
    it sees was reported to be a file. *)
Theorem normalize_guest_valid inherited signed t r t' :
  (length (entries TMPDIR inherited) <= 1)%nat -> (length (entries LD_PRELOAD inherited) <= 1)%nat ->
  signed TMPDIR = false -> signed LD_PRELOAD = false ->
  normalize_customer_environment inherited signed t = (Some r, t') ->
  (forall v, child_lookup r.1 TMPDIR = Some v -> tmpdir_valid t' v) /\
  (forall v, child_lookup r.1 LD_PRELOAD = Some v -> preload_valid t' v).
Proof.
  intros Ht Hp Hst Hsp Hrun. unfold normalize_customer_environment, mbind, io_bind, mret, io_ret in Hrun.
  destruct (normalize_tmpdir signed inherited t) as [[[e1 c1]|] t1] eqn:H1; [| done].
  destruct (normalize_preload signed e1 t1) as [[[e2 c2]|] t2] eqn:H2; [| done].
  pose proof (normalize_tmpdir_repairs _ _ _ _ _ H1) as [R1 _].
  pose proof (normalize_preload_repairs _ _ _ _ _ H2) as R2.
  pose proof (normalize_path_repairs signed e2) as [R3 _].
  destruct (normalize_path signed e2) as [e3 c3].
  pose proof (normalize_home_repairs signed e3) as [R4 _].
  destruct (normalize_home signed e3) as [e4 c4]. injection Hrun as <- <-. cbn [fst].
  apply normalize_tmpdir_valid in H1 as [V1 L1]; [| done]. cbn [fst] in *.
  destruct (emits_grows _ _ _ _ _ (normalize_preload_emits signed e1) H2) as [es Hgrow].
  apply normalize_preload_valid in H2 as [V2 L2]; [| done]. cbn [fst] in *.
  assert (Hkeep : forall n, n <> PATH -> n <> HOME -> entries n e4 = entries n e2).
  { intros n Hn3 Hn4. pose proof (repairs_entries _ _ _ _ n R4 (or_introl Hn4)) as A4.
    pose proof (repairs_entries _ _ _ _ n R3 (or_introl Hn3)) as A3. simpl in *. congruence. }
  assert (E1 : entries TMPDIR e2 = entries TMPDIR e1)
    by exact (repairs_entries _ _ _ _ TMPDIR R2 ltac:(left; discriminate)).
  assert (E0 : entries LD_PRELOAD e1 = entries LD_PRELOAD inherited)
    by exact (repairs_entries _ _ _ _ LD_PRELOAD R1 ltac:(left; discriminate)).
  split; intros v Hv.
  - rewrite (child_lookup_entries _ _ e1) in Hv by (rewrite Hkeep by discriminate; exact E1).
    rewrite child_lookup_first in Hv by auto.
    destruct (V1 v Hv) as [|Hin]; [by left | right]. subst t2. set_solver.
  - rewrite (child_lookup_entries _ _ e2) in Hv by (by rewrite Hkeep by discriminate).
    rewrite child_lookup_first in Hv by (apply L2; by rewrite E0). by apply V2.
Qed.

End guest_validity.

(** ** Examples *)

(** A guest with a writable [/tmp] and [/work] and one library. *)
Definition sample_guest : Guest guest_event :=
  {| guest_ev := fun e => e;
     on_directory := fun _ p => (p =s "/tmp") || (p =s "/work");
     on_writable := fun _ p => (p =s "/tmp") || (p =s "/work");
     on_file := fun _ p => p =s "/usr/lib/known.so";
     on_create_sticky := fun _ _ => true |}.

Definition sample_inherited : environment :=
  [("LISKOV_BOOTSTRAP", "secret"); ("TMPDIR", "/data/user/0/cache");
   ("LD_PRELOAD", "/usr/lib/known.so:/missing.so"); ("LISKOV_PEER_PROXY", "forged"); ("LANG", "C")].

Definition unsigned_names (name : string) : bool := false.

Lemma normalize_touches_only_four_witness :
  exists r t', @normalize_customer_environment _ sample_guest sample_inherited unsigned_names [] = (Some r, t') /\
    entries "LANG" r.1 = [("LANG", "C")].
Proof.
  assert (Hrun : exists r t', @normalize_customer_environment _ sample_guest sample_inherited unsigned_names []
    = (Some r, t')) by (do 2 eexists; vm_compute; reflexivity).
  destruct Hrun as (r & t' & Hrun). exists r, t'. split; [exact Hrun |].
  apply (@normalize_touches_only_four _ sample_guest _ _ _ _ _ Hrun). left.
  intros Hin. apply names_contain_spec in Hin. discriminate Hin.
Defined.

Lemma normalize_guest_valid_witness :
  exists r t', @normalize_customer_environment _ sample_guest sample_inherited unsigned_names [] = (Some r, t') /\
    child_lookup r.1 TMPDIR = Some DEFAULT_TMPDIR /\ @tmpdir_valid _ sample_guest t' DEFAULT_TMPDIR.
Proof.
  assert (Hrun : exists r t', @normalize_customer_environment _ sample_guest sample_inherited unsigned_names []
    = (Some r, t') /\ child_lookup r.1 TMPDIR = Some DEFAULT_TMPDIR)
    by (do 2 eexists; split; vm_compute; reflexivity).
  destruct Hrun as (r & t' & Hrun & Htmp). exists r, t'. split; [exact Hrun |]. split; [exact Htmp |].
  refine (proj1 (@normalize_guest_valid _ sample_guest _ _ _ _ _ _ _ _ _ Hrun) _ Htmp);
    [vm_compute; lia | vm_compute; lia | reflexivity | reflexivity].
Defined.

Lemma sample_env_values_wf : btree_wf sample_env_values.
Proof. repeat constructor. Defined.

Lemma sample_env_values_safe : env_values_safe sample_env_values.
Proof. apply env_values_decide. reflexivity. Defined.

Lemma customer_environment_end_to_end_witness :
  exists env normalized t',
    @customer_environment _ sample_guest sample_inherited
      (discovery_environment sample_env_values sample_env_bootstrap None None None None) [] =
      (Some (env, normalized), t') /\
    entries "LISKOV_BOOTSTRAP" env = [] /\ entries "API_URL" env = [("API_URL", "https://api.test")] /\
    entries "LISKOV_PEER_PROXY" env = [] /\ entries "LANG" env = [("LANG", "C")] /\
    entries "TMPDIR" env = [("TMPDIR", "/tmp")] /\ entries "LD_PRELOAD" env = [].
Proof.
  assert (Hrun : exists env normalized t', @customer_environment _ sample_guest sample_inherited
      (discovery_environment sample_env_values sample_env_bootstrap None None None None) [] =
      (Some (env, normalized), t') /\ recorded "TMPDIR" normalized = true /\
      recorded "LD_PRELOAD" normalized = true /\ recorded "LANG" normalized = false)
    by (do 3 eexists; split_and!; vm_compute; reflexivity).
  destruct Hrun as (env & normalized & t' & Hrun & Htmp & Hpre & Hlang).
  exists env, normalized, t'. split; [exact Hrun |].
  destruct (@customer_environment_end_to_end _ sample_guest sample_inherited sample_env_values
    sample_env_bootstrap None None None None [] env normalized t' sample_env_values_wf Hrun)
    as (Howned & Hsigned & _ & Hprot & Hrep & Hkept).
  split_and!.
  - apply Hprot; [by apply names_contain_spec | exact sample_env_values_safe].
  - apply Hsigned; [by apply names_contain_false | reflexivity].
  - apply (Howned "LISKOV_PEER_PROXY"). by apply names_contain_spec.
  - apply (Hkept "LANG"); [by apply names_contain_false | reflexivity | exact Hlang].
  - apply (Hrep "TMPDIR" Htmp).
  - apply (Hrep "LD_PRELOAD" Hpre).
Defined.

(** A name inherited twice is repaired in its first entry only, while the child
    sees the last one. *)
Lemma duplicate_tmpdir_not_repaired :
  exists r t', @normalize_customer_environment _ sample_guest
      [("TMPDIR", "/data/one"); ("TMPDIR", "/data/two")] unsigned_names [] = (Some r, t') /\
    child_lookup r.1 TMPDIR = Some "/data/two".
Proof. do 2 eexists. split; vm_compute; reflexivity. Qed.
