(* ===== verification/Sampler.v ===== *)
(** * Background readers

    The request/reply protocol shared by [thermal.rs] and [memory.rs]: one
    worker thread, a request and a reply channel of capacity one, and a
    supervisor that waits at most a budget for each reply.  The supervisor's
    side is a program over channel operations; the channels and the worker
    thread are a transition system it runs against. *)
From stdpp Require Import prelude.
From S2P Require Import Prelude.

Section sampler.
Context {R S : Type}.

(** A reply carries the request it answers, so that a reply to an earlier
    request can be told from a current one. *)
Abbreviation reply := (R * S)%type.

Inductive try_recv_result := GotReply (x : reply) | RecvEmpty | RecvDisconnected.
Inductive try_send_result := Sent | SendFull | SendDisconnected.
Inductive recv_timeout_result := Received (x : reply) | RecvTimeout | TimeoutDisconnected.

Inductive chan_event :=
| ETryRecv (r : try_recv_result)
| ETrySend (request : R) (r : try_send_result)
| ERecvTimeout (r : recv_timeout_result).

Class Channels := {
  on_try_recv : list chan_event -> try_recv_result;
  on_try_send : list chan_event -> R -> try_send_result;
  on_recv_timeout : list chan_event -> recv_timeout_result
}.

Record SampleResult := {
  sample_summary : option reply;
  sample_alive : bool;
  sample_outstanding : bool
}.

Section program.
Context `{!Channels}.

(** The second half of [Worker::sample_within], entered with no read
    outstanding. *)
Definition request_and_wait (request : R) : io chan_event SampleResult :=
  sent ← ask (fun t => on_try_send t request) (ETrySend request);
  match sent with
  | SendFull => mret {| sample_summary := None; sample_alive := true; sample_outstanding := false |}
  | SendDisconnected => mret {| sample_summary := None; sample_alive := false; sample_outstanding := false |}
  | Sent =>
      received ← ask on_recv_timeout ERecvTimeout;
      mret match received with
      | Received x => {| sample_summary := Some x; sample_alive := true; sample_outstanding := false |}
      | RecvTimeout => {| sample_summary := None; sample_alive := true; sample_outstanding := true |}
      | TimeoutDisconnected => {| sample_summary := None; sample_alive := false; sample_outstanding := false |}
      end
  end.

(** [Worker::sample_within]. *)
Definition worker_sample_within (outstanding : bool) (request : R) : io chan_event SampleResult :=
  if outstanding then
    late ← ask on_try_recv ETryRecv;
    match late with
    | GotReply _ => request_and_wait request
    | RecvEmpty => mret {| sample_summary := None; sample_alive := true; sample_outstanding := true |}
    | RecvDisconnected => mret {| sample_summary := None; sample_alive := false; sample_outstanding := true |}
    end
  else request_and_wait request.

(** [ThermalSampler::sample_within] and [MemorySampler::sample_within]: the
    handle is [Some outstanding] while the worker is usable. *)
Definition sampler_sample_within (worker : option bool) (request : R)
    : io chan_event (option reply * option bool) :=
  match worker with
  | None => mret (None, None)
  | Some outstanding =>
      r ← worker_sample_within outstanding request;
      mret (sample_summary r,
            if sample_alive r then Some (sample_outstanding r) else None)
  end.

(** Successive samples of one sampler. *)
Fixpoint sample_all (worker : option bool) (requests : list R)
    : io chan_event (list (option reply) * option bool) :=
  match requests with
  | [] => mret ([], worker)
  | request :: requests =>
      '(summary, worker) ← sampler_sample_within worker request;
      '(summaries, worker) ← sample_all worker requests;
      mret (summary :: summaries, worker)
  end.

End program.

(** ** The worker thread and the channels *)

Inductive thread :=
| Waiting
| Reading (request : R)
| Replying (x : reply)
| Gone.

Record channels := {
  queued : option R;
  worker_thread : thread;
  answered : option reply
}.

Definition idle_channels : channels := {| queued := None; worker_thread := Waiting; answered := None |}.

(** [for request in requested { reply.send(read(request)) }], with a crash
    possible at any point. *)
Inductive thread_step : channels -> channels -> Prop :=
| thread_takes r a :
    thread_step {| queued := Some r; worker_thread := Waiting; answered := a |}
                {| queued := None; worker_thread := Reading r; answered := a |}
| thread_reads q r s a :
    thread_step {| queued := q; worker_thread := Reading r; answered := a |}
                {| queued := q; worker_thread := Replying (r, s); answered := a |}
| thread_sends q x :
    thread_step {| queued := q; worker_thread := Replying x; answered := None |}
                {| queued := q; worker_thread := Waiting; answered := Some x |}
| thread_crashes q w a :
    thread_step {| queued := q; worker_thread := w; answered := a |}
                {| queued := None; worker_thread := Gone; answered := a |}.

(** What the channel operations may answer, and their effect. *)
Inductive chan_step : channels -> chan_event -> channels -> Prop :=
| step_try_recv q w x :
    chan_step {| queued := q; worker_thread := w; answered := Some x |} (ETryRecv (GotReply x))
              {| queued := q; worker_thread := w; answered := None |}
| step_try_recv_empty q w :
    w <> Gone ->
    chan_step {| queued := q; worker_thread := w; answered := None |} (ETryRecv RecvEmpty)
              {| queued := q; worker_thread := w; answered := None |}
| step_try_recv_gone q :
    chan_step {| queued := q; worker_thread := Gone; answered := None |} (ETryRecv RecvDisconnected)
              {| queued := q; worker_thread := Gone; answered := None |}
| step_try_send r w a :
    w <> Gone ->
    chan_step {| queued := None; worker_thread := w; answered := a |} (ETrySend r Sent)
              {| queued := Some r; worker_thread := w; answered := a |}
| step_try_send_full r q w a :
    w <> Gone ->
    chan_step {| queued := Some q; worker_thread := w; answered := a |} (ETrySend r SendFull)
              {| queued := Some q; worker_thread := w; answered := a |}
| step_try_send_gone r q a :
    chan_step {| queued := q; worker_thread := Gone; answered := a |} (ETrySend r SendDisconnected)
              {| queued := q; worker_thread := Gone; answered := a |}
| step_recv q w x :
    chan_step {| queued := q; worker_thread := w; answered := Some x |} (ERecvTimeout (Received x))
              {| queued := q; worker_thread := w; answered := None |}
| step_recv_timeout q w :
    w <> Gone ->
    chan_step {| queued := q; worker_thread := w; answered := None |} (ERecvTimeout RecvTimeout)
              {| queued := q; worker_thread := w; answered := None |}
| step_recv_gone q :
    chan_step {| queued := q; worker_thread := Gone; answered := None |} (ERecvTimeout TimeoutDisconnected)
              {| queued := q; worker_thread := Gone; answered := None |}.

(** A history of channel operations, newest first, that the channels admit with
    the thread running in between. *)
Inductive admits : channels -> list chan_event -> channels -> Prop :=
| admits_nil c c' : rtc thread_step c c' -> admits c [] c'
| admits_cons c es c1 e c2 c' :
    admits c es c1 -> chan_step c1 e c2 -> rtc thread_step c2 c' -> admits c (e :: es) c'.

(** * Properties *)

(** The requests in flight: queued, being read, being sent or answered. *)
Definition in_flight (c : channels) : list R :=
  option_list (queued c)
  ++ match worker_thread c with Reading r => [r] | Replying x => [x.1] | _ => [] end
  ++ option_list (fst <$> answered c).

(** Between two samples a usable sampler has nothing in flight, or the one read
    it is still owed. *)
Definition sampler_inv (outstanding : bool) (c : channels) : Prop :=
  (length (in_flight c) <= if outstanding then 1 else 0)%nat.

Lemma thread_step_in_flight c c' : thread_step c c' -> in_flight c' ⊆+ in_flight c.
Proof.
  destruct 1 as [r a | q r s a | q x | q w a]; unfold in_flight; simpl; rewrite ?app_nil_r.
  - done.
  - done.
  - done.
  - apply submseteq_inserts_l. by apply submseteq_inserts_l.
Qed.

Lemma thread_steps_in_flight c c' : rtc thread_step c c' -> in_flight c' ⊆+ in_flight c.
Proof.
  induction 1 as [|c c1 c' Hstep _ IH]; [done |]. etrans; [exact IH |]. by apply thread_step_in_flight.
Qed.

Lemma in_flight_nil c : in_flight c = [] -> queued c = None /\ answered c = None.
Proof. unfold in_flight. destruct (queued c), (answered c); simpl; [done | done | | done].
  by destruct (worker_thread c). Qed.

Lemma admits_app c es2 es1 c' :
  admits c (es2 ++ es1) c' -> exists c1, admits c es1 c1 /\ admits c1 es2 c'.
Proof.
  revert c'. induction es2 as [|e es2 IH]; intros c'; simpl.
  - intros Hc. exists c'. split; [done |]. constructor. done.
  - inversion 1 as [|? ? c1 ? c2 ? Hc Hstep Hrest]; subst.
    destruct (IH _ Hc) as (c0 & H1 & H2). exists c0. split; [done |]. by econstructor.
Qed.

Lemma admits_nil_in_flight c c' : admits c [] c' -> in_flight c' ⊆+ in_flight c.
Proof. inversion 1; subst. by apply thread_steps_in_flight. Qed.

Lemma admits_one c e c' :
  admits c [e] c' -> exists c1 c2, in_flight c1 ⊆+ in_flight c /\ chan_step c1 e c2 /\
    in_flight c' ⊆+ in_flight c2.
Proof.
  inversion 1 as [|? ? c1 ? c2 ? Hc Hstep Hrest]; subst. exists c1, c2.
  eauto using admits_nil_in_flight, thread_steps_in_flight.
Qed.

Section sample_properties.
Context `{!Channels}.

(** With nothing in flight the request is accepted, and what comes back within
    the budget answers it. *)
Lemma request_and_wait_fresh request t r es c c' :
  in_flight c = [] -> request_and_wait request t = (Some r, es ++ t) -> admits c es c' ->
  (forall x, sample_summary r = Some x -> x.1 = request) /\
  (forall q, ETrySend q SendFull ∉ es) /\
  (sample_alive r = true -> sampler_inv (sample_outstanding r) c').
Proof.
  intros Hc. unfold request_and_wait, mbind, io_bind, ask, mret, io_ret. set (sent := on_try_send t request).
  assert (Hsend : forall c1 c2, in_flight c1 ⊆+ in_flight c -> chan_step c1 (ETrySend request sent) c2 ->
    sent <> SendFull /\ (sent = Sent -> in_flight c2 = [request])).
  { intros c1 c2 Hin Hstep. rewrite Hc in Hin. apply submseteq_nil_r in Hin.
    inversion Hstep; subst; [| by apply in_flight_nil in Hin as [? _] |]; split; try congruence.
    intros _. unfold in_flight in *. simpl in *. by rewrite Hin. }
  destruct sent eqn:Hsent; intros [= <- Hes] Hadm; simpl.
  - change (ERecvTimeout ?x :: ETrySend request Sent :: t) with ([ERecvTimeout x; ETrySend request Sent] ++ t) in Hes.
    set (got := on_recv_timeout _) in *. apply app_inv_tail in Hes as <-.
    apply (admits_app _ [_] [_]) in Hadm as (c1 & H1 & H2).
    apply admits_one in H1 as (a1 & a2 & Ha1 & Hs1 & Ha2). destruct (Hsend _ _ Ha1 Hs1) as [_ Hreq].
    rewrite Hreq in Ha2 by done. apply admits_one in H2 as (b1 & b2 & Hb1 & Hs2 & Hb2).
    assert (Hb : in_flight b1 ⊆+ [request]) by (by etrans).
    split_and!.
    + destruct got; try done. intros y [= <-]. inversion Hs2; subst. unfold in_flight in Hb. simpl in Hb.
      apply list_elem_of_singleton. eapply elem_of_submseteq; [| exact Hb]. set_solver.
    + intros q. destruct got; set_solver.
    + unfold sampler_inv. apply submseteq_length in Hb, Hb2. destruct got; inversion Hs2; subst;
        unfold in_flight in *; simpl in *; rewrite ?length_app in *; simpl in *; try done; lia.
  - apply (app_inv_tail t [_]) in Hes as <-. apply admits_one in Hadm as (a1 & a2 & Ha1 & Hs1 & _).
    by destruct (Hsend _ _ Ha1 Hs1).
  - apply (app_inv_tail t [_]) in Hes as <-. split_and!; [done | set_solver | done].
Qed.

Lemma request_and_wait_emits request : emits (fun _ : chan_event => True) (request_and_wait request).
Proof. unfold request_and_wait. solve_emits; done. Qed.

Lemma worker_sample_fresh outstanding request t r es c c' :
  sampler_inv outstanding c ->
  worker_sample_within outstanding request t = (Some r, es ++ t) -> admits c es c' ->
  (forall x, sample_summary r = Some x -> x.1 = request) /\
  (forall q, ETrySend q SendFull ∉ es) /\
  (sample_alive r = true -> sampler_inv (sample_outstanding r) c').
Proof.
  unfold worker_sample_within. destruct outstanding; intros Hinv Hrun Hadm.
  2:{ eapply request_and_wait_fresh; [| done..]. apply length_zero_iff_nil. unfold sampler_inv in Hinv. lia. }
  unfold mbind, io_bind, ask, mret, io_ret in Hrun. destruct (on_try_recv t) as [x| |] eqn:Hlate.
  - destruct (emits_grows _ _ _ _ _ (request_and_wait_emits request) Hrun) as [es2 Hes].
    change (es ++ t = es2 ++ [ETryRecv (GotReply x)] ++ t) in Hes. rewrite app_assoc in Hes.
    apply app_inv_tail in Hes as ->. rewrite <- app_assoc in Hrun.
    apply admits_app in Hadm as (c1 & H1 & H2). apply admits_one in H1 as (a1 & a2 & Ha1 & Hs & Ha2).
    assert (Hempty : in_flight c1 = []).
    { unfold sampler_inv in Hinv. apply submseteq_length in Ha1, Ha2. inversion Hs; subst.
      apply length_zero_iff_nil. unfold in_flight in *. simpl in *. rewrite ?length_app in *. simpl in *. lia. }
    destruct (request_and_wait_fresh _ _ _ _ _ _ Hempty Hrun H2) as (Hf & Hfull & Hi).
    split_and!; [done | | done]. intros q. specialize (Hfull q). set_solver.
  - injection Hrun as <- Hes. apply (app_inv_tail t [_]) in Hes as <-. simpl.
    split_and!; [done | set_solver |]. intros _. apply admits_one in Hadm as (a1 & a2 & Ha1 & Hs & Ha2).
    unfold sampler_inv in *. apply submseteq_length in Ha1, Ha2. inversion Hs; subst. lia.
  - injection Hrun as <- Hes. apply (app_inv_tail t [_]) in Hes as <-. simpl.
    split_and!; [done | set_solver | done].
Qed.

Lemma sampler_sample_emits worker request :
  emits (fun _ : chan_event => True) (sampler_sample_within worker request).
Proof.
  unfold sampler_sample_within, worker_sample_within.
  solve_emits; try done; apply request_and_wait_emits.
Qed.

Lemma sample_all_emits worker requests : emits (fun _ : chan_event => True) (sample_all worker requests).
Proof.
  revert worker. induction requests as [|q requests IH]; intros worker; simpl; [apply emits_ret |].
  apply emits_bind; [apply sampler_sample_emits |]. intros [summary worker'].
  apply emits_bind; [apply IH |]. intros [summaries w]. apply emits_ret.
Qed.

Definition handle_inv (worker : option bool) (c : channels) : Prop :=
  match worker with Some outstanding => sampler_inv outstanding c | None => True end.

Lemma sampler_sample_fresh worker request t summary worker' es c c' :
  handle_inv worker c ->
  sampler_sample_within worker request t = (Some (summary, worker'), es ++ t) -> admits c es c' ->
  (forall x, summary = Some x -> x.1 = request) /\ (forall q, ETrySend q SendFull ∉ es) /\
  handle_inv worker' c'.
Proof.
  destruct worker as [outstanding|]; simpl.
  - unfold mbind, io_bind, mret, io_ret.
    destruct (worker_sample_within outstanding request t) as [[r|] t1] eqn:Hrun; [| done].
    intros Hinv [= <- <- ->] Hadm.
    destruct (worker_sample_fresh _ _ _ _ _ _ _ Hinv Hrun Hadm) as (? & ? & ?).
    split_and!; [done | done |]. destruct (sample_alive r); simpl; auto.
  - intros _ [= <- <- Hes] _. apply (app_inv_tail t []) in Hes as <-. split_and!; [done | set_solver | done].
Qed.

(** C39: a reading is never stale.  Whatever the worker thread and the channels
    do, including a hung or crashed reader, each sample that returns a summary
    returns the reply to its own request; the request queue is never full, so
    at most one read is ever in flight. *)
Theorem samples_are_fresh requests worker t summaries worker' es c c' :
  handle_inv worker c ->
  sample_all worker requests t = (Some (summaries, worker'), es ++ t) -> admits c es c' ->
  Forall2 (fun request summary => forall x, summary = Some x -> x.1 = request) requests summaries /\
  (forall q, ETrySend q SendFull ∉ es) /\ handle_inv worker' c'.
Proof.
  revert worker t summaries es c. induction requests as [|request requests IH];
    intros worker t summaries es c Hinv Hrun Hadm; simpl in Hrun.
  - injection Hrun as <- <- Hes. apply (app_inv_tail t []) in Hes as <-.
    split_and!; [constructor | set_solver |]. destruct worker as [o|]; [| done]. simpl in *.
    unfold sampler_inv in *. apply admits_nil_in_flight, submseteq_length in Hadm. lia.
  - unfold mbind, io_bind, mret, io_ret in Hrun.
    destruct (sampler_sample_within worker request t) as [[[summary w1]|] t1] eqn:H1; [| done].
    destruct (emits_grows _ _ _ _ _ (sampler_sample_emits worker request) H1) as [es1 ->].
    destruct (sample_all w1 requests (es1 ++ t)) as [[[rest w2]|] t2] eqn:H2; [| done].
    destruct (emits_grows _ _ _ _ _ (sample_all_emits w1 requests) H2) as [es2 ->].
    injection Hrun as <- <- Hes. rewrite app_assoc in Hes. apply app_inv_tail in Hes as <-.
    apply admits_app in Hadm as (c1 & A1 & A2).
    destruct (sampler_sample_fresh _ _ _ _ _ _ _ _ Hinv H1 A1) as (Hf & Hfull & Hi).
    destruct (IH _ _ _ _ _ Hi H2 A2) as (Hall & Hfull2 & Hi2).
    split_and!; [by constructor | | done]. intros q. specialize (Hfull q). specialize (Hfull2 q). set_solver.
Qed.

End sample_properties.
End sampler.

#[global] Arguments chan_event : clear implicits.
#[global] Arguments Channels : clear implicits.

(** A worker that answers the first request late and the second in time. *)
Definition sample_channels : Channels nat bool :=
  {| on_try_recv := fun _ => GotReply (1, true);
     on_try_send := fun _ _ => Sent;
     on_recv_timeout := fun t => match t with [_] => RecvTimeout | _ => Received (2, false) end |}.

Lemma sample_channels_admits :
  admits idle_channels
    [ERecvTimeout (Received (2, false)); ETrySend 2 Sent; ETryRecv (GotReply (1, true));
     ERecvTimeout RecvTimeout; ETrySend 1 Sent] (idle_channels (R := nat) (S := bool)).
Proof.
  assert (Hread : forall (n : nat) (b : bool) a, rtc thread_step
    {| queued := Some n; worker_thread := Waiting; answered := a |}
    {| queued := None; worker_thread := Replying (n, b); answered := a |}).
  { intros n b a. eapply rtc_l; [constructor |]. eapply rtc_l; [constructor |]. done. }
  eapply admits_cons; [| apply (step_recv None Waiting) | done].
  eapply admits_cons; [| by apply (step_try_send 2 Waiting None) |
    eapply rtc_r; [apply (Hread 2 false) | constructor]].
  eapply admits_cons; [| apply (step_try_recv None Waiting) | done].
  eapply admits_cons; [| by apply (step_recv_timeout None (Replying (1, true))) |
    apply rtc_once; constructor].
  eapply admits_cons; [by apply admits_nil | by apply (step_try_send 1 Waiting None) | apply Hread].
Defined.

Lemma samples_are_fresh_witness :
  Forall2 (fun request summary => forall x, summary = Some x -> x.1 = request) [1; 2]
    [None; Some (2, false)].
Proof.
  refine (proj1 (@samples_are_fresh nat bool sample_channels [1; 2] (Some false) []
    [None; Some (2, false)] (Some false) _ idle_channels idle_channels _ _ sample_channels_admits)).
  - vm_compute. lia.
  - reflexivity.
Defined.
