(* ===== verification/Thermal.v ===== *)
(** * Device temperatures

    [thermal.rs]: the classification of thermal zones and their reduction to
    the nine scalar attributes of a health beat.  What the files of one zone
    contain, and what the class directory lists, are inputs. *)
From stdpp Require Import prelude strings.
From S2P Require Import Prelude Json.

Local Open Scope Z_scope.

Definition THERMAL_READ_BUDGET : Z := from_millis 200.
Definition MAX_ZONES : nat := 256.
Definition MAX_ZONE_FILE_BYTES : Z := 64.
Definition SENSOR_SENTINEL_CEILING : Z := -30000.

Definition THERMAL_SUMMARY_ATTRS : list string :=
  ["thermalCpuMaxMillic"; "thermalGpuMaxMillic"; "thermalBatteryMillic"; "thermalSkinMaxMillic";
   "thermalPackageMillic"; "thermalDdrMillic"; "thermalChargerMillic"; "thermalZoneCount";
   "thermalDeniedCount"].

Record ThermalSummary := {
  cpu_max_millic : option Z;
  gpu_max_millic : option Z;
  battery_millic : option Z;
  skin_max_millic : option Z;
  package_millic : option Z;
  ddr_millic : option Z;
  charger_millic : option Z;
  zone_count : Z;
  thermal_denied_count : Z
}.

Definition default_thermal : ThermalSummary :=
  {| cpu_max_millic := None; gpu_max_millic := None; battery_millic := None;
     skin_max_millic := None; package_millic := None; ddr_millic := None; charger_millic := None;
     zone_count := 0; thermal_denied_count := 0 |}.

(** [Map::insert] of each attribute in turn. *)
Definition insert_attrs (keys : list string) (values : list Value) (attrs : list (string * Value))
    : list (string * Value) :=
  foldl (fun attrs kv => btree_insert kv.1 kv.2 attrs) attrs (zip keys values).

Definition thermal_write_attrs (s : ThermalSummary) (attrs : list (string * Value))
    : list (string * Value) :=
  insert_attrs THERMAL_SUMMARY_ATTRS
    [jopt_int (cpu_max_millic s); jopt_int (gpu_max_millic s); jopt_int (battery_millic s);
     jopt_int (skin_max_millic s); jopt_int (package_millic s); jopt_int (ddr_millic s);
     jopt_int (charger_millic s); jint (zone_count s); jint (thermal_denied_count s)] attrs.

Inductive Zone :=
| Readable (kind : string) (millic : Z)
| Unreadable
| Unparsed.

Inductive Group := Cpu | Gpu | Battery | QcomBattery | Skin | Package | Ddr | Charger.

#[global] Instance Group_eq_dec : EqDecision Group.
Proof. solve_decision. Defined.

Definition group (kind : string) : option Group :=
  if (kind =s "vbat") || contains "ibat" kind || contains "bcl" kind then None
  else if starts_with "cpu-" kind && ends_with "-usr" kind then Some Cpu
  else if starts_with "gpuss-" kind && ends_with "-usr" kind then Some Gpu
  else if kind =s "battery" then Some Battery
  else if kind =s "qcom_battery" then Some QcomBattery
  else if (kind =s "front_temp") || (kind =s "back_temp") || (kind =s "quiet_therm") then Some Skin
  else if kind =s "msm_therm" then Some Package
  else if kind =s "ddr-usr" then Some Ddr
  else if kind =s "chg_therm" then Some Charger
  else None.

Definition raise (slot : option Z) (millic : Z) : option Z :=
  Some match slot with None => millic | Some current => Z.max current millic end.

(** The mutable slot [group] selects: a field of the summary, or the local
    [qcom_battery]. *)
Definition raise_group (g : Group) (millic : Z) (acc : ThermalSummary * option Z)
    : ThermalSummary * option Z :=
  let '(s, q) := acc in
  let upd cpu gpu bat skin pkg ddr chg :=
    {| cpu_max_millic := cpu; gpu_max_millic := gpu; battery_millic := bat; skin_max_millic := skin;
       package_millic := pkg; ddr_millic := ddr; charger_millic := chg;
       zone_count := zone_count s; thermal_denied_count := thermal_denied_count s |} in
  let '(Build_ThermalSummary cpu gpu bat skin pkg ddr chg _ _) := s in
  match g with
  | Cpu => (upd (raise cpu millic) gpu bat skin pkg ddr chg, q)
  | Gpu => (upd cpu (raise gpu millic) bat skin pkg ddr chg, q)
  | Battery => (upd cpu gpu (raise bat millic) skin pkg ddr chg, q)
  | QcomBattery => (s, raise q millic)
  | Skin => (upd cpu gpu bat (raise skin millic) pkg ddr chg, q)
  | Package => (upd cpu gpu bat skin (raise pkg millic) ddr chg, q)
  | Ddr => (upd cpu gpu bat skin pkg (raise ddr millic) chg, q)
  | Charger => (upd cpu gpu bat skin pkg ddr (raise chg millic), q)
  end.

Definition with_counts (s : ThermalSummary) (zones denied : Z) : ThermalSummary :=
  {| cpu_max_millic := cpu_max_millic s; gpu_max_millic := gpu_max_millic s;
     battery_millic := battery_millic s; skin_max_millic := skin_max_millic s;
     package_millic := package_millic s; ddr_millic := ddr_millic s;
     charger_millic := charger_millic s; zone_count := zones; thermal_denied_count := denied |}.

Definition with_battery (s : ThermalSummary) (b : option Z) : ThermalSummary :=
  {| cpu_max_millic := cpu_max_millic s; gpu_max_millic := gpu_max_millic s;
     battery_millic := b; skin_max_millic := skin_max_millic s;
     package_millic := package_millic s; ddr_millic := ddr_millic s;
     charger_millic := charger_millic s; zone_count := zone_count s;
     thermal_denied_count := thermal_denied_count s |}.

Definition summarize_zone (acc : ThermalSummary * option Z) (zone : Zone) : ThermalSummary * option Z :=
  let '(s, q) := acc in
  match zone with
  | Unreadable => (with_counts s (zone_count s) (saturating_add u32_max (thermal_denied_count s) 1), q)
  | Unparsed => (s, q)
  | Readable kind millic =>
      let s := with_counts s (saturating_add u32_max (zone_count s) 1) (thermal_denied_count s) in
      if millic <=? SENSOR_SENTINEL_CEILING then (s, q)
      else match group kind with
           | Some g => raise_group g millic (s, q)
           | None => (s, q)
           end
  end.

Definition summarize (zones : list Zone) : ThermalSummary :=
  let '(s, q) := foldl summarize_zone (default_thermal, None) zones in
  with_battery s match battery_millic s with Some b => Some b | None => q end.

(** [read_zone], given the bounded reads of [type] and [temp]. *)
Definition read_zone (kind temp : option string) : Zone :=
  match kind, temp with
  | Some kind, Some temp =>
      match parse_i32 (trim temp) with
      | Some millic => Readable (trim kind) millic
      | None => Unparsed
      end
  | _, _ => Unreadable
  end.

(** One directory entry: [None] when it cannot be read, and a name that is
    [None] when it is not UTF-8. *)
Definition dir_entry : Type := option (option string).

(** The zones of a listing and the number of unreadable entries before the
    zone limit is reached. *)
Fixpoint list_zones (found : nat) (entries : list dir_entry) : list string * Z :=
  match entries with
  | [] => ([], 0)
  | entry :: entries =>
      if (MAX_ZONES <=? found)%nat then ([], 0)
      else
        match entry with
        | None =>
            let '(zones, unlisted) := list_zones found entries in
            (zones, saturating_add u32_max unlisted 1)
        | Some name =>
            match opt_filter (starts_with "thermal_zone") name with
            | Some zone =>
                let '(zones, unlisted) := list_zones (S found) entries in (zone :: zones, unlisted)
            | None => list_zones found entries
            end
        end
  end.

(** [read_summary]: [read zone file] is the bounded read of a zone's file. *)
Definition thermal_read_summary (entries : option (list dir_entry))
    (read : string -> string -> option string) : option ThermalSummary :=
  entries ← entries;
  let '(zones, unlisted) := list_zones 0 entries in
  let s := summarize (map (fun zone => read_zone (read zone "type") (read zone "temp")) zones) in
  Some (with_counts s (zone_count s) (saturating_add u32_max (thermal_denied_count s) unlisted)).

(** * Properties *)

(** The readings of a group: the readable zones of that kind that are not
    sentinels. *)
Definition zone_reading (g : Group) (zone : Zone) : option Z :=
  match zone with
  | Readable kind millic =>
      if bool_decide (group kind = Some g) && (SENSOR_SENTINEL_CEILING <? millic) then Some millic else None
  | _ => None
  end.

Definition omax (a b : option Z) : option Z :=
  match a, b with
  | Some x, Some y => Some (Z.max x y)
  | Some x, None => Some x
  | None, b => b
  end.

Definition group_max (g : Group) (zones : list Zone) : option Z :=
  foldr (fun z acc => omax (zone_reading g z) acc) None zones.

Definition is_readable (z : Zone) : bool := match z with Readable _ _ => true | _ => false end.
Definition is_unreadable (z : Zone) : bool := match z with Unreadable => true | _ => false end.
Definition count (p : Zone -> bool) (zones : list Zone) : Z := Z.of_nat (length (List.filter p zones)).

(** The summary as a function of the readings alone. *)
Definition summary_of (zones : list Zone) : ThermalSummary :=
  {| cpu_max_millic := group_max Cpu zones;
     gpu_max_millic := group_max Gpu zones;
     battery_millic :=
       match group_max Battery zones with Some b => Some b | None => group_max QcomBattery zones end;
     skin_max_millic := group_max Skin zones;
     package_millic := group_max Package zones;
     ddr_millic := group_max Ddr zones;
     charger_millic := group_max Charger zones;
     zone_count := Z.min u32_max (count is_readable zones);
     thermal_denied_count := Z.min u32_max (count is_unreadable zones) |}.

Lemma omax_assoc a b c : omax a (omax b c) = omax (omax a b) c.
Proof. destruct a, b, c; simpl; try done. by rewrite Z.max_assoc. Qed.

Lemma omax_comm a b : omax a b = omax b a.
Proof. destruct a, b; simpl; try done. by rewrite Z.max_comm. Qed.

Lemma omax_None_r a : omax a None = a.
Proof. by destruct a. Qed.

Lemma raise_omax slot millic : raise slot millic = omax slot (Some millic).
Proof. by destruct slot. Qed.

Definition slot (g : Group) (acc : ThermalSummary * option Z) : option Z :=
  match g with
  | Cpu => cpu_max_millic acc.1
  | Gpu => gpu_max_millic acc.1
  | Battery => battery_millic acc.1
  | QcomBattery => acc.2
  | Skin => skin_max_millic acc.1
  | Package => package_millic acc.1
  | Ddr => ddr_millic acc.1
  | Charger => charger_millic acc.1
  end.

Lemma slot_raise_group g g' millic acc :
  slot g (raise_group g' millic acc) = if bool_decide (g' = g) then omax (slot g acc) (Some millic) else slot g acc.
Proof. destruct acc as [[] q]. destruct g', g; simpl; by rewrite ?raise_omax. Qed.

Lemma raise_group_counts g millic acc :
  zone_count (raise_group g millic acc).1 = zone_count acc.1 /\
  thermal_denied_count (raise_group g millic acc).1 = thermal_denied_count acc.1.
Proof. destruct acc as [[] q]. by destruct g. Qed.

Lemma slot_step g acc z : slot g (summarize_zone acc z) = omax (slot g acc) (zone_reading g z).
Proof.
  destruct acc as [s q]. destruct z as [kind millic| |]; cbn [summarize_zone zone_reading].
  - rewrite Z.ltb_antisym. destruct (millic <=? SENSOR_SENTINEL_CEILING); cbn [negb].
    + rewrite andb_false_r, omax_None_r. by destruct g.
    + destruct (group kind) as [g'|].
      * rewrite slot_raise_group, andb_true_r. rewrite (bool_decide_ext (Some g' = Some g) (g' = g)) by naive_solver.
        case_bool_decide; rewrite ?omax_None_r; by destruct g.
      * rewrite bool_decide_eq_false_2 by done. simpl. rewrite omax_None_r. by destruct g.
  - rewrite omax_None_r. by destruct g.
  - by rewrite omax_None_r.
Qed.

Lemma slot_fold g acc zones : slot g (foldl summarize_zone acc zones) = omax (slot g acc) (group_max g zones).
Proof.
  revert acc. induction zones as [|z zones IH]; intros acc; simpl; [by rewrite omax_None_r |].
  by rewrite IH, slot_step, omax_assoc.
Qed.

Lemma counts_step acc z :
  zone_count (summarize_zone acc z).1 =
    (if is_readable z then saturating_add u32_max (zone_count acc.1) 1 else zone_count acc.1) /\
  thermal_denied_count (summarize_zone acc z).1 =
    (if is_unreadable z then saturating_add u32_max (thermal_denied_count acc.1) 1
     else thermal_denied_count acc.1).
Proof.
  destruct acc as [s q]. destruct z as [kind millic| |]; cbn [summarize_zone is_readable is_unreadable];
    [| done | done].
  destruct (millic <=? _); [done |]. destruct (group kind) as [g|]; [| done].
  match goal with |- context [raise_group g millic ?acc] =>
    destruct (raise_group_counts g millic acc) as [-> ->] end. done.
Qed.

Lemma counts_fold acc zones :
  0 <= zone_count acc.1 <= u32_max -> 0 <= thermal_denied_count acc.1 <= u32_max ->
  zone_count (foldl summarize_zone acc zones).1 =
    Z.min u32_max (zone_count acc.1 + count is_readable zones) /\
  thermal_denied_count (foldl summarize_zone acc zones).1 =
    Z.min u32_max (thermal_denied_count acc.1 + count is_unreadable zones).
Proof.
  revert acc. induction zones as [|z zones IH]; intros acc Hz Hd; simpl; [unfold count; simpl; lia |].
  destruct (counts_step acc z) as [Ez Ed]. unfold saturating_add in *.
  destruct (IH (summarize_zone acc z)) as [-> ->];
    [rewrite Ez; destruct (is_readable z); lia | rewrite Ed; destruct (is_unreadable z); lia |].
  rewrite Ez, Ed. unfold count. simpl. destruct (is_readable z), (is_unreadable z); simpl; lia.
Qed.

Lemma summarize_summary_of zones : summarize zones = summary_of zones.
Proof.
  unfold summarize, summary_of.
  pose proof (fun g => slot_fold g (default_thermal, None) zones) as Hslot.
  pose proof (counts_fold (default_thermal, None) zones ltac:(done) ltac:(done)) as [Hz Hd].
  destruct (foldl summarize_zone _ zones) as [s q]. unfold with_battery.
  pose proof (Hslot Cpu). pose proof (Hslot Gpu). pose proof (Hslot Battery). pose proof (Hslot QcomBattery).
  pose proof (Hslot Skin). pose proof (Hslot Package). pose proof (Hslot Ddr). pose proof (Hslot Charger).
  clear Hslot. destruct s. simpl in *. by subst.
Qed.

(** The largest reading is attained and bounds the others. *)
Lemma group_max_spec g zones m :
  group_max g zones = Some m <->
  (exists z, z ∈ zones /\ zone_reading g z = Some m) /\
  (forall z m', z ∈ zones -> zone_reading g z = Some m' -> m' <= m).
Proof.
  revert m. induction zones as [|z zones IH]; intros m; simpl; [set_solver |].
  assert (Hnone : group_max g zones = None -> forall z', z' ∈ zones -> zone_reading g z' = None).
  { clear. induction zones as [|z zones IH]; simpl; [set_solver |]. intros Hm z' Hin.
    destruct (zone_reading g z) as [x|] eqn:Hx, (group_max g zones); simpl in Hm; try done.
    apply elem_of_cons in Hin as [->|Hin]; auto. }
  destruct (zone_reading g z) as [x|] eqn:Hx; destruct (group_max g zones) as [y|] eqn:Hy; simpl.
  - destruct (proj1 (IH y) eq_refl) as [(w & Hw & Hwy) Hle]. split.
    + intros [= <-]. split.
      * destruct (Z.max_spec x y) as [[? ->]|[? ->]]; [exists w | exists z]; set_solver.
      * intros z' m' [->|Hin]%elem_of_cons Hm'; [simplify_eq; lia |]. specialize (Hle _ _ Hin Hm'). lia.
    + intros [(w' & [->|Hin]%elem_of_cons & Hm) Hbound].
      * rewrite Hx in Hm. simplify_eq. f_equal. specialize (Hbound w y ltac:(set_solver) Hwy). lia.
      * f_equal. pose proof (Hbound z x ltac:(set_solver) Hx).
        specialize (Hbound w y ltac:(set_solver) Hwy). specialize (Hle _ _ Hin Hm). lia.
  - specialize (Hnone eq_refl). split.
    + intros [= <-]. split; [exists z; set_solver |]. intros z' m' [->|Hin]%elem_of_cons Hm'; [simplify_eq; lia |].
      rewrite Hnone in Hm' by done. done.
    + intros [(w' & [->|Hin]%elem_of_cons & Hm) _]; [congruence |]. rewrite Hnone in Hm by done. done.
  - rewrite (IH m). split; intros [(w & Hw & Hm) Hb]; split.
    + exists w. set_solver.
    + intros z' m' [->|Hin]%elem_of_cons Hm'; [congruence | eauto].
    + apply elem_of_cons in Hw as [->|Hw]; [congruence | by exists w].
    + intros z' m' Hin. apply Hb. set_solver.
  - specialize (Hnone eq_refl). split; [done |]. intros [(w & [->|Hin]%elem_of_cons & Hm) _]; [congruence |].
    rewrite Hnone in Hm by done. done.
Qed.

Lemma zone_reading_spec g z m :
  zone_reading g z = Some m <->
  exists kind, z = Readable kind m /\ group kind = Some g /\ SENSOR_SENTINEL_CEILING < m.
Proof.
  destruct z as [kind millic| |]; simpl; [| naive_solver | naive_solver].
  destruct (bool_decide (group kind = Some g)) eqn:Hg; simpl.
  - apply bool_decide_eq_true in Hg. destruct (Z.ltb_spec SENSOR_SENTINEL_CEILING millic); [naive_solver |].
    split; [done |]. intros (k & [= <- <-] & _ & ?). lia.
  - apply bool_decide_eq_false in Hg. naive_solver.
Qed.

(** [m] is the hottest genuine reading of group [g]. *)
Definition hottest (g : Group) (zones : list Zone) (m : Z) : Prop :=
  (exists kind, Readable kind m ∈ zones /\ group kind = Some g /\ SENSOR_SENTINEL_CEILING < m) /\
  (forall kind m', Readable kind m' ∈ zones -> group kind = Some g -> SENSOR_SENTINEL_CEILING < m' -> m' <= m).

Lemma group_max_hottest g zones m : group_max g zones = Some m <-> hottest g zones m.
Proof.
  rewrite group_max_spec. unfold hottest. split.
  - intros [(z & Hin & (kind & -> & ?)%zone_reading_spec) Hb]. split; [by exists kind |].
    intros k m' Hin' ? ?. eapply Hb; [exact Hin' |]. apply zone_reading_spec. eauto.
  - intros [(kind & Hin & ?) Hb]. split; [exists (Readable kind m); split; [done |]; apply zone_reading_spec; eauto |].
    intros z m' Hin' (k & -> & ? & ?)%zone_reading_spec. eauto.
Qed.

(** Every reported temperature is the hottest genuine reading of its group,
    and a group without one is reported absent: sentinel readings are never
    promoted, and the Qualcomm battery zone is used only without a plain
    battery zone.  The counts are the readable and the unreadable zones,
    saturating at 32 bits. *)
Theorem thermal_summary_correct zones :
  (forall g m, g <> Battery -> g <> QcomBattery ->
     slot g (summarize zones, None) = Some m <-> hottest g zones m) /\
  (forall m, battery_millic (summarize zones) = Some m <->
     hottest Battery zones m \/ (hottest QcomBattery zones m /\ forall b, ~ hottest Battery zones b)) /\
  zone_count (summarize zones) = Z.min u32_max (count is_readable zones) /\
  thermal_denied_count (summarize zones) = Z.min u32_max (count is_unreadable zones).
Proof.
  rewrite summarize_summary_of. split_and!; [| | done | done].
  - intros g m Hb Hq. rewrite <- group_max_hottest. by destruct g.
  - intros m. rewrite <- !group_max_hottest. simpl. destruct (group_max Battery zones) as [b|] eqn:Hb.
    + split; [by left |]. intros [|[_ Hno]]; [done |]. exfalso. by apply (Hno b), group_max_hottest.
    + split; [right | by intros [|[? _]]]. split; [done |]. intros b Hh%group_max_hottest. congruence.
Qed.

Lemma count_permutation p zones zones' : zones ≡ₚ zones' -> count p zones = count p zones'.
Proof.
  unfold count. induction 1; simpl; try done; try congruence.
  - destruct (p x); simpl; lia.
  - by destruct (p y), (p x).
Qed.

Lemma group_max_permutation g zones zones' : zones ≡ₚ zones' -> group_max g zones = group_max g zones'.
Proof.
  unfold group_max. induction 1; simpl; try done; try congruence.
  rewrite !omax_assoc. f_equal. apply omax_comm.
Qed.

(** The summary does not depend on the order in which the kernel lists the
    zones. *)
Theorem thermal_summary_order zones zones' : zones ≡ₚ zones' -> summarize zones = summarize zones'.
Proof.
  intros Hperm. rewrite !summarize_summary_of. unfold summary_of.
  by rewrite !(count_permutation _ zones zones'), !(group_max_permutation _ zones zones').
Qed.

Lemma thermal_summary_order_witness :
  summarize [Readable "battery" 31000; Readable "cpu-0-usr" 45000; Unreadable] =
  summarize [Unreadable; Readable "cpu-0-usr" 45000; Readable "battery" 31000].
Proof.
  apply thermal_summary_order. apply (Permutation_rev
    [Readable "battery" 31000; Readable "cpu-0-usr" 45000; Unreadable]).
Defined.
