(* ===== verification/Memory.v ===== *)
(** * Workload memory

    [memory.rs]: parsing of procfs lines, the walk of the process list, the
    closure of the customer's process tree and the seven scalar attributes of a
    health beat.  Directory listings, file contents and clock readings are
    inputs. *)
From Stdlib Require Import Ascii.
From stdpp Require Import prelude strings gmap sorting.
From S2P Require Import Prelude Json Thermal.

Local Open Scope Z_scope.

Definition MEMORY_READ_BUDGET : Z := from_millis 50.
Definition WALK_BUDGET : Z := from_millis 40.
Definition MAX_PROCESSES : nat := 256.
Definition MAX_MEMINFO_BYTES : Z := 16 * 1024.
Definition MAX_STATUS_BYTES : Z := 4 * 1024.

Definition MEMORY_SUMMARY_ATTRS : list string :=
  ["memTotalKib"; "memAvailableKib"; "swapTotalKib"; "swapFreeKib"; "workloadRssKib";
   "workloadRssPeakKib"; "memDeniedCount"].

Record MemorySummary := {
  mem_total_kib : option Z;
  mem_available_kib : option Z;
  swap_total_kib : option Z;
  swap_free_kib : option Z;
  workload_rss_kib : option Z;
  workload_rss_peak_kib : option Z;
  mem_denied_count : Z
}.

Definition default_memory : MemorySummary :=
  {| mem_total_kib := None; mem_available_kib := None; swap_total_kib := None;
     swap_free_kib := None; workload_rss_kib := None; workload_rss_peak_kib := None;
     mem_denied_count := 0 |}.

Definition with_denied (s : MemorySummary) (denied : Z) : MemorySummary :=
  {| mem_total_kib := mem_total_kib s; mem_available_kib := mem_available_kib s;
     swap_total_kib := swap_total_kib s; swap_free_kib := swap_free_kib s;
     workload_rss_kib := workload_rss_kib s; workload_rss_peak_kib := workload_rss_peak_kib s;
     mem_denied_count := denied |}.

Definition unread : MemorySummary := with_denied default_memory 1.

Definition deny (s : MemorySummary) : MemorySummary :=
  with_denied s (saturating_add u32_max (mem_denied_count s) 1).

Definition memory_write_attrs (s : MemorySummary) (attrs : list (string * Value))
    : list (string * Value) :=
  insert_attrs MEMORY_SUMMARY_ATTRS
    [jopt_int (mem_total_kib s); jopt_int (mem_available_kib s); jopt_int (swap_total_kib s);
     jopt_int (swap_free_kib s); jopt_int (workload_rss_kib s); jopt_int (workload_rss_peak_kib s);
     jint (mem_denied_count s)] attrs.

Record Workload := { root : Z; supervisor : Z }.

(** The rest of the first line that starts with [name:]. *)
Fixpoint find_line (ls : list string) (name : string) : option string :=
  match ls with
  | [] => None
  | l :: ls =>
      match (rest ← strip_prefix name l; strip_prefix ":" rest) with
      | Some rest => Some rest
      | None => find_line ls name
      end
  end.

Definition kib_line (contents name : string) : option Z :=
  line ← find_line (lines contents) name;
  match split_whitespace line with
  | first :: fields =>
      value ← parse_unsigned u64_max first;
      match fields with
      | [unit] => if unit =s "kB" then Some value else None
      | _ => None
      end
  | [] => None
  end.

Definition int_line (contents name : string) : option Z :=
  line ← find_line (lines contents) name;
  match split_whitespace line with
  | first :: _ => parse_unsigned u32_max first
  | [] => None
  end.

Definition wire_kib (value : option Z) (s : MemorySummary) : option Z * MemorySummary :=
  match (v ← value; i32_try_from v) with
  | Some v => (Some v, s)
  | None => (None, deny s)
  end.

(** [meminfo] is the bounded read of [/proc/meminfo]. *)
Definition read_device (meminfo : option string) (s : MemorySummary) : MemorySummary :=
  match meminfo with
  | None => deny s
  | Some text =>
      let '(total, s) := wire_kib (kib_line text "MemTotal") s in
      let '(available, s) := wire_kib (kib_line text "MemAvailable") s in
      let '(swap_total, s) := wire_kib (kib_line text "SwapTotal") s in
      let '(swap_free, s) := wire_kib (kib_line text "SwapFree") s in
      {| mem_total_kib := total; mem_available_kib := available; swap_total_kib := swap_total;
         swap_free_kib := swap_free; workload_rss_kib := workload_rss_kib s;
         workload_rss_peak_kib := workload_rss_peak_kib s; mem_denied_count := mem_denied_count s |}
  end.

(** ** Processes *)

Record Process := {
  parent : option Z;
  pgroup : option Z;
  rss_kib : option Z;
  peak_kib : option Z
}.

(** The outcome of reading a [status] file: its text, a process that is gone
    (not found or [ESRCH]), or another error. *)
Inductive status_file := StatusText (text : string) | StatusMissing | StatusFailed.
Inductive StatusRead := ReadProcess (p : Process) | ProcessGone | ProcessDenied.

Definition read_status (file : status_file) : StatusRead :=
  match file with
  | StatusText text =>
      ReadProcess {| parent := int_line text "PPid"; pgroup := int_line text "NSpgid";
                     rss_kib := kib_line text "VmRSS"; peak_kib := kib_line text "VmHWM" |}
  | StatusMissing => ProcessGone
  | StatusFailed => ProcessDenied
  end.

Inductive Walk := Processes (m : gmap Z Process) | OverBudget | Unlisted.

(** The numeric entries of the listing other than the supervisor, [None] once
    there are more than the bound. *)
Fixpoint list_pids (supervisor : Z) (found : nat) (entries : list dir_entry) (s : MemorySummary)
    : option (list Z) * MemorySummary :=
  match entries with
  | [] => (Some [], s)
  | None :: entries => list_pids supervisor found entries (deny s)
  | Some name :: entries =>
      match (n ← name; parse_unsigned u32_max n) with
      | None => list_pids supervisor found entries s
      | Some pid =>
          if pid =? supervisor then list_pids supervisor found entries s
          else if (found =? MAX_PROCESSES)%nat then (None, s)
          else
            let '(pids, s) := list_pids supervisor (S found) entries s in
            (cons pid <$> pids, s)
      end
  end.

(** [now i] is the clock before the [i]-th status read. *)
Fixpoint read_processes (status : Z -> status_file) (now : nat -> Z) (deadline : Z) (i : nat)
    (pids : list Z) (processes : gmap Z Process) (s : MemorySummary) : Walk * MemorySummary :=
  match pids with
  | [] => (Processes processes, s)
  | pid :: pids =>
      if deadline <=? now i then (OverBudget, s)
      else
        match read_status (status pid) with
        | ReadProcess p => read_processes status now deadline (S i) pids (<[pid := p]> processes) s
        | ProcessGone => read_processes status now deadline (S i) pids processes s
        | ProcessDenied => read_processes status now deadline (S i) pids processes (deny s)
        end
  end.

Definition walk (entries : option (list dir_entry)) (status : Z -> status_file) (now : nat -> Z)
    (supervisor deadline : Z) (s : MemorySummary) : Walk * MemorySummary :=
  match entries with
  | None => (Unlisted, s)
  | Some entries =>
      let '(pids, s) := list_pids supervisor 0 entries s in
      match pids with
      | None => (OverBudget, s)
      | Some pids => read_processes status now deadline 0 pids ∅ s
      end
  end.

(** ** The customer's process tree *)

Definition is_seed (root pid : Z) (p : Process) : bool :=
  (pid =? root) || bool_decide (pgroup p = Some root).

Definition is_descendant (members : gset Z) (pid : Z) (p : Process) : bool :=
  bool_decide (pid ∉ members) && is_some_and (parent p) (fun ppid => bool_decide (ppid ∈ members)).

Definition select (f : Z -> Process -> bool) (processes : gmap Z Process) : gset Z :=
  dom (filter (fun kv => f kv.1 kv.2 = true) processes).

(** [None] is a loop that has not settled within its fuel. *)
Fixpoint tree_loop (fuel : nat) (processes : gmap Z Process) (members : gset Z) : option (gset Z) :=
  match fuel with
  | O => None
  | S fuel =>
      let before := size members in
      let members := members ∪ select (is_descendant members) processes in
      if (size members =? before)%nat then Some members else tree_loop fuel processes members
  end.

(** Each turn that does not settle adds a process. *)
Definition tree (processes : gmap Z Process) (root : Z) : option (gset Z) :=
  tree_loop (S (size processes)) processes (select (is_seed root) processes).

(** The sum of [VmRSS] and the largest [VmHWM]; [None] where indexing the map
    would panic. *)
Fixpoint member_totals (processes : gmap Z Process) (members : list Z) (rss : Z) (peak : option Z)
    : option (Z * option Z) :=
  match members with
  | [] => Some (rss, peak)
  | pid :: members =>
      process ← processes !! pid;
      member_totals processes members
        (saturating_add u64_max rss (default 0 (rss_kib process)))
        match peak_kib process with
        | Some hwm => Some match peak with None => hwm | Some current => Z.max current hwm end
        | None => peak
        end
  end.

Definition with_workload (s : MemorySummary) (rss peak : option Z) : MemorySummary :=
  {| mem_total_kib := mem_total_kib s; mem_available_kib := mem_available_kib s;
     swap_total_kib := swap_total_kib s; swap_free_kib := swap_free_kib s;
     workload_rss_kib := rss; workload_rss_peak_kib := peak;
     mem_denied_count := mem_denied_count s |}.

(** The members are visited in increasing order, as a [BTreeSet] yields them. *)
Definition measure_tree (processes : gmap Z Process) (root : Z) (s : MemorySummary)
    : option MemorySummary :=
  match processes !! root with
  | None => Some s
  | Some p =>
      if opt_is_none (rss_kib p) then Some s
      else
        members ← tree processes root;
        '(rss, peak) ← member_totals processes (merge_sort Z.le (elements members)) 0 None;
        let '(wire_rss, s) := wire_kib (Some rss) s in
        let '(wire_peak, s) := wire_kib peak s in
        Some (with_workload s wire_rss wire_peak)
  end.

Definition read_workload (entries : option (list dir_entry)) (status : Z -> status_file)
    (now : nat -> Z) (workload : Workload) (deadline : Z) (s : MemorySummary) : option MemorySummary :=
  match walk entries status now (supervisor workload) deadline s with
  | (Processes processes, s) => measure_tree processes (root workload) s
  | ((OverBudget | Unlisted), s) => Some (deny s)
  end.

(** [read_summary_by]. *)
Definition memory_read_summary_by (meminfo : option string) (entries : option (list dir_entry))
    (status : Z -> status_file) (now : nat -> Z) (workload : option Workload) (deadline : Z)
    : option MemorySummary :=
  let s := read_device meminfo default_memory in
  match workload with
  | None => Some s
  | Some w => read_workload entries status now w deadline s
  end.

(** * Properties *)

(** The specification of the tree: the root, its process group, and everything
    whose parent is already in. *)
Inductive in_tree (processes : gmap Z Process) (root : Z) : Z -> Prop :=
| in_tree_seed pid p :
    processes !! pid = Some p -> pid = root \/ pgroup p = Some root -> in_tree processes root pid
| in_tree_child pid p ppid :
    processes !! pid = Some p -> parent p = Some ppid -> in_tree processes root ppid ->
    in_tree processes root pid.

Lemma elem_of_select f processes pid :
  pid ∈ select f processes <-> exists p, processes !! pid = Some p /\ f pid p = true.
Proof.
  unfold select. rewrite elem_of_dom. split.
  - intros [p Hp]. apply map_lookup_filter_Some in Hp as [? ?]. eauto.
  - intros (p & ? & ?). exists p. by apply map_lookup_filter_Some.
Qed.

Lemma select_subset f processes : select f processes ⊆ dom processes.
Proof. intros pid (p & Hp & _)%elem_of_select. by apply elem_of_dom_2 in Hp. Qed.

Lemma elem_of_seeds processes root pid :
  pid ∈ select (is_seed root) processes <->
  exists p, processes !! pid = Some p /\ (pid = root \/ pgroup p = Some root).
Proof.
  rewrite elem_of_select. unfold is_seed. setoid_rewrite orb_true_iff.
  setoid_rewrite Z.eqb_eq. by setoid_rewrite bool_decide_eq_true.
Qed.

Lemma elem_of_descendants processes members pid :
  pid ∈ select (is_descendant members) processes <->
  exists p ppid, processes !! pid = Some p /\ parent p = Some ppid /\ ppid ∈ members /\ pid ∉ members.
Proof.
  rewrite elem_of_select. unfold is_descendant. split.
  - intros (p & Hp & [Hn Hpar]%andb_true_iff). apply bool_decide_eq_true in Hn.
    destruct (parent p) as [ppid|] eqn:E; [| done]. apply bool_decide_eq_true in Hpar. eauto 10.
  - intros (p & ppid & Hp & E & Hin & Hn). exists p. split; [done |]. rewrite E. simpl.
    by rewrite !bool_decide_eq_true_2.
Qed.

(** Members are sound, contain the seeds and lie in the map. *)
Definition tree_inv (processes : gmap Z Process) (root : Z) (members : gset Z) : Prop :=
  select (is_seed root) processes ⊆ members /\ members ⊆ dom processes /\
  forall pid, pid ∈ members -> in_tree processes root pid.

Lemma tree_inv_start processes root : tree_inv processes root (select (is_seed root) processes).
Proof.
  split_and!; [done | apply select_subset |].
  intros pid (p & Hp & Hs)%elem_of_seeds. by eapply in_tree_seed.
Qed.

Lemma tree_inv_step processes root members :
  tree_inv processes root members ->
  tree_inv processes root (members ∪ select (is_descendant members) processes).
Proof.
  intros (Hseed & Hdom & Hin). split_and!; [set_solver | |].
  - apply union_subseteq. split; [done | apply select_subset].
  - intros pid [?|(p & ppid & Hp & Hpar & Hm & _)%elem_of_descendants]%elem_of_union; [by apply Hin |].
    by eapply in_tree_child; [| | apply Hin].
Qed.

Lemma tree_closed processes root members :
  tree_inv processes root members -> select (is_descendant members) processes ⊆ members ->
  forall pid, pid ∈ members <-> in_tree processes root pid.
Proof.
  intros (Hseed & _ & Hin) Hclosed pid. split; [apply Hin |].
  induction 1 as [pid p Hp Hs | pid p ppid Hp Hpar _ IH].
  - apply Hseed, elem_of_seeds. eauto.
  - destruct (decide (pid ∈ members)) as [|Hn]; [done |].
    apply Hclosed, elem_of_descendants. exists p, ppid. done.
Qed.

Lemma tree_loop_spec processes root fuel members :
  tree_inv processes root members -> (size processes < fuel + size members)%nat ->
  exists final, tree_loop fuel processes members = Some final /\ final ⊆ dom processes /\
    forall pid, pid ∈ final <-> in_tree processes root pid.
Proof.
  revert members. induction fuel as [|fuel IH]; intros members Hinv Hfuel.
  - destruct Hinv as (_ & Hdom & _). apply subseteq_size in Hdom. rewrite size_dom in Hdom. lia.
  - simpl. pose proof (tree_inv_step _ _ _ Hinv) as Hinv'.
    destruct (Nat.eqb_spec (size (members ∪ select (is_descendant members) processes)) (size members))
      as [Heq|Hne].
    + assert (Hsame : members ≡ members ∪ select (is_descendant members) processes)
        by (apply set_subseteq_size_equiv; [set_solver | lia]).
      eexists. split; [done |]. split; [apply Hinv' |]. intros pid. rewrite <- Hsame.
      apply tree_closed; [done | set_solver].
    + apply IH; [done |].
      pose proof (subseteq_size members (members ∪ select (is_descendant members) processes)
        ltac:(set_solver)). lia.
Qed.

Lemma tree_spec processes root :
  exists final, tree processes root = Some final /\ final ⊆ dom processes /\
    forall pid, pid ∈ final <-> in_tree processes root pid.
Proof. apply tree_loop_spec; [apply tree_inv_start | lia]. Qed.

(** C37: the tree loop always settles, and what it returns is exactly the
    customer's processes: the root, the members of its process group and every
    process whose chain of parents leads to one of them, even when the links
    form a cycle. *)
Theorem tree_is_reachability processes root :
  exists members, tree processes root = Some members /\
    forall pid, pid ∈ members <-> in_tree processes root pid.
Proof. destruct (tree_spec processes root) as (members & ? & _ & ?). eauto. Qed.

(** ** Totals *)

Definition process_rss (processes : gmap Z Process) (pid : Z) : Z :=
  default 0 (p ← processes !! pid; rss_kib p).
Definition process_peak (processes : gmap Z Process) (pid : Z) : option Z :=
  p ← processes !! pid; peak_kib p.

Definition total_rss (processes : gmap Z Process) (pids : list Z) : Z :=
  foldr (fun pid acc => process_rss processes pid + acc) 0 pids.
Definition largest_peak (processes : gmap Z Process) (pids : list Z) : option Z :=
  foldr (fun pid acc => omax (process_peak processes pid) acc) None pids.

(** The values are unsigned. *)
Definition processes_wf (processes : gmap Z Process) : Prop :=
  map_Forall (fun _ p => (forall r, rss_kib p = Some r -> 0 <= r) /\ (forall h, peak_kib p = Some h -> 0 <= h))
    processes.

Lemma process_rss_nonneg processes pid : processes_wf processes -> 0 <= process_rss processes pid.
Proof.
  intros Hwf. unfold process_rss. destruct (processes !! pid) as [p|] eqn:Hp; simpl; [| done].
  destruct (rss_kib p) as [r|] eqn:Hr; simpl; [| done]. exact (proj1 (Hwf _ _ Hp) r Hr).
Qed.

Lemma total_rss_nonneg processes pids : processes_wf processes -> 0 <= total_rss processes pids.
Proof.
  intros Hwf. induction pids as [|pid pids IH]; simpl; [done |].
  pose proof (process_rss_nonneg processes pid Hwf). lia.
Qed.

Lemma member_totals_spec processes pids rss peak :
  processes_wf processes -> Forall (fun pid => pid ∈ dom processes) pids -> 0 <= rss <= u64_max ->
  member_totals processes pids rss peak =
    Some (Z.min u64_max (rss + total_rss processes pids), omax peak (largest_peak processes pids)).
Proof.
  intros Hwf. revert rss peak. induction pids as [|pid pids IH]; intros rss peak Hdom Hrss; simpl.
  { rewrite omax_None_r. f_equal. f_equal. lia. }
  apply Forall_cons in Hdom as [[p Hp]%elem_of_dom Hdom].
  pose proof (process_rss_nonneg processes pid Hwf) as Hnn. pose proof (total_rss_nonneg processes pids Hwf).
  unfold process_rss, process_peak in *. rewrite Hp in *. simpl in *. unfold saturating_add. rewrite IH by (done || lia).
  f_equal. f_equal; [lia |]. rewrite omax_assoc. f_equal. by destruct (peak_kib p), peak.
Qed.

Lemma total_rss_permutation processes pids pids' :
  pids ≡ₚ pids' -> total_rss processes pids = total_rss processes pids'.
Proof. unfold total_rss. induction 1; simpl; lia. Qed.

Lemma largest_peak_permutation processes pids pids' :
  pids ≡ₚ pids' -> largest_peak processes pids = largest_peak processes pids'.
Proof.
  unfold largest_peak. induction 1; simpl; try done; try congruence.
  rewrite !omax_assoc. f_equal. apply omax_comm.
Qed.

(** A KiB count as it goes on the wire. *)
Definition on_wire (v : option Z) : option Z := opt_filter (fun z => z <=? i32_max) v.

Lemma wire_kib_spec v s :
  (forall z, v = Some z -> 0 <= z) ->
  wire_kib v s = (on_wire v, if opt_is_none (on_wire v) then deny s else s).
Proof.
  intros Hv. unfold wire_kib, on_wire, i32_try_from. destruct v as [z|]; simpl; [| done].
  specialize (Hv z eq_refl). rewrite (proj2 (Z.leb_le i32_min z)) by (unfold i32_min; lia). simpl.
  by destruct (z <=? i32_max).
Qed.

Lemma largest_peak_nonneg processes pids z :
  processes_wf processes -> largest_peak processes pids = Some z -> 0 <= z.
Proof.
  intros Hwf. revert z. induction pids as [|pid pids IH]; intros z; simpl; [done |].
  assert (Hone : forall h, process_peak processes pid = Some h -> 0 <= h).
  { unfold process_peak. destruct (processes !! pid) as [p|] eqn:Hp; simpl; [| done].
    exact (proj2 (Hwf _ _ Hp)). }
  destruct (process_peak processes pid) as [h|], (largest_peak processes pids) as [l|]; simpl;
    intros [= <-]; try specialize (Hone _ eq_refl); try specialize (IH _ eq_refl); lia.
Qed.

(** With a live root, the reported workload memory is the sum of the
    resident sizes and the largest peak over exactly the customer's process
    tree; nothing is clamped, a value over [i32::MAX] is null and counted as one
    failed read. *)
Theorem workload_memory_correct processes root p rss s :
  processes_wf processes -> processes !! root = Some p -> rss_kib p = Some rss ->
  is_u32 (mem_denied_count s) ->
  exists members total peak s',
    NoDup members /\ (forall pid, pid ∈ members <-> in_tree processes root pid) /\
    total = total_rss processes members /\ peak = largest_peak processes members /\
    measure_tree processes root s = Some s' /\
    workload_rss_kib s' = (if total <=? i32_max then Some total else None) /\
    workload_rss_peak_kib s' = on_wire peak /\
    mem_denied_count s' = Z.min u32_max (mem_denied_count s
      + (if total <=? i32_max then 0 else 1) + (if opt_is_none (on_wire peak) then 1 else 0)).
Proof.
  intros Hwf Hroot Hrss Hden. destruct (tree_spec processes root) as (members & Htree & Hdom & Hin).
  set (sorted := merge_sort Z.le (elements members)).
  assert (Hperm : sorted ≡ₚ elements members) by apply merge_sort_Permutation.
  eexists (elements members), _, _, _. split; [apply NoDup_elements |].
  split; [intros pid; rewrite elem_of_elements; apply Hin |]. split; [done |]. split; [done |].
  unfold measure_tree. rewrite Hroot, Hrss. simpl. rewrite Htree. simpl. fold sorted.
  rewrite member_totals_spec; [| done | | unfold u64_max; lia].
  2:{ apply Forall_forall. intros pid Hp. rewrite Hperm, elem_of_elements in Hp. by apply Hdom. }
  simpl. rewrite (total_rss_permutation _ _ _ Hperm), (largest_peak_permutation _ _ _ Hperm).
  pose proof (total_rss_nonneg processes (elements members) Hwf) as Htot.
  set (total := total_rss _ _) in *. set (peak := largest_peak _ _) in *.
  rewrite wire_kib_spec by (intros z [= <-]; unfold u64_max; lia).
  rewrite wire_kib_spec by (intros z Hz; by eapply largest_peak_nonneg).
  assert (Hw : on_wire (Some (Z.min u64_max total)) = if total <=? i32_max then Some total else None).
  { unfold on_wire. simpl. unfold u64_max, i32_max.
    destruct (Z.leb_spec total (2 ^ 31 - 1)).
    - rewrite (proj2 (Z.leb_le _ _)) by lia. f_equal. lia.
    - rewrite (proj2 (Z.leb_gt _ _)) by lia. done. }
  rewrite Z.add_0_l, Hw. split; [done |]. split; [done |]. split; [done |].
  unfold with_workload, deny, with_denied, saturating_add, is_u32 in *. fold total peak. simpl.
  destruct (total <=? i32_max), (opt_is_none (on_wire peak)); simpl; lia.
Qed.

Definition sample_process (ppid rss : Z) : Process :=
  {| parent := Some ppid; pgroup := None; rss_kib := Some rss; peak_kib := Some (rss + 10) |}.
(** A child of the root, and two strangers that are each other's parent. *)
Definition sample_processes : gmap Z Process :=
  <[100 := sample_process 1 500]> (<[101 := sample_process 100 40]>
    (<[7 := sample_process 8 9]> (<[8 := sample_process 7 9]> ∅))).

Lemma workload_memory_correct_witness :
  processes_wf sample_processes /\
  exists s', measure_tree sample_processes 100 default_memory = Some s' /\
    workload_rss_peak_kib s' = Some 510.
Proof.
  assert (Hwf : processes_wf sample_processes).
  { unfold sample_processes. repeat apply map_Forall_insert_2; [.. | apply map_Forall_empty];
      simpl; split; intros ? [= <-]; lia. }
  split; [exact Hwf |].
  destruct (workload_memory_correct sample_processes 100 (sample_process 1 500) 500 default_memory
    Hwf eq_refl eq_refl ltac:(vm_compute; split; congruence))
    as (members & total & peak & s' & _ & _ & _ & _ & Hrun & _).
  exists s'. split; [exact Hrun |].
  assert (Hval : workload_rss_peak_kib <$> measure_tree sample_processes 100 default_memory = Some (Some 510))
    by (vm_compute; reflexivity).
  rewrite Hrun in Hval. simpl in Hval. congruence.
Defined.
