(* ===== verification/Monitor.v ===== *)
(** * Monitors

    A monitor is a deterministic automaton over events that may reject; running
    it over a history is an abstract account of what the program has done.
    [guarded P m Q D] is a triple on monitor states: from a history accepted in
    a state satisfying [P], [m] extends it to an accepted history, in a state
    satisfying [Q a] when it returns [a], and [D] when it used up a loop
    bound. *)
From stdpp Require Import prelude.
From S2P Require Import Prelude.

Section monitor.
Context {E S : Type} (step : S -> E -> option S) (start : S).

Fixpoint monitor (t : list E) : option S :=
  match t with
  | [] => Some start
  | e :: t => s ← monitor t; step s e
  end.

Definition guarded {A} (P : S -> Prop) (m : io E A) (Q : A -> S -> Prop) (D : S -> Prop) : Prop :=
  forall t s, monitor t = Some s -> P s ->
    match m t with
    | (Some a, t') => exists s', monitor t' = Some s' /\ Q a s'
    | (None, t') => exists s', monitor t' = Some s' /\ D s'
    end.

Lemma guarded_ret {A} (a : A) P (Q : A -> S -> Prop) D :
  (forall s, P s -> Q a s) -> guarded P (mret a) Q D.
Proof. intros HQ t s Ht Hs. exists s. split; [done | by apply HQ]. Qed.

Lemma guarded_bind {A B} P R (m : io E A) (k : A -> io E B) Q D :
  guarded P m R D -> (forall a, guarded (R a) (k a) Q D) -> guarded P (m ≫= k) Q D.
Proof.
  intros Hm Hk t s Ht Hs. specialize (Hm t s Ht Hs). unfold mbind, io_bind.
  destruct (m t) as [[a|] t']; [| done]. destruct Hm as (s' & Ht' & Hs'). by eapply Hk.
Qed.

Lemma guarded_conseq {A} (P P' : S -> Prop) (m : io E A) (Q Q' : A -> S -> Prop) (D D' : S -> Prop) :
  guarded P' m Q' D' -> (forall s, P s -> P' s) -> (forall a s, Q' a s -> Q a s) ->
  (forall s, D' s -> D s) -> guarded P m Q D.
Proof.
  intros Hm HP HQ HD t s Ht Hs. specialize (Hm t s Ht (HP s Hs)).
  destruct (m t) as [[a|] t']; destruct Hm as (s' & ? & ?); eauto.
Qed.

Lemma guarded_pre {A} (P P' : S -> Prop) (m : io E A) Q D :
  guarded P' m Q D -> (forall s, P s -> P' s) -> guarded P m Q D.
Proof. intros Hm HP. eapply guarded_conseq; eauto. Qed.

Lemma guarded_emit P (e : E) (Q : unit -> S -> Prop) D :
  (forall s, P s -> exists s', step s e = Some s' /\ Q tt s') -> guarded P (emit e) Q D.
Proof.
  intros He t s Ht Hs. simpl. destruct (He s Hs) as (s' & Hstep & HQ). exists s'.
  split; [| done]. simpl. by rewrite Ht.
Qed.

Lemma guarded_ask {A} P (oracle : list E -> A) ev (Q : A -> S -> Prop) D :
  (forall a s, P s -> exists s', step s (ev a) = Some s' /\ Q a s') -> guarded P (ask oracle ev) Q D.
Proof.
  intros He t s Ht Hs. simpl. destruct (He (oracle t) s Hs) as (s' & Hstep & HQ). exists s'.
  split; [| done]. simpl. by rewrite Ht.
Qed.

(** The same, using what the oracle may answer. *)
Lemma guarded_ask_where {A} (F : A -> Prop) P (oracle : list E -> A) ev (Q : A -> S -> Prop) D :
  (forall t, F (oracle t)) ->
  (forall a s, F a -> P s -> exists s', step s (ev a) = Some s' /\ Q a s') -> guarded P (ask oracle ev) Q D.
Proof.
  intros HF He t s Ht Hs. simpl. destruct (He (oracle t) s (HF t) Hs) as (s' & Hstep & HQ). exists s'.
  split; [| done]. simpl. by rewrite Ht.
Qed.

Lemma guarded_loop {X A} (I : X -> S -> Prop) (body : X -> io E (X + A)) Q D fuel x :
  (forall x, guarded (I x) (body x) (fun r s => match r with inl x' => I x' s | inr a => Q a s end) D) ->
  (forall x s, I x s -> D s) ->
  guarded (I x) (loop fuel body x) Q D.
Proof.
  intros Hbody HD. revert x. induction fuel as [|fuel IH]; intros x; simpl.
  - intros t s Ht Hs. simpl. eauto.
  - eapply guarded_bind; [apply Hbody |]. intros [x'|a]; [apply IH | by apply guarded_ret].
Qed.

Lemma guarded_or {A} (P P' : S -> Prop) (m : io E A) Q D :
  guarded P m Q D -> guarded P' m Q D -> guarded (fun s => P s \/ P' s) m Q D.
Proof. intros H1 H2 t s Ht [Hs|Hs]; [exact (H1 t s Ht Hs) | exact (H2 t s Ht Hs)]. Qed.

Lemma guarded_exists {A X} (P : X -> S -> Prop) (m : io E A) Q D :
  (forall x, guarded (P x) m Q D) -> guarded (fun s => exists x, P x s) m Q D.
Proof. intros Hm t s Ht [x Hs]. exact (Hm x t s Ht Hs). Qed.

(** A fact about the world that holds throughout. *)
Lemma guarded_pure {A} (F : Prop) (P : S -> Prop) (m : io E A) Q D :
  (F -> guarded P m Q D) -> guarded (fun s => F /\ P s) m Q D.
Proof. intros Hm t s Ht [HF Hs]. exact (Hm HF t s Ht Hs). Qed.

(** Every earlier history was accepted too. *)
Lemma monitor_suffix t1 t0 s : monitor (t1 ++ t0) = Some s -> exists s0, monitor t0 = Some s0.
Proof.
  revert s. induction t1 as [|e t1 IH]; intros s; simpl; [eauto |].
  destruct (monitor (t1 ++ t0)) as [s1|] eqn:Hm; simpl; [| done]. intros _. by eapply IH.
Qed.

Lemma monitor_event t1 e t0 s :
  monitor (t1 ++ e :: t0) = Some s -> exists s0 s1, monitor t0 = Some s0 /\ step s0 e = Some s1.
Proof.
  intros (s1 & Hs1)%monitor_suffix. simpl in Hs1.
  destruct (monitor t0) as [s0|]; simpl in Hs1; [eauto | done].
Qed.

Lemma guarded_run {A} (P : S -> Prop) (m : io E A) Q D :
  guarded P m Q D -> P start ->
  match m [] with
  | (Some a, t) => exists s, monitor t = Some s /\ Q a s
  | (None, t) => exists s, monitor t = Some s /\ D s
  end.
Proof. intros Hm Hs. exact (Hm [] start eq_refl Hs). Qed.

(** ** Computations the monitor does not notice *)

Definition ignored (e : E) : Prop := forall s, step s e = Some s.

(** [silent m]: everything [m] adds to the history is ignored. *)
Definition silent {A} (m : io E A) : Prop :=
  forall t, exists es, snd (m t) = es ++ t /\ Forall ignored es.

Lemma monitor_ignored es t : Forall ignored es -> monitor (es ++ t) = monitor t.
Proof.
  induction 1 as [|e es He _ IH]; simpl; [done |]. rewrite IH. destruct (monitor t); simpl; [apply He | done].
Qed.

Lemma guarded_silent {A} (P : S -> Prop) (m : io E A) : silent m -> guarded P m (fun _ => P) P.
Proof.
  intros Hm t s Ht Hs. destruct (Hm t) as (es & Hes & Hi).
  destruct (m t) as [[a|] t']; simpl in Hes; subst t'; exists s; by rewrite monitor_ignored.
Qed.

Lemma guarded_quiet {A} (P D : S -> Prop) (m : io E A) :
  (forall s, P s -> D s) -> silent m -> guarded P m (fun _ => P) D.
Proof. intros HD Hm. eapply guarded_conseq; [by apply (guarded_silent P) | done | done | done]. Qed.

Lemma silent_ret {A} (a : A) : silent (mret a).
Proof. intros t. by exists []. Qed.

Lemma silent_bind {A B} (m : io E A) (k : A -> io E B) :
  silent m -> (forall a, silent (k a)) -> silent (m ≫= k).
Proof.
  intros Hm Hk t. destruct (Hm t) as (es & Hes & Hi). unfold mbind, io_bind.
  destruct (m t) as [[a|] t']; simpl in *; subst t'; [| by exists es].
  destruct (Hk a (es ++ t)) as (es' & Hes' & Hi'). exists (es' ++ es).
  rewrite Hes', app_assoc. split; [done |]. by apply Forall_app.
Qed.

Lemma silent_emit e : ignored e -> silent (emit e).
Proof. intros He t. exists [e]. split; [done |]. by constructor. Qed.

Lemma silent_ask {A} (oracle : list E -> A) ev : (forall a, ignored (ev a)) -> silent (ask oracle ev).
Proof. intros He t. exists [ev (oracle t)]. split; [done |]. by constructor. Qed.

Lemma silent_pure {A} (f : list E -> A) : silent (fun t => (Some (f t), t)).
Proof. intros t. by exists []. Qed.

Lemma silent_loop {X A} (body : X -> io E (X + A)) fuel x :
  (forall x, silent (body x)) -> silent (loop fuel body x).
Proof.
  intros Hb. revert x. induction fuel as [|fuel IH]; intros x; simpl; [intros t; by exists [] |].
  apply silent_bind; [apply Hb |]. intros [x'|a]; [apply IH | apply silent_ret].
Qed.

End monitor.

Create HintDb silent.

(** Decompose a computation into silent pieces. *)
Ltac solve_silent :=
  repeat first
    [ solve [auto with silent]
    | apply silent_ret
    | apply silent_emit
    | apply silent_ask; intros ?
    | apply silent_pure
    | apply silent_loop; intros ?
    | apply silent_bind; [| intros ?]
    | match goal with |- silent _ (match ?x with _ => _ end) => destruct x end ];
  try (intros ?; reflexivity).
