(* ===== verification/RestartPolicy.v ===== *)
(** * Restart policy

    The decisions of [supervisor.rs] that need no process: the effective policy,
    the deterministic back-off and health jitter, the restart decision, and the
    cell through which a signal handler hands a signal to the loop. *)
From Stdlib Require Import Ascii.
From stdpp Require Import prelude strings.
From S2P Require Import Prelude Json Protocol.

Local Open Scope Z_scope.

Definition HEALTH_CADENCE : Z := from_secs 30.
Definition MAX_INITIAL_HEALTH_JITTER : Z := from_secs 30.
Definition POLL_INTERVAL : Z := from_millis 25.
Definition STABILITY_RESET : Z := from_secs 300.
Definition FINAL_RUNWAY : Z := from_secs 5.
Definition FORWARDED_SIGNAL_GRACE : Z := from_secs 5.
Definition CLEANUP_GRACE : Z := from_millis 500.

Definition SIGHUP : Z := 1.
Definition SIGINT : Z := 2.
Definition SIGQUIT : Z := 3.
Definition SIGKILL : Z := 9.
Definition SIGUSR1 : Z := 10.
Definition SIGUSR2 : Z := 12.
Definition SIGTERM : Z := 15.
Definition SUPPORTED_SIGNALS : list Z := [SIGHUP; SIGINT; SIGQUIT; SIGUSR1; SIGUSR2; SIGTERM].

Inductive SupervisorExit := Code (code : Z) | Signal (signal : Z).

Record EffectivePolicy := { ep_mode : SupervisionMode; schedule_deadline : option Z }.

Inductive FailureReason := ExitNonzero (code : Z) | SignalUnexpected (signal : Z).

Definition restart_reason (f : FailureReason) : string :=
  match f with ExitNonzero _ => "exit_nonzero" | SignalUnexpected _ => "signal_unexpected" end.
Definition fatal_code (f : FailureReason) : string :=
  match f with
  | ExitNonzero _ => "process_exit_nonzero"
  | SignalUnexpected _ => "process_signal_unexpected"
  end.

(** ** Policy and timing *)

Definition effective_policy (policy : option SupervisionPolicy) (bootstrap_elapsed now : Z)
    : EffectivePolicy :=
  let never := {| ep_mode := Never; schedule_deadline := None |} in
  match policy with
  | None => never
  | Some policy =>
      match checked_sub_u64 (schedule_end_ms policy) (server_time_ms policy) with
      | None => never
      | Some server_remaining_ms =>
          let remaining := duration_saturating_sub (from_millis server_remaining_ms) bootstrap_elapsed in
          match instant_checked_add now remaining with
          | None => never
          | Some deadline => {| ep_mode := sp_mode policy; schedule_deadline := Some deadline |}
          end
      end
  end.

(** The [sha2] crate. *)
Class Sha256 := sha256 : string -> string.

Definition nul : string := String (ascii_of_N 0) EmptyString.

(** [u64::to_be_bytes] and [u64::from_be_bytes] of the first eight bytes. *)
Definition to_be_bytes (n : Z) : string :=
  of_bytes (map (fun i => ascii_of_N (Z.to_N (Z.shiftr n (8 * i) mod 256))) [7; 6; 5; 4; 3; 2; 1; 0]).
Definition from_be_bytes (l : list ascii) : Z := foldl (fun acc a => acc * 256 + byte a) 0 l.

Definition BACKOFF_PROFILE : string := "runtime-cargo-backoff.v1" +:+ nul.

Section timing.
Context `{!Sha256}.

Definition deterministic_backoff (runtime_instance_id : string)
    (process_attempt consecutive_failure : Z) : Z :=
  let exponent := Z.min consecutive_failure 6 in
  let ceiling_ms := Z.min (Z.shiftl 1000 exponent) 60000 in
  let floor_ms := ceiling_ms / 2 in
  let digest := sha256 (BACKOFF_PROFILE +:+ runtime_instance_id +:+ nul +:+ to_be_bytes process_attempt) in
  let sample := from_be_bytes (firstn 8 (bytes digest)) in
  from_millis (floor_ms + sample mod (ceiling_ms - floor_ms + 1)).

Definition initial_health_jitter (runtime_instance_id : string) (process_attempt : Z) : Z :=
  let digest := sha256 ("runtime-cargo-health-jitter.v1" +:+ nul +:+ runtime_instance_id
                        +:+ to_be_bytes process_attempt) in
  let sample := from_be_bytes (firstn 8 (bytes digest)) in
  let max_ms := as_millis MAX_INITIAL_HEALTH_JITTER in
  from_millis (sample mod (max_ms + 1)).

Definition restart_delay (policy : EffectivePolicy)
    (process_attempt restart_count consecutive_failures uptime : Z) (runtime_instance_id : string)
    (now : Z) : result Z string :=
  match ep_mode policy with
  | Never => Err "policy_never"
  | OnFailure restart_limit =>
      if match restart_limit with
         | Attempts max_restarts => max_restarts <=? restart_count
         | ScheduleEnd => false
         end
      then Err "attempt_limit_reached"
      else
        match schedule_deadline policy with
        | None => Err "schedule_end_reached"
        | Some deadline =>
            let remaining := saturating_duration_since deadline now in
            if remaining <=? FINAL_RUNWAY then Err "schedule_end_reached"
            else
              let failure_index := if STABILITY_RESET <=? uptime then 0 else consecutive_failures in
              let normal := deterministic_backoff runtime_instance_id process_attempt failure_index in
              Ok (Z.min normal (duration_saturating_sub remaining FINAL_RUNWAY))
        end
  end.

End timing.

Definition duration_ms (duration : Z) : Z := Z.min u64_max (as_millis duration).

(** ** The pending-signal cell

    [PENDING_SIGNAL] holds the first signal since it was last taken. *)
Definition capture_signal (cell signal : Z) : Z := if cell =? 0 then signal else cell.
Definition take_signal_cell (cell : Z) : option Z * Z :=
  (if cell =? 0 then None else Some cell, 0).

(** * Properties *)

Lemma from_be_bytes_nonneg l : 0 <= from_be_bytes l.
Proof.
  unfold from_be_bytes.
  assert (Hacc : forall acc, 0 <= acc -> 0 <= foldl (fun acc a => acc * 256 + byte a) acc l).
  { induction l as [|a l IH]; intros acc Hacc; simpl; [done |]. apply IH. unfold byte. lia. }
  by apply Hacc.
Qed.

(** The ceiling of the back-off in milliseconds. *)
Definition backoff_ceiling (k : Z) : Z := Z.min (1000 * 2 ^ Z.min k 6) 60000.

Section timing_properties.
Context `{!Sha256}.

Lemma backoff_bounds id attempt k :
  0 <= k ->
  from_millis (backoff_ceiling k / 2) <= deterministic_backoff id attempt k <= from_millis (backoff_ceiling k).
Proof.
  intros Hk. unfold deterministic_backoff, backoff_ceiling.
  rewrite Z.shiftl_mul_pow2 by lia.
  set (c := Z.min (1000 * 2 ^ Z.min k 6) 60000).
  assert (Hc : 0 < c) by (assert (0 < 2 ^ Z.min k 6) by (apply Z.pow_pos_nonneg; lia); lia).
  set (smp := from_be_bytes _).
  pose proof (Z.div_mod c 2 ltac:(lia)). pose proof (Z.mod_pos_bound c 2 ltac:(lia)).
  pose proof (Z.mod_pos_bound smp (c - c / 2 + 1) ltac:(lia)).
  unfold from_millis, NANOS_PER_MILLI. lia.
Qed.

Lemma backoff_range id attempt k :
  0 <= k -> from_millis 500 <= deterministic_backoff id attempt k <= from_secs 60.
Proof.
  intros Hk. pose proof (backoff_bounds id attempt k Hk) as Hb.
  assert (Hc : 1000 <= backoff_ceiling k <= 60000).
  { unfold backoff_ceiling. assert (2 ^ 0 <= 2 ^ Z.min k 6) by (apply Z.pow_le_mono_r; lia). lia. }
  assert (500 <= backoff_ceiling k / 2) by (apply Z.div_le_lower_bound; lia).
  unfold from_millis, from_secs, NANOS_PER_MILLI, NANOS_PER_SEC in *. lia.
Qed.

(** The restart back-off doubles from one second to a minute.  It depends
    only on the instance, the attempt and the failure index; for failure index
    [k] it lies between half of the ceiling [min (2^min(k,6) s, 60 s)] and the
    ceiling, so it is at least half a second and never above a minute. *)
Theorem deterministic_backoff_bounds id attempt k :
  0 <= k ->
  from_millis (backoff_ceiling k / 2) <= deterministic_backoff id attempt k <= from_millis (backoff_ceiling k) /\
  from_millis 500 <= deterministic_backoff id attempt k <= from_secs 60.
Proof.
  intros Hk. split; [by apply backoff_bounds | by apply backoff_range].
Qed.

Lemma initial_health_jitter_bounds id attempt :
  0 <= initial_health_jitter id attempt <= MAX_INITIAL_HEALTH_JITTER.
Proof.
  unfold initial_health_jitter. set (smp := from_be_bytes _).
  change (as_millis MAX_INITIAL_HEALTH_JITTER) with 30000.
  pose proof (Z.mod_pos_bound smp (30000 + 1) ltac:(lia)).
  unfold from_millis, MAX_INITIAL_HEALTH_JITTER, from_secs, NANOS_PER_MILLI, NANOS_PER_SEC. lia.
Qed.

Lemma restart_delay_Ok policy attempt restarts k uptime id now d :
  restart_delay policy attempt restarts k uptime id now = Ok d ->
  exists limit deadline,
    ep_mode policy = OnFailure limit /\ schedule_deadline policy = Some deadline /\
    (forall n, limit = Attempts n -> restarts < n) /\
    now + FINAL_RUNWAY < deadline /\
    d = Z.min (deterministic_backoff id attempt (if STABILITY_RESET <=? uptime then 0 else k))
          (deadline - now - FINAL_RUNWAY).
Proof.
  unfold restart_delay. destruct (ep_mode policy) as [|limit]; [done |].
  destruct (match limit with Attempts n => n <=? restarts | ScheduleEnd => false end) eqn:Hlimit; [done |].
  destruct (schedule_deadline policy) as [deadline|]; [| done].
  destruct (saturating_duration_since deadline now <=? FINAL_RUNWAY) eqn:Hrun; [done |].
  intros [= <-]. exists limit, deadline. reflect_bool. unfold saturating_duration_since, duration_saturating_sub in *.
  assert (0 < FINAL_RUNWAY) by done. split_and!; try done.
  - intros n ->. by reflect_bool.
  - lia.
  - f_equal. lia.
Qed.

(** When a failed process is restarted, and after how long.  A restart
    happens exactly when the policy is restart-on-failure, the attempt limit
    (if any) is not used up and more than the five-second runway is left of the
    schedule.  The wait is the back-off of the failure index, which a
    five-minute uptime resets, cut so that it ends before the runway begins. *)
Theorem restart_decision policy attempt restarts k uptime id now d :
  0 <= k ->
  restart_delay policy attempt restarts k uptime id now = Ok d <->
  exists limit deadline,
    ep_mode policy = OnFailure limit /\ schedule_deadline policy = Some deadline /\
    (forall n, limit = Attempts n -> restarts < n) /\
    now + from_secs 5 < deadline /\
    d = Z.min (deterministic_backoff id attempt (if from_secs 300 <=? uptime then 0 else k))
          (deadline - now - from_secs 5) /\
    0 < d /\ now + d <= deadline - from_secs 5.
Proof.
  intros Hk. split.
  - intros (limit & deadline & Hm & Hd & Hn & Hr & ->)%restart_delay_Ok. exists limit, deadline.
    fold STABILITY_RESET FINAL_RUNWAY. split_and!; try done; [| lia].
    pose proof (backoff_range id attempt (if STABILITY_RESET <=? uptime then 0 else k)) as Hb.
    destruct (STABILITY_RESET <=? uptime); specialize (Hb ltac:(lia));
      unfold from_millis, NANOS_PER_MILLI in Hb; lia.
  - intros (limit & deadline & Hm & Hd & Hn & Hr & -> & _ & _). unfold restart_delay. rewrite Hm, Hd.
    replace (match limit with Attempts n => n <=? restarts | ScheduleEnd => false end) with false.
    2:{ destruct limit as [n|]; [| done]. symmetry. apply Z.leb_gt. by apply Hn. }
    change (from_secs 5) with FINAL_RUNWAY in *. change (from_secs 300) with STABILITY_RESET in *.
    unfold saturating_duration_since, duration_saturating_sub.
    assert (0 < FINAL_RUNWAY) by done.
    rewrite (proj2 (Z.leb_gt (Z.max 0 (deadline - now)) FINAL_RUNWAY)) by lia. f_equal. f_equal. lia.
Qed.

End timing_properties.

(** The schedule deadline is measured on the monotonic clock from the
    server's own clock: the schedule time left at the server's reading, less the
    time bootstrapping took, never in the past; without a usable policy nothing
    is ever restarted. *)
Theorem effective_policy_deadline policy elapsed now :
  0 <= elapsed ->
  (forall d, schedule_deadline (effective_policy policy elapsed now) = Some d ->
     exists p, policy = Some p /\ ep_mode (effective_policy policy elapsed now) = sp_mode p /\
       server_time_ms p <= schedule_end_ms p /\
       d = Z.max now (now + from_millis (schedule_end_ms p - server_time_ms p) - elapsed)) /\
  (schedule_deadline (effective_policy policy elapsed now) = None ->
     ep_mode (effective_policy policy elapsed now) = Never).
Proof.
  intros He. unfold effective_policy, checked_sub_u64, instant_checked_add, duration_saturating_sub.
  destruct policy as [p|]; simpl; [| done]. destruct (server_time_ms p <=? schedule_end_ms p) eqn:Hle; [| done].
  destruct (_ <=? INSTANT_MAX); simpl; [| done]. split; [| done]. intros d [= <-]. reflect_bool.
  exists p. split_and!; try done. lia.
Qed.

(** ** The signal cell *)

Definition run_captures (cell : Z) (signals : list Z) : Z := foldl capture_signal cell signals.

Lemma run_captures_nonzero cell signals : cell <> 0 -> run_captures cell signals = cell.
Proof.
  intros Hc. unfold run_captures. induction signals as [|s signals IH]; simpl; [done |].
  unfold capture_signal at 2. rewrite (proj2 (Z.eqb_neq _ _)) by done. exact IH.
Qed.

(** The first signal since the last look is the one taken, later ones are
    dropped, and taking it empties the cell; nothing is invented when none
    arrived. *)
Theorem first_signal_wins signals :
  Forall (fun s => s <> 0) signals ->
  take_signal_cell (run_captures 0 signals) = (head signals, 0).
Proof.
  intros Hall. destruct signals as [|s signals]; [done |]. apply Forall_cons in Hall as [Hs _].
  change (run_captures 0 (s :: signals)) with (run_captures s signals).
  rewrite run_captures_nonzero by done. unfold take_signal_cell.
  by rewrite (proj2 (Z.eqb_neq _ _)) by done.
Qed.

(** ** Examples *)

Definition sample_sha256 : Sha256 := fun s => s.

Lemma deterministic_backoff_bounds_witness :
  from_millis 500 <= @deterministic_backoff sample_sha256 "instance" 2 3 <= from_secs 60.
Proof. apply (@deterministic_backoff_bounds sample_sha256 "instance" 2 3). lia. Defined.

Definition sample_effective : EffectivePolicy :=
  {| ep_mode := OnFailure (Attempts 3); schedule_deadline := Some (from_secs 60) |}.

Lemma restart_decision_witness :
  exists d, @restart_delay sample_sha256 sample_effective 0 0 0 0 "instance" 0 = Ok d /\
    d <= from_secs 60 - from_secs 5.
Proof.
  assert (Hrun : exists d, @restart_delay sample_sha256 sample_effective 0 0 0 0 "instance" 0 = Ok d)
    by (eexists; vm_compute; reflexivity).
  destruct Hrun as [d Hrun]. exists d. split; [exact Hrun |].
  destruct (proj1 (@restart_decision sample_sha256 sample_effective 0 0 0 0 "instance" 0 d ltac:(lia)) Hrun)
    as (limit & deadline & _ & [= <-] & _ & _ & _ & _ & Hle). lia.
Defined.

Lemma effective_policy_deadline_witness :
  ep_mode (effective_policy None 0 0) = Never.
Proof. apply (effective_policy_deadline None 0 0); reflexivity || lia. Defined.

Lemma first_signal_wins_witness :
  take_signal_cell (run_captures 0 [SIGTERM; SIGINT]) = (Some SIGTERM, 0).
Proof. apply (first_signal_wins [SIGTERM; SIGINT]). repeat constructor; discriminate. Defined.
