(* ===== verification/Supervisor.v ===== *)
(** * The supervisor

    The loop of [supervisor.rs] that starts, watches, reports, cleans up and
    restarts the customer process.

    The host is an environment of oracles over the history: the clock, signal
    delivery, process calls, the access session and the samplers.  The loops
    the code leaves unbounded (attempts, polls of a running child, reaping) run
    on a common [fuel]; the loops bounded by a deadline get as many turns as the
    deadline admits on a clock that respects sleeps. *)
From stdpp Require Import prelude strings.
From S2P Require Import Prelude Json Protocol CustomerEnvironment Thermal Memory RestartPolicy.

Local Open Scope Z_scope.

Inductive DiagnosticStatus := Started | Succeeded | Failed | Info.

(** [std::process::ExitStatus]. *)
Inductive exit_status := Exited (code : Z) | Signaled (signal : Z) | OtherStatus.
Definition status_code (s : exit_status) : option Z :=
  match s with Exited c => Some c | _ => None end.
Definition status_signal (s : exit_status) : option Z :=
  match s with Signaled n => Some n | _ => None end.

(** The results of [kill]: success, [ESRCH], [EPERM] or another error. *)
Inductive kill_result := KillOk | KillNoSuchProcess | KillNotPermitted | KillFailed.

(** [access::EndpointEvent] and [access::SidecarEvent]. *)
Record EndpointEvent := {
  ee_stage : string;
  ee_succeeded : bool;
  ee_failure_code : option string;
  ee_attrs : Value
}.

Inductive SidecarEvent :=
| SidecarUnchanged
| SidecarCrashed
| SidecarRespawnFailed (elapsed_ms : Z) (code : string)
| SidecarExhausted (elapsed_ms : Z) (code : string)
| SidecarRecovered (elapsed_ms : Z).

Inductive sv_event :=
| SvReport (stage : string) (status : DiagnosticStatus) (code : option string) (attrs : Value)
| SvBeginChild
| SvEndChild
| SvAuthority (ok : bool)
| SvGuest (e : guest_event)
| SvNow (t : Z)
| SvSleep (d : Z)
| SvTakeSignal (s : option Z)
| SvFactTask (name : string)
| SvSpawn (command : list string) (env : environment) (capture : bool) (pid : option Z)
| SvCapture (process_attempt : Z)
| SvCaptureFinish
| SvKill (process_group signal : Z) (r : kill_result)
| SvReap (pid : Z)
| SvTryWait (r : result (option exit_status) unit)
| SvThermal (s : option ThermalSummary)
| SvMemory (w : option Workload) (s : MemorySummary)
| SvEndpoints (l : list EndpointEvent)
| SvSidecar (e : SidecarEvent)
| SvLog (event : string) (code : option string)
| SvLogStage (stage : string) (elapsed_ms : Z) (outcome : string) (code : option string).

Class Host := {
  host_vars : environment;
  host_pid : Z;
  on_authority : list sv_event -> bool;
  host_directory : list sv_event -> string -> bool;
  host_writable : list sv_event -> string -> bool;
  host_file : list sv_event -> string -> bool;
  host_create_sticky : list sv_event -> string -> bool;
  on_now : list sv_event -> Z;
  on_signal : list sv_event -> Z;
  on_spawn : list sv_event -> list string -> environment -> option Z;
  on_kill : list sv_event -> Z -> Z -> kill_result;
  on_reap : list sv_event -> Z;
  on_try_wait : list sv_event -> result (option exit_status) unit;
  on_thermal : list sv_event -> option ThermalSummary;
  on_memory : list sv_event -> option Workload -> MemorySummary;
  on_endpoints : list sv_event -> list EndpointEvent;
  on_sidecar : list sv_event -> SidecarEvent;
  session_binding_attrs : Value;
  on_ready_attrs : list sv_event -> Value
}.

#[global] Instance host_guest `{!Host} : Guest sv_event :=
  {| guest_ev := SvGuest;
     on_directory := host_directory;
     on_writable := host_writable;
     on_file := host_file;
     on_create_sticky := host_create_sticky |}.

(** What the caller attached: a diagnostic reporter, an access session, an
    output logger and a runtime-SSH log stream. *)
Record Attached := {
  has_reporter : bool;
  has_access : bool;
  has_output : bool;
  has_ssh_logs : bool
}.

Section supervisor.
Context `{!Host, !Sha256} (at_ : Attached) (fuel : nat).

Definition now : io sv_event Z := ask on_now SvNow.
Definition thread_sleep (d : Z) : io sv_event unit := emit (SvSleep d).
(** [on_signal] is what the signal handler has left in the cell. *)
Definition take_signal : io sv_event (option Z) :=
  ask (fun t => (take_signal_cell (on_signal t)).1) SvTakeSignal.

(** ** Reports *)

Definition when (b : bool) (m : io sv_event unit) : io sv_event unit := if b then m else mret tt.

Definition report (stage : string) (status : DiagnosticStatus) (code : option string) (attrs : Value)
    : io sv_event unit :=
  when (has_reporter at_) (emit (SvReport stage status code attrs)).
Definition begin_child : io sv_event unit := when (has_reporter at_) (emit SvBeginChild).
Definition end_child : io sv_event unit := when (has_reporter at_) (emit SvEndChild).
Definition log_access (event : string) (code : option string) : io sv_event unit :=
  when (has_ssh_logs at_) (emit (SvLog event code)).

Definition with_readings (attrs : Value) (thermal : option ThermalSummary) (memory : MemorySummary)
    : Value :=
  match attrs with
  | Obj object =>
      Obj (memory_write_attrs memory
             match thermal with Some s => thermal_write_attrs s object | None => object end)
  | _ => attrs
  end.

Definition sample_thermal : io sv_event (option ThermalSummary) := ask on_thermal SvThermal.
Definition sample_memory (w : option Workload) : io sv_event MemorySummary :=
  ask (fun t => on_memory t w) (SvMemory w).

Definition report_health_beat (process_attempt restart_count : Z) (w : Workload) : io sv_event unit :=
  thermal ← sample_thermal;
  memory ← sample_memory (Some w);
  report "runtime.health" Info None
    (with_readings
       (jobj [("processAttempt", jint process_attempt); ("restartCount", jint restart_count)])
       thermal memory).

(** The report of an attempt that ended, with the readings taken after it. *)
Definition report_ended (stage : string) (status : DiagnosticStatus) (attrs : Value) : io sv_event unit :=
  thermal ← sample_thermal;
  memory ← sample_memory None;
  report stage status None (with_readings attrs thermal memory).

Definition exited_attrs (process_attempt restart_count code uptime : Z) (final cleanup_complete : bool)
    : Value :=
  jobj [("processAttempt", jint process_attempt); ("restartCount", jint restart_count);
        ("exitCode", jint code); ("uptimeMs", jint (duration_ms uptime));
        ("final", Bool final); ("cleanupComplete", Bool cleanup_complete)].
Definition signaled_attrs (process_attempt restart_count signal : Z) (source : string) (uptime : Z)
    (final cleanup_complete : bool) : Value :=
  jobj [("processAttempt", jint process_attempt); ("restartCount", jint restart_count);
        ("signal", jint signal); ("signalSource", Str source);
        ("uptimeMs", jint (duration_ms uptime)); ("final", Bool final);
        ("cleanupComplete", Bool cleanup_complete)].

Definition report_attempt_failure (failure : FailureReason) (process_attempt restart_count uptime : Z)
    (cleanup_complete final_attempt : bool) : io sv_event unit :=
  match failure with
  | ExitNonzero code =>
      report_ended "runtime.cargo.process.exited" Failed
        (exited_attrs process_attempt restart_count code uptime final_attempt cleanup_complete)
  | SignalUnexpected signal =>
      report_ended "runtime.cargo.process.signaled" Failed
        (signaled_attrs process_attempt restart_count signal "child_unexpected" uptime final_attempt
           cleanup_complete)
  end.

Definition report_final_failure (failure : FailureReason) (disposition : string)
    (process_attempt restart_count uptime : Z) (cleanup_complete : bool) : io sv_event unit :=
  let attrs :=
    jobj [("processAttempt", jint process_attempt); ("restartCount", jint restart_count);
          ("uptimeMs", jint (duration_ms uptime)); ("cleanupComplete", Bool cleanup_complete);
          ("restartDisposition", Str disposition)] in
  let attrs :=
    match failure with
    | ExitNonzero code => value_insert "exitCode" (jint code) attrs
    | SignalUnexpected signal => value_insert "signal" (jint signal) attrs
    end in
  report "runtime.fatal.cargo.process" Failed (Some (fatal_code failure)) attrs.

Definition schedule_restart (failure : FailureReason) (process_attempt delay : Z) : io sv_event unit :=
  report "runtime.cargo.process.restart_scheduled" Info None
    (jobj [("fromProcessAttempt", jint process_attempt);
           ("toProcessAttempt", jint (saturating_add u64_max process_attempt 1));
           ("reason", Str (restart_reason failure)); ("delayMs", jint (duration_ms delay))]).

Definition report_environment_normalized (normalized : list Normalization) : io sv_event unit :=
  match normalized with
  | [] => mret tt
  | _ =>
      report "runtime.environment.normalized" Info None
        (jobj [("normalized", Arr (map (fun change =>
           jobj [("name", Str (norm_name change)); ("reason", Str (reason_as_str (norm_reason change)))])
           normalized))])
  end.

(** A supervisor failure, after the child's group was cleaned up. *)
Definition report_supervisor_failure (code : string) (process_attempt restart_count : Z)
    (cleanup_complete : bool) : io sv_event unit :=
  report "runtime.fatal.cargo.supervisor" Failed (Some code)
    (jobj [("processAttempt", jint process_attempt); ("restartCount", jint restart_count);
           ("cleanupComplete", Bool cleanup_complete)]).

(** ** The access session *)

Definition report_access_ready : io sv_event unit :=
  _ ← log_access "runtime.access.ready" None;
  attrs ← (fun t => (Some (on_ready_attrs t), t));
  report "runtime.access.ready" Succeeded None attrs.

Definition log_respawn (elapsed_ms : Z) (outcome : string) (code : option string) : io sv_event unit :=
  when (has_ssh_logs at_) (emit (SvLogStage "sidecar_respawn" elapsed_ms outcome code)).

Definition report_sidecar_event : io sv_event unit :=
  e ← ask on_sidecar SvSidecar;
  match e with
  | SidecarUnchanged => mret tt
  | SidecarCrashed =>
      _ ← log_access "runtime.access.crashed" (Some "access_sidecar_failed");
      report "runtime.access.degraded" Failed (Some "access_sidecar_failed") session_binding_attrs
  | SidecarRespawnFailed elapsed_ms code => log_respawn elapsed_ms "retry" (Some code)
  | SidecarExhausted elapsed_ms code => log_respawn elapsed_ms "failed" (Some code)
  | SidecarRecovered elapsed_ms =>
      _ ← log_respawn elapsed_ms "ok" None;
      report_access_ready
  end.

Fixpoint report_endpoint_events (events : list EndpointEvent) : io sv_event unit :=
  match events with
  | [] => mret tt
  | e :: events =>
      _ ← log_access (ee_stage e) (ee_failure_code e);
      _ ← report (ee_stage e) (if ee_succeeded e then Succeeded else Failed) (ee_failure_code e) (ee_attrs e);
      report_endpoint_events events
  end.

Definition poll_access : io sv_event unit :=
  when (has_access at_)
    (events ← ask on_endpoints SvEndpoints;
     _ ← report_endpoint_events events;
     report_sidecar_event).

(** ** Process groups *)

Definition kill (process_group signal : Z) : io sv_event kill_result :=
  ask (fun t => on_kill t process_group signal) (SvKill process_group signal).

Definition signal_process_group (process_group signal : Z) : io sv_event bool :=
  r ← kill process_group signal;
  mret match r with KillOk | KillNoSuchProcess => true | KillNotPermitted | KillFailed => false end.

Definition process_group_exists (process_group : Z) : io sv_event bool :=
  r ← kill process_group 0;
  mret match r with KillOk | KillNotPermitted => true | KillNoSuchProcess | KillFailed => false end.

Definition reap_descendants : io sv_event unit :=
  loop fuel (fun _ : unit =>
    pid ← ask on_reap SvReap;
    mret (if pid <=? 0 then inr tt else inl tt)) tt.

(** [while process_group_exists(..) && Instant::now() < deadline].  A turn
    sleeps 25 ms, so 500 ms admit at most 21 tests of the condition. *)
Definition CLEANUP_TURNS : nat := 22.

Definition reap_until (process_group deadline : Z) : io sv_event unit :=
  loop CLEANUP_TURNS (fun _ : unit =>
    alive ← process_group_exists process_group;
    if negb alive then mret (inr tt)
    else
      t ← now;
      if negb (t <? deadline) then mret (inr tt)
      else
        _ ← reap_descendants;
        _ ← thread_sleep POLL_INTERVAL;
        mret (inl tt)) tt.

Definition terminate_and_reap_group (process_group : Z) : io sv_event bool :=
  if process_group <=? 0 then mret false
  else
    _ ← signal_process_group process_group SIGTERM;
    t1 ← now;
    _ ← reap_until process_group (t1 + CLEANUP_GRACE);
    alive ← process_group_exists process_group;
    _ ← (if alive : bool then signal_process_group process_group SIGKILL else mret true);
    t2 ← now;
    _ ← reap_until process_group (t2 + CLEANUP_GRACE);
    _ ← reap_descendants;
    alive ← process_group_exists process_group;
    mret (negb alive).

(** A turn sleeps 25 ms or what is left; the fuel is what the duration
    admits. *)
Definition sleep_turns (duration : Z) : nat := Z.to_nat (duration / POLL_INTERVAL + 3).

Definition sleep_interruptibly (duration : Z) : io sv_event (option Z) :=
  t0 ← now;
  let deadline := t0 + duration in
  loop (sleep_turns duration) (fun _ : unit =>
    t ← now;
    if negb (t <? deadline) then mret (inr None)
    else
      signal ← take_signal;
      match signal with
      | Some signal => mret (inr (Some signal))
      | None =>
          t' ← now;
          _ ← thread_sleep (Z.min POLL_INTERVAL (saturating_duration_since deadline t'));
          mret (inl tt)
      end) tt.

(** ** One attempt *)

(** [spawn_customer]: a fresh process group running the command in exactly this
    environment. *)
Definition spawn_customer (command : list string) (env : environment) (capture_output : bool)
    : io sv_event (option Z) :=
  ask (fun t => on_spawn t command env) (SvSpawn command env capture_output).

Record WaitState := {
  next_health : Z;
  forwarded_signal : option (Z * Z);
  forced_cleanup : bool
}.

(** The end of the waiting loop: the supervisor returns, or the child's status
    and whether a signal was forwarded. *)
Definition wait_outcome : Type := SupervisorExit + (exit_status * option (Z * Z)).

Definition fail_attempt (process_group : Z) (code : string) (process_attempt restart_count : Z)
    : io sv_event SupervisorExit :=
  cleanup_complete ← terminate_and_reap_group process_group;
  _ ← end_child;
  _ ← report_supervisor_failure code process_attempt restart_count cleanup_complete;
  mret (Code 70).

(** Forward a pending signal, once; [None] when the supervisor must give up. *)
Definition forward_signal (process_group : Z) (forwarded : option (Z * Z))
    : io sv_event (option (option (Z * Z))) :=
  pending ← take_signal;
  match pending, forwarded with
  | Some signal, None =>
      ok ← signal_process_group process_group signal;
      if ok : bool then t ← now; mret (Some (Some (signal, t))) else mret None
  | _, _ => mret (Some forwarded)
  end.

(** Kill the group once the grace of a forwarded signal is over. *)
Definition force_after_grace (process_group : Z) (forwarded : option (Z * Z)) (forced : bool)
    : io sv_event bool :=
  match forwarded with
  | Some (_, forwarded_at) =>
      if forced then mret forced
      else
        t ← now;
        if FORWARDED_SIGNAL_GRACE <=? saturating_duration_since t forwarded_at
        then _ ← signal_process_group process_group SIGKILL; mret true
        else mret forced
  | None => mret forced
  end.

Definition beat_if_due (next_health process_attempt restart_count : Z) (w : Workload) : io sv_event Z :=
  t ← now;
  if next_health <=? t then
    _ ← report_health_beat process_attempt restart_count w;
    t' ← now;
    mret (t' + HEALTH_CADENCE)
  else mret next_health.

Definition wait_step (process_group : Z) (w : Workload) (process_attempt restart_count : Z)
    (st : WaitState) : io sv_event (WaitState + wait_outcome) :=
  _ ← poll_access;
  f ← forward_signal process_group (forwarded_signal st);
  match f with
  | None =>
      e ← fail_attempt process_group "signal_forward_failed" process_attempt restart_count;
      mret (inr (inl e))
  | Some forwarded =>
      forced ← force_after_grace process_group forwarded (forced_cleanup st);
      waited ← ask on_try_wait SvTryWait;
      match waited with
      | Ok (Some status) => mret (inr (inr (status, forwarded)))
      | Err _ =>
          e ← fail_attempt process_group "wait_failed" process_attempt restart_count;
          mret (inr (inl e))
      | Ok None =>
          next ← beat_if_due (next_health st) process_attempt restart_count w;
          _ ← thread_sleep POLL_INTERVAL;
          mret (inl {| next_health := next; forwarded_signal := forwarded; forced_cleanup := forced |})
      end
  end.

Definition wait_child (process_group : Z) (w : Workload) (process_attempt restart_count next : Z)
    : io sv_event wait_outcome :=
  loop fuel (wait_step process_group w process_attempt restart_count)
    {| next_health := next; forwarded_signal := None; forced_cleanup := false |}.

(** A failed attempt: restart after a delay, or give up with the child's own
    status.  [None] means another attempt follows. *)
Definition restart_or_exit (policy : EffectivePolicy) (runtime_instance_id : string)
    (failure : FailureReason) (exit : SupervisorExit)
    (process_attempt restart_count consecutive_failures uptime : Z) (cleanup_complete : bool)
    : io sv_event (option SupervisorExit) :=
  t ← now;
  match restart_delay policy process_attempt restart_count consecutive_failures uptime
          runtime_instance_id t with
  | Ok delay =>
      _ ← report_attempt_failure failure process_attempt restart_count uptime cleanup_complete false;
      _ ← schedule_restart failure process_attempt delay;
      signal ← sleep_interruptibly delay;
      mret match signal with Some signal => Some (Signal signal) | None => None end
  | Err disposition =>
      _ ← report_final_failure failure disposition process_attempt restart_count uptime cleanup_complete;
      mret (Some exit)
  end.

(** What follows a cleaned-up attempt. *)
Definition conclude_attempt (policy : EffectivePolicy) (runtime_instance_id : string)
    (status : exit_status) (forwarded : option (Z * Z))
    (process_attempt restart_count consecutive_failures uptime : Z) (cleanup_complete : bool)
    : io sv_event (option SupervisorExit) :=
  match forwarded with
  | Some _ =>
      match status_code status with
      | Some code =>
          _ ← report_ended "runtime.cargo.process.exited" (if code =? 0 then Succeeded else Failed)
                (exited_attrs process_attempt restart_count code uptime true cleanup_complete);
          mret (Some (Code code))
      | None =>
          let signal := default SIGKILL (status_signal status) in
          _ ← report_ended "runtime.cargo.process.signaled" Info
                (signaled_attrs process_attempt restart_count signal "supervisor_forwarded" uptime true
                   cleanup_complete);
          mret (Some (Signal signal))
      end
  | None =>
      match status_code status with
      | Some code =>
          if code =? 0 then
            _ ← report_ended "runtime.cargo.process.exited" Succeeded
                  (exited_attrs process_attempt restart_count code uptime true cleanup_complete);
            mret (Some (Code code))
          else
            restart_or_exit policy runtime_instance_id (ExitNonzero code) (Code code)
              process_attempt restart_count consecutive_failures uptime cleanup_complete
      | None =>
          let signal := default SIGKILL (status_signal status) in
          restart_or_exit policy runtime_instance_id (SignalUnexpected signal) (Signal signal)
            process_attempt restart_count consecutive_failures uptime cleanup_complete
      end
  end.

(** ** The loop *)

Record LoopState := {
  process_attempt : Z;
  restart_count : Z;
  consecutive_failures : Z;
  pending_tasks : list string
}.

Fixpoint start_tasks (tasks : list string) : io sv_event unit :=
  match tasks with
  | [] => mret tt
  | name :: tasks => _ ← emit (SvFactTask name); start_tasks tasks
  end.

Definition next_state (st : LoopState) (uptime : Z) : LoopState :=
  {| process_attempt := saturating_add u64_max (process_attempt st) 1;
     restart_count := saturating_add u64_max (restart_count st) 1;
     consecutive_failures :=
       if STABILITY_RESET <=? uptime then 1
       else saturating_add u32_max (consecutive_failures st) 1;
     pending_tasks := [] |}.

Definition run_child (policy : EffectivePolicy) (runtime_instance_id : string) (pid started_at : Z)
    (st : LoopState) : io sv_event (LoopState + SupervisorExit) :=
  _ ← when (has_output at_) (emit (SvCapture (process_attempt st)));
  let process_group := default i32_max (i32_try_from pid) in
  let w := {| root := pid; supervisor := host_pid |} in
  _ ← report "runtime.cargo.process.started" Started None
        (jobj [("processAttempt", jint (process_attempt st)); ("restartCount", jint (restart_count st))]);
  let jitter := initial_health_jitter runtime_instance_id (process_attempt st) in
  t ← now;
  outcome ← wait_child process_group w (process_attempt st) (restart_count st) (t + jitter);
  match outcome with
  | inl exit => mret (inr exit)
  | inr (status, forwarded) =>
      ended ← now;
      let uptime := saturating_duration_since ended started_at in
      cleanup_complete ← terminate_and_reap_group process_group;
      _ ← end_child;
      _ ← when (has_output at_) (emit SvCaptureFinish);
      if negb cleanup_complete then
        _ ← report_supervisor_failure "cleanup_failed" (process_attempt st) (restart_count st) false;
        mret (inr (Code 70))
      else
        r ← conclude_attempt policy runtime_instance_id status forwarded (process_attempt st)
              (restart_count st) (consecutive_failures st) uptime cleanup_complete;
        mret match r with
        | Some exit => inr exit
        | None => inl (next_state st uptime)
        end
  end.

Definition supervise_step (command : list string) (env : environment) (policy : EffectivePolicy)
    (runtime_instance_id : string) (st : LoopState) : io sv_event (LoopState + SupervisorExit) :=
  _ ← poll_access;
  signal ← take_signal;
  match signal with
  | Some signal => mret (inr (Signal signal))
  | None =>
      _ ← start_tasks (pending_tasks st);
      started_at ← now;
      _ ← begin_child;
      child ← spawn_customer command env (has_output at_);
      match child with
      | None =>
          _ ← end_child;
          _ ← report "runtime.fatal.cargo.process" Failed (Some "process_start_failed")
                (jobj [("processAttempt", jint (process_attempt st));
                       ("restartCount", jint (restart_count st));
                       ("runtimeContactVersion", Str CARGO_PKG_VERSION)]);
          mret (inr (Code 126))
      | Some pid => run_child policy runtime_instance_id pid started_at st
      end
  end.

(** [supervise_with_reporter_and_environment]. *)
Definition supervise (command : list string) (bootstrap : RuntimeBootstrapResponse)
    (bootstrap_elapsed : Z) (runtime_environment : list (string * string))
    (detached_fact_tasks : list string) : io sv_event SupervisorExit :=
  match command with
  | [] =>
      _ ← report "runtime.fatal.cargo.process" Failed (Some "process_start_failed")
            (jobj [("processAttempt", jint 0); ("restartCount", jint 0)]);
      mret (Code 126)
  | _ =>
      authority ← ask on_authority SvAuthority;
      if negb authority then
        _ ← report "runtime.fatal.cargo.supervisor" Failed (Some "internal_failure") (jobj []);
        mret (Code 70)
      else
        t ← now;
        let policy := effective_policy (supervision_policy bootstrap) bootstrap_elapsed t in
        '(env, normalized) ← customer_environment host_vars runtime_environment;
        _ ← report_environment_normalized normalized;
        loop fuel (supervise_step command env policy (rb_runtime_instance_id bootstrap))
          {| process_attempt := 0; restart_count := 0; consecutive_failures := 0;
             pending_tasks := detached_fact_tasks |}
  end.

End supervisor.
