(* ===== verification/Lifecycle.v ===== *)
(** * The customer's life cycle

    What the supervisor promises about the customer process, as an automaton
    over its history, and the proof that every run of the loop of [Supervisor]
    is accepted by it, in every environment and for every bound. *)
From stdpp Require Import prelude strings.
From S2P Require Import Prelude Json EnvNames Protocol RuntimeEnv CustomerEnvironment Thermal Memory.
From S2P Require Import Monitor RestartPolicy Supervisor.

Local Open Scope Z_scope.

(** ** The automaton *)

Record life := {
  children : Z;                        (* processes started so far *)
  group : option Z;                    (* the process group of the last one *)
  probe : option bool;                 (* whether its last probe found a member *)
  stopping : bool;                     (* a signal was taken, or a start failed *)
  pending : option Z;                  (* signal taken and not acted on *)
  stamping : bool;                     (* forwarded, clock not yet read *)
  forwarded_at : option Z;             (* when the signal was forwarded *)
  clock : option Z;                    (* the last clock reading *)
  taken : option Z;                    (* the last signal taken *)
  ended : option exit_status;          (* status of the last child *)
  unstarted : bool;                    (* a start failed *)
  fault : bool                         (* wait, forwarding or set-up failed *)
}.

Definition born : life :=
  {| children := 0; group := None; probe := None; stopping := false; pending := None;
     stamping := false; forwarded_at := None; clock := None; taken := None; ended := None;
     unstarted := false; fault := false |}.

Definition group_of (pid : Z) : Z := default i32_max (i32_try_from pid).

Definition opt_is (o : option Z) (z : Z) : bool := is_some_and o (Z.eqb z).

(** No member of the last child's group is left. *)
Definition gone (l : life) : bool := match probe l with Some false => true | _ => false end.
Definition vacant (l : life) : bool := opt_is_none (group l) || gone l.

(** The signal being sent is the one just taken from the host. *)
Definition forwarding (l : life) (signal : Z) : bool :=
  opt_is (pending l) signal && opt_is_none (forwarded_at l).

(** The child ended, or waiting for it or forwarding to it failed. *)
Definition over (l : life) : bool := opt_is_some (ended l) || fault l.

(** A group may be sent the signal just taken from the host; once its child is
    over, SIGTERM, and SIGKILL if the last probe found it alive; and SIGKILL when
    it was forwarded a signal at least the grace period ago. *)
Definition kill_allowed (l : life) (signal : Z) : bool :=
  forwarding l signal
  || over l && (signal =? SIGTERM)
  || over l && (signal =? SIGKILL) && match probe l with Some true => true | _ => false end
  || (signal =? SIGKILL) &&
     match forwarded_at l, clock l with
     | Some f, Some t => FORWARDED_SIGNAL_GRACE <=? t - f
     | _, _ => false
     end.

Definition kill_delivered (r : kill_result) : bool :=
  match r with KillOk | KillNoSuchProcess => true | _ => false end.
Definition kill_found (r : kill_result) : bool :=
  match r with KillOk | KillNotPermitted => true | _ => false end.

Definition life_step (l : life) (e : sv_event) : option life :=
  match e with
  | SvSpawn _ _ _ child =>
      if stopping l || (fault l || negb (vacant l)) then None
      else
        Some match child with
        | Some pid =>
            {| children := children l + 1; group := Some (group_of pid); probe := None;
               stopping := false; pending := None; stamping := false; forwarded_at := None;
               clock := clock l; taken := taken l; ended := None; unstarted := unstarted l;
               fault := fault l |}
        | None =>
            {| children := children l; group := group l; probe := probe l; stopping := true;
               pending := None; stamping := false; forwarded_at := forwarded_at l;
               clock := clock l; taken := taken l; ended := ended l; unstarted := true;
               fault := fault l |}
        end
  | SvTakeSignal (Some s) =>
      Some {| children := children l; group := group l; probe := probe l; stopping := true;
              pending := Some s; stamping := stamping l; forwarded_at := forwarded_at l;
              clock := clock l; taken := Some s; ended := ended l; unstarted := unstarted l;
              fault := fault l |}
  | SvNow t =>
      Some {| children := children l; group := group l; probe := probe l; stopping := stopping l;
              pending := pending l; stamping := false;
              forwarded_at := if stamping l then Some t else forwarded_at l;
              clock := Some t; taken := taken l; ended := ended l; unstarted := unstarted l;
              fault := fault l |}
  | SvKill pg signal r =>
      if negb (opt_is (group l) pg) then None
      else if signal =? 0 then
        Some {| children := children l; group := group l; probe := Some (kill_found r);
                stopping := stopping l; pending := pending l; stamping := stamping l;
                forwarded_at := forwarded_at l; clock := clock l; taken := taken l;
                ended := ended l; unstarted := unstarted l; fault := fault l |}
      else if negb (kill_allowed l signal) then None
      else
        Some {| children := children l; group := group l; probe := probe l; stopping := stopping l;
                pending := None; stamping := stamping l || (forwarding l signal && kill_delivered r);
                forwarded_at := forwarded_at l; clock := clock l; taken := taken l;
                ended := ended l; unstarted := unstarted l;
                fault := fault l || (forwarding l signal && negb (kill_delivered r)) |}
  | SvTryWait r =>
      Some {| children := children l; group := group l; probe := probe l; stopping := stopping l;
              pending := None; stamping := stamping l; forwarded_at := forwarded_at l;
              clock := clock l; taken := taken l;
              ended := match r with Ok (Some status) => Some status | _ => ended l end;
              unstarted := unstarted l;
              fault := fault l || negb (is_ok r) |}
  | SvAuthority ok =>
      Some {| children := children l; group := group l; probe := probe l; stopping := stopping l;
              pending := pending l; stamping := stamping l; forwarded_at := forwarded_at l;
              clock := clock l; taken := taken l; ended := ended l; unstarted := unstarted l;
              fault := fault l || negb ok |}
  | _ => Some l
  end.

Abbreviation lives := (monitor life_step born).

(** * Properties *)

Section lifecycle.
Context `{!Host, !Sha256} (at_ : Attached) (fuel : nat).

Abbreviation guarded := (guarded life_step born).
Abbreviation silent := (silent life_step).

Lemma silent_when b m : silent m -> silent (when b m).
Proof. intros Hm. destruct b; [done | apply silent_ret]. Qed.

Lemma silent_report stage status code attrs : silent (report at_ stage status code attrs).
Proof. apply silent_when. solve_silent. Qed.

Lemma silent_log_access event code : silent (log_access at_ event code).
Proof. apply silent_when. solve_silent. Qed.

Lemma silent_log_respawn ms outcome code : silent (log_respawn at_ ms outcome code).
Proof. apply silent_when. solve_silent. Qed.

Lemma silent_begin_child : silent (begin_child at_).
Proof. apply silent_when. solve_silent. Qed.

Lemma silent_end_child : silent (end_child at_).
Proof. apply silent_when. solve_silent. Qed.

Hint Resolve silent_report silent_log_access silent_log_respawn silent_begin_child silent_end_child : silent.

Lemma silent_report_ended stage status attrs : silent (report_ended at_ stage status attrs).
Proof. unfold report_ended, sample_thermal, sample_memory. solve_silent. Qed.

Lemma silent_report_health_beat a r w : silent (report_health_beat at_ a r w).
Proof. unfold report_health_beat, sample_thermal, sample_memory. solve_silent. Qed.

Hint Resolve silent_report_ended silent_report_health_beat : silent.

Lemma silent_report_endpoint_events events : silent (report_endpoint_events at_ events).
Proof. induction events as [|e events IH]; simpl; solve_silent. Qed.

Lemma silent_report_sidecar_event : silent (report_sidecar_event at_).
Proof. unfold report_sidecar_event, report_access_ready. solve_silent. Qed.

Hint Resolve silent_report_endpoint_events silent_report_sidecar_event : silent.

Lemma silent_poll_access : silent (poll_access at_).
Proof. apply silent_when. solve_silent. Qed.

Lemma silent_report_attempt_failure f a r u c b : silent (report_attempt_failure at_ f a r u c b).
Proof. unfold report_attempt_failure. solve_silent. Qed.

Lemma silent_report_environment_normalized l : silent (report_environment_normalized at_ l).
Proof. unfold report_environment_normalized. solve_silent. Qed.

Lemma silent_start_tasks tasks : silent (start_tasks tasks).
Proof. induction tasks as [|n tasks IH]; simpl; solve_silent. Qed.

Lemma silent_reap_descendants : silent (reap_descendants fuel).
Proof. unfold reap_descendants. solve_silent. Qed.

Lemma silent_all_resolve l : silent (all_resolve l).
Proof. induction l as [|x l IH]; simpl; unfold is_file; solve_silent. Qed.

Lemma silent_customer_environment inherited rt : silent (customer_environment inherited rt).
Proof.
  unfold customer_environment, normalize_customer_environment, normalize_tmpdir, normalize_preload,
    preload_resolves, is_writable_directory, is_directory, create_sticky_directory.
  pose proof silent_all_resolve. solve_silent.
Qed.

Hint Resolve silent_poll_access silent_report_attempt_failure silent_report_environment_normalized
  silent_start_tasks silent_reap_descendants silent_customer_environment : silent.

(** ** Cleaning up a group *)

(** What cleaning up never changes. *)
Definition core (l : life) : Z * option Z * bool * option Z * option exit_status * bool * bool :=
  (children l, group l, stopping l, taken l, ended l, unstarted l, fault l).

(** A state after the child was over, with nothing left to forward, its core and
    its group known. *)
Definition settled c (pg : Z) (l : life) : Prop :=
  core l = c /\ group l = Some pg /\ pending l = None /\ over l = true.

Lemma opt_is_Some o z : o = Some z -> opt_is o z = true.
Proof. intros ->. simpl. apply Z.eqb_refl. Qed.

Lemma guarded_now (P : life -> Prop) (Q : Z -> life -> Prop) D :
  (forall t l l', P l -> life_step l (SvNow t) = Some l' -> Q t l') -> guarded P now Q D.
Proof. intros Hq. apply guarded_ask. intros t l Hl. eexists. split; [done |]. by eapply Hq. Qed.

Lemma settled_now c pg D :
  guarded (settled c pg) now (fun _ => settled c pg) D.
Proof. apply guarded_now. intros t l l' (Hc & Hg & Hp & Ho) [= <-]. by split_and!. Qed.

Lemma settled_probe c pg D :
  guarded (settled c pg) (process_group_exists pg) (fun b l => settled c pg l /\ probe l = Some b) D.
Proof.
  eapply guarded_bind; [| intros r; apply guarded_ret; intros l Hl; exact Hl].
  apply guarded_ask. intros r l (Hc & Hg & Hp & Ho). cbn [life_step]. rewrite opt_is_Some by done. simpl.
  eexists. split; [done |]. split; [by split_and! | by destruct r].
Qed.

Lemma settled_kill c pg signal D :
  signal = SIGTERM \/ signal = SIGKILL ->
  guarded (fun l => settled c pg l /\ (signal = SIGKILL -> probe l = Some true))
    (signal_process_group pg signal) (fun _ => settled c pg) D.
Proof.
  intros Hsig. eapply guarded_bind; [| intros r; apply guarded_ret; intros l Hl; exact Hl].
  apply guarded_ask. intros r l ((Hc & Hg & Hp & Ho) & Hprobe). cbn [life_step]. rewrite opt_is_Some by done. cbn [negb].
  assert (Hfwd : forwarding l signal = false) by (unfold forwarding; by rewrite Hp).
  assert (Hok : kill_allowed l signal = true).
  { unfold kill_allowed. rewrite Ho, Hfwd. destruct Hsig as [-> | ->]; [done |]. by rewrite Hprobe. }
  rewrite (proj2 (Z.eqb_neq signal 0)) by (by destruct Hsig as [-> | ->]).
  rewrite Hok, Hfwd. simpl. eexists. split; [done |]. destruct l. unfold settled, core, over in *. simpl in *.
  by rewrite !orb_false_r.
Qed.

Lemma settled_silent {A} c pg (m : io sv_event A) (D : life -> Prop) :
  silent m -> (forall l, settled c pg l -> D l) -> guarded (settled c pg) m (fun _ => settled c pg) D.
Proof. intros Hm HD. by apply guarded_quiet. Qed.

Lemma settled_reap_until c pg deadline :
  guarded (settled c pg) (reap_until fuel pg deadline) (fun _ => settled c pg) (fun l => core l = c).
Proof.
  unfold reap_until. apply (guarded_loop _ _ (fun _ => settled c pg)); [| by intros _ l (? & _)].
  intros ?. eapply guarded_bind; [apply settled_probe |]. intros [].
  - simpl. eapply guarded_bind; [eapply guarded_pre; [apply settled_now | by intros l [? _]] |]. intros t.
    destruct (negb (t <? deadline)); [by apply guarded_ret |].
    eapply guarded_bind; [apply settled_silent; [apply silent_reap_descendants | by intros l (? & _)] |].
    intros ?. eapply guarded_bind; [apply settled_silent; [solve_silent | by intros l (? & _)] |].
    intros ?. by apply guarded_ret.
  - simpl. apply guarded_ret. by intros l [? _].
Qed.

(** Cleaning up signals no other group, kills only what was found alive, and
    reports completion only when the last probe found nobody. *)
Lemma terminate_guarded c pg :
  guarded (fun l => settled c pg l /\ gone l = false) (terminate_and_reap_group fuel pg)
    (fun b l => settled c pg l /\ gone l = b) (fun l => core l = c).
Proof.
  unfold terminate_and_reap_group. destruct (pg <=? 0); [apply guarded_ret; by intros l ? |].
  eapply guarded_bind; [eapply guarded_pre; [apply settled_kill; by left | by intros l [? _]] |]. intros ?.
  eapply guarded_bind; [apply settled_now |]. intros t1.
  eapply guarded_bind; [apply settled_reap_until |]. intros ?.
  eapply guarded_bind; [apply settled_probe |]. intros alive.
  eapply guarded_bind.
  { instantiate (1 := fun _ => settled c pg). destruct alive.
    - eapply guarded_pre; [apply settled_kill; by right | by intros l [? ?]].
    - apply guarded_ret. by intros l [? _]. }
  intros ?. eapply guarded_bind; [apply settled_now |]. intros t2.
  eapply guarded_bind; [apply settled_reap_until |]. intros ?.
  eapply guarded_bind; [apply settled_silent; [apply silent_reap_descendants | by intros l (? & _)] |].
  intros ?. eapply guarded_bind; [apply settled_probe |]. intros b. apply guarded_ret.
  intros l [Hl Hp]. split; [done |]. unfold gone. rewrite Hp. by destruct b.
Qed.

(** ** Waiting for a child *)

(** The [n]-th child is running in group [pg] and [fwd] was forwarded. *)
Definition running (n pg : Z) (fwd : option (Z * Z)) (l : life) : Prop :=
  children l = n /\ group l = Some pg /\ probe l = None /\ stamping l = false /\ ended l = None /\
  unstarted l = false /\ fault l = false /\
  match fwd with
  | Some (_, f) => stopping l = true /\ forwarded_at l = Some f
  | None => stopping l = false /\ forwarded_at l = None
  end.

Definition faulty (n pg : Z) (l : life) : Prop :=
  children l = n /\ group l = Some pg /\ probe l = None /\ pending l = None /\ fault l = true.

Lemma guarded_take_signal (P : life -> Prop) (Q : option Z -> life -> Prop) D :
  (forall r l l', r <> Some 0 -> P l -> life_step l (SvTakeSignal r) = Some l' -> Q r l') ->
  guarded P take_signal Q D.
Proof.
  intros HQ. apply (guarded_ask_where _ _ (fun r => r <> Some 0)).
  - intros t. unfold take_signal_cell. destruct (Z.eqb_spec (on_signal t) 0); simpl; congruence.
  - intros r l Hr Hl. destruct r as [s|]; eexists; (split; [done |]); by eapply HQ.
Qed.

(** A signal was just taken for a child that was forwarded none. *)
Definition signalled (n pg s : Z) (l : life) : Prop :=
  children l = n /\ group l = Some pg /\ probe l = None /\ stamping l = false /\ ended l = None /\
  unstarted l = false /\ fault l = false /\ stopping l = true /\ forwarded_at l = None /\
  pending l = Some s /\ s <> 0.

(** It was delivered; the clock reading that dates it comes next. *)
Definition delivered (n pg : Z) (l : life) : Prop :=
  children l = n /\ group l = Some pg /\ probe l = None /\ stamping l = true /\ ended l = None /\
  unstarted l = false /\ fault l = false /\ stopping l = true.

Lemma take_signal_running n pg fwd D :
  guarded (fun l => running n pg fwd l /\ pending l = None) take_signal
    (fun r l => match r, fwd with Some s, None => signalled n pg s l | _, _ => running n pg fwd l end) D.
Proof.
  apply guarded_take_signal. intros r l l' Hr [(?&?&?&?&?&?&?&Hf) _] Hstep. unfold running, signalled.
  destruct r as [s|]; injection Hstep as <-; [| by destruct fwd as [[? ?]|]].
  destruct fwd as [[? ?]|]; simpl; destruct Hf; split_and!; congruence.
Qed.

Lemma deliver_signal n pg s D :
  guarded (signalled n pg s) (signal_process_group pg s)
    (fun b => if b : bool then delivered n pg else faulty n pg) D.
Proof.
  eapply guarded_bind; [| intros r; apply guarded_ret; intros l Hl; exact Hl].
  apply guarded_ask. intros r l (Hn & Hg & Hpr & Hst & He & Hu & Hf & Hs & Hfa & Hp & Hs0).
  cbn [life_step]. rewrite opt_is_Some, (proj2 (Z.eqb_neq s 0)) by done. cbn [negb].
  assert (Hfwd : forwarding l s = true) by (unfold forwarding; by rewrite Hfa, opt_is_Some).
  unfold kill_allowed. rewrite Hfwd. simpl. rewrite Hst, Hf.
  eexists. split; [done |]. by destruct r.
Qed.

Lemma forward_signal_guarded n pg fwd :
  guarded (fun l => running n pg fwd l /\ pending l = None) (forward_signal pg fwd)
    (fun r l => match r with Some fwd' => running n pg fwd' l | None => faulty n pg l end)
    (fun l => children l = n).
Proof.
  unfold forward_signal. eapply guarded_bind; [apply take_signal_running |].
  intros [s|]; [destruct fwd as [[sg f]|]; [by apply guarded_ret |] | by apply guarded_ret].
  eapply guarded_bind; [apply deliver_signal |]. intros []; [| by apply guarded_ret].
  eapply guarded_bind; [| intros t; apply guarded_ret; intros l Hl; exact Hl].
  apply guarded_now. intros t l l' (Hn & Hg & Hpr & Hst & He & Hu & Hf & Hs) [= <-].
  unfold running. simpl. by rewrite Hst.
Qed.

Lemma force_after_grace_guarded n pg fwd forced D :
  guarded (running n pg fwd) (force_after_grace pg fwd forced) (fun _ => running n pg fwd) D.
Proof.
  unfold force_after_grace. destruct fwd as [[sg f]|]; [| by apply guarded_ret].
  destruct forced; [by apply guarded_ret |].
  eapply guarded_bind.
  { instantiate (1 := fun t l => running n pg (Some (sg, f)) l /\ clock l = Some t).
    apply guarded_now. intros t l l' (Hn & Hg & Hpr & Hst & He & Hu & Hf & Hs) [= <-].
    unfold running. simpl. by rewrite Hst. }
  intros t. destruct (FORWARDED_SIGNAL_GRACE <=? saturating_duration_since t f) eqn:Hgrace.
  2:{ apply guarded_ret. by intros l [? _]. }
  eapply guarded_bind; [| intros b; apply guarded_ret; intros l Hl; exact Hl].
  eapply guarded_bind; [| intros b; apply guarded_ret; intros l Hl; exact Hl].
  apply guarded_ask. intros r l [(Hn & Hg & Hpr & Hst & He & Hu & Hf & Hs & Hfa) Hc].
  cbn [life_step]. rewrite opt_is_Some by done. cbn [negb]. change (SIGKILL =? 0) with false. cbn iota.
  assert (Hfwd : forwarding l SIGKILL = false) by (unfold forwarding; by rewrite Hfa, andb_false_r).
  assert (Hok : kill_allowed l SIGKILL = true).
  { unfold kill_allowed. rewrite Hfa, Hc. reflect_bool. unfold saturating_duration_since in Hgrace.
    rewrite (proj2 (Z.leb_le FORWARDED_SIGNAL_GRACE (t - f)))
      by (assert (0 < FORWARDED_SIGNAL_GRACE) by done; lia). by rewrite orb_true_r. }
  rewrite Hok, Hfwd. simpl. rewrite !orb_false_r. eexists. split; [done |]. by unfold running.
Qed.

(** Cleaning up keeps every property of the core. *)
Lemma terminate_keeps (K : life -> Prop) pg :
  (forall l l', core l = core l' -> K l -> K l') ->
  guarded (fun l => K l /\ group l = Some pg /\ pending l = None /\ over l = true /\ probe l = None)
    (terminate_and_reap_group fuel pg) (fun b l => K l /\ gone l = b) K.
Proof.
  intros HK. eapply guarded_pre; [apply (guarded_exists _ _ (fun l0 l => K l0 /\ settled (core l0) pg l /\ gone l = false)) |].
  - intros l0. apply guarded_pure. intros Hl0. eapply guarded_conseq; [apply (terminate_guarded (core l0) pg) | done | |].
    + intros b l [(Hc & _) Hg]. split; [by apply (HK l0) | done].
    + intros l Hc. by apply (HK l0).
  - intros l (Hl & Hg & Hp & Ho & Hpr). exists l. unfold gone. rewrite Hpr. by split_and!.
Qed.

Lemma fail_attempt_guarded n pg code a r :
  guarded (faulty n pg) (fail_attempt at_ fuel pg code a r)
    (fun e l => e = Code 70 /\ children l = n /\ fault l = true) (fun l => children l = n).
Proof.
  set (K l := children l = n /\ fault l = true).
  assert (HD : forall l, K l -> children l = n) by (by intros l [? _]).
  unfold fail_attempt. eapply guarded_bind.
  { eapply guarded_conseq; [apply (terminate_keeps K pg) | | intros b l Hl; exact Hl | exact HD].
    - unfold K, core. intros l l' [=] [? ?]. split; congruence.
    - intros l (? & ? & ? & ? & Hf). unfold over. rewrite Hf, orb_true_r. by split_and!. }
  intros b. eapply guarded_conseq with (P' := K) (D' := K); [| by intros l [? _] | intros e l Hl; exact Hl | exact HD].
  eapply guarded_bind; [apply guarded_silent, silent_end_child |]. intros ?.
  eapply guarded_bind; [apply guarded_silent; unfold report_supervisor_failure; apply silent_report |].
  intros ?. by apply guarded_ret.
Qed.

Lemma beat_if_due_guarded n pg fwd next a r w :
  guarded (fun l => running n pg fwd l /\ pending l = None) (beat_if_due at_ next a r w)
    (fun _ l => running n pg fwd l /\ pending l = None) (fun l => children l = n).
Proof.
  set (K l := running n pg fwd l /\ pending l = None).
  assert (Hnow : forall D, guarded K now (fun _ => K) D).
  { intros D. apply guarded_now. intros t l l' [(Hn & Hg & Hpr & Hst & He & Hu & Hf & Hs) Hp] [= <-].
    unfold K, running. simpl. by rewrite Hst. }
  unfold beat_if_due. eapply guarded_bind; [apply Hnow |]. intros t.
  destruct (next <=? t); [| by apply guarded_ret].
  eapply guarded_bind; [apply guarded_quiet; [by intros l [(? & _) _] | apply silent_report_health_beat] |].
  intros ?. eapply guarded_bind; [apply Hnow |]. intros t'. by apply guarded_ret.
Qed.

(** The outcome of waiting. *)
Definition waited_for (n pg : Z) (o : wait_outcome) (l : life) : Prop :=
  match o with
  | inl e => e = Code 70 /\ children l = n /\ fault l = true
  | inr (status, fwd) =>
      children l = n /\ group l = Some pg /\ probe l = None /\ pending l = None /\
      ended l = Some status /\ unstarted l = false /\ fault l = false /\
      stopping l = opt_is_some fwd
  end.

Lemma try_wait_guarded n pg fwd D :
  guarded (running n pg fwd) (ask on_try_wait SvTryWait)
    (fun r l => match r with
     | Ok (Some status) => waited_for n pg (inr (status, fwd)) l
     | Ok None => running n pg fwd l /\ pending l = None
     | Err _ => faulty n pg l end) D.
Proof.
  apply guarded_ask. intros r l (Hn & Hg & Hpr & Hst & He & Hu & Hf & Hs). eexists. split; [done |].
  destruct r as [[status|]|]; simpl; unfold running, faulty; simpl; rewrite ?Hf; split_and!; try done.
  destruct fwd as [[? ?]|]; by destruct Hs.
Qed.

Lemma wait_child_guarded n pg w a r next :
  guarded (fun l => running n pg None l /\ pending l = None) (wait_child at_ fuel pg w a r next)
    (waited_for n pg) (fun l => children l = n).
Proof.
  unfold wait_child.
  set (st0 := {| next_health := next; forwarded_signal := None; forced_cleanup := false |}).
  apply (guarded_loop _ _ (fun st l => running n pg (forwarded_signal st) l /\ pending l = None)) with (x := st0);
    [| by intros st l [(? & _) _]].
  intros st. unfold wait_step. eapply guarded_bind.
  { apply guarded_quiet; [by intros l [(? & _) _] | apply silent_poll_access]. }
  intros ?. eapply guarded_bind; [apply forward_signal_guarded |]. intros [fwd|]; cycle 1.
  { eapply guarded_bind; [apply fail_attempt_guarded |]. intros e. by apply guarded_ret. }
  eapply guarded_bind; [apply force_after_grace_guarded |]. intros forced.
  eapply guarded_bind; [apply try_wait_guarded |]. intros [[status|]|err]; [by apply guarded_ret | |].
  - eapply guarded_bind; [apply beat_if_due_guarded |]. intros next'.
    eapply guarded_bind.
    { apply guarded_quiet; [by intros l [(? & _) _] | unfold thread_sleep; solve_silent]. }
    intros ?. by apply guarded_ret.
  - eapply guarded_bind; [apply fail_attempt_guarded |]. intros e. by apply guarded_ret.
Qed.

(** ** Between attempts *)

(** [n] children were started, none is left, and another may follow. *)
Definition between (n : Z) (l : life) : Prop :=
  children l = n /\ vacant l = true /\ stopping l = false /\ unstarted l = false /\ fault l = false.

Lemma between_now n D : guarded (between n) now (fun _ => between n) D.
Proof. apply guarded_now. by intros t l l' (?&?&?&?&?) [= <-]. Qed.

(** The status a supervisor passes on. *)
Definition exit_of (status : exit_status) : SupervisorExit :=
  match status with
  | Exited code => Code code
  | Signaled signal => Signal signal
  | OtherStatus => Signal SIGKILL
  end.

(** Why the supervisor may return [r]. *)
Definition exit_justified (r : SupervisorExit) (l : life) : Prop :=
  (r = Code 126 /\ unstarted l = true) \/
  (r = Code 70 /\ (fault l = true \/ ended l <> None /\ gone l = false)) \/
  (exists signal, r = Signal signal /\ taken l = Some signal /\ vacant l = true) \/
  (exists status, r = exit_of status /\ ended l = Some status /\ gone l = true).

(** The last child ended with [status] and its group is gone. *)
Definition cleaned (n : Z) (status : exit_status) (stop : bool) (l : life) : Prop :=
  children l = n /\ gone l = true /\ ended l = Some status /\ unstarted l = false /\
  fault l = false /\ stopping l = stop.

Lemma cleaned_now n status stop D : guarded (cleaned n status stop) now (fun _ => cleaned n status stop) D.
Proof. apply guarded_now. by intros t l l' (?&?&?&?&?&?) [= <-]. Qed.

Lemma cleaned_silent {A} n status stop (m : io sv_event A) :
  silent m -> guarded (cleaned n status stop) m (fun _ => cleaned n status stop) (fun l => children l = n).
Proof.
  apply guarded_quiet. by intros l (? & _).
Qed.

Lemma cleaned_exit n status stop l : cleaned n status stop l -> exit_justified (exit_of status) l.
Proof. intros (_ & Hg & He & _). do 3 right. by exists status. Qed.

Definition interrupted (n signal : Z) (l : life) : Prop :=
  children l = n /\ taken l = Some signal /\ vacant l = true.

Lemma sleep_guarded n status d :
  guarded (cleaned n status false) (sleep_interruptibly d)
    (fun r l => match r with Some s => interrupted n s l | None => cleaned n status false l end)
    (fun l => children l = n).
Proof.
  unfold sleep_interruptibly. eapply guarded_bind; [apply cleaned_now |]. intros t0.
  apply (guarded_loop _ _ (fun _ => cleaned n status false)); [| by intros ? l (? & _)]. intros ?.
  eapply guarded_bind; [apply cleaned_now |]. intros t1. destruct (negb _); [by apply guarded_ret |].
  eapply guarded_bind.
  { instantiate (1 := fun r l => match r with Some s => interrupted n s l | None => cleaned n status false l end).
    apply guarded_take_signal. intros [s|] l l' _ (Hn & Hg & He & Hu & Hf & Hs) [= <-]; [| by split_and!].
    unfold interrupted, vacant, gone in *. simpl. destruct (probe l) as [[]|]; try done.
    by rewrite orb_true_r. }
  intros [s|]; [by apply guarded_ret |].
  eapply guarded_bind; [apply cleaned_now |]. intros t2.
  eapply guarded_bind; [apply cleaned_silent; unfold thread_sleep; solve_silent |]. intros ?. by apply guarded_ret.
Qed.

(** A restart is allowed to follow child number [n], of which [restarts] were
    restarts. *)
Definition restart_allowed (policy : EffectivePolicy) (restarts : Z) : Prop :=
  exists limit, ep_mode policy = OnFailure limit /\ forall m, limit = Attempts m -> restarts < m.

(** The result of concluding an attempt: return, or go on. *)
Definition next_or_exit (policy : EffectivePolicy) (n restarts : Z) (r : option SupervisorExit) (l : life) : Prop :=
  match r with
  | Some e => children l = n /\ exit_justified e l
  | None => between n l /\ restart_allowed policy restarts
  end.

Lemma restart_or_exit_guarded policy id failure status n a r k u b :
  guarded (cleaned n status false)
    (restart_or_exit at_ policy id failure (exit_of status) a r k u b)
    (next_or_exit policy n r) (fun l => children l = n).
Proof.
  unfold restart_or_exit. eapply guarded_bind; [apply cleaned_now |]. intros t.
  destruct (restart_delay policy a r k u id t) as [delay|disposition] eqn:Hdelay.
  - apply restart_delay_Ok in Hdelay as (limit & deadline & Hmode & _ & Hlimit & _).
    eapply guarded_bind; [apply cleaned_silent, silent_report_attempt_failure |]. intros ?.
    eapply guarded_bind; [apply cleaned_silent; unfold schedule_restart; apply silent_report |]. intros ?.
    eapply guarded_bind; [apply sleep_guarded |]. intros [s|]; apply guarded_ret.
    + intros l (Hn & Ht & Hv). split; [done |]. do 2 right. left. by exists s.
    + intros l (Hn & Hg & He & Hu & Hf & Hs). split; [| by exists limit]. split_and!; try done.
      unfold vacant. rewrite Hg. apply orb_true_r.
  - eapply guarded_bind; [apply cleaned_silent; unfold report_final_failure; apply silent_report |]. intros ?.
    apply guarded_ret. intros l Hl. split; [apply Hl | by eapply cleaned_exit].
Qed.

Lemma conclude_attempt_guarded policy id status fwd n a r k u b :
  guarded (cleaned n status (opt_is_some fwd)) (conclude_attempt at_ policy id status fwd a r k u b)
    (next_or_exit policy n r) (fun l => children l = n).
Proof.
  assert (Hend : forall stop stage st attrs e, e = exit_of status ->
    guarded (cleaned n status stop) (_ ← report_ended at_ stage st attrs; mret (Some e))
      (next_or_exit policy n r) (fun l => children l = n)).
  { intros stop stage st attrs e ->. eapply guarded_bind; [apply cleaned_silent, silent_report_ended |].
    intros ?. apply guarded_ret. intros l Hl. split; [apply Hl | by eapply cleaned_exit]. }
  unfold conclude_attempt. destruct fwd as [f|].
  - by destruct status; apply Hend.
  - destruct status as [code|signal|]; cbn [status_code status_signal default].
    + destruct (code =? 0); [by apply Hend | apply (restart_or_exit_guarded policy id _ (Exited code))].
    + apply (restart_or_exit_guarded policy id _ (Signaled signal)).
    + apply (restart_or_exit_guarded policy id _ OtherStatus).
Qed.

(** ** The loop *)

(** The counters of the loop after [n] children. *)
Definition counts (n : Z) (st : LoopState) : Prop :=
  0 <= n /\ process_attempt st = Z.min u64_max n /\ restart_count st = Z.min u64_max n.

(** How many children the policy admits before another start, and in all. *)
Definition may_start (policy : EffectivePolicy) (n : Z) : Prop :=
  match ep_mode policy with
  | Never => n = 0
  | OnFailure (Attempts m) => n <= Z.max 0 m
  | OnFailure ScheduleEnd => True
  end.
Definition within (policy : EffectivePolicy) (l : life) : Prop :=
  0 <= children l /\
  match ep_mode policy with
  | Never => children l <= 1
  | OnFailure (Attempts m) => children l <= Z.max 0 m + 1
  | OnFailure ScheduleEnd => True
  end.

Definition small_limit (policy : EffectivePolicy) : Prop :=
  forall m, ep_mode policy = OnFailure (Attempts m) -> m <= u64_max.

Lemma may_start_within policy n l : 0 <= n -> may_start policy n -> children l = n + 1 -> within policy l.
Proof. unfold may_start, within. intros H0' Hm ->. destruct (ep_mode policy) as [|[m|]]; lia. Qed.

Lemma may_start_again policy n st :
  small_limit policy -> counts n st -> restart_allowed policy (restart_count st) -> may_start policy (n + 1).
Proof.
  intros Hs (Hn & _ & Hr) (limit & Hmode & Hlimit). unfold may_start. rewrite Hmode.
  destruct limit as [m|]; [| done]. specialize (Hlimit m eq_refl). specialize (Hs m Hmode). lia.
Qed.

Lemma counts_next n st u : counts n st -> counts (n + 1) (next_state st u).
Proof. intros (Hn & Ha & Hr). unfold counts, saturating_add. simpl. unfold saturating_add. lia. Qed.

(** A child was just started. *)
Definition started (n pid : Z) (l : life) : Prop := running n (group_of pid) None l /\ pending l = None.

Definition stepped (policy : EffectivePolicy) (r : LoopState + SupervisorExit) (l : life) : Prop :=
  match r with
  | inl st => exists n, between n l /\ counts n st /\ may_start policy n
  | inr e => within policy l /\ exit_justified e l
  end.

Lemma run_child_guarded policy id pid t0 n st :
  small_limit policy -> counts n st -> may_start policy n ->
  guarded (started (n + 1) pid) (run_child at_ fuel policy id pid t0 st) (stepped policy) (within policy).
Proof.
  intros Hsmall Hcounts Hstart. pose proof (proj1 Hcounts) as Hn.
  assert (HD : forall l, children l = n + 1 -> within policy l) by (intros; by eapply may_start_within).
  eapply guarded_conseq with (P' := started (n + 1) pid) (D' := fun l => children l = n + 1);
    [| done | intros r l Hl; exact Hl | exact HD].
  assert (Hsil : forall A (m : io sv_event A), silent m ->
    guarded (started (n + 1) pid) m (fun _ => started (n + 1) pid) (fun l => children l = n + 1)).
  { intros A m. apply guarded_quiet. by intros l [(? & _) _]. }
  unfold run_child. eapply guarded_bind; [apply Hsil, silent_when; solve_silent |]. intros ?.
  eapply guarded_bind; [apply Hsil, silent_report |]. intros ?.
  eapply guarded_bind.
  { instantiate (1 := fun _ => started (n + 1) pid). apply guarded_now.
    intros t l l' [(?&?&?&Hst&?&?&?&?) ?] [= <-]. unfold started, running. simpl. by rewrite Hst. }
  intros t. eapply guarded_bind; [apply wait_child_guarded |]. fold (group_of pid). intros [e|[status fwd]].
  { apply guarded_ret. intros l (-> & Hc & Hf). split; [by apply HD |]. right. left. by split; [| left]. }
  set (K l := children l = n + 1 /\ ended l = Some status /\ unstarted l = false /\ fault l = false /\
    stopping l = opt_is_some fwd).
  eapply guarded_bind.
  { instantiate (1 := fun _ l =>
      K l /\ group l = Some (group_of pid) /\ pending l = None /\ over l = true /\ probe l = None).
    apply guarded_now. intros t' l l' (?&?&?&?&He&?&?&?) [= <-]. unfold K, over. simpl. by rewrite He. }
  intros ended_at. eapply guarded_bind.
  { eapply guarded_conseq; [apply (terminate_keeps K) | done | intros b l Hl; exact Hl | by intros l (? & _)].
    unfold K, core. intros l l' [=] (?&?&?&?&?). split_and!; congruence. }
  intros complete.
  assert (HsilK : forall A (m : io sv_event A), silent m ->
    guarded (fun l => K l /\ gone l = complete) m (fun _ l => K l /\ gone l = complete) (fun l => children l = n + 1)).
  { intros A m. apply guarded_quiet. by intros l [(? & _) _]. }
  eapply guarded_bind; [apply HsilK, silent_end_child |]. intros ?.
  eapply guarded_bind; [apply HsilK, silent_when; solve_silent |]. intros ?.
  destruct complete; cbn [negb]; cycle 1.
  { eapply guarded_bind; [apply HsilK; unfold report_supervisor_failure; apply silent_report |]. intros ?.
    apply guarded_ret. intros l [(? & He & _) Hg]. split; [by apply HD |]. right. left. split; [done |].
    right. by rewrite He. }
  eapply guarded_bind.
  { eapply guarded_pre; [apply conclude_attempt_guarded |]. intros l [(?&?&?&?&?) Hg]. by split_and!. }
  intros [e|]; apply guarded_ret.
  - intros l [Hc He]. split; [by apply HD | done].
  - intros l [Hb Hr]. exists (n + 1). split_and!; [done | by apply counts_next | by eapply may_start_again].
Qed.

Lemma supervise_step_guarded command env policy id st :
  small_limit policy ->
  guarded (fun l => exists n, between n l /\ counts n st /\ may_start policy n)
    (supervise_step at_ fuel command env policy id st) (stepped policy) (within policy).
Proof.
  intros Hsmall. apply guarded_exists. intros n.
  eapply guarded_pre; [apply (guarded_pure _ _ (counts n st /\ may_start policy n) (between n)) | naive_solver].
  intros [Hcounts Hstart]. pose proof (proj1 Hcounts) as Hn.
  assert (HD : forall l, children l = n -> within policy l).
  { intros l Hl. unfold within. rewrite Hl. unfold may_start in Hstart.
    destruct (ep_mode policy) as [|[m|]]; lia. }
  assert (Hsil : forall A (m : io sv_event A), silent m ->
    guarded (between n) m (fun _ => between n) (within policy)).
  { intros A m. apply guarded_quiet. intros l (Hc & _). by apply HD. }
  unfold supervise_step. eapply guarded_bind; [apply Hsil, silent_poll_access |]. intros ?.
  eapply guarded_bind.
  { instantiate (1 := fun r l => match r with Some s => interrupted n s l | None => between n l end).
    apply guarded_take_signal. by intros [s|] l l' _ (?&?&?&?&?) [= <-]. }
  intros [s|].
  { apply guarded_ret. intros l (Hc & Ht & Hv). split; [by apply HD |]. do 2 right. left. by exists s. }
  eapply guarded_bind; [apply Hsil, silent_start_tasks |]. intros ?.
  eapply guarded_bind; [apply between_now |]. intros t0. eapply guarded_bind; [apply Hsil, silent_begin_child |]. intros ?.
  eapply guarded_bind.
  { instantiate (1 := fun child l => match child with
      | Some pid => started (n + 1) pid l
      | None => children l = n /\ unstarted l = true end).
    apply guarded_ask. intros child l (Hc & Hv & Hs & Hu & Hf). cbn [life_step]. rewrite Hs, Hf, Hv. cbn [negb orb].
    eexists. split; [done |]. destruct child as [pid|]; [| done].
    unfold started, running. simpl. rewrite Hc. by split_and!. }
  intros [pid|]; [by apply run_child_guarded |].
  assert (HsilN : forall A (m : io sv_event A), silent m ->
    guarded (fun l => children l = n /\ unstarted l = true) m
      (fun _ l => children l = n /\ unstarted l = true) (within policy)).
  { intros A m. apply guarded_quiet. intros l [Hc _]. by apply HD. }
  eapply guarded_bind; [apply HsilN, silent_end_child |]. intros ?.
  eapply guarded_bind; [apply HsilN, silent_report |]. intros ?.
  apply guarded_ret. intros l [Hc Hu]. split; [by apply HD |]. by left.
Qed.

(** The number of children the server's policy admits, if it bounds it. *)
Definition child_limit (policy : option SupervisionPolicy) : option Z :=
  match policy with
  | Some p =>
      match sp_mode p with
      | Never => Some 1
      | OnFailure (Attempts m) => Some (m + 1)
      | OnFailure ScheduleEnd => None
      end
  | None => Some 1
  end.

Definition limited (policy : option SupervisionPolicy) (l : life) : Prop :=
  0 <= children l /\ forall n, child_limit policy = Some n -> children l <= n.

Lemma effective_mode policy elapsed t :
  ep_mode (effective_policy policy elapsed t) = Never \/
  exists p, policy = Some p /\ ep_mode (effective_policy policy elapsed t) = sp_mode p.
Proof.
  unfold effective_policy. destruct policy as [p|]; [| by left].
  destruct (checked_sub_u64 _ _); [| by left]. destruct (instant_checked_add _ _); [| by left]. right. eauto.
Qed.

(** The limits a bootstrap response can carry. *)
Lemma supervision_attempts r p m :
  supervision_policy r = Some p -> sp_mode p = OnFailure (Attempts m) -> 0 <= m <= 10.
Proof.
  unfold supervision_policy. intros (v & _ & Hp)%bind_Some Hm. apply bind_Some in Hp as (object & _ & Hp).
  destruct (has_unknown_key _ object); [done |]. apply bind_Some in Hp as (mode & Hmode & Hp).
  apply bind_Some in Hp as (server_time & _ & Hp). apply bind_Some in Hp as (schedule_end & _ & Hp).
  unfold then_some in Hp. destruct (_ <? _); [| done]. injection Hp as <-. simpl in Hm. subst mode.
  unfold parse_supervision_mode in Hmode. apply bind_Some in Hmode as (kind & _ & Hmode).
  destruct (kind =s "never"); [by destruct (is_some_and _ _) |].
  destruct (kind =s "on_failure"); [| done]. apply bind_Some in Hmode as (limit & _ & Hmode).
  apply bind_Some in Hmode as (rl & Hrl & [= ->]). unfold parse_restart_limit in Hrl.
  destruct (has_unknown_key _ limit); [done |]. apply bind_Some in Hrl as (lk & _ & Hrl).
  destruct (lk =s "attempts"); [| destruct (lk =s "schedule_end"); by repeat case_match].
  apply bind_Some in Hrl as (mr & _ & Hrl). apply bind_Some in Hrl as (n & Hn & [= ->]).
  unfold u8_try_from in Hn. destruct ((0 <=? mr) && (mr <=? u8_max)) eqn:Hu; [| done]. simpl in Hn.
  destruct (mr <=? 10) eqn:H10; [| done]. injection Hn as <-. reflect_bool. lia.
Qed.

Lemma effective_limited bootstrap elapsed t l :
  within (effective_policy (supervision_policy bootstrap) elapsed t) l -> limited (supervision_policy bootstrap) l.
Proof.
  intros [H0' Hw]. split; [done |]. intros n Hn.
  destruct (effective_mode (supervision_policy bootstrap) elapsed t) as [Hm|(p & Hp & Hm)]; rewrite Hm in Hw.
  - unfold child_limit in Hn. destruct (supervision_policy bootstrap) as [p|] eqn:Hp; [| simplify_eq; lia].
    destruct (sp_mode p) as [|[m|]] eqn:Hsp; simplify_eq; [lia |].
    pose proof (supervision_attempts _ _ _ Hp Hsp). lia.
  - rewrite Hp in Hn. simpl in Hn. destruct (sp_mode p) as [|[m|]] eqn:Hsp; simplify_eq; [lia |].
    pose proof (supervision_attempts _ _ _ Hp Hsp). lia.
Qed.

Lemma supervise_guarded command bootstrap elapsed rt tasks :
  guarded (fun l => l = born) (supervise at_ fuel command bootstrap elapsed rt tasks)
    (fun e l => limited (supervision_policy bootstrap) l /\ (command <> [] -> exit_justified e l) /\
                (command = [] -> e = Code 126))
    (limited (supervision_policy bootstrap)).
Proof.
  set (L := limited (supervision_policy bootstrap)).
  assert (Hborn : forall l, children l = 0 -> L l).
  { intros l Hl. split; [lia |]. intros n Hn. rewrite Hl. unfold child_limit in Hn.
    destruct (supervision_policy bootstrap) as [p|] eqn:Hp; [| simplify_eq; lia].
    destruct (sp_mode p) as [|[m|]] eqn:Hsp; simplify_eq; [lia |].
    pose proof (supervision_attempts _ _ _ Hp Hsp). lia. }
  unfold supervise. destruct command as [|c0 command].
  { eapply guarded_bind; [apply guarded_quiet; [intros l ->; by apply Hborn | apply silent_report] |].
    intros ?. apply guarded_ret. intros l ->. split_and!; [by apply Hborn | done | done]. }
  eapply guarded_bind.
  { instantiate (1 := fun ok l => if ok : bool then between 0 l else children l = 0 /\ fault l = true).
    apply guarded_ask. intros ok l ->. eexists. split; [done |]. by destruct ok. }
  intros [].
  2:{ eapply guarded_bind; [apply guarded_quiet; [intros l [Hl _]; by apply Hborn | apply silent_report] |].
      intros ?. apply guarded_ret. intros l [Hl Hf]. split_and!; [by apply Hborn | | done].
      intros _. right. left. by split; [| left]. }
  cbn [negb]. eapply guarded_bind; [apply between_now |]. intros t.
  set (policy := effective_policy (supervision_policy bootstrap) elapsed t).
  eapply guarded_bind; [apply guarded_quiet; [intros l [Hl _]; by apply Hborn | apply silent_customer_environment] |].
  intros [env normalized].
  eapply guarded_bind; [apply guarded_quiet;
    [intros l [Hl _]; by apply Hborn | apply silent_report_environment_normalized] |]. intros ?.
  assert (Hsmall : small_limit policy).
  { intros m Hm. destruct (effective_mode (supervision_policy bootstrap) elapsed t) as [Hn|(p & Hp & Hm')];
      fold policy in Hn || fold policy in Hm'; [congruence |]. rewrite Hm in Hm'. symmetry in Hm'.
    pose proof (supervision_attempts _ _ _ Hp Hm'). unfold u64_max. lia. }
  eapply guarded_conseq with (Q' := fun e l => within policy l /\ exit_justified e l) (D' := within policy).
  - apply (guarded_loop _ _ (fun st l => exists n, between n l /\ counts n st /\ may_start policy n)).
    + intros st. by apply supervise_step_guarded.
    + intros st l (n & (Hn & _) & (H0' & _) & Hs). unfold within. rewrite Hn. unfold may_start in Hs.
      destruct (ep_mode policy) as [|[m|]]; lia.
  - intros l Hl. exists 0. split_and!; [done | done |]. unfold may_start.
    destruct (ep_mode policy) as [|[m|]]; lia.
  - intros e l [Hw He]. split_and!; [by eapply effective_limited | done | done].
  - intros l Hw. by eapply effective_limited.
Qed.

End lifecycle.

(** ** Reading the automaton off the history *)

(** The processes started, newest first. *)
Definition spawned (e : sv_event) : option Z :=
  match e with SvSpawn _ _ _ child => child | _ => None end.
Definition spawns (t : list sv_event) : list Z := omap spawned t.

(** What the last probe since the last start found. *)
Fixpoint last_probe (t : list sv_event) : option bool :=
  match t with
  | [] => None
  | SvKill _ signal r :: t => if signal =? 0 then Some (kill_found r) else last_probe t
  | SvSpawn _ _ _ (Some _) :: _ => None
  | _ :: t => last_probe t
  end.

(** The earliest time the clock can show after a history: the last reading and
    the sleeps since. *)
Fixpoint clock_floor (t : list sv_event) : Z :=
  match t with
  | [] => 0
  | SvNow z :: _ => z
  | SvSleep d :: t => clock_floor t + Z.max 0 d
  | _ :: t => clock_floor t
  end.

Fixpoint last_reading (t : list sv_event) : option Z :=
  match t with
  | [] => None
  | SvNow z :: _ => Some z
  | _ :: t => last_reading t
  end.

Definition signal_taken (t : list sv_event) : Prop := exists s, SvTakeSignal (Some s) ∈ t.

Lemma signal_taken_cons e t :
  signal_taken (e :: t) <-> (exists s, e = SvTakeSignal (Some s)) \/ signal_taken t.
Proof. unfold signal_taken. set_solver. Qed.

Lemma opt_is_inv o z : opt_is o z = true -> o = Some z.
Proof. destruct o as [y|]; simpl; [| done]. intros ->%Z.eqb_eq. done. Qed.

(** Induction over an accepted history, with the last step taken apart. *)
Ltac monitor_induction t :=
  induction t as [|e t IH]; simpl;
  [intros l [= <-]; try done
  |intros l' Hl'; destruct (monitor life_step born t) as [l|]; [| done]; simpl in Hl';
   specialize (IH l eq_refl); destruct e; simpl in Hl'; repeat case_match; simplify_eq/=; try done].

Lemma lives_children t : forall l, lives t = Some l -> children l = Z.of_nat (length (spawns t)).
Proof. unfold spawns. monitor_induction t; simpl; lia. Qed.

Lemma lives_group t : forall l, lives t = Some l -> group l = group_of <$> head (spawns t).
Proof. unfold spawns. monitor_induction t. Qed.

Lemma lives_probe t : forall l, lives t = Some l -> probe l = last_probe t.
Proof. monitor_induction t. Qed.

Lemma lives_clock t : forall l, lives t = Some l -> clock l = last_reading t.
Proof. monitor_induction t. Qed.

Lemma lives_stopping t : forall l, lives t = Some l -> signal_taken t -> stopping l = true.
Proof.
  monitor_induction t; rewrite ?signal_taken_cons; try naive_solver.
  - intros [s Hs]. by apply not_elem_of_nil in Hs.
  - intros [[s [=]]|Ht]. match goal with Hs : (stopping l || _) = false |- _ => by rewrite IH in Hs end.
Qed.

Lemma forwarding_pending l s : forwarding l s = true -> pending l = Some s.
Proof. unfold forwarding. intros [Hp _]%andb_true_iff. by apply opt_is_inv. Qed.

(** What happened since the last process was started. *)
Fixpoint since_start (t : list sv_event) : list sv_event :=
  match t with
  | [] => []
  | SvSpawn _ _ _ (Some _) :: _ => []
  | e :: t => e :: since_start t
  end.

(** A failure the supervisor gives up for. *)
Definition is_failure (e : sv_event) : bool :=
  match e with
  | SvTryWait r => negb (is_ok r)
  | SvKill _ signal r => negb (signal =? 0) && negb (kill_delivered r)
  | SvAuthority ok => negb ok
  | _ => false
  end.

Definition is_reading (e : sv_event) : bool := match e with SvNow _ => true | _ => false end.

(** A signal taken from the host was delivered to [pg], and since then the clock
    was not read. *)
Definition delivering (pg : Z) (t : list sv_event) : Prop :=
  exists after s r before, t = after ++ SvKill pg s r :: before /\
    Forall (fun e => is_reading e = false) after /\ s <> 0 /\ kill_delivered r = true /\ SvTakeSignal (Some s) ∈ before.

(** The clock showed [f] when it was first read after that. *)
Definition forwarded_when (pg f : Z) (t : list sv_event) : Prop :=
  exists after before, t = after ++ SvNow f :: before /\ delivering pg before.

Lemma delivering_cons pg e t : is_reading e = false -> delivering pg t -> delivering pg (e :: t).
Proof.
  intros He (after & s & r & before & -> & Hall & Hs). exists (e :: after), s, r, before. split; [done |].
  split; [by constructor | done].
Qed.

Lemma forwarded_when_cons pg f e t : forwarded_when pg f t -> forwarded_when pg f (e :: t).
Proof. intros (after & before & -> & Hd). by exists (e :: after), before. Qed.

Lemma lives_pending t : forall l, lives t = Some l -> forall s, pending l = Some s -> SvTakeSignal (Some s) ∈ since_start t.
Proof.
  monitor_induction t; intros s' Hs'; simplify_eq/=; try (apply elem_of_cons; right; by apply IH); try done.
  apply elem_of_cons. by left.
Qed.

Lemma lives_ended t : forall l, lives t = Some l ->
  forall status, ended l = Some status -> SvTryWait (Ok (Some status)) ∈ since_start t.
Proof.
  monitor_induction t; intros st' Hst'; simplify_eq/=; try (apply elem_of_cons; right; by apply IH); try done.
  apply elem_of_cons. by left.
Qed.

Lemma lives_fault t : forall l, lives t = Some l -> fault l = true -> Exists (fun e => is_failure e = true) (since_start t).
Proof.
  induction t as [|e t IH]; simpl; intros l'; [by intros [= <-] |].
  destruct (lives t) as [l|] eqn:Hl; [| done]. simpl. specialize (IH l eq_refl). intros Hstep Hf.
  destruct e; simpl in Hstep; repeat case_match; simplify_eq/=; try (by apply Exists_cons_tl, IH); try congruence;
    try (apply orb_true_iff in Hf as [Hf|Hf]; [by apply Exists_cons_tl, IH |]; apply Exists_cons_hd).
  all: try done.
  - match goal with Hok : stopping l || _ = false |- _ => apply orb_false_iff in Hok as [_ [Hnf _]%orb_false_iff] end.
    congruence.
  - cbn [is_failure]. match goal with Hsig : (signal =? 0) = false |- _ => rewrite Hsig end. by apply andb_true_iff in Hf as [_ Hf].
Qed.

Lemma lives_forwarding t : forall l, lives t = Some l -> forall pg, group l = Some pg ->
  (stamping l = true -> delivering pg (since_start t)) /\
  (forall f, forwarded_at l = Some f -> forwarded_when pg f (since_start t)).
Proof.
  induction t as [|e t IH]; simpl; intros l'; [by intros [= <-] |].
  destruct (lives t) as [l|] eqn:Hl; [| done]. simpl. specialize (IH l eq_refl). intros Hstep pg Hg.
  destruct e; simpl in Hstep; repeat case_match; simplify_eq/=;
    try (destruct (IH _ Hg) as [IH1 IH2]; split; [intros; by apply delivering_cons, IH1
      | intros; by apply forwarded_when_cons, IH2]); try done.
  - destruct (IH _ Hg) as [IH1 IH2]. split; [done |]. intros f Hf. destruct (stamping l) eqn:Hst.
    + simplify_eq. exists [], (since_start t). split; [done | by apply IH1].
    + by apply forwarded_when_cons, IH2.
  - destruct (IH _ Hg) as [IH1 IH2]. split; [| intros; by apply forwarded_when_cons, IH2].
    intros [Hst|[Hfwd Hdel]%andb_true_iff]%orb_true_iff; [by apply delivering_cons, IH1 |].
    exists [], signal, r, (since_start t). apply forwarding_pending in Hfwd.
    match goal with Hn : negb (opt_is _ _) = false |- _ => apply negb_false_iff, opt_is_inv in Hn end.
    assert (process_group = pg) as -> by congruence.
    split_and!; [done | done | by apply Z.eqb_neq | done | by eapply lives_pending].
Qed.

Lemma since_start_split t pid rest : spawns t = pid :: rest ->
  exists command env capture before, t = since_start t ++ SvSpawn command env capture (Some pid) :: before.
Proof.
  unfold spawns. induction t as [|e t IH]; simpl; [done |].
  destruct e; simpl; try (intros (c & v & p & b & Ht)%IH; exists c, v, p, b; simpl; congruence).
  destruct pid0 as [pid'|]; simpl.
  - intros [= -> _]. by eexists _, _, _, _.
  - intros (c & v & p & b & Ht)%IH. exists c, v, p, b. simpl. congruence.
Qed.

(** ** Theorems *)

Section theorems.
Context `{!Host, !Sha256}.

(** The history of a supervised run, finished or not. *)
Definition history at_ fuel command bootstrap elapsed rt tasks : list sv_event :=
  snd (supervise at_ fuel command bootstrap elapsed rt tasks []).

Lemma history_lives at_ fuel command bootstrap elapsed rt tasks :
  exists l, lives (history at_ fuel command bootstrap elapsed rt tasks) = Some l /\
    limited (supervision_policy bootstrap) l.
Proof.
  pose proof (guarded_run _ _ _ _ _ _
    (supervise_guarded at_ fuel command bootstrap elapsed rt tasks) eq_refl) as Hrun.
  unfold history. destruct (supervise _ _ _ _ _ _ _ []) as [[e|] t]; simpl;
    [destruct Hrun as (l & ? & ? & _) | destruct Hrun as (l & ? & ?)]; eauto.
Qed.

Lemma history_event at_ fuel command bootstrap elapsed rt tasks t1 e t0 :
  history at_ fuel command bootstrap elapsed rt tasks = t1 ++ e :: t0 ->
  exists l l', lives t0 = Some l /\ life_step l e = Some l'.
Proof.
  intros Ht. destruct (history_lives at_ fuel command bootstrap elapsed rt tasks) as (l & Hl & _).
  rewrite Ht in Hl. by eapply monitor_event.
Qed.

(** C1: supervision refines the life-cycle automaton.  In every environment and
    at every moment the history is one the automaton accepts: a process is
    started only while no signal was taken, nothing failed and no member of an earlier
    group is known to live, only the current process group is ever signalled, SIGTERM
    of the helper's own comes only once the process is over, and a forced kill follows
    that and a probe that found the group alive, or the end of the grace period of a
    forwarded signal. *)
Theorem supervisor_refines_lifecycle at_ fuel command bootstrap elapsed rt tasks :
  exists l, lives (history at_ fuel command bootstrap elapsed rt tasks) = Some l.
Proof. destruct (history_lives at_ fuel command bootstrap elapsed rt tasks) as (l & ? & _). eauto. Qed.

(** The restart limit holds.  At every moment of every run the number of
    processes started is at most one without a restart policy, and at most the
    attempt limit plus one with one. *)
Theorem starts_bounded at_ fuel command bootstrap elapsed rt tasks n :
  child_limit (supervision_policy bootstrap) = Some n ->
  Z.of_nat (length (spawns (history at_ fuel command bootstrap elapsed rt tasks))) <= n.
Proof.
  intros Hn. destruct (history_lives at_ fuel command bootstrap elapsed rt tasks) as (l & Hl & _ & Hlim).
  rewrite <- (lives_children _ _ Hl). by apply Hlim.
Qed.

(** When a process may be started.  At each start no signal had been taken
    since supervision began, and if an earlier process was started, the last
    probe of its group found no member: no two process groups ever coexist, and
    a termination request is never followed by a new process. *)
Theorem start_discipline at_ fuel command bootstrap elapsed rt tasks t1 cmd env capture child t0 :
  history at_ fuel command bootstrap elapsed rt tasks = t1 ++ SvSpawn cmd env capture child :: t0 ->
  ~ signal_taken t0 /\ (spawns t0 <> [] -> last_probe t0 = Some false).
Proof.
  intros (l & l' & Hl & Hstep)%history_event. simpl in Hstep.
  destruct (stopping l || _) eqn:Hok; [done |].
  apply orb_false_iff in Hok as [Hs [_ Hv]%orb_false_iff]. apply negb_false_iff in Hv. split.
  - intros Ht. by rewrite (lives_stopping _ _ Hl Ht) in Hs.
  - intros Hne. rewrite <- (lives_probe _ _ Hl). unfold vacant in Hv.
    rewrite (lives_group _ _ Hl) in Hv. unfold gone in Hv.
    destruct (spawns t0); [done |]. simpl in Hv. by destruct (probe l) as [[]|].
Qed.

(** C6: whom the supervisor signals, and when.  Every signal goes to the group
    of the process started last.  Other than a probe it is one of three things.  It
    is the signal taken from the host since that process was started.  Or the
    process is over - its end was observed, or waiting for it or forwarding to it
    failed, since it was started - and the signal is SIGTERM, or SIGKILL after the
    last probe found the group alive.  Or it is SIGKILL, a signal taken from the
    host was delivered to this group since its process was started, and the last
    clock reading is at least five seconds past the first one after that
    delivery. *)
Theorem kill_discipline at_ fuel command bootstrap elapsed rt tasks t1 pg signal r t0 :
  history at_ fuel command bootstrap elapsed rt tasks = t1 ++ SvKill pg signal r :: t0 ->
  (exists pid cmd env capture before,
    t0 = since_start t0 ++ SvSpawn cmd env capture (Some pid) :: before /\ pg = group_of pid) /\
  (signal <> 0 ->
     SvTakeSignal (Some signal) ∈ since_start t0 \/
     (((exists status, SvTryWait (Ok (Some status)) ∈ since_start t0) \/
       Exists (fun e => is_failure e = true) (since_start t0)) /\
      (signal = SIGTERM \/ signal = SIGKILL /\ last_probe t0 = Some true)) \/
     (signal = SIGKILL /\ exists f now,
        forwarded_when pg f (since_start t0) /\ last_reading t0 = Some now /\ f + from_secs 5 <= now)).
Proof.
  intros (l & l' & Hl & Hstep)%history_event. simpl in Hstep.
  destruct (opt_is (group l) pg) eqn:Hg; [| done]. apply opt_is_inv in Hg. simpl in Hstep. split.
  - pose proof (lives_group _ _ Hl) as Hgr. rewrite Hg in Hgr. destruct (spawns t0) as [|pid rest] eqn:Hsp; [done |].
    injection Hgr as ->. destruct (since_start_split _ _ _ Hsp) as (c & v & p & b & Ht). by exists pid, c, v, p, b.
  - intros H0'. rewrite (proj2 (Z.eqb_neq signal 0)) in Hstep by done.
    destruct (kill_allowed l signal) eqn:Hok; [| done]. unfold kill_allowed in Hok.
    assert (Hover : over l = true -> (exists status, SvTryWait (Ok (Some status)) ∈ since_start t0) \/
      Exists (fun e => is_failure e = true) (since_start t0)).
    { unfold over. intros [He|Hf]%orb_true_iff; [left | right; by eapply lives_fault].
      destruct (ended l) as [status|] eqn:Hend; [| done]. exists status. by eapply lives_ended. }
    apply orb_true_iff in Hok as [Hok|[Hk Hok]%andb_true_iff]; [apply orb_true_iff in Hok as [Hok|Hok] |].
    + apply orb_true_iff in Hok as [Hok|[Ho Ht]%andb_true_iff].
      * left. eapply lives_pending; [exact Hl |]. by apply forwarding_pending.
      * right. left. split; [by apply Hover |]. left. by apply Z.eqb_eq.
    + apply andb_true_iff in Hok as [[Ho Hk]%andb_true_iff Hp]. right. left. split; [by apply Hover |]. right.
      split; [by apply Z.eqb_eq |]. rewrite <- (lives_probe _ _ Hl). by destruct (probe l) as [[]|].
    + right. right. split; [by apply Z.eqb_eq |]. destruct (forwarded_at l) as [f|] eqn:Hf; [| done].
      destruct (clock l) as [now|] eqn:Hc; [| done]. apply Z.leb_le in Hok. exists f, now. split_and!.
      * by apply (lives_forwarding _ _ Hl).
      * by rewrite <- (lives_clock _ _ Hl).
      * unfold FORWARDED_SIGNAL_GRACE in Hok. lia.
Qed.

(** C4: what the supervisor returns.  It passes on exactly the status of the
    last process, after its group was found empty; or a signal it took while no
    process group was left; or 126 after a start failed; or 70 after the
    set-up, the waiting, the forwarding or the cleanup failed. *)
Theorem exit_status_propagated at_ fuel command bootstrap elapsed rt tasks e t :
  command <> [] ->
  supervise at_ fuel command bootstrap elapsed rt tasks [] = (Some e, t) ->
  exists l, lives t = Some l /\
    ((exists status, e = exit_of status /\ ended l = Some status /\ last_probe t = Some false) \/
     (exists signal, e = Signal signal /\ taken l = Some signal /\
        (spawns t <> [] -> last_probe t = Some false)) \/
     (e = Code 126 /\ unstarted l = true) \/
     (e = Code 70 /\ (fault l = true \/ ended l <> None /\ last_probe t <> Some false))).
Proof.
  intros Hne Hrun. pose proof (guarded_run _ _ _ _ _ _
    (supervise_guarded at_ fuel command bootstrap elapsed rt tasks) eq_refl) as Hg.
  rewrite Hrun in Hg. destruct Hg as (l & Hl & _ & Hex & _). exists l. split; [done |].
  rewrite <- (lives_probe _ _ Hl).
  destruct (Hex Hne) as [[-> Hu]|[[-> Hf]|[(s & -> & Ht & Hv)|(st & -> & He & Hgo)]]].
  - do 2 right. by left.
  - do 3 right. split; [done |]. destruct Hf as [|[? Hgo]]; [by left | right]. split; [done |].
    unfold gone in Hgo. by destruct (probe l) as [[]|].
  - right. left. exists s. split_and!; [done | done |]. unfold vacant in Hv.
    rewrite (lives_group _ _ Hl) in Hv. unfold gone in Hv.
    destruct (spawns t); [done |]. simpl in Hv. by destruct (probe l) as [[]|].
  - left. exists st. split_and!; [done | done |]. unfold gone in Hgo. by destruct (probe l) as [[]|].
Qed.

End theorems.

(** ** What is started *)

(** The automaton that accepts only starts of one command in one environment. *)
Definition start_step (command : list string) (env : environment) (s : unit) (e : sv_event) : option unit :=
  match e with
  | SvSpawn c v _ _ => if bool_decide (c = command /\ v = env) then Some s else None
  | _ => Some s
  end.

Definition only_starts (command : list string) (env : environment) (e : sv_event) : Prop :=
  match e with SvSpawn c v _ _ => c = command /\ v = env | _ => True end.

Lemma start_step_ignored command env e : ignored (start_step command env) e <-> only_starts command env e.
Proof.
  unfold ignored. destruct e; simpl; try naive_solver. split.
  - intros Hs. specialize (Hs tt). by case_bool_decide.
  - intros Hs s. by rewrite bool_decide_eq_true_2.
Qed.

Section starts.
Context `{!Host, !Sha256} (at_ : Attached) (fuel : nat) (command : list string) (env : environment).

Abbreviation silent := (silent (start_step command env)).

Lemma starts_endpoint_events events : silent (report_endpoint_events at_ events).
Proof.
  induction events as [|e events IH]; simpl; unfold log_access, report, when; solve_silent.
Qed.

Lemma starts_poll_access : silent (poll_access at_).
Proof.
  pose proof starts_endpoint_events.
  unfold poll_access, report_sidecar_event, report_access_ready, log_respawn, log_access, report, when.
  solve_silent.
Qed.

Lemma starts_tasks tasks : silent (start_tasks tasks).
Proof. induction tasks as [|n tasks IH]; simpl; solve_silent. Qed.

Lemma starts_terminate pg : silent (terminate_and_reap_group fuel pg).
Proof.
  unfold terminate_and_reap_group, reap_until, reap_descendants, process_group_exists,
    signal_process_group, kill, now, thread_sleep. solve_silent.
Qed.

Lemma starts_conclude policy id status fwd a r k u b :
  silent (conclude_attempt at_ policy id status fwd a r k u b).
Proof.
  unfold conclude_attempt, restart_or_exit, sleep_interruptibly, take_signal, now, thread_sleep,
    report_attempt_failure, report_final_failure, schedule_restart, report_ended, sample_thermal,
    sample_memory, report, when. solve_silent.
Qed.

Lemma starts_wait pg w a r next : silent (wait_child at_ fuel pg w a r next).
Proof.
  pose proof starts_poll_access. pose proof starts_terminate.
  unfold wait_child, wait_step, forward_signal, force_after_grace, beat_if_due, fail_attempt, take_signal,
    signal_process_group, kill, report_health_beat, report_supervisor_failure, end_child, sample_thermal,
    sample_memory, report, when, now, thread_sleep. solve_silent.
Qed.

Lemma starts_step policy id st : silent (supervise_step at_ fuel command env policy id st).
Proof.
  pose proof starts_poll_access. pose proof starts_terminate. pose proof starts_conclude.
  pose proof starts_wait. pose proof starts_tasks.
  unfold supervise_step, run_child, take_signal, now, spawn_customer, begin_child, end_child,
    report_supervisor_failure, report, when. solve_silent.
  apply start_step_ignored. done.
Qed.

End starts.

Section started_environment.
Context `{!Host, !Sha256}.

Lemma no_spawn_customer_environment command env inherited rt :
  silent (start_step command env) (customer_environment inherited rt).
Proof.
  assert (Hres : forall l, silent (start_step command env) (all_resolve l)).
  { induction l as [|x l IH]; simpl; unfold is_file; solve_silent. }
  unfold customer_environment, normalize_customer_environment, normalize_tmpdir, normalize_preload,
    preload_resolves, is_writable_directory, is_directory, create_sticky_directory. solve_silent.
Qed.

(** All starts of a run use one environment, the one normalisation returned. *)
Lemma starts_use_environment at_ fuel command bootstrap elapsed rt tasks :
  (forall env, Forall (only_starts command env) (history at_ fuel command bootstrap elapsed rt tasks)) \/
  exists env normalized t0 t1,
    customer_environment host_vars rt t0 = (Some (env, normalized), t1) /\
    Forall (only_starts command env) (history at_ fuel command bootstrap elapsed rt tasks).
Proof.
  unfold history, supervise. destruct command as [|c command].
  { left. intros env. unfold report, when, mbind, io_bind. destruct (has_reporter at_); by repeat constructor. }
  unfold mbind, io_bind, ask, mret, io_ret. destruct (on_authority []); cycle 1.
  { left. intros env. simpl. unfold report, when. destruct (has_reporter at_); by repeat constructor. }
  simpl. unfold now, ask. set (t0 := [_; _]).
  assert (Ht0 : forall env, Forall (only_starts (c :: command) env) t0) by (by repeat constructor).
  assert (Hext : forall A env (m : io sv_event A) t,
    silent (start_step (c :: command) env) m -> Forall (only_starts (c :: command) env) t ->
    Forall (only_starts (c :: command) env) (snd (m t))).
  { intros A env m t Hm Ht. destruct (Hm t) as (es & -> & Hes). apply Forall_app. split; [| done].
    eapply List.Forall_impl; [| exact Hes]. intros e. apply start_step_ignored. }
  destruct (customer_environment host_vars rt t0) as [[[env normalized]|] t1] eqn:Henv; cycle 1.
  { left. intros env.
    pose proof (Hext _ env _ t0 (no_spawn_customer_environment _ env host_vars rt) (Ht0 env)) as Ht1.
    by rewrite Henv in Ht1. }
  right. exists env, normalized, t0, t1. split; [done |].
  pose proof (Hext _ env _ t0 (no_spawn_customer_environment _ env host_vars rt) (Ht0 env)) as Ht1.
  rewrite Henv in Ht1. simpl in Ht1.
  assert (Hrep : silent (start_step (c :: command) env) (report_environment_normalized at_ normalized))
    by (unfold report_environment_normalized, report, when; solve_silent).
  pose proof (Hext _ env _ t1 Hrep Ht1) as Ht2.
  destruct (report_environment_normalized at_ normalized t1) as [[[]|] t2]; [| done]. simpl in Ht2.
  apply Hext; [| done]. apply silent_loop. intros st. apply starts_step.
Qed.

(** C5: what the customer process gets.  Every process a run starts is the
    given command.  In its environment a name the helper owns has the helper's own
    value or no entry - so it identifies the accepted runtime instance - and each
    value handed to the supervisor is the only entry of any other name.  Nothing
    inherited under a protected name survives: such a name is there exactly when
    the handed values have it, and those of the signed runtime environment never
    do. *)
Theorem started_environment_safe at_ fuel command bootstrap elapsed values discovery peer proxy ready tasks
    cmd env capture child :
  btree_wf values ->
  SvSpawn cmd env capture child ∈
    history at_ fuel command bootstrap elapsed
      (discovery_environment values bootstrap discovery peer proxy ready) tasks ->
  cmd = command /\
  (forall n, n ∈ HELPER_OWNED ->
    entries n env = option_list ((fun v => (n, v)) <$> helper_value bootstrap discovery peer proxy ready n)) /\
  (forall n v, (n, v) ∈ values -> n ∉ HELPER_OWNED -> entries n env = [(n, v)]) /\
  (forall n, n ∈ PROTECTED_ENV_NAMES -> entries n env = option_list ((fun v => (n, v)) <$> btree_get n values)) /\
  (env_values_safe values -> forall n, n ∈ PROTECTED_ENV_NAMES -> entries n env = []) /\
  entries RUNTIME_INSTANCE_ID_ENV env = [(RUNTIME_INSTANCE_ID_ENV, rb_runtime_instance_id bootstrap)].
Proof.
  intros Hwf Hin. set (rt := discovery_environment _ _ _ _ _ _) in *.
  destruct (starts_use_environment at_ fuel command bootstrap elapsed rt tasks)
    as [Hall|(env' & normalized & t0 & t1 & Hrun & Hall)].
  { pose proof (Hall []) as H1'. pose proof (Hall [("A", "B")]) as H2'. rewrite Forall_forall in H1', H2'.
    destruct (H1' _ Hin) as [_ E1], (H2' _ Hin) as [_ E2]. congruence. }
  rewrite Forall_forall in Hall. destruct (Hall _ Hin) as [-> ->]. split; [done |].
  pose proof (customer_environment_entries host_vars _ _ _ _ _ _ Hwf _ _ _ Hrun) as Hent.
  cbn [fst snd] in Hent. unfold expected_entries in Hent.
  assert (Hown : forall n, n ∈ HELPER_OWNED ->
    entries n env' = option_list ((fun v => (n, v)) <$> helper_value bootstrap discovery peer proxy ready n)).
  { intros n Hn. destruct (Hent n) as [-> _]. by rewrite (proj2 (names_contain_spec _ _) Hn). }
  assert (Hprot : forall n, n ∈ PROTECTED_ENV_NAMES ->
    entries n env' = option_list ((fun v => (n, v)) <$> btree_get n values)).
  { intros n Hp. destruct (Hent n) as [-> _]. apply protected_not_owned in Hp as Hout.
    rewrite (proj2 (names_contain_false HELPER_OWNED n)) by set_solver.
    rewrite (proj2 (names_contain_spec _ _) Hp). by destruct (btree_get n values). }
  split_and!; [exact Hown | | exact Hprot | | by apply Hown, names_contain_spec].
  - intros n v Hv Hn. destruct (Hent n) as [-> _]. rewrite (proj2 (names_contain_false _ _) Hn).
    by rewrite (btree_get_in n v) by (auto with json).
  - intros Hsafe n Hp. rewrite Hprot by done. by rewrite signed_never_protected.
Qed.

End started_environment.

(** ** Examples *)

(** A child that ignores SIGTERM and exits, with code 3 the first time and 0 the
    second, on a clock that shows exactly the time slept. *)
Definition sample_host : Host :=
  {| host_vars := sample_inherited;
     host_pid := 7;
     on_authority := fun _ => true;
     host_directory := fun _ p => p =s "/tmp";
     host_writable := fun _ p => p =s "/tmp";
     host_file := fun _ _ => false;
     host_create_sticky := fun _ _ => false;
     on_now := clock_floor;
     on_signal := fun _ => 0;
     on_spawn := fun t _ _ => Some (100 + Z.of_nat (length (spawns t)));
     on_kill := fun t _ signal =>
       if signal =? 0 then
         match head (omap (fun e => match e with
                                    | SvKill _ s _ => if s =? 0 then None else Some s
                                    | _ => None
                                    end) t) with
         | Some s => if s =? SIGKILL then KillNoSuchProcess else KillOk
         | None => KillOk
         end
       else KillOk;
     on_reap := fun _ => 0;
     on_try_wait := fun t => Ok (Some (Exited (if (length (spawns t) =? 1)%nat then 3 else 0)));
     on_thermal := fun _ => None;
     on_memory := fun _ _ => unread;
     on_endpoints := fun _ => [];
     on_sidecar := fun _ => SidecarUnchanged;
     session_binding_attrs := Null;
     on_ready_attrs := fun _ => Null |}.

Definition sample_attached : Attached :=
  {| has_reporter := true; has_access := false; has_output := false; has_ssh_logs := false |}.

Definition sample_bootstrap : RuntimeBootstrapResponse := response_with_supervision sample_supervision.

Definition sample_history : list sv_event :=
  @history sample_host sample_sha256 sample_attached 10 ["/app"] sample_bootstrap 0
    (discovery_environment sample_env_values sample_bootstrap None None None None) [].

Lemma sample_history_split i e :
  sample_history !! i = Some e -> sample_history = take i sample_history ++ e :: drop (S i) sample_history.
Proof. intros Hi. by rewrite take_drop_middle. Qed.

Lemma starts_bounded_witness : Z.of_nat (length (spawns sample_history)) <= 4.
Proof.
  apply (@starts_bounded sample_host sample_sha256 sample_attached 10 ["/app"] sample_bootstrap 0
    (discovery_environment sample_env_values sample_bootstrap None None None None) [] 4).
  reflexivity.
Defined.

(** The second start of the run. *)
Lemma start_discipline_witness :
  ~ signal_taken (drop 100 sample_history) /\ last_probe (drop 100 sample_history) = Some false.
Proof.
  assert (Hat : exists cmd env c child, sample_history !! 99%nat = Some (SvSpawn cmd env c child))
    by (do 4 eexists; vm_compute; reflexivity).
  destruct Hat as (cmd & env & c & child & Hat).
  destruct (@start_discipline sample_host sample_sha256 sample_attached 10 ["/app"] sample_bootstrap 0
    (discovery_environment sample_env_values sample_bootstrap None None None None) [] _ _ _ _ _ _
    (sample_history_split 99 _ Hat)) as [Hs Hp].
  split; [exact Hs |]. apply Hp. vm_compute. discriminate.
Defined.

(** The SIGKILL to the second process group, which a probe found alive after its
    process had ended. *)
Lemma kill_discipline_witness :
  exists r, sample_history !! 8%nat = Some (SvKill 101 SIGKILL r) /\
    (SvTakeSignal (Some SIGKILL) ∈ since_start (drop 9 sample_history) \/
     ((exists status, SvTryWait (Ok (Some status)) ∈ since_start (drop 9 sample_history)) \/
       Exists (fun e => is_failure e = true) (since_start (drop 9 sample_history))) /\
      (SIGKILL = SIGTERM \/ SIGKILL = SIGKILL /\ last_probe (drop 9 sample_history) = Some true) \/
     SIGKILL = SIGKILL /\ exists f now,
        forwarded_when 101 f (since_start (drop 9 sample_history)) /\
        last_reading (drop 9 sample_history) = Some now /\ f + from_secs 5 <= now).
Proof.
  assert (Hat : exists r, sample_history !! 8%nat = Some (SvKill 101 SIGKILL r))
    by (eexists; vm_compute; reflexivity).
  destruct Hat as (r & Hat). exists r. split; [exact Hat |].
  apply (@kill_discipline sample_host sample_sha256 sample_attached 10 ["/app"] sample_bootstrap 0
    (discovery_environment sample_env_values sample_bootstrap None None None None) [] _ _ _ _ _
    (sample_history_split 8 _ Hat)). discriminate.
Defined.

Lemma exit_status_propagated_witness : exists l, lives sample_history = Some l.
Proof.
  assert (Hrun : exists e, @supervise sample_host sample_sha256 sample_attached 10 ["/app"] sample_bootstrap 0
    (discovery_environment sample_env_values sample_bootstrap None None None None) []
    [] = (Some e, sample_history)) by (eexists; vm_compute; reflexivity).
  destruct Hrun as [e Hrun].
  destruct (@exit_status_propagated sample_host sample_sha256 sample_attached 10 ["/app"] sample_bootstrap 0
    (discovery_environment sample_env_values sample_bootstrap None None None None) [] e sample_history
    ltac:(discriminate) Hrun) as (l & Hl & _). exists l. exact Hl.
Defined.

Lemma started_environment_safe_witness :
  exists env c child, SvSpawn ["/app"] env c child ∈ sample_history /\
    forall n, n ∈ PROTECTED_ENV_NAMES -> entries n env = [].
Proof.
  assert (Hat : exists env c child, sample_history !! 99%nat = Some (SvSpawn ["/app"] env c child))
    by (do 3 eexists; vm_compute; reflexivity).
  destruct Hat as (env & c & child & Hat). apply list_elem_of_lookup_2 in Hat.
  exists env, c, child. split; [exact Hat |].
  apply (@started_environment_safe sample_host sample_sha256 sample_attached 10 ["/app"] sample_bootstrap 0
    sample_env_values None None None None [] _ _ _ _ sample_env_values_wf Hat). exact sample_env_values_safe.
Defined.
