(* ===== verification/Liveness.v ===== *)
(** * Termination of supervision

    On a host whose clock respects sleeps, whose processes end and which has
    finitely many descendants to reap, supervision returns: the deadline loops
    finish within the turns they are given, and the restart policy bounds the
    attempts, by count or by the schedule. *)
From stdpp Require Import prelude strings.
From S2P Require Import Prelude Json Protocol CustomerEnvironment Thermal Memory Monitor RestartPolicy.
From S2P Require Import Supervisor Lifecycle.

Local Open Scope Z_scope.

(** Polls of the child started last. *)
Fixpoint polls (t : list sv_event) : nat :=
  match t with
  | [] => 0
  | SvTryWait _ :: t => S (polls t)
  | SvSpawn _ _ _ _ :: _ => 0
  | _ :: t => polls t
  end.

(** Descendants reaped in a row. *)
Fixpoint reaped (t : list sv_event) : nat :=
  match t with
  | SvReap _ :: t => S (reaped t)
  | _ => 0
  end.

(** What is assumed of the host: [Instant] is monotonic and [thread::sleep]
    sleeps at least as long as asked; a process is found ended after at most
    [max_polls] polls; at most [max_descendants] are waiting to be reaped. *)
Class FairHost `{!Host} (max_polls max_descendants : nat) := {
  fair_clock t : clock_floor t <= on_now t;
  fair_child t : (max_polls <= polls t)%nat -> on_try_wait t <> Ok None;
  fair_reap t : (max_descendants <= reaped t)%nat -> on_reap t <= 0
}.

(** ** Computations that return without polling *)

Definition idle (e : sv_event) : Prop :=
  match e with SvTryWait _ | SvSpawn _ _ _ _ => False | _ => True end.

Lemma polls_idle es t : Forall idle es -> polls (es ++ t) = polls t.
Proof. induction 1 as [|e es He _ IH]; [done |]. by destruct e. Qed.

Definition calm {A} (m : io sv_event A) : Prop :=
  forall t, exists a es, m t = (Some a, es ++ t) /\ Forall idle es /\ clock_floor t <= clock_floor (es ++ t).

Lemma calm_ret {A} (a : A) : calm (mret a).
Proof. intros t. exists a, []. by split_and!. Qed.

Lemma calm_bind {A B} (m : io sv_event A) (k : A -> io sv_event B) :
  calm m -> (forall a, calm (k a)) -> calm (m ≫= k).
Proof.
  intros Hm Hk t. destruct (Hm t) as (a & es & Hrun & Hes & Hc).
  destruct (Hk a (es ++ t)) as (b & es' & Hrun' & Hes' & Hc'). exists b, (es' ++ es).
  unfold mbind, io_bind. rewrite Hrun, Hrun', app_assoc. split_and!; [done | by apply Forall_app |].
  rewrite app_assoc in Hc'. lia.
Qed.

Definition timeless (e : sv_event) : Prop :=
  idle e /\ match e with SvNow _ => False | _ => True end.

Lemma calm_emit e : timeless e -> calm (emit e).
Proof.
  intros [Hi Hn] t. exists tt, [e]. split_and!; [done | by repeat constructor |].
  destruct e; simpl in *; try done; lia.
Qed.

Lemma calm_ask {A} (oracle : list sv_event -> A) ev : (forall a, timeless (ev a)) -> calm (ask oracle ev).
Proof.
  intros He t. exists (oracle t), [ev (oracle t)]. destruct (He (oracle t)) as [Hi Hn].
  split_and!; [done | by repeat constructor |]. destruct (ev (oracle t)); simpl in *; try done; lia.
Qed.

Lemma calm_pure {A} (f : list sv_event -> A) : calm (fun t => (Some (f t), t)).
Proof. intros t. exists (f t), []. by split_and!. Qed.

Create HintDb calm.

Ltac solve_calm :=
  repeat first
    [ solve [auto with calm]
    | apply calm_ret
    | apply calm_emit
    | apply calm_ask; intros ?
    | apply calm_pure
    | apply calm_bind; [| intros ?]
    | match goal with |- calm (match ?x with _ => _ end) => destruct x end ];
  try (by repeat split).

Section calm_parts.
Context `{!Host, !Sha256} (at_ : Attached).

Lemma calm_endpoint_events events : calm (report_endpoint_events at_ events).
Proof. induction events as [|e events IH]; simpl; unfold log_access, report, when; solve_calm. Qed.

Lemma calm_poll_access : calm (poll_access at_).
Proof.
  pose proof calm_endpoint_events.
  unfold poll_access, report_sidecar_event, report_access_ready, log_respawn, log_access, report, when.
  solve_calm.
Qed.

Lemma calm_tasks tasks : calm (start_tasks tasks).
Proof. induction tasks as [|n tasks IH]; simpl; solve_calm. Qed.

Lemma calm_report stage status code attrs : calm (report at_ stage status code attrs).
Proof. unfold report, when. solve_calm. Qed.

Lemma calm_report_ended stage status attrs : calm (report_ended at_ stage status attrs).
Proof. pose proof calm_report. unfold report_ended, sample_thermal, sample_memory. solve_calm. Qed.

Lemma calm_health a r w : calm (report_health_beat at_ a r w).
Proof. pose proof calm_report. unfold report_health_beat, sample_thermal, sample_memory. solve_calm. Qed.

Lemma calm_attempt_failure f a r u c b : calm (report_attempt_failure at_ f a r u c b).
Proof. pose proof calm_report_ended. unfold report_attempt_failure. solve_calm. Qed.

Lemma calm_begin_child : calm (begin_child at_).
Proof. unfold begin_child, when. solve_calm. Qed.

Lemma calm_end_child : calm (end_child at_).
Proof. unfold end_child, when. solve_calm. Qed.

Lemma calm_take_signal : calm take_signal.
Proof. unfold take_signal. solve_calm. Qed.

Lemma calm_signal_group pg s : calm (signal_process_group pg s).
Proof. unfold signal_process_group, kill. solve_calm. Qed.

Lemma calm_group_exists pg : calm (process_group_exists pg).
Proof. unfold process_group_exists, kill. solve_calm. Qed.

Lemma calm_customer_environment inherited rt : calm (customer_environment inherited rt).
Proof.
  assert (Hres : forall l, calm (all_resolve l)).
  { induction l as [|x l IH]; simpl; unfold is_file; solve_calm. }
  unfold customer_environment, normalize_customer_environment, normalize_tmpdir, normalize_preload,
    preload_resolves, is_writable_directory, is_directory, create_sticky_directory. solve_calm.
Qed.

Lemma calm_environment_normalized l : calm (report_environment_normalized at_ l).
Proof. pose proof calm_report. unfold report_environment_normalized. solve_calm. Qed.

End calm_parts.

#[export] Hint Resolve calm_poll_access calm_tasks calm_report calm_report_ended calm_health
  calm_attempt_failure calm_begin_child calm_end_child calm_take_signal calm_signal_group
  calm_group_exists calm_customer_environment calm_environment_normalized : calm.

(** ** Loops with a deadline *)

(** A body that goes on only before the deadline, and then only after a poll
    interval or up to the deadline. *)
Definition paced {A} (deadline : Z) (body : unit -> io sv_event (unit + A)) (Q : A -> Z -> Prop) : Prop :=
  forall t, exists r es, body tt t = (Some r, es ++ t) /\ Forall idle es /\
    clock_floor t <= clock_floor (es ++ t) /\
    match r with
    | inl _ => clock_floor t < deadline /\
        Z.min (clock_floor t + POLL_INTERVAL) deadline <= clock_floor (es ++ t)
    | inr a => Q a (clock_floor (es ++ t))
    end.

Lemma paced_loop {A} deadline (body : unit -> io sv_event (unit + A)) Q fuel t :
  paced deadline body Q -> deadline - clock_floor t <= Z.of_nat fuel * POLL_INTERVAL ->
  exists a es, loop (S fuel) body tt t = (Some a, es ++ t) /\ Forall idle es /\
    clock_floor t <= clock_floor (es ++ t) /\ Q a (clock_floor (es ++ t)).
Proof.
  intros Hbody. assert (Hpos : 0 < POLL_INTERVAL) by done.
  revert t. induction fuel as [|fuel IH]; intros t Hd; rewrite loop_S;
    destruct (Hbody t) as (r & es & -> & Hes & Hc & Hcont); (destruct r as [[]|a]; [| by exists a, es]);
    destruct Hcont as [Hlt Hadv].
  - lia.
  - destruct (IH (es ++ t)) as (a & es' & -> & Hes' & Hc' & HQ); [lia |].
    exists a, (es' ++ es). rewrite app_assoc in *. split_and!; [done | by apply Forall_app | lia | done].
Qed.

Section fair.
Context `{!Host, !Sha256} {max_polls max_descendants : nat}.
Context `{!FairHost max_polls max_descendants} (at_ : Attached) (fuel : nat).

Lemma now_run t : exists z, now t = (Some z, SvNow z :: t) /\ clock_floor t <= z.
Proof. exists (on_now t). split; [done |]. apply fair_clock. Qed.

Lemma calm_now : calm now.
Proof.
  intros t. destruct (now_run t) as (z & Hrun & Hz). exists z, [SvNow z].
  split_and!; [done | by repeat constructor | done].
Qed.

Lemma calm_thread_sleep d : calm (thread_sleep d).
Proof. unfold thread_sleep. solve_calm. Qed.

Hypothesis enough_reaps : (max_descendants < fuel)%nat.

Lemma calm_reap_descendants : calm (reap_descendants fuel).
Proof using FairHost0 enough_reaps.
  assert (Hloop : forall n t, (max_descendants < n + reaped t)%nat ->
    exists es, loop n (fun _ : unit => pid ← ask on_reap SvReap; mret (if pid <=? 0 then inr tt else inl tt)) tt t
      = (Some tt, es ++ t) /\ Forall idle es /\ clock_floor (es ++ t) = clock_floor t \/ n = 0%nat).
  { induction n as [|n IH]; intros t Hn; [exists []; by right |]. rewrite loop_S.
    unfold mbind, io_bind, ask, mret, io_ret. destruct (on_reap t <=? 0) eqn:Hp.
    - exists [SvReap (on_reap t)]. left. split_and!; [done | by repeat constructor | done].
    - destruct n as [|n].
      { exfalso. pose proof (fair_reap t ltac:(lia)). reflect_bool. lia. }
      destruct (IH (SvReap (on_reap t) :: t)) as [es [(Hrun & Hes & Hc)|?]]; [simpl; lia | | done].
      exists (es ++ [SvReap (on_reap t)]). left. rewrite <- app_assoc. split_and!; [done | | done].
      apply Forall_app. by repeat constructor. }
  intros t. destruct (Hloop fuel t ltac:(lia)) as [es [(Hrun & Hes & Hc)|?]]; [| lia].
  exists tt, es. unfold reap_descendants. rewrite Hrun. split_and!; [done | done | lia].
Qed.

Lemma paced_reap pg deadline :
  paced deadline (fun _ : unit =>
    alive ← process_group_exists pg;
    if negb alive then mret (inr tt)
    else
      t ← now;
      if negb (t <? deadline) then mret (inr tt)
      else
        _ ← reap_descendants fuel;
        _ ← thread_sleep POLL_INTERVAL;
        mret (inl tt)) (fun _ _ => True).
Proof using FairHost0 enough_reaps.
  intros t. unfold mbind at 1, io_bind at 1.
  destruct (calm_group_exists pg t) as (alive & e1 & -> & Hi1 & Hc1).
  destruct alive; simpl; [| by exists (inr tt), e1].
  unfold mbind at 1, io_bind at 1. destruct (now_run (e1 ++ t)) as (z & -> & Hz).
  destruct (z <? deadline) eqn:Hlt; simpl; cycle 1.
  { exists (inr tt), (SvNow z :: e1). split_and!; [done | by constructor | simpl; lia | done]. }
  unfold mbind at 1, io_bind at 1.
  destruct (calm_reap_descendants (SvNow z :: e1 ++ t)) as (u & e2 & -> & Hi2 & Hc2).
  exists (inl tt), (SvSleep POLL_INTERVAL :: e2 ++ SvNow z :: e1).
  assert (Happ : (e2 ++ SvNow z :: e1) ++ t = e2 ++ SvNow z :: e1 ++ t) by (by rewrite <- app_assoc).
  assert (0 < POLL_INTERVAL) by done. reflect_bool. simpl in *. split_and!.
  - unfold mbind, io_bind, thread_sleep, emit, mret, io_ret. by rewrite Happ.
  - constructor; [done |]. apply Forall_app. split; [done |]. by constructor.
  - rewrite Happ. lia.
  - reflect_bool. lia.
  - rewrite Happ. lia.
Qed.

Lemma calm_reap_until pg t1 :
  forall t, t1 <= clock_floor t ->
  exists es, reap_until fuel pg (t1 + CLEANUP_GRACE) t = (Some tt, es ++ t) /\ Forall idle es /\
    clock_floor t <= clock_floor (es ++ t).
Proof using FairHost0 enough_reaps.
  intros t Ht. destruct (paced_loop _ _ _ 21 t (paced_reap pg (t1 + CLEANUP_GRACE))) as ([] & es & Hrun & ? & ? & _).
  - unfold CLEANUP_GRACE, POLL_INTERVAL, from_millis, NANOS_PER_MILLI. lia.
  - exists es. by split_and!.
Qed.

Lemma calm_terminate pg : calm (terminate_and_reap_group fuel pg).
Proof using FairHost0 enough_reaps.
  assert (Hphase : forall A (k : io sv_event A), calm k ->
    calm (t1 ← now; _ ← reap_until fuel pg (t1 + CLEANUP_GRACE); k)).
  { intros A k Hk t. destruct (now_run t) as (z & Hnow & Hz). unfold mbind at 1, io_bind at 1. rewrite Hnow.
    destruct (calm_reap_until pg z (SvNow z :: t)) as (e1 & Hrun & Hi1 & Hc1); [simpl; lia |].
    unfold mbind, io_bind. rewrite Hrun.
    destruct (Hk (e1 ++ SvNow z :: t)) as (a & e2 & -> & Hi2 & Hc2). exists a, (e2 ++ e1 ++ [SvNow z]).
    rewrite <- !app_assoc. simpl in *. split_and!; [done | | lia].
    repeat (apply Forall_app; split; [done |]). by repeat constructor. }
  unfold terminate_and_reap_group. destruct (pg <=? 0); [apply calm_ret |].
  apply calm_bind; [apply calm_signal_group |]. intros ?. apply Hphase.
  apply calm_bind; [apply calm_group_exists |]. intros alive.
  apply calm_bind; [destruct alive; solve_calm |]. intros ?. apply Hphase.
  apply calm_bind; [apply calm_reap_descendants |]. intros ?.
  apply calm_bind; [apply calm_group_exists |]. intros ?. apply calm_ret.
Qed.

Lemma backoff_nonneg id a k : 0 <= deterministic_backoff id a k.
Proof.
  unfold deterministic_backoff. set (c := Z.min _ 60000).
  assert (0 <= c) by (assert (0 <= Z.shiftl 1000 (Z.min k 6)) by (by apply Z.shiftl_nonneg); lia).
  assert (0 <= c / 2 <= c) by (split; [by apply Z.div_pos | apply Z.div_le_upper_bound; lia]).
  set (smp := from_be_bytes _). pose proof (Z.mod_pos_bound smp (c - c / 2 + 1) ltac:(lia)).
  unfold from_millis, NANOS_PER_MILLI. lia.
Qed.

(** The sleep returns, and uninterrupted it lasts as long as asked. *)
Lemma sleep_run d t :
  0 <= d -> exists r es, sleep_interruptibly d t = (Some r, es ++ t) /\ Forall idle es /\
    clock_floor t <= clock_floor (es ++ t) /\ (r = None -> clock_floor t + d <= clock_floor (es ++ t)).
Proof using FairHost0 enough_reaps.
  intros Hd. destruct (now_run t) as (t0 & Hnow & Ht0).
  assert (Hp : 0 < POLL_INTERVAL) by done.
  assert (Hbody : paced (t0 + d) (fun _ : unit =>
    t ← now;
    if negb (t <? t0 + d) then mret (inr None)
    else
      signal ← take_signal;
      match signal with
      | Some signal => mret (inr (Some signal))
      | None =>
          t' ← now;
          _ ← thread_sleep (Z.min POLL_INTERVAL (saturating_duration_since (t0 + d) t'));
          mret (inl tt)
      end) (fun r c => r = None -> t0 + d <= c)).
  { intros u. unfold mbind at 1, io_bind at 1. destruct (now_run u) as (z & -> & Hz).
    destruct (z <? t0 + d) eqn:Hlt; reflect_bool; simpl; cycle 1.
    { exists (inr None), [SvNow z]. split_and!; [done | by repeat constructor | done | done]. }
    unfold take_signal, mbind, io_bind, ask, mret, io_ret.
    destruct (fst (take_signal_cell _)) as [s|] eqn:Hs.
    { exists (inr (Some s)), [SvTakeSignal (Some s); SvNow z]. split_and!; [done | by repeat constructor | done | done]. }
    destruct (now_run (SvTakeSignal None :: SvNow z :: u)) as (z' & Hn & Hz'). rewrite Hn. simpl in Hz'.
    eexists (inl tt), [SvSleep _; SvNow z'; SvTakeSignal None; SvNow z].
    split_and!; [done | by repeat constructor | simpl; lia | simpl; lia |].
    simpl. unfold saturating_duration_since. lia. }
  unfold sleep_interruptibly, mbind at 1, io_bind at 1. rewrite Hnow.
  assert (Hturns : sleep_turns d = S (Z.to_nat (d / POLL_INTERVAL + 2))).
  { unfold sleep_turns. assert (0 <= d / POLL_INTERVAL) by (apply Z.div_pos; lia). lia. }
  rewrite Hturns. destruct (paced_loop _ _ _ (Z.to_nat (d / POLL_INTERVAL + 2)) (SvNow t0 :: t) Hbody)
    as (r & es & -> & Hi & Hc & Hr).
  - simpl. assert (0 <= d / POLL_INTERVAL) by (apply Z.div_pos; lia).
    pose proof (Z.div_mod d POLL_INTERVAL ltac:(lia)). pose proof (Z.mod_pos_bound d POLL_INTERVAL Hp). nia.
  - exists r, (es ++ [SvNow t0]). rewrite <- app_assoc. simpl in *. split_and!; [done | | lia |].
    + apply Forall_app. by repeat constructor.
    + intros Hn. specialize (Hr Hn). lia.
Qed.

(** ** One attempt *)

Hypothesis enough_polls : (max_polls < fuel)%nat.

Hint Resolve calm_now calm_thread_sleep calm_terminate calm_reap_descendants : calm.

(** [m] returns, and time does not run backwards. *)
Definition ends {A} (m : io sv_event A) (t : list sv_event) : Prop :=
  exists a t', m t = (Some a, t') /\ clock_floor t <= clock_floor t'.

Lemma calm_ends {A} (m : io sv_event A) t : calm m -> ends m t.
Proof. intros Hm. destruct (Hm t) as (a & es & Hrun & _ & Hc). by exists a, (es ++ t). Qed.

Lemma ends_bind {A B} (m : io sv_event A) (k : A -> io sv_event B) t :
  ends m t -> (forall a t', m t = (Some a, t') -> ends (k a) t') -> ends (m ≫= k) t.
Proof.
  intros (a & t1 & Hrun & Hc) Hk. destruct (Hk a t1 Hrun) as (b & t2 & Hrun2 & Hc2).
  exists b, t2. unfold mbind, io_bind. rewrite Hrun, Hrun2. split; [done | lia].
Qed.

Lemma calm_bind_ends {A B} (m : io sv_event A) (k : A -> io sv_event B) t :
  calm m -> (forall a es, Forall idle es -> ends (k a) (es ++ t)) -> ends (m ≫= k) t.
Proof.
  intros Hm Hk. apply ends_bind; [by apply calm_ends |]. intros a t' Hrun.
  destruct (Hm t) as (a' & es & Hrun' & Hes & _). rewrite Hrun in Hrun'. injection Hrun' as <- ->. by apply Hk.
Qed.

Lemma wait_step_run pg w a r st t :
  exists o t', wait_step at_ fuel pg w a r st t = (Some o, t') /\ clock_floor t <= clock_floor t' /\
    match o with inl _ => polls t' = S (polls t) /\ (polls t < max_polls)%nat | inr _ => True end.
Proof using FairHost0 enough_reaps enough_polls.
  assert (Hfail : forall code, calm (fail_attempt at_ fuel pg code a r)).
  { intros code. unfold fail_attempt, report_supervisor_failure. solve_calm. }
  assert (Hfwd : forall f, calm (forward_signal pg f)) by (intros f; unfold forward_signal; solve_calm).
  assert (Hforce : forall f b, calm (force_after_grace pg f b)) by (intros f b; unfold force_after_grace; solve_calm).
  assert (Hbeat : forall n, calm (beat_if_due at_ n a r w)) by (intros n; unfold beat_if_due; solve_calm).
  unfold wait_step, mbind, io_bind, mret, io_ret.
  destruct (calm_poll_access at_ t) as (u1 & e1 & -> & Hi1 & Hc1).
  destruct (Hfwd (forwarded_signal st) (e1 ++ t)) as (f & e2 & -> & Hi2 & Hc2).
  destruct f as [f|]; cycle 1.
  { destruct (Hfail "signal_forward_failed" (e2 ++ e1 ++ t)) as (e & e3 & -> & _ & Hc3).
    eexists _, _. split; [done |]. split; [lia | done]. }
  destruct (Hforce f (forced_cleanup st) (e2 ++ e1 ++ t)) as (b & e3 & -> & Hi3 & Hc3).
  set (t3 := e3 ++ e2 ++ e1 ++ t) in *. unfold ask.
  assert (Hpolls : polls t3 = polls t) by (unfold t3; by rewrite !polls_idle).
  destruct (on_try_wait t3) as [[status|]|err] eqn:Hwait.
  - eexists _, _. split; [done |]. simpl. split; [lia | done].
  - destruct (Hbeat (next_health st) (SvTryWait (Ok None) :: t3)) as (n & e4 & -> & Hi4 & Hc4).
    eexists _, _. split; [done |]. simpl in *. split; [assert (0 < POLL_INTERVAL) by done; lia |].
    rewrite polls_idle by done. simpl. split; [lia |].
    destruct (decide (polls t < max_polls)%nat) as [|Hge]; [done |]. exfalso.
    apply (fair_child t3); [lia | done].
  - destruct (Hfail "wait_failed" (SvTryWait (Err err) :: t3)) as (e & e4 & -> & _ & Hc4).
    eexists _, _. split; [done |]. simpl in *. split; [lia | done].
Qed.

Lemma wait_child_ends pg w a r next t : polls t = 0%nat -> ends (wait_child at_ fuel pg w a r next) t.
Proof using FairHost0 enough_reaps enough_polls.
  intros Hp. unfold wait_child. set (st := {| next_health := next; forwarded_signal := None; forced_cleanup := false |}).
  assert (Hloop : forall n st t, (max_polls < n + polls t)%nat -> (0 < n)%nat ->
    ends (loop n (wait_step at_ fuel pg w a r) st) t).
  { induction n as [|n IH]; intros st' t' Hn H0'; [lia |]. unfold ends. rewrite loop_S.
    destruct (wait_step_run pg w a r st' t') as (o & t1 & -> & Hc & Ho). destruct o as [st1|o]; [| eauto].
    destruct Ho as [Hp1 Hlt].
    destruct (IH st1 t1) as (o & t2 & Hrun & Hc2); [lia | lia |]. exists o, t2. split; [done | lia]. }
  apply Hloop; lia.
Qed.

(** ** The attempts *)

(** A step that asks for another attempt was allowed to, and has waited for half
    a second or up to the final runway of the schedule. *)
Definition continues (policy : EffectivePolicy) (restarts c0 c1 : Z) : Prop :=
  exists limit deadline, ep_mode policy = OnFailure limit /\ schedule_deadline policy = Some deadline /\
    (forall m, limit = Attempts m -> restarts < m) /\
    c0 < deadline - FINAL_RUNWAY /\ Z.min (c0 + from_millis 500) (deadline - FINAL_RUNWAY) <= c1.

Lemma restart_or_exit_run policy id failure e a r k u b t :
  0 <= k ->
  exists o t', restart_or_exit at_ policy id failure e a r k u b t = (Some o, t') /\
    clock_floor t <= clock_floor t' /\
    (o = None -> continues policy r (clock_floor t) (clock_floor t')).
Proof using FairHost0 enough_reaps enough_polls.
  intros Hk. destruct (now_run t) as (z & Hnow & Hz).
  unfold restart_or_exit, mbind, io_bind, mret, io_ret. rewrite Hnow.
  destruct (restart_delay policy a r k u id z) as [d|disposition] eqn:Hdelay.
  - apply restart_delay_Ok in Hdelay as (limit & deadline & Hm & Hd & Hlim & Hrunway & Heq).
    pose proof (backoff_range id a (if STABILITY_RESET <=? u then 0 else k)) as Hrange.
    assert (Hk' : 0 <= if STABILITY_RESET <=? u then 0 else k) by (destruct (_ <=? _); lia).
    specialize (Hrange Hk').
    assert (0 < from_millis 500) by done.
    destruct (calm_attempt_failure at_ failure a r u b false (SvNow z :: t)) as (u1 & e1 & -> & Hi1 & Hc1).
    destruct (calm_report at_ "runtime.cargo.process.restart_scheduled" Info None
      (jobj [("fromProcessAttempt", jint a); ("toProcessAttempt", jint (saturating_add u64_max a 1));
             ("reason", Str (restart_reason failure)); ("delayMs", jint (duration_ms d))])
      (e1 ++ SvNow z :: t)) as (u2 & e2 & Hrun2 & Hi2 & Hc2).
    unfold schedule_restart. rewrite Hrun2.
    destruct (sleep_run d (e2 ++ e1 ++ SvNow z :: t)) as (o & e3 & -> & Hi3 & Hc3 & Ho); [lia |].
    eexists _, _. split; [done |]. simpl in *. split; [lia |].
    destruct o as [s|]; [done |]. intros _. specialize (Ho eq_refl).
    exists limit, deadline. split_and!; try done; lia.
  - destruct (calm_report at_ "runtime.fatal.cargo.process" Failed (Some (fatal_code failure))
      (match failure with
       | ExitNonzero code => value_insert "exitCode" (jint code)
           (jobj [("processAttempt", jint a); ("restartCount", jint r); ("uptimeMs", jint (duration_ms u));
                  ("cleanupComplete", Bool b); ("restartDisposition", Str disposition)])
       | SignalUnexpected signal => value_insert "signal" (jint signal)
           (jobj [("processAttempt", jint a); ("restartCount", jint r); ("uptimeMs", jint (duration_ms u));
                  ("cleanupComplete", Bool b); ("restartDisposition", Str disposition)])
       end) (SvNow z :: t)) as (u1 & e1 & Hrun & Hi1 & Hc1).
    unfold report_final_failure. rewrite Hrun. eexists _, _. split; [done |]. simpl in *. split; [lia | done].
Qed.

Lemma conclude_attempt_run policy id status fwd a r k u b t :
  0 <= k ->
  exists o t', conclude_attempt at_ policy id status fwd a r k u b t = (Some o, t') /\
    clock_floor t <= clock_floor t' /\
    (o = None -> continues policy r (clock_floor t) (clock_floor t')).
Proof using FairHost0 enough_reaps enough_polls.
  intros Hk.
  assert (Hend : forall stage st attrs (e : SupervisorExit), exists o t', (_ ← report_ended at_ stage st attrs; mret (Some e)) t = (Some o, t') /\
    clock_floor t <= clock_floor t' /\
    (o = None -> continues policy r (clock_floor t) (clock_floor t'))).
  { intros stage st attrs e. unfold mbind, io_bind.
    destruct (calm_report_ended at_ stage st attrs t) as (u1 & e1 & -> & Hi1 & Hc1).
    eexists _, _. split; [done |]. by split. }
  unfold conclude_attempt. destruct fwd; [destruct (status_code status); apply Hend |].
  destruct (status_code status) as [code|]; [destruct (code =? 0); [apply Hend |] |]; by apply restart_or_exit_run.
Qed.

Lemma run_child_run policy id pid t0 st t :
  0 <= consecutive_failures st -> polls t = 0%nat ->
  exists o t', run_child at_ fuel policy id pid t0 st t = (Some o, t') /\ clock_floor t <= clock_floor t' /\
    match o with
    | inl st' => continues policy (restart_count st) (clock_floor t) (clock_floor t') /\
        restart_count st' = saturating_add u64_max (restart_count st) 1 /\ 0 <= consecutive_failures st'
    | inr _ => True
    end.
Proof using FairHost0 enough_reaps enough_polls.
  intros Hk Hp. unfold run_child.
  assert (Hcap : forall e, timeless e -> calm (when (has_output at_) (emit e)))
    by (intros e He; unfold when; destruct (has_output at_); solve_calm).
  unfold mbind, io_bind, mret, io_ret.
  destruct (Hcap (SvCapture (process_attempt st)) ltac:(done) t) as (u1 & e1 & -> & Hi1 & Hc1).
  match goal with |- context [report at_ ?a ?b ?c ?d (e1 ++ t)] =>
    destruct (calm_report at_ a b c d (e1 ++ t)) as (u2 & e2 & -> & Hi2 & Hc2) end.
  destruct (now_run (e2 ++ e1 ++ t)) as (z & -> & Hz).
  match goal with |- context [wait_child at_ fuel ?pg ?w ?a ?r ?n ?u] =>
    destruct (wait_child_ends pg w a r n u) as (o & t3 & -> & Hc3) end.
  { simpl. by rewrite !polls_idle. }
  simpl in Hc3. destruct o as [e|[status fwd]]; [eexists _, _; split; [done |]; split; [lia | done] |].
  destruct (now_run t3) as (ended & -> & Hended).
  match goal with |- context [terminate_and_reap_group fuel ?pg ?u] =>
    destruct (calm_terminate pg u) as (complete & e4 & -> & Hi4 & Hc4) end.
  match goal with |- context [end_child at_ ?u] =>
    destruct (calm_end_child at_ u) as (u5 & e5 & -> & Hi5 & Hc5) end.
  match goal with |- context [when _ (emit SvCaptureFinish) ?u] =>
    destruct (Hcap SvCaptureFinish ltac:(done) u) as (u6 & e6 & -> & Hi6 & Hc6) end.
  simpl in Hc4. destruct complete; cbn [negb].
  - match goal with |- context [conclude_attempt at_ ?p ?i ?s ?f ?a ?r ?k ?u ?b ?v] =>
      destruct (conclude_attempt_run p i s f a r k u b v Hk) as (o & t7 & -> & Hc7 & Ho) end.
    eexists _, _. split; [done |]. split; [lia |]. destruct o as [e|]; [done |].
    destruct (Ho eq_refl) as (limit & deadline & ? & ? & ? & Hlt & Hadv). split_and!.
    + exists limit, deadline. split_and!; try done; lia.
    + done.
    + simpl. unfold saturating_add, u32_max. destruct (_ <=? _); lia.
  - unfold report_supervisor_failure.
    match goal with |- context [report at_ ?a ?b ?c ?d ?u] =>
      destruct (calm_report at_ a b c d u) as (u7 & e7 & -> & Hi7 & Hc7) end.
    eexists _, _. split; [done |]. split; [lia | done].
Qed.

Lemma supervise_step_run command env policy id st t :
  0 <= consecutive_failures st ->
  exists o t', supervise_step at_ fuel command env policy id st t = (Some o, t') /\
    match o with
    | inl st' => continues policy (restart_count st) (clock_floor t) (clock_floor t') /\
        restart_count st' = saturating_add u64_max (restart_count st) 1 /\ 0 <= consecutive_failures st'
    | inr _ => True
    end.
Proof using FairHost0 enough_reaps enough_polls.
  intros Hk. unfold supervise_step, spawn_customer, mbind, io_bind, mret, io_ret.
  destruct (calm_poll_access at_ t) as (u1 & e1 & -> & _ & Hc1).
  destruct (calm_take_signal (e1 ++ t)) as (sg & e2 & -> & _ & Hc2).
  destruct sg as [sg|]; [by eexists _, _ |].
  destruct (calm_tasks (pending_tasks st) (e2 ++ e1 ++ t)) as (u3 & e3 & -> & _ & Hc3).
  destruct (now_run (e3 ++ e2 ++ e1 ++ t)) as (z & -> & Hz).
  match goal with |- context [begin_child at_ ?u] =>
    destruct (calm_begin_child at_ u) as (u4 & e4 & -> & _ & Hc4) end.
  unfold ask. set (child := on_spawn _ _ _). set (t5 := SvSpawn _ _ _ _ :: _).
  assert (Hc5 : clock_floor t <= clock_floor t5) by (simpl in *; lia).
  assert (Hp5 : polls t5 = 0%nat) by done. clearbody child t5.
  destruct child as [pid|].
  - destruct (run_child_run policy id pid z st t5 Hk Hp5) as (o & t6 & -> & Hc6 & Ho).
    eexists _, _. split; [done |]. destruct o as [st'|]; [| done].
    destruct Ho as ((limit & deadline & ? & ? & ? & Hlt & Hadv) & ? & ?). split_and!; try done.
    exists limit, deadline. split_and!; try done; lia.
  - destruct (calm_end_child at_ t5) as (u6 & e6 & -> & _ & Hc6).
    match goal with |- context [report at_ ?a ?b ?c ?d ?u] =>
      destruct (calm_report at_ a b c d u) as (u7 & e7 & -> & _ & Hc7) end.
    by eexists _, _.
Qed.

(** [n] more attempts suffice. *)
Definition attempts_left (policy : EffectivePolicy) (restarts c : Z) (n : nat) : Prop :=
  (0 < n)%nat /\ 0 <= restarts <= u64_max /\
  forall limit deadline, ep_mode policy = OnFailure limit -> schedule_deadline policy = Some deadline ->
    match limit with
    | Attempts m => m <= u64_max /\ m - restarts < Z.of_nat n
    | ScheduleEnd => deadline - FINAL_RUNWAY - c <= (Z.of_nat n - 1) * from_millis 500
    end.

Lemma attempts_left_next policy restarts c0 c1 n :
  attempts_left policy restarts c0 (S n) -> continues policy restarts c0 c1 ->
  attempts_left policy (saturating_add u64_max restarts 1) c1 n.
Proof.
  intros (_ & Hr & Hleft) (limit & deadline & Hm & Hd & Hlim & Hlt & Hadv).
  assert (Hpos : 0 < from_millis 500) by done. specialize (Hleft limit deadline Hm Hd).
  assert (Hsat : saturating_add u64_max restarts 1 = Z.min u64_max (restarts + 1)).
  { done. }
  rewrite Hsat. split_and!; try lia.
  - destruct limit as [m|]; cbn beta iota in Hleft; [specialize (Hlim m eq_refl); lia |].
    destruct n; [exfalso | lia]. lia.
  - intros limit' deadline' Hm' Hd'. rewrite Hm in Hm'. rewrite Hd in Hd'. simplify_eq.
    destruct limit' as [m|]; cbn beta iota in *; [specialize (Hlim m eq_refl); lia |].
    unfold from_millis, NANOS_PER_MILLI in *. lia.
Qed.

Lemma attempts_end command env policy id n st t :
  0 <= consecutive_failures st -> attempts_left policy (restart_count st) (clock_floor t) n ->
  exists o t', loop n (supervise_step at_ fuel command env policy id) st t = (Some o, t').
Proof using FairHost0 enough_reaps enough_polls.
  revert st t. induction n as [|n IH]; intros st t Hk Hleft; [by destruct Hleft; lia |].
  rewrite loop_S. destruct (supervise_step_run command env policy id st t Hk) as (o & t1 & -> & Ho).
  destruct o as [st1|o]; [| by eauto]. destruct Ho as (Hcont & Hr1 & Hk1).
  apply IH; [done |]. rewrite Hr1. by eapply attempts_left_next.
Qed.

End fair.

(** ** Termination *)

(** A number of attempts no run of the policy exceeds: the attempt limit and
    one, or one for every half second of the schedule. *)
Definition attempt_bound (policy : option SupervisionPolicy) : nat :=
  match policy with
  | Some {| sp_mode := OnFailure (Attempts m) |} => S (Z.to_nat m)
  | Some {| sp_mode := OnFailure ScheduleEnd; server_time_ms := s; schedule_end_ms := e |} =>
      S (Z.to_nat (2 * (e - s)))
  | _ => 1
  end.

Lemma effective_policy_attempts policy elapsed z c n :
  0 <= elapsed -> z <= c -> (attempt_bound policy <= n)%nat ->
  (forall p m, policy = Some p -> sp_mode p = OnFailure (Attempts m) -> m <= u64_max) ->
  attempts_left (effective_policy policy elapsed z) 0 c n.
Proof.
  intros He Hz Hn Hmax. assert (Hpos : (0 < n)%nat).
  { destruct policy as [[[|[]] ? ?]|]; simpl in Hn; lia. }
  split_and!; [done | done | done |]. intros limit deadline Hmode Hdead. unfold effective_policy in *.
  destruct policy as [p|]; [| done]. unfold checked_sub_u64 in *.
  destruct (server_time_ms p <=? schedule_end_ms p) eqn:Hle; [| done].
  unfold instant_checked_add, duration_saturating_sub in *. destruct (_ <=? INSTANT_MAX); [| done].
  simpl in *. simplify_eq. reflect_bool. destruct p as [mode st se]; simpl in *. subst mode.
  destruct limit as [m|].
  - specialize (Hmax _ m eq_refl eq_refl). lia.
  - unfold FINAL_RUNWAY, from_secs, from_millis, NANOS_PER_MILLI, NANOS_PER_SEC in *. lia.
Qed.

(** C2: supervision terminates.  On a host whose clock is monotonic and respects
    sleeps, whose child processes end and which has finitely many descendants to
    reap, supervision returns an exit: every wait and clean-up loop ends, and
    the restarts are exhausted, by the attempt limit or by the end of the
    schedule. *)
Theorem supervision_terminates `{!Host, !Sha256} max_polls max_descendants
    `{!FairHost max_polls max_descendants} at_ fuel command bootstrap elapsed rt tasks :
  0 <= elapsed ->
  (max_polls < fuel)%nat -> (max_descendants < fuel)%nat ->
  (attempt_bound (supervision_policy bootstrap) <= fuel)%nat ->
  exists e t, supervise at_ fuel command bootstrap elapsed rt tasks [] = (Some e, t).
Proof.
  intros He Hpolls Hreaps Hbound. unfold supervise. destruct command as [|c command].
  { unfold mbind, io_bind. destruct (calm_report at_ "runtime.fatal.cargo.process" Failed
      (Some "process_start_failed") (jobj [("processAttempt", jint 0); ("restartCount", jint 0)]) [])
      as (u & es & -> & _). by eexists _, _. }
  unfold mbind, io_bind, ask, mret, io_ret. destruct (on_authority []) eqn:Hauth; cbn [negb]; cycle 1.
  { destruct (calm_report at_ "runtime.fatal.cargo.supervisor" Failed (Some "internal_failure") (jobj [])
      [SvAuthority false]) as (u & es & -> & _). by eexists _, _. }
  destruct (now_run [SvAuthority true]) as (z & -> & Hz).
  destruct (calm_customer_environment host_vars rt [SvNow z; SvAuthority true])
    as ([env normalized] & e1 & -> & _ & Hc1).
  destruct (calm_environment_normalized at_ normalized (e1 ++ [SvNow z; SvAuthority true]))
    as (u & e2 & -> & _ & Hc2). simpl in Hc1.
  apply (attempts_end (max_polls := max_polls) (max_descendants := max_descendants)); try done; simpl.
  apply effective_policy_attempts; try done; [lia |].
  intros p m Hp Hm. pose proof (supervision_attempts bootstrap p m Hp Hm). unfold u64_max. lia.
Qed.

(** ** Example *)

Lemma sample_fair : @FairHost sample_host 0 0.
Proof. by constructor. Qed.

Lemma supervision_terminates_witness :
  exists e t, @supervise sample_host sample_sha256 sample_attached 10 ["/app"] sample_bootstrap 0 [] [] []
    = (Some e, t).
Proof.
  apply (@supervision_terminates sample_host sample_sha256 0 0 sample_fair sample_attached 10 ["/app"]
    sample_bootstrap 0 [] []); [lia | lia | lia |]. apply (bool_decide_unpack _). vm_compute. exact I.
Defined.
