(* ===== verification/Wire.v ===== *)
(** * Wire data

    Packets as lists of octets, integers in network and native byte order, and
    IPv4 addresses, with the round trips between them.  Shared by the gateway,
    mapping and behaviour models of [network_traversal]. *)
From stdpp Require Import prelude strings.
From S2P Require Import Prelude.

Local Open Scope Z_scope.

(** ** Octets *)

Definition is_octets (l : list Z) : Prop := Forall is_u8 l.
Definition zeros (n : nat) : list Z := replicate n 0.

(** [to_be_bytes] and [from_be_bytes] of an [n]-byte integer. *)
Fixpoint be_bytes (n : nat) (z : Z) : list Z :=
  match n with
  | O => []
  | S n => be_bytes n (z / 256) ++ [z mod 256]
  end.
Definition be_value (l : list Z) : Z := foldl (fun acc b => acc * 256 + b) 0 l.

(** The byte order of the target, for [from_ne_bytes] and [to_ne_bytes]. *)
Class Endian := little_endian : bool.
Definition ne_value `{!Endian} (l : list Z) : Z := be_value (if little_endian then rev l else l).
Definition ne_bytes `{!Endian} (n : nat) (z : Z) : list Z :=
  if little_endian then rev (be_bytes n z) else be_bytes n z.

(** [l[a..b]]; [None] is the panic of an index out of range. *)
Definition slice (a b : Z) (l : list Z) : option (list Z) :=
  if (0 <=? a) && (a <=? b) && (b <=? Z.of_nat (length l))
  then Some (take (Z.to_nat (b - a)) (drop (Z.to_nat a) l)) else None.
Definition index (i : Z) (l : list Z) : option Z :=
  if 0 <=? i then l !! Z.to_nat i else None.

(** [p[i..i + w.len()].copy_from_slice(&w)]. *)
Definition patch (i : nat) (w p : list Z) : list Z := take i p ++ w ++ drop (i + length w) p.

(** ** IPv4 addresses *)

Record Ipv4Addr := ipv4 { oct0 : Z; oct1 : Z; oct2 : Z; oct3 : Z }.

#[global] Instance ipv4_eq_dec : EqDecision Ipv4Addr.
Proof. solve_decision. Defined.

Definition octets (a : Ipv4Addr) : list Z := [oct0 a; oct1 a; oct2 a; oct3 a].
Definition ipv4_wf (a : Ipv4Addr) : Prop := is_octets (octets a).
Definition UNSPECIFIED : Ipv4Addr := ipv4 0 0 0 0.
Definition is_unspecified (a : Ipv4Addr) : bool := bool_decide (a = UNSPECIFIED).
Definition is_broadcast (a : Ipv4Addr) : bool := bool_decide (a = ipv4 255 255 255 255).
Definition is_multicast (a : Ipv4Addr) : bool := (224 <=? oct0 a) && (oct0 a <=? 239).
Definition is_loopback (a : Ipv4Addr) : bool := oct0 a =? 127.
(** [u32::from]. *)
Definition ipv4_bits (a : Ipv4Addr) : Z := be_value (octets a).

(** [SocketAddr]; the traversal code builds only IPv4 ones. *)
Record SocketAddr := { sa_ip : Ipv4Addr; sa_port : Z }.

#[global] Instance socket_addr_eq_dec : EqDecision SocketAddr.
Proof. solve_decision. Defined.

(** * Properties *)

Lemma be_bytes_length n z : length (be_bytes n z) = n.
Proof. revert z. induction n as [|n IH]; intros z; simpl; [done |]. rewrite length_app, IH. simpl. lia. Qed.

Lemma be_bytes_octets n z : is_octets (be_bytes n z).
Proof.
  revert z. induction n as [|n IH]; intros z; simpl; [constructor |].
  apply Forall_app. split; [apply IH |]. repeat constructor;
    pose proof (Z.mod_pos_bound z 256 ltac:(lia)); unfold u8_max; lia.
Qed.

Lemma be_value_snoc l b : be_value (l ++ [b]) = be_value l * 256 + b.
Proof. unfold be_value. by rewrite foldl_app. Qed.

(** Encoding and then decoding an integer keeps its low [n] bytes. *)
Lemma be_value_bytes n z : be_value (be_bytes n z) = z mod 256 ^ Z.of_nat n.
Proof.
  revert z. induction n as [|n IH]; intros z; [by rewrite Z.mod_1_r |].
  simpl be_bytes. rewrite be_value_snoc, IH, Nat2Z.inj_succ, Z.pow_succ_r by lia.
  rewrite Z.rem_mul_r by (try apply Z.pow_nonzero; lia). lia.
Qed.

Lemma be_value_bytes_id n z : 0 <= z < 256 ^ Z.of_nat n -> be_value (be_bytes n z) = z.
Proof. intros Hz. rewrite be_value_bytes. by apply Z.mod_small. Qed.

(** Decoding and then encoding octets gives them back. *)
Lemma be_bytes_value l : is_octets l -> be_bytes (length l) (be_value l) = l.
Proof.
  induction l as [|b l IH] using rev_ind; intros Hl; [done |].
  apply Forall_app in Hl as [Hl Hb]. apply Forall_cons_1 in Hb as [[Hb0 Hb1] _]. unfold u8_max in Hb1.
  rewrite length_app, Nat.add_comm, be_value_snoc. simpl.
  rewrite Z.div_add_l, Z.div_small, Z.add_0_r, IH by (try done; lia).
  rewrite Z.add_comm, Z.mod_add, Z.mod_small by lia. done.
Qed.

Lemma be_value_nonneg l : is_octets l -> 0 <= be_value l < 256 ^ Z.of_nat (length l).
Proof.
  intros Hl. rewrite <- (be_bytes_value l Hl) at 1 2. rewrite be_value_bytes.
  apply Z.mod_pos_bound, Z.pow_pos_nonneg; lia.
Qed.

Lemma be_value_inj l1 l2 :
  is_octets l1 -> is_octets l2 -> length l1 = length l2 -> be_value l1 = be_value l2 -> l1 = l2.
Proof.
  intros H1 H2 Hlen Heq. rewrite <- (be_bytes_value l1 H1), <- (be_bytes_value l2 H2). by rewrite Hlen, Heq.
Qed.

Lemma ipv4_octets_inj a b : octets a = octets b -> a = b.
Proof. destruct a, b. unfold octets. simpl. congruence. Qed.

Lemma ipv4_bits_inj a b : ipv4_wf a -> ipv4_wf b -> ipv4_bits a = ipv4_bits b -> a = b.
Proof. intros Ha Hb Heq. apply ipv4_octets_inj, be_value_inj; done. Qed.

Lemma slice_Some a b l :
  0 <= a <= b -> b <= Z.of_nat (length l) ->
  slice a b l = Some (take (Z.to_nat (b - a)) (drop (Z.to_nat a) l)).
Proof.
  intros Hab Hb. unfold slice. rewrite (proj2 (Z.leb_le 0 a)), (proj2 (Z.leb_le a b)),
    (proj2 (Z.leb_le b _)) by lia. done.
Qed.

Lemma slice_length a b l w : slice a b l = Some w -> Z.of_nat (length w) = b - a.
Proof.
  unfold slice. destruct (_ && _) eqn:Hc; [| done]. intros [= <-]. reflect_bool.
  rewrite length_take, length_drop. lia.
Qed.

Lemma index_Some i l : 0 <= i < Z.of_nat (length l) -> exists b, index i l = Some b.
Proof.
  intros Hi. unfold index. rewrite (proj2 (Z.leb_le 0 i)) by lia.
  destruct (lookup_lt_is_Some_2 l (Z.to_nat i)) as [b Hb]; [lia |]. by exists b.
Qed.

Lemma patch_length i w p : (i + length w <= length p)%nat -> length (patch i w p) = length p.
Proof. intros H. unfold patch. rewrite !length_app, length_take, length_drop. lia. Qed.
