(* ===== verification/Gateway.v ===== *)
(** * Gateway discovery and control exchanges

    [network_traversal/gateway.rs]: the route table read from [/proc/net/route]
    or a netlink dump, the selection of the gateway, and the bounded exchanges
    with it.

    Files, sockets and the caller's cancellation test are oracles over the
    history.  A parser returns [None] where the code would panic on an index
    out of range or not terminate. *)
From Stdlib Require Import Ascii.
From stdpp Require Import prelude strings.
From S2P Require Import Prelude Utf8 Json Bridge World Wire.

Local Open Scope Z_scope.

Definition ROUTE_TABLE_MAX_BYTES : Z := 16 * 1024.
Definition ROUTE_TABLE_MAX_RECORDS : nat := 128.
Definition CONTROL_MAX_BYTES : Z := 1100.
Definition CONTROL_LOCATION_MAX_BYTES : Z := 512.
Definition ROUTER_CONTROL_PORT : Z := 5351.
Definition UPNP_SOAP_MAX_BYTES : Z := 4096.
Definition INTERFACE_NAME_MAX : Z := 15.
Definition RTF_GATEWAY : Z := 2.
Definition NETLINK_RECV_BYTES : Z := 8192.

(** The name is the used part of the fixed array. *)
Record RouteRecord := {
  destination : Ipv4Addr;
  prefix_len_of : Z;
  route_gateway : Ipv4Addr;
  has_gateway : bool;
  route_interface_index : Z;
  route_interface_name : string;
  metric : Z
}.

Record SelectedGateway := {
  gateway : Ipv4Addr;
  interface_index : Z;
  interface_name : string
}.

Definition from_record (r : RouteRecord) : SelectedGateway :=
  {| gateway := route_gateway r;
     interface_index := route_interface_index r;
     interface_name := route_interface_name r |}.

Inductive RouteReadError := Unavailable | Bounded | Cancelled | Malformed.

Inductive GatewayDiscovery :=
| Selected (g : SelectedGateway)
| Unsupported
| InvalidGateway
| DiscoveryCancelled
| DiscoveryBounded.

Inductive RouterProtocol := Pcp | NatPmp | UpnpIgd.

#[global] Instance router_protocol_eq_dec : EqDecision RouterProtocol.
Proof. solve_decision. Defined.

Inductive ControlRefusal :=
| ControlUnsupported | ControlWrongTarget | ControlOversize | ControlCancelled | ControlBounded.

(** ** The host *)

Inductive gw_event :=
| GwCancelled (b : bool)
| GwOpen (ok : bool)
| GwRead (chunk : option string)
| GwNetlink (ok : bool)
| GwRecv (datagram : option (Z * list Z))
| GwExchange (destination : SocketAddr) (request : list Z) (reply : result (Z * list Z) ControlRefusal).

(** A read returns at most the chunk asked for.  A receive returns the length of
    the datagram, which [MSG_TRUNC] reports even when the buffer is shorter, and
    what it wrote.  An exchange returns the length the transport claims and what
    it wrote into the response buffer. *)
Class Router := {
  on_cancelled : list gw_event -> bool;
  on_open : list gw_event -> bool;
  on_read : list gw_event -> option string;
  on_netlink : list gw_event -> bool;
  on_recv : list gw_event -> option (Z * list Z);
  on_exchange : list gw_event -> SocketAddr -> list Z -> result (Z * list Z) ControlRefusal
}.

(** [Url::host] when it is an IPv4 address, and [Url::port_or_known_default]. *)
Class UrlHost := {
  url_host_ipv4 : Url -> option Ipv4Addr;
  url_port_or_known_default : Url -> option Z
}.

(** The buffer of the given length after [data] was written at its start. *)
Definition buffer (capacity : Z) (data : list Z) : list Z :=
  take (Z.to_nat capacity) (data ++ zeros (Z.to_nat capacity)).

(** ** The route file *)

(** [u32::from_str_radix(text, 16)]: an optional plus sign and hex digits. *)
Definition hex_digit_value (a : ascii) : Z :=
  if is_ascii_digit a then byte a - 48
  else if byte_between 97 102 a then byte a - 87 else byte a - 55.
Definition hex_value (l : list ascii) : Z := foldl (fun acc a => acc * 16 + hex_digit_value a) 0 l.

Definition parse_proc_hex (text : string) : result Z RouteReadError :=
  let digits := default text (strip_prefix "+" text) in
  if negb (str_is_empty digits) && bytes_all is_ascii_hexdigit digits
     && (hex_value (bytes digits) <=? u32_max)
  then Ok (hex_value (bytes digits)) else Err Malformed.

Definition parse_proc_address (text : string) : result Ipv4Addr RouteReadError :=
  if negb (len text =? 8) then Err Malformed
  else
    let? word := parse_proc_hex text in
    match be_bytes 4 word with
    | [r0; r1; r2; r3] => Ok (ipv4 r3 r2 r1 r0)
    | _ => Err Malformed
    end.

(** [u32::leading_ones]. *)
Fixpoint leading_ones_from (bit : nat) (bits : Z) : Z :=
  match bit with
  | O => 0
  | S bit => if Z.testbit bits (Z.of_nat bit) then 1 + leading_ones_from bit bits else 0
  end.
Definition leading_ones (bits : Z) : Z := leading_ones_from 32 bits.

Definition prefix_len (mask : Ipv4Addr) : option Z :=
  let bits := ipv4_bits mask in
  let ones := leading_ones bits in
  let expected := if ones =? 0 then 0 else Z.shiftl u32_max (32 - ones) mod 2 ^ 32 in
  then_some (bits =? expected) ones.

Definition interface_name_bytes (name : string) : result Z RouteReadError :=
  if str_is_empty name || (INTERFACE_NAME_MAX <? len name)
     || negb (bytes_all (fun b => is_ascii_alphanumeric b || byte_is 46 b || byte_is 95 b
                                  || byte_is 45 b || byte_is 58 b) name)
  then Err Malformed else Ok (len name).

Definition parse_proc_route_line (line : string) : result RouteRecord RouteReadError :=
  match split_whitespace line with
  | interface :: rest =>
    let? f1 := ok_or Malformed (head rest) in
    let? destination := parse_proc_address f1 in
    let? f2 := ok_or Malformed (rest !! 1%nat) in
    let? gateway := parse_proc_address f2 in
    let? f3 := ok_or Malformed (rest !! 2%nat) in
    let? flags := parse_proc_hex f3 in
    let? _refcnt := ok_or Malformed (rest !! 3%nat) in
    let? _use := ok_or Malformed (rest !! 4%nat) in
    let? f6 := ok_or Malformed (rest !! 5%nat) in
    let? metric := ok_or Malformed (parse_unsigned u32_max f6) in
    let? f7 := ok_or Malformed (rest !! 6%nat) in
    let? mask := parse_proc_address f7 in
    let? prefix := ok_or Malformed (prefix_len mask) in
    let? name_len := interface_name_bytes interface in
    Ok {| destination := destination; prefix_len_of := prefix; route_gateway := gateway;
          has_gateway := negb (Z.land flags RTF_GATEWAY =? 0);
          route_interface_index := 0;
          route_interface_name := str_take name_len interface;
          metric := metric |}
  | [] => Err Malformed
  end.

Fixpoint parse_route_lines (index : nat) (ls : list string) (routes : list RouteRecord)
    : result (list RouteRecord) RouteReadError :=
  match ls with
  | [] => Ok routes
  | line :: ls =>
      if (index =? 0)%nat && starts_with "Iface" line then parse_route_lines (S index) ls routes
      else if str_is_empty line then parse_route_lines (S index) ls routes
      else if (length routes =? ROUTE_TABLE_MAX_RECORDS)%nat then Err Bounded
      else
        let? route := parse_proc_route_line line in
        parse_route_lines (S index) ls (routes ++ [route])
  end.

Definition parse_proc_net_route (text : string) : result (list RouteRecord) RouteReadError :=
  if ROUTE_TABLE_MAX_BYTES <? len text then Err Bounded
  else parse_route_lines 0 (lines text) [].

(** ** Selection *)

Definition acceptable_gateway (g : Ipv4Addr) : bool :=
  if is_unspecified g || is_broadcast g || is_multicast g || is_loopback g then false
  else oct0 g <? 240.

(** [(index, name) < (index, name)], names compared bytewise. *)
Definition interface_before (candidate current : RouteRecord) : bool :=
  if route_interface_index candidate =? route_interface_index current
  then match String.compare (route_interface_name candidate) (route_interface_name current) with
       | Lt => true
       | _ => false
       end
  else route_interface_index candidate <? route_interface_index current.

Record Choice := {
  best : option RouteRecord;
  saw_invalid : bool;
  ambiguous : bool
}.

Definition is_default_route (r : RouteRecord) : bool :=
  negb (negb (is_unspecified (destination r)) || negb (prefix_len_of r =? 0) || negb (has_gateway r)).

Definition select_step (c : Choice) (route : RouteRecord) : Choice :=
  if negb (is_default_route route) then c
  else if negb (acceptable_gateway (route_gateway route)) then
    {| best := best c; saw_invalid := true; ambiguous := ambiguous c |}
  else
    match best c with
    | None => {| best := Some route; saw_invalid := saw_invalid c; ambiguous := ambiguous c |}
    | Some current =>
        if metric route <? metric current then
          {| best := Some route; saw_invalid := saw_invalid c; ambiguous := false |}
        else if (metric route =? metric current)
                && negb (bool_decide (route_gateway route = route_gateway current)) then
          {| best := best c; saw_invalid := saw_invalid c; ambiguous := true |}
        else if (metric route =? metric current)
                && bool_decide (route_gateway route = route_gateway current)
                && interface_before route current then
          {| best := Some route; saw_invalid := saw_invalid c; ambiguous := ambiguous c |}
        else c
    end.

Definition select_gateway (routes : list RouteRecord) : GatewayDiscovery :=
  let c := foldl select_step {| best := None; saw_invalid := false; ambiguous := false |} routes in
  if ambiguous c then Unsupported
  else
    match best c with
    | Some route => Selected (from_record route)
    | None => if saw_invalid c then InvalidGateway else Unsupported
    end.

(** ** Netlink *)

Definition AF_INET : Z := 2.
Definition RTN_UNICAST : Z := 1.
Definition RTA_DST : Z := 1.
Definition RTA_OIF : Z := 4.
Definition RTA_GATEWAY : Z := 5.
Definition RTA_PRIORITY : Z := 6.
Definition RTA_TABLE : Z := 15.
Definition RT_TABLE_COMPAT : Z := 252.
Definition RT_TABLE_MAIN : Z := 254.
Definition NLMSG_ERROR : Z := 2.
Definition NLMSG_DONE : Z := 3.
Definition RTM_NEWROUTE : Z := 24.
Definition RTM_GETROUTE : Z := 26.
Definition NLM_F_REQUEST : Z := 1.
Definition NLM_F_DUMP : Z := 768.

Definition usize_max : Z := u64_max.
Definition align4 (value : Z) : Z := Z.land (saturating_add usize_max value 3) (Z.lnot 3).

Section netlink.
Context `{!Endian}.

Definition netlink_dump_request : list Z :=
  let request := zeros (16 + 12) in
  let request := patch 0 (ne_bytes 4 (Z.of_nat (length request))) request in
  let request := patch 4 (ne_bytes 2 RTM_GETROUTE) request in
  let request := patch 6 (ne_bytes 2 (Z.lor NLM_F_REQUEST NLM_F_DUMP)) request in
  let request := patch 8 (ne_bytes 4 1) request in
  patch 16 [AF_INET] request.

(** The length and the kind of the message at an offset. *)
Definition message_header (offset : Z) (bytes : list Z) : option (Z * Z) :=
  length_bytes ← slice offset (offset + 4) bytes;
  kind_bytes ← slice (offset + 4) (offset + 6) bytes;
  Some (ne_value length_bytes, ne_value kind_bytes).

Fixpoint dump_finished_from (fuel : nat) (offset : Z) (bytes : list Z) : option bool :=
  match fuel with
  | O => None
  | S fuel =>
      if offset + 16 <=? Z.of_nat (length bytes) then
        '(length, kind) ← message_header offset bytes;
        if (length <? 16)
           || (Z.of_nat (List.length bytes) <? saturating_add usize_max offset length)
        then Some false
        else if kind =? NLMSG_DONE then Some true
        else dump_finished_from fuel (saturating_add usize_max offset (align4 length)) bytes
      else Some false
  end.

(** A message takes at least 16 bytes, so the length of the dump bounds the
    number of messages. *)
Definition netlink_dump_finished (bytes : list Z) : option bool :=
  dump_finished_from (S (length bytes)) 0 bytes.

Record RouteAttributes := {
  attr_destination : Ipv4Addr;
  attr_gateway : Ipv4Addr;
  attr_has_gateway : bool;
  attr_interface_index : Z;
  attr_metric : Z;
  table_from_attr : option Z
}.

Definition ipv4_of (data : list Z) : Ipv4Addr :=
  match data with
  | [a; b; c; d] => ipv4 a b c d
  | _ => UNSPECIFIED
  end.

Definition apply_attribute (attr_type : Z) (data : list Z) (a : RouteAttributes) : RouteAttributes :=
  if negb (length data =? 4)%nat then a
  else if attr_type =? RTA_DST then
    {| attr_destination := ipv4_of data; attr_gateway := attr_gateway a;
       attr_has_gateway := attr_has_gateway a; attr_interface_index := attr_interface_index a;
       attr_metric := attr_metric a; table_from_attr := table_from_attr a |}
  else if attr_type =? RTA_GATEWAY then
    {| attr_destination := attr_destination a; attr_gateway := ipv4_of data;
       attr_has_gateway := true; attr_interface_index := attr_interface_index a;
       attr_metric := attr_metric a; table_from_attr := table_from_attr a |}
  else if attr_type =? RTA_OIF then
    {| attr_destination := attr_destination a; attr_gateway := attr_gateway a;
       attr_has_gateway := attr_has_gateway a; attr_interface_index := ne_value data;
       attr_metric := attr_metric a; table_from_attr := table_from_attr a |}
  else if attr_type =? RTA_PRIORITY then
    {| attr_destination := attr_destination a; attr_gateway := attr_gateway a;
       attr_has_gateway := attr_has_gateway a; attr_interface_index := attr_interface_index a;
       attr_metric := ne_value data; table_from_attr := table_from_attr a |}
  else if attr_type =? RTA_TABLE then
    {| attr_destination := attr_destination a; attr_gateway := attr_gateway a;
       attr_has_gateway := attr_has_gateway a; attr_interface_index := attr_interface_index a;
       attr_metric := attr_metric a; table_from_attr := Some (ne_value data) |}
  else a.

(** The attributes from [cursor] on; the inner [None] is the [return None] of a
    malformed attribute. *)
Fixpoint parse_attributes (fuel : nat) (cursor : Z) (body : list Z) (a : RouteAttributes)
    : option (option RouteAttributes) :=
  match fuel with
  | O => None
  | S fuel =>
      if cursor + 4 <=? Z.of_nat (length body) then
        len_bytes ← slice cursor (cursor + 2) body;
        type_bytes ← slice (cursor + 2) (cursor + 4) body;
        let attr_len := ne_value len_bytes in
        if (attr_len <? 4) || (Z.of_nat (length body) <? saturating_add usize_max cursor attr_len)
        then Some None
        else
          data ← slice (cursor + 4) (cursor + attr_len) body;
          parse_attributes fuel (saturating_add usize_max cursor (align4 attr_len)) body
            (apply_attribute (ne_value type_bytes) data a)
      else Some (Some a)
  end.

Definition no_attributes : RouteAttributes :=
  {| attr_destination := UNSPECIFIED; attr_gateway := UNSPECIFIED; attr_has_gateway := false;
     attr_interface_index := 0; attr_metric := 0; table_from_attr := None |}.

Definition parse_route_message (body : list Z) : option (option RouteRecord) :=
  if Z.of_nat (length body) <? 12 then Some None
  else
    family ← index 0 body;
    if negb (family =? AF_INET) then Some None
    else
      prefix ← index 1 body;
      if 32 <? prefix then Some None
      else
        kind ← index 7 body;
        if negb (kind =? RTN_UNICAST) then Some None
        else
          parsed ← parse_attributes (S (length body)) (align4 12) body no_attributes;
          match parsed with
          | None => Some None
          | Some a =>
              table_byte ← index 4 body;
              match (if table_byte =? RT_TABLE_COMPAT then table_from_attr a else Some table_byte) with
              | None => Some None
              | Some table =>
                  if negb (table =? RT_TABLE_MAIN) then Some None
                  else
                    Some (Some
                      {| destination := if prefix =? 0 then UNSPECIFIED else attr_destination a;
                         prefix_len_of := prefix;
                         route_gateway := attr_gateway a;
                         has_gateway := attr_has_gateway a;
                         route_interface_index := attr_interface_index a;
                         route_interface_name := EmptyString;
                         metric := attr_metric a |})
              end
          end.

Fixpoint parse_dump_from (fuel : nat) (offset : Z) (bytes : list Z) (routes : list RouteRecord)
    : option (result (list RouteRecord) RouteReadError) :=
  match fuel with
  | O => None
  | S fuel =>
      if offset + 16 <=? Z.of_nat (length bytes) then
        '(length, kind) ← message_header offset bytes;
        if (length <? 16)
           || (Z.of_nat (List.length bytes) <? saturating_add usize_max offset length)
        then Some (Err Malformed)
        else if kind =? NLMSG_DONE then Some (Ok routes)
        else if kind =? NLMSG_ERROR then Some (Err Unavailable)
        else
          let next := saturating_add usize_max offset (align4 length) in
          if kind =? RTM_NEWROUTE then
            if (List.length routes =? ROUTE_TABLE_MAX_RECORDS)%nat then Some (Err Bounded)
            else
              body ← slice (offset + 16) (offset + length) bytes;
              route ← parse_route_message body;
              parse_dump_from fuel next bytes
                match route with Some r => routes ++ [r] | None => routes end
          else parse_dump_from fuel next bytes routes
      else Some (Err Malformed)
  end.

Definition parse_netlink_route_dump (bytes : list Z) : option (result (list RouteRecord) RouteReadError) :=
  if ROUTE_TABLE_MAX_BYTES <? Z.of_nat (length bytes) then Some (Err Bounded)
  else parse_dump_from (S (length bytes)) 0 bytes [].

End netlink.

(** ** Reading *)

Section discovery.
Context `{!Router, !Endian}.

Definition cancelled : io gw_event bool := ask on_cancelled GwCancelled.

Definition READ_CHUNK : Z := 1024.
(** Every turn but the last adds a byte and the buffer is bounded. *)
Definition READ_TURNS : nat := S (S (Z.to_nat ROUTE_TABLE_MAX_BYTES)).

Definition read_to_end : io gw_event (result string RouteReadError) :=
  loop READ_TURNS (fun buffer : string =>
    stop ← cancelled;
    if stop : bool then mret (inr (Err Cancelled))
    else
      chunk ← ask (fun t => str_take READ_CHUNK <$> on_read t) GwRead;
      mret match chunk with
      | None => inr (Err Unavailable)
      | Some chunk =>
          if len chunk =? 0 then inr (Ok buffer)
          else if ROUTE_TABLE_MAX_BYTES <? saturating_add usize_max (len buffer) (len chunk)
          then inr (Err Bounded)
          else inl (buffer +:+ chunk)
      end) EmptyString.

Definition read_proc_net_route : io gw_event (result (list RouteRecord) RouteReadError) :=
  stop ← cancelled;
  if stop : bool then mret (Err Cancelled)
  else
    opened ← ask on_open GwOpen;
    if negb opened then mret (Err Unavailable)
    else
      let!? text := read_to_end in
      if valid_utf8 text then mret (parse_proc_net_route text) else mret (Err Malformed).

(** After the receive loop. *)
Definition dump_end (accumulated : list Z) : io gw_event (result (list Z) RouteReadError) :=
  match netlink_dump_finished accumulated with
  | Some true => mret (Ok accumulated)
  | Some false => mret (Err match accumulated with [] => Unavailable | _ => Bounded end)
  | None => diverge
  end.

(** [recv] with [MSG_TRUNC], at most eight datagrams. *)
Fixpoint recv_dump (turns : nat) (accumulated : list Z) : io gw_event (result (list Z) RouteReadError) :=
  match turns with
  | O => dump_end accumulated
  | S turns =>
      stop ← cancelled;
      if stop : bool then mret (Err Cancelled)
      else
        datagram ← ask on_recv GwRecv;
        match datagram with
        | None => mret (Err Unavailable)
        | Some (received, data) =>
            if received =? 0 then dump_end accumulated
            else if NETLINK_RECV_BYTES <? received then mret (Err Malformed)
            else if ROUTE_TABLE_MAX_BYTES <?
                    saturating_add usize_max (Z.of_nat (length accumulated)) received
            then mret (Err Bounded)
            else
              let accumulated := accumulated ++ take (Z.to_nat received) (buffer NETLINK_RECV_BYTES data) in
              match netlink_dump_finished accumulated with
              | Some true => mret (Ok accumulated)
              | Some false => recv_dump turns accumulated
              | None => diverge
              end
        end
  end.

(** [on_netlink] is the outcome of [socket], [setsockopt], [bind] and [send]. *)
Definition dump_netlink : io gw_event (result (list Z) RouteReadError) :=
  stop ← cancelled;
  if stop : bool then mret (Err Cancelled)
  else
    ready ← ask on_netlink GwNetlink;
    if negb ready then mret (Err Unavailable) else recv_dump 8 [].

Definition read_netlink_routes : io gw_event (result (list RouteRecord) RouteReadError) :=
  stop ← cancelled;
  if stop : bool then mret (Err Cancelled)
  else
    let!? bytes := dump_netlink in
    match parse_netlink_route_dump bytes with
    | Some r => mret r
    | None => diverge
    end.

Definition discover_loaded (routes : list RouteRecord) : io gw_event GatewayDiscovery :=
  stop ← cancelled;
  mret (if stop : bool then DiscoveryCancelled
        else if (ROUTE_TABLE_MAX_RECORDS <? length routes)%nat then DiscoveryBounded
        else select_gateway routes).

Definition loaded (r : result (list RouteRecord) RouteReadError) : io gw_event GatewayDiscovery :=
  match r with
  | Ok routes => discover_loaded routes
  | Err (Unavailable | Malformed) => mret Unsupported
  | Err Bounded => mret DiscoveryBounded
  | Err Cancelled => mret DiscoveryCancelled
  end.

Definition discover_with_sources (proc_routes : result (list RouteRecord) RouteReadError)
    (netlink : io gw_event (result (list RouteRecord) RouteReadError)) : io gw_event GatewayDiscovery :=
  stop ← cancelled;
  if stop : bool then mret DiscoveryCancelled
  else
    match proc_routes with
    | Ok routes => loaded (Ok routes)
    | Err Bounded => mret DiscoveryBounded
    | Err Cancelled => mret DiscoveryCancelled
    | Err (Unavailable | Malformed) =>
        stop ← cancelled;
        if stop : bool then mret DiscoveryCancelled
        else r ← netlink; loaded r
    end.

Definition discover_at_path : io gw_event GatewayDiscovery :=
  stop ← cancelled;
  if stop : bool then mret DiscoveryCancelled
  else
    proc_routes ← read_proc_net_route;
    discover_with_sources proc_routes read_netlink_routes.

End discovery.

(** ** Control exchanges *)

(** The caller's cancellation test and its [ControlTransport]: the length the
    transport claims and what it wrote into a response buffer of the given
    capacity. *)
Class Control (E : Type) := {
  control_cancelled : io E bool;
  control_exchange : SocketAddr -> list Z -> Z -> io E (result (Z * list Z) ControlRefusal)
}.

#[global] Instance router_control `{!Router} : Control gw_event :=
  {| control_cancelled := cancelled;
     control_exchange := fun destination request _ =>
       ask (fun t => on_exchange t destination request) (GwExchange destination request) |}.

Inductive UpnpSoapReply :=
| Refused (e : ControlRefusal)
| Exchanged (r : result (list Z) ControlRefusal).

Section control.
Context {E : Type} `{!Control E, !UrlApi, !UrlHost}.

Definition upnp_location (g : SelectedGateway) (location : string) : result SocketAddr ControlRefusal :=
  if CONTROL_LOCATION_MAX_BYTES <? len location then Err ControlOversize
  else
    let? url := ok_or ControlWrongTarget (url_parse location) in
    if negb (url_scheme url =s "http") || negb (str_is_empty (url_username url))
       || opt_is_some (url_password url)
    then Err ControlWrongTarget
    else
      match url_host_ipv4 url with
      | Some address =>
          if bool_decide (address = gateway g) then
            let port := default 0 (url_port_or_known_default url) in
            if port =? 0 then Err ControlWrongTarget
            else Ok {| sa_ip := address; sa_port := port |}
          else Err ControlWrongTarget
      | None => Err ControlWrongTarget
      end.

Definition control_destination (g : SelectedGateway) (protocol : RouterProtocol)
    (location : option string) : result SocketAddr ControlRefusal :=
  match protocol with
  | Pcp | NatPmp =>
      if opt_is_some location then Err ControlWrongTarget
      else Ok {| sa_ip := gateway g; sa_port := ROUTER_CONTROL_PORT |}
  | UpnpIgd => let? location := ok_or ControlWrongTarget location in upnp_location g location
  end.

Definition exchange_with_gateway (g : SelectedGateway) (protocol : RouterProtocol)
    (location : option string) (request : list Z) : io E (result (list Z) ControlRefusal) :=
  stop ← control_cancelled;
  if stop : bool then mret (Err ControlCancelled)
  else
    match request with
    | [] => mret (Err ControlUnsupported)
    | _ =>
        if CONTROL_MAX_BYTES <? Z.of_nat (length request) then mret (Err ControlOversize)
        else
          match control_destination g protocol location with
          | Err e => mret (Err e)
          | Ok destination =>
              let!? reply := control_exchange destination request CONTROL_MAX_BYTES in
              stop ← control_cancelled;
              if stop : bool then mret (Err ControlCancelled)
              else if CONTROL_MAX_BYTES <? reply.1 then mret (Err ControlBounded)
              else mret (Ok (take (Z.to_nat reply.1) (buffer CONTROL_MAX_BYTES reply.2)))
          end
    end.

Definition exchange_upnp_soap (g : SelectedGateway) (location : string) (request : list Z)
    : io E UpnpSoapReply :=
  match request with
  | [] => mret (Refused ControlUnsupported)
  | _ =>
      if UPNP_SOAP_MAX_BYTES <? Z.of_nat (length request) then mret (Refused ControlOversize)
      else
        stop ← control_cancelled;
        if stop : bool then mret (Refused ControlCancelled)
        else
          match control_destination g UpnpIgd (Some location) with
          | Err e => mret (Refused e)
          | Ok destination =>
              reply ← control_exchange destination request UPNP_SOAP_MAX_BYTES;
              mret match reply with
              | Err e => Exchanged (Err e)
              | Ok (received, data) =>
                  if UPNP_SOAP_MAX_BYTES <=? received then Exchanged (Err ControlBounded)
                  else Exchanged (Ok (take (Z.to_nat received) (buffer UPNP_SOAP_MAX_BYTES data)))
              end
          end
  end.

End control.

(** * Properties *)

(** ** Selection *)

(** A default route over an acceptable gateway. *)
Definition candidate (r : RouteRecord) : Prop :=
  is_default_route r = true /\ acceptable_gateway (route_gateway r) = true.

(** [r] is not behind any candidate: least metric, no other gateway at that
    metric, first interface. *)
Definition preferred (routes : list RouteRecord) (r : RouteRecord) : Prop :=
  forall r', r' ∈ routes -> candidate r' ->
    metric r <= metric r' /\
    (metric r' = metric r -> route_gateway r' = route_gateway r /\ interface_before r' r = false).

Lemma interface_before_irrefl r : interface_before r r = false.
Proof. unfold interface_before. by rewrite Z.eqb_refl, str_compare_refl. Qed.

Lemma interface_before_trans a b c :
  interface_before a b = true -> interface_before b c = true -> interface_before a c = true.
Proof.
  unfold interface_before.
  destruct (route_interface_index a =? route_interface_index b) eqn:Eab;
    destruct (route_interface_index b =? route_interface_index c) eqn:Ebc; reflect_bool;
    destruct (route_interface_index a =? route_interface_index c) eqn:Eac; reflect_bool;
    intros Hab Hbc; try (apply Z.ltb_lt in Hab); try (apply Z.ltb_lt in Hbc); try lia; try congruence;
    try (apply Z.ltb_lt; lia).
  destruct (String.compare _ (route_interface_name b)) eqn:E1 in Hab; try done.
  destruct (String.compare (route_interface_name b) _) eqn:E2 in Hbc; try done.
  by rewrite (str_lt_trans _ _ _ E1 E2).
Qed.

Lemma interface_before_total a b :
  interface_before a b = false -> interface_before b a = false ->
  route_interface_index a = route_interface_index b /\ route_interface_name a = route_interface_name b.
Proof.
  unfold interface_before. rewrite (Z.eqb_sym (route_interface_index b)).
  destruct (route_interface_index a =? route_interface_index b) eqn:E; reflect_bool.
  - destruct (String.compare (route_interface_name a) (route_interface_name b)) eqn:E1; try done.
    + intros _ _. split; [done |]. by apply String.compare_eq_iff.
    + apply str_compare_gt in E1. unfold str_lt in E1. by rewrite E1.
  - intros H1 H2. reflect_bool. lia.
Qed.

Definition invalid_route (r : RouteRecord) : Prop :=
  is_default_route r = true /\ acceptable_gateway (route_gateway r) = false.

Lemma candidate_or r : candidate r \/ invalid_route r \/ is_default_route r = false.
Proof.
  unfold candidate, invalid_route. destruct (is_default_route r), (acceptable_gateway (route_gateway r)); auto.
Qed.

(** What the scan knows after the routes [seen]. *)
Definition best_inv (seen : list RouteRecord) (c : Choice) : Prop :=
  match best c with
  | None => ambiguous c = false /\ forall r, r ∈ seen -> ~ candidate r
  | Some b =>
      (b ∈ seen /\ candidate b) /\
      (forall r, r ∈ seen -> candidate r ->
         metric b <= metric r /\
         (metric r = metric b -> route_gateway r = route_gateway b -> interface_before r b = false)) /\
      (ambiguous c = true <->
         exists r, r ∈ seen /\ candidate r /\ metric r = metric b /\ route_gateway r <> route_gateway b)
  end.

Lemma exists_snoc {A} (P : A -> Prop) l x :
  (exists y, y ∈ l ++ [x] /\ P y) <-> (exists y, y ∈ l /\ P y) \/ P x.
Proof.
  split.
  - intros (y & [?| ->%list_elem_of_singleton]%elem_of_app & ?); [left; by exists y | by right].
  - intros [(y & ? & ?)|?]; [exists y | exists x]; (split; [apply elem_of_app |]); try done;
      [by left | right; by apply list_elem_of_singleton].
Qed.

Ltac elem_snoc Hr := apply elem_of_app in Hr as [Hr|Hr]; [| apply list_elem_of_singleton in Hr as ->].

Lemma best_inv_skip seen c c' route :
  ~ candidate route -> best c' = best c -> ambiguous c' = ambiguous c ->
  best_inv seen c -> best_inv (seen ++ [route]) c'.
Proof.
  unfold best_inv. intros Hno -> -> Hb. destruct (best c) as [b|].
  - destruct Hb as ((Hin & Hc) & Hmin & Hamb). split_and!; [set_solver | done | |].
    + intros r Hr Hcr. elem_snoc Hr; [by apply Hmin | done].
    + rewrite exists_snoc, Hamb. split; [by left |]. by intros [?|[? ?]].
  - destruct Hb as [? Hnone]. split; [done |]. intros r Hr. elem_snoc Hr; [by apply Hnone | done].
Qed.

Lemma best_inv_step seen c route : best_inv seen c -> best_inv (seen ++ [route]) (select_step c route).
Proof.
  intros Hb. unfold select_step. destruct (candidate_or route) as [Hroute|[[Hd Ha]|Hd]].
  2: rewrite Hd, Ha; eapply best_inv_skip; [| done | done | done]; intros [? ?]; congruence.
  2: rewrite Hd; eapply best_inv_skip; [| done | done | done]; intros [? ?]; congruence.
  destruct Hroute as [Hd Ha] eqn:E. clear E. rewrite Hd, Ha. cbn [negb].
  assert (Hlast : route ∈ seen ++ [route]) by (apply elem_of_app; right; by apply list_elem_of_singleton).
  unfold best_inv in *. destruct (best c) as [b|] eqn:Hbest; cbn [best ambiguous] in *; cycle 1.
  { destruct Hb as [-> Hnone]. split_and!; [done | done | |].
    - intros r Hr Hcr. elem_snoc Hr; [by apply Hnone in Hcr |]. split; [lia |]. by rewrite interface_before_irrefl.
    - rewrite exists_snoc. split; [done |]. intros [(r & Hr & Hcr & _)|(_ & _ & ?)]; [by apply Hnone in Hcr | done]. }
  destruct Hb as ((Hin & Hcb) & Hmin & Hamb).
  destruct (metric route <? metric b) eqn:Hlt; cbn [best ambiguous]; reflect_bool.
  { split_and!; [done | done | |].
    - intros r Hr Hcr. elem_snoc Hr; [destruct (Hmin r Hr Hcr); split; lia |].
      split; [lia |]. by rewrite interface_before_irrefl.
    - rewrite exists_snoc. split; [done |].
      intros [(r & Hr & Hcr & ? & _)|(_ & _ & ?)]; [destruct (Hmin r Hr Hcr); lia | done]. }
  destruct (metric route =? metric b) eqn:Heq; cbn [andb best ambiguous]; reflect_bool; cycle 1.
  { rewrite Hbest. split_and!; [set_solver | done | |].
    - intros r Hr Hcr. elem_snoc Hr; [by apply Hmin | split; lia].
    - rewrite exists_snoc, Hamb. split; [by left |]. intros [?|(_ & ? & _)]; [done | lia]. }
  case_bool_decide as Hg; cbn [negb andb best ambiguous]; cycle 1.
  { split_and!; [set_solver | done | |].
    - intros r Hr Hcr. elem_snoc Hr; [by apply Hmin | by split; [lia |]].
    - rewrite exists_snoc. split; [right; by split_and! | done]. }
  destruct (interface_before route b) eqn:Hbefore; cbn [best ambiguous]; rewrite ?Hbest.
  - split_and!; [done | done | |].
    + intros r Hr Hcr. elem_snoc Hr; [| split; [lia |]; by rewrite interface_before_irrefl].
      destruct (Hmin r Hr Hcr) as [Hle Hbf]. split; [lia |]. intros Hm Hgr.
      apply not_true_is_false. intros Hr2. rewrite (interface_before_trans _ _ _ Hr2 Hbefore) in Hbf.
      by discriminate Hbf; [lia | congruence].
    + rewrite exists_snoc, Hamb, Heq, Hg. split; [by left |]. intros [?|(_ & _ & ?)]; done.
  - split_and!; [set_solver | done | |].
    + intros r Hr Hcr. elem_snoc Hr; [by apply Hmin | by split; [lia |]].
    + rewrite exists_snoc, Hamb. split; [by left |]. intros [?|(_ & _ & ?)]; done.
Qed.

Lemma scan_inv routes :
  let c := foldl select_step {| best := None; saw_invalid := false; ambiguous := false |} routes in
  best_inv routes c /\ (saw_invalid c = true <-> exists r, r ∈ routes /\ invalid_route r).
Proof.
  induction routes as [|route routes IH] using rev_ind; simpl.
  - split; [by split; [| set_solver] |]. split; [done | by intros (r & Hr%elem_of_nil & _)].
  - rewrite foldl_app. simpl. destruct IH as [Hb Hi]. split; [by apply best_inv_step |].
    rewrite exists_snoc, <- Hi. clear Hb Hi. set (c := foldl _ _ _). clearbody c.
    unfold select_step, invalid_route.
    destruct (is_default_route route); simpl; [| by intuition].
    destruct (acceptable_gateway (route_gateway route)); simpl; [| by intuition].
    destruct (best c) as [b|]; simpl; repeat case_match; simpl; intuition congruence.
Qed.

Lemma select_gateway_spec routes :
  (forall g, select_gateway routes = Selected g <->
     exists r, r ∈ routes /\ candidate r /\ preferred routes r /\ g = from_record r) /\
  (select_gateway routes = InvalidGateway <->
     (forall r, r ∈ routes -> ~ candidate r) /\ exists r, r ∈ routes /\ invalid_route r).
Proof.
  pose proof (scan_inv routes) as [Hb Hi]. unfold select_gateway, best_inv in *.
  set (c := foldl _ _ _) in *. clearbody c. destruct (best c) as [b|] eqn:Hbest.
  - destruct Hb as ((Hin & Hcb) & Hmin & Hamb). split.
    + intros g. split.
      * destruct (ambiguous c) eqn:Ha; [done |]. intros [= <-]. exists b. split_and!; try done.
        intros r Hr Hcr. destruct (Hmin r Hr Hcr) as [Hle Hbf]. split; [done |]. intros Hm.
        assert (Hg : route_gateway r = route_gateway b).
        { destruct (decide (route_gateway r = route_gateway b)) as [|Hne]; [done |].
          exfalso. assert (false = true) as [=]. apply Hamb. by exists r. }
        split; [done | by apply Hbf].
      * intros (r & Hr & Hcr & Hpref & ->). destruct (Hmin r Hr Hcr) as [Hle Hbf].
        destruct (Hpref b Hin Hcb) as [Hle' Hpb].
        assert (Hm : metric b = metric r) by lia. destruct (Hpb Hm) as [Hg Hnb].
        assert (ambiguous c = false) as ->.
        { apply not_true_is_false. intros (r' & Hr' & Hcr' & Hm' & Hne)%Hamb. apply Hne.
          destruct (Hpref r' Hr' Hcr') as [_ Hx]. rewrite Hg. apply Hx. lia. }
        destruct (interface_before_total r b) as [Hix Hnm]; [apply Hbf; congruence | done |].
        unfold from_record. by rewrite Hg, Hix, Hnm.
    + split; [by destruct (ambiguous c) |]. intros [Hno _]. by apply Hno in Hcb.
  - destruct Hb as [-> Hnone]. split.
    + intros g. split; [by destruct (saw_invalid c) |]. intros (r & Hr & Hcr & _). by apply Hnone in Hcr.
    + rewrite <- Hi. split; [by destruct (saw_invalid c) | by intros [_ ->]].
Qed.

(** Gateway selection is exact and independent of the order of the routes.
    A gateway is selected exactly when it is that of a default route with an
    acceptable gateway and the least metric, every such route of that metric
    names the same gateway, and its interface comes first among them; without
    any such route the result says whether an unacceptable gateway was seen. *)
Theorem select_gateway_correct routes :
  (forall g, select_gateway routes = Selected g <->
     exists r, r ∈ routes /\ candidate r /\ preferred routes r /\ g = from_record r) /\
  (select_gateway routes = InvalidGateway <->
     (forall r, r ∈ routes -> ~ candidate r) /\ exists r, r ∈ routes /\ invalid_route r).
Proof. apply select_gateway_spec. Qed.

(** ** Netlink parsing never panics *)

Section netlink_total.
Context `{!Endian}.

Lemma align4_bounds v : 0 <= v -> v <= usize_max - 3 -> v <= align4 v.
Proof.
  intros Hv Hmax. unfold align4, saturating_add. rewrite Z.min_r by lia.
  rewrite <- Z.ldiff_land.
  assert (Hdiv : Z.ldiff (v + 3) 3 = (v + 3) / 4 * 4).
  { change 3 with (Z.ones 2) at 2. rewrite Z.ldiff_ones_r by lia.
    rewrite Z.shiftr_div_pow2, Z.shiftl_mul_pow2 by lia. done. }
  rewrite Hdiv. pose proof (Z.div_mod (v + 3) 4 ltac:(lia)). pose proof (Z.mod_pos_bound (v + 3) 4 ltac:(lia)). lia.
Qed.

Lemma message_header_Some offset l :
  0 <= offset -> offset + 16 <= Z.of_nat (length l) ->
  exists h, message_header offset l = Some h.
Proof.
  intros H0 Hl. unfold message_header. rewrite !slice_Some by lia. simpl. eauto.
Qed.

(** A step past a message of at least [n] bytes that lies inside the data. *)
Lemma advance offset length total n :
  0 < n -> 0 <= offset -> n <= length -> saturating_add usize_max offset length <= total ->
  total < usize_max - 3 ->
  offset + n <= saturating_add usize_max offset (align4 length).
Proof.
  intros Hn Ho Hl Ht Hmax. unfold saturating_add in *.
  assert (length <= usize_max - 3) by lia. pose proof (align4_bounds length ltac:(lia) ltac:(lia)). lia.
Qed.

Lemma dump_finished_total fuel offset l :
  0 <= offset -> Z.of_nat (length l) < usize_max - 3 ->
  (Z.to_nat (Z.of_nat (length l) - offset) < fuel)%nat ->
  exists b, dump_finished_from fuel offset l = Some b.
Proof.
  intros Ho Hmax. revert offset Ho. induction fuel as [|fuel IH]; intros offset Ho Hf; [lia |]. simpl.
  destruct (offset + 16 <=? Z.of_nat (length l)) eqn:Hin; [| by eexists]. reflect_bool.
  destruct (message_header_Some offset l) as [[n kind] ->]; [done | done |]. simpl.
  destruct (_ || _) eqn:Hbad; [by eexists |]. reflect_bool.
  destruct (kind =? NLMSG_DONE); [by eexists |].
  pose proof (advance offset n (Z.of_nat (length l)) 16 ltac:(lia) Ho ltac:(lia) ltac:(lia) Hmax) as Hadv.
  apply IH; lia.
Qed.

Lemma parse_attributes_total fuel cursor body a :
  0 <= cursor -> Z.of_nat (length body) < usize_max - 3 ->
  (Z.to_nat (Z.of_nat (length body) - cursor) < fuel)%nat ->
  exists r, parse_attributes fuel cursor body a = Some r.
Proof.
  intros Hc Hmax. revert cursor a Hc. induction fuel as [|fuel IH]; intros cursor a Hc Hf; [lia |]. simpl.
  destruct (cursor + 4 <=? Z.of_nat (length body)) eqn:Hin; [| by eexists]. reflect_bool.
  rewrite !slice_Some by lia. simpl. set (n := ne_value _).
  destruct (_ || _) eqn:Hbad; [by eexists |]. reflect_bool.
  pose proof (advance cursor n (Z.of_nat (length body)) 4 ltac:(lia) Hc ltac:(lia) ltac:(lia) Hmax) as Hadv.
  rewrite slice_Some by (unfold saturating_add in *; lia). simpl. apply IH; lia.
Qed.

Lemma parse_route_message_total body :
  Z.of_nat (length body) < usize_max - 3 -> exists r, parse_route_message body = Some r.
Proof.
  intros Hmax. unfold parse_route_message. destruct (_ <? 12) eqn:Hlen; [by eexists |]. reflect_bool.
  destruct (index_Some 0 body ltac:(lia)) as [f ->]. cbn [mbind option_bind]. destruct (negb (f =? AF_INET)); [by eexists |].
  destruct (index_Some 1 body ltac:(lia)) as [p ->]. cbn [mbind option_bind]. destruct (32 <? p); [by eexists |].
  destruct (index_Some 7 body ltac:(lia)) as [k ->]. cbn [mbind option_bind]. destruct (negb (k =? RTN_UNICAST)); [by eexists |].
  destruct (parse_attributes_total (S (length body)) (align4 12) body no_attributes) as [[a|] ->];
    [done | done | change (align4 12) with 12; lia | | by eexists].
  cbn [mbind option_bind]. destruct (index_Some 4 body ltac:(lia)) as [tb ->]. cbn [mbind option_bind].
  destruct (if tb =? RT_TABLE_COMPAT then _ else _) as [table|]; [| by eexists].
  destruct (negb (table =? RT_TABLE_MAIN)); by eexists.
Qed.

(** The two walks over a dump agree: a dump is complete exactly when parsing
    it does not find it malformed. *)
Lemma parse_dump_total fuel offset l routes :
  0 <= offset -> Z.of_nat (length l) < usize_max - 3 ->
  (Z.to_nat (Z.of_nat (length l) - offset) < fuel)%nat ->
  exists r, parse_dump_from fuel offset l routes = Some r /\
    (forall rs, r = Ok rs -> dump_finished_from fuel offset l = Some true) /\
    (dump_finished_from fuel offset l = Some true -> r <> Err Malformed).
Proof.
  intros Ho Hmax. revert offset routes Ho. induction fuel as [|fuel IH]; intros offset routes Ho Hf; [lia |]. simpl.
  destruct (offset + 16 <=? Z.of_nat (length l)) eqn:Hin; [| by eexists; split_and!]. reflect_bool.
  destruct (message_header_Some offset l) as [[n kind] ->]; [done | done |]. simpl.
  destruct (_ || _) eqn:Hbad; [by eexists; split_and! |]. reflect_bool.
  destruct (kind =? NLMSG_DONE); [by eexists; split_and! |].
  destruct (kind =? NLMSG_ERROR); [by eexists; split_and! |].
  pose proof (advance offset n (Z.of_nat (length l)) 16 ltac:(lia) Ho ltac:(lia) ltac:(lia) Hmax) as Hadv.
  destruct (kind =? RTM_NEWROUTE); [| apply IH; lia].
  destruct (length routes =? ROUTE_TABLE_MAX_RECORDS)%nat; [by eexists; split_and! |].
  assert (Hfit : offset + n <= Z.of_nat (length l)) by (unfold saturating_add in *; lia).
  destruct (slice (offset + 16) (offset + n) l) as [body|] eqn:Hs;
    [| rewrite slice_Some in Hs by lia; done].
  simpl. apply slice_length in Hs.
  destruct (parse_route_message_total body) as [route ->]; [lia |]. simpl. apply IH; lia.
Qed.

End netlink_total.

(** ** Discovery returns *)

(** An event of discovery: nothing is sent to a router. *)
Definition local_event (e : gw_event) : Prop :=
  match e with GwExchange _ _ _ => False | _ => True end.

Section discovery_total.
Context `{!Router, !Endian}.

Lemma emits_cancelled : emits local_event cancelled.
Proof. by apply emits_ask. Qed.

Lemma len_0 s : len s = 0 -> s = EmptyString.
Proof. unfold len. by destruct s. Qed.

Lemma read_to_end_emits : emits local_event read_to_end.
Proof.
  apply (yields_emits _ (fun _ => True)). unfold read_to_end, READ_TURNS.
  apply (yields_loop _ (fun b => len b <= ROUTE_TABLE_MAX_BYTES)
    (fun b => Z.to_nat (ROUTE_TABLE_MAX_BYTES - len b))); [| done | unfold len; simpl; lia].
  intros b Hb. eapply yields_bind; [apply emits_yields, emits_cancelled |]. intros [|] _; [by apply yields_ret |].
  eapply yields_bind; [by apply emits_yields, emits_ask |]. intros [chunk|] _; apply yields_ret; [| done].
  destruct (len chunk =? 0) eqn:Hz; [done |]. destruct (_ <? _) eqn:Hlt; [done |]. reflect_bool.
  pose proof (len_nonneg chunk). pose proof (len_nonneg b). rewrite len_app.
  unfold saturating_add, usize_max, u64_max, ROUTE_TABLE_MAX_BYTES in *. lia.
Qed.

Lemma read_proc_net_route_emits : emits local_event read_proc_net_route.
Proof.
  unfold read_proc_net_route. apply emits_bind; [apply emits_cancelled |]. intros [|]; [apply emits_ret |].
  apply emits_bind; [by apply emits_ask |]. intros []; cbn [negb]; [| apply emits_ret].
  apply emits_bind; [apply read_to_end_emits |]. intros [text|e]; [| apply emits_ret].
  destruct (valid_utf8 text); apply emits_ret.
Qed.

Lemma dump_end_emits acc :
  Z.of_nat (length acc) <= ROUTE_TABLE_MAX_BYTES -> emits local_event (dump_end acc).
Proof.
  intros Hlen. unfold dump_end, netlink_dump_finished.
  destruct (dump_finished_total (S (length acc)) 0 acc) as [[] ->];
    [done | unfold ROUTE_TABLE_MAX_BYTES, usize_max, u64_max in *; lia | lia | |]; apply emits_ret.
Qed.

Lemma recv_dump_emits turns acc :
  Z.of_nat (length acc) <= ROUTE_TABLE_MAX_BYTES -> emits local_event (recv_dump turns acc).
Proof.
  revert acc. induction turns as [|turns IH]; intros acc Hacc; [by apply dump_end_emits |]. simpl.
  apply emits_bind; [apply emits_cancelled |]. intros [|]; [apply emits_ret |].
  apply emits_bind; [by apply emits_ask |]. intros [[received data]|]; [| apply emits_ret].
  destruct (received =? 0); [by apply dump_end_emits |]. destruct (NETLINK_RECV_BYTES <? received); [apply emits_ret |].
  destruct (_ <? _) eqn:Hfit; [apply emits_ret |]. reflect_bool.
  set (acc' := acc ++ _).
  assert (Hacc' : Z.of_nat (length acc') <= ROUTE_TABLE_MAX_BYTES).
  { unfold acc'. rewrite length_app, length_take.
    unfold saturating_add, usize_max, u64_max, ROUTE_TABLE_MAX_BYTES in *. lia. }
  unfold netlink_dump_finished.
  destruct (dump_finished_total (S (length acc')) 0 acc') as [[] ->];
    [done | unfold ROUTE_TABLE_MAX_BYTES, usize_max, u64_max in *; lia | lia | apply emits_ret | by apply IH].
Qed.

Lemma parse_netlink_total l : exists r, parse_netlink_route_dump l = Some r.
Proof.
  unfold parse_netlink_route_dump. destruct (_ <? _) eqn:Hlen; [by eexists |]. reflect_bool.
  destruct (parse_dump_total (S (length l)) 0 l []) as (r & -> & _);
    [done | unfold ROUTE_TABLE_MAX_BYTES, usize_max, u64_max in *; lia | lia | by eexists].
Qed.

Lemma read_netlink_routes_emits : emits local_event read_netlink_routes.
Proof.
  pose proof emits_cancelled. unfold read_netlink_routes.
  apply emits_bind; [done |]. intros [|]; [apply emits_ret |].
  apply emits_bind.
  - unfold dump_netlink. apply emits_bind; [done |]. intros [|]; [apply emits_ret |].
    apply emits_bind; [by apply emits_ask |]. intros []; cbn [negb]; [| apply emits_ret].
    by apply recv_dump_emits.
  - intros [bytes|e]; [| apply emits_ret]. destruct (parse_netlink_total bytes) as [r ->]. apply emits_ret.
Qed.

Definition usable (d : GatewayDiscovery) : Prop :=
  forall g, d = Selected g -> acceptable_gateway (gateway g) = true.

Lemma select_gateway_usable routes : usable (select_gateway routes).
Proof. by intros g (r & _ & [_ Ha] & _ & ->)%select_gateway_spec. Qed.

Lemma loaded_yields r : yields local_event usable (loaded r).
Proof.
  destruct r as [routes|[]]; simpl; try by apply yields_ret.
  unfold discover_loaded. eapply yields_bind; [apply emits_yields, emits_cancelled |].
  intros stop _. apply yields_ret. destruct stop; [done |]. destruct (_ <? _)%nat; [done |].
  apply select_gateway_usable.
Qed.

Lemma discover_at_path_yields : yields local_event usable discover_at_path.
Proof.
  assert (Hstop : forall (m : io gw_event GatewayDiscovery), yields local_event usable m ->
    yields local_event usable (stop ← cancelled; if stop : bool then mret DiscoveryCancelled else m)).
  { intros m Hm. eapply yields_bind; [apply emits_yields, emits_cancelled |].
    intros [|] _; [by apply yields_ret | done]. }
  apply Hstop. eapply yields_bind; [apply emits_yields, read_proc_net_route_emits |]. intros r _.
  apply Hstop. destruct r as [routes|[]].
  - apply loaded_yields.
  - apply Hstop. eapply yields_bind; [apply emits_yields, read_netlink_routes_emits |]. intros ? _. apply loaded_yields.
  - by apply yields_ret.
  - by apply yields_ret.
  - apply Hstop. eapply yields_bind; [apply emits_yields, read_netlink_routes_emits |]. intros ? _. apply loaded_yields.
Qed.

(** Gateway discovery always returns.  Whatever the route file, the kernel's
    netlink datagrams and the cancellation test do, it terminates without an
    index out of range, sends no packet to a router, and a gateway it selects
    is a usable unicast address. *)
Theorem discovery_total t :
  exists r es, discover_at_path t = (Some r, es ++ t) /\
    Forall local_event es /\
    (forall g, r = Selected g -> acceptable_gateway (gateway g) = true).
Proof. apply discover_at_path_yields. Qed.

End discovery_total.

Section netlink_agreement.
Context `{!Endian}.

(** The two walks over a netlink dump agree.  Receiving stops as soon as the
    dump is complete, and a dump is parsed into routes only when it is complete;
    a complete dump within the size limit is never called malformed. *)
Theorem netlink_walks_agree l :
  (forall routes, parse_netlink_route_dump l = Some (Ok routes) -> netlink_dump_finished l = Some true) /\
  (netlink_dump_finished l = Some true -> parse_netlink_route_dump l <> Some (Err Malformed)).
Proof.
  unfold parse_netlink_route_dump, netlink_dump_finished. destruct (_ <? _) eqn:Hlen; [done |]. reflect_bool.
  destruct (parse_dump_total (S (length l)) 0 l []) as (r & -> & Hok & Hmal);
    [done | unfold ROUTE_TABLE_MAX_BYTES, usize_max, u64_max in *; lia | lia |].
  split; [intros routes [= ->]; by eapply Hok | intros Hf [= ->]; by apply Hmal].
Qed.

End netlink_agreement.

(** ** Exchanges *)

(** What is sent: nothing, or the request to the gateway's own address. *)
Definition addressed (g : SelectedGateway) (request : list Z) (e : gw_event) : Prop :=
  match e with
  | GwExchange destination sent _ => sa_ip destination = gateway g /\ sa_port destination <> 0 /\ sent = request
  | _ => True
  end.

Definition exchange_of (e : gw_event) : option (SocketAddr * list Z) :=
  match e with GwExchange destination request _ => Some (destination, request) | _ => None end.
Definition exchanges (es : list gw_event) : list (SocketAddr * list Z) := omap exchange_of es.

Section exchange_properties.
Context `{!Router, !UrlApi, !UrlHost}.

Lemma control_destination_gateway g protocol location d :
  control_destination g protocol location = Ok d -> sa_ip d = gateway g /\ sa_port d <> 0.
Proof.
  unfold control_destination, upnp_location. destruct protocol.
  1, 2: destruct (opt_is_some location); [done |]; by intros [= <-].
  destruct location as [location|]; simpl; [| done]. destruct (_ <? _); [done |].
  destruct (url_parse location) as [url|]; simpl; [| done]. destruct (_ || _); [done |].
  destruct (url_host_ipv4 url) as [a|]; [| done]. case_bool_decide as Ha; [| done].
  destruct (_ =? 0) eqn:Hp; [done |]. intros [= <-]. reflect_bool. by split.
Qed.

Lemma buffer_take_length capacity data n : 0 <= capacity -> Z.of_nat (length (take n (buffer capacity data))) <= capacity.
Proof. intros Hc. unfold buffer. rewrite !length_take. lia. Qed.

(** One exchange at most, at the gateway; the reply fits the buffer. *)
Definition exchange_ok {A} (g : SelectedGateway) (request : list Z) (capacity : Z)
    (body_of : A -> option (list Z)) (m : io gw_event A) : Prop :=
  forall t, exists r es, m t = (Some r, es ++ t) /\ Forall (addressed g request) es /\
    (length (exchanges es) <= 1)%nat /\
    (forall b, body_of r = Some b -> Z.of_nat (length b) <= capacity).

(** A finished run of an exchange, with the events it added. *)
Ltac exchanged n :=
  match n with
  | 0%nat => eexists _, []
  | 1%nat => eexists _, [_]
  | 2%nat => eexists _, [_; _]
  | 3%nat => eexists _, [_; _; _]
  end; split_and!;
  [ done
  | repeat (apply List.Forall_cons; [simpl; intuition congruence |]); apply List.Forall_nil
  | simpl; lia
  | try done; try (intros ? [= <-]; by apply buffer_take_length) ].

Lemma exchange_with_gateway_ok g protocol location request :
  exchange_ok g request CONTROL_MAX_BYTES result_ok (exchange_with_gateway g protocol location request).
Proof.
  intros t. unfold exchange_with_gateway, mbind, io_bind, mret, io_ret; cbn [control_cancelled control_exchange router_control].
  unfold cancelled, ask.
  destruct (on_cancelled t); [exchanged 1%nat |].
  destruct request as [|b request]; [exchanged 1%nat |].
  destruct (_ <? _); [exchanged 1%nat |].
  destruct (control_destination g protocol location) as [d|e] eqn:Hd; [| exchanged 1%nat].
  apply control_destination_gateway in Hd.
  destruct (on_exchange _ d _) as [[n data]|e]; [| exchanged 2%nat].
  destruct (on_cancelled _); [exchanged 3%nat |]. simpl.
  destruct (_ <? n) eqn:Hn; [exchanged 3%nat |].
  exchanged 3%nat.
Qed.

Definition soap_body (r : UpnpSoapReply) : option (list Z) :=
  match r with Exchanged (Ok b) => Some b | _ => None end.

Lemma exchange_upnp_soap_ok g location request :
  exchange_ok g request UPNP_SOAP_MAX_BYTES soap_body (exchange_upnp_soap g location request).
Proof.
  intros t. unfold exchange_upnp_soap, mbind, io_bind, mret, io_ret; cbn [control_cancelled control_exchange router_control].
  unfold cancelled, ask.
  destruct request as [|b request]; [exchanged 0%nat |].
  destruct (_ <? _); [exchanged 0%nat |].
  destruct (on_cancelled t); [exchanged 1%nat |].
  destruct (control_destination g UpnpIgd (Some location)) as [d|e] eqn:Hd; [| exchanged 1%nat].
  apply control_destination_gateway in Hd.
  destruct (on_exchange _ d _) as [[n data]|e]; [| exchanged 2%nat].
  destruct (_ <=? n) eqn:Hn; [exchanged 2%nat |].
  exchanged 2%nat.
Qed.

(** Control traffic stays at the selected gateway.  An exchange, over the
    PCP/NAT-PMP port or over the UPnP control URL, returns, sends the request at
    most once and only to the gateway's own address, whatever the control URL
    says, and returns no more than the response buffer holds. *)
Theorem exchanges_stay_at_gateway g protocol location url request :
  exchange_ok g request CONTROL_MAX_BYTES result_ok (exchange_with_gateway g protocol location request) /\
  exchange_ok g request UPNP_SOAP_MAX_BYTES soap_body (exchange_upnp_soap g url request).
Proof. split; [apply exchange_with_gateway_ok | apply exchange_upnp_soap_ok]. Qed.

End exchange_properties.
