(* ===== verification/Traversal.v ===== *)
(** * Traversal grants

    [network_traversal/mod.rs], [descriptor.rs], [reserve.rs] and the capability
    codec of [auth.rs]: what a traversal grant may ask for, when it may start,
    and how it is authenticated.

    JSON text, SHA-256, HMAC and hex are the interfaces of their crates. *)
From Stdlib Require Import Ascii Sorted.
From stdpp Require Import prelude strings sorting.
From S2P Require Import Prelude Json Bridge World RestartPolicy.

Local Open Scope Z_scope.

Definition TRAVERSAL_BLOCK_MAX_BYTES : Z := 8 * 1024.
Definition TRAVERSAL_ENVELOPE_MAX_BYTES : Z := 16 * 1024.
Definition TRAVERSAL_CAPABILITY_MAX_MS : Z := 120000.
Definition TRAVERSAL_EXPERIMENT_MAX_MS : Z := 30000.
Definition TRAVERSAL_CLEANUP_RESERVE_MS : Z := 5000.
Definition SAFE_INTEGER : Z := 9007199254740991.

Inductive TraversalRefusal :=
| RefusalMalformed | UnknownVersion | WrongDomain | InvalidBinding | InvalidScope | InvalidBudget
| InvalidDeadline | InvalidConsent | InvalidPair | InvalidProof | Oversize | NotYetValid | Expired
| InsufficientTime | InvalidMac | NonCanonical.

(** [?] on a check that yields no value. *)
Notation "'check' b 'else' e ; k" := (if b : bool then k else Err e)
  (at level 10, b at level 200, e at level 9, k at level 200) : rust_scope.

(** ** Text checks *)

Definition text (s : string) : bool :=
  negb (str_is_empty s) && (len s <=? 128) && bytes_all is_ascii_graphic s.
Definition lower_hex (s : string) (n : Z) : bool :=
  (len s =? n * 2) && bytes_all (fun b => is_ascii_digit b || byte_between 97 102 b) s.
Definition digest (s : string) : bool := is_some_and (strip_prefix "sha256:" s) (fun s => lower_hex s 32).

(** ** Data *)

Inductive TraversalMode := Observe | ModeMapping | ModePair.

Inductive TraversalOperation :=
| DiscoverGateway | ObserveMapping | ObserveFiltering | BaselineTcp | BaselineUdp | RegisterEndpoint
| MapPcp | MapNatPmp | MapUpnp | PairDirectUdp | PairRelayControl.

Inductive TraversalRouterProtocol := RouterPcp | RouterNatPmp | RouterUpnpIgd.
Inductive TraversalParticipantRole := First | Second.

#[global] Instance traversal_refusal_eq_dec : EqDecision TraversalRefusal.
Proof. solve_decision. Defined.
#[global] Instance traversal_mode_eq_dec : EqDecision TraversalMode.
Proof. solve_decision. Defined.
#[global] Instance traversal_operation_eq_dec : EqDecision TraversalOperation.
Proof. solve_decision. Defined.
#[global] Instance traversal_router_eq_dec : EqDecision TraversalRouterProtocol.
Proof. solve_decision. Defined.
#[global] Instance traversal_role_eq_dec : EqDecision TraversalParticipantRole.
Proof. solve_decision. Defined.

(** The derived [Ord]: declaration order. *)
Definition operation_index (op : TraversalOperation) : Z :=
  match op with
  | DiscoverGateway => 0 | ObserveMapping => 1 | ObserveFiltering => 2 | BaselineTcp => 3
  | BaselineUdp => 4 | RegisterEndpoint => 5 | MapPcp => 6 | MapNatPmp => 7 | MapUpnp => 8
  | PairDirectUdp => 9 | PairRelayControl => 10
  end.
Definition router_index (p : TraversalRouterProtocol) : Z :=
  match p with RouterPcp => 0 | RouterNatPmp => 1 | RouterUpnpIgd => 2 end.

Record TraversalBudgets := {
  experiment_ms : Z;
  cleanup_reserve_ms : Z;
  outbound_datagrams : Z;
  datagram_bytes : Z;
  control_requests : Z;
  external_dialbacks : Z;
  relay_bytes_per_direction : Z;
  concurrent_mapping_leases : Z;
  cleanup_datagrams : Z;
  cleanup_control_requests : Z
}.

Definition budgets_validate (b : TraversalBudgets) : result unit TraversalRefusal :=
  if (experiment_ms b =? 0)
     || (TRAVERSAL_EXPERIMENT_MAX_MS <? experiment_ms b)
     || (cleanup_reserve_ms b =? 0)
     || (TRAVERSAL_CLEANUP_RESERVE_MS <? cleanup_reserve_ms b)
     || (experiment_ms b <=? cleanup_reserve_ms b)
     || (64 <? outbound_datagrams b)
     || (512 <? datagram_bytes b)
     || (12 <? control_requests b)
     || (4 <? external_dialbacks b)
     || (65536 <? relay_bytes_per_direction b)
     || (2 <? concurrent_mapping_leases b)
     || (outbound_datagrams b <? cleanup_datagrams b)
     || (control_requests b <? cleanup_control_requests b)
     || ((0 <? outbound_datagrams b) && (datagram_bytes b =? 0))
  then Err InvalidBudget else Ok tt.

Record TraversalMappingConsent := {
  consent_reference : string;
  processor_allowlist_digest : string;
  exclusive_reservation_digest : string;
  prior_uncertainty_resolved : bool;
  finite_expiry_verified : bool;
  consent_expires_at_ms : Z;
  protocols : list TraversalRouterProtocol;
  requested_lease_sec : Z;
  maximum_lease_sec : Z
}.

Record TraversalParticipant := {
  role : TraversalParticipantRole;
  launch_instance_digest : string;
  participant_claim_authority_digest : string;
  runtime_signer : string
}.

Record TraversalPair := {
  pair_id : string;
  pair_expires_at_ms : Z;
  participants : TraversalParticipant * TraversalParticipant
}.

Record TraversalDescriptorV1 := {
  version : Z;
  run_id : string;
  mode : TraversalMode;
  claim_authority_digest : string;
  profile_version : string;
  catalog_version : string;
  artifact_digest : string;
  helper_version : string;
  helper_digest : string;
  endpoint_set_revision : string;
  issued_at_ms : Z;
  expires_at_ms : Z;
  deadline_ms : Z;
  operations : list TraversalOperation;
  budgets : TraversalBudgets;
  mapping : option TraversalMappingConsent;
  pair : option TraversalPair;
  participant_role : option TraversalParticipantRole
}.

#[global] Instance budgets_eq_dec : EqDecision TraversalBudgets.
Proof. solve_decision. Defined.
#[global] Instance consent_eq_dec : EqDecision TraversalMappingConsent.
Proof. solve_decision. Defined.
#[global] Instance participant_eq_dec : EqDecision TraversalParticipant.
Proof. solve_decision. Defined.
#[global] Instance pair_eq_dec : EqDecision TraversalPair.
Proof. solve_decision. Defined.
#[global] Instance descriptor_eq_dec : EqDecision TraversalDescriptorV1.
Proof. solve_decision. Defined.

(** ** Serialisation *)

Definition mode_str (m : TraversalMode) : string :=
  match m with Observe => "observe" | ModeMapping => "mapping" | ModePair => "pair" end.
Definition operation_str (op : TraversalOperation) : string :=
  match op with
  | DiscoverGateway => "discover_gateway" | ObserveMapping => "observe_mapping"
  | ObserveFiltering => "observe_filtering" | BaselineTcp => "baseline_tcp"
  | BaselineUdp => "baseline_udp" | RegisterEndpoint => "register_endpoint" | MapPcp => "map_pcp"
  | MapNatPmp => "map_nat_pmp" | MapUpnp => "map_upnp" | PairDirectUdp => "pair_direct_udp"
  | PairRelayControl => "pair_relay_control"
  end.
Definition router_str (p : TraversalRouterProtocol) : string :=
  match p with RouterPcp => "pcp" | RouterNatPmp => "nat_pmp" | RouterUpnpIgd => "upnp_igd" end.
Definition role_str (r : TraversalParticipantRole) : string :=
  match r with First => "first" | Second => "second" end.

Definition budgets_value (b : TraversalBudgets) : Value :=
  Obj [("experimentMs", jint (experiment_ms b)); ("cleanupReserveMs", jint (cleanup_reserve_ms b));
       ("outboundDatagrams", jint (outbound_datagrams b)); ("datagramBytes", jint (datagram_bytes b));
       ("controlRequests", jint (control_requests b)); ("externalDialbacks", jint (external_dialbacks b));
       ("relayBytesPerDirection", jint (relay_bytes_per_direction b));
       ("concurrentMappingLeases", jint (concurrent_mapping_leases b));
       ("cleanupDatagrams", jint (cleanup_datagrams b));
       ("cleanupControlRequests", jint (cleanup_control_requests b))].

Definition consent_value (c : TraversalMappingConsent) : Value :=
  Obj [("consentReference", Str (consent_reference c));
       ("processorAllowlistDigest", Str (processor_allowlist_digest c));
       ("exclusiveReservationDigest", Str (exclusive_reservation_digest c));
       ("priorUncertaintyResolved", Bool (prior_uncertainty_resolved c));
       ("finiteExpiryVerified", Bool (finite_expiry_verified c));
       ("expiresAtMs", jint (consent_expires_at_ms c));
       ("protocols", Arr (map (fun p => Str (router_str p)) (protocols c)));
       ("requestedLeaseSec", jint (requested_lease_sec c));
       ("maximumLeaseSec", jint (maximum_lease_sec c))].

Definition participant_value (p : TraversalParticipant) : Value :=
  Obj [("role", Str (role_str (role p))); ("launchInstanceDigest", Str (launch_instance_digest p));
       ("claimAuthorityDigest", Str (participant_claim_authority_digest p));
       ("runtimeSigner", Str (runtime_signer p))].

Definition pair_value (p : TraversalPair) : Value :=
  Obj [("pairId", Str (pair_id p)); ("expiresAtMs", jint (pair_expires_at_ms p));
       ("participants", Arr [participant_value (participants p).1; participant_value (participants p).2])].

Definition opt_value {A} (f : A -> Value) (o : option A) : Value :=
  match o with Some a => f a | None => Null end.

Definition descriptor_fields (d : TraversalDescriptorV1) : list (string * Value) :=
  [("version", jint (version d)); ("runId", Str (run_id d)); ("mode", Str (mode_str (mode d)));
   ("claimAuthorityDigest", Str (claim_authority_digest d));
   ("profileVersion", Str (profile_version d)); ("catalogVersion", Str (catalog_version d));
   ("artifactDigest", Str (artifact_digest d)); ("helperVersion", Str (helper_version d));
   ("helperDigest", Str (helper_digest d)); ("endpointSetRevision", Str (endpoint_set_revision d));
   ("issuedAtMs", jint (issued_at_ms d)); ("expiresAtMs", jint (expires_at_ms d));
   ("deadlineMs", jint (deadline_ms d));
   ("operations", Arr (map (fun op => Str (operation_str op)) (operations d)));
   ("budgets", budgets_value (budgets d));
   ("mapping", opt_value consent_value (mapping d));
   ("pair", opt_value pair_value (pair d));
   ("participantRole", opt_value (fun r => Str (role_str r)) (participant_role d))].

(** ** Validation *)

(** [list.windows(2).any(|w| w[0] >= w[1])]: not strictly increasing. *)
Fixpoint windows_any_ge (l : list Z) : bool :=
  match l with
  | a :: (b :: _) as rest => (b <=? a) || windows_any_ge rest
  | _ => false
  end.

Definition operation_allowed (m : TraversalMode) (op : TraversalOperation) : bool :=
  match op with
  | MapPcp | MapNatPmp | MapUpnp => bool_decide (m = ModeMapping)
  | RegisterEndpoint | PairDirectUdp | PairRelayControl => bool_decide (m = ModePair)
  | DiscoverGateway | ObserveMapping | ObserveFiltering | BaselineTcp | BaselineUdp =>
      negb (bool_decide (m = ModePair))
  end.

Definition mutates (p : TraversalRouterProtocol) : TraversalOperation :=
  match p with RouterPcp => MapPcp | RouterNatPmp => MapNatPmp | RouterUpnpIgd => MapUpnp end.

Definition ops_contain (ops : list TraversalOperation) (op : TraversalOperation) : bool :=
  bool_decide (op ∈ ops).
Definition protocols_contain (ps : list TraversalRouterProtocol) (p : TraversalRouterProtocol) : bool :=
  bool_decide (p ∈ ps).

Definition consent_valid (d : TraversalDescriptorV1) (consent : TraversalMappingConsent) : bool :=
  negb (negb (text (consent_reference consent))
        || negb (digest (processor_allowlist_digest consent))
        || negb (digest (exclusive_reservation_digest consent))
        || negb (prior_uncertainty_resolved consent)
        || negb (finite_expiry_verified consent)
        || (consent_expires_at_ms consent <? expires_at_ms d)
        || (SAFE_INTEGER <? consent_expires_at_ms consent)
        || negb (requested_lease_sec consent =? 60)
        || (maximum_lease_sec consent <? 60)
        || (120 <? maximum_lease_sec consent)
        || match protocols consent with [] => true | _ => false end
        || (3 <? Z.of_nat (length (protocols consent)))
        || windows_any_ge (map router_index (protocols consent))
        || (concurrent_mapping_leases (budgets d) =? 0)).

Definition consent_matches (d : TraversalDescriptorV1) (consent : TraversalMappingConsent) : bool :=
  negb (existsb (fun p => negb (ops_contain (operations d) (mutates p))) (protocols consent)
        || existsb (fun p => ops_contain (operations d) (mutates p)
                             && negb (protocols_contain (protocols consent) p))
             [RouterPcp; RouterNatPmp; RouterUpnpIgd]
        || (cleanup_datagrams (budgets d) <? concurrent_mapping_leases (budgets d))
        || (cleanup_control_requests (budgets d) <? concurrent_mapping_leases (budgets d))).

Definition validate_mapping (d : TraversalDescriptorV1) : result unit TraversalRefusal :=
  match mode d, mapping d with
  | ModeMapping, Some consent =>
      check consent_valid d consent else InvalidConsent;
      check consent_matches d consent else InvalidConsent;
      Ok tt
  | ModeMapping, None => Err InvalidConsent
  | _, Some _ => Err InvalidScope
  | _, None =>
      if negb (concurrent_mapping_leases (budgets d) =? 0)
         || negb (cleanup_datagrams (budgets d) =? 0)
         || negb (cleanup_control_requests (budgets d) =? 0)
      then Err InvalidScope else Ok tt
  end.

Definition participant_valid (p : TraversalParticipant) : bool :=
  negb (negb (digest (launch_instance_digest p))
        || negb (digest (participant_claim_authority_digest p))
        || is_none_or (strip_prefix "0x" (runtime_signer p)) (fun s => negb (lower_hex s 32))).

Definition own_participant (p : TraversalPair) (r : TraversalParticipantRole) : option TraversalParticipant :=
  if bool_decide (role (participants p).1 = r) then Some (participants p).1
  else if bool_decide (role (participants p).2 = r) then Some (participants p).2 else None.

Definition pair_valid (d : TraversalDescriptorV1) (p : TraversalPair) (r : TraversalParticipantRole) : bool :=
  let '(a, b) := participants p in
  negb (negb (lower_hex (pair_id p) 16)
        || negb (pair_expires_at_ms p =? expires_at_ms d)
        || negb (bool_decide (role a = First))
        || negb (bool_decide (role b = Second))
        || (launch_instance_digest a =s launch_instance_digest b)
        || (participant_claim_authority_digest a =s participant_claim_authority_digest b)
        || (negb (participant_valid a) || negb (participant_valid b))
        || is_none_or (own_participant p r)
             (fun q => negb (participant_claim_authority_digest q =s claim_authority_digest d))).

Definition validate_pair (d : TraversalDescriptorV1) : result unit TraversalRefusal :=
  match mode d, pair d, participant_role d with
  | ModePair, Some p, Some r => check pair_valid d p r else InvalidPair; Ok tt
  | ModePair, _, _ => Err InvalidPair
  | _, None, None => Ok tt
  | _, _, _ => Err InvalidScope
  end.

Section Grants.
Context `{!JsonText, !Sha256, !Encodings}.

(** [bounded] and [canonical] on a struct with these serialised fields; neither
    serialisation can fail on these types. *)
Definition bounded (fields : list (string * Value)) (limit : Z) : result unit TraversalRefusal :=
  if limit <? len (to_vec_fields fields) then Err Oversize else Ok tt.
Definition canonical (fields : list (string * Value)) : string := canonical_json_bytes (Obj fields).
Definition traversal_sha256 (bytes : string) : string := "sha256:" +:+ hex_encode (sha256 bytes).

Definition descriptor_validate (d : TraversalDescriptorV1) : result unit TraversalRefusal :=
  check version d =? 1 else UnknownVersion;
  check lower_hex (run_id d) 16
        && forallb digest [claim_authority_digest d; artifact_digest d; helper_digest d]
        && forallb text [profile_version d; catalog_version d; helper_version d; endpoint_set_revision d]
    else InvalidBinding;
  let? _ := budgets_validate (budgets d) in
  check negb ((SAFE_INTEGER <? expires_at_ms d)
              || (expires_at_ms d <=? issued_at_ms d)
              || (TRAVERSAL_CAPABILITY_MAX_MS <? expires_at_ms d - issued_at_ms d)
              || (deadline_ms d <=? issued_at_ms d)
              || (expires_at_ms d <? deadline_ms d))
    else InvalidDeadline;
  check negb (match operations d with [] => true | _ => false end
              || (11 <? Z.of_nat (length (operations d)))
              || windows_any_ge (map operation_index (operations d)))
    else InvalidScope;
  check forallb (operation_allowed (mode d)) (operations d) else InvalidScope;
  let? _ := validate_mapping d in
  let? _ := validate_pair d in
  check negb (negb (bool_decide (mode d = ModePair)) && negb (relay_bytes_per_direction (budgets d) =? 0))
    else InvalidScope;
  bounded (descriptor_fields d) TRAVERSAL_BLOCK_MAX_BYTES.

Definition canonical_bytes (d : TraversalDescriptorV1) : result string TraversalRefusal :=
  let? _ := descriptor_validate d in
  Ok (canonical (descriptor_fields d)).

Definition binding_digest (d : TraversalDescriptorV1) : result string TraversalRefusal :=
  let? bytes := canonical_bytes d in
  Ok (traversal_sha256 bytes).

Definition validate_at (d : TraversalDescriptorV1) (now_ms : Z) : result unit TraversalRefusal :=
  let? _ := descriptor_validate d in
  if now_ms <? issued_at_ms d then Err NotYetValid
  else if expires_at_ms d <=? now_ms then Err Expired
  else Ok tt.

Definition can_start (d : TraversalDescriptorV1) (now_ms job_expires_at_ms delivery_reserve_ms : Z)
  : result unit TraversalRefusal :=
  let? _ := validate_at d now_ms in
  let? finish := ok_or InsufficientTime (checked_add_u64 now_ms (experiment_ms (budgets d))) in
  let? delivered := ok_or InsufficientTime (checked_add_u64 finish delivery_reserve_ms) in
  if (deadline_ms d <? finish) || (Z.min (expires_at_ms d) job_expires_at_ms <? delivered)
  then Err InsufficientTime else Ok tt.

(** [first.clone()] with the role and claim of the other half. *)
Definition with_half (d : TraversalDescriptorV1) (r : option TraversalParticipantRole) (claim : string)
  : TraversalDescriptorV1 :=
  {| version := version d; run_id := run_id d; mode := mode d; claim_authority_digest := claim;
     profile_version := profile_version d; catalog_version := catalog_version d;
     artifact_digest := artifact_digest d; helper_version := helper_version d;
     helper_digest := helper_digest d; endpoint_set_revision := endpoint_set_revision d;
     issued_at_ms := issued_at_ms d; expires_at_ms := expires_at_ms d; deadline_ms := deadline_ms d;
     operations := operations d; budgets := budgets d; mapping := mapping d; pair := pair d;
     participant_role := r |}.

Definition validate_traversal_pair (first second : TraversalDescriptorV1) : result unit TraversalRefusal :=
  let? _ := descriptor_validate first in
  let? _ := descriptor_validate second in
  if negb (bool_decide (mode first = ModePair))
     || negb (bool_decide (participant_role first = Some First))
     || negb (bool_decide (participant_role second = Some Second))
  then Err InvalidPair
  else
    let counterpart := with_half first (participant_role second) (claim_authority_digest second) in
    if negb (bool_decide (counterpart = second)) then Err InvalidPair else Ok tt.

End Grants.

(** ** Reservation *)

Definition TRAVERSAL_CAPABILITY_DOMAIN : string := "proof.liskov.network-traversal-capability.v1".
Definition EXISTING_DELIVERY_RESERVE_MS : Z := 40000.

Record TraversalCapabilityV1 := {
  domain : string;
  descriptor : TraversalDescriptorV1;
  mac : string
}.

Record TraversalHelperIdentity := { identity_version : string; identity_digest : string }.

(** The methods of [TraversalEffects], as the calls a reservation could make. *)
Inductive traversal_effect :=
| EffectDiscover | EffectOpenSocket | EffectResolveName (host : string) | EffectSign (message : string)
| EffectSubmit (body : string) | EffectCancelled (answer : bool).

Class TraversalEffects := effects_cancelled : list traversal_effect -> bool.
Definition NopTraversalEffects : TraversalEffects := fun _ => false.

Record Reservation := {
  reserved_experiment_ms : Z;
  reserved_cleanup_reserve_ms : Z;
  delivery_reserve_ms : Z;
  collector_end_ms : Z;
  delivery_end_ms : Z
}.

Inductive ReserveOutcome :=
| Absent | Refused (refusal : TraversalRefusal) | Reserved (r : Reservation) | SkippedBudget.

Record ReserveInput := {
  grant : option TraversalCapabilityV1;
  now_ms : Z;
  job_expires_at_ms : Z;
  expected_artifact_digest : string;
  helper : TraversalHelperIdentity
}.

Section Reserve.
Context `{!JsonText, !TraversalEffects}.

Definition grant_structure_ok (capability : TraversalCapabilityV1) (expected : string)
    (helper : TraversalHelperIdentity) : bool :=
  (domain capability =s TRAVERSAL_CAPABILITY_DOMAIN)
  && lower_hex (mac capability) 32
  && is_ok (descriptor_validate (descriptor capability))
  && (helper_version (descriptor capability) =s identity_version helper)
  && (helper_digest (descriptor capability) =s identity_digest helper)
  && (artifact_digest (descriptor capability) =s expected).

Definition reservation_at (d : TraversalDescriptorV1) (now : Z) : Reservation :=
  let collector_end := saturating_add u64_max now (experiment_ms (budgets d)) in
  {| reserved_experiment_ms := experiment_ms (budgets d);
     reserved_cleanup_reserve_ms := cleanup_reserve_ms (budgets d);
     delivery_reserve_ms := EXISTING_DELIVERY_RESERVE_MS;
     collector_end_ms := collector_end;
     delivery_end_ms := saturating_add u64_max collector_end EXISTING_DELIVERY_RESERVE_MS |}.

Definition reserve_traversal (input : ReserveInput) : io traversal_effect ReserveOutcome :=
  match grant input with
  | None => mret Absent
  | Some capability =>
      let d := descriptor capability in
      if negb (domain capability =s TRAVERSAL_CAPABILITY_DOMAIN) then mret (Refused WrongDomain)
      else if negb (lower_hex (mac capability) 32) then mret (Refused InvalidMac)
      else
        match descriptor_validate d with
        | Err refusal => mret (Refused refusal)
        | Ok _ =>
            if negb (helper_version d =s identity_version (helper input))
               || negb (helper_digest d =s identity_digest (helper input))
               || negb (artifact_digest d =s expected_artifact_digest input)
            then mret (Refused InvalidBinding)
            else
              match can_start d (now_ms input) (job_expires_at_ms input) EXISTING_DELIVERY_RESERVE_MS with
              | Ok _ =>
                  cancelled ← ask effects_cancelled EffectCancelled;
                  if cancelled : bool then mret SkippedBudget
                  else mret (Reserved (reservation_at d (now_ms input)))
              | Err InsufficientTime => mret SkippedBudget
              | Err refusal => mret (Refused refusal)
              end
        end
  end.

Definition reservation_fits (d : TraversalDescriptorV1) (r : Reservation) : bool :=
  (collector_end_ms r <=? deadline_ms d)
  && (delivery_end_ms r <=? expires_at_ms d)
  && (reserved_cleanup_reserve_ms r <=? reserved_experiment_ms r)
  && (delivery_reserve_ms r =? EXISTING_DELIVERY_RESERVE_MS).

End Reserve.

(** ** What a validated grant guarantees *)

Lemma check_ok {E} (b : bool) (e : E) (k : result unit E) : (check b else e; k) = Ok tt <-> b = true /\ k = Ok tt.
Proof. destruct b; naive_solver. Qed.

Lemma let_ok {A E} (r : result A E) (k : A -> result unit E) :
  (let? x := r in k x) = Ok tt <-> exists a, r = Ok a /\ k a = Ok tt.
Proof. destruct r; naive_solver. Qed.

Lemma let_ok_unit {E} (r k : result unit E) : (let? _ := r in k) = Ok tt <-> r = Ok tt /\ k = Ok tt.
Proof. destruct r as [[]|]; naive_solver. Qed.

Lemma windows_sorted l : windows_any_ge l = false -> StronglySorted Z.lt l.
Proof.
  intros Hl. apply Sorted_StronglySorted; [intros ???; lia |].
  induction l as [|a [|b l] IH]; [constructor | repeat constructor |].
  cbn [windows_any_ge] in Hl. apply orb_false_iff in Hl as [Hab Hl].
  constructor; [by apply IH | constructor; lia].
Qed.

(** The ceilings of [TraversalBudgets::validate]. *)
Record budgets_bounded (b : TraversalBudgets) : Prop := {
  bb_experiment : experiment_ms b <= TRAVERSAL_EXPERIMENT_MAX_MS;
  bb_cleanup : cleanup_reserve_ms b < experiment_ms b /\ cleanup_reserve_ms b <= TRAVERSAL_CLEANUP_RESERVE_MS;
  bb_datagrams : cleanup_datagrams b <= outbound_datagrams b <= 64;
  bb_bytes : datagram_bytes b <= 512;
  bb_control : cleanup_control_requests b <= control_requests b <= 12;
  bb_dialbacks : external_dialbacks b <= 4;
  bb_relay : relay_bytes_per_direction b <= 65536;
  bb_leases : concurrent_mapping_leases b <= 2
}.

Lemma budgets_validate_bounded b : budgets_validate b = Ok tt -> budgets_bounded b.
Proof.
  unfold budgets_validate. split_match; [done |]. intros _.
  reflect_bool. split; lia.
Qed.

Section GrantFacts.
Context `{!JsonText}.

(** What [TraversalDescriptorV1::validate] accepts. *)
Record grant_valid (d : TraversalDescriptorV1) : Prop := {
  gv_budgets : budgets_bounded (budgets d);
  gv_window : issued_at_ms d < deadline_ms d <= expires_at_ms d;
  gv_life : expires_at_ms d - issued_at_ms d <= TRAVERSAL_CAPABILITY_MAX_MS;
  gv_safe : expires_at_ms d <= SAFE_INTEGER;
  gv_operations : StronglySorted Z.lt (map operation_index (operations d));
  gv_allowed : Forall (fun op => operation_allowed (mode d) op = true) (operations d);
  gv_mapping : validate_mapping d = Ok tt;
  gv_pair : validate_pair d = Ok tt;
  gv_relay : mode d <> ModePair -> relay_bytes_per_direction (budgets d) = 0;
  gv_size : len (to_vec_fields (descriptor_fields d)) <= TRAVERSAL_BLOCK_MAX_BYTES
}.

Lemma descriptor_validate_valid d : descriptor_validate d = Ok tt -> grant_valid d.
Proof.
  unfold descriptor_validate, bounded. rewrite !check_ok, !let_ok_unit, !check_ok, !let_ok_unit, !check_ok.
  intros (_ & _ & Hb & Hw & Ho & Ha & Hm & Hp & Hr & Hs).
  reflect_bool.
  destruct (TRAVERSAL_BLOCK_MAX_BYTES <? _) eqn:Hl in Hs; [done |].
  split; try lia; [by apply budgets_validate_bounded | by apply windows_sorted | | done | done | ].
  - apply Forall_forall. intros op Hop. by apply (proj1 (forallb_forall _ _) Ha), list_elem_of_In.
  - intros Hmode. apply andb_false_iff in Hr as [Hr|Hr]; [| by apply negb_false_iff, Z.eqb_eq in Hr].
    by rewrite bool_decide_eq_false_2 in Hr.
Qed.

Lemma mutates_inj p q : mutates p = mutates q -> p = q.
Proof. by destruct p, q. Qed.

Lemma every_router p : p ∈ [RouterPcp; RouterNatPmp; RouterUpnpIgd].
Proof. destruct p; set_solver. Qed.

(** The consent names exactly the protocols whose mutation is in scope. *)
Lemma consent_matches_scope d consent :
  consent_matches d consent = true ->
  (forall p, p ∈ protocols consent <-> mutates p ∈ operations d)
  /\ concurrent_mapping_leases (budgets d) <= cleanup_datagrams (budgets d)
  /\ concurrent_mapping_leases (budgets d) <= cleanup_control_requests (budgets d).
Proof.
  unfold consent_matches. intros Hm. reflect_bool. split_and!; [| lia | lia].
  match goal with H : existsb _ (protocols _) = false |- _ => rename H into Hin end.
  match goal with H : existsb _ [_; _; _] = false |- _ => rename H into Hout end.
  intros p. split; intros Hp.
  - destruct (decide (mutates p ∈ operations d)) as [|Hn]; [done |].
    assert (Hx : existsb (fun p => negb (ops_contain (operations d) (mutates p))) (protocols consent) = true).
    { apply existsb_exists. exists p. split; [by apply list_elem_of_In |].
      unfold ops_contain. by rewrite bool_decide_eq_false_2. }
    congruence.
  - destruct (decide (p ∈ protocols consent)) as [|Hn]; [done |].
    assert (Hx : existsb (fun p => ops_contain (operations d) (mutates p)
        && negb (protocols_contain (protocols consent) p)) [RouterPcp; RouterNatPmp; RouterUpnpIgd] = true).
    { apply existsb_exists. exists p. split; [apply list_elem_of_In, every_router |].
      unfold ops_contain, protocols_contain. by rewrite bool_decide_eq_true_2, bool_decide_eq_false_2. }
    congruence.
Qed.

Lemma mutation_needs_mapping d p : grant_valid d -> mutates p ∈ operations d -> mode d = ModeMapping.
Proof.
  intros Hv Hp. pose proof (proj1 (Forall_forall _ _) (gv_allowed d Hv) _ Hp) as Ha.
  by destruct p; apply bool_decide_eq_true in Ha.
Qed.

(** The consent of a validated mapping grant. *)
Record mapping_consented (d : TraversalDescriptorV1) (consent : TraversalMappingConsent) : Prop := {
  mc_mode : mode d = ModeMapping;
  mc_consent : mapping d = Some consent;
  mc_resolved : prior_uncertainty_resolved consent = true;
  mc_finite : finite_expiry_verified consent = true;
  mc_expiry : expires_at_ms d <= consent_expires_at_ms consent;
  mc_requested : requested_lease_sec consent = 60;
  mc_maximum : 60 <= maximum_lease_sec consent <= 120;
  mc_scope : forall p, p ∈ protocols consent <-> mutates p ∈ operations d;
  mc_leases : concurrent_mapping_leases (budgets d) <> 0;
  mc_datagrams : concurrent_mapping_leases (budgets d) <= cleanup_datagrams (budgets d);
  mc_control : concurrent_mapping_leases (budgets d) <= cleanup_control_requests (budgets d)
}.

Lemma mapping_grant_consented d :
  grant_valid d -> mode d = ModeMapping -> exists consent, mapping_consented d consent.
Proof.
  intros Hv Hmode. pose proof (gv_mapping d Hv) as Hm. unfold validate_mapping in Hm.
  rewrite Hmode in Hm. destruct (mapping d) as [consent|] eqn:Hc; [| done].
  apply check_ok in Hm as [Hcv Hm]. apply check_ok in Hm as [Hcm _].
  apply consent_matches_scope in Hcm as (? & ? & ?).
  unfold consent_valid in Hcv. reflect_bool.
  exists consent. split; (done || lia).
Qed.

Lemma and_iff_compat_l_weak (A B C : Prop) : (A -> (B <-> C)) -> (A /\ B <-> A /\ C).
Proof. tauto. Qed.

(** A validated grant authorises a router mutation only with its consent.
    If any operation of the grant creates a mapping, the grant is a mapping grant
    whose consent names exactly the protocols in scope, verified finite expiry and
    the absence of earlier uncertainty, outlives the grant, asks for a 60-second
    lease and accepts at most 120, and whose budgets reserve one cleanup datagram
    and one cleanup control request for every lease that may be open at once,
    within the ordinary ceilings of 64 and 12. *)
Theorem mutation_requires_consent d :
  descriptor_validate d = Ok tt ->
  (forall p, mutates p ∈ operations d ->
     exists consent,
       mapping_consented d consent /\ p ∈ protocols consent /\
       concurrent_mapping_leases (budgets d) <= 2 /\
       cleanup_datagrams (budgets d) <= outbound_datagrams (budgets d) <= 64 /\
       cleanup_control_requests (budgets d) <= control_requests (budgets d) <= 12)
  /\ (mode d <> ModeMapping ->
      mapping d = None /\ concurrent_mapping_leases (budgets d) = 0 /\
      cleanup_datagrams (budgets d) = 0 /\ cleanup_control_requests (budgets d) = 0).
Proof.
  intros Hd. apply descriptor_validate_valid in Hd as Hv. split.
  - intros p Hp. destruct (mapping_grant_consented d Hv (mutation_needs_mapping d p Hv Hp)) as [consent Hc].
    exists consent. pose proof (gv_budgets d Hv) as []. split_and!; try (done || lia).
    by apply (mc_scope d consent Hc).
  - intros Hmode. pose proof (gv_mapping d Hv) as Hm. unfold validate_mapping in Hm.
    destruct (mode d), (mapping d); try done; split_match_in Hm; try done; reflect_bool; done.
Qed.

Lemma validate_at_ok d now :
  validate_at d now = Ok tt <-> descriptor_validate d = Ok tt /\ issued_at_ms d <= now < expires_at_ms d.
Proof.
  unfold validate_at. rewrite let_ok_unit. apply and_iff_compat_l.
  destruct (now <? _) eqn:?; [| destruct (_ <=? now) eqn:?]; reflect_bool; split; intros; (done || lia).
Qed.

(** With the grant validated the two [checked_add]s cannot overflow unless the
    reserve does not fit anyway. *)
Lemma can_start_ok d now job reserve :
  0 <= reserve ->
  can_start d now job reserve = Ok tt <->
  descriptor_validate d = Ok tt /\ issued_at_ms d <= now < expires_at_ms d /\
  now + experiment_ms (budgets d) <= deadline_ms d /\
  now + experiment_ms (budgets d) + reserve <= Z.min (expires_at_ms d) job.
Proof.
  intros Hr. unfold can_start. rewrite let_ok_unit, validate_at_ok, Logic.and_assoc.
  apply and_iff_compat_l_weak; intros Hd. apply and_iff_compat_l_weak; intros Hw.
  pose proof (descriptor_validate_valid d Hd) as Hv.
  pose proof (gv_safe d Hv). pose proof (gv_window d Hv). assert (SAFE_INTEGER < u64_max) by done.
  unfold checked_add_u64, ok_or.
  case Z.leb_spec; intros ?; [| split; intros; (done || lia)].
  case Z.leb_spec; intros ?; [| split; intros; (done || lia)].
  case Z.ltb_spec; intros ?; [split; intros; (done || lia) |].
  case Z.ltb_spec; intros ?; split; intros; (done || lia).
Qed.

Section Admission.
Context `{!TraversalEffects}.

(** Past its structural checks a reservation is decided by [can_start]. *)
Lemma reserve_structured input c t :
  grant input = Some c ->
  grant_structure_ok c (expected_artifact_digest input) (helper input) = true ->
  reserve_traversal input t =
    match can_start (descriptor c) (now_ms input) (job_expires_at_ms input) EXISTING_DELIVERY_RESERVE_MS with
    | Ok _ =>
        (Some (if effects_cancelled t then SkippedBudget
               else Reserved (reservation_at (descriptor c) (now_ms input))),
         EffectCancelled (effects_cancelled t) :: t)
    | Err InsufficientTime => (Some SkippedBudget, t)
    | Err refusal => (Some (Refused refusal), t)
    end.
Proof.
  intros Hg Hs. unfold reserve_traversal. rewrite Hg. unfold grant_structure_ok in Hs.
  repeat (apply andb_true_iff in Hs as [Hs ?]).
  destruct (descriptor_validate _) as [[]|]; [| done].
  repeat match goal with H : (_ =s _) = true |- _ => rewrite H | H : lower_hex _ _ = true |- _ => rewrite H end.
  cbn [negb orb]. destruct (can_start _ _ _ _) as [[]|[]]; try done.
  unfold mbind, io_bind, ask. by destruct (effects_cancelled t).
Qed.

Lemma reserve_unstructured input c t :
  grant input = Some c ->
  grant_structure_ok c (expected_artifact_digest input) (helper input) = false ->
  exists refusal, reserve_traversal input t = (Some (Refused refusal), t).
Proof.
  intros Hg Hs. unfold reserve_traversal. rewrite Hg. unfold grant_structure_ok in Hs.
  destruct (domain c =s _); [| by eexists]. destruct (lower_hex _ _); [| by eexists].
  destruct (descriptor_validate _) as [[]|]; [| by eexists].
  cbn [andb is_ok] in Hs. cbn [negb].
  destruct (_ =s _); [| by eexists]. destruct (_ =s _); [| by eexists].
  cbn [andb] in Hs. rewrite Hs. by eexists.
Qed.

Lemma structure_validates c expected h :
  grant_structure_ok c expected h = true -> descriptor_validate (descriptor c) = Ok tt.
Proof.
  unfold grant_structure_ok. intros Hs. repeat (apply andb_true_iff in Hs as [Hs ?]).
  by destruct (descriptor_validate _) as [[]|].
Qed.

(** Inside its window nothing of a reservation saturates. *)
Lemma reservation_at_exact d now :
  grant_valid d ->
  now + experiment_ms (budgets d) <= deadline_ms d ->
  now + experiment_ms (budgets d) + EXISTING_DELIVERY_RESERVE_MS <= expires_at_ms d ->
  reservation_at d now =
    {| reserved_experiment_ms := experiment_ms (budgets d);
       reserved_cleanup_reserve_ms := cleanup_reserve_ms (budgets d);
       delivery_reserve_ms := EXISTING_DELIVERY_RESERVE_MS;
       collector_end_ms := now + experiment_ms (budgets d);
       delivery_end_ms := now + experiment_ms (budgets d) + EXISTING_DELIVERY_RESERVE_MS |}
  /\ reservation_fits d (reservation_at d now) = true.
Proof.
  intros Hv Hd He. pose proof (gv_safe d Hv). pose proof (bb_cleanup _ (gv_budgets d Hv)).
  assert (SAFE_INTEGER < u64_max /\ 0 < EXISTING_DELIVERY_RESERVE_MS) by done.
  assert (Hr : reservation_at d now = {| reserved_experiment_ms := experiment_ms (budgets d);
       reserved_cleanup_reserve_ms := cleanup_reserve_ms (budgets d);
       delivery_reserve_ms := EXISTING_DELIVERY_RESERVE_MS;
       collector_end_ms := now + experiment_ms (budgets d);
       delivery_end_ms := now + experiment_ms (budgets d) + EXISTING_DELIVERY_RESERVE_MS |}).
  { unfold reservation_at, saturating_add. f_equal; lia. }
  split; [done |]. rewrite Hr. unfold reservation_fits; cbn. rewrite !andb_true_iff. split_and!; lia.
Qed.

(** Reservations are exactly the admissible starts. [reserve_traversal]
    reserves when, and only when, a grant of the right domain and MAC shape
    validates, is bound to this helper and artifact, is inside its window, leaves
    the whole experiment before its deadline and the two existing deliveries
    before both the grant and the job expire, and the run is not cancelled; the
    reservation then fits the grant with no saturation. On every path the only
    effect method called is the cancellation query. *)
Theorem reserve_exactly_admissible input t r :
  ((reserve_traversal input t).1 = Some (Reserved r) <->
   exists capability,
     let d := descriptor capability in
     let finish := now_ms input + experiment_ms (budgets d) in
     grant input = Some capability /\
     grant_structure_ok capability (expected_artifact_digest input) (helper input) = true /\
     issued_at_ms d <= now_ms input < expires_at_ms d /\
     finish <= deadline_ms d /\
     finish + EXISTING_DELIVERY_RESERVE_MS <= Z.min (expires_at_ms d) (job_expires_at_ms input) /\
     effects_cancelled t = false /\
     reservation_fits d r = true /\
     r = {| reserved_experiment_ms := experiment_ms (budgets d);
            reserved_cleanup_reserve_ms := cleanup_reserve_ms (budgets d);
            delivery_reserve_ms := EXISTING_DELIVERY_RESERVE_MS;
            collector_end_ms := finish;
            delivery_end_ms := finish + EXISTING_DELIVERY_RESERVE_MS |})
  /\ ((reserve_traversal input t).2 = t \/
      exists answer, (reserve_traversal input t).2 = EffectCancelled answer :: t).
Proof.
  split.
  - split.
    + intros Hr. destruct (grant input) as [c|] eqn:Hg; [| unfold reserve_traversal in Hr; by rewrite Hg in Hr].
      destruct (grant_structure_ok c (expected_artifact_digest input) (helper input)) eqn:Hs;
        [| destruct (reserve_unstructured input c t Hg Hs) as [e He]; by rewrite He in Hr].
      rewrite (reserve_structured input c t Hg Hs) in Hr.
      destruct (can_start _ _ _ _) as [[]|[]] eqn:Hc; try done.
      destruct (effects_cancelled t) eqn:Hn; [done |]. apply can_start_ok in Hc as (Hd & Hw & Hf & Hl); [| done].
      destruct (reservation_at_exact (descriptor c) (now_ms input) (descriptor_validate_valid _ Hd)) as [Hx Hfit];
        [done | lia |].
      simplify_eq/=. exists c. split_and!; try (done || lia).
    + intros (c & Hg & Hs & Hw & Hf & Hl & Hn & _ & ->).
      pose proof (structure_validates _ _ _ Hs) as Hd.
      assert (Hc : can_start (descriptor c) (now_ms input) (job_expires_at_ms input)
                     EXISTING_DELIVERY_RESERVE_MS = Ok tt) by (apply can_start_ok; done).
      rewrite (reserve_structured input c t Hg Hs), Hc, Hn.
      cbn [fst]. do 2 f_equal. apply reservation_at_exact; [by apply descriptor_validate_valid | lia | lia].
  - destruct (grant input) as [c|] eqn:Hg; [| left; unfold reserve_traversal; by rewrite Hg].
    destruct (grant_structure_ok c (expected_artifact_digest input) (helper input)) eqn:Hs;
      [| left; destruct (reserve_unstructured input c t Hg Hs) as [e He]; by rewrite He].
    rewrite (reserve_structured input c t Hg Hs).
    destruct (can_start _ _ _ _) as [[]|[]]; (by left) || (right; by eexists).
Qed.

End Admission.

(** Each end of a validated pair grant holds the claim of its own slot. *)
Lemma pair_half_holds d p r :
  descriptor_validate d = Ok tt -> mode d = ModePair -> pair d = Some p -> participant_role d = Some r ->
  participant_claim_authority_digest
    (match r with First => (participants p).1 | Second => (participants p).2 end) = claim_authority_digest d
  /\ participant_claim_authority_digest (participants p).1 <> participant_claim_authority_digest (participants p).2
  /\ launch_instance_digest (participants p).1 <> launch_instance_digest (participants p).2
  /\ pair_expires_at_ms p = expires_at_ms d.
Proof.
  intros Hd Hm Hp Hr. pose proof (gv_pair _ (descriptor_validate_valid _ Hd)) as Hg.
  unfold validate_pair in Hg. rewrite Hm, Hp, Hr in Hg. apply check_ok in Hg as [Hg _].
  unfold pair_valid, own_participant in Hg. destruct (participants p) as [a b]; cbn [fst snd] in *.
  reflect_bool. repeat match goal with H : bool_decide _ = true |- _ => apply bool_decide_eq_true in H end.
  match goal with H : is_none_or (if _ then _ else _) _ = false |- _ => rename H into Hown end.
  destruct a as [[] ? ? ?], b as [[] ? ? ?], r; cbn in *; try done;
    repeat first [rewrite bool_decide_eq_true_2 in Hown by done | rewrite bool_decide_eq_false_2 in Hown by done];
    cbn [is_none_or participant_claim_authority_digest] in Hown; reflect_bool; by split_and!.
Qed.

Lemma validate_traversal_pair_ok first second :
  validate_traversal_pair first second = Ok tt <->
  descriptor_validate first = Ok tt /\ descriptor_validate second = Ok tt /\
  mode first = ModePair /\ participant_role first = Some First /\ participant_role second = Some Second /\
  with_half first (Some Second) (claim_authority_digest second) = second.
Proof.
  unfold validate_traversal_pair. rewrite !let_ok_unit. do 2 apply and_iff_compat_l.
  destruct (decide (mode first = ModePair)) as [Hm|]; [| rewrite bool_decide_eq_false_2 by done; naive_solver].
  destruct (decide (participant_role first = Some First)) as [Hf|];
    [| rewrite (bool_decide_eq_false_2 (participant_role _ = _)), orb_true_r by done; naive_solver].
  destruct (decide (participant_role second = Some Second)) as [Hs|];
    [| rewrite (bool_decide_eq_false_2 (participant_role second = _)), orb_true_r by done; naive_solver].
  rewrite !bool_decide_eq_true_2, Hs by done. cbn [negb orb].
  case_bool_decide; naive_solver.
Qed.

(** The two ends of an accepted pair hold different claims of one shared pair. *)
Lemma validate_pair_claims first second :
  validate_traversal_pair first second = Ok tt ->
  exists p,
    pair first = Some p /\ pair second = Some p /\
    participant_claim_authority_digest (participants p).1 = claim_authority_digest first /\
    participant_claim_authority_digest (participants p).2 = claim_authority_digest second /\
    claim_authority_digest first <> claim_authority_digest second /\
    launch_instance_digest (participants p).1 <> launch_instance_digest (participants p).2 /\
    pair_expires_at_ms p = expires_at_ms first.
Proof.
  rewrite validate_traversal_pair_ok. intros (H1 & H2 & Hm & Hf & Hs & Hc).
  destruct (pair first) as [p|] eqn:Hp;
    [| pose proof (gv_pair _ (descriptor_validate_valid _ H1)) as Hg; unfold validate_pair in Hg;
       by rewrite Hm, Hp in Hg].
  assert (Hp2 : pair second = Some p) by (by rewrite <- Hc).
  assert (Hm2 : mode second = ModePair) by (by rewrite <- Hc).
  apply pair_half_holds with (p := p) (r := First) in H1 as (? & ? & ? & ?); [| done ..].
  apply pair_half_holds with (p := p) (r := Second) in H2 as (? & ? & ? & ?); [| done ..].
  exists p. split_and!; try done; congruence.
Qed.

(** The two halves of a pair are the two ends of one experiment. When
    [validate_traversal_pair] accepts, both grants validate, the first is the
    first end and the second the second end of a pair grant, and they agree in
    every field but role and claim; each half holds the claim its slot of the
    shared pair names, and the two claims and launch instances differ. *)
Theorem pair_halves_agree first second :
  validate_traversal_pair first second = Ok tt ->
  descriptor_validate first = Ok tt /\ descriptor_validate second = Ok tt /\
  second = with_half first (Some Second) (claim_authority_digest second) /\
  exists p,
    pair first = Some p /\ pair second = Some p /\
    participant_claim_authority_digest (participants p).1 = claim_authority_digest first /\
    participant_claim_authority_digest (participants p).2 = claim_authority_digest second /\
    claim_authority_digest first <> claim_authority_digest second /\
    launch_instance_digest (participants p).1 <> launch_instance_digest (participants p).2 /\
    pair_expires_at_ms p = expires_at_ms first.
Proof.
  intros Hp. pose proof (validate_pair_claims _ _ Hp) as Hc.
  apply validate_traversal_pair_ok in Hp as (? & ? & _ & _ & _ & ?). by split_and!.
Qed.

End GrantFacts.

(** ** Example grants *)

Definition sample_digest (a : ascii) : string := "sha256:" +:+ repeat_byte 64 a.
Definition sample_budgets (leases : Z) : TraversalBudgets :=
  {| experiment_ms := 30000; cleanup_reserve_ms := 5000; outbound_datagrams := 16; datagram_bytes := 256;
     control_requests := 8; external_dialbacks := 0; relay_bytes_per_direction := 0;
     concurrent_mapping_leases := leases; cleanup_datagrams := leases; cleanup_control_requests := leases |}.
Definition sample_consent : TraversalMappingConsent :=
  {| consent_reference := "consent-1"; processor_allowlist_digest := sample_digest "a";
     exclusive_reservation_digest := sample_digest "b"; prior_uncertainty_resolved := true;
     finite_expiry_verified := true; consent_expires_at_ms := 200000; protocols := [RouterPcp];
     requested_lease_sec := 60; maximum_lease_sec := 120 |}.
Definition sample_mapping_grant : TraversalDescriptorV1 :=
  {| version := 1; run_id := repeat_byte 32 "c"; mode := ModeMapping;
     claim_authority_digest := sample_digest "d"; profile_version := "p1"; catalog_version := "c1";
     artifact_digest := sample_digest "e"; helper_version := "h1"; helper_digest := sample_digest "f";
     endpoint_set_revision := "r1"; issued_at_ms := 1000; expires_at_ms := 121000; deadline_ms := 61000;
     operations := [DiscoverGateway; MapPcp]; budgets := sample_budgets 1; mapping := Some sample_consent;
     pair := None; participant_role := None |}.

Definition sample_participant (r : TraversalParticipantRole) (a : ascii) : TraversalParticipant :=
  {| role := r; launch_instance_digest := sample_digest a; participant_claim_authority_digest := sample_digest a;
     runtime_signer := "0x" +:+ repeat_byte 64 a |}.
Definition sample_pair_grant : TraversalDescriptorV1 :=
  {| version := 1; run_id := repeat_byte 32 "c"; mode := ModePair;
     claim_authority_digest := sample_digest "1"; profile_version := "p1"; catalog_version := "c1";
     artifact_digest := sample_digest "e"; helper_version := "h1"; helper_digest := sample_digest "f";
     endpoint_set_revision := "r1"; issued_at_ms := 1000; expires_at_ms := 121000; deadline_ms := 61000;
     operations := [RegisterEndpoint; PairDirectUdp]; budgets := sample_budgets 0; mapping := None;
     pair := Some {| pair_id := repeat_byte 32 "9"; pair_expires_at_ms := 121000;
                     participants := (sample_participant First "1", sample_participant Second "2") |};
     participant_role := Some First |}.

Lemma mutation_requires_consent_witness :
  let H := sample_text in
  exists consent, mapping_consented sample_mapping_grant consent /\ RouterPcp ∈ protocols consent.
Proof.
  intros H.
  destruct (proj1 (mutation_requires_consent (H := H) sample_mapping_grant ltac:(vm_compute; reflexivity))
              RouterPcp ltac:(cbn; set_solver)) as (consent & Hc & Hp & _).
  by exists consent.
Defined.

Lemma pair_halves_agree_witness :
  let H := sample_text in
  exists p, pair sample_pair_grant = Some p
    /\ claim_authority_digest sample_pair_grant = participant_claim_authority_digest (participants p).1.
Proof.
  intros H.
  destruct (pair_halves_agree (H := H) sample_pair_grant
              (with_half sample_pair_grant (Some Second) (sample_digest "2")) ltac:(vm_compute; reflexivity))
    as (_ & _ & _ & p & Hp & _ & Hc & _).
  by exists p.
Defined.
