(* ===== verification/Evidence.v ===== *)
(** * Traversal evidence

    The capability and receipt codecs of [network_traversal/auth.rs], the signed
    transcripts of [proof.rs] and the result block of [result.rs].

    The derived deserialiser, HMAC-SHA256 ([ring::hmac]) and hex decoding are the
    interfaces of their crates. *)
From Stdlib Require Import Ascii.
From stdpp Require Import prelude strings.
From S2P Require Import Prelude Json Bridge World RestartPolicy Traversal.

Local Open Scope Z_scope.

(** ** Crates *)

Class Hmac := {
  hmac_sign : string -> string -> string;
  hmac_verify : string -> string -> string -> bool
}.
Class HexDecode := hex_decode : string -> option string.

Definition CAPABILITY_MAC_DOMAIN : string := "proof.liskov.network-traversal-capability.v1" +:+ nul.
Definition BEHAVIOUR_RECEIPT_MAC_DOMAIN : string :=
  "proof.liskov.network-traversal-behaviour-receipt.v1" +:+ nul.
Definition PATH_RECEIPT_MAC_DOMAIN : string :=
  "proof.liskov.network-traversal-external-receipt.v1" +:+ nul.
Definition REGISTRATION_RECEIPT_MAC_DOMAIN : string :=
  "proof.liskov.network-traversal-registration-receipt.v1" +:+ nul.

Definition TRAVERSAL_EXTERNAL_PATH_DOMAIN : string := "proof.liskov.network-traversal-external-path.v1".
Definition TRAVERSAL_ROUTER_RESPONSE_DOMAIN : string := "proof.liskov.network-traversal-device-router.v1".
Definition TRAVERSAL_DIRECT_PEER_DOMAIN : string := "proof.liskov.network-traversal-helper-direct.v1".
Definition TRAVERSAL_RELAY_PEER_DOMAIN : string := "proof.liskov.network-traversal-helper-relay.v1".
Definition TRAVERSAL_BEHAVIOUR_DOMAIN : string := "proof.liskov.network-traversal-observed-behaviour.v1".
Definition TRAVERSAL_REGISTRATION_DOMAIN : string :=
  "proof.liskov.network-traversal-endpoint-registration.v1".

(** ** Vocabulary *)

Inductive TraversalEvidenceAuthority :=
| ExternalPath | DeviceReportedRouter | HelperObservedPeer | ProberObservedRegistration
| ProberObservedBehaviour.

Inductive TraversalStage :=
| Discovery | Baseline | MappingCreate | MappingVerify | MappingCleanup | EndpointRegistration | Direct
| StageRelayControl | MappingBehaviour | FilteringBehaviour.

Inductive TraversalMethod :=
| Unassisted | UdpMapping | UdpFiltering | MethodPcp | MethodNatPmp | MethodUpnpIgd | MethodPair.

Inductive TraversalTransport := Tcp | Udp | RouterControl | TransportRelayControl.
Inductive TraversalFamily := V4 | V6.

Inductive TraversalOutcome :=
| Succeeded | Failed | UnsupportedTopology | UnsupportedRuntimeApi | UnsupportedSafeOwnership
| UnsupportedFiniteLease | UnverifiableEndpoint | OutcomeSkippedBudget | NotStarted
| DirectNotEstablishedInTest | OneWayPeer | PeerAbsent | WrongPeer | LateJoin | CandidateRebinding
| OutcomeBudgetExhausted | ProberNoEgress | OutcomeCreationUnknown | OutcomeExpiryUnknown
| EndpointIndependent | AddressDependent | AddressAndPortDependent | OutcomeUnknown.

Inductive TraversalErrorClass :=
| ErrorTimeout | ConnectFailed | InvalidResponse | RateLimited | TokenRefused | ErrorBudgetExhausted
| MappingConflict | LeaseRefused | CleanupFailed | ProberUnavailable | PeerUnavailable.

Inductive TraversalCleanup :=
| ConfirmedDeleted | DeleteFailed | LeaseExpiryPending | NotCreated | CleanupCreationUnknown
| CleanupExpiryUnknown.

#[global] Instance authority_eq_dec : EqDecision TraversalEvidenceAuthority.
Proof. solve_decision. Defined.
#[global] Instance stage_eq_dec : EqDecision TraversalStage.
Proof. solve_decision. Defined.
#[global] Instance method_eq_dec : EqDecision TraversalMethod.
Proof. solve_decision. Defined.
#[global] Instance transport_eq_dec : EqDecision TraversalTransport.
Proof. solve_decision. Defined.
#[global] Instance family_eq_dec : EqDecision TraversalFamily.
Proof. solve_decision. Defined.
#[global] Instance outcome_eq_dec : EqDecision TraversalOutcome.
Proof. solve_decision. Defined.
#[global] Instance error_class_eq_dec : EqDecision TraversalErrorClass.
Proof. solve_decision. Defined.
#[global] Instance cleanup_eq_dec : EqDecision TraversalCleanup.
Proof. solve_decision. Defined.

(** [matches!(x, A | B | ...)]. *)
Definition one_of {A} `{EqDecision A} (x : A) (l : list A) : bool := bool_decide (x ∈ l).
Definition same {A} `{EqDecision A} (x y : A) : bool := bool_decide (x = y).

Definition authority_str (a : TraversalEvidenceAuthority) : string :=
  match a with
  | ExternalPath => "external_path" | DeviceReportedRouter => "device_reported_router"
  | HelperObservedPeer => "helper_observed_peer"
  | ProberObservedRegistration => "prober_observed_registration"
  | ProberObservedBehaviour => "prober_observed_behaviour"
  end.
Definition stage_str (s : TraversalStage) : string :=
  match s with
  | Discovery => "discovery" | Baseline => "baseline" | MappingCreate => "mapping_create"
  | MappingVerify => "mapping_verify" | MappingCleanup => "mapping_cleanup"
  | EndpointRegistration => "endpoint_registration" | Direct => "direct"
  | StageRelayControl => "relay_control" | MappingBehaviour => "mapping_behaviour"
  | FilteringBehaviour => "filtering_behaviour"
  end.
Definition method_str (m : TraversalMethod) : string :=
  match m with
  | Unassisted => "unassisted" | UdpMapping => "udp_mapping" | UdpFiltering => "udp_filtering"
  | MethodPcp => "pcp" | MethodNatPmp => "nat_pmp" | MethodUpnpIgd => "upnp_igd" | MethodPair => "pair"
  end.
Definition transport_str (t : TraversalTransport) : string :=
  match t with
  | Tcp => "tcp" | Udp => "udp" | RouterControl => "router_control"
  | TransportRelayControl => "relay_control"
  end.
Definition family_str (f : TraversalFamily) : string := match f with V4 => "v4" | V6 => "v6" end.
Definition outcome_str (o : TraversalOutcome) : string :=
  match o with
  | Succeeded => "succeeded" | Failed => "failed" | UnsupportedTopology => "unsupported_topology"
  | UnsupportedRuntimeApi => "unsupported_runtime_api"
  | UnsupportedSafeOwnership => "unsupported_safe_ownership"
  | UnsupportedFiniteLease => "unsupported_finite_lease"
  | UnverifiableEndpoint => "unverifiable_endpoint" | OutcomeSkippedBudget => "skipped_budget"
  | NotStarted => "not_started" | DirectNotEstablishedInTest => "direct_not_established_in_test"
  | OneWayPeer => "one_way_peer" | PeerAbsent => "peer_absent" | WrongPeer => "wrong_peer"
  | LateJoin => "late_join" | CandidateRebinding => "candidate_rebinding"
  | OutcomeBudgetExhausted => "budget_exhausted" | ProberNoEgress => "prober_no_egress"
  | OutcomeCreationUnknown => "creation_outcome_unknown" | OutcomeExpiryUnknown => "expiry_unknown"
  | EndpointIndependent => "endpoint_independent" | AddressDependent => "address_dependent"
  | AddressAndPortDependent => "address_and_port_dependent" | OutcomeUnknown => "unknown"
  end.
Definition error_class_str (e : TraversalErrorClass) : string :=
  match e with
  | ErrorTimeout => "timeout" | ConnectFailed => "connect_failed" | InvalidResponse => "invalid_response"
  | RateLimited => "rate_limited" | TokenRefused => "token_refused"
  | ErrorBudgetExhausted => "budget_exhausted" | MappingConflict => "mapping_conflict"
  | LeaseRefused => "lease_refused" | CleanupFailed => "cleanup_failed"
  | ProberUnavailable => "prober_unavailable" | PeerUnavailable => "peer_unavailable"
  end.
Definition cleanup_str (c : TraversalCleanup) : string :=
  match c with
  | ConfirmedDeleted => "confirmed_deleted" | DeleteFailed => "delete_failed"
  | LeaseExpiryPending => "lease_expiry_pending" | NotCreated => "not_created"
  | CleanupCreationUnknown => "creation_outcome_unknown" | CleanupExpiryUnknown => "expiry_unknown"
  end.

(** ** Transcripts *)

Record TraversalTranscriptV1 := {
  tr_version : Z;
  tr_domain : string;
  tr_descriptor_digest : string;
  tr_run_id : string;
  tr_pair_id : option string;
  tr_participant_role : option TraversalParticipantRole;
  tr_authority : TraversalEvidenceAuthority;
  tr_stage : TraversalStage;
  tr_method : TraversalMethod;
  tr_transport : TraversalTransport;
  tr_family : TraversalFamily;
  tr_challenge : string;
  tr_peer_challenge : option string;
  tr_expires_at_ms : Z;
  tr_outcome : TraversalOutcome;
  tr_elapsed_ms : Z;
  tr_granted_lease_sec : option Z;
  tr_cleanup : option TraversalCleanup;
  tr_protocol_error : option Z;
  tr_error_class : option TraversalErrorClass
}.

Definition transcript_fields (t : TraversalTranscriptV1) : list (string * Value) :=
  [("version", jint (tr_version t)); ("domain", Str (tr_domain t));
   ("descriptorDigest", Str (tr_descriptor_digest t)); ("runId", Str (tr_run_id t));
   ("pairId", opt_value Str (tr_pair_id t));
   ("participantRole", opt_value (fun r => Str (role_str r)) (tr_participant_role t));
   ("authority", Str (authority_str (tr_authority t))); ("stage", Str (stage_str (tr_stage t)));
   ("method", Str (method_str (tr_method t))); ("transport", Str (transport_str (tr_transport t)));
   ("family", Str (family_str (tr_family t))); ("challenge", Str (tr_challenge t));
   ("peerChallenge", opt_value Str (tr_peer_challenge t)); ("expiresAtMs", jint (tr_expires_at_ms t));
   ("outcome", Str (outcome_str (tr_outcome t))); ("elapsedMs", jint (tr_elapsed_ms t));
   ("grantedLeaseSec", jopt_int (tr_granted_lease_sec t));
   ("cleanup", opt_value (fun c => Str (cleanup_str c)) (tr_cleanup t));
   ("protocolError", jopt_int (tr_protocol_error t));
   ("errorClass", opt_value (fun e => Str (error_class_str e)) (tr_error_class t))].

Definition router_methods : list TraversalMethod := [MethodPcp; MethodNatPmp; MethodUpnpIgd].

Definition proof_domain (authority : TraversalEvidenceAuthority) (stage : TraversalStage)
    (method : TraversalMethod) (transport : TraversalTransport) : result string TraversalRefusal :=
  match authority with
  | ExternalPath =>
      if one_of stage [Baseline; MappingVerify] && one_of transport [Tcp; Udp]
         && ((same stage Baseline && same method Unassisted)
             || (same stage MappingVerify && one_of method router_methods))
      then Ok TRAVERSAL_EXTERNAL_PATH_DOMAIN else Err InvalidProof
  | DeviceReportedRouter =>
      if one_of stage [Discovery; MappingCreate; MappingCleanup] && same transport RouterControl
         && one_of method router_methods
      then Ok TRAVERSAL_ROUTER_RESPONSE_DOMAIN else Err InvalidProof
  | HelperObservedPeer =>
      if same stage Direct && same transport Udp && same method MethodPair
      then Ok TRAVERSAL_DIRECT_PEER_DOMAIN
      else if same stage StageRelayControl && same transport TransportRelayControl && same method MethodPair
      then Ok TRAVERSAL_RELAY_PEER_DOMAIN
      else Err InvalidProof
  | ProberObservedRegistration =>
      if same stage EndpointRegistration && same transport Udp && same method MethodPair
      then Ok TRAVERSAL_REGISTRATION_DOMAIN else Err InvalidProof
  | ProberObservedBehaviour =>
      if same transport Udp
         && ((same stage MappingBehaviour && same method UdpMapping)
             || (same stage FilteringBehaviour && same method UdpFiltering))
      then Ok TRAVERSAL_BEHAVIOUR_DOMAIN else Err InvalidProof
  end.

Definition cleanup_outcome (c : TraversalCleanup) : TraversalOutcome :=
  match c with
  | ConfirmedDeleted => Succeeded | DeleteFailed => Failed | LeaseExpiryPending => OutcomeUnknown
  | NotCreated => NotStarted | CleanupCreationUnknown => OutcomeCreationUnknown
  | CleanupExpiryUnknown => OutcomeExpiryUnknown
  end.

Definition phase_operation (stage : TraversalStage) (method : TraversalMethod)
    (transport : TraversalTransport) : result TraversalOperation TraversalRefusal :=
  match stage, method, transport with
  | MappingBehaviour, _, _ => Ok ObserveMapping
  | FilteringBehaviour, _, _ => Ok ObserveFiltering
  | Discovery, _, _ => Ok DiscoverGateway
  | Baseline, _, Tcp => Ok BaselineTcp
  | Baseline, _, Udp => Ok BaselineUdp
  | EndpointRegistration, _, _ => Ok RegisterEndpoint
  | Direct, _, _ => Ok PairDirectUdp
  | StageRelayControl, _, _ => Ok PairRelayControl
  | _, MethodPcp, _ => Ok MapPcp
  | _, MethodNatPmp, _ => Ok MapNatPmp
  | _, MethodUpnpIgd, _ => Ok MapUpnp
  | _, _, _ => Err InvalidProof
  end.

Record TraversalReceiptV1 := {
  rc_version : Z;
  rc_transcript : TraversalTranscriptV1;
  rc_device_signature : string;
  rc_mac : string
}.

Definition receipt_fields (r : TraversalReceiptV1) : list (string * Value) :=
  [("version", jint (rc_version r)); ("transcript", Obj (transcript_fields (rc_transcript r)));
   ("deviceSignature", Str (rc_device_signature r)); ("mac", Str (rc_mac r))].

Definition with_mac (r : TraversalReceiptV1) (m : string) : TraversalReceiptV1 :=
  {| rc_version := rc_version r; rc_transcript := rc_transcript r;
     rc_device_signature := rc_device_signature r; rc_mac := m |}.

Definition capability_fields (c : TraversalCapabilityV1) : list (string * Value) :=
  [("domain", Str (domain c)); ("descriptor", Obj (descriptor_fields (descriptor c))); ("mac", Str (mac c))].

(** ["0x"] and this many lower-case hex bytes. *)
Definition prefixed_hex (s : string) (n : Z) : bool :=
  negb (is_none_or (strip_prefix "0x" s) (fun s => negb (lower_hex s n))).

Section Transcripts.
Context `{!JsonText, !Sha256, !Encodings}.

Definition transcript_validate (t : TraversalTranscriptV1) : result unit TraversalRefusal :=
  let stage := tr_stage t in
  let outcome := tr_outcome t in
  let peer_stage := one_of stage [Direct; StageRelayControl] in
  check tr_version t =? 1 else UnknownVersion;
  check negb (negb (digest (tr_descriptor_digest t)) || negb (lower_hex (tr_run_id t) 16)
              || negb (lower_hex (tr_challenge t) 32) || (SAFE_INTEGER <? tr_expires_at_ms t)
              || (TRAVERSAL_EXPERIMENT_MAX_MS <? tr_elapsed_ms t))
    else InvalidBinding;
  let? dom := proof_domain (tr_authority t) stage (tr_method t) (tr_transport t) in
  check tr_domain t =s dom else WrongDomain;
  check negb (one_of outcome [EndpointIndependent; AddressDependent; AddressAndPortDependent]
              && negb (one_of stage [MappingBehaviour; FilteringBehaviour]))
    else InvalidProof;
  check negb ((same outcome OutcomeCreationUnknown && negb (one_of stage [MappingCreate; MappingCleanup]))
              || (same outcome OutcomeExpiryUnknown && negb (same stage MappingCleanup))
              || (one_of outcome [DirectNotEstablishedInTest; OneWayPeer; PeerAbsent; WrongPeer; LateJoin;
                                  CandidateRebinding] && negb peer_stage))
    else InvalidProof;
  check negb ((same stage MappingCreate && same outcome Succeeded && opt_is_none (tr_granted_lease_sec t))
              || (negb (same stage MappingCleanup) && opt_is_some (tr_cleanup t))
              || (negb (one_of stage [MappingCreate; MappingCleanup])
                  && opt_is_some (tr_granted_lease_sec t)))
    else InvalidProof;
  check (if same (tr_method t) MethodPair
         then negb (is_none_or (tr_pair_id t) (fun s => negb (lower_hex s 16))
                    || opt_is_none (tr_participant_role t))
         else negb (opt_is_some (tr_pair_id t) || opt_is_some (tr_participant_role t)))
    else InvalidPair;
  check negb (negb (same (tr_authority t) DeviceReportedRouter)
              && (opt_is_some (tr_granted_lease_sec t) || opt_is_some (tr_cleanup t)
                  || opt_is_some (tr_protocol_error t)))
    else InvalidProof;
  check negb (is_some_and (tr_granted_lease_sec t) (fun s => (s =? 0) || (120 <? s))
              && negb (same outcome UnsupportedFiniteLease))
    else InvalidProof;
  check negb ((same outcome Succeeded && opt_is_some (tr_error_class t))
              || (same outcome Failed && opt_is_none (tr_error_class t)))
    else InvalidProof;
  check negb (same stage MappingCreate && same outcome OutcomeCreationUnknown
              && opt_is_some (tr_granted_lease_sec t))
    else InvalidProof;
  check negb (is_some_and (tr_peer_challenge t) (fun s => negb (lower_hex s 32))
              || (opt_is_some (tr_peer_challenge t) && negb peer_stage)
              || (peer_stage && same outcome Succeeded && opt_is_none (tr_peer_challenge t)))
    else InvalidProof;
  check match tr_cleanup t with Some c => same outcome (cleanup_outcome c) | None => true end
    else InvalidProof;
  check negb (same stage MappingCleanup && opt_is_none (tr_cleanup t)) else InvalidProof;
  bounded (transcript_fields t) TRAVERSAL_BLOCK_MAX_BYTES.

Definition signing_message (t : TraversalTranscriptV1) : result string TraversalRefusal :=
  let? _ := transcript_validate t in
  Ok (canonical (transcript_fields t)).

Definition transcript_validate_scope (t : TraversalTranscriptV1) (d : TraversalDescriptorV1)
    (now_ms : Z) : result unit TraversalRefusal :=
  let? _ := transcript_validate t in
  let? _ := validate_at d now_ms in
  let? bound := binding_digest d in
  if negb (tr_descriptor_digest t =s bound)
     || negb (tr_run_id t =s run_id d)
     || negb (tr_expires_at_ms t =? expires_at_ms d)
     || negb (same (tr_participant_role t) (participant_role d))
     || negb (same (tr_pair_id t) (pair_id <$> pair d))
  then Err InvalidBinding
  else
    let? operation := phase_operation (tr_stage t) (tr_method t) (tr_transport t) in
    check negb (is_some_and (tr_granted_lease_sec t)
                  (fun lease => is_some_and (mapping d) (fun c => maximum_lease_sec c <? lease))
                && negb (same (tr_outcome t) UnsupportedFiniteLease))
      else InvalidConsent;
    check negb (negb (ops_contain (operations d) operation)
                || (experiment_ms (budgets d) <? tr_elapsed_ms t))
      else InvalidScope;
    Ok tt.

Definition validate_pair_transcripts (first_descriptor second_descriptor : TraversalDescriptorV1)
    (first second : TraversalTranscriptV1) (now_ms : Z) : result unit TraversalRefusal :=
  let? _ := validate_traversal_pair first_descriptor second_descriptor in
  let? _ := transcript_validate_scope first first_descriptor now_ms in
  let? _ := transcript_validate_scope second second_descriptor now_ms in
  if negb (same (tr_authority first) HelperObservedPeer)
     || negb (same (tr_authority second) HelperObservedPeer)
     || negb (same (tr_stage first) (tr_stage second))
     || negb (same (tr_transport first) (tr_transport second))
     || negb (same (tr_family first) (tr_family second))
     || negb (same (tr_outcome first) Succeeded)
     || negb (same (tr_outcome second) Succeeded)
     || negb (same (tr_peer_challenge first) (Some (tr_challenge second)))
     || negb (same (tr_peer_challenge second) (Some (tr_challenge first)))
  then Err InvalidProof else Ok tt.

End Transcripts.

(** ** Codecs *)

Section Codecs.
Context `{!JsonText, !Sha256, !Encodings, !Hmac, !HexDecode, !Deserialize TraversalCapabilityV1}.

Definition mac_tag (key dom message : string) : string := hmac_sign key (dom +:+ message).

Definition verify_mac (key dom message signature : string) : result unit TraversalRefusal :=
  check lower_hex signature 32 else InvalidMac;
  let? tag := ok_or InvalidMac (hex_decode signature) in
  check hmac_verify key (dom +:+ message) tag else InvalidMac;
  Ok tt.

Definition encode_traversal_capability (key : string) (d : TraversalDescriptorV1)
  : result string TraversalRefusal :=
  let? bytes := canonical_bytes d in
  let capability := {| domain := TRAVERSAL_CAPABILITY_DOMAIN; descriptor := d;
                       mac := hex_encode (mac_tag key CAPABILITY_MAC_DOMAIN bytes) |} in
  let? _ := bounded (capability_fields capability) TRAVERSAL_BLOCK_MAX_BYTES in
  Ok (canonical (capability_fields capability)).

Definition decode_traversal_capability (key bytes : string) (now_ms : Z)
  : result TraversalDescriptorV1 TraversalRefusal :=
  if TRAVERSAL_BLOCK_MAX_BYTES <? len bytes then Err Oversize
  else
    let? capability := ok_or RefusalMalformed (from_slice bytes : option TraversalCapabilityV1) in
    if negb (domain capability =s TRAVERSAL_CAPABILITY_DOMAIN) then Err WrongDomain
    else
      let? _ := validate_at (descriptor capability) now_ms in
      if negb (canonical (capability_fields capability) =s bytes) then Err NonCanonical
      else
        let? message := canonical_bytes (descriptor capability) in
        let? _ := verify_mac key CAPABILITY_MAC_DOMAIN message (mac capability) in
        Ok (descriptor capability).

Definition receipt_domain (r : TraversalReceiptV1) : result string TraversalRefusal :=
  check rc_version r =? 1 else UnknownVersion;
  let? _ := transcript_validate (rc_transcript r) in
  check prefixed_hex (rc_device_signature r) 64 else InvalidProof;
  match tr_authority (rc_transcript r) with
  | ExternalPath => Ok PATH_RECEIPT_MAC_DOMAIN
  | ProberObservedBehaviour => Ok BEHAVIOUR_RECEIPT_MAC_DOMAIN
  | ProberObservedRegistration => Ok REGISTRATION_RECEIPT_MAC_DOMAIN
  | _ => Err InvalidProof
  end.

Definition traversal_receipt_message (r : TraversalReceiptV1) : result string TraversalRefusal :=
  let? _ := receipt_domain r in
  Ok (canonical (receipt_fields (with_mac r EmptyString))).

(** The receipt is updated in place, also when the size check then fails. *)
Definition sign_traversal_receipt (key : string) (r : TraversalReceiptV1)
  : TraversalReceiptV1 * result unit TraversalRefusal :=
  match receipt_domain r with
  | Err e => (r, Err e)
  | Ok dom =>
      match traversal_receipt_message r with
      | Err e => (r, Err e)
      | Ok message =>
          let signed := with_mac r (hex_encode (mac_tag key dom message)) in
          (signed, bounded (receipt_fields signed) TRAVERSAL_BLOCK_MAX_BYTES)
      end
  end.

Definition verify_traversal_receipt (key : string) (r : TraversalReceiptV1) (d : TraversalDescriptorV1)
    (now_ms : Z) : result unit TraversalRefusal :=
  let? _ := bounded (receipt_fields r) TRAVERSAL_BLOCK_MAX_BYTES in
  let? _ := transcript_validate_scope (rc_transcript r) d now_ms in
  let? dom := receipt_domain r in
  let? message := traversal_receipt_message r in
  verify_mac key dom message (rc_mac r).

End Codecs.

(** ** The result block *)

Record TraversalPhaseV1 := {
  ph_stage : TraversalStage;
  ph_method : TraversalMethod;
  ph_transport : TraversalTransport;
  ph_family : TraversalFamily;
  ph_authority : TraversalEvidenceAuthority;
  ph_outcome : TraversalOutcome;
  ph_elapsed_ms : Z;
  ph_granted_lease_sec : option Z;
  ph_cleanup : option TraversalCleanup;
  ph_protocol_error : option Z;
  ph_error_class : option TraversalErrorClass;
  ph_proof_digest : option string
}.

Inductive TraversalProofV1 :=
| ProberReceipt (receipt : TraversalReceiptV1)
| DeviceSignature (transcript : TraversalTranscriptV1) (signature : string).

Record NetworkTraversalV1 := {
  nt_version : Z;
  nt_descriptor_digest : string;
  nt_run_id : string;
  nt_mode : TraversalMode;
  nt_started_at_ms : Z;
  nt_duration_ms : Z;
  nt_phases : list TraversalPhaseV1;
  nt_proofs : list TraversalProofV1
}.

Definition phase_fields (p : TraversalPhaseV1) : list (string * Value) :=
  [("stage", Str (stage_str (ph_stage p))); ("method", Str (method_str (ph_method p)));
   ("transport", Str (transport_str (ph_transport p))); ("family", Str (family_str (ph_family p)));
   ("authority", Str (authority_str (ph_authority p))); ("outcome", Str (outcome_str (ph_outcome p)));
   ("elapsedMs", jint (ph_elapsed_ms p)); ("grantedLeaseSec", jopt_int (ph_granted_lease_sec p));
   ("cleanup", opt_value (fun c => Str (cleanup_str c)) (ph_cleanup p));
   ("protocolError", jopt_int (ph_protocol_error p));
   ("errorClass", opt_value (fun e => Str (error_class_str e)) (ph_error_class p));
   ("proofDigest", opt_value Str (ph_proof_digest p))].

Definition proof_fields (p : TraversalProofV1) : list (string * Value) :=
  match p with
  | ProberReceipt r => [("kind", Str "prober_receipt"); ("receipt", Obj (receipt_fields r))]
  | DeviceSignature t s =>
      [("kind", Str "device_signature"); ("transcript", Obj (transcript_fields t)); ("signature", Str s)]
  end.

Definition result_fields (n : NetworkTraversalV1) : list (string * Value) :=
  [("version", jint (nt_version n)); ("descriptorDigest", Str (nt_descriptor_digest n));
   ("runId", Str (nt_run_id n)); ("mode", Str (mode_str (nt_mode n)));
   ("startedAtMs", jint (nt_started_at_ms n)); ("durationMs", jint (nt_duration_ms n));
   ("phases", Arr (map (fun p => Obj (phase_fields p)) (nt_phases n)));
   ("proofs", Arr (map (fun p => Obj (proof_fields p)) (nt_proofs n)))].

Definition proof_transcript (p : TraversalProofV1) : TraversalTranscriptV1 :=
  match p with ProberReceipt r => rc_transcript r | DeviceSignature t _ => t end.

Definition phase_matches (p : TraversalPhaseV1) (t : TraversalTranscriptV1) : bool :=
  same (ph_stage p) (tr_stage t) && same (ph_method p) (tr_method t)
  && same (ph_transport p) (tr_transport t) && same (ph_family p) (tr_family t)
  && same (ph_authority p) (tr_authority t) && same (ph_outcome p) (tr_outcome t)
  && (ph_elapsed_ms p =? tr_elapsed_ms t)
  && same (ph_granted_lease_sec p) (tr_granted_lease_sec t) && same (ph_cleanup p) (tr_cleanup t)
  && same (ph_protocol_error p) (tr_protocol_error t) && same (ph_error_class p) (tr_error_class t).

(** Outcomes a phase may report without a proof. *)
Definition unattempted : list TraversalOutcome :=
  [UnsupportedTopology; UnsupportedRuntimeApi; UnsupportedSafeOwnership; OutcomeSkippedBudget; NotStarted].

Definition stage_in_mode (m : TraversalMode) (stage : TraversalStage) : bool :=
  match m with
  | Observe => negb (one_of stage [MappingCreate; MappingVerify; MappingCleanup; Direct; StageRelayControl;
                                   EndpointRegistration])
  | ModeMapping => negb (one_of stage [Direct; StageRelayControl; EndpointRegistration])
  | ModePair => one_of stage [EndpointRegistration; Direct; StageRelayControl]
  end.

Section Results.
Context `{!JsonText, !Sha256, !Encodings}.

Definition proof_binding_digest (p : TraversalProofV1) : string :=
  traversal_sha256 (canonical (proof_fields p)).

Definition proof_validate (p : TraversalProofV1) : result unit TraversalRefusal :=
  let? _ := transcript_validate (proof_transcript p) in
  match p with
  | ProberReceipt r =>
      let? _ := traversal_receipt_message r in
      check lower_hex (rc_mac r) 32 else InvalidMac;
      Ok tt
  | DeviceSignature t s =>
      check one_of (tr_authority t) [DeviceReportedRouter; HelperObservedPeer] && prefixed_hex s 64
        else InvalidProof;
      Ok tt
  end.

Fixpoint validate_proofs (n : NetworkTraversalV1) (proofs : list TraversalProofV1)
  : result unit TraversalRefusal :=
  match proofs with
  | [] => Ok tt
  | p :: rest =>
      let? _ := proof_validate p in
      check (tr_descriptor_digest (proof_transcript p) =s nt_descriptor_digest n)
            && (tr_run_id (proof_transcript p) =s nt_run_id n)
        else InvalidBinding;
      validate_proofs n rest
  end.

(** One phase, with the set of proof digests already referenced. *)
Definition validate_phase (n : NetworkTraversalV1) (p : TraversalPhaseV1) (used : list string)
  : result (list string) TraversalRefusal :=
  let? _ := proof_domain (ph_authority p) (ph_stage p) (ph_method p) (ph_transport p) in
  if nt_duration_ms n <? ph_elapsed_ms p then Err InvalidDeadline
  else
    let? used :=
      match ph_proof_digest p with
      | Some reference =>
          if negb (digest reference) || bool_decide (reference ∈ used) then Err InvalidProof
          else
            let? proof :=
              ok_or InvalidProof (List.find (fun q => proof_binding_digest q =s reference) (nt_proofs n)) in
            if negb (phase_matches p (proof_transcript proof)) then Err InvalidProof
            else Ok (reference :: used)
      | None =>
          if negb (one_of (ph_outcome p) unattempted) || opt_is_some (ph_granted_lease_sec p)
             || opt_is_some (ph_cleanup p) || opt_is_some (ph_protocol_error p)
          then Err InvalidProof else Ok used
      end in
    if stage_in_mode (nt_mode n) (ph_stage p) then Ok used else Err InvalidScope.

Fixpoint validate_phases (n : NetworkTraversalV1) (phases : list TraversalPhaseV1) (used : list string)
  : result (list string) TraversalRefusal :=
  match phases with
  | [] => Ok used
  | p :: rest => let? used := validate_phase n p used in validate_phases n rest used
  end.

Definition result_validate (n : NetworkTraversalV1) : result unit TraversalRefusal :=
  check nt_version n =? 1 else UnknownVersion;
  let? _ := bounded (result_fields n) TRAVERSAL_BLOCK_MAX_BYTES in
  check negb (negb (digest (nt_descriptor_digest n)) || negb (lower_hex (nt_run_id n) 16)
              || (SAFE_INTEGER <? nt_started_at_ms n) || (TRAVERSAL_EXPERIMENT_MAX_MS <? nt_duration_ms n)
              || is_none_or (checked_add_u64 (nt_started_at_ms n) (nt_duration_ms n))
                   (fun finish => SAFE_INTEGER <? finish)
              || match nt_phases n with [] => true | _ => false end
              || (16 <? Z.of_nat (length (nt_phases n)))
              || (8 <? Z.of_nat (length (nt_proofs n))))
    else InvalidBinding;
  let? _ := validate_proofs n (nt_proofs n) in
  let? used := validate_phases n (nt_phases n) [] in
  check Nat.eqb (length used) (length (nt_proofs n)) else InvalidProof;
  Ok tt.

Fixpoint phases_in_scope (d : TraversalDescriptorV1) (phases : list TraversalPhaseV1)
  : result unit TraversalRefusal :=
  match phases with
  | [] => Ok tt
  | p :: rest =>
      let? operation := phase_operation (ph_stage p) (ph_method p) (ph_transport p) in
      check ops_contain (operations d) operation else InvalidScope;
      phases_in_scope d rest
  end.

Fixpoint proofs_in_scope (d : TraversalDescriptorV1) (now_ms : Z) (proofs : list TraversalProofV1)
  : result unit TraversalRefusal :=
  match proofs with
  | [] => Ok tt
  | p :: rest =>
      let? _ := transcript_validate_scope (proof_transcript p) d now_ms in
      proofs_in_scope d now_ms rest
  end.

Definition result_validate_scope (n : NetworkTraversalV1) (d : TraversalDescriptorV1) (now_ms : Z)
  : result unit TraversalRefusal :=
  let? _ := result_validate n in
  let? _ := validate_at d now_ms in
  let? bound := binding_digest d in
  if negb (nt_descriptor_digest n =s bound) || negb (nt_run_id n =s run_id d)
     || negb (same (nt_mode n) (mode d))
  then Err InvalidBinding
  else
    let finish := nt_started_at_ms n + nt_duration_ms n in
    if (nt_started_at_ms n <? issued_at_ms d) || (now_ms <? nt_started_at_ms n) || (now_ms <? finish)
       || (deadline_ms d <? finish) || (experiment_ms (budgets d) <? nt_duration_ms n)
    then Err InvalidDeadline
    else
      let? _ := phases_in_scope d (nt_phases n) in
      proofs_in_scope d now_ms (nt_proofs n).

End Results.

(** ** Capabilities *)

Section CapabilityFacts.
Context `{!JsonText, !Sha256, !Encodings, !Hmac, !HexDecode, !Deserialize TraversalCapabilityV1}.

(** [ring::hmac::verify] recomputes the tag; [hex] is inverse on lower-case text
    and HMAC-SHA256 tags have 32 bytes. *)
Class MacLaws : Prop := {
  hmac_verify_spec key message tag : hmac_verify key message tag = true <-> tag = hmac_sign key message;
  hex_round key message : hex_decode (hex_encode (hmac_sign key message)) = Some (hmac_sign key message);
  hex_tag key message : lower_hex (hex_encode (hmac_sign key message)) 32 = true;
  hex_back s tag : lower_hex s 32 = true -> hex_decode s = Some tag -> hex_encode tag = s
}.

Lemma canonical_bytes_ok d bytes :
  canonical_bytes d = Ok bytes <-> descriptor_validate d = Ok tt /\ bytes = canonical (descriptor_fields d).
Proof. unfold canonical_bytes. destruct (descriptor_validate d) as [[]|]; naive_solver. Qed.

Lemma bounded_ok fields limit : bounded fields limit = Ok tt <-> len (to_vec_fields fields) <= limit.
Proof. unfold bounded. case Z.ltb_spec; naive_solver lia. Qed.

Lemma verify_mac_ok `{!MacLaws} key dom message signature :
  verify_mac key dom message signature = Ok tt <-> signature = hex_encode (mac_tag key dom message).
Proof.
  unfold verify_mac, mac_tag. rewrite check_ok, let_ok. setoid_rewrite check_ok. split.
  - intros (Hl & tag & Ht & Hv & _). destruct (hex_decode signature) as [tag'|] eqn:Hd; simplify_eq/=.
    apply hmac_verify_spec in Hv as ->. symmetry. by apply hex_back.
  - intros ->. rewrite hex_tag, hex_round. split; [done |]. eexists. split; [done |].
    split; [by apply hmac_verify_spec | done].
Qed.

(** The capability [encode_traversal_capability] writes for a descriptor. *)
Definition issued (key : string) (d : TraversalDescriptorV1) : TraversalCapabilityV1 :=
  {| domain := TRAVERSAL_CAPABILITY_DOMAIN; descriptor := d;
     mac := hex_encode (mac_tag key CAPABILITY_MAC_DOMAIN (canonical (descriptor_fields d))) |}.

Lemma encode_capability_ok key d bytes :
  encode_traversal_capability key d = Ok bytes <->
  descriptor_validate d = Ok tt /\
  len (to_vec_fields (capability_fields (issued key d))) <= TRAVERSAL_BLOCK_MAX_BYTES /\
  bytes = canonical (capability_fields (issued key d)).
Proof.
  unfold encode_traversal_capability, canonical_bytes.
  destruct (descriptor_validate d) as [[]|]; [| naive_solver]. rewrite <- bounded_ok.
  fold (issued key d). destruct (bounded _ _) as [[]|]; naive_solver.
Qed.

Lemma decode_capability_ok `{!MacLaws} key bytes now d :
  decode_traversal_capability key bytes now = Ok d <->
  len bytes <= TRAVERSAL_BLOCK_MAX_BYTES /\ from_slice bytes = Some (issued key d) /\
  validate_at d now = Ok tt /\ bytes = canonical (capability_fields (issued key d)).
Proof.
  unfold decode_traversal_capability.
  case Z.ltb_spec; intros Hlen; [split; [done | intros []; lia] |].
  destruct (from_slice bytes) as [c|] eqn:Hp; cbn [ok_or]; [| naive_solver].
  split.
  - intros Hd. split_all_in Hd. reflect_bool.
    match goal with H : verify_mac _ _ _ _ = Ok ?u |- _ => destruct u; apply verify_mac_ok in H; rename H into Hm end.
    match goal with H : canonical_bytes _ = Ok _ |- _ => apply canonical_bytes_ok in H as [? ->] end.
    match goal with H : validate_at _ _ = Ok ?u |- _ => destruct u end.
    assert (c = issued key (descriptor c)) as <- by (destruct c; unfold issued; cbn in *; by subst).
    by split_and!.
  - intros (_ & [= ->] & Hv & Hb). cbn [domain descriptor mac issued].
    rewrite str_eqb_refl, Hv. cbn [negb].
    rewrite (proj2 (str_eqb_eq _ _) (eq_sym Hb)). cbn [negb].
    apply validate_at_ok in Hv as [Hv _].
    rewrite (proj2 (canonical_bytes_ok _ _) (conj Hv eq_refl)).
    by rewrite (proj2 (verify_mac_ok _ _ _ _) eq_refl).
Qed.

(** C35: the capability codec is exact. Given that serde_json reads back the
    capability it wrote and that reordering the fields keeps its length, a byte
    string decodes to a descriptor under a key precisely when it is what encoding
    that descriptor under that key yields and the clock is inside the grant: no
    other bytes (re-ordered, re-signed, over-long or with unknown fields) are
    accepted for it, and every encoded capability is accepted while it is valid. *)
Theorem capability_codec_exact `{!MacLaws} key d bytes now :
  from_slice (canonical (capability_fields (issued key d))) = Some (issued key d) ->
  len (canonical (capability_fields (issued key d))) = len (to_vec_fields (capability_fields (issued key d))) ->
  decode_traversal_capability key bytes now = Ok d <->
  encode_traversal_capability key d = Ok bytes /\ issued_at_ms d <= now < expires_at_ms d.
Proof.
  intros Hread Hlen. rewrite decode_capability_ok, encode_capability_ok, validate_at_ok, <- Hlen.
  split; [intros (? & _ & [? ?] & ->) | intros [(? & ? & ->) ?]]; naive_solver.
Qed.

Lemma receipt_domain_mac r m : receipt_domain (with_mac r m) = receipt_domain r.
Proof. done. Qed.

Lemma receipt_message_mac r m : traversal_receipt_message (with_mac r m) = traversal_receipt_message r.
Proof. done. Qed.

(** Receipts round-trip and cannot be re-attributed. A receipt signed under a
    key verifies under that key for a descriptor exactly when its transcript is in
    the descriptor's scope; and whatever receipt verifies carries the one MAC its
    authority's domain, transcript and device signature determine. *)
Theorem receipts_verify `{!MacLaws} key r d now :
  (forall r', sign_traversal_receipt key r = (r', Ok tt) ->
     verify_traversal_receipt key r' d now = transcript_validate_scope (rc_transcript r) d now)
  /\ (verify_traversal_receipt key r d now = Ok tt ->
      exists dom message,
        receipt_domain r = Ok dom /\ traversal_receipt_message r = Ok message /\
        rc_mac r = hex_encode (mac_tag key dom message) /\
        sign_traversal_receipt key r = (r, Ok tt)).
Proof.
  split.
  - intros r' Hs. unfold sign_traversal_receipt in Hs.
    destruct (receipt_domain r) as [dom|] eqn:Hd; [| done].
    destruct (traversal_receipt_message r) as [message|] eqn:Hm; [| done].
    simplify_eq. unfold verify_traversal_receipt.
    match goal with H : bounded _ _ = _ |- _ => rewrite H end.
    rewrite receipt_domain_mac, receipt_message_mac, Hd, Hm. cbn [rc_transcript with_mac rc_mac].
    rewrite (proj2 (verify_mac_ok _ _ _ _) eq_refl). by destruct (transcript_validate_scope _ _ _) as [[]|].
  - unfold verify_traversal_receipt. rewrite !let_ok_unit, !let_ok.
    intros (Hb & Hs & dom & Hd & Hv). apply let_ok in Hv as (message & Hm & Hv).
    apply verify_mac_ok in Hv. exists dom, message. split_and!; [done .. |].
    unfold sign_traversal_receipt. rewrite Hd, Hm, <- Hv.
    assert (with_mac r (rc_mac r) = r) as -> by (by destruct r). by rewrite Hb.
Qed.

End CapabilityFacts.

(** ** Domains and pair evidence *)

Lemma one_of_elem {A} `{EqDecision A} (x : A) l : one_of x l = true -> x ∈ l.
Proof. apply bool_decide_eq_true. Qed.
Lemma same_true {A} `{EqDecision A} (x y : A) : same x y = true -> x = y.
Proof. apply bool_decide_eq_true. Qed.

(** [reflect_bool], with the comparisons of enumerations. *)
Ltac reflect_same :=
  reflect_bool;
  repeat match goal with
  | H : same _ _ = true |- _ => apply same_true in H
  | H : ops_contain _ _ = true |- _ => apply bool_decide_eq_true in H
  end.

(** Peer evidence has one domain per path. *)
Lemma peer_domain stage method transport dom :
  proof_domain HelperObservedPeer stage method transport = Ok dom ->
  (stage = Direct /\ transport = Udp /\ dom = TRAVERSAL_DIRECT_PEER_DOMAIN) \/
  (stage = StageRelayControl /\ transport = TransportRelayControl /\ dom = TRAVERSAL_RELAY_PEER_DOMAIN).
Proof.
  unfold proof_domain. intros Hd.
  destruct (same stage Direct && _ && _) eqn:Hdirect; [left | right].
  - injection Hd as <-. reflect_same. by split_and!.
  - destruct (same stage StageRelayControl && _ && _) eqn:Hrelay; [| discriminate].
    injection Hd as <-. reflect_same. by split_and!.
Qed.

Section EvidenceFacts.
Context `{!JsonText, !Sha256, !Encodings}.

(** The facts of a validated transcript that the other checks build on. *)
Lemma transcript_validate_facts t :
  transcript_validate t = Ok tt ->
  proof_domain (tr_authority t) (tr_stage t) (tr_method t) (tr_transport t) = Ok (tr_domain t)
  /\ (tr_authority t <> DeviceReportedRouter -> tr_granted_lease_sec t = None /\ tr_cleanup t = None)
  /\ (forall s, tr_granted_lease_sec t = Some s -> tr_outcome t <> UnsupportedFiniteLease -> s <> 0 /\ s <= 120)
  /\ tr_elapsed_ms t <= TRAVERSAL_EXPERIMENT_MAX_MS
  /\ len (to_vec_fields (transcript_fields t)) <= TRAVERSAL_BLOCK_MAX_BYTES.
Proof.
  unfold transcript_validate. rewrite !check_ok, let_ok. setoid_rewrite check_ok.
  intros (_ & Hb & dom & Hd & Hn & Hrest). rewrite !check_ok in Hrest.
  destruct Hrest as (_ & _ & _ & _ & Ha & Hl & _ & _ & _ & _ & _ & Hs).
  apply str_eqb_eq in Hn as ->. apply bounded_ok in Hs. reflect_bool.
  split; [done |]. split.
  { intros Hr. apply andb_false_iff in Ha as [Ha|Ha].
    - apply negb_false_iff, same_true in Ha. done.
    - reflect_bool. by destruct (tr_granted_lease_sec t), (tr_cleanup t). }
  split; [| split; [lia | done]].
  intros s Hg Ho. rewrite Hg in Hl. cbn in Hl. apply andb_false_iff in Hl as [Hl|Hl].
  - reflect_bool. lia.
  - by apply negb_false_iff, same_true in Hl.
Qed.

Lemma transcript_scope_facts t d now :
  transcript_validate_scope t d now = Ok tt ->
  transcript_validate t = Ok tt /\ validate_at d now = Ok tt /\
  tr_descriptor_digest t = traversal_sha256 (canonical (descriptor_fields d)) /\
  tr_run_id t = run_id d /\ tr_participant_role t = participant_role d /\
  tr_pair_id t = pair_id <$> pair d /\ tr_elapsed_ms t <= experiment_ms (budgets d) /\
  exists op, phase_operation (tr_stage t) (tr_method t) (tr_transport t) = Ok op /\ op ∈ operations d.
Proof.
  unfold transcript_validate_scope. rewrite !let_ok_unit, let_ok.
  intros (Ht & Hd & bound & Hbound & Hrest). split; [done |]. split; [done |].
  destruct (_ || _) eqn:Hor in Hrest; [done |]. apply let_ok in Hrest as (op & Hop & Hrest).
  rewrite !check_ok in Hrest. destruct Hrest as (_ & Hc & _). reflect_same.
  unfold binding_digest in Hbound. destruct (canonical_bytes d) as [bytes|] eqn:Hb; [| done].
  apply canonical_bytes_ok in Hb as [_ ->]. simplify_eq.
  split_and!; try done; try lia. by exists op.
Qed.

(** Pair evidence is mutual. When [validate_pair_transcripts] accepts, the two
    transcripts report one path - both direct or both relayed, under that path's
    own domain, so relayed traffic is never recast as direct - over one transport
    and family; each was challenged by the other's nonce; both are bound to their
    own grant of one experiment, held under two different claims; and the path's
    operation is in the scope of both grants. *)
Theorem pair_evidence_mutual d1 d2 t1 t2 now :
  validate_pair_transcripts d1 d2 t1 t2 now = Ok tt ->
  claim_authority_digest d1 <> claim_authority_digest d2 /\
  tr_participant_role t1 = Some First /\ tr_participant_role t2 = Some Second /\
  tr_peer_challenge t1 = Some (tr_challenge t2) /\ tr_peer_challenge t2 = Some (tr_challenge t1) /\
  tr_domain t1 = tr_domain t2 /\ tr_stage t1 = tr_stage t2 /\ tr_family t1 = tr_family t2 /\
  ((tr_stage t1 = Direct /\ tr_transport t1 = Udp /\ tr_domain t1 = TRAVERSAL_DIRECT_PEER_DOMAIN /\
    PairDirectUdp ∈ operations d1 /\ PairDirectUdp ∈ operations d2) \/
   (tr_stage t1 = StageRelayControl /\ tr_transport t1 = TransportRelayControl /\
    tr_domain t1 = TRAVERSAL_RELAY_PEER_DOMAIN /\
    PairRelayControl ∈ operations d1 /\ PairRelayControl ∈ operations d2)).
Proof.
  unfold validate_pair_transcripts. rewrite !let_ok_unit. intros (Hp & Hs1 & Hs2 & Hrest).
  destruct (_ || _) eqn:Hor in Hrest; [done |]. reflect_same.
  apply transcript_scope_facts in Hs1 as (Hv1 & _ & _ & _ & Hr1 & _ & _ & op1 & Ho1 & Hin1).
  apply transcript_scope_facts in Hs2 as (Hv2 & _ & _ & _ & Hr2 & _ & _ & op2 & Ho2 & Hin2).
  apply transcript_validate_facts in Hv1 as (Hd1 & _), Hv2 as (Hd2 & _).
  apply validate_pair_claims in Hp as Hc. destruct Hc as (p & _ & _ & _ & _ & Hc & _).
  apply validate_traversal_pair_ok in Hp as (_ & _ & _ & Hf & Hs & _).
  repeat match goal with H : _ = HelperObservedPeer |- _ => rewrite H in * end.
  apply peer_domain in Hd1, Hd2. split_and!; try congruence.
  all: destruct Hd1 as [(Hs1 & ? & ?)|(Hs1 & ? & ?)], Hd2 as [(Hs2 & ? & ?)|(Hs2 & ? & ?)]; try congruence;
    rewrite Hs1 in Ho1; rewrite Hs2 in Ho2; simplify_eq/=; naive_solver.
Qed.

(** The phase says, field by field, what the transcript says. *)
Record phase_reports (p : TraversalPhaseV1) (t : TraversalTranscriptV1) : Prop := {
  pr_stage : ph_stage p = tr_stage t;
  pr_method : ph_method p = tr_method t;
  pr_transport : ph_transport p = tr_transport t;
  pr_family : ph_family p = tr_family t;
  pr_authority : ph_authority p = tr_authority t;
  pr_outcome : ph_outcome p = tr_outcome t;
  pr_elapsed : ph_elapsed_ms p = tr_elapsed_ms t;
  pr_lease : ph_granted_lease_sec p = tr_granted_lease_sec t;
  pr_cleanup : ph_cleanup p = tr_cleanup t;
  pr_protocol_error : ph_protocol_error p = tr_protocol_error t;
  pr_error_class : ph_error_class p = tr_error_class t
}.

(** The phase says that nothing was attempted; its time, within the result's duration,
    and its class of error are its own. *)
Record phase_abstains (p : TraversalPhaseV1) : Prop := {
  pa_outcome : ph_outcome p = UnsupportedTopology \/ ph_outcome p = UnsupportedRuntimeApi \/
               ph_outcome p = UnsupportedSafeOwnership \/ ph_outcome p = OutcomeSkippedBudget \/
               ph_outcome p = NotStarted;
  pa_lease : ph_granted_lease_sec p = None;
  pa_cleanup : ph_cleanup p = None;
  pa_protocol_error : ph_protocol_error p = None
}.

(** What a phase of a validated result may claim. *)
Record phase_backed (n : NetworkTraversalV1) (p : TraversalPhaseV1) : Prop := {
  pb_domain : is_ok (proof_domain (ph_authority p) (ph_stage p) (ph_method p) (ph_transport p)) = true;
  pb_elapsed : ph_elapsed_ms p <= nt_duration_ms n;
  pb_mode : stage_in_mode (nt_mode n) (ph_stage p) = true;
  pb_proof : match ph_proof_digest p with
    | Some reference =>
        exists q, q ∈ nt_proofs n /\ proof_binding_digest q = reference /\ phase_reports p (proof_transcript q)
    | None => phase_abstains p
    end
}.

Lemma phase_matches_reports p t : phase_matches p t = true -> phase_reports p t.
Proof. unfold phase_matches. intros Hm. reflect_same. by constructor. Qed.

Lemma unattempted_cases o : o ∈ unattempted ->
  o = UnsupportedTopology \/ o = UnsupportedRuntimeApi \/ o = UnsupportedSafeOwnership \/ o = OutcomeSkippedBudget \/
  o = NotStarted.
Proof. unfold unattempted. set_solver. Qed.

(** A proof that is well formed and belongs to the result's run. *)
Definition proof_belongs (n : NetworkTraversalV1) (q : TraversalProofV1) : Prop :=
  proof_validate q = Ok tt /\ tr_descriptor_digest (proof_transcript q) = nt_descriptor_digest n /\
  tr_run_id (proof_transcript q) = nt_run_id n.

Lemma validate_proofs_ok n proofs : validate_proofs n proofs = Ok tt -> Forall (proof_belongs n) proofs.
Proof.
  induction proofs as [|q proofs IH]; cbn [validate_proofs]; [done |]. rewrite let_ok_unit, check_ok.
  intros (Hq & Hb & Hrest). reflect_bool. apply Forall_cons. split; [by split_and! | by apply IH].
Qed.

Lemma validate_phase_ok n p used used' :
  validate_phase n p used = Ok used' ->
  phase_backed n p /\
  used' = match ph_proof_digest p with Some r => r :: used | None => used end /\
  (NoDup used -> NoDup used').
Proof.
  unfold validate_phase. destruct (proof_domain _ _ _ _) as [dom|] eqn:Hd; [| done].
  case Z.ltb_spec; [done |]. intros Hel Hv.
  destruct (stage_in_mode _ _) eqn:Hmode;
    [| destruct (match ph_proof_digest p with Some _ => _ | None => _ end); done].
  assert (Hdom : is_ok (proof_domain (ph_authority p) (ph_stage p) (ph_method p) (ph_transport p)) = true)
    by (by rewrite Hd).
  destruct (ph_proof_digest p) as [reference|] eqn:Hp.
  - destruct (_ || _) eqn:Hor in Hv; [done |]. reflect_bool. apply bool_decide_eq_false in H3.
    destruct (List.find _ _) as [q|] eqn:Hf; [| done]. cbn [ok_or] in Hv.
    destruct (negb _) eqn:Hm in Hv; [done |]. simplify_eq. apply List.find_some in Hf as [Hq Hr].
    reflect_bool. split_and!; [| done | by constructor].
    split; [done .. |]. rewrite Hp. exists q.
    split_and!; [by apply list_elem_of_In | done | by apply phase_matches_reports].
  - destruct (_ || _) eqn:Hor in Hv; [done |]. simplify_eq. reflect_bool.
    split_and!; [| done | done]. split; [done .. |]. rewrite Hp.
    match goal with H : one_of _ _ = true |- _ => apply one_of_elem, unattempted_cases in H end.
    by destruct (ph_granted_lease_sec p) eqn:?, (ph_cleanup p) eqn:?, (ph_protocol_error p) eqn:?.
Qed.

Lemma validate_phases_ok n phases : forall used used',
  validate_phases n phases used = Ok used' -> NoDup used ->
  Forall (phase_backed n) phases /\ NoDup used' /\ used' ≡ₚ omap ph_proof_digest phases ++ used.
Proof.
  induction phases as [|p phases IH]; intros used used' Hv Hn; simplify_eq/=; [by repeat constructor |].
  destruct (validate_phase n p used) as [u|] eqn:Hp; [| done].
  apply validate_phase_ok in Hp as (Hb & -> & Hnd).
  destruct (IH _ _ Hv (Hnd Hn)) as (Hf & Hn' & Hperm).
  split_and!; [by constructor | done |]. rewrite Hperm.
  destruct (ph_proof_digest p); [| done]. by rewrite <- Permutation_middle.
Qed.

(** C36: every claim of a result is backed by a proof, and every proof is used
    once. In a result that [NetworkTraversalV1::validate] accepts, every attached proof
    is well formed and names the result's descriptor and run; the proof references of
    the phases are, up to order, exactly the digests of the attached proofs, all
    different; a phase with a reference equals the transcript of that proof in stage,
    method, transport, family, authority, outcome, elapsed time, lease, cleanup, protocol
    error and error class; and a phase without one has an outcome for something
    unsupported, skipped or not started, and no lease, cleanup or protocol error.  What
    such a phase gives as elapsed time, within the result's duration, and as error class
    is not checked. *)
Theorem result_claims_backed n :
  result_validate n = Ok tt ->
  Forall (proof_belongs n) (nt_proofs n) /\
  omap ph_proof_digest (nt_phases n) ≡ₚ map proof_binding_digest (nt_proofs n) /\
  NoDup (map proof_binding_digest (nt_proofs n)) /\
  Forall (phase_backed n) (nt_phases n).
Proof.
  unfold result_validate. rewrite check_ok, let_ok_unit, check_ok, let_ok_unit, let_ok.
  intros (_ & _ & _ & Hproofs & used & Hv & Hlen). apply check_ok in Hlen as [Hlen _]. apply Nat.eqb_eq in Hlen.
  destruct (validate_phases_ok _ _ _ _ Hv (NoDup_nil_2)) as (Hf & Hn & Hperm). rewrite app_nil_r in Hperm.
  assert (used ≡ₚ map proof_binding_digest (nt_proofs n)) as Hu.
  { apply submseteq_length_Permutation; [| by rewrite length_map, Hlen].
    apply NoDup_submseteq; [done |]. intros r Hr. rewrite Hperm in Hr.
    apply list_elem_of_omap in Hr as (p & Hp & Hr).
    pose proof (pb_proof _ _ (proj1 (Forall_forall _ _) Hf p Hp)) as Hb. rewrite Hr in Hb.
    destruct Hb as (q & Hq & <- & _). by apply list_elem_of_fmap_2. }
  split_and!; [by apply validate_proofs_ok | by rewrite <- Hperm | by rewrite <- Hu | done].
Qed.

End EvidenceFacts.

(** ** Example crates: hex text, a fixed-length tag, a one-document parser *)

Definition hex_value (a : ascii) : option N :=
  let n := N_of_ascii a in
  if (48 <=? n)%N && (n <=? 57)%N then Some (n - 48)%N
  else if (97 <=? n)%N && (n <=? 102)%N then Some (n - 87)%N else None.

Fixpoint sample_unhex (s : string) : option string :=
  match s with
  | EmptyString => Some EmptyString
  | String a (String b s) =>
      match hex_value a, hex_value b, sample_unhex s with
      | Some h, Some l, Some s => Some (String (ascii_of_N (h * 16 + l)) s)
      | _, _, _ => None
      end
  | String _ EmptyString => None
  end.

Lemma hex_value_digit n : (n < 16)%N -> hex_value (hex_digit n) = Some n.
Proof.
  intros Hn. assert (n ∈ map N.of_nat (seq 0 16)) as Hi.
  { apply list_elem_of_fmap. exists (N.to_nat n). split; [lia |]. apply elem_of_seq. lia. }
  cbn in Hi. set_unfold in Hi. naive_solver.
Qed.

Lemma hex_digit_value a n : hex_value a = Some n -> (n < 16)%N /\ hex_digit n = a.
Proof.
  unfold hex_value. intros Hv. rewrite <- (ascii_N_embedding a).
  pose proof (N_ascii_bounded a). set (m := N_of_ascii a) in *.
  destruct ((48 <=? m)%N && (m <=? 57)%N) eqn:Hd.
  - apply andb_true_iff in Hd as [?%N.leb_le ?%N.leb_le]. simplify_eq. split; [lia |]. unfold hex_digit.
    rewrite (proj2 (N.ltb_lt _ _)) by lia. f_equal. lia.
  - destruct ((97 <=? m)%N && (m <=? 102)%N) eqn:Hl; [| done].
    apply andb_true_iff in Hl as [?%N.leb_le ?%N.leb_le]. simplify_eq. split; [lia |]. unfold hex_digit.
    rewrite (proj2 (N.ltb_ge _ _)) by lia. f_equal. lia.
Qed.

Lemma sample_hex_round s : sample_unhex (sample_hex s) = Some s.
Proof.
  induction s as [|a s IH]; [done |]. cbn [sample_hex sample_unhex].
  pose proof (N_ascii_bounded a).
  rewrite !hex_value_digit by (apply N.mod_lt || apply N.Div0.div_lt_upper_bound; lia). rewrite IH.
  by rewrite N.mul_comm, <- N.div_mod, ascii_N_embedding by done.
Qed.

Lemma sample_hex_back n : forall s tag, (String.length s <= n)%nat -> sample_unhex s = Some tag -> sample_hex tag = s.
Proof.
  induction n as [|n IH]; intros [|a [|b s]] tag Hn Ht; simplify_eq/=; try done; try lia.
  destruct (hex_value a) as [h|] eqn:Ha; [| done]. destruct (hex_value b) as [l|] eqn:Hb; [| done].
  destruct (sample_unhex s) as [r|] eqn:Hs; [| done]. simplify_eq. cbn [sample_hex].
  apply hex_digit_value in Ha as [? <-], Hb as [? <-].
  rewrite N_ascii_embedding by lia.
  rewrite N.div_add_l, N.div_small, N.add_0_r by lia.
  rewrite N.Div0.add_mod, N.Div0.mod_mul, N.add_0_l, N.Div0.mod_mod, N.mod_small by lia.
  do 2 f_equal. apply IH; [lia | done].
Qed.

Definition sample_hmac : Hmac :=
  {| hmac_sign := fun key _ => repeat_byte 32 "k";
     hmac_verify := fun _ _ tag => tag =s repeat_byte 32 "k" |}.
Definition sample_compact : JsonText :=
  {| to_vec := fun _ => "{}"; to_vec_fields := fun _ => "{}"; from_str := fun _ => None |}.

Lemma sample_mac_laws :
  @MacLaws sample_encodings sample_hmac (fun s => sample_unhex s).
Proof.
  split.
  - intros key message tag. cbn. by rewrite str_eqb_eq.
  - intros key message. apply sample_hex_round.
  - intros. vm_compute. reflexivity.
  - intros s tag _ Ht. by apply (sample_hex_back (String.length s)).
Qed.

Lemma capability_codec_exact_witness :
  exists bytes,
    @encode_traversal_capability sample_compact sample_encodings sample_hmac "key" sample_mapping_grant
      = Ok bytes.
Proof.
  exists "{}".
  refine (proj1 (proj1 (@capability_codec_exact sample_compact sample_encodings sample_hmac
    (fun s => sample_unhex s)
    (fun _ => Some (@issued sample_compact sample_encodings sample_hmac "key" sample_mapping_grant))
    sample_mac_laws "key" sample_mapping_grant "{}" 2000 eq_refl eq_refl) _)).
  vm_compute. reflexivity.
Defined.

(** A transcript of this stage, bound to a grant. *)
Definition sample_sha : Sha256 := fun _ => repeat_byte 32 "s".
Definition sample_bound : string := @traversal_sha256 sample_sha sample_encodings EmptyString.
Definition sample_transcript (dom : string) (a : TraversalEvidenceAuthority) (s : TraversalStage)
    (m : TraversalMethod) (tp : TraversalTransport) (d : TraversalDescriptorV1) (own peer : ascii)
  : TraversalTranscriptV1 :=
  {| tr_version := 1; tr_domain := dom; tr_descriptor_digest := sample_bound; tr_run_id := run_id d;
     tr_pair_id := pair_id <$> pair d; tr_participant_role := participant_role d; tr_authority := a;
     tr_stage := s; tr_method := m; tr_transport := tp; tr_family := V4;
     tr_challenge := repeat_byte 64 own;
     tr_peer_challenge := if one_of s [Direct; StageRelayControl] then Some (repeat_byte 64 peer) else None;
     tr_expires_at_ms := expires_at_ms d; tr_outcome := Succeeded; tr_elapsed_ms := 10;
     tr_granted_lease_sec := None; tr_cleanup := None; tr_protocol_error := None; tr_error_class := None |}.

Definition sample_receipt : TraversalReceiptV1 :=
  {| rc_version := 1;
     rc_transcript := sample_transcript TRAVERSAL_EXTERNAL_PATH_DOMAIN ExternalPath MappingVerify MethodPcp
                        Udp sample_mapping_grant "1" "2";
     rc_device_signature := "0x" +:+ repeat_byte 128 "a"; rc_mac := EmptyString |}.

Lemma receipts_verify_witness :
  let signed := (@sign_traversal_receipt sample_compact sample_encodings sample_hmac "key" sample_receipt).1 in
  @verify_traversal_receipt sample_compact sample_sha sample_encodings sample_hmac (fun s => sample_unhex s)
    "key" signed sample_mapping_grant 2000 = Ok tt.
Proof.
  intros signed.
  rewrite (proj1 (@receipts_verify sample_compact sample_sha sample_encodings sample_hmac
    (fun s => sample_unhex s) sample_mac_laws "key" sample_receipt sample_mapping_grant 2000) signed
    ltac:(vm_compute; reflexivity)).
  vm_compute. reflexivity.
Defined.

Definition sample_peer (d : TraversalDescriptorV1) (own peer : ascii) : TraversalTranscriptV1 :=
  sample_transcript TRAVERSAL_DIRECT_PEER_DOMAIN HelperObservedPeer Direct MethodPair Udp d own peer.

Lemma pair_evidence_mutual_witness :
  let second := with_half sample_pair_grant (Some Second) (sample_digest "2") in
  tr_domain (sample_peer sample_pair_grant "1" "2") = tr_domain (sample_peer second "2" "1").
Proof.
  intros second.
  apply (@pair_evidence_mutual sample_compact sample_sha sample_encodings sample_pair_grant second
    (sample_peer sample_pair_grant "1" "2") (sample_peer second "2" "1") 2000).
  vm_compute. reflexivity.
Defined.

Definition sample_phase (t : TraversalTranscriptV1) (reference : option string) : TraversalPhaseV1 :=
  {| ph_stage := tr_stage t; ph_method := tr_method t; ph_transport := tr_transport t;
     ph_family := tr_family t; ph_authority := tr_authority t;
     ph_outcome := if opt_is_some reference then tr_outcome t else NotStarted;
     ph_elapsed_ms := tr_elapsed_ms t; ph_granted_lease_sec := None; ph_cleanup := None;
     ph_protocol_error := None; ph_error_class := None; ph_proof_digest := reference |}.
Definition sample_result : NetworkTraversalV1 :=
  let t := sample_peer sample_pair_grant "1" "2" in
  {| nt_version := 1; nt_descriptor_digest := sample_bound; nt_run_id := run_id sample_pair_grant;
     nt_mode := ModePair; nt_started_at_ms := 1500; nt_duration_ms := 100;
     nt_phases := [sample_phase t (Some sample_bound); sample_phase t None];
     nt_proofs := [DeviceSignature t ("0x" +:+ repeat_byte 128 "a")] |}.

Lemma result_claims_backed_witness :
  Forall (@phase_backed sample_compact sample_sha sample_encodings sample_result) (nt_phases sample_result).
Proof.
  apply (@result_claims_backed sample_compact sample_sha sample_encodings sample_result).
  vm_compute. reflexivity.
Defined.
