(* ===== verification/Mapping.v ===== *)
(** * Port mapping over PCP and NAT-PMP

    [network_traversal/mapping.rs]: the finite PCP (RFC 6887) and NAT-PMP
    (RFC 6886) codecs, the create exchange with its ownership rules, and the
    delete. The router is reached through the [Control] interface of [Gateway]. *)
From stdpp Require Import prelude strings.
From S2P Require Import Prelude Bridge World Wire Gateway Evidence.

Local Open Scope Z_scope.

Definition MAPPING_REQUESTED_LEASE_SEC : Z := 60.
Definition MAPPING_MAXIMUM_LEASE_SEC : Z := 120.
Definition MAPPING_HIGH_PORT_MIN : Z := 1024.
Definition PCP_MAP_PACKET_BYTES : nat := 60.
Definition NATPMP_MAP_REQUEST_BYTES : nat := 12.
Definition NATPMP_MAP_RESPONSE_BYTES : nat := 16.
Definition PCP_VERSION : Z := 2.
Definition PCP_MAP_OPCODE : Z := 1.
Definition PCP_RESPONSE_BIT : Z := 0x80.
Definition NATPMP_VERSION : Z := 0.
Definition NATPMP_UDP : Z := 1.
Definition NATPMP_TCP : Z := 2.
Definition NATPMP_RESPONSE_BIT : Z := 0x80.

Inductive MappedPortProtocol := MappedTcp | MappedUdp.

Definition pcp_number (p : MappedPortProtocol) : Z := match p with MappedTcp => 6 | MappedUdp => 17 end.
Definition natpmp_number (p : MappedPortProtocol) : Z :=
  match p with MappedTcp => NATPMP_TCP | MappedUdp => NATPMP_UDP end.
Definition from_natpmp (value : Z) : option MappedPortProtocol :=
  if value =? NATPMP_TCP then Some MappedTcp else if value =? NATPMP_UDP then Some MappedUdp else None.

Inductive MappingRefusal :=
| LowPort | BadClientAddress | BadLifetimeCeiling | TrivialNonce | MissingReservation
| ReservationGatewayMismatch | AmbiguousOwnership | Denied | ProtocolUnsupported | Conflict | Rebooted
| Truncated | ReplayOrMismatch | OverlongOrZeroGrant | LostResponse | MappingCancelled | MappingMalformed.

Record OwnedMappingHandle := {
  h_protocol : RouterProtocol;
  h_port_protocol : MappedPortProtocol;
  h_internal_port : Z;
  h_external_port : Z;
  h_client : Ipv4Addr;
  h_granted_lifetime_sec : Z;
  h_epoch : Z;
  h_nonce : option (list Z);
  h_reservation_digest : option (list Z);
  h_cleanup_authorized : bool;
  h_external_address : option Ipv4Addr
}.

Record ExclusiveReservation := { reserved_gateway : Ipv4Addr; reserved_digest : list Z }.

Record MappingEffect := {
  e_protocol : RouterProtocol;
  e_outcome : TraversalOutcome;
  e_cleanup : TraversalCleanup;
  e_error : option TraversalErrorClass;
  e_refusal : option MappingRefusal;
  e_handle : option OwnedMappingHandle;
  e_granted_lifetime_sec : option Z;
  e_epoch : option Z;
  e_assigned_port : option Z;
  e_port_changed : bool;
  e_lease_clamped : bool;
  e_gateway_rebooted : bool;
  e_requests_sent : Z
}.

Record PcpMap := {
  pm_local_address : Ipv4Addr;
  pm_internal_port : Z;
  pm_protocol : MappedPortProtocol;
  pm_nonce : list Z;
  pm_maximum_lease_sec : Z;
  pm_previous_epoch : option Z;
  pm_exclusive_reservation : option ExclusiveReservation
}.

Record NatPmpMap := {
  nm_internal_port : Z;
  nm_protocol : MappedPortProtocol;
  nm_maximum_lease_sec : Z;
  nm_previous_epoch : option Z;
  nm_exclusive_reservation : option ExclusiveReservation
}.

Inductive DecodeFault := FaultTruncated | FaultOversize | FaultMalformed.
Inductive ServerClass := ClassSuccess | ClassDenied | ClassUnsupported | ClassConflict | ClassFailed.

Record Parsed := {
  p_version_ok : bool;
  p_opcode_ok : bool;
  p_result : Z;
  p_lifetime : Z;
  p_epoch : Z;
  p_protocol : Z;
  p_internal_port : Z;
  p_assigned_port : Z;
  p_nonce : option (list Z);
  p_assigned_ip : option Ipv4Addr
}.

Record MapParts := {
  mp_protocol : RouterProtocol;
  mp_port_protocol : MappedPortProtocol;
  mp_internal_port : Z;
  mp_client : Ipv4Addr;
  mp_previous_epoch : option Z;
  mp_ceiling : Z;
  mp_reservation_authorizes_delete : bool;
  mp_nonce : option (list Z);
  mp_digest : option (list Z)
}.

#[global] Instance router_protocol_eq_dec : EqDecision RouterProtocol.
Proof. solve_decision. Defined.
#[global] Instance mapped_protocol_eq_dec : EqDecision MappedPortProtocol.
Proof. solve_decision. Defined.
#[global] Instance mapping_refusal_eq_dec : EqDecision MappingRefusal.
Proof. solve_decision. Defined.
#[global] Instance server_class_eq_dec : EqDecision ServerClass.
Proof. solve_decision. Defined.

(** ** Assignments to the fields of an effect *)

Definition set_outcome (v : TraversalOutcome) (e : MappingEffect) : MappingEffect :=
  {| e_protocol := e_protocol e; e_outcome := v; e_cleanup := e_cleanup e; e_error := e_error e;
     e_refusal := e_refusal e; e_handle := e_handle e; e_granted_lifetime_sec := e_granted_lifetime_sec e;
     e_epoch := e_epoch e; e_assigned_port := e_assigned_port e; e_port_changed := e_port_changed e;
     e_lease_clamped := e_lease_clamped e; e_gateway_rebooted := e_gateway_rebooted e;
     e_requests_sent := e_requests_sent e |}.
Definition set_cleanup (v : TraversalCleanup) (e : MappingEffect) : MappingEffect :=
  {| e_protocol := e_protocol e; e_outcome := e_outcome e; e_cleanup := v; e_error := e_error e;
     e_refusal := e_refusal e; e_handle := e_handle e; e_granted_lifetime_sec := e_granted_lifetime_sec e;
     e_epoch := e_epoch e; e_assigned_port := e_assigned_port e; e_port_changed := e_port_changed e;
     e_lease_clamped := e_lease_clamped e; e_gateway_rebooted := e_gateway_rebooted e;
     e_requests_sent := e_requests_sent e |}.
Definition set_error (v : option TraversalErrorClass) (e : MappingEffect) : MappingEffect :=
  {| e_protocol := e_protocol e; e_outcome := e_outcome e; e_cleanup := e_cleanup e; e_error := v;
     e_refusal := e_refusal e; e_handle := e_handle e; e_granted_lifetime_sec := e_granted_lifetime_sec e;
     e_epoch := e_epoch e; e_assigned_port := e_assigned_port e; e_port_changed := e_port_changed e;
     e_lease_clamped := e_lease_clamped e; e_gateway_rebooted := e_gateway_rebooted e;
     e_requests_sent := e_requests_sent e |}.
Definition set_refusal (v : option MappingRefusal) (e : MappingEffect) : MappingEffect :=
  {| e_protocol := e_protocol e; e_outcome := e_outcome e; e_cleanup := e_cleanup e; e_error := e_error e;
     e_refusal := v; e_handle := e_handle e; e_granted_lifetime_sec := e_granted_lifetime_sec e;
     e_epoch := e_epoch e; e_assigned_port := e_assigned_port e; e_port_changed := e_port_changed e;
     e_lease_clamped := e_lease_clamped e; e_gateway_rebooted := e_gateway_rebooted e;
     e_requests_sent := e_requests_sent e |}.
Definition set_handle (v : option OwnedMappingHandle) (e : MappingEffect) : MappingEffect :=
  {| e_protocol := e_protocol e; e_outcome := e_outcome e; e_cleanup := e_cleanup e; e_error := e_error e;
     e_refusal := e_refusal e; e_handle := v; e_granted_lifetime_sec := e_granted_lifetime_sec e;
     e_epoch := e_epoch e; e_assigned_port := e_assigned_port e; e_port_changed := e_port_changed e;
     e_lease_clamped := e_lease_clamped e; e_gateway_rebooted := e_gateway_rebooted e;
     e_requests_sent := e_requests_sent e |}.
(** The reply's epoch, lifetime and port. *)
Definition set_grant (epoch lifetime port : option Z) (e : MappingEffect) : MappingEffect :=
  {| e_protocol := e_protocol e; e_outcome := e_outcome e; e_cleanup := e_cleanup e; e_error := e_error e;
     e_refusal := e_refusal e; e_handle := e_handle e; e_granted_lifetime_sec := lifetime;
     e_epoch := epoch; e_assigned_port := port; e_port_changed := e_port_changed e;
     e_lease_clamped := e_lease_clamped e; e_gateway_rebooted := e_gateway_rebooted e;
     e_requests_sent := e_requests_sent e |}.
Definition set_epoch (v : Z) (e : MappingEffect) : MappingEffect :=
  set_grant (Some v) (e_granted_lifetime_sec e) (e_assigned_port e) e.
(** The flags of an adopted grant. *)
Definition set_flags (port_changed lease_clamped : bool) (e : MappingEffect) : MappingEffect :=
  {| e_protocol := e_protocol e; e_outcome := e_outcome e; e_cleanup := e_cleanup e; e_error := e_error e;
     e_refusal := e_refusal e; e_handle := e_handle e; e_granted_lifetime_sec := e_granted_lifetime_sec e;
     e_epoch := e_epoch e; e_assigned_port := e_assigned_port e; e_port_changed := port_changed;
     e_lease_clamped := lease_clamped; e_gateway_rebooted := e_gateway_rebooted e;
     e_requests_sent := e_requests_sent e |}.
Definition set_rebooted (v : bool) (e : MappingEffect) : MappingEffect :=
  {| e_protocol := e_protocol e; e_outcome := e_outcome e; e_cleanup := e_cleanup e; e_error := e_error e;
     e_refusal := e_refusal e; e_handle := e_handle e; e_granted_lifetime_sec := e_granted_lifetime_sec e;
     e_epoch := e_epoch e; e_assigned_port := e_assigned_port e; e_port_changed := e_port_changed e;
     e_lease_clamped := e_lease_clamped e; e_gateway_rebooted := v; e_requests_sent := e_requests_sent e |}.
Definition set_sent (v : Z) (e : MappingEffect) : MappingEffect :=
  {| e_protocol := e_protocol e; e_outcome := e_outcome e; e_cleanup := e_cleanup e; e_error := e_error e;
     e_refusal := e_refusal e; e_handle := e_handle e; e_granted_lifetime_sec := e_granted_lifetime_sec e;
     e_epoch := e_epoch e; e_assigned_port := e_assigned_port e; e_port_changed := e_port_changed e;
     e_lease_clamped := e_lease_clamped e; e_gateway_rebooted := e_gateway_rebooted e;
     e_requests_sent := v |}.

Notation "x |> f" := (f x) (at level 62, left associativity, only parsing) : rust_scope.

(** ** Packets *)

Definition usable_ipv4 (addr : Ipv4Addr) : bool :=
  negb (is_unspecified addr) && negb (is_broadcast addr) && negb (is_multicast addr) && (oct0 addr <? 240).

Definition ipv4_mapped (addr : Ipv4Addr) : list Z := zeros 10 ++ [0xff; 0xff] ++ octets addr.

Definition mapped_ipv4 (bytes : list Z) : option Ipv4Addr :=
  if negb (Nat.eqb (length bytes) 16) || negb (bool_decide (take 10 bytes = zeros 10))
     || negb (bool_decide (take 2 (drop 10 bytes) = [0xff; 0xff]))
  then None
  else
    match drop 12 bytes with
    | [a; b; c; d] => then_some (usable_ipv4 (ipv4 a b c d)) (ipv4 a b c d)
    | _ => None
    end.

(** Both decoders check the length first, so that no index is out of range. *)
Definition byte_at (bytes : list Z) (offset : nat) : Z := default 0 (bytes !! offset).
Definition u16_at (bytes : list Z) (offset : nat) : Z := be_value (take 2 (drop offset bytes)).
Definition u32_at (bytes : list Z) (offset : nat) : Z := be_value (take 4 (drop offset bytes)).

Definition encode_pcp (local : Ipv4Addr) (protocol internal_port external_port : Z) (nonce : list Z)
    (lifetime : Z) : list Z :=
  zeros PCP_MAP_PACKET_BYTES
  |> patch 0 [PCP_VERSION]
  |> patch 1 [PCP_MAP_OPCODE]
  |> patch 4 (be_bytes 4 lifetime)
  |> patch 8 (ipv4_mapped local)
  |> patch 24 nonce
  |> patch 36 [protocol]
  |> patch 40 (be_bytes 2 internal_port)
  |> patch 42 (be_bytes 2 external_port).

Definition encode_natpmp (opcode internal_port external_port lifetime : Z) : list Z :=
  zeros NATPMP_MAP_REQUEST_BYTES
  |> patch 0 [NATPMP_VERSION]
  |> patch 1 [opcode]
  |> patch 4 (be_bytes 2 internal_port)
  |> patch 6 (be_bytes 2 external_port)
  |> patch 8 (be_bytes 4 lifetime).

Definition decode_pcp (bytes : list Z) : result Parsed DecodeFault :=
  if (length bytes <? PCP_MAP_PACKET_BYTES)%nat then Err FaultTruncated
  else if (PCP_MAP_PACKET_BYTES <? length bytes)%nat then Err FaultOversize
  else
    Ok {| p_version_ok := byte_at bytes 0 =? PCP_VERSION;
          p_opcode_ok := byte_at bytes 1 =? Z.lor PCP_MAP_OPCODE PCP_RESPONSE_BIT;
          p_result := byte_at bytes 3;
          p_lifetime := u32_at bytes 4;
          p_epoch := u32_at bytes 8;
          p_protocol := byte_at bytes 36;
          p_internal_port := u16_at bytes 40;
          p_assigned_port := u16_at bytes 42;
          p_nonce := Some (take 12 (drop 24 bytes));
          p_assigned_ip := mapped_ipv4 (take 16 (drop 44 bytes)) |}.

Definition decode_natpmp (bytes : list Z) : result Parsed DecodeFault :=
  if (length bytes <? NATPMP_MAP_RESPONSE_BYTES)%nat then Err FaultTruncated
  else if (NATPMP_MAP_RESPONSE_BYTES <? length bytes)%nat then Err FaultOversize
  else
    let opcode := byte_at bytes 1 in
    let plain := Z.land opcode (Z.lxor NATPMP_RESPONSE_BIT 0xff) in
    Ok {| p_version_ok := byte_at bytes 0 =? NATPMP_VERSION;
          p_opcode_ok := (Z.land opcode NATPMP_RESPONSE_BIT =? NATPMP_RESPONSE_BIT)
                         && opt_is_some (from_natpmp plain);
          p_result := u16_at bytes 2;
          p_lifetime := u32_at bytes 12;
          p_epoch := u32_at bytes 4;
          p_protocol := plain;
          p_internal_port := u16_at bytes 8;
          p_assigned_port := u16_at bytes 10;
          p_nonce := None;
          p_assigned_ip := None |}.

Definition pcp_class (code : Z) : ServerClass :=
  if code =? 0 then ClassSuccess
  else if code =? 2 then ClassDenied
  else if bool_decide (code ∈ [1; 4; 5; 9]) then ClassUnsupported
  else if code =? 11 then ClassConflict
  else ClassFailed.

Definition natpmp_class (code : Z) : ServerClass :=
  if code =? 0 then ClassSuccess
  else if code =? 2 then ClassDenied
  else if bool_decide (code ∈ [1; 5]) then ClassUnsupported
  else if code =? 4 then ClassConflict
  else ClassFailed.

(** ** Effects *)

Definition blank (protocol : RouterProtocol) : MappingEffect :=
  {| e_protocol := protocol; e_outcome := Failed; e_cleanup := NotCreated; e_error := None;
     e_refusal := None; e_handle := None; e_granted_lifetime_sec := None; e_epoch := None;
     e_assigned_port := None; e_port_changed := false; e_lease_clamped := false;
     e_gateway_rebooted := false; e_requests_sent := 0 |}.

Definition explicit (effect : MappingEffect) (refusal : MappingRefusal) (error : TraversalErrorClass)
  : MappingEffect :=
  effect |> set_outcome Failed |> set_cleanup NotCreated |> set_refusal (Some refusal)
         |> set_error (Some error) |> set_handle None.

Definition lost (protocol : RouterProtocol) (sent : Z) (refusal : MappingRefusal)
    (error : TraversalErrorClass) : MappingEffect :=
  blank protocol |> set_outcome OutcomeCreationUnknown |> set_cleanup CleanupExpiryUnknown
                 |> set_refusal (Some refusal) |> set_error (Some error) |> set_sent sent.

Definition local_refusal (protocol : RouterProtocol) (refusal : MappingRefusal) : MappingEffect :=
  blank protocol
  |> set_refusal (Some refusal)
  |> set_outcome
       match refusal with
       | MissingReservation | ReservationGatewayMismatch | AmbiguousOwnership | LowPort =>
           UnsupportedSafeOwnership
       | BadLifetimeCeiling => UnsupportedFiniteLease
       | _ => Failed
       end
  |> set_cleanup NotCreated.

Definition lease_ceiling (maximum_lease_sec : Z) : option Z :=
  then_some ((MAPPING_REQUESTED_LEASE_SEC <=? maximum_lease_sec)
             && (maximum_lease_sec <=? MAPPING_MAXIMUM_LEASE_SEC)) maximum_lease_sec.

Definition rebooted (previous : option Z) (epoch : Z) : bool :=
  is_some_and previous (fun previous => epoch <? previous).

Definition transport_refusal (error : ControlRefusal) : MappingRefusal :=
  match error with
  | ControlCancelled => MappingCancelled
  | ControlOversize | ControlBounded => MappingMalformed
  | ControlUnsupported | ControlWrongTarget => LostResponse
  end.
Definition transport_error (error : ControlRefusal) : TraversalErrorClass :=
  match error with
  | ControlCancelled | ControlBounded => ErrorTimeout
  | _ => InvalidResponse
  end.

(** ** Ownership *)

Definition authorizes (r : ExclusiveReservation) (g : SelectedGateway) : bool :=
  bool_decide (reserved_gateway r = gateway g).

Definition reservation_new (g : Ipv4Addr) (digest : list Z) : option ExclusiveReservation :=
  if negb (usable_ipv4 g) || bool_decide (digest = zeros 32) then None
  else Some {| reserved_gateway := g; reserved_digest := digest |}.

Definition correlated_handle (parts : MapParts) (external_port lifetime epoch : Z)
    (cleanup_authorized : bool) : OwnedMappingHandle :=
  {| h_protocol := mp_protocol parts; h_port_protocol := mp_port_protocol parts;
     h_internal_port := mp_internal_port parts; h_external_port := external_port;
     h_client := mp_client parts; h_granted_lifetime_sec := lifetime; h_epoch := epoch;
     h_nonce := mp_nonce parts; h_reservation_digest := mp_digest parts;
     h_cleanup_authorized := cleanup_authorized; h_external_address := None |}.

Definition with_external_address (a : option Ipv4Addr) (h : OwnedMappingHandle) : OwnedMappingHandle :=
  {| h_protocol := h_protocol h; h_port_protocol := h_port_protocol h;
     h_internal_port := h_internal_port h; h_external_port := h_external_port h;
     h_client := h_client h; h_granted_lifetime_sec := h_granted_lifetime_sec h; h_epoch := h_epoch h;
     h_nonce := h_nonce h; h_reservation_digest := h_reservation_digest h;
     h_cleanup_authorized := h_cleanup_authorized h; h_external_address := a |}.

Definition delete_packet (h : OwnedMappingHandle) : list Z :=
  match h_protocol h with
  | Pcp => encode_pcp (h_client h) (pcp_number (h_port_protocol h)) (h_internal_port h) (h_external_port h)
             (default (zeros 12) (h_nonce h)) 0
  | NatPmp => encode_natpmp (natpmp_number (h_port_protocol h)) (h_internal_port h) 0 0
  | UpnpIgd => []
  end.

Definition delete_allowed (h : OwnedMappingHandle) (g : SelectedGateway)
    (reservation : option ExclusiveReservation) : bool :=
  if negb (h_cleanup_authorized h) then false
  else
    match h_protocol h, h_reservation_digest h with
    | _, Some digest =>
        is_some_and reservation (fun r => authorizes r g && bool_decide (reserved_digest r = digest))
    | Pcp, None => true
    | _, _ => false
    end.

Section Exchanges.
Context {E : Type} `{!Control E, !UrlApi, !UrlHost}.

(** The effect of a delete before its reply. *)
Definition delete_pending (h : OwnedMappingHandle) (already_sent : Z) : MappingEffect :=
  let effect :=
    blank (h_protocol h) |> set_handle (Some h) |> set_sent already_sent
    |> set_grant (Some (h_epoch h)) (Some (h_granted_lifetime_sec h)) (Some (h_external_port h)) in
  if (h_granted_lifetime_sec h =? 0) || (MAPPING_MAXIMUM_LEASE_SEC <? h_granted_lifetime_sec h)
  then effect |> set_outcome UnsupportedFiniteLease |> set_refusal (Some OverlongOrZeroGrant)
              |> set_error (Some LeaseRefused)
  else effect.

Definition delete_matches (h : OwnedMappingHandle) (parsed : Parsed) : bool :=
  match h_protocol h with
  | Pcp =>
      p_version_ok parsed && p_opcode_ok parsed && bool_decide (p_nonce parsed = h_nonce h)
      && (p_internal_port parsed =? h_internal_port h)
      && (p_protocol parsed =? pcp_number (h_port_protocol h))
  | NatPmp =>
      p_version_ok parsed && p_opcode_ok parsed && (p_internal_port parsed =? h_internal_port h)
      && bool_decide (from_natpmp (p_protocol parsed) = Some (h_port_protocol h))
  | UpnpIgd => false
  end.

Definition decode_reply (protocol : RouterProtocol) (body : list Z) : result Parsed DecodeFault :=
  match protocol with
  | Pcp => decode_pcp body | NatPmp => decode_natpmp body | UpnpIgd => Err FaultMalformed
  end.
Definition reply_class (protocol : RouterProtocol) (code : Z) : ServerClass :=
  match protocol with Pcp => pcp_class code | NatPmp => natpmp_class code | UpnpIgd => ClassFailed end.

(** The reply of the router to a delete. *)
Definition delete_reply (h : OwnedMappingHandle) (previous_epoch : option Z) (effect : MappingEffect)
    (body : list Z) : MappingEffect :=
  match decode_reply (h_protocol h) body with
  | Err _ =>
      effect |> set_outcome OutcomeExpiryUnknown |> set_cleanup CleanupExpiryUnknown
             |> set_refusal (Some Truncated) |> set_error (Some CleanupFailed)
  | Ok parsed =>
      if negb (delete_matches h parsed) || rebooted previous_epoch (p_epoch parsed) then
        let again := rebooted previous_epoch (p_epoch parsed) in
        effect |> set_rebooted again |> set_outcome OutcomeExpiryUnknown |> set_cleanup CleanupExpiryUnknown
               |> set_refusal (Some (if again then Rebooted else AmbiguousOwnership))
               |> set_error (Some CleanupFailed) |> set_epoch (p_epoch parsed)
      else
        let effect := effect |> set_epoch (p_epoch parsed) in
        if bool_decide (reply_class (h_protocol h) (p_result parsed) = ClassSuccess)
           && (p_lifetime parsed =? 0) then
          let effect := effect |> set_cleanup ConfirmedDeleted in
          (if opt_is_none (e_refusal effect) then effect |> set_outcome Succeeded else effect)
          |> set_error None
        else
          effect |> set_cleanup DeleteFailed |> set_refusal (Some Denied) |> set_error (Some CleanupFailed)
  end.

Definition send_delete (h : OwnedMappingHandle) (g : SelectedGateway) (request : list Z)
    (previous_epoch : option Z) (already_sent : Z) : io E MappingEffect :=
  let effect := delete_pending h already_sent in
  stop ← control_cancelled;
  if stop : bool then
    let finite_lease := (1 <=? h_granted_lifetime_sec h)
                        && (h_granted_lifetime_sec h <=? MAPPING_MAXIMUM_LEASE_SEC) in
    let effect :=
      if (already_sent =? 0) && finite_lease
      then effect |> set_outcome Failed |> set_cleanup LeaseExpiryPending
      else effect |> set_outcome OutcomeExpiryUnknown |> set_cleanup CleanupExpiryUnknown in
    mret (effect |> set_refusal (Some MappingCancelled))
  else
    reply ← exchange_with_gateway g (h_protocol h) None request;
    match reply with
    | Err error =>
        mret (effect |> set_outcome OutcomeExpiryUnknown |> set_cleanup CleanupExpiryUnknown
                     |> set_refusal (Some (transport_refusal error)) |> set_error (Some CleanupFailed)
                     |> set_sent (saturating_add u8_max already_sent 1))
    | Ok body =>
        mret (delete_reply h previous_epoch
                (effect |> set_sent (saturating_add u8_max already_sent 1)) body)
    end.

Definition is_finite (ceiling lifetime : Z) : bool := (1 <=? lifetime) && (lifetime <=? ceiling).

Definition adopt_or_refuse (effect : MappingEffect) (parts : MapParts) (parsed : Parsed)
    (g : SelectedGateway) : io E MappingEffect :=
  let contradictory :=
    effect |> set_outcome OutcomeCreationUnknown |> set_cleanup CleanupExpiryUnknown
           |> set_refusal (Some MappingMalformed) |> set_error (Some InvalidResponse) in
  if opt_is_none (p_assigned_ip parsed) && bool_decide (mp_protocol parts = Pcp) then mret contradictory
  else
    let finite := is_finite (mp_ceiling parts) (p_lifetime parsed) in
    if (p_assigned_port parsed =? 0) && finite then mret (contradictory |> set_handle None)
    else if negb finite then
      let authorized := mp_reservation_authorizes_delete parts in
      let h := correlated_handle parts (p_assigned_port parsed) (p_lifetime parsed) (p_epoch parsed)
                 authorized in
      if negb authorized then
        mret (effect |> set_handle (Some h) |> set_outcome UnsupportedSafeOwnership
                     |> set_cleanup CleanupExpiryUnknown |> set_refusal (Some AmbiguousOwnership)
                     |> set_error (Some LeaseRefused))
      else send_delete h g (delete_packet h) (Some (p_epoch parsed)) (e_requests_sent effect)
    else
      let h := with_external_address (p_assigned_ip parsed)
                 (correlated_handle parts (p_assigned_port parsed) (p_lifetime parsed) (p_epoch parsed) true) in
      mret (effect |> set_outcome Succeeded |> set_cleanup LeaseExpiryPending |> set_refusal None
                   |> set_error None |> set_handle (Some h)
                   |> set_flags (negb (p_assigned_port parsed =? mp_internal_port parts))
                        (p_lifetime parsed <? MAPPING_REQUESTED_LEASE_SEC)).

(** The reply of the router to a create, once it matches the request. *)
Definition create_reply (parts : MapParts) (g : SelectedGateway) (class : Parsed -> ServerClass)
    (parsed : Parsed) : io E MappingEffect :=
  let effect := blank (mp_protocol parts) |> set_sent 1
                |> set_grant (Some (p_epoch parsed)) (Some (p_lifetime parsed)) (Some (p_assigned_port parsed)) in
  let gateway_rebooted := rebooted (mp_previous_epoch parts) (p_epoch parsed) in
  if negb (p_version_ok parsed) || negb (p_opcode_ok parsed) then
    let effect := effect |> set_refusal (Some ProtocolUnsupported) |> set_error (Some InvalidResponse) in
    mret ((if p_result parsed =? 0
           then effect |> set_outcome OutcomeCreationUnknown |> set_cleanup CleanupExpiryUnknown
           else effect |> set_outcome Failed |> set_cleanup NotCreated)
          |> set_rebooted gateway_rebooted)
  else
    match class parsed with
    | ClassDenied => mret (explicit effect Denied TokenRefused |> set_rebooted gateway_rebooted)
    | ClassUnsupported =>
        mret (explicit effect ProtocolUnsupported InvalidResponse |> set_rebooted gateway_rebooted)
    | ClassConflict => mret (explicit effect Conflict MappingConflict |> set_rebooted gateway_rebooted)
    | ClassFailed => mret (explicit effect Denied InvalidResponse |> set_rebooted gateway_rebooted)
    | ClassSuccess =>
        if gateway_rebooted && is_finite (mp_ceiling parts) (p_lifetime parsed)
           && negb (p_assigned_port parsed =? 0)
        then
          mret (effect |> set_rebooted true |> set_outcome OutcomeExpiryUnknown
                       |> set_cleanup CleanupExpiryUnknown |> set_refusal (Some Rebooted)
                       |> set_handle (Some (correlated_handle parts (p_assigned_port parsed)
                                              (p_lifetime parsed) (p_epoch parsed) false)))
        else
          effect ← adopt_or_refuse effect parts parsed g;
          mret (effect |> set_rebooted (e_gateway_rebooted effect || gateway_rebooted))
    end.

Definition exchange_create (parts : MapParts) (g : SelectedGateway) (request : list Z)
    (decode : list Z -> result (Parsed * bool) DecodeFault) (class : Parsed -> ServerClass)
  : io E MappingEffect :=
  let protocol := mp_protocol parts in
  stop ← control_cancelled;
  if stop : bool then mret (local_refusal protocol MappingCancelled)
  else
    reply ← exchange_with_gateway g protocol None request;
    match reply with
    | Err error => mret (lost protocol 1 (transport_refusal error) (transport_error error))
    | Ok body =>
        match decode body with
        | Err FaultTruncated => mret (lost protocol 1 Truncated InvalidResponse)
        | Err _ => mret (lost protocol 1 MappingMalformed InvalidResponse)
        | Ok (_, false) => mret (lost protocol 1 ReplayOrMismatch InvalidResponse)
        | Ok (parsed, true) => create_reply parts g class parsed
        end
    end.

Definition pcp_decode (input : PcpMap) (body : list Z) : result (Parsed * bool) DecodeFault :=
  let? parsed := decode_pcp body in
  Ok (parsed, bool_decide (p_nonce parsed = Some (pm_nonce input))
              && (p_protocol parsed =? pcp_number (pm_protocol input))
              && (p_internal_port parsed =? pm_internal_port input)).

Definition pcp_parts (g : SelectedGateway) (input : PcpMap) (ceiling : Z) : MapParts :=
  {| mp_protocol := Pcp; mp_port_protocol := pm_protocol input; mp_internal_port := pm_internal_port input;
     mp_client := pm_local_address input; mp_previous_epoch := pm_previous_epoch input;
     mp_ceiling := ceiling;
     mp_reservation_authorizes_delete :=
       is_some_and (pm_exclusive_reservation input) (fun r => authorizes r g);
     mp_nonce := Some (pm_nonce input);
     mp_digest := reserved_digest <$> opt_filter (fun r => authorizes r g) (pm_exclusive_reservation input) |}.

Definition pcp_request (input : PcpMap) : list Z :=
  encode_pcp (pm_local_address input) (pcp_number (pm_protocol input)) (pm_internal_port input)
    (pm_internal_port input) (pm_nonce input) MAPPING_REQUESTED_LEASE_SEC.

Definition map_pcp (g : SelectedGateway) (input : PcpMap) : io E MappingEffect :=
  match lease_ceiling (pm_maximum_lease_sec input) with
  | None => mret (local_refusal Pcp BadLifetimeCeiling)
  | Some ceiling =>
      if pm_internal_port input <? MAPPING_HIGH_PORT_MIN then mret (local_refusal Pcp LowPort)
      else if negb (usable_ipv4 (pm_local_address input)) then mret (local_refusal Pcp BadClientAddress)
      else if bool_decide (pm_nonce input = zeros 12) then mret (local_refusal Pcp TrivialNonce)
      else exchange_create (pcp_parts g input ceiling) g (pcp_request input) (pcp_decode input)
             (fun parsed => pcp_class (p_result parsed))
  end.

Definition natpmp_decode (input : NatPmpMap) (body : list Z) : result (Parsed * bool) DecodeFault :=
  let? parsed := decode_natpmp body in
  Ok (parsed, (p_protocol parsed =? natpmp_number (nm_protocol input))
              && (p_internal_port parsed =? nm_internal_port input)).

Definition natpmp_parts (input : NatPmpMap) (r : ExclusiveReservation) (ceiling : Z) : MapParts :=
  {| mp_protocol := NatPmp; mp_port_protocol := nm_protocol input;
     mp_internal_port := nm_internal_port input; mp_client := UNSPECIFIED;
     mp_previous_epoch := nm_previous_epoch input; mp_ceiling := ceiling;
     mp_reservation_authorizes_delete := true; mp_nonce := None; mp_digest := Some (reserved_digest r) |}.

Definition natpmp_request (input : NatPmpMap) : list Z :=
  encode_natpmp (natpmp_number (nm_protocol input)) (nm_internal_port input) (nm_internal_port input)
    MAPPING_REQUESTED_LEASE_SEC.

Definition map_nat_pmp (g : SelectedGateway) (input : NatPmpMap) : io E MappingEffect :=
  match lease_ceiling (nm_maximum_lease_sec input) with
  | None => mret (local_refusal NatPmp BadLifetimeCeiling)
  | Some ceiling =>
      if nm_internal_port input <? MAPPING_HIGH_PORT_MIN then mret (local_refusal NatPmp LowPort)
      else
        match nm_exclusive_reservation input with
        | None => mret (local_refusal NatPmp MissingReservation)
        | Some r =>
            if negb (authorizes r g) then mret (local_refusal NatPmp ReservationGatewayMismatch)
            else exchange_create (natpmp_parts input r ceiling) g (natpmp_request input)
                   (natpmp_decode input) (fun parsed => natpmp_class (p_result parsed))
        end
  end.

End Exchanges.

(** ** What a control transport promises

    A transport and its cancellation test always return; an exchange is visible
    in the history, with its answer, exactly when a request left, and the caller
    sees that answer or an error. *)

Definition exchanged : Type := SocketAddr * list Z * result (Z * list Z) ControlRefusal.

Class ControlLaws (E : Type) `{!Control E} := {
  seen : E -> option exchanged;
  cancelled_returns t : exists b es, control_cancelled t = (Some b, es ++ t) /\ omap seen (rev es) = [];
  exchange_returns destination request capacity t :
    exists r es, control_exchange destination request capacity t = (Some r, es ++ t) /\
      ((omap seen (rev es) = [] /\ exists e, r = Err e) \/
       exists r', omap seen (rev es) = [(destination, request, r')] /\ (r = r' \/ exists e, r = Err e))
}.

(** [m] returns a value and exchanges related by [Q]. *)
Definition sends {E A} `{!Control E, !ControlLaws E} (Q : A -> list exchanged -> Prop) (m : io E A) : Prop :=
  forall t, exists a es, m t = (Some a, es ++ t) /\ Q a (omap seen (rev es)).

Section Sends.
Context {E : Type} `{!Control E, !ControlLaws E, !UrlApi, !UrlHost}.

Lemma sends_ret {A} (Q : A -> list exchanged -> Prop) (a : A) : Q a [] -> sends Q (mret a).
Proof. intros Hq t. by exists a, []. Qed.

Lemma sends_bind {A B} (R : A -> list exchanged -> Prop) (Q : B -> list exchanged -> Prop)
    (m : io E A) (k : A -> io E B) :
  sends R m -> (forall a xs, R a xs -> sends (fun b ys => Q b (xs ++ ys)) (k a)) -> sends Q (m ≫= k).
Proof.
  intros Hm Hk t. destruct (Hm t) as (a & es & Ht & Ha).
  destruct (Hk a _ Ha (es ++ t)) as (b & es' & Ht' & Hb).
  exists b, (es' ++ es). split.
  - unfold mbind, io_bind. by rewrite Ht, Ht', app_assoc.
  - by rewrite rev_app_distr, omap_app.
Qed.

Lemma sends_conseq {A} (R Q : A -> list exchanged -> Prop) (m : io E A) :
  sends R m -> (forall a xs, R a xs -> Q a xs) -> sends Q m.
Proof. intros Hm Hq t. destruct (Hm t) as (a & es & Ht & Ha). exists a, es. auto. Qed.

Lemma sends_cancelled (Q : bool -> list exchanged -> Prop) :
  (forall b, Q b []) -> sends Q control_cancelled.
Proof.
  intros Hq t. destruct (cancelled_returns t) as (b & es & Ht & Hs).
  exists b, es. rewrite Hs. auto.
Qed.

(** The body a caller reads from an answer of the router. *)
Definition body_of (capacity : Z) (r : result (Z * list Z) ControlRefusal) : option (list Z) :=
  match r with
  | Ok (n, data) => if n <=? capacity then Some (take (Z.to_nat n) (buffer capacity data)) else None
  | Err _ => None
  end.

Definition control_port (g : SelectedGateway) : SocketAddr :=
  {| sa_ip := gateway g; sa_port := ROUTER_CONTROL_PORT |}.

Lemma sends_control destination request capacity :
  sends (fun r xs =>
    (xs = [] /\ exists e, r = Err e) \/
    exists x, xs = [(destination, request, x)] /\ (r = x \/ exists e, r = Err e))
    (control_exchange destination request capacity).
Proof. intros t. apply exchange_returns. Qed.

Lemma sends_exchange g protocol request :
  protocol <> UpnpIgd ->
  sends (fun r xs =>
    (xs = [] /\ exists e, r = Err e) \/
    exists x, xs = [(control_port g, request, x)] /\
      forall b, r = Ok b -> body_of CONTROL_MAX_BYTES x = Some b)
    (exchange_with_gateway g protocol None request).
Proof.
  intros Hp. unfold exchange_with_gateway.
  eapply sends_bind; [by apply (sends_cancelled (fun _ xs => xs = [])) |]. intros stop ? ->.
  destruct stop; [apply sends_ret; naive_solver |].
  destruct request as [|b request]; [apply sends_ret; naive_solver |].
  destruct (_ <? _); [apply sends_ret; naive_solver |].
  assert (control_destination g protocol None = Ok (control_port g)) as -> by (by destruct protocol).
  eapply sends_bind; [apply sends_control |]. intros [[n data]|e] xs Hr; cbn beta iota.
  - destruct Hr as [(_ & e & ?)|(x & -> & [<-|(e & ?)])]; [done | | done].
    eapply sends_bind; [by apply (sends_cancelled (fun _ xs => xs = [])) |]. intros [] ? ->.
    + apply sends_ret. right. eexists. split; [done |]. intros ? [=].
    + cbn [fst snd]. case Z.ltb_spec; intros Hn; apply sends_ret; right; eexists; (split; [done |]).
      * intros ? [=].
      * intros ? [= <-]. unfold body_of. by rewrite (proj2 (Z.leb_le _ _) Hn).
  - apply sends_ret. destruct Hr as [(-> & _)|(x & -> & _)]; [naive_solver |].
    right. exists x. split; [done |]. intros ? [=].
Qed.

End Sends.

(** The transport of [Gateway], for any router, keeps these promises. *)
#[global] Instance router_control_laws `{!Router} : ControlLaws gw_event.
Proof.
  refine {| seen := fun e => match e with GwExchange d r x => Some (d, r, x) | _ => None end |}.
  - intros t. by exists (on_cancelled t), [GwCancelled (on_cancelled t)].
  - intros d r capacity t. exists (on_exchange t d r), [GwExchange d r (on_exchange t d r)].
    split; [done |]. right. exists (on_exchange t d r). split; [done | by left].
Defined.

(** ** Deletes *)

Lemma pcp_class_success code : pcp_class code = ClassSuccess -> code = 0.
Proof. unfold pcp_class. repeat (case_bool_decide || case Z.eqb_spec); congruence. Qed.
Lemma natpmp_class_success code : natpmp_class code = ClassSuccess -> code = 0.
Proof. unfold natpmp_class. repeat (case_bool_decide || case Z.eqb_spec); congruence. Qed.
Lemma reply_class_success protocol code : reply_class protocol code = ClassSuccess -> code = 0.
Proof. destruct protocol; [apply pcp_class_success | apply natpmp_class_success | done]. Qed.

Section MappingFacts.
Context {E : Type} `{!Control E, !ControlLaws E, !UrlApi, !UrlHost}.

(** The router confirmed this delete: a MAP reply to this request, of this
    mapping, after no reboot, with a success code and no lifetime left. *)
Definition confirmed (h : OwnedMappingHandle) (previous_epoch : option Z) (body : list Z) : Prop :=
  exists parsed,
    decode_reply (h_protocol h) body = Ok parsed /\ delete_matches h parsed = true /\
    rebooted previous_epoch (p_epoch parsed) = false /\ p_result parsed = 0 /\ p_lifetime parsed = 0.

(** What [send_delete] reports of a handle, against what it exchanged. *)
Record delete_safe (g : SelectedGateway) (h : OwnedMappingHandle) (request : list Z)
    (previous_epoch : option Z) (sent : Z) (effect : MappingEffect) (xs : list exchanged) : Prop := {
  ds_sent : xs = [] \/ exists y, xs = [(control_port g, request, y)];
  ds_counted : sent + Z.of_nat (length xs) <= e_requests_sent effect <= sent + 1;
  ds_handle : e_handle effect = Some h;
  ds_created : e_cleanup effect <> NotCreated;
  ds_pending : e_cleanup effect = LeaseExpiryPending -> xs = [] /\ sent = 0;
  ds_succeeded : e_outcome effect = Succeeded -> e_cleanup effect = ConfirmedDeleted;
  ds_confirmed : e_cleanup effect = ConfirmedDeleted ->
    exists y body, xs = [(control_port g, request, y)] /\ body_of CONTROL_MAX_BYTES y = Some body /\
      confirmed h previous_epoch body
}.

Lemma delete_reply_facts h previous_epoch sent body :
  let e := delete_reply h previous_epoch (delete_pending h 0 |> set_sent sent) body in
  e_requests_sent e = sent /\ e_handle e = Some h /\ e_cleanup e <> NotCreated /\
  e_cleanup e <> LeaseExpiryPending /\
  (e_outcome e = Succeeded -> e_cleanup e = ConfirmedDeleted) /\
  (e_cleanup e = ConfirmedDeleted -> confirmed h previous_epoch body).
Proof.
  unfold delete_reply, delete_pending.
  destruct (decode_reply (h_protocol h) body) as [parsed|f] eqn:Hd;
    [| destruct ((h_granted_lifetime_sec h =? 0) || _); naive_solver].
  destruct (negb (delete_matches h parsed) || _) eqn:Hm;
    [destruct ((h_granted_lifetime_sec h =? 0) || _); naive_solver |]. reflect_bool.
  destruct (bool_decide _ && _) eqn:Hc;
    [| destruct ((h_granted_lifetime_sec h =? 0) || _); naive_solver]. reflect_bool.
  match goal with H : bool_decide _ = true |- _ => apply bool_decide_eq_true, reply_class_success in H end.
  assert (confirmed h previous_epoch body) by (by exists parsed).
  destruct ((h_granted_lifetime_sec h =? 0) || _); naive_solver.
Qed.

Lemma send_delete_safe h g request previous_epoch sent :
  h_protocol h <> UpnpIgd -> 0 <= sent <= 1 ->
  sends (delete_safe g h request previous_epoch sent) (send_delete h g request previous_epoch sent).
Proof.
  intros Hp Hsent. unfold send_delete.
  assert (Hs : saturating_add u8_max sent 1 = sent + 1) by (unfold saturating_add, u8_max; lia).
  eapply sends_bind; [by apply (sends_cancelled (fun _ xs => xs = [])) |]. intros [] ? ->.
  - apply sends_ret. unfold delete_pending.
    destruct ((h_granted_lifetime_sec h =? 0) || _), ((sent =? 0) && _) eqn:Hf; reflect_bool;
      split; cbn; try (naive_solver lia).
  - eapply sends_bind; [by apply sends_exchange |]. intros [body|e] xs Hx.
    + destruct Hx as [(_ & e & ?)|(x & -> & Hx)]; [done |].
      apply sends_ret. rewrite app_nil_r. rewrite Hs.
      assert (delete_pending h sent |> set_sent (sent + 1) = delete_pending h 0 |> set_sent (sent + 1)) as ->
        by (unfold delete_pending; by destruct (_ || _)).
      destruct (delete_reply_facts h previous_epoch (sent + 1) body) as (Hn & Hh & Hnc & Hnp & Hsu & Hc).
      split; cbn [app length]; try done; try lia; naive_solver.
    + apply sends_ret. rewrite Hs. destruct Hx as [(-> & _)|(x & -> & _)];
        unfold delete_pending; destruct (_ || _); split; cbn; try lia; naive_solver.
Qed.

(** ** Creates *)

(** The first exchange was answered with a reply that decodes and matches. *)
Definition answered (decode : list Z -> result (Parsed * bool) DecodeFault) (xs : list exchanged)
    (parsed : Parsed) : Prop :=
  exists d r x rest body,
    xs = (d, r, x) :: rest /\ body_of CONTROL_MAX_BYTES x = Some body /\ decode body = Ok (parsed, true).

(** An adopted lease: granted by a matching success reply, finite, and a handle
    that authorises its own cleanup. *)
Definition adopted (parts : MapParts) (decode : list Z -> result (Parsed * bool) DecodeFault)
    (effect : MappingEffect) (xs : list exchanged) : Prop :=
  exists h parsed,
    e_handle effect = Some h /\ e_outcome effect = Succeeded /\ answered decode xs parsed /\
    p_result parsed = 0 /\ p_version_ok parsed = true /\ p_opcode_ok parsed = true /\
    rebooted (mp_previous_epoch parts) (p_epoch parsed) = false /\
    1 <= p_lifetime parsed <= mp_ceiling parts /\ p_assigned_port parsed <> 0 /\
    h = with_external_address (p_assigned_ip parsed)
          (correlated_handle parts (p_assigned_port parsed) (p_lifetime parsed) (p_epoch parsed) true).

(** What a create reports, against what it exchanged. *)
Record create_safe (g : SelectedGateway) (parts : MapParts) (request : list Z)
    (decode : list Z -> result (Parsed * bool) DecodeFault) (effect : MappingEffect)
    (xs : list exchanged) : Prop := {
  cs_sent : xs = [] \/ (exists x, xs = [(control_port g, request, x)]) \/
    (exists x y h, xs = [(control_port g, request, x); (control_port g, delete_packet h, y)] /\
       mp_reservation_authorizes_delete parts = true /\ e_handle effect = Some h /\
       is_finite (mp_ceiling parts) (h_granted_lifetime_sec h) = false);
  cs_counted : Z.of_nat (length xs) <= e_requests_sent effect <= 2;
  cs_pending : e_cleanup effect = LeaseExpiryPending -> adopted parts decode effect xs;
  cs_succeeded : e_outcome effect = Succeeded ->
    e_cleanup effect = LeaseExpiryPending \/ e_cleanup effect = ConfirmedDeleted;
  cs_deleted : e_cleanup effect = ConfirmedDeleted ->
    exists h x y body, xs = [(control_port g, request, x); (control_port g, delete_packet h, y)] /\
      body_of CONTROL_MAX_BYTES y = Some body /\ confirmed h (Some (h_epoch h)) body;
  cs_not_created : e_cleanup effect = NotCreated ->
    xs = [] \/ exists parsed, answered decode xs parsed /\ p_result parsed <> 0
}.

Lemma create_safe_unsent g parts request decode effect :
  0 <= e_requests_sent effect <= 2 -> e_outcome effect <> Succeeded ->
  e_cleanup effect = NotCreated \/ e_cleanup effect = CleanupExpiryUnknown ->
  create_safe g parts request decode effect [].
Proof. intros ?? [Hc|Hc]; split; cbn; rewrite ?Hc; try lia; naive_solver. Qed.

(** An effect that leaves the outcome of the create unknown. *)
Lemma create_safe_unknown g parts request decode effect x :
  e_requests_sent effect = 1 -> e_outcome effect <> Succeeded -> e_cleanup effect = CleanupExpiryUnknown ->
  create_safe g parts request decode effect [(control_port g, request, x)].
Proof. intros ?? Hc. split; cbn; rewrite ?Hc; try lia; naive_solver. Qed.

(** An explicit error of the router. *)
Lemma create_safe_refused g parts request decode effect x body parsed :
  body_of CONTROL_MAX_BYTES x = Some body -> decode body = Ok (parsed, true) -> p_result parsed <> 0 ->
  e_requests_sent effect = 1 -> e_outcome effect <> Succeeded -> e_cleanup effect = NotCreated ->
  create_safe g parts request decode effect [(control_port g, request, x)].
Proof.
  intros Hb Hd Hr ?? Hc. split; cbn; rewrite ?Hc; try lia; [naive_solver .. |].
  intros _. right. exists parsed. split; [| done]. by exists (control_port g), request, x, [], body.
Qed.

Lemma create_safe_rebooted g parts request decode effect b xs :
  create_safe g parts request decode effect xs ->
  create_safe g parts request decode (set_rebooted b effect) xs.
Proof. intros []. by split. Qed.

Lemma adopt_or_refuse_safe parts g request decode parsed x body :
  mp_protocol parts <> UpnpIgd ->
  body_of CONTROL_MAX_BYTES x = Some body -> decode body = Ok (parsed, true) ->
  p_result parsed = 0 -> p_version_ok parsed = true -> p_opcode_ok parsed = true ->
  rebooted (mp_previous_epoch parts) (p_epoch parsed)
    && is_finite (mp_ceiling parts) (p_lifetime parsed) && negb (p_assigned_port parsed =? 0) = false ->
  sends (fun effect ys => create_safe g parts request decode effect ((control_port g, request, x) :: ys))
    (adopt_or_refuse
       (blank (mp_protocol parts) |> set_sent 1
        |> set_grant (Some (p_epoch parsed)) (Some (p_lifetime parsed)) (Some (p_assigned_port parsed)))
       parts parsed g).
Proof.
  intros Hp Hb Hd Hres Hv Ho Hre. unfold adopt_or_refuse.
  destruct (opt_is_none _ && _); [apply sends_ret; by apply create_safe_unknown |].
  destruct ((p_assigned_port parsed =? 0) && _) eqn:Hz; [apply sends_ret; by apply create_safe_unknown |].
  destruct (is_finite _ _) eqn:Hf; cbn [negb].
  - apply sends_ret. rewrite andb_true_r in Hz. rewrite Hz, !andb_true_r in Hre.
    unfold is_finite in Hf. reflect_bool. split; cbn; [naive_solver | lia | | naive_solver | done | done].
    intros _. eexists _, parsed. split_and!; try done; try lia.
    by exists (control_port g), request, x, [], body.
  - destruct (mp_reservation_authorizes_delete parts) eqn:Ha; cbn [negb];
      [| apply sends_ret; by apply create_safe_unknown].
    eapply sends_conseq; [by apply send_delete_safe |]. intros effect ys Hs.
    pose proof (ds_counted _ _ _ _ _ _ _ Hs) as Hn. pose proof (ds_handle _ _ _ _ _ _ _ Hs) as Hh.
    split; cbn [length].
    + destruct (ds_sent _ _ _ _ _ _ _ Hs) as [->|[y ->]]; [naive_solver |].
      right; right. eexists x, y, _. by split_and!.
    + cbn [e_requests_sent set_sent set_grant] in Hn. lia.
    + intros Hpend. by destruct (ds_pending _ _ _ _ _ _ _ Hs Hpend).
    + intros Hsu. right. by apply (ds_succeeded _ _ _ _ _ _ _ Hs).
    + intros Hdel. destruct (ds_confirmed _ _ _ _ _ _ _ Hs Hdel) as (y & b & -> & ? & ?).
      by eexists _, x, y, b.
    + intros Hnc. by destruct (ds_created _ _ _ _ _ _ _ Hs).
Qed.

Lemma create_reply_safe parts g request decode class parsed x body :
  mp_protocol parts <> UpnpIgd -> (forall p, class p = ClassSuccess <-> p_result p = 0) ->
  body_of CONTROL_MAX_BYTES x = Some body -> decode body = Ok (parsed, true) ->
  sends (fun effect ys => create_safe g parts request decode effect ((control_port g, request, x) :: ys))
    (create_reply parts g class parsed).
Proof.
  intros Hp Hclass Hb Hd. unfold create_reply.
  destruct (negb (p_version_ok parsed) || _) eqn:Hv.
  { apply sends_ret. apply create_safe_rebooted. case Z.eqb_spec; intros Hr.
    - by apply create_safe_unknown.
    - by eapply create_safe_refused. }
  reflect_bool. pose proof (Hclass parsed) as Hc. destruct (class parsed);
    try (apply sends_ret; apply create_safe_rebooted; eapply create_safe_refused; naive_solver).
  destruct (rebooted _ _ && _ && _) eqn:Hre; [apply sends_ret; by apply create_safe_unknown |].
  eapply sends_bind; [apply (adopt_or_refuse_safe parts g request decode parsed x body); naive_solver |].
  intros effect ys Hs. apply sends_ret. rewrite app_nil_r. by apply create_safe_rebooted.
Qed.

Lemma exchange_create_safe parts g request decode class :
  mp_protocol parts <> UpnpIgd -> (forall p, class p = ClassSuccess <-> p_result p = 0) ->
  sends (create_safe g parts request decode) (exchange_create parts g request decode class).
Proof.
  intros Hp Hclass. unfold exchange_create.
  eapply sends_bind; [by apply (sends_cancelled (fun _ xs => xs = [])) |]. intros [] ? ->.
  { apply sends_ret. apply create_safe_unsent; cbn; [lia | done | by left]. }
  eapply sends_bind; [by apply sends_exchange |]. intros [body|e] xs Hx.
  - destruct Hx as [(_ & e & ?)|(x & -> & Hx)]; [done |].
    specialize (Hx body eq_refl).
    destruct (decode body) as [[parsed [|]]|[]] eqn:Hd; try (apply sends_ret; by apply create_safe_unknown).
    by eapply create_reply_safe.
  - apply sends_ret. rewrite app_nil_r. destruct Hx as [(-> & _)|(x & -> & _)].
    + apply create_safe_unsent; cbn; [lia | done | by right].
    + by apply create_safe_unknown.
Qed.

(** C30: a PCP mapping is created and owned safely. Whatever the router answers,
    [map_pcp] returns having sent to the gateway's control port at most the one
    create, for sixty seconds, and at most one delete, of a grant outside the
    caller's ceiling and only under an authorising reservation; it reports a
    lease only for a success reply that carries its nonce, protocol and port, with
    a finite lifetime within the ceiling and a non-zero port; it reports a
    confirmed delete only for a matching reply with no lifetime left; and it says
    that nothing was created only if it sent nothing or the router refused. *)
Theorem map_pcp_safe g input :
  sends (create_safe g (pcp_parts g input (default 0 (lease_ceiling (pm_maximum_lease_sec input))))
           (pcp_request input) (pcp_decode input))
    (map_pcp g input).
Proof.
  unfold map_pcp. destruct (lease_ceiling _) as [ceiling|];
    [| apply sends_ret, create_safe_unsent; cbn; [lia | done | by left]].
  do 3 (split_match; [apply sends_ret, create_safe_unsent; cbn; [lia | done | by left] |]).
  apply exchange_create_safe; [done |]. intros p. split; [apply pcp_class_success |].
  intros Hr. unfold pcp_class. by rewrite Hr.
Qed.

(** NAT-PMP sends nothing without an exclusive reservation. [map_nat_pmp]
    exchanges nothing unless the caller holds a reservation for this gateway, and
    then creates and owns its mapping as safely as PCP does. *)
Theorem map_nat_pmp_safe g input :
  sends (fun effect xs =>
    match opt_filter (fun r => authorizes r g) (nm_exclusive_reservation input) with
    | None => xs = [] /\ e_handle effect = None /\ e_cleanup effect = NotCreated
    | Some r => create_safe g (natpmp_parts input r (default 0 (lease_ceiling (nm_maximum_lease_sec input))))
                  (natpmp_request input) (natpmp_decode input) effect xs
    end) (map_nat_pmp g input).
Proof.
  unfold map_nat_pmp. destruct (nm_exclusive_reservation input) as [r|]; cbn [opt_filter].
  - destruct (authorizes r g); cbn [negb].
    + destruct (lease_ceiling _) as [ceiling|];
        [| apply sends_ret, create_safe_unsent; cbn; [lia | done | by left]].
      split_match; [apply sends_ret, create_safe_unsent; cbn; [lia | done | by left] |].
      apply exchange_create_safe; [done |]. intros p. split; [apply natpmp_class_success |].
      intros Hr. unfold natpmp_class. by rewrite Hr.
    + destruct (lease_ceiling _); [split_match |]; by apply sends_ret.
  - destruct (lease_ceiling _); [split_match |]; by apply sends_ret.
Qed.

End MappingFacts.

(** ** Invariants

    What a transport keeps true of the history, the adapters keep true. *)
Section Keeps.
Context {E : Type} `{!Control E, !UrlApi, !UrlHost} (I : list E -> Prop).
Hypothesis cancelled_keeps : keeps I control_cancelled.
Hypothesis exchange_keeps : forall d request capacity, keeps I (control_exchange d request capacity).
#[local] Hint Resolve cancelled_keeps exchange_keeps : keeps.

Lemma exchange_with_gateway_keeps g p location request : keeps I (exchange_with_gateway g p location request).
Proof using All. unfold exchange_with_gateway. solve_keeps. Qed.
#[local] Hint Resolve exchange_with_gateway_keeps : keeps.

Lemma send_delete_keeps h g request previous sent : keeps I (send_delete h g request previous sent).
Proof using All. unfold send_delete. cbv zeta. solve_keeps. Qed.
#[local] Hint Resolve send_delete_keeps : keeps.

Lemma exchange_create_keeps parts g request decode class :
  keeps I (exchange_create parts g request decode class).
Proof using All.
  unfold exchange_create, create_reply, adopt_or_refuse. cbv zeta. solve_keeps.
Qed.
#[local] Hint Resolve exchange_create_keeps : keeps.

Lemma map_pcp_keeps g input : keeps I (map_pcp g input).
Proof using All. unfold map_pcp. solve_keeps. Qed.

Lemma map_nat_pmp_keeps g input : keeps I (map_nat_pmp g input).
Proof using All. unfold map_nat_pmp. solve_keeps. Qed.

End Keeps.

(** ** Adopted leases *)

Section Pending.
Context {E : Type} `{!Control E, !UrlApi, !UrlHost} (I : list E -> Prop) (g : SelectedGateway).
Hypothesis cancelled_keeps : keeps I control_cancelled.
#[local] Hint Resolve cancelled_keeps : keeps.

(** A delete after a create never reports a pending lease. *)
Lemma send_delete_not_pending h request previous :
  hoare (fun _ : list E => True) (send_delete h g request previous 1)
    (fun e _ => e_cleanup e <> LeaseExpiryPending) (fun _ => True).
Proof using.
  intros t _. unfold send_delete, mbind, io_bind. cbv zeta.
  destruct (control_cancelled t) as [[[]|] t']; [by cbn | | done].
  destruct (exchange_with_gateway _ _ _ _ _) as [[[body|e]|] t'']; [| by cbn | done].
  unfold delete_reply, delete_pending. destruct (_ || _); cbn; repeat case_match; done.
Qed.

(** The handle of a lease adopted from these parts. *)
Definition adopted_handle (parts : MapParts) (e : MappingEffect) : Prop :=
  exists port lifetime epoch address,
    e_handle e = Some (with_external_address address (correlated_handle parts port lifetime epoch true)).

(** An invariant that the create request keeps holds when its lease is adopted:
    nothing but that request was exchanged. *)
Lemma exchange_create_pending parts request decode class :
  mp_protocol parts <> UpnpIgd ->
  (forall capacity, keeps I (control_exchange (control_port g) request capacity)) ->
  hoare I (exchange_create parts g request decode class)
    (fun e t => e_cleanup e = LeaseExpiryPending -> I t /\ adopted_handle parts e) (fun _ => True).
Proof using All.
  intros Hp Hx. unfold exchange_create.
  assert (Hother : forall e : MappingEffect, e_cleanup e <> LeaseExpiryPending ->
    hoare I (mret e) (fun e t => e_cleanup e = LeaseExpiryPending -> I t /\ adopted_handle parts e) (fun _ => True))
    by (by intros e He t Ht).
  eapply hoare_bind; [by eapply hoare_conseq; [apply cancelled_keeps | ..] |]. intros []; [by apply Hother |].
  eapply hoare_bind with (R := fun _ => I).
  { eapply hoare_conseq; [apply keeps_elim | done | done | done]. unfold exchange_with_gateway.
    assert (control_destination g (mp_protocol parts) None = Ok (control_port g)) as ->
      by (by destruct (mp_protocol parts)).
    solve_keeps. }
  intros [body|e]; [| by apply Hother].
  destruct (decode body) as [[parsed [|]]|[]]; try (by apply Hother). unfold create_reply. cbv zeta.
  destruct (_ || _); [destruct (_ =? _); by apply Hother |].
  destruct (class parsed); try (by apply Hother).
  destruct (_ && _); [by apply Hother |]. unfold adopt_or_refuse. cbv zeta.
  destruct (opt_is_none _ && _); [by intros t Ht |]. destruct (_ && is_finite _ _); [by intros t Ht |].
  destruct (negb (is_finite _ _)).
  - destruct (negb _); [by intros t Ht |].
    eapply hoare_bind; [by eapply hoare_pre; [apply send_delete_not_pending |] |].
    intros e t He Hc. by destruct He.
  - intros t Ht _. split; [done |]. by eexists _, _, _, _.
Qed.

Lemma map_pcp_pending input :
  (forall capacity, keeps I (control_exchange (control_port g) (pcp_request input) capacity)) ->
  hoare I (map_pcp g input)
    (fun e t => e_cleanup e = LeaseExpiryPending ->
       I t /\ exists ceiling, adopted_handle (pcp_parts g input ceiling) e) (fun _ => True).
Proof using All.
  intros Hx. unfold map_pcp. destruct (lease_ceiling _) as [ceiling|]; [| by intros t Ht].
  do 3 (split_match; [by intros t Ht |]).
  eapply hoare_conseq; [by apply exchange_create_pending | done | | done]. naive_solver.
Qed.

Lemma map_nat_pmp_pending input r :
  nm_exclusive_reservation input = Some r ->
  (forall capacity, keeps I (control_exchange (control_port g) (natpmp_request input) capacity)) ->
  hoare I (map_nat_pmp g input)
    (fun e t => e_cleanup e = LeaseExpiryPending ->
       I t /\ exists ceiling, adopted_handle (natpmp_parts input r ceiling) e) (fun _ => True).
Proof using All.
  intros Hr Hx. unfold map_nat_pmp. rewrite Hr. destruct (lease_ceiling _) as [ceiling|]; [| by intros t Ht].
  do 2 (split_match; [by intros t Ht |]).
  eapply hoare_conseq; [by apply exchange_create_pending | done | | done]. naive_solver.
Qed.

End Pending.

(** ** Packet layout *)

(** The [n] bytes of an integer, as a list of that length with its value. *)
Lemma be_bytes_split n z :
  0 <= z < 256 ^ Z.of_nat n -> exists l, be_bytes n z = l /\ length l = n /\ be_value l = z.
Proof. intros Hz. exists (be_bytes n z). by rewrite be_bytes_length, be_value_bytes_id. Qed.

Ltac list_cases l :=
  repeat match goal with
  | H : length l = O |- _ => destruct l; [clear H | done]
  | H : length l = S _ |- _ => destruct l as [|? l]; [done |]; cbn [length] in H; apply Nat.succ_inj in H
  end.

Lemma encode_pcp_length local protocol internal external nonce lifetime :
  length nonce = 12%nat ->
  length (encode_pcp local protocol internal external nonce lifetime) = PCP_MAP_PACKET_BYTES.
Proof. intros Hn. list_cases nonce. reflexivity. Qed.

(** The PCP request is laid out as its reply is read, and a reflected request
    is not a reply. Reading a request back yields exactly the lifetime, protocol,
    ports and nonce it was built from, with the version accepted and the response
    bit missing, so that echoing a request to its sender never confirms a mapping. *)
Theorem pcp_layout local protocol internal external nonce lifetime :
  length nonce = 12%nat -> is_u16 internal -> is_u16 external -> is_u32 lifetime ->
  let packet := encode_pcp local protocol internal external nonce lifetime in
  length packet = PCP_MAP_PACKET_BYTES /\
  decode_pcp packet =
    Ok {| p_version_ok := true; p_opcode_ok := false; p_result := 0; p_lifetime := lifetime; p_epoch := 0;
          p_protocol := protocol; p_internal_port := internal; p_assigned_port := external;
          p_nonce := Some nonce; p_assigned_ip := None |}.
Proof.
  intros Hn Hi He Hl. unfold is_u16, u16_max, is_u32, u32_max in *.
  destruct (be_bytes_split 2 internal) as (bi & Ei & Li & Vi); [lia |].
  destruct (be_bytes_split 2 external) as (be & Ee & Le & Ve); [lia |].
  destruct (be_bytes_split 4 lifetime) as (bl & El & Ll & Vl); [lia |].
  cbv zeta. unfold encode_pcp. rewrite Ei, Ee, El.
  list_cases bi. list_cases be. list_cases bl. list_cases nonce. destruct local.
  split; [reflexivity |]. rewrite <- Vi, <- Ve, <- Vl. reflexivity.
Qed.

(** The NAT-PMP request is laid out as RFC 6886 has it: version, opcode, ports
    and lifetime at their offsets, in network order, and nothing else set. *)
Theorem natpmp_layout opcode internal external lifetime :
  is_u16 internal -> is_u16 external -> is_u32 lifetime ->
  let packet := encode_natpmp opcode internal external lifetime in
  length packet = NATPMP_MAP_REQUEST_BYTES /\
  byte_at packet 0 = NATPMP_VERSION /\ byte_at packet 1 = opcode /\ u16_at packet 2 = 0 /\
  u16_at packet 4 = internal /\ u16_at packet 6 = external /\ u32_at packet 8 = lifetime.
Proof.
  intros Hi He Hl. unfold is_u16, u16_max, is_u32, u32_max in *.
  destruct (be_bytes_split 2 internal) as (bi & Ei & Li & Vi); [lia |].
  destruct (be_bytes_split 2 external) as (be & Ee & Le & Ve); [lia |].
  destruct (be_bytes_split 4 lifetime) as (bl & El & Ll & Vl); [lia |].
  cbv zeta. unfold encode_natpmp. rewrite Ei, Ee, El.
  list_cases bi. list_cases be. list_cases bl. split_and!; try reflexivity; done.
Qed.

(** ** Examples *)

Definition sample_gateway : SelectedGateway :=
  {| gateway := ipv4 192 168 1 1; interface_index := 2; interface_name := "wlan0" |}.
Definition sample_reservation : ExclusiveReservation :=
  {| reserved_gateway := ipv4 192 168 1 1; reserved_digest := replicate 32 7 |}.
Definition sample_pcp (maximum : Z) : PcpMap :=
  {| pm_local_address := ipv4 192 168 1 20; pm_internal_port := 40000; pm_protocol := MappedUdp;
     pm_nonce := replicate 12 9; pm_maximum_lease_sec := maximum; pm_previous_epoch := None;
     pm_exclusive_reservation := Some sample_reservation |}.

(** A PCP router that answers every MAP request with a lease of [lifetime]
    seconds, and every delete with a lifetime of zero. *)
Definition sample_pcp_reply (lifetime : Z) (request : list Z) : list Z :=
  request |> patch 1 [Z.lor PCP_MAP_OPCODE PCP_RESPONSE_BIT]
          |> patch 4 (if u32_at request 4 =? 0 then zeros 4 else be_bytes 4 lifetime)
          |> patch 8 (be_bytes 4 1000)
          |> patch 44 (ipv4_mapped (ipv4 203 0 113 5)).
Definition sample_router (lifetime : Z) : Router :=
  {| on_cancelled := fun _ => false; on_open := fun _ => false; on_read := fun _ => None;
     on_netlink := fun _ => false; on_recv := fun _ => None;
     on_exchange := fun _ _ request => Ok (60, sample_pcp_reply lifetime request) |}.
Definition sample_hosts : UrlHost :=
  {| url_host_ipv4 := fun _ => None; url_port_or_known_default := fun _ => None |}.

Definition run_sample (lifetime maximum : Z) : option MappingEffect :=
  (@map_pcp gw_event (@router_control (sample_router lifetime)) sample_urls sample_hosts
     sample_gateway (sample_pcp maximum) []).1.

Example map_pcp_adopts :
  e_outcome <$> run_sample 60 120 = Some Succeeded /\
  e_cleanup <$> run_sample 60 120 = Some LeaseExpiryPending.
Proof. vm_compute. by split. Qed.

(** A lease past the caller's ceiling but within 120 seconds is refused and
    deleted, as it should be, but the effect then says that the create succeeded
    and carries no refusal: [send_delete] compares the lifetime with the global
    maximum, not with the ceiling [adopt_or_refuse] refused it for. *)
Example past_ceiling_reported_succeeded :
  e_outcome <$> run_sample 100 60 = Some Succeeded /\
  e_cleanup <$> run_sample 100 60 = Some ConfirmedDeleted /\
  e_refusal <$> run_sample 100 60 = Some None /\
  e_granted_lifetime_sec <$> run_sample 100 60 = Some (Some 100).
Proof. vm_compute. by split_and!. Qed.

Lemma pcp_layout_witness :
  decode_pcp (pcp_request (sample_pcp 120)) =
    Ok {| p_version_ok := true; p_opcode_ok := false; p_result := 0; p_lifetime := 60; p_epoch := 0;
          p_protocol := 17; p_internal_port := 40000; p_assigned_port := 40000;
          p_nonce := Some (replicate 12 9); p_assigned_ip := None |}.
Proof.
  apply (pcp_layout (ipv4 192 168 1 20) 17 40000 40000 (replicate 12 9) 60); done.
Defined.

Lemma natpmp_layout_witness : u32_at (encode_natpmp 1 40000 40000 60) 8 = 60.
Proof. apply (natpmp_layout 1 40000 40000 60); done. Defined.
