(* ===== verification/Xml.v ===== *)
(** * Router documents

    The lexer that the UPnP code has twice, in [network_traversal/mapping/upnp.rs]
    for SOAP replies and in [network_traversal/igd.rs] for device descriptions, and
    the pieces of [str] both use.  The two copies differ in the enumeration of
    their faults and in one length limit, which are arguments here.

    Input is a byte string.  The code steps by characters; as every character it
    looks for is ASCII and no byte of a longer character is, stepping by bytes
    visits the same positions. *)
From Stdlib Require Import Ascii.
From stdpp Require Import prelude strings pretty.
From S2P Require Import Prelude Wire.

Local Open Scope Z_scope.

(** ** Strings *)

(** [str::split] by a non-empty string: every piece but the last ends at a
    separator, so the length bounds their number. *)
Fixpoint split_str_from (fuel : nat) (sep s : string) : list string :=
  match fuel with
  | O => [s]
  | S fuel =>
      match split_once sep s with
      | Some (before, after) => before :: split_str_from fuel sep after
      | None => [s]
      end
  end.
Definition split_str (sep s : string) : list string := split_str_from (String.length s) sep s.

Definition rsplit_once (sep s : string) : option (string * string) :=
  '(after, before) ← split_once (str_rev sep) (str_rev s); Some (str_rev before, str_rev after).

(** [&s[n..]]. *)
Fixpoint str_drop (n : nat) (s : string) : string :=
  match n, s with S n, String _ s => str_drop n s | _, _ => s end.

Definition eq_ignore_ascii_case (a b : string) : bool := to_ascii_lowercase a =s to_ascii_lowercase b.

Definition is_ascii_whitespace (a : ascii) : bool :=
  byte_is 32 a || byte_is 9 a || byte_is 10 a || byte_is 12 a || byte_is 13 a.
Definition is_ascii_alphabetic (a : ascii) : bool := is_ascii_uppercase a || is_ascii_lowercase a.

Definition crlf : string := of_bytes [ascii_of_N 13; ascii_of_N 10].
Definition quote : string := String (ascii_of_N 34) EmptyString.
Definition apostrophe : string := String (ascii_of_N 39) EmptyString.

Definition str_octets (s : string) : list Z := map byte (bytes s).
Definition octets_str (l : list Z) : string := of_bytes (map (fun z => ascii_of_N (Z.to_N z)) l).

(** [Display] of an address, and [Ipv4Addr::from_str]: four decimal octets of at
    most three digits, without leading zeros. *)
Definition ipv4_str (a : Ipv4Addr) : string :=
  pretty (oct0 a) +:+ "." +:+ pretty (oct1 a) +:+ "." +:+ pretty (oct2 a) +:+ "." +:+ pretty (oct3 a).
Definition parse_octet (s : string) : option Z :=
  if (3 <? len s) || (starts_with "0" s && (1 <? len s)) then None
  else opt_filter (fun z => z <=? 255) (parse_digits s).
Definition parse_ipv4 (s : string) : option Ipv4Addr :=
  match map parse_octet (split (byte_is 46) s) with
  | [Some a; Some b; Some c; Some d] => Some (ipv4 a b c d)
  | _ => None
  end.

(** The longest prefix of bytes that satisfy [p]. *)
Fixpoint span (p : ascii -> bool) (s : string) : string * string :=
  match s with
  | String a r => if p a then let '(taken, rest) := span p r in (String a taken, rest) else (EmptyString, s)
  | EmptyString => (EmptyString, EmptyString)
  end.

(** ** The lexer *)

Record Faults (E : Type) := { malformed : E; entity : E; bounded_fault : E }.
Arguments malformed {E} _.
Arguments entity {E} _.
Arguments bounded_fault {E} _.

Definition skip_whitespace (s : string) : string := (span is_ascii_whitespace s).2.

Definition local_name (name : string) : string :=
  match rsplit_once ":" name with Some (_, local) => local | None => name end.

Definition name_start (a : ascii) : bool := is_ascii_alphabetic a || byte_is 95 a.
Definition name_char (a : ascii) : bool :=
  is_ascii_alphanumeric a || byte_is 95 a || byte_is 45 a || byte_is 46 a || byte_is 58 a.

Definition NAME_MAX : Z := 64.

Section Lexer.
Context {E : Type} (faults : Faults E).

Definition read_name (s : string) : result (string * string) E :=
  match s with
  | EmptyString => Err (malformed faults)
  | String first r =>
      if negb (name_start first) then Err (malformed faults)
      else
        let '(taken, rest) := span name_char r in
        let name := String first taken in
        if str_is_empty name || (NAME_MAX <? len name) then Err (malformed faults) else Ok (name, rest)
  end.

Definition entity_char (token : string) : option string :=
  if token =s "&amp;" then Some "&"
  else if token =s "&lt;" then Some "<"
  else if token =s "&gt;" then Some ">"
  else if token =s "&quot;" then Some quote
  else if token =s "&apos;" then Some apostrophe
  else None.

(** Every turn takes at least one byte of [raw]. *)
Fixpoint decode_text_from (fuel : nat) (raw output : string) (discard : bool) : result string E :=
  match fuel, raw with
  | _, EmptyString => Ok output
  | O, _ => Err (malformed faults)
  | S fuel, String a r =>
      if negb (byte_is 38 a) then
        decode_text_from fuel r (if discard then output else output +:+ String a EmptyString) discard
      else
        match split_once ";" raw with
        | None => Err (entity faults)
        | Some (before, after) =>
            if 8 <? len before then Err (entity faults)
            else
              match entity_char (before +:+ ";") with
              | None => Err (entity faults)
              | Some c => decode_text_from fuel after (if discard then output else output +:+ c) discard
              end
        end
  end.
Definition decode_text (raw output : string) (discard : bool) : result string E :=
  decode_text_from (String.length raw) raw output discard.

(** Up to the closing quote: the raw value and the rest after the quote. *)
Fixpoint attribute_end (q : ascii) (s : string) : result (string * string) E :=
  match s with
  | EmptyString => Err (malformed faults)
  | String a r =>
      if byte a =? byte q then Ok (EmptyString, r)
      else if byte_is 60 a then Err (malformed faults)
      else let? taken := attribute_end q r in Ok (String a taken.1, taken.2)
  end.

Definition read_attribute_value (limit : option Z) (s : string) : result string E :=
  match s with
  | EmptyString => Err (malformed faults)
  | String q r =>
      if negb (byte_is 34 q) && negb (byte_is 39 q) then Err (malformed faults)
      else
        let? value := attribute_end q r in
        if is_some_and limit (fun limit => limit <? len value.1) then Err (bounded_fault faults)
        else let? _ := decode_text value.1 EmptyString true in Ok value.2
  end.

(** [spare] attributes may still follow. Returns whether the tag closes itself. *)
Fixpoint read_attributes (limit : option Z) (spare : nat) (s : string) : result (bool * string) E :=
  let rest := skip_whitespace s in
  match strip_prefix "/>" rest with
  | Some rest => Ok (true, rest)
  | None =>
      match strip_prefix ">" rest with
      | Some rest => Ok (false, rest)
      | None =>
          if str_is_empty rest then Err (malformed faults)
          else
            match spare with
            | O => Err (bounded_fault faults)
            | S spare =>
                let? name := read_name rest in
                match strip_prefix "=" (skip_whitespace name.2) with
                | None => Err (malformed faults)
                | Some rest =>
                    let? rest := read_attribute_value limit (skip_whitespace rest) in
                    read_attributes limit spare rest
                end
            end
      end
  end.

Definition skip_comment (s : string) : result string E :=
  match split_once "-->" s with
  | None => Err (malformed faults)
  | Some (before, after) =>
      if (len before <? 4) || contains "--" (str_drop 4 before) then Err (malformed faults) else Ok after
  end.

Definition skip_declaration (s : string) : result string E :=
  if negb (starts_with "<?xml" s) then Err (malformed faults)
  else
    match split_once "?>" s with
    | None => Err (malformed faults)
    | Some (before, after) => if contains "<" (str_drop 2 before) then Err (malformed faults) else Ok after
    end.

(** The two tags a document consists of; the parsers give them their meaning. *)
Inductive token :=
| TokenText (raw : string)
| TokenComment
| TokenStart (name : string) (self_closing : bool)
| TokenEnd (name : string).

Definition MAX_ATTRIBUTES : nat := 16.

Definition next_token (limit : option Z) (s : string) : result (token * string) E :=
  if negb (starts_with "<" s) then
    let '(raw, rest) := span (fun a => negb (byte_is 60 a)) s in Ok (TokenText raw, rest)
  else if starts_with "<!--" s then let? rest := skip_comment s in Ok (TokenComment, rest)
  else if starts_with "<![" s then Err (malformed faults)
  else if starts_with "<!" s then Err (entity faults)
  else if starts_with "<?" s then Err (malformed faults)
  else if starts_with "</" s then
    let? name := read_name (str_drop 2 s) in
    match strip_prefix ">" (skip_whitespace name.2) with
    | None => Err (malformed faults)
    | Some rest => Ok (TokenEnd name.1, rest)
    end
  else
    let? name := read_name (str_drop 1 s) in
    let? attributes := read_attributes limit MAX_ATTRIBUTES name.2 in
    Ok (TokenStart name.1 attributes.1, attributes.2).

(** The byte order mark, white space and declaration before the document. *)
Definition document_start (s : string) : result string E :=
  let s := default s (strip_prefix (utf8 [239; 187; 191]%N) s) in
  let s := skip_whitespace s in
  if starts_with "<?" s then let? rest := skip_declaration s in Ok (skip_whitespace rest) else Ok s.

(** The parsers' main loop: [None] is out of fuel. *)
Fixpoint run_tokens {S : Type} (step : token -> S -> result S E) (limit : option Z) (fuel : nat)
    (s : string) (st : S) : option (result S E) :=
  match s, fuel with
  | EmptyString, _ => Some (Ok st)
  | _, O => None
  | _, Datatypes.S fuel =>
      match next_token limit s with
      | Err e => Some (Err e)
      | Ok (tok, rest) =>
          match step tok st with
          | Err e => Some (Err e)
          | Ok st => run_tokens step limit fuel rest st
          end
      end
  end.

End Lexer.

(** * Properties *)

Definition shorter (r s : string) : Prop := (String.length r < String.length s)%nat.
Definition not_longer (r s : string) : Prop := (String.length r <= String.length s)%nat.

Lemma append_length s1 s2 : String.length (s1 +:+ s2) = (String.length s1 + String.length s2)%nat.
Proof. pose proof (len_app s1 s2). unfold len in *. lia. Qed.

Lemma strip_prefix_length p s r :
  strip_prefix p s = Some r -> String.length s = (String.length p + String.length r)%nat.
Proof. intros Hs. apply strip_prefix_Some in Hs as ->. by rewrite append_length. Qed.

Lemma split_once_shorter sep s before after :
  sep <> EmptyString -> split_once sep s = Some (before, after) -> shorter after s.
Proof.
  intros Hsep ->%split_once_Some. unfold shorter. rewrite !append_length.
  destruct sep; [done |]. cbn. lia.
Qed.

Lemma span_length p s : String.length s = (String.length (span p s).1 + String.length (span p s).2)%nat.
Proof. induction s as [|a s IH]; [done |]. cbn. destruct (p a); [| done]. destruct (span p s). cbn in *. lia. Qed.

Lemma skip_whitespace_length s : not_longer (skip_whitespace s) s.
Proof. unfold skip_whitespace, not_longer. pose proof (span_length is_ascii_whitespace s). lia. Qed.

Lemma str_drop_length n s : not_longer (str_drop n s) s.
Proof. revert s. unfold not_longer. induction n as [|n IH]; intros [|a s]; cbn; auto with lia. Qed.

Section LexerFacts.
Context {E : Type} (faults : Faults E).

Lemma read_name_shorter s name rest : read_name faults s = Ok (name, rest) -> shorter rest s.
Proof.
  unfold read_name, shorter. destruct s as [|a s]; [done |]. destruct (negb _); [done |].
  pose proof (span_length name_char s). destruct (span name_char s). cbn in *.
  destruct (_ <? _); [done |]. intros [= <- <-]. lia.
Qed.

Lemma attribute_end_shorter q s raw rest : attribute_end faults q s = Ok (raw, rest) -> shorter rest s.
Proof.
  revert raw rest. unfold shorter. induction s as [|a s IH]; intros raw rest; cbn; [done |].
  destruct (_ =? _); [intros [= <- <-]; cbn; lia |]. destruct (byte_is 60 a); [done |].
  destruct (attribute_end faults q s) as [[r0 r]|]; [| done]. cbn. intros [= <- <-].
  specialize (IH _ _ eq_refl). lia.
Qed.

Lemma read_attribute_value_shorter limit s rest :
  read_attribute_value faults limit s = Ok rest -> shorter rest s.
Proof.
  unfold read_attribute_value. destruct s as [|q s]; [done |]. destruct (_ && _); [done |].
  destruct (attribute_end faults q s) as [[raw r]|] eqn:He; [| done]. cbn [fst snd].
  destruct (is_some_and _ _); [done |]. destruct (decode_text _ _ _ _); [| done]. intros [= <-].
  apply attribute_end_shorter in He. unfold shorter in *. cbn. lia.
Qed.

Lemma read_attributes_shorter limit n : forall s closing rest,
  read_attributes faults limit n s = Ok (closing, rest) -> shorter rest s.
Proof.
  induction n as [|n IH]; intros s closing rest; cbn [read_attributes];
    pose proof (skip_whitespace_length s) as Hw; unfold shorter, not_longer in *;
    destruct (strip_prefix "/>" _) as [r|] eqn:Ha;
    try (intros [= <- <-]; apply strip_prefix_length in Ha; cbn in Ha; lia);
    destruct (strip_prefix ">" _) as [r|] eqn:Hb;
    try (intros [= <- <-]; apply strip_prefix_length in Hb; cbn in Hb; lia);
    destruct (str_is_empty _); try done.
  destruct (read_name faults _) as [[name r]|] eqn:Hn; [| done]. apply read_name_shorter in Hn. cbn [snd].
  destruct (strip_prefix "=" _) as [r'|] eqn:He; [| done]. apply strip_prefix_length in He.
  pose proof (skip_whitespace_length r). pose proof (skip_whitespace_length r').
  destruct (read_attribute_value _ _ _) as [r''|] eqn:Hv; [| done]. apply read_attribute_value_shorter in Hv.
  intros Hr. apply IH in Hr. unfold shorter, not_longer in *. cbn in *. lia.
Qed.

(** Fuel beyond the length of the text changes nothing. *)
Lemma decode_text_fuel discard fuel : forall raw output,
  (String.length raw <= fuel)%nat ->
  decode_text_from faults fuel raw output discard = decode_text faults raw output discard.
Proof.
  unfold decode_text. induction fuel as [fuel IH] using lt_wf_ind; intros [|a raw] output Hl;
    [by destruct fuel |]. cbn in Hl. destruct fuel as [|fuel]; [lia |]. cbn [decode_text_from String.length].
  destruct (negb (byte_is 38 a)).
  - by rewrite (IH fuel) by lia.
  - destruct (split_once ";" (String a raw)) as [[before after]|] eqn:Hs; [| done].
    apply split_once_shorter in Hs; [| done]. unfold shorter in Hs. cbn in Hs.
    destruct (8 <? len before); [done |]. destruct (entity_char _); [| done].
    rewrite (IH fuel) by lia. symmetry. apply IH; lia.
Qed.

(** Every token takes at least one byte. *)
Lemma next_token_shorter limit s tok rest :
  s <> EmptyString -> next_token faults limit s = Ok (tok, rest) -> shorter rest s.
Proof.
  intros Hs. unfold next_token. destruct (negb (starts_with "<" s)) eqn:Hlt.
  { pose proof (span_length (fun a => negb (byte_is 60 a)) s) as Hl.
    destruct s as [|a s]; [done |]. unfold shorter. destruct (byte_is 60 a) eqn:Ha.
    - exfalso. unfold byte_is in Ha. apply Z.eqb_eq in Ha.
      assert (a = "<"%char) as ->; [| done].
      rewrite <- (ascii_N_embedding a), <- (ascii_N_embedding "<"%char). f_equal.
      unfold byte in Ha. cbn. lia.
    - cbn [span] in *. rewrite Ha in *. cbn [negb] in *. destruct (span _ s) as [raw r]. cbn [fst snd] in Hl.
      cbn in Hl. intros [= <- <-]. cbn. lia. }
  destruct (starts_with "<!--" s).
  { unfold skip_comment. destruct (split_once "-->" s) as [[b a]|] eqn:Hc; [| done].
    destruct (_ || _); [done |]. intros [= <- <-]. by apply (split_once_shorter "-->" s b a). }
  destruct (starts_with "<![" s), (starts_with "<!" s), (starts_with "<?" s); try done.
  destruct (starts_with "</" s).
  - destruct (read_name faults _) as [[name r]|] eqn:Hn; [| done]. apply read_name_shorter in Hn. cbn [fst snd].
    destruct (strip_prefix ">" _) as [r'|] eqn:He; [| done]. apply strip_prefix_length in He.
    pose proof (skip_whitespace_length r). pose proof (str_drop_length 2 s).
    intros [= <- <-]. unfold shorter, not_longer in *. cbn in He. lia.
  - destruct (read_name faults _) as [[name r]|] eqn:Hn; [| done]. apply read_name_shorter in Hn. cbn [fst snd].
    destruct (read_attributes _ _ _ _) as [[c r']|] eqn:Ha; [| done]. apply read_attributes_shorter in Ha.
    pose proof (str_drop_length 1 s). intros [= <- <-]. unfold shorter, not_longer in *. cbn in *. lia.
Qed.

(** With the length of the document as fuel the main loop returns, and more fuel
    changes nothing. *)
Lemma run_tokens_total {S} (step : token -> S -> result S E) limit fuel : forall s st,
  (String.length s <= fuel)%nat ->
  exists r, run_tokens faults step limit fuel s st = Some r /\
    forall more, (fuel <= more)%nat -> run_tokens faults step limit more s st = Some r.
Proof.
  induction fuel as [|fuel IH]; intros [|a s] st Hs; cbn in Hs; try lia.
  - exists (Ok st). split; [done |]. by intros [|].
  - exists (Ok st). split; [done |]. by intros [|].
  - cbn [run_tokens]. destruct (next_token faults limit (String a s)) as [[tok rest]|e] eqn:Hn.
    + apply next_token_shorter in Hn as Hr; [| done]. unfold shorter in Hr. cbn in Hr.
      destruct (step tok st) as [st'|e] eqn:Hst.
      * destruct (IH rest st') as (r & Hr' & Hm); [lia |]. exists r. split; [done |].
        intros [|more] Hmore; [lia |]. cbn [run_tokens]. rewrite Hn, Hst. apply Hm. lia.
      * exists (Err e). split; [done |]. intros [|more] Hmore; [lia |]. cbn [run_tokens]. by rewrite Hn, Hst.
    + exists (Err e). split; [done |]. intros [|more] Hmore; [lia |]. cbn [run_tokens]. by rewrite Hn.
Qed.

(** What every step keeps holds at the end of the document. *)
Lemma run_tokens_keeps {S} (I : S -> Prop) (step : token -> S -> result S E) limit :
  (forall tok st st', I st -> step tok st = Ok st' -> I st') ->
  forall fuel s st st', I st -> run_tokens faults step limit fuel s st = Some (Ok st') -> I st'.
Proof.
  intros Hstep fuel. induction fuel as [|fuel IH]; intros [|a s] st st' HI; cbn [run_tokens]; try done;
    try by intros [= <-].
  destruct (next_token faults limit (String a s)) as [[tok rest]|]; [| done].
  destruct (step tok st) as [st1|] eqn:Hst; [| done]. apply IH. by eapply Hstep.
Qed.

End LexerFacts.
