(* ===== verification/Upnp.v ===== *)
(** * Port mapping over UPnP IGD

    [network_traversal/mapping/upnp.rs]: the SOAP requests, the reader of the
    router's replies, and the probe, create, confirm and delete of one mapping;
    and [delete_owned_mapping] of [mapping.rs], which dispatches on the protocol. *)
From Stdlib Require Import Ascii.
From stdpp Require Import prelude strings pretty.
From S2P Require Import Prelude Utf8 Bridge World RestartPolicy Wire Gateway Evidence Mapping Xml.

Local Open Scope Z_scope.

(** ** The control descriptor of [igd.rs] *)

Inductive IgdServiceKind := WanIpConnection | WanPppConnection.

Record IgdControlDescriptor := {
  igd_service : IgdServiceKind;
  igd_gateway : Ipv4Addr;
  igd_port : Z;
  path_and_query : string
}.

Definition control_target (d : IgdControlDescriptor) : string :=
  "http://" +:+ ipv4_str (igd_gateway d) +:+ ":" +:+ pretty (igd_port d) +:+ path_and_query d.

Definition UPNP_ABSENT : Z := 714.
Definition UPNP_CONFLICT : Z := 718.
Definition UPNP_PERMANENT_ONLY : Z := 725.
Definition SOAP_FIELD_MAX : Z := 64.
Definition SOAP_ATTRIBUTE_MAX : Z := 512.
Definition IGD_XML_MAX_DEPTH : Z := 16.

Record UpnpMap := {
  um_descriptor : IgdControlDescriptor;
  um_local_address : Ipv4Addr;
  um_internal_port : Z;
  um_protocol : MappedPortProtocol;
  um_maximum_lease_sec : Z;
  um_exclusive_reservation : option ExclusiveReservation
}.

(** ** Replies *)

Inductive ReadFault := ReadRedirect | ReadMalformed | ReadBounded.
Inductive ParseFault := ParseMalformed | ParseEntity | ParseBounded.
Inductive ResponseKind := ResponseGet | ResponseAdd | ResponseDelete | ResponseFault.

#[global] Instance response_kind_eq_dec : EqDecision ResponseKind.
Proof. solve_decision. Defined.

Record SoapView := {
  v_response : option ResponseKind;
  v_error_code : option Z;
  v_internal_client : option Ipv4Addr;
  v_internal_port : option Z;
  v_lease_sec : option Z;
  v_enabled : option bool;
  v_protocol : option MappedPortProtocol
}.

Definition empty_view : SoapView :=
  {| v_response := None; v_error_code := None; v_internal_client := None; v_internal_port := None;
     v_lease_sec := None; v_enabled := None; v_protocol := None |}.

(** The headers after the status line: their number so far and the length. *)
Fixpoint soap_headers (lines : list string) (headers : Z) (content_length : option Z)
  : result (option Z) ReadFault :=
  match lines with
  | [] => Ok content_length
  | line :: lines =>
      let headers := headers + 1 in
      if (32 <? headers) || starts_with " " line || starts_with (String (ascii_of_N 9) EmptyString) line
         || str_is_empty line
      then Err ReadMalformed
      else
        match split_once ":" line with
        | None => Err ReadMalformed
        | Some (name, value) =>
            if eq_ignore_ascii_case name "Transfer-Encoding"
               && negb (eq_ignore_ascii_case (trim value) "identity")
            then Err ReadMalformed
            else if eq_ignore_ascii_case name "Content-Length" then
              if opt_is_some content_length then Err ReadMalformed
              else
                let? n := ok_or ReadMalformed (parse_unsigned u64_max (trim value)) in
                soap_headers lines headers (Some n)
            else soap_headers lines headers content_length
        end
  end.

(** The status code of an HTTP/1 status line. *)
Definition soap_status (status : string) : result Z ReadFault :=
  match split_whitespace status with
  | version :: code :: _ =>
      if negb (starts_with "HTTP/1." version) then Err ReadMalformed
      else ok_or ReadMalformed (parse_unsigned u16_max code)
  | _ => Err ReadMalformed
  end.

Definition parse_http (octets : list Z) : result string ReadFault :=
  if bool_decide (0 ∈ octets) then Err ReadMalformed
  else
    let text := octets_str octets in
    if negb (valid_utf8 text) then Err ReadMalformed
    else
      let? parts := ok_or ReadMalformed (split_once (crlf +:+ crlf) text) in
      let '(head, body) := parts in
      match split_str crlf head with
      | [] => Err ReadMalformed
      | status :: lines =>
          let? code := soap_status status in
          if bool_decide (code ∈ [301; 302; 303; 307; 308]) then Err ReadRedirect
          else if negb (code =? 200) && negb (code =? 500) then Err ReadMalformed
          else
            let? content_length := soap_headers lines 0 None in
            if is_some_and content_length (fun n => UPNP_SOAP_MAX_BYTES <? n)
               || (UPNP_SOAP_MAX_BYTES <? len body)
            then Err ReadBounded
            else if is_some_and content_length (fun n => negb (len body =? n)) then Err ReadMalformed
            else Ok body
      end.

Definition soap_faults : Faults ParseFault :=
  {| malformed := ParseMalformed; entity := ParseEntity; bounded_fault := ParseBounded |}.

(** [XmlParser] without its input: that is the rest of the document. *)
Record SoapParser := {
  x_depth : Z;
  x_stack : list string;
  x_buffer : string;
  x_capturing : option string;
  x_view : SoapView
}.

Definition response_kind (local : string) : option ResponseKind :=
  if local =s "GetSpecificPortMappingEntryResponse" then Some ResponseGet
  else if local =s "AddPortMappingResponse" then Some ResponseAdd
  else if local =s "DeletePortMappingResponse" then Some ResponseDelete
  else if local =s "Fault" then Some ResponseFault
  else None.

Definition CAPTURED : list string :=
  ["errorCode"; "NewInternalClient"; "NewInternalPort"; "NewLeaseDuration"; "NewEnabled"; "NewProtocol"].

Definition with_response (k : ResponseKind) (v : SoapView) : SoapView :=
  {| v_response := Some k; v_error_code := v_error_code v; v_internal_client := v_internal_client v;
     v_internal_port := v_internal_port v; v_lease_sec := v_lease_sec v; v_enabled := v_enabled v;
     v_protocol := v_protocol v |}.

Definition note_element (local : string) (x : SoapParser) : result SoapParser ParseFault :=
  let? x :=
    match response_kind local with
    | Some kind =>
        if opt_is_some (v_response (x_view x)) then Err ParseMalformed
        else Ok {| x_depth := x_depth x; x_stack := x_stack x; x_buffer := x_buffer x;
                   x_capturing := x_capturing x; x_view := with_response kind (x_view x) |}
    | None => Ok x
    end in
  if bool_decide (local ∈ CAPTURED) then
    if opt_is_some (x_capturing x) then Err ParseMalformed
    else Ok {| x_depth := x_depth x; x_stack := x_stack x; x_buffer := EmptyString;
               x_capturing := Some local; x_view := x_view x |}
  else Ok x.

(** The captured text of one element, stored once. *)
Definition commit_field (local text : string) (v : SoapView) : result SoapView ParseFault :=
  if local =s "errorCode" then
    if opt_is_some (v_error_code v) || str_is_empty text || (5 <? len text)
       || negb (bytes_all is_ascii_digit text)
    then Err ParseMalformed
    else
      let? code := ok_or ParseMalformed (parse_unsigned u16_max text) in
      Ok {| v_response := v_response v; v_error_code := Some code; v_internal_client := v_internal_client v;
            v_internal_port := v_internal_port v; v_lease_sec := v_lease_sec v; v_enabled := v_enabled v;
            v_protocol := v_protocol v |}
  else if local =s "NewInternalClient" then
    if opt_is_some (v_internal_client v) then Err ParseMalformed
    else
      let? client := ok_or ParseMalformed (parse_ipv4 text) in
      Ok {| v_response := v_response v; v_error_code := v_error_code v; v_internal_client := Some client;
            v_internal_port := v_internal_port v; v_lease_sec := v_lease_sec v; v_enabled := v_enabled v;
            v_protocol := v_protocol v |}
  else if local =s "NewInternalPort" then
    if opt_is_some (v_internal_port v) then Err ParseMalformed
    else
      let? port := ok_or ParseMalformed (parse_unsigned u16_max text) in
      Ok {| v_response := v_response v; v_error_code := v_error_code v;
            v_internal_client := v_internal_client v; v_internal_port := Some port;
            v_lease_sec := v_lease_sec v; v_enabled := v_enabled v; v_protocol := v_protocol v |}
  else if local =s "NewLeaseDuration" then
    if opt_is_some (v_lease_sec v) then Err ParseMalformed
    else
      let? lease := ok_or ParseMalformed (parse_unsigned u32_max text) in
      Ok {| v_response := v_response v; v_error_code := v_error_code v;
            v_internal_client := v_internal_client v; v_internal_port := v_internal_port v;
            v_lease_sec := Some lease; v_enabled := v_enabled v; v_protocol := v_protocol v |}
  else if local =s "NewEnabled" then
    if opt_is_some (v_enabled v) then Err ParseMalformed
    else
      let? enabled := if text =s "1" then Ok true else if text =s "0" then Ok false else Err ParseMalformed in
      Ok {| v_response := v_response v; v_error_code := v_error_code v;
            v_internal_client := v_internal_client v; v_internal_port := v_internal_port v;
            v_lease_sec := v_lease_sec v; v_enabled := Some enabled; v_protocol := v_protocol v |}
  else if local =s "NewProtocol" then
    if opt_is_some (v_protocol v) then Err ParseMalformed
    else
      let? protocol :=
        if text =s "TCP" then Ok MappedTcp else if text =s "UDP" then Ok MappedUdp else Err ParseMalformed in
      Ok {| v_response := v_response v; v_error_code := v_error_code v;
            v_internal_client := v_internal_client v; v_internal_port := v_internal_port v;
            v_lease_sec := v_lease_sec v; v_enabled := v_enabled v; v_protocol := Some protocol |}
  else Ok v.

Definition commit (local : string) (x : SoapParser) : result SoapParser ParseFault :=
  let text := trim (x_buffer x) in
  if SOAP_FIELD_MAX <? len text then Err ParseBounded
  else
    let? view := commit_field local text (x_view x) in
    Ok {| x_depth := x_depth x; x_stack := x_stack x; x_buffer := EmptyString; x_capturing := None;
          x_view := view |}.

(** [if self.capturing.as_deref() == Some(local) { self.commit(local)? }]. *)
Definition commit_if (local : string) (x : SoapParser) : result SoapParser ParseFault :=
  if bool_decide (x_capturing x = Some local) then commit local x else Ok x.

Definition start_tag (name : string) (self_closing : bool) (x : SoapParser) : result SoapParser ParseFault :=
  let local := local_name name in
  let? x := note_element local x in
  if self_closing then commit_if local x
  else
    let depth := x_depth x + 1 in
    if IGD_XML_MAX_DEPTH <? depth then Err ParseBounded
    else Ok {| x_depth := depth; x_stack := local :: x_stack x; x_buffer := x_buffer x;
               x_capturing := x_capturing x; x_view := x_view x |}.

Definition end_tag (name : string) (x : SoapParser) : result SoapParser ParseFault :=
  match x_stack x with
  | [] => Err ParseMalformed
  | frame :: stack =>
      if negb (frame =s name) && negb (frame =s local_name name)
         && negb (local_name frame =s local_name name)
      then Err ParseMalformed
      else
        commit_if (local_name name)
          {| x_depth := saturating_sub_u (x_depth x) 1; x_stack := stack; x_buffer := x_buffer x;
             x_capturing := x_capturing x; x_view := x_view x |}
  end.

Definition soap_text (raw : string) (x : SoapParser) : result SoapParser ParseFault :=
  if opt_is_some (x_capturing x) then
    let? buffer := decode_text soap_faults raw (x_buffer x) false in
    if SOAP_FIELD_MAX <? len buffer then Err ParseBounded
    else Ok {| x_depth := x_depth x; x_stack := x_stack x; x_buffer := buffer;
               x_capturing := x_capturing x; x_view := x_view x |}
  else let? _ := decode_text soap_faults raw EmptyString true in Ok x.

Definition soap_step (tok : token) (x : SoapParser) : result SoapParser ParseFault :=
  match tok with
  | TokenText raw => soap_text raw x
  | TokenComment => Ok x
  | TokenStart name self_closing => start_tag name self_closing x
  | TokenEnd name => end_tag name x
  end.

Definition soap_parser : SoapParser :=
  {| x_depth := 0; x_stack := []; x_buffer := EmptyString; x_capturing := None; x_view := empty_view |}.

(** The length of the document is enough fuel ([soap_reader_total]). *)
Definition parse_document (input : string) : option (result SoapParser ParseFault) :=
  match document_start soap_faults input with
  | Err e => Some (Err e)
  | Ok rest => run_tokens soap_faults soap_step (Some SOAP_ATTRIBUTE_MAX) (String.length rest) rest soap_parser
  end.

Definition parse_xml (input : string) : result SoapView ReadFault :=
  match parse_document input with
  | Some (Ok x) =>
      match x_stack x, x_capturing x with
      | [], None => Ok (x_view x)
      | _, _ => Err ReadMalformed
      end
  | Some (Err ParseBounded) => Err ReadBounded
  | Some (Err _) | None => Err ReadMalformed
  end.

Definition read_soap (octets : list Z) : result SoapView ReadFault :=
  let? body := parse_http octets in
  parse_xml body.

(** ** Requests *)

Definition service_urn (kind : IgdServiceKind) : string :=
  match kind with
  | WanIpConnection => "urn:schemas-upnp-org:service:WANIPConnection:1"
  | WanPppConnection => "urn:schemas-upnp-org:service:WANPPPConnection:1"
  end.

Definition protocol_name (p : MappedPortProtocol) : string :=
  match p with MappedTcp => "TCP" | MappedUdp => "UDP" end.

Definition tuple_fields (port : Z) (p : MappedPortProtocol) : string :=
  "<NewRemoteHost></NewRemoteHost><NewExternalPort>" +:+ pretty port
  +:+ "</NewExternalPort><NewProtocol>" +:+ protocol_name p +:+ "</NewProtocol>".

Definition add_fields (local : Ipv4Addr) (port : Z) (p : MappedPortProtocol) : string :=
  tuple_fields port p +:+ "<NewInternalPort>" +:+ pretty port
  +:+ "</NewInternalPort><NewInternalClient>" +:+ ipv4_str local
  +:+ "</NewInternalClient><NewEnabled>1</NewEnabled><NewPortMappingDescription>liskov"
  +:+ "</NewPortMappingDescription><NewLeaseDuration>" +:+ pretty MAPPING_REQUESTED_LEASE_SEC
  +:+ "</NewLeaseDuration>".

Definition soap_envelope (urn action inner : string) : string :=
  "<?xml version=" +:+ quote +:+ "1.0" +:+ quote +:+ "?><s:Envelope xmlns:s=" +:+ quote
  +:+ "http://schemas.xmlsoap.org/soap/envelope/" +:+ quote +:+ " s:encodingStyle=" +:+ quote
  +:+ "http://schemas.xmlsoap.org/soap/encoding/" +:+ quote +:+ "><s:Body><u:" +:+ action
  +:+ " xmlns:u=" +:+ quote +:+ urn +:+ quote +:+ ">" +:+ inner +:+ "</u:" +:+ action
  +:+ "></s:Body></s:Envelope>".

Definition unprintable (s : string) : bool := bytes_any (fun b => is_ascii_control b || byte_is 32 b) s.

Definition soap_request (d : IgdControlDescriptor) (action inner : string)
  : result (list Z) MappingRefusal :=
  let path := path_and_query d in
  if negb (starts_with "/" path) || unprintable path then Err MappingMalformed
  else
    let urn := service_urn (igd_service d) in
    let envelope := soap_envelope urn action inner in
    let host := ipv4_str (igd_gateway d) +:+ ":" +:+ pretty (igd_port d) in
    if unprintable host then Err MappingMalformed
    else
      let request :=
        "POST " +:+ path +:+ " HTTP/1.1" +:+ crlf +:+ "Host: " +:+ host +:+ crlf
        +:+ "Content-Type: text/xml; charset=" +:+ quote +:+ "utf-8" +:+ quote +:+ crlf
        +:+ "SOAPAction: " +:+ quote +:+ urn +:+ "#" +:+ action +:+ quote +:+ crlf
        +:+ "Content-Length: " +:+ pretty (len envelope) +:+ crlf
        +:+ "Connection: close" +:+ crlf +:+ crlf +:+ envelope in
      if UPNP_SOAP_MAX_BYTES <? len request then Err MappingMalformed
      else Ok (str_octets request).

(** ** Classification *)

Inductive Probe := ProbeAbsent | ProbePresent | ProbeUnreadable (refusal : MappingRefusal).

Definition classify_probe (octets : list Z) : Probe :=
  match read_soap octets with
  | Err _ => ProbeUnreadable MappingMalformed
  | Ok view =>
      match v_response view, v_error_code view with
      | Some ResponseFault, Some code =>
          if code =? UPNP_ABSENT then ProbeAbsent else ProbeUnreadable AmbiguousOwnership
      | Some ResponseGet, None => ProbePresent
      | _, _ => ProbeUnreadable MappingMalformed
      end
  end.

Inductive AddReply :=
| AddAccepted | AddPermanentOnly | AddConflict | AddRejected | AddUnreadable (refusal : MappingRefusal).

Definition classify_add (octets : list Z) : AddReply :=
  match read_soap octets with
  | Err _ => AddUnreadable MappingMalformed
  | Ok view =>
      if opt_is_some (v_response view) && opt_is_some (v_error_code view)
         && negb (bool_decide (v_response view = Some ResponseFault))
      then AddUnreadable MappingMalformed
      else
        match v_error_code view with
        | Some code =>
            if code =? UPNP_PERMANENT_ONLY then AddPermanentOnly
            else if code =? UPNP_CONFLICT then AddConflict
            else AddRejected
        | None =>
            if bool_decide (v_response view = Some ResponseAdd) then AddAccepted
            else AddUnreadable MappingMalformed
        end
  end.

Inductive Confirm :=
| ConfirmUsable (lease : Z) | ConfirmOursButUnusable (lease : Z) | ConfirmNotOurs | ConfirmAbsent
| ConfirmUnreadable.

Definition classify_confirm (octets : list Z) (local : Ipv4Addr) (port : Z) (p : MappedPortProtocol)
    (ceiling : Z) : Confirm :=
  match read_soap octets with
  | Err _ => ConfirmUnreadable
  | Ok view =>
      if bool_decide (v_response view = Some ResponseFault)
         && bool_decide (v_error_code view = Some UPNP_ABSENT)
      then ConfirmAbsent
      else if negb (bool_decide (v_response view = Some ResponseGet)) || opt_is_some (v_error_code view)
      then ConfirmUnreadable
      else
        match v_internal_client view, v_internal_port view, v_lease_sec view, v_enabled view with
        | Some client, Some seen_port, Some lease, Some enabled =>
            if is_some_and (v_protocol view) (fun q => negb (bool_decide (q = p)))
               || negb (bool_decide (client = local)) || negb (seen_port =? port)
            then ConfirmNotOurs
            else if enabled && is_finite ceiling lease then ConfirmUsable lease
            else ConfirmOursButUnusable lease
        | _, _, _, _ => ConfirmUnreadable
        end
  end.

Inductive DeleteAttempt :=
| DeleteNotSent (refusal : MappingRefusal) | DeleteConfirmed | DeleteRejected
| DeleteUnknown (refusal : MappingRefusal) (error : TraversalErrorClass).

Definition interpret_delete (octets : list Z) : DeleteAttempt :=
  match read_soap octets with
  | Err _ => DeleteUnknown MappingMalformed CleanupFailed
  | Ok view =>
      if bool_decide (v_response view = Some ResponseDelete) && opt_is_none (v_error_code view)
      then DeleteConfirmed
      else if bool_decide (v_response view = Some ResponseFault)
              && bool_decide (v_error_code view = Some UPNP_ABSENT)
      then DeleteConfirmed
      else if opt_is_some (v_error_code view) then DeleteRejected
      else DeleteUnknown AmbiguousOwnership CleanupFailed
  end.

(** ** Effects *)

Definition upnp_effect (o : TraversalOutcome) (c : TraversalCleanup) (r : MappingRefusal)
    (e : option TraversalErrorClass) (sent : Z) : MappingEffect :=
  blank UpnpIgd |> set_outcome o |> set_cleanup c |> set_refusal (Some r) |> set_error e |> set_sent sent.

Definition existing_entry : MappingEffect := upnp_effect Failed NotCreated Conflict (Some MappingConflict) 1.
Definition unread_probe (r : MappingRefusal) (e : TraversalErrorClass) : MappingEffect :=
  upnp_effect UnsupportedSafeOwnership NotCreated r (Some e) 1.
Definition stopped_before_create_with (r : MappingRefusal) : MappingEffect :=
  upnp_effect Failed NotCreated r None 1.
Definition stopped_before_create : MappingEffect := stopped_before_create_with MappingCancelled.
Definition permanent_only : MappingEffect :=
  upnp_effect UnsupportedFiniteLease NotCreated OverlongOrZeroGrant (Some LeaseRefused) 2.
Definition add_conflict : MappingEffect := upnp_effect Failed NotCreated Conflict (Some MappingConflict) 2.
Definition add_rejected : MappingEffect := upnp_effect Failed NotCreated Denied (Some InvalidResponse) 2.
Definition lost_create (sent : Z) (r : MappingRefusal) (e : TraversalErrorClass) : MappingEffect :=
  upnp_effect OutcomeCreationUnknown CleanupCreationUnknown r (Some e) sent.
Definition keep_ambiguous (effect : MappingEffect) : MappingEffect :=
  effect |> set_outcome UnsupportedSafeOwnership |> set_cleanup CleanupExpiryUnknown
         |> set_refusal (Some AmbiguousOwnership) |> set_sent 0.

(** ** Operations *)

Section UpnpOps.
Context {E : Type} `{!Control E, !UrlApi, !UrlHost, !Sha256}.

Definition control_fingerprint (d : IgdControlDescriptor) : list Z :=
  take 12 (str_octets (sha256 (service_urn (igd_service d) +:+ "|" +:+ pretty (igd_port d)
                                 +:+ "|" +:+ path_and_query d))).

Definition control_matches (g : SelectedGateway) (h : OwnedMappingHandle) (control : IgdControlDescriptor)
  : bool :=
  bool_decide (igd_gateway control = gateway g)
  && bool_decide (h_nonce h = Some (control_fingerprint control)).

Inductive Attempt :=
| NotSent (refusal : MappingRefusal)
| AttemptSent (refusal : MappingRefusal) (error : TraversalErrorClass)
| AttemptBody (octets : list Z).

Definition attempt (g : SelectedGateway) (d : IgdControlDescriptor) (action inner : string) : io E Attempt :=
  stop ← control_cancelled;
  if stop : bool then mret (NotSent MappingCancelled)
  else
    match soap_request d action inner with
    | Err refusal => mret (NotSent refusal)
    | Ok request =>
        reply ← exchange_upnp_soap g (control_target d) request;
        mret match reply with
        | Exchanged (Ok body) => AttemptBody body
        | Refused ControlWrongTarget => NotSent ReservationGatewayMismatch
        | Refused (ControlOversize | ControlUnsupported) => NotSent MappingMalformed
        | Refused error => NotSent (transport_refusal error)
        | Exchanged (Err error) => AttemptSent (transport_refusal error) (transport_error error)
        end
    end.

Definition transmit_delete (g : SelectedGateway) (d : IgdControlDescriptor) (h : OwnedMappingHandle)
  : io E DeleteAttempt :=
  r ← attempt g d "DeletePortMapping" (tuple_fields (h_external_port h) (h_port_protocol h));
  mret match r with
  | NotSent refusal => DeleteNotSent refusal
  | AttemptSent refusal error => DeleteUnknown refusal error
  | AttemptBody octets => interpret_delete octets
  end.

Definition delete_owned (g : SelectedGateway) (h : OwnedMappingHandle)
    (control : option IgdControlDescriptor) : io E MappingEffect :=
  let effect := blank (h_protocol h) |> set_handle (Some h)
                |> set_grant None (Some (h_granted_lifetime_sec h)) (Some (h_external_port h)) in
  match control with
  | None => mret (keep_ambiguous effect)
  | Some control =>
      if negb (bool_decide (h_protocol h = UpnpIgd)) || negb (control_matches g h control)
      then mret (keep_ambiguous effect)
      else
        let finite := is_finite MAPPING_MAXIMUM_LEASE_SEC (h_granted_lifetime_sec h) in
        let effect :=
          if finite then effect
          else effect |> set_outcome UnsupportedFiniteLease |> set_refusal (Some OverlongOrZeroGrant)
                      |> set_error (Some LeaseRefused) in
        stop ← control_cancelled;
        if stop : bool then
          let effect := effect |> set_refusal (Some MappingCancelled) |> set_sent 0 in
          mret (if finite then effect |> set_outcome Failed |> set_cleanup LeaseExpiryPending
                else effect |> set_outcome OutcomeExpiryUnknown |> set_cleanup CleanupExpiryUnknown)
        else
          r ← transmit_delete g control h;
          mret match r with
          | DeleteNotSent refusal =>
              effect |> set_outcome OutcomeExpiryUnknown |> set_cleanup CleanupExpiryUnknown
                     |> set_refusal (Some refusal) |> set_error (Some CleanupFailed) |> set_sent 0
          | DeleteConfirmed =>
              let effect := effect |> set_cleanup ConfirmedDeleted |> set_sent 1 |> set_error None in
              if opt_is_none (e_refusal effect) then effect |> set_outcome Succeeded else effect
          | DeleteRejected =>
              let effect := effect |> set_cleanup DeleteFailed |> set_refusal (Some Denied)
                                   |> set_error (Some CleanupFailed) |> set_sent 1 in
              if finite then effect |> set_outcome Failed else effect
          | DeleteUnknown refusal error =>
              effect |> set_outcome OutcomeExpiryUnknown |> set_cleanup CleanupExpiryUnknown
                     |> set_refusal (Some refusal) |> set_error (Some error) |> set_sent 1
          end
  end.

(** [delete_owned_mapping] of [mapping.rs]. *)
Definition delete_owned_mapping (g : SelectedGateway) (h : OwnedMappingHandle)
    (reservation : option ExclusiveReservation) (previous_epoch : option Z)
    (control : option IgdControlDescriptor) : io E MappingEffect :=
  if negb (delete_allowed h g reservation) then
    mret (blank (h_protocol h) |> set_outcome UnsupportedSafeOwnership |> set_cleanup CleanupExpiryUnknown
          |> set_refusal (Some AmbiguousOwnership) |> set_handle (Some h))
  else if bool_decide (h_protocol h = UpnpIgd) then delete_owned g h control
  else send_delete h g (delete_packet h) previous_epoch 0.

Definition owned_handle (input : UpnpMap) (r : ExclusiveReservation) (lease : Z)
    (cleanup_authorized : bool) : OwnedMappingHandle :=
  {| h_protocol := UpnpIgd; h_port_protocol := um_protocol input; h_internal_port := um_internal_port input;
     h_external_port := um_internal_port input; h_client := um_local_address input;
     h_granted_lifetime_sec := lease; h_epoch := 0;
     h_nonce := Some (control_fingerprint (um_descriptor input));
     h_reservation_digest := Some (reserved_digest r); h_cleanup_authorized := cleanup_authorized;
     h_external_address := None |}.

Definition adopt (input : UpnpMap) (r : ExclusiveReservation) (lease : Z) : MappingEffect :=
  blank UpnpIgd |> set_outcome Succeeded |> set_cleanup LeaseExpiryPending |> set_sent 3
  |> set_grant None (Some lease) (Some (um_internal_port input))
  |> set_flags false (lease <? MAPPING_REQUESTED_LEASE_SEC)
  |> set_handle (Some (owned_handle input r lease true)).

(** The refusal of a grant that was deleted, or was not. *)
Definition unusable_refusal (o : TraversalOutcome) (r : MappingRefusal) (effect : MappingEffect)
  : MappingEffect :=
  let effect := effect |> set_outcome o in
  if bool_decide (e_cleanup effect = ConfirmedDeleted) then
    effect |> set_refusal (Some r) |> set_error None
  else if negb (bool_decide (e_refusal effect = Some MappingCancelled)) then
    effect |> set_refusal (Some r) |> set_error (Some CleanupFailed)
  else effect.

Definition cleanup_unusable (g : SelectedGateway) (input : UpnpMap) (r : ExclusiveReservation) (lease : Z)
  : io E MappingEffect :=
  effect ← delete_owned_mapping g (owned_handle input r lease true) (Some r) None (Some (um_descriptor input));
  let effect := effect |> set_sent (saturating_add u8_max (e_requests_sent effect) 3) in
  let finite := is_finite (um_maximum_lease_sec input) lease && (lease <=? MAPPING_MAXIMUM_LEASE_SEC) in
  mret (if negb finite then unusable_refusal UnsupportedFiniteLease OverlongOrZeroGrant effect
        else unusable_refusal Failed Denied effect).

(** The three stages of [map_upnp]: the confirming read, the create, the probe. *)
Definition confirm_entry (g : SelectedGateway) (input : UpnpMap) (reservation : ExclusiveReservation)
    (ceiling : Z) : io E MappingEffect :=
  confirmation ← attempt g (um_descriptor input) "GetSpecificPortMappingEntry"
                   (tuple_fields (um_internal_port input) (um_protocol input));
  match confirmation with
  | NotSent refusal | AttemptSent refusal _ => mret (lost_create 3 refusal InvalidResponse)
  | AttemptBody octets =>
      match classify_confirm octets (um_local_address input) (um_internal_port input)
              (um_protocol input) ceiling with
      | ConfirmUsable lease => mret (adopt input reservation lease)
      | ConfirmOursButUnusable lease => cleanup_unusable g input reservation lease
      | _ => mret (lost_create 3 AmbiguousOwnership InvalidResponse)
      end
  end.

Definition create_entry (g : SelectedGateway) (input : UpnpMap) (reservation : ExclusiveReservation)
    (ceiling : Z) : io E MappingEffect :=
  added ← attempt g (um_descriptor input) "AddPortMapping"
            (add_fields (um_local_address input) (um_internal_port input) (um_protocol input));
  match added with
  | NotSent refusal => mret (stopped_before_create_with refusal)
  | AttemptSent refusal error => mret (lost_create 2 refusal error)
  | AttemptBody octets =>
      match classify_add octets with
      | AddPermanentOnly => mret permanent_only
      | AddConflict => mret add_conflict
      | AddRejected => mret add_rejected
      | AddUnreadable refusal => mret (lost_create 2 refusal InvalidResponse)
      | AddAccepted =>
          stop ← control_cancelled;
          if stop : bool then mret (lost_create 2 MappingCancelled ErrorTimeout)
          else confirm_entry g input reservation ceiling
      end
  end.

Definition probe_entry (g : SelectedGateway) (input : UpnpMap) (reservation : ExclusiveReservation)
    (ceiling : Z) : io E MappingEffect :=
  probed ← attempt g (um_descriptor input) "GetSpecificPortMappingEntry"
             (tuple_fields (um_internal_port input) (um_protocol input));
  match probed with
  | NotSent refusal => mret (local_refusal UpnpIgd refusal)
  | AttemptSent refusal error => mret (unread_probe refusal error)
  | AttemptBody octets =>
      match classify_probe octets with
      | ProbePresent => mret existing_entry
      | ProbeUnreadable refusal => mret (unread_probe refusal InvalidResponse)
      | ProbeAbsent =>
          stop ← control_cancelled;
          if stop : bool then mret stopped_before_create
          else create_entry g input reservation ceiling
      end
  end.

Definition map_upnp (g : SelectedGateway) (input : UpnpMap) : io E MappingEffect :=
  match lease_ceiling (um_maximum_lease_sec input) with
  | None => mret (local_refusal UpnpIgd BadLifetimeCeiling)
  | Some ceiling =>
      if um_internal_port input <? MAPPING_HIGH_PORT_MIN then mret (local_refusal UpnpIgd LowPort)
      else if negb (usable_ipv4 (um_local_address input)) then mret (local_refusal UpnpIgd BadClientAddress)
      else
        match um_exclusive_reservation input with
        | None => mret (local_refusal UpnpIgd MissingReservation)
        | Some reservation =>
            if negb (authorizes reservation g)
               || negb (bool_decide (igd_gateway (um_descriptor input) = gateway g))
            then mret (local_refusal UpnpIgd ReservationGatewayMismatch)
            else probe_entry g input reservation ceiling
        end
  end.

End UpnpOps.

(** * Properties *)

(** ** The reply reader *)

(** The SOAP reader terminates on every reply. The main loop of the XML
    parser returns within as many tokens as the document has bytes, more fuel
    does not change its answer, and a document it accepts is well nested: the
    element stack is empty and no field is left half read. *)
Theorem soap_reader_total input :
  (exists r, parse_document input = Some r /\
     forall rest fuel, document_start soap_faults input = Ok rest -> (String.length rest <= fuel)%nat ->
       run_tokens soap_faults soap_step (Some SOAP_ATTRIBUTE_MAX) fuel rest soap_parser = Some r) /\
  (forall view, parse_xml input = Ok view ->
     exists x, parse_document input = Some (Ok x) /\ x_view x = view /\ x_stack x = [] /\ x_capturing x = None).
Proof.
  split.
  - unfold parse_document. destruct (document_start soap_faults input) as [rest|e]; [| by exists (Err e)].
    destruct (run_tokens_total soap_faults soap_step (Some SOAP_ATTRIBUTE_MAX) (String.length rest) rest
                soap_parser ltac:(lia)) as (r & Hr & Hm).
    exists r. split; [done |]. intros ? fuel [= <-]. apply Hm.
  - intros view. unfold parse_xml. destruct (parse_document input) as [[x|[]]|]; try done.
    destruct (x_stack x) eqn:?, (x_capturing x) eqn:?; try done. intros [= <-]. by exists x.
Qed.

(** ** Exchanges *)

Section UpnpFacts.
Context {E : Type} `{!Control E, !ControlLaws E, !UrlApi, !UrlHost, !Sha256}.

Definition soap_reply (r : result (Z * list Z) ControlRefusal) : option (list Z) :=
  match r with
  | Ok (n, data) =>
      if n <? UPNP_SOAP_MAX_BYTES then Some (take (Z.to_nat n) (buffer UPNP_SOAP_MAX_BYTES data)) else None
  | Err _ => None
  end.

(** An exchange that carried this action to the gateway, and one it answered. *)
Definition asked (g : SelectedGateway) (d : IgdControlDescriptor) (action inner : string) (x : exchanged)
  : Prop :=
  exists destination request r, x = (destination, request, r) /\
    soap_request d action inner = Ok request /\ sa_ip destination = gateway g.
Definition replied (g : SelectedGateway) (d : IgdControlDescriptor) (action inner : string) (x : exchanged)
    (octets : list Z) : Prop :=
  asked g d action inner x /\ soap_reply x.2 = Some octets.

Lemma sends_soap g location request :
  sends (fun reply xs =>
    match reply with
    | Refused _ => xs = []
    | Exchanged r =>
        (xs = [] /\ exists e, r = Err e) \/
        exists destination x, xs = [(destination, request, x)] /\ sa_ip destination = gateway g /\
          forall b, r = Ok b -> soap_reply x = Some b
    end) (exchange_upnp_soap g location request).
Proof.
  unfold exchange_upnp_soap. destruct request as [|b request]; [by apply sends_ret |].
  destruct (_ <? _); [by apply sends_ret |].
  eapply sends_bind; [by apply (sends_cancelled (fun _ xs => xs = [])) |]. intros [] ? ->;
    [by apply sends_ret |].
  destruct (control_destination g UpnpIgd (Some location)) as [destination|e] eqn:Hd; [| by apply sends_ret].
  apply control_destination_gateway in Hd as [Hip _].
  eapply sends_bind; [apply sends_control |]. intros [[n data]|e] xs Hr; apply sends_ret.
  - destruct Hr as [(_ & e & ?)|(x & -> & [<-|(e & ?)])]; [done | | done].
    destruct (UPNP_SOAP_MAX_BYTES <=? n) eqn:Hn; right; exists destination; eexists;
      (split; [done |]); (split; [done |]); intros ? [=]. subst.
    unfold soap_reply. by rewrite Z.ltb_antisym, Hn.
  - destruct Hr as [(-> & _)|(x & -> & _)]; [left; naive_solver |].
    right. exists destination, x. split; [done |]. split; [done |]. intros ? [=].
Qed.

Lemma sends_attempt g d action inner :
  sends (fun a xs =>
    match a with
    | NotSent _ => xs = []
    | AttemptSent _ _ => xs = [] \/ exists x, xs = [x] /\ asked g d action inner x
    | AttemptBody octets => exists x, xs = [x] /\ replied g d action inner x octets
    end) (attempt g d action inner).
Proof.
  unfold attempt. eapply sends_bind; [by apply (sends_cancelled (fun _ xs => xs = [])) |]. intros [] ? ->;
    [by apply sends_ret |].
  destruct (soap_request d action inner) as [request|e] eqn:Hq; [| by apply sends_ret].
  eapply sends_bind; [apply sends_soap |]. intros [e|[body|e]] xs Hx.
  - subst. by destruct e; apply sends_ret.
  - destruct Hx as [(_ & e & ?)|(destination & x & -> & Hip & Hb)]; [done |].
    apply sends_ret. exists (destination, request, x). split; [done |].
    split; [by exists destination, request, x | by apply Hb].
  - apply sends_ret. rewrite app_nil_r. destruct Hx as [(-> & _)|(destination & x & -> & Hip & _)]; [by left |].
    right. exists (destination, request, x). split; [done |]. by exists destination, request, x.
Qed.

(** What the router's replies to a delete amount to. *)
Definition deleted (octets : list Z) : Prop := interpret_delete octets = DeleteConfirmed.

(** The delete of a handle over UPnP: at most one request, and a confirmation
    only from the router. *)
Record upnp_delete_safe (g : SelectedGateway) (h : OwnedMappingHandle) (control : option IgdControlDescriptor)
    (effect : MappingEffect) (xs : list exchanged) : Prop := {
  ud_sent : xs = [] \/ exists d x, control = Some d /\ control_matches g h d = true /\ xs = [x] /\
    asked g d "DeletePortMapping" (tuple_fields (h_external_port h) (h_port_protocol h)) x;
  ud_counted : Z.of_nat (length xs) <= e_requests_sent effect <= 1;
  ud_handle : e_handle effect = Some h;
  ud_created : e_cleanup effect <> NotCreated;
  ud_pending : e_cleanup effect = LeaseExpiryPending -> xs = [] /\ 1 <= h_granted_lifetime_sec h <= 120;
  ud_confirmed : e_cleanup effect = ConfirmedDeleted ->
    exists x octets, xs = [x] /\ soap_reply x.2 = Some octets /\ deleted octets
}.

Lemma sends_transmit_delete g d h :
  sends (fun r xs =>
    (xs = [] /\ r <> DeleteConfirmed) \/
    exists x, xs = [x] /\ asked g d "DeletePortMapping" (tuple_fields (h_external_port h) (h_port_protocol h)) x /\
      (forall refusal, r <> DeleteNotSent refusal) /\
      (r = DeleteConfirmed -> exists octets, soap_reply x.2 = Some octets /\ deleted octets))
    (transmit_delete g d h).
Proof.
  unfold transmit_delete. eapply sends_bind; [apply sends_attempt |]. intros a xs Ha.
  apply sends_ret. rewrite app_nil_r. destruct a as [e|e e'|octets].
  - by left.
  - destruct Ha as [->|(x & -> & Hx)]; [by left | right]. by exists x.
  - destruct Ha as (x & -> & Hx & Hr). right. exists x. split_and!; [done | done | |].
    + intros refusal. unfold interpret_delete. by repeat split_match.
    + intros Hd. by exists octets.
Qed.

Lemma delete_owned_safe g h control :
  sends (upnp_delete_safe g h control) (delete_owned g h control).
Proof.
  unfold delete_owned. destruct control as [d|]; [| apply sends_ret; split; cbn; naive_solver lia].
  destruct (negb _ || _) eqn:Hm; [apply sends_ret; split; cbn; naive_solver lia |]. reflect_bool.
  eapply sends_bind; [by apply (sends_cancelled (fun _ xs => xs = [])) |]. intros [] ? ->.
  { apply sends_ret. destruct (is_finite _ _) eqn:Hf; split; cbn; try naive_solver lia.
    intros _. unfold is_finite, MAPPING_MAXIMUM_LEASE_SEC in Hf. reflect_bool. split; [done | lia]. }
  eapply sends_bind; [apply sends_transmit_delete |].
  intros r xs Hr. apply sends_ret. rewrite app_nil_r.
  destruct (is_finite _ _), r, Hr as [(-> & ?)|(x & -> & ? & ? & ?)]; split; cbn; try lia; naive_solver.
Qed.

(** ** The mapping protocol

    What a run of [map_upnp] may exchange with the router and report, with the
    replies that justify every step. *)
Section Protocol.
Context (g : SelectedGateway) (input : UpnpMap) (r : ExclusiveReservation) (ceiling : Z).

Let d := um_descriptor input.
Let probe := tuple_fields (um_internal_port input) (um_protocol input).
Let add := add_fields (um_local_address input) (um_internal_port input) (um_protocol input).
Let asked_probe := asked g d "GetSpecificPortMappingEntry" probe.

(** The probe showed that the entry is free; the create was then accepted. *)
Definition free (x : exchanged) : Prop :=
  exists octets, replied g d "GetSpecificPortMappingEntry" probe x octets /\ classify_probe octets = ProbeAbsent.
Definition accepted (x y : exchanged) : Prop :=
  free x /\ exists octets, replied g d "AddPortMapping" add y octets /\ classify_add octets = AddAccepted.
(** The entry read back after the create. *)
Definition confirms (z : exchanged) (c : Confirm) : Prop :=
  exists octets, replied g d "GetSpecificPortMappingEntry" probe z octets /\
    classify_confirm octets (um_local_address input) (um_internal_port input) (um_protocol input) ceiling = c.

Definition at_most (P : exchanged -> Prop) (xs : list exchanged) : Prop := xs = [] \/ exists x, xs = [x] /\ P x.

Inductive upnp_run : MappingEffect -> list exchanged -> Prop :=
| RunUnmapped effect xs :
    at_most asked_probe xs -> e_cleanup effect = NotCreated -> e_handle effect = None ->
    Z.of_nat (length xs) <= e_requests_sent effect <= 1 ->
    upnp_run effect xs
| RunRefused effect x y octets :
    free x -> replied g d "AddPortMapping" add y octets ->
    classify_add octets ∈ [AddPermanentOnly; AddConflict; AddRejected] ->
    e_cleanup effect = NotCreated -> e_handle effect = None -> e_requests_sent effect = 2 ->
    upnp_run effect [x; y]
| RunUnanswered effect x ys :
    free x -> at_most (asked g d "AddPortMapping" add) ys ->
    e_cleanup effect = CleanupCreationUnknown -> e_handle effect = None -> e_requests_sent effect = 2 ->
    upnp_run effect (x :: ys)
| RunUnconfirmed effect x y zs :
    accepted x y -> at_most asked_probe zs ->
    e_cleanup effect = CleanupCreationUnknown -> e_handle effect = None ->
    2 <= e_requests_sent effect <= 3 -> Z.of_nat (length zs) + 2 <= e_requests_sent effect ->
    upnp_run effect (x :: y :: zs)
| RunAdopted x y z lease :
    accepted x y -> confirms z (ConfirmUsable lease) -> 1 <= lease <= ceiling ->
    upnp_run (adopt input r lease) [x; y; z]
| RunDeleted effect x y z ws lease :
    accepted x y -> confirms z (ConfirmOursButUnusable lease) ->
    e_handle effect = Some (owned_handle input r lease true) ->
    at_most (asked g d "DeletePortMapping" probe) ws ->
    e_outcome effect <> Succeeded -> e_cleanup effect <> NotCreated ->
    (e_cleanup effect = LeaseExpiryPending -> ws = [] /\ 1 <= lease <= 120) ->
    (e_cleanup effect = ConfirmedDeleted ->
       exists w octets, ws = [w] /\ soap_reply w.2 = Some octets /\ deleted octets) ->
    Z.of_nat (length ws) + 3 <= e_requests_sent effect <= 4 ->
    upnp_run effect (x :: y :: z :: ws).

Lemma cleanup_unusable_run x y z lease :
  authorizes r g = true -> igd_gateway d = gateway g ->
  accepted x y -> confirms z (ConfirmOursButUnusable lease) ->
  sends (fun effect ws => upnp_run effect (x :: y :: z :: ws)) (cleanup_unusable g input r lease).
Proof.
  intros Ha Hg Hxy Hz. unfold cleanup_unusable, delete_owned_mapping.
  assert (delete_allowed (owned_handle input r lease true) g (Some r) = true) as ->.
  { unfold delete_allowed. cbn. by rewrite Ha, bool_decide_eq_true_2. }
  cbn [negb]. rewrite bool_decide_eq_true_2 by done.
  eapply sends_bind; [apply delete_owned_safe |]. intros effect ws [Hs Hc Hh Hcr Hp Hd].
  apply sends_ret. rewrite app_nil_r. cbn [h_external_port h_port_protocol owned_handle h_granted_lifetime_sec] in *.
  assert (Hsat : saturating_add u8_max (e_requests_sent effect) 3 = e_requests_sent effect + 3)
    by (unfold saturating_add, u8_max; lia).
  assert (Hws : at_most (asked g d "DeletePortMapping" probe) ws).
  { destruct Hs as [->|(d' & w & [= <-] & _ & -> & Hw)]; [by left | right; by exists w]. }
  destruct (negb _); unfold unusable_refusal; repeat case_match;
    (eapply RunDeleted; [done | done | done | done | done | done | | | cbn; lia]); cbn; naive_solver.
Qed.

Lemma classify_confirm_usable octets local port p c lease :
  classify_confirm octets local port p c = ConfirmUsable lease -> 1 <= lease <= c.
Proof.
  unfold classify_confirm. intros Hc. repeat (case_match; try done). simplify_eq.
  match goal with H : _ && is_finite _ _ = true |- _ => apply andb_true_iff in H as [_ H]; unfold is_finite in H end.
  reflect_bool. lia.
Qed.

Lemma confirm_entry_run x y :
  authorizes r g = true -> igd_gateway d = gateway g -> accepted x y ->
  sends (fun effect zs => upnp_run effect (x :: y :: zs)) (confirm_entry g input r ceiling).
Proof.
  intros Ha Hg Hxy. unfold confirm_entry. eapply sends_bind; [apply sends_attempt |].
  intros [e|e e'|octets] zs Hz.
  - subst. apply sends_ret. by apply RunUnconfirmed; [| left | | | cbn; lia ..].
  - apply sends_ret. rewrite app_nil_r. apply RunUnconfirmed; [done | exact Hz | done | done | cbn; lia |].
    destruct Hz as [->|(z & -> & _)]; cbn; lia.
  - destruct Hz as (z & -> & Hz).
    assert (Hlost : forall a b, upnp_run (lost_create 3 a b) [x; y; z]).
    { intros a b. apply RunUnconfirmed; [done | | done | done | cbn; lia | cbn; lia].
      right. exists z. split; [done | apply Hz]. }
    destruct (classify_confirm _ _ _ _ _) as [lease|lease| | |] eqn:Hc; try (by apply sends_ret).
    + apply sends_ret. apply RunAdopted; [done | by exists octets |].
      by eapply classify_confirm_usable.
    + apply cleanup_unusable_run; [done | done | done | by exists octets].
Qed.

Lemma create_entry_run x :
  authorizes r g = true -> igd_gateway d = gateway g -> free x ->
  sends (fun effect ys => upnp_run effect (x :: ys)) (create_entry g input r ceiling).
Proof.
  intros Ha Hg Hx. unfold create_entry. eapply sends_bind; [apply sends_attempt |].
  intros [e|e e'|octets] ys Hy.
  - subst. apply sends_ret. apply RunUnmapped; [| done | done | cbn; lia].
    right. exists x. split; [done |]. destruct Hx as (o & [? _] & _). done.
  - apply sends_ret. rewrite app_nil_r. by apply RunUnanswered.
  - destruct Hy as (y & -> & Hy).
    assert (Hun : forall a b, upnp_run (lost_create 2 a b) [x; y]).
    { intros a b. apply (RunUnanswered _ _ [y]); try done. right. exists y. split; [done | apply Hy]. }
    destruct (classify_add octets) eqn:Hc;
      try (apply sends_ret; eapply RunRefused; [done | done | rewrite Hc; set_solver | done ..]);
      try (by apply sends_ret).
    assert (Hacc : accepted x y) by (split; [done |]; by exists octets).
    eapply sends_bind; [by apply (sends_cancelled (fun _ xs => xs = [])) |]. intros [] ? ->.
    + apply sends_ret. apply Hun.
    + by apply confirm_entry_run.
Qed.

Lemma probe_entry_run :
  authorizes r g = true -> igd_gateway d = gateway g ->
  sends upnp_run (probe_entry g input r ceiling).
Proof.
  intros Ha Hg. unfold probe_entry. eapply sends_bind; [apply sends_attempt |].
  intros [e|e e'|octets] xs Hx.
  - subst. apply sends_ret. by apply RunUnmapped; [left | destruct e | destruct e | destruct e; cbn; lia].
  - apply sends_ret. rewrite app_nil_r. apply RunUnmapped; [exact Hx | done | done |].
    destruct Hx as [->|(x & -> & _)]; cbn; lia.
  - destruct Hx as (x & -> & Hx).
    assert (Hq : at_most asked_probe [x]) by (right; exists x; split; [done | apply Hx]).
    destruct (classify_probe octets) eqn:Hc;
      [| apply sends_ret; by apply RunUnmapped; [| | | cbn; lia] ..].
    eapply sends_bind; [by apply (sends_cancelled (fun _ xs => xs = [])) |]. intros [] ? ->.
    + apply sends_ret. by apply RunUnmapped; [| | | cbn; lia].
    + apply create_entry_run; [done | done | by exists octets].
Qed.

End Protocol.

(** C29: a UPnP mapping is created only where nothing was mapped and kept only when
    read back. Every run of [map_upnp], whatever the router answers, follows the
    protocol [upnp_run]: without a reservation for this gateway and a descriptor
    at its address nothing is sent; the create follows only a probe answered with
    "no such entry"; a lease is adopted only when the entry read back shows this
    client, port and protocol, enabled, with a finite lease within the ceiling;
    the delete of an unusable grant follows only when the entry read back is this
    client's own; and an unanswered create is never reported as not created. *)
Theorem map_upnp_follows_protocol g input :
  sends (fun effect xs =>
    match opt_filter (fun r => authorizes r g && bool_decide (igd_gateway (um_descriptor input) = gateway g))
            (um_exclusive_reservation input) with
    | None => xs = [] /\ e_handle effect = None /\ e_cleanup effect = NotCreated
    | Some r => upnp_run g input r (default 0 (lease_ceiling (um_maximum_lease_sec input))) effect xs
    end) (map_upnp g input).
Proof.
  unfold map_upnp. destruct (um_exclusive_reservation input) as [r|]; cbn [opt_filter].
  2: { destruct (lease_ceiling _); [| by apply sends_ret].
       destruct (_ <? _); [by apply sends_ret |]. destruct (negb _); by apply sends_ret. }
  assert (Hun : forall ceiling e, sends (fun effect xs => upnp_run g input r ceiling effect xs)
                                    (mret (local_refusal UpnpIgd e) : io E MappingEffect)).
  { intros ceiling e. apply sends_ret. by apply RunUnmapped; [left | | | cbn; lia]. }
  destruct (authorizes r g) eqn:Ha, (bool_decide _) eqn:Hg; cbn [andb negb orb];
    try (destruct (lease_ceiling _); [| by apply sends_ret];
         destruct (_ <? _); [by apply sends_ret |]; destruct (negb _); by apply sends_ret).
  destruct (lease_ceiling _); [| apply Hun]. destruct (_ <? _); [apply Hun |]. destruct (negb _); [apply Hun |].
  apply bool_decide_eq_true in Hg. by apply probe_entry_run.
Qed.

End UpnpFacts.

(** ** Invariants *)

Section UpnpKeeps.
Context {E : Type} `{!Control E, !UrlApi, !UrlHost, !Sha256} (I : list E -> Prop).
Hypothesis cancelled_keeps : keeps I control_cancelled.
Hypothesis exchange_keeps : forall d request capacity, keeps I (control_exchange d request capacity).
#[local] Hint Resolve cancelled_keeps exchange_keeps : keeps.

Lemma attempt_keeps g d action inner : keeps I (attempt g d action inner).
Proof using All. unfold attempt, exchange_upnp_soap. solve_keeps. Qed.
#[local] Hint Resolve attempt_keeps : keeps.

Lemma delete_owned_mapping_keeps g h reservation previous control :
  keeps I (delete_owned_mapping g h reservation previous control).
Proof using All.
  unfold delete_owned_mapping, delete_owned, transmit_delete. cbv zeta.
  pose proof (send_delete_keeps I cancelled_keeps exchange_keeps). solve_keeps.
Qed.
#[local] Hint Resolve delete_owned_mapping_keeps : keeps.

Lemma map_upnp_keeps g input : keeps I (map_upnp g input).
Proof using All.
  unfold map_upnp, probe_entry, create_entry, confirm_entry, cleanup_unusable. cbv zeta. solve_keeps.
Qed.

End UpnpKeeps.

(** ** Example: a router that answers every stage *)

Definition http_ok (status body : string) : string :=
  "HTTP/1.1 " +:+ status +:+ crlf +:+ "Content-Length: " +:+ pretty (len body) +:+ crlf +:+ crlf +:+ body.
Definition soap_body_of (inner : string) : string :=
  "<?xml version='1.0'?><s:Envelope xmlns:s='http://schemas.xmlsoap.org/soap/envelope/'><s:Body>"
  +:+ inner +:+ "</s:Body></s:Envelope>".
Definition sample_absent : string :=
  http_ok "500 Error" (soap_body_of "<s:Fault><detail><UPnPError><errorCode>714</errorCode></UPnPError></detail></s:Fault>").
Definition sample_added : string :=
  http_ok "200 OK" (soap_body_of "<u:AddPortMappingResponse xmlns:u='urn:x'/>").
Definition sample_entry : string :=
  http_ok "200 OK" (soap_body_of ("<u:GetSpecificPortMappingEntryResponse><NewInternalPort>40000</NewInternalPort>"
    +:+ "<NewInternalClient>192.168.1.20</NewInternalClient><NewEnabled>1</NewEnabled>"
    +:+ "<NewLeaseDuration>55</NewLeaseDuration></u:GetSpecificPortMappingEntryResponse>")).

Definition sample_igd_reply (t : list gw_event) : string :=
  match length (exchanges t) with
  | O => sample_absent
  | S O => sample_added
  | _ => sample_entry
  end.
Definition sample_igd_router : Router :=
  {| on_cancelled := fun _ => false; on_open := fun _ => false; on_read := fun _ => None;
     on_netlink := fun _ => false; on_recv := fun _ => None;
     on_exchange := fun t _ _ => let reply := str_octets (sample_igd_reply t) in Ok (Z.of_nat (length reply), reply) |}.

Definition sample_http_url (s : string) : Url :=
  {| url_scheme := "http"; url_host_str := Some "192.168.1.1"; url_username := EmptyString;
     url_password := None; url_query := None; url_fragment := None; url_path := "/ctl"; url_as_str := s |}.
Definition sample_http_urls : UrlApi :=
  {| url_parse := fun s => Some (sample_http_url s); url_join := fun u _ => Some u |}.
Definition sample_http_hosts : UrlHost :=
  {| url_host_ipv4 := fun _ => Some (ipv4 192 168 1 1); url_port_or_known_default := fun _ => Some 5000 |}.

Definition sample_descriptor : IgdControlDescriptor :=
  {| igd_service := WanIpConnection; igd_gateway := ipv4 192 168 1 1; igd_port := 5000;
     path_and_query := "/ctl" |}.
Definition sample_upnp : UpnpMap :=
  {| um_descriptor := sample_descriptor; um_local_address := ipv4 192 168 1 20; um_internal_port := 40000;
     um_protocol := MappedUdp; um_maximum_lease_sec := 120;
     um_exclusive_reservation := Some sample_reservation |}.

Example map_upnp_adopts :
  let run := @map_upnp gw_event (@router_control sample_igd_router) sample_http_urls sample_http_hosts
               (fun s => s) sample_gateway sample_upnp [] in
  e_outcome <$> run.1 = Some Succeeded /\ e_granted_lifetime_sec <$> run.1 = Some (Some 55) /\
  length (exchanges run.2) = 3%nat.
Proof. vm_compute. by split_and!. Qed.
