(* ===== verification/MappingLifecycle.v ===== *)
(** * The mapping lifecycle

    [network_traversal/lifecycle.rs]: one bounded run of the mapping methods of a
    consented grant - baseline, create, verify, delete - with its accounting and
    its fences.

    The runtime is an oracle over the history of what was observed and done.  The
    code keeps its [Accounting] in a mutable local; here every [charge] is an event
    and the current accounting is a function of the history since the run began,
    so that the transport handed to the adapters sees the same value. *)
From Stdlib Require Import Ascii.
From stdpp Require Import prelude strings.
From S2P Require Import Prelude Json Bridge World RestartPolicy Traversal Wire Gateway Evidence Mapping Xml.
From S2P Require Import Upnp.

Local Open Scope Z_scope.

Definition METHOD_WINDOW_MS : Z := 8000.
Definition INBOUND_PORT_MIN : Z := 20000.
Definition INBOUND_PORT_MAX : Z := 60000.

Inductive MappingStop :=
| StopCancelled | StopExpired | StopGracefulShutdown | StopDeadline | StopBudget | StopInvalidBinding
| StopUnsupported | StopCleanupUncertain.

Record MappingBindings := {
  bind_claim_authority_digest : string;
  bind_artifact_digest : string;
  bind_helper : TraversalHelperIdentity;
  bind_consent_reference : string;
  bind_processor_allowlist_digest : string;
  bind_exclusive_reservation_digest : string
}.

Record MappingSession := { session_descriptor : TraversalDescriptorV1; session_reservation : Reservation }.

Record MappingMethodPlan := { plan_protocol : RouterProtocol; plan_transport : MappedPortProtocol }.

Record MappingGateway := {
  mg_gateway : SelectedGateway;
  mg_reservation : ExclusiveReservation;
  mg_local_address : Ipv4Addr;
  mg_external_address : option Ipv4Addr;
  mg_igd : option IgdControlDescriptor;
  mg_discovery_datagrams : Z;
  mg_discovery_control_requests : Z
}.

Record MappingPathCheck := {
  pc_stage : TraversalStage;
  pc_method : TraversalMethod;
  pc_transport : TraversalTransport;
  pc_family : TraversalFamily;
  pc_port : Z
}.

Record MappingPathEvidence := {
  ev_transcript : TraversalTranscriptV1;
  ev_echoed_challenge : option string
}.

Record MappingPathSummary := {
  ps_stage : TraversalStage;
  ps_outcome : TraversalOutcome;
  ps_error : option TraversalErrorClass
}.

Record MappingMethodReport := {
  mr_plan : MappingMethodPlan;
  mr_baseline : option MappingPathSummary;
  mr_create : option TraversalOutcome;
  mr_granted_lease_sec : option Z;
  mr_verification : option MappingPathSummary;
  mr_cleanup : TraversalCleanup;
  mr_expiry_unknown : bool;
  mr_stopped : option MappingStop
}.

Record MappingRunReport := {
  rr_discovery : TraversalOutcome;
  rr_methods : list MappingMethodReport;
  rr_deferred_methods : Z;
  rr_stopped : option MappingStop;
  rr_sent_datagrams : Z;
  rr_control_requests : Z;
  rr_external_dialbacks : Z
}.

#[global] Instance mapping_stop_eq_dec : EqDecision MappingStop.
Proof. solve_decision. Defined.
#[global] Instance plan_eq_dec : EqDecision MappingMethodPlan.
Proof. solve_decision. Defined.

(** ** Accounting *)

Record Accounting := {
  ordinary_datagrams : Z;
  ordinary_control : Z;
  left_cleanup_datagrams : Z;
  cleanup_control : Z;
  dialbacks : Z;
  sent_datagrams : Z;
  sent_control_requests : Z;
  sent_external_dialbacks : Z;
  acct_datagram_bytes : Z
}.

Definition accounting_new (b : TraversalBudgets) : Accounting :=
  {| ordinary_datagrams := outbound_datagrams b - cleanup_datagrams b;
     ordinary_control := control_requests b - cleanup_control_requests b;
     left_cleanup_datagrams := cleanup_datagrams b;
     cleanup_control := cleanup_control_requests b;
     dialbacks := external_dialbacks b;
     sent_datagrams := 0; sent_control_requests := 0; sent_external_dialbacks := 0;
     acct_datagram_bytes := datagram_bytes b |}.

Definition charge (a : Accounting) (datagrams controls dials : Z) (cleanup : bool)
  : result Accounting MappingStop :=
  let d := if cleanup then left_cleanup_datagrams a else ordinary_datagrams a in
  let c := if cleanup then cleanup_control a else ordinary_control a in
  if (d <? datagrams) || (c <? controls) || (dialbacks a <? dials) then Err StopBudget
  else
    Ok {| ordinary_datagrams := if cleanup then ordinary_datagrams a else d - datagrams;
          ordinary_control := if cleanup then ordinary_control a else c - controls;
          left_cleanup_datagrams := if cleanup then d - datagrams else left_cleanup_datagrams a;
          cleanup_control := if cleanup then c - controls else cleanup_control a;
          dialbacks := dialbacks a - dials;
          sent_datagrams := sent_datagrams a + datagrams;
          sent_control_requests := sent_control_requests a + controls;
          sent_external_dialbacks := sent_external_dialbacks a + dials;
          acct_datagram_bytes := acct_datagram_bytes a |}.

Definition udp_router (p : RouterProtocol) : bool := negb (bool_decide (p = UpnpIgd)).
Definition b2z (b : bool) : Z := if b then 1 else 0.

(** What a whole method asks of the ordinary allowance, and of the cleanup one. *)
Definition plan_controls (p : MappingMethodPlan) : Z := 4 + if udp_router (plan_protocol p) then 1 else 3.
Definition plan_datagrams (p : MappingMethodPlan) : Z :=
  b2z (udp_router (plan_protocol p)) + 2 * b2z (bool_decide (plan_transport p = MappedUdp)).
Definition sum_of {A} (f : A -> Z) (l : list A) : Z := foldr (fun a n => f a + n) 0 l.

Definition fits (a : Accounting) (plans : list MappingMethodPlan) (available_ms : Z) : bool :=
  let controls := sum_of plan_controls plans in
  let datagrams := sum_of plan_datagrams plans in
  let deletes_udp := sum_of (fun p => b2z (udp_router (plan_protocol p))) plans in
  let n := Z.of_nat (length plans) in
  (controls <=? ordinary_control a)
  && (datagrams <=? ordinary_datagrams a)
  && (n <=? cleanup_control a)
  && (deletes_udp <=? left_cleanup_datagrams a)
  && (2 * n <=? dialbacks a)
  && (n * METHOD_WINDOW_MS <=? available_ms)
  && ((datagrams + deletes_udp =? 0) || (60 <=? acct_datagram_bytes a)).

Definition method_of (p : RouterProtocol) : TraversalMethod :=
  match p with Pcp => MethodPcp | NatPmp => MethodNatPmp | UpnpIgd => MethodUpnpIgd end.
Definition transport_of (p : MappedPortProtocol) : TraversalTransport :=
  match p with MappedTcp => Tcp | MappedUdp => Udp end.

(** Whether a request is one of the adapters' exact delete encodings. *)
Definition delete_request (p : RouterProtocol) (request : list Z) : bool :=
  match p with
  | Pcp => Nat.eqb (length request) PCP_MAP_PACKET_BYTES && bool_decide (take 4 (drop 4 request) = zeros 4)
  | NatPmp =>
      Nat.eqb (length request) NATPMP_MAP_REQUEST_BYTES && bool_decide (take 4 (drop 8 request) = zeros 4)
  | UpnpIgd => contains ("#DeletePortMapping" +:+ quote) (octets_str request)
  end.

(** ** The runtime *)

Inductive map_event :=
| MapOpen (b : TraversalBudgets)
| MapCharge (datagrams controls dials : Z) (cleanup : bool)
| MapNow (ms : Z)
| MapStop (stop : option MappingStop)
| MapObserved (a : Ipv4Addr)
| MapNonce (r : result (list Z) MappingStop)
| MapBind (p : MappedPortProtocol) (r : result Z MappingStop)
| MapPathCheck (pc : MappingPathCheck) (deadline : Z) (r : result MappingPathEvidence MappingStop)
| MapAttest (transcript : TraversalTranscriptV1) (deadline : Z) (r : result unit MappingStop)
| MapRouter (p : RouterProtocol) (cleanup : bool) (destination : SocketAddr) (request : list Z)
    (deadline : Z) (r : result (Z * list Z) ControlRefusal).

(** A bound listener is known by its port; it is held until its method ends. *)
Class MappingRuntime := {
  rt_now : list map_event -> Z;
  rt_observed : list map_event -> Ipv4Addr;
  rt_stop : list map_event -> option MappingStop;
  rt_nonce : list map_event -> result (list Z) MappingStop;
  rt_bind : list map_event -> MappedPortProtocol -> result Z MappingStop;
  rt_path_check : list map_event -> MappingPathCheck -> Z -> result MappingPathEvidence MappingStop;
  rt_attest : list map_event -> TraversalTranscriptV1 -> Z -> result unit MappingStop;
  rt_exchange : list map_event -> SocketAddr -> list Z -> Z -> result (Z * list Z) ControlRefusal
}.

Definition accounting_zero : Accounting :=
  {| ordinary_datagrams := 0; ordinary_control := 0; left_cleanup_datagrams := 0; cleanup_control := 0;
     dialbacks := 0; sent_datagrams := 0; sent_control_requests := 0; sent_external_dialbacks := 0;
     acct_datagram_bytes := 0 |}.

(** The accounting of the run in progress. *)
Fixpoint accounting_of (t : list map_event) : Accounting :=
  match t with
  | [] => accounting_zero
  | MapOpen b :: _ => accounting_new b
  | MapCharge d c k cleanup :: t =>
      let a := accounting_of t in
      match charge a d c k cleanup with Ok a => a | Err _ => a end
  | _ :: t => accounting_of t
  end.

(** ** Sessions *)

Section Sessions.
Context `{!JsonText}.

Definition from_authenticated_bootstrap (d : TraversalDescriptorV1) (b : MappingBindings)
    (now job_expires : Z) : result MappingSession TraversalRefusal :=
  let? _ := can_start d now job_expires EXISTING_DELIVERY_RESERVE_MS in
  let? consent := ok_or InvalidConsent (mapping d) in
  if negb (bool_decide (mode d = ModeMapping))
     || negb (claim_authority_digest d =s bind_claim_authority_digest b)
     || negb (artifact_digest d =s bind_artifact_digest b)
     || negb (helper_version d =s identity_version (bind_helper b))
     || negb (helper_digest d =s identity_digest (bind_helper b))
     || negb (consent_reference consent =s bind_consent_reference b)
     || negb (processor_allowlist_digest consent =s bind_processor_allowlist_digest b)
     || negb (exclusive_reservation_digest consent =s bind_exclusive_reservation_digest b)
  then Err InvalidBinding
  else
    let finish := now + experiment_ms (budgets d) in
    Ok {| session_descriptor := d;
          session_reservation :=
            {| reserved_experiment_ms := experiment_ms (budgets d);
               reserved_cleanup_reserve_ms := cleanup_reserve_ms (budgets d);
               delivery_reserve_ms := EXISTING_DELIVERY_RESERVE_MS;
               collector_end_ms := finish;
               delivery_end_ms := finish + EXISTING_DELIVERY_RESERVE_MS |} |}.

End Sessions.

(** ** One run *)

Section Lifecycle.
Context `{!JsonText, !Sha256, !Encodings, !UrlApi, !UrlHost, !MappingRuntime}.

Definition now_ms : io map_event Z := ask rt_now MapNow.
Definition stop_requested : io map_event (option MappingStop) := ask rt_stop MapStop.

(** [Accounting::charge] on the accounting of this run. *)
Definition charge_now (d c k : Z) (cleanup : bool) : io map_event (result unit MappingStop) :=
  fun t =>
    match charge (accounting_of t) d c k cleanup with
    | Err e => (Some (Err e), t)
    | Ok _ => (Some (Ok tt), MapCharge d c k cleanup :: t)
    end.
Definition accounting_now : io map_event Accounting := fun t => (Some (accounting_of t), t).

Definition ordinary (finish : Z) : io map_event (result unit MappingStop) :=
  stop ← stop_requested;
  match stop with
  | Some stop => mret (Err stop)
  | None => now ← now_ms; mret (if finish <=? now then Err StopDeadline else Ok tt)
  end.

(** [BoundedControl], with the adapters' cancellation callback [|| false]. *)
Definition bounded_exchange (p : RouterProtocol) (ordinary_end cleanup_end : Z) (cleaning : bool)
    (destination : SocketAddr) (request : list Z) (capacity : Z)
  : io map_event (result (Z * list Z) ControlRefusal) :=
  let cleanup := cleaning || delete_request p request in
  let finish := if cleanup then cleanup_end else ordinary_end in
  now ← now_ms;
  stop ← if finish <=? now then mret true
         else if cleanup then mret false
         else stop ← stop_requested; mret (opt_is_some stop);
  if stop : bool then mret (Err ControlBounded)
  else
    a ← accounting_now;
    let datagrams := b2z (udp_router p) in
    if negb (datagrams =? 0) && (acct_datagram_bytes a <? Z.of_nat (length request))
    then mret (Err ControlOversize)
    else
      charged ← charge_now datagrams 1 0 cleanup;
      match charged with
      | Err _ => mret (Err ControlBounded)
      | Ok _ =>
          let!? reply := ask (fun t => rt_exchange t destination request finish)
                           (MapRouter p cleanup destination request finish) in
          late ← if capacity <? reply.1 then mret true
                 else if cleanup then now ← now_ms; mret (finish <=? now)
                 else mret false;
          mret (if late : bool then Err ControlBounded else Ok reply)
      end.

Definition bounded_control (p : RouterProtocol) (ordinary_end cleanup_end : Z) (cleaning : bool)
  : Control map_event :=
  {| control_cancelled := mret false;
     control_exchange := bounded_exchange p ordinary_end cleanup_end cleaning |}.

(** The evidence of one path check is in scope and answers this check. *)
Definition evidence_ok (d : TraversalDescriptorV1) (now : Z) (pc : MappingPathCheck)
    (e : MappingPathEvidence) : bool :=
  let t := ev_transcript e in
  negb (negb (is_ok (transcript_validate_scope t d now))
        || negb (same (tr_authority t) ExternalPath)
        || negb (same (tr_stage t) (pc_stage pc))
        || negb (same (tr_method t) (pc_method pc))
        || negb (same (tr_transport t) (pc_transport pc))
        || negb (same (tr_family t) (pc_family pc))
        || negb (one_of (tr_outcome t)
                   [Succeeded; Failed; UnverifiableEndpoint; OutcomeBudgetExhausted; ProberNoEgress])
        || (same (tr_outcome t) Succeeded
            && is_none_or (ev_echoed_challenge e) (fun c => negb (hex_encode c =s tr_challenge t)))).

Definition path (d : TraversalDescriptorV1) (pc : MappingPathCheck) (finish : Z)
  : io map_event (result MappingPathSummary MappingStop) :=
  let!? _ := ordinary finish in
  let!? _ := charge_now (b2z (same (pc_transport pc) Udp)) 2 1 false in
  let!? evidence := ask (fun t => rt_path_check t pc finish) (MapPathCheck pc finish) in
  let!? _ := ordinary finish in
  now ← now_ms;
  if negb (evidence_ok d now pc evidence) then mret (Err StopInvalidBinding)
  else
    let t := ev_transcript evidence in
    let!? _ := ask (fun h => rt_attest h t finish) (MapAttest t finish) in
    let!? _ := ordinary finish in
    mret (Ok {| ps_stage := pc_stage pc; ps_outcome := tr_outcome t; ps_error := tr_error_class t |}).

(** A row with the given fields. *)
Definition row_of (plan : MappingMethodPlan) (baseline : option MappingPathSummary)
    (create : option TraversalOutcome) (granted : option Z) (verification : option MappingPathSummary)
    (cleanup : TraversalCleanup) (expiry_unknown : bool) (stopped : option MappingStop)
  : MappingMethodReport :=
  {| mr_plan := plan; mr_baseline := baseline; mr_create := create; mr_granted_lease_sec := granted;
     mr_verification := verification; mr_cleanup := cleanup; mr_expiry_unknown := expiry_unknown;
     mr_stopped := stopped |}.

(** The adapter of the plan's protocol; [None] when UPnP has no descriptor. *)
Definition create_mapping (consent : TraversalMappingConsent) (mg : MappingGateway)
    (plan : MappingMethodPlan) (port : Z) (nonce : list Z) (active_end finish : Z)
  : io map_event (option MappingEffect) :=
  let control := bounded_control (plan_protocol plan) active_end finish false in
  match plan_protocol plan with
  | Pcp =>
      e ← @map_pcp _ control _ _ (mg_gateway mg)
            {| pm_local_address := mg_local_address mg; pm_internal_port := port;
               pm_protocol := plan_transport plan; pm_nonce := nonce;
               pm_maximum_lease_sec := maximum_lease_sec consent; pm_previous_epoch := None;
               pm_exclusive_reservation := Some (mg_reservation mg) |};
      mret (Some e)
  | NatPmp =>
      e ← @map_nat_pmp _ control _ _ (mg_gateway mg)
            {| nm_internal_port := port; nm_protocol := plan_transport plan;
               nm_maximum_lease_sec := maximum_lease_sec consent; nm_previous_epoch := None;
               nm_exclusive_reservation := Some (mg_reservation mg) |};
      mret (Some e)
  | UpnpIgd =>
      match mg_igd mg with
      | None => mret None
      | Some igd =>
          e ← @map_upnp _ control _ _ _ (mg_gateway mg)
                {| um_descriptor := igd; um_local_address := mg_local_address mg;
                   um_internal_port := port; um_protocol := plan_transport plan;
                   um_maximum_lease_sec := maximum_lease_sec consent;
                   um_exclusive_reservation := Some (mg_reservation mg) |};
          mret (Some e)
      end
  end.

Definition unverifiable : MappingPathSummary :=
  {| ps_stage := MappingVerify; ps_outcome := UnverifiableEndpoint; ps_error := None |}.

Definition inbound_port (port : Z) : bool := (INBOUND_PORT_MIN <=? port) && (port <=? INBOUND_PORT_MAX).

(** The verification of an adopted lease: its summary and why it stopped. *)
Definition verify_mapping (d : TraversalDescriptorV1) (mg : MappingGateway) (plan : MappingMethodPlan)
    (h : OwnedMappingHandle) (active_end : Z)
  : io map_event (option MappingPathSummary * option MappingStop) :=
  let mapped_address := match plan_protocol plan with
                        | Pcp => h_external_address h | _ => mg_external_address mg
                        end in
  match mapped_address with
  | None => mret (Some unverifiable, None)
  | Some address =>
      let pc := {| pc_stage := MappingVerify; pc_method := method_of (plan_protocol plan);
                   pc_transport := transport_of (plan_transport plan); pc_family := V4;
                   pc_port := h_external_port h |} in
      if negb (inbound_port (pc_port pc)) then mret (None, Some StopInvalidBinding)
      else
        observed ← ask rt_observed MapObserved;
        if negb (bool_decide (address = observed)) then mret (Some unverifiable, None)
        else
          r ← path d pc active_end;
          mret match r with Ok s => (Some s, None) | Err stop => (None, Some stop) end
  end.

(** The explicit delete of an adopted lease: the cleanup it comes to and whether
    its expiry is unknown. *)
Definition cleanup_mapping (mg : MappingGateway) (plan : MappingMethodPlan) (h : OwnedMappingHandle)
    (created : MappingEffect) (active_end finish : Z) : io map_event (TraversalCleanup * bool) :=
  before ← accounting_now;
  deleted ← @delete_owned_mapping _ (bounded_control (plan_protocol plan) active_end finish true) _ _ _
              (mg_gateway mg) h (Some (mg_reservation mg)) (e_epoch created) (mg_igd mg);
  after ← accounting_now;
  mret match e_cleanup deleted with
  | ConfirmedDeleted => (ConfirmedDeleted, false)
  | c =>
      if sent_control_requests after =? sent_control_requests before then (LeaseExpiryPending, false)
      else (DeleteFailed, same c CleanupExpiryUnknown)
  end.

(** What one method leaves behind: a row, if it got that far, and why the run
    stops, if it does. *)
Definition method_outcome : Type := option MappingMethodReport * option MappingStop.

Definition stop_row (plan : MappingMethodPlan) (baseline : option MappingPathSummary) (stop : MappingStop)
  : method_outcome :=
  (Some (row_of plan baseline None None None NotCreated false (Some stop)), Some stop).

(** After the create: verify, delete, and decide whether the run goes on. *)
Definition finish_method (d : TraversalDescriptorV1) (mg : MappingGateway) (plan : MappingMethodPlan)
    (baseline : MappingPathSummary) (created : MappingEffect) (active_end finish : Z)
  : io map_event method_outcome :=
  r ← match e_handle created with
      | Some h =>
          if same (e_cleanup created) LeaseExpiryPending then
            v ← if same (e_outcome created) Succeeded then verify_mapping d mg plan h active_end
                else mret (None, None);
            c ← cleanup_mapping mg plan h created active_end finish;
            mret (v.1, v.2, c.1, c.2)
          else mret (None, None, e_cleanup created, false)
      | None => mret (None, None, e_cleanup created, false)
      end;
  let '(verification, stopped, cleanup, expiry_unknown) := r in
  let expiry_unknown := expiry_unknown || one_of cleanup [CleanupCreationUnknown; CleanupExpiryUnknown] in
  let uncertain := negb (one_of cleanup [NotCreated; ConfirmedDeleted]) in
  let row := row_of plan (Some baseline) (Some (e_outcome created)) (e_granted_lifetime_sec created)
               verification cleanup expiry_unknown stopped in
  mret (Some row,
        if uncertain || opt_is_some stopped
        then Some (default StopCleanupUncertain stopped) else None).

(** After a measured baseline: the last fences, the nonce and the create. *)
Definition create_method (d : TraversalDescriptorV1) (consent : TraversalMappingConsent)
    (mg : MappingGateway) (plan : MappingMethodPlan) (port : Z) (baseline : MappingPathSummary)
    (active_end finish : Z) : io map_event method_outcome :=
  go ← ordinary active_end;
  match go with
  | Err stop => mret (stop_row plan (Some baseline) stop)
  | Ok _ =>
      a ← accounting_now;
      tight ← if (cleanup_control a =? 0)
                 || (left_cleanup_datagrams a <? b2z (udp_router (plan_protocol plan))) then mret true
              else now ← now_ms; mret (active_end <=? saturating_add u64_max now 1000);
      if tight : bool then mret (stop_row plan (Some baseline) StopBudget)
      else
        nonce ← if bool_decide (plan_protocol plan = Pcp) then
                  r ← ask rt_nonce MapNonce;
                  mret match r with
                       | Ok n => if bool_decide (n = zeros 12) then None else Some n
                       | Err _ => None
                       end
                else mret (Some (zeros 12));
        match nonce with
        | None => mret (stop_row plan (Some baseline) StopUnsupported)
        | Some nonce =>
            created ← create_mapping consent mg plan port nonce active_end finish;
            match created with
            | None => mret (stop_row plan (Some baseline) StopUnsupported)
            | Some created => finish_method d mg plan baseline created active_end finish
            end
        end
  end.

Definition run_method (d : TraversalDescriptorV1) (consent : TraversalMappingConsent)
    (mg : MappingGateway) (plan : MappingMethodPlan) (active_end finish : Z)
  : io map_event method_outcome :=
  go ← ordinary active_end;
  match go with
  | Err stop => mret (None, Some stop)
  | Ok _ =>
      bound ← ask (fun t => rt_bind t (plan_transport plan)) (MapBind (plan_transport plan));
      match bound with
      | Err stop => mret (None, Some stop)
      | Ok port =>
          if negb (inbound_port port) then mret (None, Some StopInvalidBinding)
          else
            r ← path d {| pc_stage := Baseline; pc_method := Unassisted;
                          pc_transport := transport_of (plan_transport plan); pc_family := V4;
                          pc_port := port |} active_end;
            match r with
            | Err stop => mret (stop_row plan None stop)
            | Ok baseline =>
                if negb (one_of (ps_outcome baseline) [Succeeded; Failed])
                then mret (stop_row plan (Some baseline) StopUnsupported)
                else create_method d consent mg plan port baseline active_end finish
            end
      end
  end.

Fixpoint run_methods (d : TraversalDescriptorV1) (consent : TraversalMappingConsent) (mg : MappingGateway)
    (plans : list MappingMethodPlan) (active_end finish : Z)
  : io map_event (list MappingMethodReport * option MappingStop) :=
  match plans with
  | [] => mret ([], None)
  | plan :: plans =>
      r ← run_method d consent mg plan active_end finish;
      match r with
      | (row, Some stop) => mret (option_list row, Some stop)
      | (row, None) =>
          rest ← run_methods d consent mg plans active_end finish;
          mret (option_list row ++ rest.1, rest.2)
      end
  end.

Definition plan_ok (d : TraversalDescriptorV1) (p : MappingMethodPlan) : bool :=
  ops_contain (operations d)
    match plan_protocol p with Pcp => MapPcp | NatPmp => MapNatPmp | UpnpIgd => MapUpnp end
  && ops_contain (operations d)
       match plan_transport p with MappedTcp => BaselineTcp | MappedUdp => BaselineUdp end.

(** [plans.iter().enumerate().any(|(i, p)| plans[..i].contains(p))]. *)
Fixpoint has_duplicate (plans : list MappingMethodPlan) : bool :=
  match plans with [] => false | p :: plans => bool_decide (p ∈ plans) || has_duplicate plans end.

Definition matches_binding (r : ExclusiveReservation) (g : SelectedGateway) (bound : string) : bool :=
  authorizes r g && (bound =s "sha256:" +:+ hex_encode (octets_str (reserved_digest r))).

Definition stopped_report (discovery : TraversalOutcome) (deferred : Z) (stop : MappingStop)
    (datagrams controls : Z) : MappingRunReport :=
  {| rr_discovery := discovery; rr_methods := []; rr_deferred_methods := deferred;
     rr_stopped := Some stop; rr_sent_datagrams := datagrams; rr_control_requests := controls;
     rr_external_dialbacks := 0 |}.

Definition run_mapping_lifecycle (session : MappingSession) (plans : list MappingMethodPlan)
    (mg : MappingGateway) : io map_event MappingRunReport :=
  let d := session_descriptor session in
  _ ← emit (MapOpen (budgets d));
  match mapping d with
  | None => diverge
  | Some consent =>
      let finish := collector_end_ms (session_reservation session) in
      let active_end := finish - reserved_cleanup_reserve_ms (session_reservation session) in
      now ← now_ms;
      if negb (is_ok (validate_at d now)) || match plans with [] => true | _ => false end
         || (3 <? Z.of_nat (length plans)) || negb (forallb (plan_ok d) plans) || has_duplicate plans
         || negb (matches_binding (mg_reservation mg) (mg_gateway mg) (exclusive_reservation_digest consent))
      then mret (stopped_report NotStarted 0 StopInvalidBinding 0 0)
      else
        charged ← charge_now (mg_discovery_datagrams mg) (mg_discovery_control_requests mg) 0 false;
        match charged with
        | Err _ => mret (stopped_report NotStarted 0 StopBudget 0 0)
        | Ok _ =>
            a ← accounting_now;
            now ← now_ms;
            let available := saturating_sub_u active_end now in
            let whole := fits a plans available in
            let selected := if whole then plans else take 1 plans in
            let deferred := if whole then 0 else Z.of_nat (length plans) - 1 in
            if negb (fits a selected available)
            then mret (stopped_report Succeeded deferred StopBudget (sent_datagrams a)
                         (sent_control_requests a))
            else
              r ← run_methods d consent mg selected active_end finish;
              a ← accounting_now;
              mret {| rr_discovery := Succeeded; rr_methods := r.1; rr_deferred_methods := deferred;
                      rr_stopped := r.2; rr_sent_datagrams := sent_datagrams a;
                      rr_control_requests := sent_control_requests a;
                      rr_external_dialbacks := sent_external_dialbacks a |}
        end
  end.

End Lifecycle.

(** * Properties *)

(** ** Allowances

    What the run in progress has done, by kind: a router exchange is one control
    request, and a datagram unless it is SOAP; a path check and its attestation are
    one control request each, and the check is one dialback and one UDP echo. *)

Fixpoint used (f : map_event -> Z) (t : list map_event) : Z :=
  match t with
  | [] | MapOpen _ :: _ => 0
  | e :: t => f e + used f t
  end.

Definition ordinary_requests (e : map_event) : Z :=
  match e with
  | MapRouter _ false _ _ _ _ | MapPathCheck _ _ _ | MapAttest _ _ _ => 1 | _ => 0
  end.
Definition cleanup_requests (e : map_event) : Z :=
  match e with MapRouter _ true _ _ _ _ => 1 | _ => 0 end.
Definition ordinary_packets (e : map_event) : Z :=
  match e with
  | MapRouter p false _ _ _ _ => b2z (udp_router p)
  | MapPathCheck pc _ _ => b2z (same (pc_transport pc) Udp)
  | _ => 0
  end.
Definition cleanup_packets (e : map_event) : Z :=
  match e with MapRouter p true _ _ _ _ => b2z (udp_router p) | _ => 0 end.
Definition dialled (e : map_event) : Z := match e with MapPathCheck _ _ _ => 1 | _ => 0 end.

(** Allowance left, used and charged ahead never exceed the budget. *)
Record within (b : TraversalBudgets) (oc cc od cd k : Z) (t : list map_event) : Prop := {
  w_oc : 0 <= ordinary_control (accounting_of t) /\
    ordinary_control (accounting_of t) + used ordinary_requests t + oc
      <= control_requests b - cleanup_control_requests b;
  w_cc : 0 <= cleanup_control (accounting_of t) /\
    cleanup_control (accounting_of t) + used cleanup_requests t + cc <= cleanup_control_requests b;
  w_od : 0 <= ordinary_datagrams (accounting_of t) /\
    ordinary_datagrams (accounting_of t) + used ordinary_packets t + od
      <= outbound_datagrams b - cleanup_datagrams b;
  w_cd : 0 <= left_cleanup_datagrams (accounting_of t) /\
    left_cleanup_datagrams (accounting_of t) + used cleanup_packets t + cd <= cleanup_datagrams b;
  w_k : 0 <= dialbacks (accounting_of t) /\
    dialbacks (accounting_of t) + used dialled t + k <= external_dialbacks b
}.

Definition inside (b : TraversalBudgets) : list map_event -> Prop := within b 0 0 0 0 0.

Definition bookkeeping (e : map_event) : bool :=
  match e with MapOpen _ | MapCharge _ _ _ _ => true | _ => false end.

(** An event uses what was charged ahead for it. *)
Lemma within_event b oc cc od cd k e t :
  bookkeeping e = false -> within b oc cc od cd k t ->
  within b (oc - ordinary_requests e) (cc - cleanup_requests e) (od - ordinary_packets e)
    (cd - cleanup_packets e) (k - dialled e) (e :: t).
Proof. intros He []. destruct e; try done; split; cbn [accounting_of used]; lia. Qed.

Lemma within_drop b oc cc od cd k t :
  within b oc cc od cd k t -> 0 <= oc -> 0 <= cc -> 0 <= od -> 0 <= cd -> 0 <= k -> inside b t.
Proof. intros []. split; lia. Qed.

(** An event that costs nothing keeps the run inside its budget. *)
Lemma inside_free b e t :
  bookkeeping e = false ->
  ordinary_requests e = 0 -> cleanup_requests e = 0 -> ordinary_packets e = 0 -> cleanup_packets e = 0 ->
  dialled e = 0 -> inside b t -> inside b (e :: t).
Proof.
  intros He ????? Hi. pose proof (within_event b 0 0 0 0 0 e t He Hi) as Hw.
  apply (within_drop _ _ _ _ _ _ _ Hw); lia.
Qed.

Section LifecycleFacts.
Context `{!JsonText, !Sha256, !Encodings, !UrlApi, !UrlHost, !MappingRuntime}.

Lemma charge_now_within b d c k cleanup :
  0 <= d -> 0 <= c -> 0 <= k ->
  hoare (inside b) (charge_now d c k cleanup)
    (fun r t => match r with
     | Ok _ => within b (if cleanup then 0 else c) (if cleanup then c else 0)
                 (if cleanup then 0 else d) (if cleanup then d else 0) k t
     | Err _ => inside b t
     end) (fun _ => False).
Proof.
  intros Hd Hc Hk t [Hoc Hcc Hod Hcd Hdk]. unfold charge_now.
  destruct (charge (accounting_of t) d c k cleanup) as [a|e] eqn:Hch; [| by split].
  assert (Ha : accounting_of (MapCharge d c k cleanup :: t) = a) by (cbn; by rewrite Hch).
  unfold charge in Hch. destruct (_ || _) eqn:Hor in Hch; [done |]. reflect_bool.
  injection Hch as Hch. rewrite <- Hch in Ha.
  split; rewrite Ha; cbn [used ordinary_requests cleanup_requests ordinary_packets cleanup_packets dialled];
    destruct cleanup; cbn; lia.
Qed.

(** Reading the clock, the stop flag, the nonce or the observed address does nothing. *)
Definition quiet (e : map_event) : bool :=
  match e with MapNow _ | MapStop _ | MapObserved _ | MapNonce _ => true | _ => false end.

(** An invariant that quiet events, path checks and router exchanges keep is kept
    by a method from its create on. *)
Section Upkeep.
Context (I : list map_event -> Prop) (quiet_keeps : forall e t, quiet e = true -> I t -> I (e :: t)).

Lemma now_ms_keeps : keeps I now_ms.
Proof. apply keeps_ask. intros t a. by apply quiet_keeps. Qed.
Lemma stop_requested_keeps : keeps I stop_requested.
Proof. apply keeps_ask. intros t a. by apply quiet_keeps. Qed.
Lemma accounting_now_keeps : keeps I accounting_now.
Proof. by intros t Ht. Qed.
#[local] Hint Resolve now_ms_keeps stop_requested_keeps accounting_now_keeps : keeps.

Lemma ordinary_keeps finish : keeps I (ordinary finish).
Proof. unfold ordinary. solve_keeps. Qed.
#[local] Hint Resolve ordinary_keeps : keeps.

Context (exchange_keeps : forall p oe ce cleaning d request capacity,
  keeps I (bounded_exchange p oe ce cleaning d request capacity)).
Context (path_keeps : forall d pc finish, keeps I (path d pc finish)).
#[local] Hint Resolve path_keeps : keeps.

Lemma bounded_control_keeps p oe ce cleaning :
  keeps I (@control_cancelled _ (bounded_control p oe ce cleaning)) /\
  forall d request capacity, keeps I (@control_exchange _ (bounded_control p oe ce cleaning) d request capacity).
Proof. split; [apply keeps_ret | intros; apply exchange_keeps]. Qed.

Lemma create_mapping_keeps consent mg plan port nonce active_end finish :
  keeps I (create_mapping consent mg plan port nonce active_end finish).
Proof.
  unfold create_mapping. cbv zeta.
  destruct (bounded_control_keeps (plan_protocol plan) active_end finish false) as [Hc Hx].
  pose proof (@map_pcp_keeps _ _ H2 H3 _ Hc Hx). pose proof (@map_nat_pmp_keeps _ _ H2 H3 _ Hc Hx).
  pose proof (@map_upnp_keeps _ _ H2 H3 H0 _ Hc Hx). solve_keeps.
Qed.

Lemma cleanup_mapping_keeps mg plan h created active_end finish :
  keeps I (cleanup_mapping mg plan h created active_end finish).
Proof.
  unfold cleanup_mapping.
  destruct (bounded_control_keeps (plan_protocol plan) active_end finish true) as [Hc Hx].
  pose proof (@delete_owned_mapping_keeps _ _ H2 H3 H0 _ Hc Hx). solve_keeps.
Qed.

Lemma verify_mapping_keeps d mg plan h active_end : keeps I (verify_mapping d mg plan h active_end).
Proof.
  unfold verify_mapping. cbv zeta.
  assert (keeps I (ask rt_observed MapObserved)) by (apply keeps_ask; intros t a; by apply quiet_keeps).
  solve_keeps.
Qed.
#[local] Hint Resolve create_mapping_keeps cleanup_mapping_keeps verify_mapping_keeps : keeps.

Lemma finish_method_keeps d mg plan baseline created active_end finish :
  keeps I (finish_method d mg plan baseline created active_end finish).
Proof. unfold finish_method. solve_keeps. Qed.
#[local] Hint Resolve finish_method_keeps : keeps.

Lemma create_method_keeps d consent mg plan port baseline active_end finish :
  keeps I (create_method d consent mg plan port baseline active_end finish).
Proof.
  unfold create_method.
  assert (keeps I (ask rt_nonce MapNonce)) by (apply keeps_ask; intros t a; by apply quiet_keeps).
  solve_keeps.
Qed.

End Upkeep.

Lemma within_quiet b oc e t : quiet e = true -> within b oc 0 0 0 0 t -> within b oc 0 0 0 0 (e :: t).
Proof. intros He []. destruct e; try done; split; cbn in *; lia. Qed.
#[local] Hint Resolve now_ms_keeps stop_requested_keeps accounting_now_keeps ordinary_keeps : keeps.

Section Within.
Context (b : TraversalBudgets).
#[local] Hint Extern 1 (within _ _ _ _ _ _ (_ :: _)) => apply within_quiet : keeps.
#[local] Hint Extern 1 (inside _ (_ :: _)) => apply within_quiet : keeps.

Lemma bounded_exchange_keeps p ordinary_end cleanup_end cleaning d request capacity :
  keeps (inside b) (bounded_exchange p ordinary_end cleanup_end cleaning d request capacity).
Proof.
  unfold bounded_exchange. cbv zeta. set (cleanup := cleaning || delete_request p request).
  apply keeps_bind; [solve_keeps |]. intros now.
  apply keeps_bind; [solve_keeps |]. intros []; [solve_keeps |].
  apply keeps_bind; [solve_keeps |]. intros a. destruct (_ && _); [solve_keeps |].
  eapply hoare_bind; [apply charge_now_within; [unfold b2z; by destruct (udp_router p) | lia | lia] |].
  intros [[]|e]; [| solve_keeps].
  eapply hoare_bind with (R := fun _ => inside b).
  - apply hoare_ask. intros t Ht.
    eapply within_drop; [apply within_event; [done | exact Ht] | ..]; destruct cleanup; cbn; lia.
  - intros [reply|e]; solve_keeps.
Qed.

Lemma path_keeps d pc finish : keeps (inside b) (path d pc finish).
Proof.
  unfold path. apply keeps_bind; [solve_keeps |]. intros [[]|e]; [| solve_keeps].
  eapply hoare_bind; [apply charge_now_within; [unfold b2z; by destruct (same _ _) | lia | lia] |].
  intros [[]|e]; [| solve_keeps].
  eapply hoare_bind with (R := fun _ => within b 1 0 0 0 0).
  { apply hoare_ask. intros t Ht.
    apply (within_event _ _ _ _ _ _ (MapPathCheck pc finish (rt_path_check t pc finish))) in Ht; [| done].
    destruct Ht. split; cbn in *; lia. }
  intros [evidence|e]; [| intros t Ht; by eapply within_drop].
  eapply hoare_bind with (R := fun _ => within b 1 0 0 0 0); [apply ordinary_keeps, within_quiet |].
  intros [[]|e]; [| intros t Ht; by eapply within_drop].
  eapply hoare_bind with (R := fun _ => within b 1 0 0 0 0); [apply now_ms_keeps, within_quiet |].
  intros now. destruct (negb _); [intros t Ht; by eapply within_drop |].
  eapply hoare_bind with (R := fun _ => inside b).
  { apply hoare_ask. intros t Ht. eapply within_drop; [apply within_event; [done | exact Ht] | cbn; lia ..]. }
  intros [[]|e]; solve_keeps.
Qed.

Lemma run_method_keeps d consent mg plan active_end finish :
  keeps (inside b) (run_method d consent mg plan active_end finish).
Proof.
  unfold run_method. pose proof path_keeps.
  assert (keeps (inside b) (ask (fun t => rt_bind t (plan_transport plan)) (MapBind (plan_transport plan))))
    by (apply keeps_ask; intros t a Ht; by apply inside_free).
  assert (forall port baseline,
            keeps (inside b) (create_method d consent mg plan port baseline active_end finish))
    by (intros; apply create_method_keeps; [apply within_quiet | apply bounded_exchange_keeps | done]).
  solve_keeps.
Qed.
#[local] Hint Resolve run_method_keeps : keeps.

Lemma run_methods_keeps d consent mg plans active_end finish :
  keeps (inside b) (run_methods d consent mg plans active_end finish).
Proof. induction plans as [|plan plans IH]; cbn [run_methods]; solve_keeps. Qed.

End Within.
#[local] Hint Resolve run_methods_keeps : keeps.
#[local] Hint Extern 1 (inside _ (_ :: _)) => apply within_quiet : keeps.

(** The budgets of a grant hold unsigned integers. *)
Record budgets_unsigned (b : TraversalBudgets) : Prop := {
  bu_cleanup_datagrams : 0 <= cleanup_datagrams b;
  bu_cleanup_control : 0 <= cleanup_control_requests b;
  bu_dialbacks : 0 <= external_dialbacks b
}.

Lemma inside_open b t : budgets_unsigned b -> budgets_bounded b -> inside b (MapOpen b :: t).
Proof. intros [] []. split; cbn; lia. Qed.

(** What a bootstrapped session carries. *)
Lemma bootstrap_session d binds now job session :
  from_authenticated_bootstrap d binds now job = Ok session ->
  session_descriptor session = d /\ grant_valid d /\ mode d = ModeMapping /\
  (exists consent, mapping d = Some consent) /\
  collector_end_ms (session_reservation session) = now + experiment_ms (budgets d) /\
  issued_at_ms d <= now /\ now + experiment_ms (budgets d) <= deadline_ms d.
Proof.
  unfold from_authenticated_bootstrap.
  destruct (can_start d now job _) as [[]|] eqn:Hc; [| done].
  destruct (mapping d) as [consent|]; [| done]. cbn [ok_or].
  destruct (_ || _) eqn:Hor; [done |]. intros [= <-].
  apply can_start_ok in Hc as (Hd & Hw & Hf & Hl); [| done].
  apply descriptor_validate_valid in Hd as Hv. reflect_bool.
  match goal with H : bool_decide (mode d = ModeMapping) = true |- _ => apply bool_decide_eq_true in H end.
  split_and!; try done; try lia. by eexists.
Qed.

Lemma charge_inside b d c :
  0 <= d -> 0 <= c -> keeps (inside b) (charge_now d c 0 false).
Proof.
  intros Hd Hc. eapply hoare_conseq; [apply (charge_now_within b d c 0 false); lia | done | | done].
  intros [[]|e] t Ht; [by eapply within_drop | done].
Qed.

Lemma run_lifecycle_keeps session plans mg :
  let d := session_descriptor session in
  budgets_unsigned (budgets d) -> budgets_bounded (budgets d) -> opt_is_some (mapping d) = true ->
  0 <= mg_discovery_datagrams mg -> 0 <= mg_discovery_control_requests mg ->
  hoare (fun _ => True) (run_mapping_lifecycle session plans mg)
    (fun _ => inside (budgets d)) (fun _ => False).
Proof.
  intros d Hu Hb Hm Hd Hc. unfold run_mapping_lifecycle. fold d.
  eapply hoare_bind with (R := fun _ => inside (budgets d)).
  { apply hoare_emit. intros t _. by apply inside_open. }
  intros []. destruct (mapping d) as [consent|]; [| done].
  pose proof (charge_inside (budgets d) _ _ Hd Hc) as Hcharge. cbv zeta.
  apply keeps_elim. solve_keeps.
Qed.

(** C19: a mapping run stays within its grant. A session of a bootstrapped mapping
    grant, whatever its runtime answers, ends with a report, and what it did - path
    checks, attestations and router exchanges - stays within the grant: ordinary
    requests within the control allowance less the cleanup reserve, deletes within
    the reserve, datagrams likewise, and at most four dialbacks. The reserve for
    deletes is never spent on ordinary traffic. *)
Theorem lifecycle_within_budget d binds now job session plans mg t :
  from_authenticated_bootstrap d binds now job = Ok session ->
  budgets_unsigned (budgets d) ->
  0 <= mg_discovery_datagrams mg -> 0 <= mg_discovery_control_requests mg ->
  exists report t',
    run_mapping_lifecycle session plans mg t = (Some report, t') /\
    used ordinary_requests t' <= control_requests (budgets d) - cleanup_control_requests (budgets d) /\
    used cleanup_requests t' <= cleanup_control_requests (budgets d) /\
    used ordinary_packets t' <= outbound_datagrams (budgets d) - cleanup_datagrams (budgets d) /\
    used cleanup_packets t' <= cleanup_datagrams (budgets d) /\
    used dialled t' <= external_dialbacks (budgets d) <= 4.
Proof.
  intros Hs Hu Hdd Hdc. apply bootstrap_session in Hs as (Hd & Hv & _ & (consent & Hm) & _).
  pose proof (gv_budgets d Hv) as Hb. pose proof (bb_dialbacks _ Hb).
  assert (Hrun := run_lifecycle_keeps session plans mg). rewrite Hd in Hrun.
  specialize (Hrun Hu Hb ltac:(by rewrite Hm) Hdd Hdc t I).
  destruct (run_mapping_lifecycle session plans mg t) as [[report|] t']; [| done].
  exists report, t'. destruct Hrun. split_and!; try done; lia.
Qed.

(** ** Order of a method

    An invariant that every event but the start of a run and of a method keeps is
    kept by everything in between. *)

Definition opens (e : map_event) : bool :=
  match e with MapOpen _ | MapBind _ _ => true | _ => false end.

Section Steady.
Context (I : list map_event -> Prop) (steady : forall e t, opens e = false -> I t -> I (e :: t)).

Lemma quiet_steady e t : quiet e = true -> I t -> I (e :: t).
Proof. intros He. apply steady. by destruct e. Qed.
#[local] Hint Resolve quiet_steady : keeps.

Lemma charge_now_steady d c k cleanup : keeps I (charge_now d c k cleanup).
Proof. intros t Ht. unfold charge_now. destruct (charge _ _ _ _ _); [by apply steady | done]. Qed.
#[local] Hint Resolve charge_now_steady : keeps.

Lemma exchange_steady p oe ce cleaning d request capacity :
  keeps I (bounded_exchange p oe ce cleaning d request capacity).
Proof.
  unfold bounded_exchange. cbv zeta.
  set (ev := MapRouter _ _ _ _ _). set (oracle := fun t => rt_exchange t _ _ _).
  assert (keeps I (ask oracle ev)) by (apply keeps_ask; intros t a; by apply steady).
  solve_keeps.
Qed.

Lemma path_steady d pc finish : keeps I (path d pc finish).
Proof.
  unfold path.
  assert (keeps I (ask (fun t => rt_path_check t pc finish) (MapPathCheck pc finish)))
    by (apply keeps_ask; intros t a; by apply steady).
  assert (forall tr, keeps I (ask (fun h => rt_attest h tr finish) (MapAttest tr finish)))
    by (intros tr; apply keeps_ask; intros t a; by apply steady).
  solve_keeps.
Qed.
#[local] Hint Resolve exchange_steady path_steady : keeps.

Lemma create_mapping_steady consent mg plan port nonce active_end finish :
  keeps I (create_mapping consent mg plan port nonce active_end finish).
Proof. apply create_mapping_keeps; auto with keeps. Qed.
Lemma cleanup_mapping_steady mg plan h created active_end finish :
  keeps I (cleanup_mapping mg plan h created active_end finish).
Proof. apply cleanup_mapping_keeps; auto with keeps. Qed.
Lemma verify_mapping_steady d mg plan h active_end : keeps I (verify_mapping d mg plan h active_end).
Proof. apply verify_mapping_keeps; auto with keeps. Qed.
Lemma create_method_steady d consent mg plan port baseline active_end finish :
  keeps I (create_method d consent mg plan port baseline active_end finish).
Proof. apply create_method_keeps; auto with keeps. Qed.

End Steady.

(** An external, unassisted baseline transcript in scope of the grant, that
    measured its path. *)
Definition baseline_at (d : TraversalDescriptorV1) (now : Z) (tr : TraversalTranscriptV1) : Prop :=
  transcript_validate_scope tr d now = Ok tt /\ tr_authority tr = ExternalPath /\
  tr_stage tr = Baseline /\ tr_method tr = Unassisted /\
  (tr_outcome tr = Succeeded \/ tr_outcome tr = Failed).

(** A baseline was attested since this method's listener was bound. *)
Fixpoint measured (d : TraversalDescriptorV1) (t : list map_event) : Prop :=
  match t with
  | [] | MapOpen _ :: _ | MapBind _ _ :: _ => False
  | MapAttest tr _ (Ok _) :: t =>
      (exists now, head t = Some (MapNow now) /\ baseline_at d now tr) \/ measured d t
  | _ :: t => measured d t
  end.

(** Every router exchange of the run came after its method's baseline. *)
Fixpoint routed (d : TraversalDescriptorV1) (t : list map_event) : Prop :=
  match t with
  | [] | MapOpen _ :: _ => True
  | MapRouter _ _ _ _ _ _ :: t => measured d t /\ routed d t
  | _ :: t => routed d t
  end.

Lemma measured_steady d e t : opens e = false -> measured d t -> measured d (e :: t).
Proof. intros He Ht. destruct e; try done. by destruct r; [right |]. Qed.

Lemma measured_routed_steady d e t :
  opens e = false -> measured d t /\ routed d t -> measured d (e :: t) /\ routed d (e :: t).
Proof. intros He [Hm Hr]. split; [by apply measured_steady |]. by destruct e. Qed.

(** An event that is not a router exchange keeps [routed]. *)
Lemma routed_ask {A} d (oracle : list map_event -> A) ev :
  (forall a t, routed d (ev a :: t) = routed d t) -> keeps (routed d) (ask oracle ev).
Proof. intros He. apply keeps_ask. intros t a. by rewrite He. Qed.

Lemma routed_quiet d e t : quiet e = true -> routed d t -> routed d (e :: t).
Proof. by destruct e. Qed.
#[local] Hint Resolve routed_quiet : keeps.

Lemma charge_now_routed d dg c k cleanup : keeps (routed d) (charge_now dg c k cleanup).
Proof. intros t Ht. unfold charge_now. by destruct (charge _ _ _ _ _). Qed.
#[local] Hint Resolve charge_now_routed : keeps.

Lemma evidence_baseline d now pc e :
  evidence_ok d now pc e = true -> pc_stage pc = Baseline -> pc_method pc = Unassisted ->
  (tr_outcome (ev_transcript e) = Succeeded \/ tr_outcome (ev_transcript e) = Failed) ->
  baseline_at d now (ev_transcript e).
Proof.
  unfold evidence_ok, baseline_at. intros He Hs Hm Ho. apply negb_true_iff in He.
  repeat (apply orb_false_iff in He as [He ?]).
  reflect_same. split_and!; try congruence. by destruct (transcript_validate_scope _ _ _) as [[]|].
Qed.


(** The summary of a path check is that of an attested transcript. *)
Lemma path_measured d pc finish :
  pc_stage pc = Baseline -> pc_method pc = Unassisted ->
  hoare (routed d) (path d pc finish)
    (fun r t => routed d t /\
       match r with
       | Ok s => one_of (ps_outcome s) [Succeeded; Failed] = true -> measured d t
       | Err _ => True
       end) (fun _ => False).
Proof.
  intros Hs Hm. unfold path.
  eapply hoare_bind; [apply ordinary_keeps, routed_quiet |]. intros [[]|e]; [| by intros t Ht].
  eapply hoare_bind; [apply charge_now_routed |]. intros [[]|e]; [| by intros t Ht].
  eapply hoare_bind; [by apply routed_ask |]. intros [ev|e]; [| by intros t Ht].
  eapply hoare_bind; [apply ordinary_keeps, routed_quiet |]. intros [[]|e]; [| by intros t Ht].
  eapply hoare_bind with (R := fun now t => routed d t /\ head t = Some (MapNow now)).
  { by apply hoare_ask. }
  intros now. destruct (negb _) eqn:He; [by intros t [Ht _] |]. apply negb_false_iff in He.
  eapply hoare_bind with (R := fun r t => routed d t /\
    (r = Ok tt -> one_of (tr_outcome (ev_transcript ev)) [Succeeded; Failed] = true -> measured d t)).
  { apply hoare_ask. intros t [Ht Hh]. split; [done |]. intros Hr Ho. cbn [measured]. rewrite Hr. left.
    exists now. split; [done |]. apply evidence_baseline with pc; [done .. |].
    apply one_of_elem in Ho. set_solver. }
  intros [[]|e]; [| by intros t [Ht _]].
  eapply hoare_bind with (R := fun _ t => routed d t /\
    (one_of (tr_outcome (ev_transcript ev)) [Succeeded; Failed] = true -> measured d t)).
  - eapply hoare_pre; [apply ordinary_keeps |]; [| naive_solver].
    intros e t He' [Hr Hi]. split; [by apply routed_quiet |]. intros Ho. apply measured_steady; [by destruct e | auto].
  - intros [[]|e]; by intros t [Ht Hi].
Qed.

Lemma run_method_routed d consent mg plan active_end finish :
  keeps (routed d) (run_method d consent mg plan active_end finish).
Proof.
  unfold run_method. apply keeps_bind; [solve_keeps |]. intros [[]|e]; [| solve_keeps].
  apply keeps_bind; [by apply routed_ask |]. intros [port|e]; [| solve_keeps].
  destruct (negb (inbound_port port)); [solve_keeps |].
  eapply hoare_bind; [by apply path_measured |]. intros [baseline|e]; [| by intros t [Ht _]].
  destruct (one_of (ps_outcome baseline) _) eqn:Ho; cbn [negb]; [| by intros t [Ht _]].
  eapply hoare_conseq;
    [apply (create_method_steady (fun t => measured d t /\ routed d t)), measured_routed_steady | naive_solver | by intros _ t [] | done].
Qed.
#[local] Hint Resolve run_method_routed : keeps.

Lemma run_methods_routed d consent mg plans active_end finish :
  keeps (routed d) (run_methods d consent mg plans active_end finish).
Proof. induction plans as [|plan plans IH]; cbn [run_methods]; solve_keeps. Qed.
#[local] Hint Resolve run_methods_routed : keeps.

(** C20: no router is asked before its path was measured. In a run of any session
    with a consent, whatever the runtime answers, every exchange with the router -
    creates, reads and deletes alike - comes after an external, unassisted baseline
    of the same method, taken since its listener was bound, valid in the scope of
    the grant when it was checked, attested by the platform, and with a measured
    outcome. *)
Theorem lifecycle_measures_first session plans mg t :
  opt_is_some (mapping (session_descriptor session)) = true ->
  exists report t',
    run_mapping_lifecycle session plans mg t = (Some report, t') /\
    routed (session_descriptor session) t'.
Proof.
  intros Hm. set (d := session_descriptor session).
  assert (Hrun : hoare (fun _ => True) (run_mapping_lifecycle session plans mg)
                   (fun _ => routed d) (fun _ => False)).
  { unfold run_mapping_lifecycle. fold d. eapply hoare_bind with (R := fun _ => routed d); [by apply hoare_emit |].
    intros []. fold d in Hm. destruct (mapping d) as [consent|]; [| done]. cbv zeta.
    apply keeps_elim. solve_keeps. }
  specialize (Hrun t I). destruct (run_mapping_lifecycle session plans mg t) as [[report|] t']; [| done].
  by exists report, t'.
Qed.

(** ** Rows *)

(** A row that left nothing behind and did not stop the run. *)
Definition settled (r : MappingMethodReport) : Prop :=
  mr_stopped r = None /\ (mr_cleanup r = NotCreated \/ mr_cleanup r = ConfirmedDeleted).

Definition outcome_ok (plan : MappingMethodPlan) (o : method_outcome) : Prop :=
  match o with
  | (Some r, None) => mr_plan r = plan /\ settled r
  | (Some r, Some _) => mr_plan r = plan
  | (None, stop) => stop <> None
  end.

Definition results {A} (Q : A -> Prop) (m : io map_event A) : Prop :=
  hoare (fun _ => True) m (fun a _ => Q a) (fun _ => False).

Lemma results_ret {A} (Q : A -> Prop) (a : A) : Q a -> results Q (mret a).
Proof. by intros Ha t _. Qed.
Lemma results_bind {A B} (Q : B -> Prop) (m : io map_event A) (k : A -> io map_event B) :
  keeps (fun _ => True) m -> (forall a, results Q (k a)) -> results Q (m ≫= k).
Proof. apply hoare_bind. Qed.

Lemma always_steady (e : map_event) (t : list map_event) : opens e = false -> True -> True.
Proof. done. Qed.

Lemma finish_method_row d mg plan baseline created active_end finish :
  results (outcome_ok plan) (finish_method d mg plan baseline created active_end finish).
Proof.
  unfold finish_method. apply results_bind.
  - pose proof (fun h => verify_mapping_steady _ always_steady d mg plan h active_end).
    pose proof (fun h => cleanup_mapping_steady _ always_steady mg plan h created active_end finish).
    solve_keeps.
  - intros [[[verification stopped] cleanup] unknown]. apply results_ret.
    destruct stopped as [stop|]; [by rewrite orb_true_r |]. rewrite orb_false_r.
    destruct (one_of cleanup [NotCreated; ConfirmedDeleted]) eqn:Hc; [| done].
    split; [done |]. split; [done |]. apply one_of_elem in Hc. set_solver.
Qed.


Lemma create_method_row d consent mg plan port baseline active_end finish :
  results (outcome_ok plan) (create_method d consent mg plan port baseline active_end finish).
Proof.
  unfold create_method. apply results_bind; [by apply ordinary_keeps |].
  intros [[]|stop]; [| by apply results_ret].
  apply results_bind; [by apply accounting_now_keeps |]. intros a.
  apply results_bind; [pose proof (now_ms_keeps (fun _ => True)); solve_keeps |].
  intros []; [by apply results_ret |].
  apply results_bind; [case_bool_decide; solve_keeps; by apply keeps_ask |].
  intros [nonce|]; [| by apply results_ret].
  apply results_bind; [by apply create_mapping_steady |].
  intros [created|]; [apply finish_method_row | by apply results_ret].
Qed.

Lemma run_method_row d consent mg plan active_end finish :
  results (outcome_ok plan) (run_method d consent mg plan active_end finish).
Proof.
  unfold run_method. apply results_bind; [by apply ordinary_keeps |].
  intros [[]|stop]; [| by apply results_ret].
  apply results_bind; [by apply keeps_ask |]. intros [port|stop]; [| by apply results_ret].
  destruct (negb _); [by apply results_ret |].
  apply results_bind; [by apply path_steady |]. intros [baseline|stop]; [| by apply results_ret].
  destruct (negb _); [by apply results_ret | apply create_method_row].
Qed.

(** The rows report the plans in order, and all but the last are settled; all are
    when the run did not stop. *)
Definition rows_ok (plans : list MappingMethodPlan)
    (r : list MappingMethodReport * option MappingStop) : Prop :=
  map mr_plan r.1 `prefix_of` plans /\ Forall settled (removelast r.1) /\
  (r.2 = None -> map mr_plan r.1 = plans /\ Forall settled r.1).

Lemma run_methods_rows d consent mg plans active_end finish :
  results (rows_ok plans) (run_methods d consent mg plans active_end finish).
Proof.
  induction plans as [|plan plans IH]; cbn [run_methods].
  { apply results_ret. by split; [| split]. }
  eapply hoare_bind; [apply run_method_row |]. intros [row [stop|]].
  - intros t Ho. destruct row as [r|]; (split; [| split; [by constructor | done]]).
    + cbn in *. subst. apply prefix_cons, prefix_nil.
    + apply prefix_nil.
  - destruct row as [r|]; [| by intros t []].
    intros t [Hp Hr]. refine (hoare_bind _ _ _ _ (fun b _ => rows_ok (plan :: plans) b) _ IH _ t I).
    intros [rows stop] t' (Hpre & Hinit & Hall). cbn in *. subst.
    split; [by apply prefix_cons |]. split.
    + cbn. destruct rows; [done |]. by constructor.
    + cbn. intros Hn. destruct (Hall Hn) as [-> ?]. by split; [| constructor].
Qed.

(** C21: an uncertain mapping ends the run. Whatever the runtime answers, the rows of
    the report are those of the given plans, in order and without a gap; every row
    but the last created nothing or had its delete confirmed by the router, and
    went through without a stop; and when the run reports no stop every selected
    method is such a row, with the deferred ones counted. So no method starts
    while what an earlier one left behind is unknown. *)
Theorem lifecycle_stops_at_uncertainty session plans mg t :
  opt_is_some (mapping (session_descriptor session)) = true ->
  exists report t',
    run_mapping_lifecycle session plans mg t = (Some report, t') /\
    map mr_plan (rr_methods report) `prefix_of` plans /\
    Forall settled (removelast (rr_methods report)) /\
    (rr_stopped report = None ->
       Forall settled (rr_methods report) /\
       Z.of_nat (length (rr_methods report)) + rr_deferred_methods report = Z.of_nat (length plans)).
Proof.
  intros Hm. enough (Hrun : results (fun report =>
    map mr_plan (rr_methods report) `prefix_of` plans /\ Forall settled (removelast (rr_methods report)) /\
    (rr_stopped report = None -> Forall settled (rr_methods report) /\
       Z.of_nat (length (rr_methods report)) + rr_deferred_methods report = Z.of_nat (length plans)))
    (run_mapping_lifecycle session plans mg)).
  { specialize (Hrun t I). destruct (run_mapping_lifecycle session plans mg t) as [[report|] t']; [| done].
    by exists report, t'. }
  unfold run_mapping_lifecycle. apply results_bind; [by intros t' _ |]. intros [].
  destruct (mapping _) as [consent|]; [| done]. cbv zeta.
  apply results_bind; [by apply now_ms_keeps |]. intros now.
  destruct plans as [|plan plans]; [rewrite orb_true_r; by apply results_ret |].
  destruct (_ || _); [apply results_ret; split; [apply prefix_nil | done] |].
  apply results_bind; [by apply charge_now_steady |]. intros [[]|e];
    [| apply results_ret; split; [apply prefix_nil | done]].
  apply results_bind; [by apply accounting_now_keeps |]. intros a.
  apply results_bind; [by apply now_ms_keeps |]. intros now'.
  destruct (negb _); [apply results_ret; split; [apply prefix_nil | done] |].
  eapply hoare_bind; [apply run_methods_rows |]. intros [rows stop].
  intros t' (Hpre & Hinit & Hall). cbn in *. split; [| split; [done |]].
  - destruct (fits _ _ _); [done |]. etrans; [done |]. apply prefix_cons, prefix_nil.
  - intros Hn. destruct (Hall Hn) as [Hp Hs]. split; [done |]. apply (f_equal length) in Hp.
    rewrite length_map in Hp. cbn [rr_methods rr_deferred_methods]. destruct (fits _ _ _); cbn in Hp; rewrite ?take_0 in Hp; cbn in Hp; lia.
Qed.


(** ** The delete of an adopted lease *)

(** What a delete needs of the cleanup reserve. *)
Definition reserve_left (t : list map_event) : Prop :=
  1 <= cleanup_control (accounting_of t) /\ 1 <= left_cleanup_datagrams (accounting_of t) /\
  0 <= dialbacks (accounting_of t) /\ 60 <= acct_datagram_bytes (accounting_of t).

(** The clock was read at or past [finish]. *)
Definition late (finish : Z) (t : list map_event) : Prop := exists ms, MapNow ms ∈ t /\ finish <= ms.

Lemma reserve_event e t : bookkeeping e = false -> reserve_left t -> reserve_left (e :: t).
Proof. by destruct e. Qed.
Lemma reserve_quiet e t : quiet e = true -> reserve_left t -> reserve_left (e :: t).
Proof. by destruct e. Qed.
#[local] Hint Resolve reserve_quiet : keeps.

Lemma charge_ordinary_reserve d c k : keeps reserve_left (charge_now d c k false).
Proof.
  intros t Ht. unfold charge_now. destruct (charge _ d c k false) as [a|e] eqn:Hc; [| done].
  unfold reserve_left. cbn [accounting_of]. rewrite Hc. unfold charge in Hc.
  destruct (_ || _) eqn:Hor; [done |]. reflect_bool. injection Hc as <-. destruct Ht. cbn. lia.
Qed.
#[local] Hint Resolve charge_ordinary_reserve : keeps.

Lemma path_reserve d pc finish : keeps reserve_left (path d pc finish).
Proof.
  unfold path.
  assert (keeps reserve_left (ask (fun t => rt_path_check t pc finish) (MapPathCheck pc finish)))
    by (apply keeps_ask; intros t a; by apply reserve_event).
  assert (forall tr, keeps reserve_left (ask (fun h => rt_attest h tr finish) (MapAttest tr finish)))
    by (intros tr; apply keeps_ask; intros t a; by apply reserve_event).
  solve_keeps.
Qed.

(** Ordinary requests leave the reserve alone. *)
Lemma exchange_reserve p oe ce d request capacity :
  delete_request p request = false -> keeps reserve_left (bounded_exchange p oe ce false d request capacity).
Proof.
  intros Hd. unfold bounded_exchange. cbn [orb]. rewrite Hd. cbv zeta.
  set (ev := MapRouter _ _ _ _ _). set (oracle := fun t => rt_exchange t _ _ _).
  assert (keeps reserve_left (ask oracle ev)) by (apply keeps_ask; intros t a; by apply reserve_event).
  solve_keeps.
Qed.

Lemma pcp_request_not_delete input : delete_request Pcp (pcp_request input) = false.
Proof. unfold delete_request. apply andb_false_iff. right. by apply bool_decide_eq_false. Qed.
Lemma natpmp_request_not_delete input : delete_request NatPmp (natpmp_request input) = false.
Proof. unfold delete_request. apply andb_false_iff. right. by apply bool_decide_eq_false. Qed.

(** With the reserve intact a delete is charged and goes out, unless the run is late. *)
Lemma charge_delete_sends u n :
  hoare (fun t => reserve_left t /\ sent_control_requests (accounting_of t) = n)
    (charge_now (b2z u) 1 0 true)
    (fun r t => r = Ok tt /\ n < sent_control_requests (accounting_of t)) (fun _ => False).
Proof.
  intros t [(Hc & Hd & Hk & _) Hn]. unfold charge_now.
  assert (exists a, charge (accounting_of t) (b2z u) 1 0 true = Ok a /\ sent_control_requests a = n + 1)
    as (a & Ha & Hs).
  { unfold charge. rewrite !(proj2 (Z.ltb_ge _ _)) by (unfold b2z; destruct u; lia).
    eexists. split; [done | cbn; lia]. }
  rewrite Ha. split; [done |]. cbn [accounting_of]. rewrite Ha. lia.
Qed.

Lemma sent_event n e t :
  bookkeeping e = false -> n < sent_control_requests (accounting_of t) ->
  n < sent_control_requests (accounting_of (e :: t)).
Proof. by destruct e. Qed.

Lemma delete_exchange_sends p oe ce d request capacity n :
  (length request <= 60)%nat ->
  hoare (fun t => reserve_left t /\ sent_control_requests (accounting_of t) = n)
    (bounded_exchange p oe ce true d request capacity)
    (fun _ t => late ce t \/ n < sent_control_requests (accounting_of t)) (fun _ => False).
Proof.
  intros Hl. unfold bounded_exchange. cbn [orb]. cbv zeta.
  eapply hoare_bind with (R := fun now t => (reserve_left t /\ sent_control_requests (accounting_of t) = n)
    /\ (ce <= now -> late ce t)).
  { apply hoare_ask. intros t [Hr Hn]. split_and!; [by apply reserve_quiet | done |].
    intros Hc. eexists. split; [by left | done]. }
  intros now. case Z.leb_spec; intros Hlate; [intros t [_ Hr]; left; auto |].
  eapply hoare_bind with (R := fun stop t => stop = false /\ reserve_left t /\ sent_control_requests (accounting_of t) = n).
  { by intros t [Ht _]. }
  intros [|]; [by intros t [? _] |].
  eapply hoare_bind with (R := fun a t => 60 <= acct_datagram_bytes a /\ reserve_left t /\ sent_control_requests (accounting_of t) = n).
  { intros t (_ & Hr & Hn). split; [apply Hr | done]. }
  intros a. destruct (_ && _) eqn:Hs; [intros t [Ha _]; reflect_bool; lia |].
  eapply hoare_bind; [eapply hoare_pre; [apply charge_delete_sends | by intros t [_ Ht]] |].
  intros [[]|e]; [| by intros t [? _]].
  set (sent := fun t => n < sent_control_requests (accounting_of t)).
  eapply hoare_conseq with (P' := sent) (Q' := fun _ => sent);
    [apply keeps_elim | by intros t [_ Ht] | by right | done].
  pose proof (now_ms_keeps sent (fun e t He => sent_event n e t ltac:(by destruct e))).
  apply keeps_bind; [apply keeps_ask; intros; by apply sent_event |]. intros []; solve_keeps.
Qed.

(** A handle the run may delete with one packet of its own. *)
Definition deletable (mg : MappingGateway) (h : OwnedMappingHandle) : Prop :=
  delete_allowed h (mg_gateway mg) (Some (mg_reservation mg)) = true /\ h_protocol h <> UpnpIgd /\
  (0 < length (delete_packet h) <= 60)%nat.

(** The adapters' transport is never cancelled. *)
Lemma bounded_cancelled {A} p oe ce cleaning (k : bool -> io map_event A) P Q D :
  hoare P (k false) Q D -> hoare P (@control_cancelled _ (bounded_control p oe ce cleaning) ≫= k) Q D.
Proof. done. Qed.

Lemma delete_sends p oe ce mg h epoch igd n :
  deletable mg h ->
  hoare (fun t => reserve_left t /\ sent_control_requests (accounting_of t) = n)
    (@delete_owned_mapping _ (bounded_control p oe ce true) _ _ _ (mg_gateway mg) h
       (Some (mg_reservation mg)) epoch igd)
    (fun _ t => late ce t \/ n < sent_control_requests (accounting_of t)) (fun _ => False).
Proof.
  intros (Ha & Hp & Hl). unfold delete_owned_mapping. rewrite Ha. cbn [negb].
  rewrite bool_decide_eq_false_2 by done. unfold send_delete. cbv zeta.
  set (sent := fun t => late ce t \/ n < sent_control_requests (accounting_of t)).
  enough (Hx : hoare (fun t => reserve_left t /\ sent_control_requests (accounting_of t) = n)
    (@exchange_with_gateway _ (bounded_control p oe ce true) _ _ (mg_gateway mg) (h_protocol h) None (delete_packet h))
    (fun _ => sent) (fun _ => False)).
  { apply bounded_cancelled. apply (hoare_bind _ _ _ (fun _ => sent)); [exact Hx |]. intros [body|e]; by intros t Ht. }
  unfold exchange_with_gateway. apply bounded_cancelled.
  assert (control_destination (mg_gateway mg) (h_protocol h) None = Ok (control_port (mg_gateway mg))) as ->
    by (by destruct (h_protocol h)).
  destruct (delete_packet h) as [|x packet] eqn:Hd; [cbn in Hl; lia |].
  rewrite (proj2 (Z.ltb_ge _ _)) by (unfold CONTROL_MAX_BYTES; lia).
  apply (hoare_bind _ _ _ (fun _ => sent)); [apply delete_exchange_sends; lia |].
  intros [reply|e]; [| by intros t Ht]. cbn -[Z.ltb]. intros t Ht. by destruct (_ <? _).
Qed.

Lemma cleanup_mapping_sends mg plan h created active_end finish :
  deletable mg h ->
  hoare reserve_left (cleanup_mapping mg plan h created active_end finish)
    (fun c t => c.1 = LeaseExpiryPending -> late finish t) (fun _ => False).
Proof.
  intros Hd. unfold cleanup_mapping.
  eapply hoare_bind with (R := fun a t => reserve_left t /\ sent_control_requests (accounting_of t) = sent_control_requests a).
  { by intros t Ht. }
  intros before. eapply hoare_bind; [by apply delete_sends |]. intros deleted.
  eapply hoare_bind with (R := fun a t => late finish t \/ sent_control_requests before < sent_control_requests a).
  { by intros t Ht. }
  intros after t Hs. case Z.eqb_spec; intros Heq.
  - destruct Hs as [Hs|Hs]; [destruct (e_cleanup deleted); cbn; by intros | lia].
  - destruct (e_cleanup deleted); cbn; by intros.
Qed.

(** The parts of the adapters give deletable handles. *)
Lemma pcp_deletable mg input ceiling e h :
  pm_exclusive_reservation input = Some (mg_reservation mg) ->
  authorizes (mg_reservation mg) (mg_gateway mg) = true -> length (pm_nonce input) = 12%nat ->
  adopted_handle (pcp_parts (mg_gateway mg) input ceiling) e -> e_handle e = Some h -> deletable mg h.
Proof.
  intros Hr Ha Hn (port & lifetime & epoch & address & He) Hh. rewrite He in Hh. injection Hh as <-.
  split_and!; [| done | ..];
    [| cbn [delete_packet h_protocol with_external_address correlated_handle pcp_parts mp_protocol];
       rewrite encode_pcp_length by done; unfold PCP_MAP_PACKET_BYTES; lia ..].
  unfold delete_allowed. cbn. rewrite Hr. cbn. rewrite Ha. cbn. by rewrite bool_decide_eq_true_2.
Qed.

Lemma natpmp_deletable mg input ceiling e h :
  authorizes (mg_reservation mg) (mg_gateway mg) = true ->
  adopted_handle (natpmp_parts input (mg_reservation mg) ceiling) e -> e_handle e = Some h -> deletable mg h.
Proof.
  intros Ha (port & lifetime & epoch & address & He) Hh. rewrite He in Hh. injection Hh as <-.
  split_and!; [| done | cbn; lia ..]. unfold delete_allowed. cbn. by rewrite Ha, bool_decide_eq_true_2.
Qed.

(** An adopted lease leaves the reserve for its delete. *)
Definition can_delete (mg : MappingGateway) (created : MappingEffect) (t : list map_event) : Prop :=
  e_cleanup created = LeaseExpiryPending ->
  reserve_left t /\ exists h, e_handle created = Some h /\ deletable mg h.

Lemma create_mapping_pending consent mg plan port nonce active_end finish :
  plan_protocol plan <> UpnpIgd -> authorizes (mg_reservation mg) (mg_gateway mg) = true ->
  length nonce = 12%nat ->
  hoare reserve_left (create_mapping consent mg plan port nonce active_end finish)
    (fun o t => forall created, o = Some created -> can_delete mg created t) (fun _ => True).
Proof.
  intros Hp Ha Hn. unfold create_mapping. cbv zeta.
  set (control := bounded_control (plan_protocol plan) active_end finish false).
  assert (Hc : keeps reserve_left (@control_cancelled _ control)) by apply keeps_ret.
  destruct (plan_protocol plan) eqn:Hpl; [| | done].
  - eapply hoare_bind; [apply (@map_pcp_pending _ control _ _ reserve_left); [done |] |].
    { intros capacity. apply exchange_reserve, pcp_request_not_delete. }
    intros created t Ht _ [= <-] Hl. destruct (Ht Hl) as (Hr & ceiling & Had).
    split; [done |]. pose proof Had as (? & ? & ? & ? & Hh). eexists. split; [done |].
    eapply pcp_deletable; [| done | | exact Had | exact Hh]; done.
  - eapply hoare_bind; [apply (@map_nat_pmp_pending _ control _ _ reserve_left); [done | done |] |].
    { intros capacity. apply exchange_reserve, natpmp_request_not_delete. }
    intros created t Ht _ [= <-] Hl. destruct (Ht Hl) as (Hr & ceiling & Had).
    split; [done |]. pose proof Had as (? & ? & ? & ? & Hh). eexists. split; [done |].
    eapply natpmp_deletable; [done | exact Had | exact Hh].
Qed.

(** A method whose lease is left pending was late. *)
Definition pending_late (finish : Z) (o : method_outcome) (t : list map_event) : Prop :=
  forall r, o.1 = Some r -> mr_cleanup r = LeaseExpiryPending -> late finish t.

Lemma finish_method_pending d mg plan baseline created active_end finish :
  hoare (can_delete mg created) (finish_method d mg plan baseline created active_end finish)
    (pending_late finish) (fun _ => True).
Proof.
  unfold finish_method.
  eapply hoare_bind with (R := fun r t => r.1.2 = LeaseExpiryPending -> late finish t).
  2: { intros [[[v s] c] u] t Ht r [= <-]. exact Ht. }
  destruct (same (e_cleanup created) LeaseExpiryPending) eqn:Hs.
  - apply same_true in Hs. apply (hoare_pre _ (fun t => reserve_left t /\ exists h, e_handle created = Some h /\ deletable mg h)).
    2: { intros t Ht. by apply Ht. }
    intros t (Hr & h & -> & Hd). revert t Hr.
    enough (Hk : hoare reserve_left
      (v ← if same (e_outcome created) Succeeded then verify_mapping d mg plan h active_end else mret (None, None);
       c ← cleanup_mapping mg plan h created active_end finish; mret (v.1, v.2, c.1, c.2))
      (fun r t => r.1.2 = LeaseExpiryPending -> late finish t) (fun _ => True)) by exact Hk.
    eapply hoare_bind with (R := fun _ => reserve_left).
    { eapply hoare_conseq; [apply keeps_elim | done | done | done].
      pose proof (verify_mapping_keeps _ reserve_quiet path_reserve d mg plan h active_end). solve_keeps. }
    intros v. eapply hoare_bind; [by eapply hoare_conseq; [apply cleanup_mapping_sends | ..] |].
    by intros [c u] t Ht.
  - apply bool_decide_eq_false in Hs. intros t Ht. destruct (e_handle created); cbn; by intros Hc.
Qed.

(** The datagram size of the accounting never changes, and the allowances stay
    non-negative. *)
Definition stocked (b : TraversalBudgets) (t : list map_event) : Prop :=
  inside b t /\ acct_datagram_bytes (accounting_of t) = datagram_bytes b.

Lemma bytes_event n e t :
  match e with MapOpen _ => false | _ => true end = true ->
  acct_datagram_bytes (accounting_of t) = n -> acct_datagram_bytes (accounting_of (e :: t)) = n.
Proof.
  intros He Hn. destruct e; try done. cbn [accounting_of]. unfold charge. by destruct (_ || _).
Qed.
Lemma bytes_steady n e t :
  opens e = false ->
  acct_datagram_bytes (accounting_of t) = n -> acct_datagram_bytes (accounting_of (e :: t)) = n.
Proof. intros He. apply bytes_event. by destruct e. Qed.

Lemma stocked_keeps {A} b (m : io map_event A) :
  keeps (inside b) m -> keeps (fun t => acct_datagram_bytes (accounting_of t) = datagram_bytes b) m ->
  keeps (stocked b) m.
Proof. intros Hi Hb. eapply hoare_conseq; [exact (hoare_and _ _ _ _ _ _ _ Hi Hb) | done | done | by intros t []]. Qed.

Lemma stocked_quiet b e t : quiet e = true -> stocked b t -> stocked b (e :: t).
Proof. intros He [Hi Hb]. split; [by apply within_quiet | by apply bytes_steady; [destruct e |]]. Qed.

Lemma path_stocked b d pc finish : keeps (stocked b) (path d pc finish).
Proof. apply stocked_keeps; [apply path_keeps | apply path_steady, bytes_steady]. Qed.

Section Delete.
Context (b : TraversalBudgets) (mg : MappingGateway) (active_end finish : Z).
Context (reserved : authorizes (mg_reservation mg) (mg_gateway mg) = true)
  (nonces : forall t n, rt_nonce t = Ok n -> length n = 12%nat).

Lemma create_method_pending d consent plan port baseline :
  plan_protocol plan <> UpnpIgd -> 60 <= datagram_bytes b ->
  hoare (stocked b) (create_method d consent mg plan port baseline active_end finish)
    (pending_late finish) (fun _ => True).
Proof using All.
  intros Hp Hb. unfold create_method.
  assert (Hstop : forall stop P, hoare P (mret (stop_row plan (Some baseline) stop)) (pending_late finish) (fun _ => True))
    by (intros stop P t _ r [= <-]; done).
  eapply hoare_bind; [by eapply hoare_conseq; [apply ordinary_keeps, (stocked_quiet b) | ..] |].
  intros [[]|stop]; [| apply Hstop].
  eapply hoare_bind with (R := fun a t => stocked b t /\ a = accounting_of t); [by intros t Ht |]. intros a.
  eapply hoare_bind with (R := fun tight t => tight = false -> reserve_left t).
  { destruct ((cleanup_control a =? 0) || _) eqn:Hor; [by intros t _ |]. reflect_bool.
    eapply hoare_bind with (R := fun _ => reserve_left); [| intros now t Ht _; exact Ht].
    apply hoare_ask. intros t [[[] Hn] ->]. apply reserve_quiet; [done |].
    assert (b2z (udp_router (plan_protocol plan)) = 1) by (unfold udp_router; by rewrite bool_decide_eq_false_2).
    unfold reserve_left. lia. }
  intros []; [apply Hstop |].
  eapply hoare_bind with (R := fun n t => reserve_left t /\ forall nonce, n = Some nonce -> length nonce = 12%nat).
  { case_bool_decide.
    - eapply hoare_bind with (R := fun r t => reserve_left t /\ forall n, r = Ok n -> length n = 12%nat).
      + apply hoare_ask. intros t Ht. split; [by apply reserve_quiet, Ht | apply nonces].
      + intros [n|e] t [Ht Hn]; (split; [exact Ht |]); [case_bool_decide | done]; naive_solver.
    - intros t Ht. split; [by apply Ht |]. by intros ? [= <-]. }
  intros [nonce|]; [| apply Hstop]. intros t [Ht Hn]. revert t Ht.
  apply (hoare_bind reserve_left _ _ (fun o t => forall created, o = Some created -> can_delete mg created t));
    [by apply create_mapping_pending; [| | apply Hn] |].
  intros [created|]; [| apply Hstop].
  eapply hoare_pre; [apply finish_method_pending |]. intros t Ht. by apply Ht.
Qed.

Lemma run_method_pending d consent plan :
  plan_protocol plan <> UpnpIgd -> 60 <= datagram_bytes b ->
  hoare (stocked b) (run_method d consent mg plan active_end finish) (pending_late finish) (fun _ => True).
Proof using All.
  intros Hp Hb. unfold run_method.
  assert (Hstop : forall row stop P, (forall r, row = Some r -> mr_cleanup r = NotCreated) ->
    hoare P (mret (row, stop)) (pending_late finish) (fun _ => True))
    by (intros row stop P Hr t _ r Hrow Hc; rewrite (Hr r Hrow) in Hc; done).
  eapply hoare_bind; [by eapply hoare_conseq; [apply ordinary_keeps, (stocked_quiet b) | ..] |].
  intros [[]|stop]; [| by apply Hstop].
  eapply hoare_bind with (R := fun _ => stocked b).
  { apply hoare_ask. intros t [Hi Hn]. split; [by apply inside_free | by apply bytes_event]. }
  intros [port|stop]; [| by apply Hstop]. destruct (negb _); [by apply Hstop |].
  eapply hoare_bind; [by eapply hoare_conseq; [apply (path_stocked b) | ..] |].
  intros [baseline|stop]; [| by apply Hstop; intros r [= <-]].
  destruct (negb _); [by apply Hstop; intros r [= <-] | by apply create_method_pending].
Qed.

End Delete.

(** The lease of a row was left to expire only because the run was late. *)
Definition row_late (finish : Z) (t : list map_event) (r : MappingMethodReport) : Prop :=
  mr_cleanup r = LeaseExpiryPending -> plan_protocol (mr_plan r) <> UpnpIgd -> late finish t.

Lemma run_method_stocked b d consent mg plan active_end finish :
  keeps (stocked b) (run_method d consent mg plan active_end finish).
Proof.
  apply stocked_keeps; [apply run_method_keeps |]. unfold run_method.
  set (I := fun t => acct_datagram_bytes (accounting_of t) = datagram_bytes b).
  pose proof (path_steady I (bytes_steady _)). pose proof (create_method_steady I (bytes_steady _)).
  pose proof (ordinary_keeps I (quiet_steady I (bytes_steady _))).
  assert (keeps I (ask (fun t => rt_bind t (plan_transport plan)) (MapBind (plan_transport plan))))
    by (apply keeps_ask; intros t a; by apply bytes_event).
  solve_keeps.
Qed.

Lemma run_methods_pending b mg active_end finish d consent plans :
  authorizes (mg_reservation mg) (mg_gateway mg) = true ->
  (forall t n, rt_nonce t = Ok n -> length n = 12%nat) ->
  (forall p, p ∈ plans -> plan_protocol p <> UpnpIgd -> 60 <= datagram_bytes b) ->
  hoare (stocked b) (run_methods d consent mg plans active_end finish)
    (fun r t => Forall (row_late finish t) r.1) (fun _ => True).
Proof.
  intros Ha Hn. induction plans as [|plan plans IH]; intros Hb; cbn [run_methods]; [intros t _; constructor |].
  eapply hoare_bind with (R := fun o t => stocked b t /\ outcome_ok plan o /\
    (plan_protocol plan <> UpnpIgd -> pending_late finish o t)).
  - destruct (decide (plan_protocol plan = UpnpIgd)) as [Hu|Hu].
    + eapply hoare_conseq; [exact (hoare_and _ _ _ _ _ _ _ (run_method_stocked b d consent mg plan active_end finish)
        (run_method_row d consent mg plan active_end finish)) | by split | | done].
      intros o t [Hs Ho]. by split_and!.
    + assert (60 <= datagram_bytes b) as H60 by (apply (Hb plan); [by left | done]).
      eapply hoare_conseq; [exact (hoare_and _ _ _ _ _ _ _ (hoare_and _ _ _ _ _ _ _
        (run_method_stocked b d consent mg plan active_end finish)
        (run_method_row d consent mg plan active_end finish))
        (run_method_pending b mg active_end finish Ha Hn d consent plan Hu H60)) | by split | | done].
      intros o t [[Hs Ho] Hp]. by split_and!.
  - intros [[r|] [stop|]].
    + intros t (_ & Ho & Hp). constructor; [| done]. cbn in Ho. intros Hc Hu. rewrite Ho in Hu.
      by apply (Hp Hu r).
    + intros t (Hs & (_ & _ & Hc) & _).
      refine (hoare_bind _ _ _ _ (fun r t => Forall (row_late finish t) r.1) _ (IH _) _ t Hs);
        [intros p Hi; apply Hb; by right |].
      intros [rows stop] t' Hr. constructor; [| exact Hr]. intros Hl. destruct Hc; congruence.
    + intros t _. constructor.
    + by intros t (_ & Ho & _).
Qed.

Lemma sum_nonneg {A} (f : A -> Z) l : (forall a, 0 <= f a) -> 0 <= sum_of f l.
Proof. intros Hf. unfold sum_of. induction l as [|x l IH]; cbn; [lia |]. specialize (Hf x). lia. Qed.
Lemma sum_bounds {A} (f : A -> Z) l a : (forall a, 0 <= f a) -> a ∈ l -> f a <= sum_of f l.
Proof.
  intros Hf Hi. pose proof (fun l => sum_nonneg f l Hf) as Hnn. unfold sum_of in *.
  induction Hi as [x l|x y l _ IH]; cbn; [specialize (Hnn l) | specialize (Hf y)]; lia.
Qed.

Lemma plan_datagrams_nonneg p : 0 <= plan_datagrams p.
Proof. unfold plan_datagrams, b2z. repeat case_match; lia. Qed.

Lemma fits_bytes a plans available p :
  fits a plans available = true -> p ∈ plans -> plan_protocol p <> UpnpIgd -> 60 <= acct_datagram_bytes a.
Proof.
  unfold fits. intros Hf Hi Hu. reflect_bool.
  assert (1 <= sum_of (fun p => b2z (udp_router (plan_protocol p))) plans).
  { pose proof (sum_bounds (fun p => b2z (udp_router (plan_protocol p))) plans p) as Hs.
    cbn beta in Hs. unfold udp_router in Hs at 2. rewrite bool_decide_eq_false_2 in Hs by done.
    apply Hs; [| done]. intros q. unfold b2z. case_match; lia. }
  assert (0 <= sum_of plan_datagrams plans).
  { apply sum_nonneg, plan_datagrams_nonneg. }
  match goal with H : _ || _ = true |- _ => apply orb_true_iff in H as [H|H] end; reflect_bool; lia.
Qed.

(** C18: an adopted lease is deleted while there is time. In a session of a
    bootstrapped grant, a PCP or NAT-PMP row is left with its lease merely pending
    - no delete sent for it - only when the clock was read at or past the end of
    the collector's window: the reserve for deletes is large enough, the handle of
    an adopted lease is always authorised, and no earlier request spends it. *)
Theorem lifecycle_deletes_in_time d binds now job session plans mg t :
  from_authenticated_bootstrap d binds now job = Ok session ->
  budgets_unsigned (budgets d) ->
  0 <= mg_discovery_datagrams mg -> 0 <= mg_discovery_control_requests mg ->
  (forall t n, rt_nonce t = Ok n -> length n = 12%nat) ->
  exists report t',
    run_mapping_lifecycle session plans mg t = (Some report, t') /\
    forall row, row ∈ rr_methods report -> plan_protocol (mr_plan row) <> UpnpIgd ->
      mr_cleanup row = LeaseExpiryPending ->
      exists ms, MapNow ms ∈ t' /\ now + experiment_ms (budgets d) <= ms.
Proof.
  intros Hs Hu Hdd Hdc Hn. apply bootstrap_session in Hs as (Hd & Hv & _ & (consent & Hm) & Hr & _).
  pose proof (gv_budgets d Hv) as Hb. set (finish := now + experiment_ms (budgets d)).
  assert (Hfin : collector_end_ms (session_reservation session) = finish) by done.
  assert (Htot := run_lifecycle_keeps session plans mg). rewrite Hd in Htot.
  specialize (Htot Hu Hb ltac:(by rewrite Hm) Hdd Hdc).
  enough (Hrun : hoare (fun _ => True) (run_mapping_lifecycle session plans mg)
    (fun report t => Forall (row_late finish t) (rr_methods report)) (fun _ => True)).
  { specialize (Htot t I). specialize (Hrun t I).
    destruct (run_mapping_lifecycle session plans mg t) as [[report|] t']; [| done].
    exists report, t'. split; [done |]. intros row Hi Hp Hc. rewrite Forall_forall in Hrun. by apply (Hrun row). }
  unfold run_mapping_lifecycle. rewrite Hd, Hm, Hfin.
  eapply hoare_bind with (R := fun _ => stocked (budgets d)).
  { apply hoare_emit. intros t' _. split; [by apply inside_open | done]. }
  intros []. cbv zeta.
  assert (Hstop : forall o k s x y P, hoare P (mret (stopped_report o k s x y))
    (fun report t => Forall (row_late finish t) (rr_methods report)) (fun _ => True)) by (intros; intros t' _; constructor).
  eapply hoare_bind; [by eapply hoare_conseq; [apply now_ms_keeps, (stocked_quiet (budgets d)) | ..] |]. intros now1.
  destruct (_ || _) eqn:Hor; [apply Hstop |]. apply orb_false_iff in Hor as [_ Hm'].
  apply negb_false_iff, andb_true_iff in Hm' as [Hauth _].
  eapply hoare_bind; [eapply hoare_conseq; [apply (stocked_keeps (budgets d)) | done | done | done];
    [by apply charge_inside | apply charge_now_steady, bytes_steady] |].
  intros [[]|e]; [| apply Hstop].
  eapply hoare_bind with (R := fun a t => stocked (budgets d) t /\ acct_datagram_bytes a = datagram_bytes (budgets d)).
  { by intros t' [Hi Ht]. }
  intros a. eapply hoare_bind with (R := fun _ t => stocked (budgets d) t /\ acct_datagram_bytes a = datagram_bytes (budgets d)).
  { apply hoare_ask. intros t' [Ht Ha]. split; [by apply stocked_quiet | done]. }
  intros now2. set (selected := if fits a plans _ then plans else take 1 plans).
  destruct (negb (fits a selected _)) eqn:Hf; [apply Hstop |]. apply negb_false_iff in Hf.
  eapply hoare_bind; [| intros r; eapply hoare_bind with (R := fun _ t => Forall (row_late finish t) r.1); intros; intros t' Ht; exact Ht].
  intros t' [Ht Ha]. revert t' Ht. apply run_methods_pending; [done | done |].
  intros p Hi Hp. rewrite <- Ha. by eapply fits_bytes.
Qed.

End LifecycleFacts.

(** ** An example run: one PCP mapping, verified and deleted *)

Definition sample_run_consent : TraversalMappingConsent :=
  {| consent_reference := "consent-1"; processor_allowlist_digest := sample_digest "a";
     exclusive_reservation_digest := "sha256:" +:+ sample_hex (octets_str (replicate 32 7));
     prior_uncertainty_resolved := true; finite_expiry_verified := true; consent_expires_at_ms := 200000;
     protocols := [RouterPcp]; requested_lease_sec := 60; maximum_lease_sec := 120 |}.
Definition sample_run_grant : TraversalDescriptorV1 :=
  {| version := 1; run_id := repeat_byte 32 "c"; mode := ModeMapping;
     claim_authority_digest := sample_digest "d"; profile_version := "p1"; catalog_version := "c1";
     artifact_digest := sample_digest "e"; helper_version := "h1"; helper_digest := sample_digest "f";
     endpoint_set_revision := "r1"; issued_at_ms := 1000; expires_at_ms := 121000; deadline_ms := 61000;
     operations := [DiscoverGateway; BaselineUdp; MapPcp];
     budgets := {| experiment_ms := 30000; cleanup_reserve_ms := 5000; outbound_datagrams := 16;
                   datagram_bytes := 256; control_requests := 8; external_dialbacks := 2;
                   relay_bytes_per_direction := 0; concurrent_mapping_leases := 1; cleanup_datagrams := 1;
                   cleanup_control_requests := 1 |};
     mapping := Some sample_run_consent; pair := None; participant_role := None |}.
Definition sample_bindings : MappingBindings :=
  {| bind_claim_authority_digest := sample_digest "d"; bind_artifact_digest := sample_digest "e";
     bind_helper := {| identity_version := "h1"; identity_digest := sample_digest "f" |};
     bind_consent_reference := "consent-1"; bind_processor_allowlist_digest := sample_digest "a";
     bind_exclusive_reservation_digest := exclusive_reservation_digest sample_run_consent |}.
Definition sample_session : MappingSession :=
  {| session_descriptor := sample_run_grant; session_reservation := reservation_at sample_run_grant 2000 |}.
Definition sample_plans : list MappingMethodPlan := [{| plan_protocol := Pcp; plan_transport := MappedUdp |}].
Definition sample_mapping_gateway : MappingGateway :=
  {| mg_gateway := sample_gateway; mg_reservation := sample_reservation;
     mg_local_address := ipv4 192 168 1 20; mg_external_address := None; mg_igd := None;
     mg_discovery_datagrams := 1; mg_discovery_control_requests := 0 |}.

Definition sample_evidence (pc : MappingPathCheck) : MappingPathEvidence :=
  let challenge := repeat_byte 32 "1" in
  {| ev_transcript :=
       {| tr_version := 1; tr_domain := TRAVERSAL_EXTERNAL_PATH_DOMAIN; tr_descriptor_digest := sample_bound;
          tr_run_id := run_id sample_run_grant; tr_pair_id := None; tr_participant_role := None;
          tr_authority := ExternalPath; tr_stage := pc_stage pc; tr_method := pc_method pc;
          tr_transport := pc_transport pc; tr_family := V4; tr_challenge := sample_hex challenge;
          tr_peer_challenge := None; tr_expires_at_ms := expires_at_ms sample_run_grant;
          tr_outcome := Succeeded; tr_elapsed_ms := 10; tr_granted_lease_sec := None; tr_cleanup := None;
          tr_protocol_error := None; tr_error_class := None |};
     ev_echoed_challenge := Some challenge |}.
Definition sample_runtime : MappingRuntime :=
  {| rt_now := fun t => 2000 + Z.of_nat (length t); rt_observed := fun _ => ipv4 203 0 113 5;
     rt_stop := fun _ => None; rt_nonce := fun _ => Ok (replicate 12 9); rt_bind := fun _ _ => Ok 40000;
     rt_path_check := fun _ pc _ => Ok (sample_evidence pc); rt_attest := fun _ _ _ => Ok tt;
     rt_exchange := fun _ _ request _ => Ok (60, sample_pcp_reply 60 request) |}.

Definition sample_run : option MappingRunReport * list map_event :=
  @run_mapping_lifecycle sample_compact sample_sha sample_encodings sample_urls sample_hosts sample_runtime
    sample_session sample_plans sample_mapping_gateway [].

Example lifecycle_maps_and_deletes :
  (fun r => (rr_stopped r, mr_create <$> rr_methods r, mr_cleanup <$> rr_methods r,
             mr_verification <$> rr_methods r, rr_control_requests r, rr_external_dialbacks r)) <$> sample_run.1
  = Some (None, [Some Succeeded], [ConfirmedDeleted],
          [Some {| ps_stage := MappingVerify; ps_outcome := Succeeded; ps_error := None |}], 6, 2).
Proof. vm_compute. reflexivity. Qed.

Lemma lifecycle_within_budget_witness : used cleanup_requests sample_run.2 <= 1.
Proof.
  destruct (@lifecycle_within_budget sample_compact sample_sha sample_encodings sample_urls sample_hosts
    sample_runtime sample_run_grant sample_bindings 2000 1000000 sample_session sample_plans
    sample_mapping_gateway [] ltac:(vm_compute; reflexivity) ltac:(split; cbn; lia) ltac:(cbn; lia)
    ltac:(cbn; lia)) as (report & t' & Hrun & _ & Hc & _).
  unfold sample_run. rewrite Hrun. exact Hc.
Defined.

Lemma lifecycle_measures_first_witness :
  @routed sample_compact sample_sha sample_encodings sample_run_grant sample_run.2.
Proof.
  destruct (@lifecycle_measures_first sample_compact sample_sha sample_encodings sample_urls sample_hosts
    sample_runtime sample_session sample_plans sample_mapping_gateway [] ltac:(reflexivity))
    as (report & t' & Hrun & Hr).
  unfold sample_run. rewrite Hrun. exact Hr.
Defined.

Lemma lifecycle_stops_at_uncertainty_witness :
  exists report, sample_run.1 = Some report /\ Forall settled (removelast (rr_methods report)).
Proof.
  destruct (@lifecycle_stops_at_uncertainty sample_compact sample_sha sample_encodings sample_urls sample_hosts
    sample_runtime sample_session sample_plans sample_mapping_gateway [] ltac:(reflexivity))
    as (report & t' & Hrun & _ & Hs & _).
  exists report. unfold sample_run. rewrite Hrun. by split.
Defined.

Lemma lifecycle_deletes_in_time_witness :
  exists report, sample_run.1 = Some report /\
    forall row, row ∈ rr_methods report -> plan_protocol (mr_plan row) <> UpnpIgd ->
      mr_cleanup row = LeaseExpiryPending -> exists ms, MapNow ms ∈ sample_run.2 /\ 32000 <= ms.
Proof.
  destruct (@lifecycle_deletes_in_time sample_compact sample_sha sample_encodings sample_urls sample_hosts
    sample_runtime sample_run_grant sample_bindings 2000 1000000 sample_session sample_plans
    sample_mapping_gateway [] ltac:(vm_compute; reflexivity) ltac:(split; cbn; lia) ltac:(cbn; lia)
    ltac:(cbn; lia) ltac:(by intros t n [= <-])) as (report & t' & Hrun & Hrows).
  exists report. unfold sample_run. rewrite Hrun. split; [reflexivity | exact Hrows].
Defined.
