(* ===== verification/SnapshotFormat.v ===== *)
(** * State snapshots: the format

    The chunk objects and the manifest of [state_snapshot.rs]: sealing and opening
    a chunk, the canonical bytes of a manifest, its digest and signature, and the
    link from a manifest to its predecessor. Byte arrays and vectors are strings.

    HKDF, AES-256-GCM, HMAC, SHA-256, Ed25519 and hex are the interfaces of their
    crates. *)
From Stdlib Require Import Ascii.
From stdpp Require Import prelude strings.
From S2P Require Import Prelude Bridge World RestartPolicy Wire Gateway Traversal Evidence Xml.

Local Open Scope Z_scope.

(** ** Crates *)

(** [ring::aead] with AES-256-GCM: sealing returns the ciphertext and its tag,
    opening takes their concatenation. [ring::hkdf] expands 32 bytes. *)
Class Aead := {
  aead_seal : string -> string -> string -> string -> string * string;
  aead_open : string -> string -> string -> string -> option string
}.
Class Hkdf := hkdf_sha256 : string -> string -> string -> string.
Class Ed25519 := ed25519_verify : string -> string -> string -> bool.

Definition CHUNK_FORMAT_VERSION : Z := 1.
Definition CHUNK_NONCE_LEN : Z := 12.
Definition CHUNK_TAG_LEN : Z := 16.
Definition CHUNK_OVERHEAD : Z := 1 + CHUNK_NONCE_LEN + CHUNK_TAG_LEN.
Definition MANIFEST_VERSION : Z := 1.
Definition SIGNATURE_DOMAIN : string := "liskov-state-manifest-v1".
Definition CHUNK_MIN_BYTES : Z := 256 * 1024.
Definition CHUNK_AVG_BYTES : Z := 1024 * 1024.
Definition CHUNK_MAX_BYTES : Z := 4 * 1024 * 1024.
Definition MAX_CHUNK_PLAINTEXT_BYTES : Z := 16 * 1024 * 1024.
Definition CHUNK_KEY_INFO : string := "liskov-state-chunk-key-v1".
Definition CHUNK_ID_KEY_INFO : string := "liskov-state-chunk-id-v1".
Definition CHUNK_AAD_DOMAIN : string := "liskov-state-chunk-v1".
Definition MAX_SAFE_INTEGER : Z := 2 ^ 53 - 1.

(** ** Errors *)

Inductive ChunkError :=
| ChunkTruncated (n : Z)
| UnsupportedChunkVersion (v : Z)
| ChunkDecrypt
| ChunkIdMismatch.

Inductive ManifestError :=
| ManifestMalformed (field : string)
| SizeMismatch (declared chunks : Z)
| SignerMismatch
| BadSignature
| CrossLineage (field : string)
| SequenceNotAdvanced (previous next : Z)
| SequenceGap (previous next : Z)
| ManifestFork.

(** An [io::Error] keeps only the operation it is reported under. *)
Inductive SnapshotError :=
| SnChunk (e : ChunkError)
| SnManifest (e : ManifestError)
| SnIo (what : string)
| SourceNotDirectory
| OutputInsideSource
| MtimeBeforeEpoch
| SourceChanged
| ObjectConflict (name : string)
| MissingChunk (name : string)
| ObjectLength (name : string) (expected actual : Z)
| ChunkTooLarge (name : string)
| SnArchive
| TargetNotEmpty
| InvalidTarget
| SnSigner
| SnRandomness
| SnCleanup (error : SnapshotError).

(** ** Chunks *)

Definition byte_str (z : Z) : string := octets_str [z].

Record ChunkKeys := { ck_lineage_id : string; ck_seal : string; ck_id : string }.
Record SealedChunk := { sc_chunk_id : string; sc_object : string }.

Section Chunks.
Context `{!Aead, !Hkdf, !Hmac}.

Definition hkdf_32 (dek lineage_id info : string) : string := hkdf_sha256 lineage_id dek info.
Definition derive_chunk_key (dek lineage_id : string) : string := hkdf_32 dek lineage_id CHUNK_KEY_INFO.
Definition derive_chunk_id_key (dek lineage_id : string) : string :=
  hkdf_32 dek lineage_id CHUNK_ID_KEY_INFO.

Definition chunk_keys_new (dek lineage_id : string) : ChunkKeys :=
  {| ck_lineage_id := lineage_id; ck_seal := derive_chunk_key dek lineage_id;
     ck_id := derive_chunk_id_key dek lineage_id |}.

Definition keys_chunk_id (keys : ChunkKeys) (plaintext : string) : string :=
  hmac_sign (ck_id keys) plaintext.

Definition keys_aad (keys : ChunkKeys) (chunk_id : string) : string :=
  CHUNK_AAD_DOMAIN +:+ ck_lineage_id keys +:+ chunk_id.

Definition keys_seal (keys : ChunkKeys) (nonce plaintext : string) : SealedChunk :=
  let chunk_id := keys_chunk_id keys plaintext in
  let '(body, tag) := aead_seal (ck_seal keys) nonce (keys_aad keys chunk_id) plaintext in
  {| sc_chunk_id := chunk_id; sc_object := byte_str CHUNK_FORMAT_VERSION +:+ nonce +:+ body +:+ tag |}.

Definition keys_open (keys : ChunkKeys) (expected_chunk_id object : string) : result string ChunkError :=
  if len object <? CHUNK_OVERHEAD then Err (ChunkTruncated (len object))
  else
    match object with
    | EmptyString => Err (ChunkTruncated 0)
    | String version rest =>
        if negb (byte version =? CHUNK_FORMAT_VERSION) then Err (UnsupportedChunkVersion (byte version))
        else
          let nonce := str_take CHUNK_NONCE_LEN rest in
          let body := str_drop (Z.to_nat CHUNK_NONCE_LEN) rest in
          match aead_open (ck_seal keys) nonce (keys_aad keys expected_chunk_id) body with
          | None => Err ChunkDecrypt
          | Some plaintext =>
              if hmac_verify (ck_id keys) plaintext expected_chunk_id then Ok plaintext
              else Err ChunkIdMismatch
          end
    end.

Definition chunk_id (dek lineage_id plaintext : string) : string :=
  keys_chunk_id (chunk_keys_new dek lineage_id) plaintext.
Definition seal_chunk (dek lineage_id nonce plaintext : string) : SealedChunk :=
  keys_seal (chunk_keys_new dek lineage_id) nonce plaintext.
Definition open_chunk (dek lineage_id expected_chunk_id object : string) : result string ChunkError :=
  keys_open (chunk_keys_new dek lineage_id) expected_chunk_id object.

End Chunks.

(** ** The manifest *)

Inductive RecipientKind := Lockbox | Job | Customer | BrokerShare.

Definition kind_name (k : RecipientKind) : string :=
  match k with
  | Lockbox => "lockbox" | Job => "job" | Customer => "customer" | BrokerShare => "broker_share"
  end.

Record GrantPayload := {
  gp_version : string;
  gp_curve_name : string;
  gp_sender_public_key : string;
  gp_salt : string;
  gp_ciphertext : string
}.

Record WrappedDataKey := {
  wk_recipient_kind : RecipientKind;
  wk_recipient_key_id : string;
  wk_dek_version : Z;
  wk_grant : GrantPayload
}.

Record ManifestWriter := {
  mw_job_id : string;
  mw_processor_id : string;
  mw_generation : Z;
  mw_signer_public_key : string
}.

Record ManifestChunk := { mc_id : string; mc_plaintext_bytes : Z; mc_object_bytes : Z }.

Record Manifest := {
  mf_v : Z;
  mf_org : string;
  mf_application : string;
  mf_lineage : string;
  mf_sequence : Z;
  mf_previous_manifest_digest : option string;
  mf_writer : ManifestWriter;
  mf_captured_at_ms : Z;
  mf_dek_version : Z;
  mf_plaintext_bytes : Z;
  mf_chunks : list ManifestChunk;
  mf_recipients : list WrappedDataKey
}.

Record SignedManifest := { sm_manifest : Manifest; sm_signature : string }.

#[global] Instance manifest_chunk_eq_dec : EqDecision ManifestChunk.
Proof. solve_decision. Defined.

Section Manifests.
Context `{!HexDecode, !Sha256, !Ed25519}.

(** 64 lower-case hex digits as 32 bytes. *)
Definition lower_hex32 (text : string) : option string :=
  if negb (len text =? 64) || negb (bytes_all (fun b => is_ascii_digit b || byte_between 97 102 b) text)
  then None
  else bytes ← hex_decode text; if len bytes =? 32 then Some bytes else None.

Definition malformed (field : string) : ManifestError := ManifestMalformed field.

(** Every chunk's sizes, and the sum of the plaintext sizes. *)
Fixpoint chunk_sum (sum : Z) (chunks : list ManifestChunk) : result Z ManifestError :=
  match chunks with
  | [] => Ok sum
  | chunk :: chunks =>
      if MAX_SAFE_INTEGER <? mc_plaintext_bytes chunk then Err (malformed "chunks[].plaintextBytes")
      else if MAX_SAFE_INTEGER <? mc_object_bytes chunk then Err (malformed "chunks[].objectBytes")
      else
        let? sum := ok_or (malformed "chunks[].plaintextBytes") (checked_add_u64 sum (mc_plaintext_bytes chunk)) in
        chunk_sum sum chunks
  end.

Fixpoint recipients_ok (dek_version : Z) (recipients : list WrappedDataKey) : result unit ManifestError :=
  match recipients with
  | [] => Ok tt
  | r :: recipients =>
      if negb (wk_dek_version r =? dek_version) then Err (malformed "recipients[].dekVersion")
      else if opt_is_none (lower_hex32 (wk_recipient_key_id r))
      then Err (malformed "recipients[].recipientKeyId")
      else recipients_ok dek_version recipients
  end.

(** [for (field, value) in ...]: the first field that fails the test. *)
Fixpoint first_bad {A} (bad : A -> bool) (fields : list (string * A)) : result unit ManifestError :=
  match fields with
  | [] => Ok tt
  | (field, value) :: fields => if bad value then Err (malformed field) else first_bad bad fields
  end.

Definition check_well_formed (m : Manifest) : result unit ManifestError :=
  if negb (mf_v m =? MANIFEST_VERSION) then Err (malformed "v")
  else
    let? _ := first_bad str_is_empty
                [("org", mf_org m); ("application", mf_application m); ("lineage", mf_lineage m);
                 ("writer.jobId", mw_job_id (mf_writer m)); ("writer.processorId", mw_processor_id (mf_writer m))] in
    if mf_sequence m =? 0 then Err (malformed "sequence")
    else if negb (Bool.eqb (mf_sequence m =? 1) (opt_is_none (mf_previous_manifest_digest m)))
    then Err (malformed "previousManifestDigest")
    else
      let? _ := first_bad (fun value => MAX_SAFE_INTEGER <? value)
                  [("sequence", mf_sequence m); ("writer.generation", mw_generation (mf_writer m));
                   ("capturedAtMs", mf_captured_at_ms m); ("dekVersion", mf_dek_version m);
                   ("plaintextBytes", mf_plaintext_bytes m)] in
      let? sum := chunk_sum 0 (mf_chunks m) in
      let? _ := recipients_ok (mf_dek_version m) (mf_recipients m) in
      if negb (sum =? mf_plaintext_bytes m) then Err (SizeMismatch (mf_plaintext_bytes m) sum)
      else Ok tt.

(** *** The encoder

    Each method appends to the buffer or fails; [put_all] runs them in order. *)

Definition enc_u64 (value : Z) : result string ManifestError := Ok (octets_str (be_bytes 8 value)).
Definition enc_count (n : Z) : result string ManifestError :=
  if n <=? u32_max then Ok (octets_str (be_bytes 4 n)) else Err (malformed "length").
Definition enc_bytes (bytes : string) : result string ManifestError :=
  let? count := enc_count (len bytes) in Ok (count +:+ bytes).
Definition enc_str (text : string) : result string ManifestError := enc_bytes text.

Fixpoint put_all (parts : list (result string ManifestError)) : result string ManifestError :=
  match parts with
  | [] => Ok EmptyString
  | part :: parts => let? head := part in let? rest := put_all parts in Ok (head +:+ rest)
  end.

Definition enc_previous (previous : option string) : result string ManifestError :=
  Ok match previous with None => byte_str 0 | Some digest => byte_str 1 +:+ digest end.

Definition enc_chunk (c : ManifestChunk) : result string ManifestError :=
  put_all [Ok (mc_id c); enc_u64 (mc_plaintext_bytes c); enc_u64 (mc_object_bytes c)].

Definition enc_recipient (r : WrappedDataKey) : result string ManifestError :=
  put_all [enc_str (kind_name (wk_recipient_kind r));
           ok_or (malformed "recipients[].recipientKeyId") (lower_hex32 (wk_recipient_key_id r));
           enc_u64 (wk_dek_version r);
           enc_str (gp_version (wk_grant r)); enc_str (gp_curve_name (wk_grant r));
           enc_bytes (gp_sender_public_key (wk_grant r)); enc_bytes (gp_salt (wk_grant r));
           enc_bytes (gp_ciphertext (wk_grant r))].

Definition manifest_bytes (m : Manifest) : result string ManifestError :=
  let? _ := check_well_formed m in
  put_all [enc_u64 (mf_v m); enc_str (mf_org m); enc_str (mf_application m); enc_str (mf_lineage m);
           enc_u64 (mf_sequence m); enc_previous (mf_previous_manifest_digest m);
           enc_str (mw_job_id (mf_writer m)); enc_str (mw_processor_id (mf_writer m));
           enc_u64 (mw_generation (mf_writer m)); Ok (mw_signer_public_key (mf_writer m));
           enc_u64 (mf_captured_at_ms m); enc_u64 (mf_dek_version m); enc_u64 (mf_plaintext_bytes m);
           enc_count (Z.of_nat (length (mf_chunks m))); put_all (map enc_chunk (mf_chunks m));
           enc_count (Z.of_nat (length (mf_recipients m))); put_all (map enc_recipient (mf_recipients m))].

Definition manifest_digest (m : Manifest) : result string ManifestError :=
  let? bytes := manifest_bytes m in Ok (sha256 bytes).

(** *** Signatures and links *)

Record StateSigner := { signer_key : string; sign_ed25519 : string -> option string }.

Definition signed_message (digest : string) : string := SIGNATURE_DOMAIN +:+ digest.

Definition verify_digest (digest signature signer : string) : result unit ManifestError :=
  if ed25519_verify signer (signed_message digest) signature then Ok tt else Err BadSignature.

Definition sign_manifest (m : Manifest) (signer : StateSigner) : result string SnapshotError :=
  let? digest := map_err SnManifest (manifest_digest m) in
  if negb (signer_key signer =s mw_signer_public_key (mf_writer m)) then Err (SnManifest SignerMismatch)
  else
    let? signature := ok_or SnSigner (sign_ed25519 signer (signed_message digest)) in
    let? _ := map_err SnManifest (verify_digest digest signature (mw_signer_public_key (mf_writer m))) in
    Ok signature.

Definition verify_signature (m : Manifest) (signature trusted_signer : string) : result string ManifestError :=
  let? digest := manifest_digest m in
  if negb (mw_signer_public_key (mf_writer m) =s trusted_signer) then Err SignerMismatch
  else let? _ := verify_digest digest signature trusted_signer in Ok digest.

Definition verify_successor (previous next : Manifest) : result unit ManifestError :=
  let? previous_digest := manifest_digest previous in
  let? _ := check_well_formed next in
  if negb (mf_org previous =s mf_org next) then Err (CrossLineage "org")
  else if negb (mf_application previous =s mf_application next) then Err (CrossLineage "application")
  else if negb (mf_lineage previous =s mf_lineage next) then Err (CrossLineage "lineage")
  else if mf_sequence next <=? mf_sequence previous
  then Err (SequenceNotAdvanced (mf_sequence previous) (mf_sequence next))
  else if negb (mf_sequence next =? mf_sequence previous + 1)
  then Err (SequenceGap (mf_sequence previous) (mf_sequence next))
  else if negb (bool_decide (mf_previous_manifest_digest next = Some previous_digest)) then Err ManifestFork
  else Ok tt.

(** A whole history, newest first: each manifest is the accepted successor of the
    next one in the list, and the oldest is a well-formed first manifest. *)
Fixpoint history_ok (chain : list Manifest) : Prop :=
  match chain with
  | [] => True
  | [first] => check_well_formed first = Ok tt /\ mf_sequence first = 1
  | next :: (previous :: _) as older => verify_successor previous next = Ok tt /\ history_ok older
  end.

End Manifests.

(** * Properties *)

(** ** Byte strings *)

Lemma str_app_cancel a b r s :
  String.length a = String.length b -> a +:+ r = b +:+ s -> a = b /\ r = s.
Proof.
  revert b. induction a as [|x a IH]; intros [|y b] Hl H; try done.
  injection H as -> H. injection Hl as Hl. destruct (IH b Hl H) as [-> ->]. done.
Qed.

Lemma len_eq a b : len a = len b <-> String.length a = String.length b.
Proof. unfold len. lia. Qed.

Lemma str_octets_str l : is_octets l -> str_octets (octets_str l) = l.
Proof.
  intros Hl. unfold str_octets, octets_str, bytes, of_bytes. rewrite String.list_ascii_of_string_of_list_ascii.
  rewrite map_map. induction Hl as [|z l Hz Hl IH]; [done |]. cbn [map]. rewrite IH. f_equal.
  unfold byte, is_u8, u8_max in *. rewrite N_ascii_embedding by lia. lia.
Qed.

Lemma octets_str_inj l1 l2 : is_octets l1 -> is_octets l2 -> octets_str l1 = octets_str l2 -> l1 = l2.
Proof. intros H1 H2 H. by rewrite <- (str_octets_str l1 H1), <- (str_octets_str l2 H2), H. Qed.

Lemma octets_str_length l : len (octets_str l) = Z.of_nat (length l).
Proof.
  unfold octets_str. rewrite bytes_len. unfold bytes, of_bytes.
  by rewrite String.list_ascii_of_string_of_list_ascii, length_map.
Qed.

Lemma str_take_app a b : str_take (len a) (a +:+ b) = a.
Proof.
  unfold str_take. rewrite bytes_app, bytes_len, Nat2Z.id, take_app_length.
  apply String.string_of_list_ascii_of_string.
Qed.

Lemma str_drop_len n s : len (str_drop n s) = Z.max 0 (len s - Z.of_nat n).
Proof.
  revert n. induction s as [|a s IH]; intros [|n]; cbn [str_drop]; try (unfold len; cbn; lia).
  rewrite IH. unfold len. cbn [String.length]. lia.
Qed.

Lemma str_drop_app a b : str_drop (Z.to_nat (len a)) (a +:+ b) = b.
Proof. unfold len. rewrite Nat2Z.id. by induction a. Qed.

(** ** Chunks *)

(** What AES-GCM and HMAC document: opening undoes sealing, a ciphertext is as
    long as its plaintext, a tag is 16 bytes, and verification accepts exactly the
    tag that signing yields. *)
Class ChunkLaws `{!Aead, !Hmac} : Prop := {
  aead_round key nonce aad plaintext :
    aead_open key nonce aad ((aead_seal key nonce aad plaintext).1 +:+ (aead_seal key nonce aad plaintext).2)
    = Some plaintext;
  aead_body key nonce aad plaintext : len (aead_seal key nonce aad plaintext).1 = len plaintext;
  aead_tag key nonce aad plaintext : len (aead_seal key nonce aad plaintext).2 = CHUNK_TAG_LEN;
  aead_opened key nonce aad body plaintext :
    aead_open key nonce aad body = Some plaintext -> len body = len plaintext + CHUNK_TAG_LEN;
  hmac_exact key message tag : hmac_verify key message tag = true <-> tag = hmac_sign key message
}.

Section ChunkFacts.
Context `{!Aead, !Hkdf, !Hmac, !ChunkLaws}.

Lemma seal_length keys nonce plaintext :
  len nonce = CHUNK_NONCE_LEN -> len (sc_object (keys_seal keys nonce plaintext)) = CHUNK_OVERHEAD + len plaintext.
Proof.
  intros Hn. unfold keys_seal.
  pose proof (aead_body (ck_seal keys) nonce (keys_aad keys (keys_chunk_id keys plaintext)) plaintext) as Hb.
  pose proof (aead_tag (ck_seal keys) nonce (keys_aad keys (keys_chunk_id keys plaintext)) plaintext) as Ht.
  destruct (aead_seal _ _ _ _) as [body tag]. cbn [sc_object fst snd] in *.
  rewrite !len_app, Hn, Hb, Ht. unfold byte_str. rewrite octets_str_length. unfold CHUNK_OVERHEAD. cbn [length]. lia.
Qed.

Lemma seal_open keys nonce plaintext :
  len nonce = CHUNK_NONCE_LEN ->
  keys_open keys (keys_chunk_id keys plaintext) (sc_object (keys_seal keys nonce plaintext)) = Ok plaintext.
Proof.
  intros Hn. pose proof (seal_length keys nonce plaintext Hn) as Hl. pose proof (len_nonneg plaintext).
  unfold keys_open. rewrite Hl, (proj2 (Z.ltb_ge _ _)) by lia. unfold keys_seal.
  pose proof (aead_round (ck_seal keys) nonce (keys_aad keys (keys_chunk_id keys plaintext)) plaintext) as Hr.
  destruct (aead_seal _ _ _ _) as [body tag]. cbn [sc_object fst snd] in *.
  change (byte_str CHUNK_FORMAT_VERSION +:+ nonce +:+ body +:+ tag)
    with (String (ascii_of_N 1) (nonce +:+ body +:+ tag)).
  change (negb (byte (ascii_of_N 1) =? CHUNK_FORMAT_VERSION)) with false. cbv iota.
  rewrite <- Hn, str_take_app, str_drop_app, Hr.
  by rewrite (proj2 (hmac_exact (ck_id keys) plaintext (keys_chunk_id keys plaintext)) eq_refl).
Qed.

Lemma open_sound keys id object plaintext :
  keys_open keys id object = Ok plaintext ->
  id = keys_chunk_id keys plaintext /\ len object = CHUNK_OVERHEAD + len plaintext.
Proof.
  unfold keys_open. intros Ho. split_all_in Ho. reflect_bool.
  match goal with H : hmac_verify _ _ _ = true |- _ => apply hmac_exact in H as -> end. split; [done |].
  match goal with H : aead_open _ _ _ _ = Some _ |- _ => apply aead_opened in H end.
  rewrite str_drop_len in *. unfold CHUNK_OVERHEAD, CHUNK_NONCE_LEN, CHUNK_TAG_LEN, len in *. cbn [String.length] in *. lia.
Qed.

(** C32: chunks seal and open. A plaintext sealed under any 12-byte nonce opens
    under its own chunk id to the same plaintext, in an object exactly 29 bytes
    longer; and whatever opens under a chunk id, whoever wrote the object, is a
    plaintext with that id, so an object cannot stand in for another chunk. *)
Theorem chunks_seal_and_open dek lineage :
  (forall nonce plaintext, len nonce = CHUNK_NONCE_LEN ->
     let sealed := seal_chunk dek lineage nonce plaintext in
     sc_chunk_id sealed = chunk_id dek lineage plaintext /\
     len (sc_object sealed) = CHUNK_OVERHEAD + len plaintext /\
     open_chunk dek lineage (sc_chunk_id sealed) (sc_object sealed) = Ok plaintext) /\
  (forall id object plaintext, open_chunk dek lineage id object = Ok plaintext ->
     id = chunk_id dek lineage plaintext /\ len object = CHUNK_OVERHEAD + len plaintext).
Proof.
  split; [| intros id object plaintext; apply open_sound].
  intros nonce plaintext Hn sealed.
  assert (sc_chunk_id sealed = chunk_id dek lineage plaintext) as Hid
    by (unfold sealed, seal_chunk, keys_seal, chunk_id; by destruct (aead_seal _ _ _ _)).
  split; [done |]. split; [by apply seal_length |]. rewrite Hid. by apply seal_open.
Qed.

End ChunkFacts.

(** ** The encoder is a prefix code *)

(** Two encodings followed by anything agree only when both the encodings and what
    follows agree, and then [P] holds. *)
Definition codes (p q : result string ManifestError) (P : Prop) : Prop :=
  forall a b r s, p = Ok a -> q = Ok b -> a +:+ r = b +:+ s -> r = s /\ P.

Lemma codes_put p q ps qs (P Q : Prop) :
  codes p q P -> (P -> codes (put_all ps) (put_all qs) Q) -> codes (put_all (p :: ps)) (put_all (q :: qs)) (P /\ Q).
Proof.
  intros Hp Hq a b r s Ha Hb H. cbn [put_all] in *.
  destruct p as [x|]; [| done]. destruct q as [y|]; [| done].
  destruct (put_all ps) as [xs|] eqn:Hps; [| done]. destruct (put_all qs) as [ys|] eqn:Hqs; [| done].
  injection Ha as <-. injection Hb as <-. rewrite !str_app_assoc in H.
  destruct (Hp x y _ _ eq_refl eq_refl H) as [H' HP].
  destruct (Hq HP xs ys r s) as [-> HQ]; done.
Qed.

Lemma codes_nil : codes (put_all []) (put_all []) True.
Proof. intros a b r s [= <-] [= <-] H. by split. Qed.

Lemma codes_conseq p q (P Q : Prop) : codes p q P -> (P -> Q) -> codes p q Q.
Proof. intros Hp HPQ a b r s Ha Hb H. destruct (Hp a b r s Ha Hb H). auto. Qed.

Lemma codes_fixed x y : len x = len y -> codes (Ok x) (Ok y) (x = y).
Proof. intros Hl a b r s [= <-] [= <-] H. apply str_app_cancel in H; [naive_solver | by apply len_eq]. Qed.

Lemma codes_number n x y :
  0 <= x < 256 ^ Z.of_nat n -> 0 <= y < 256 ^ Z.of_nat n ->
  codes (Ok (octets_str (be_bytes n x))) (Ok (octets_str (be_bytes n y))) (x = y).
Proof.
  intros Hx Hy. eapply codes_conseq; [apply codes_fixed; by rewrite !octets_str_length, !be_bytes_length |].
  intros H. apply octets_str_inj in H; [| apply be_bytes_octets ..].
  by rewrite <- (be_value_bytes_id n x Hx), <- (be_value_bytes_id n y Hy), H.
Qed.

Lemma codes_u64 x y : is_u64 x -> is_u64 y -> codes (enc_u64 x) (enc_u64 y) (x = y).
Proof. unfold is_u64, u64_max. intros. apply codes_number; change (256 ^ Z.of_nat 8) with (2 ^ 64); lia. Qed.

Lemma codes_count x y : 0 <= x -> 0 <= y -> codes (enc_count x) (enc_count y) (x = y).
Proof.
  intros Hx Hy. unfold enc_count, u32_max.
  case Z.leb_spec; intros Hxm; [| by intros ????].
  case Z.leb_spec; intros Hym; [| by intros ?????].
  apply codes_number; change (256 ^ Z.of_nat 4) with (2 ^ 32); lia.
Qed.

Lemma codes_bytes x y : codes (enc_bytes x) (enc_bytes y) (x = y).
Proof.
  unfold enc_bytes. intros a b r s Ha Hb H.
  destruct (enc_count (len x)) as [cx|] eqn:Hcx; [| done]. destruct (enc_count (len y)) as [cy|] eqn:Hcy; [| done].
  injection Ha as <-. injection Hb as <-. rewrite !str_app_assoc in H.
  destruct (codes_count (len x) (len y) (len_nonneg x) (len_nonneg y) cx cy _ _ Hcx Hcy H) as [H' Hl].
  apply str_app_cancel in H'; [naive_solver | by apply len_eq].
Qed.

Lemma codes_list {A} (enc : A -> result string ManifestError) (ok : A -> Prop) l1 l2 :
  (forall x y, ok x -> ok y -> codes (enc x) (enc y) (x = y)) ->
  Forall ok l1 -> Forall ok l2 -> length l1 = length l2 ->
  codes (put_all (map enc l1)) (put_all (map enc l2)) (l1 = l2).
Proof.
  intros Henc H1. revert l2. induction H1 as [|x l1 Hx H1 IH]; intros l2 H2 Hl.
  - destruct l2; [| done]. eapply codes_conseq; [apply codes_nil | done].
  - destruct H2 as [|y l2 Hy H2]; [done |]. injection Hl as Hl. cbn [map].
    eapply codes_conseq; [apply codes_put; [by apply Henc | intros _; by apply IH] |]. naive_solver.
Qed.

(** ** Manifests *)

(** The ranges of the manifest's types: unsigned 64-bit integers and 32-byte
    arrays. *)
Record chunk_typed (c : ManifestChunk) : Prop := {
  ct_id : len (mc_id c) = 32;
  ct_plaintext : is_u64 (mc_plaintext_bytes c);
  ct_object : is_u64 (mc_object_bytes c)
}.
Record manifest_typed (m : Manifest) : Prop := {
  mt_v : is_u64 (mf_v m);
  mt_sequence : is_u64 (mf_sequence m);
  mt_previous digest : mf_previous_manifest_digest m = Some digest -> len digest = 32;
  mt_generation : is_u64 (mw_generation (mf_writer m));
  mt_signer : len (mw_signer_public_key (mf_writer m)) = 32;
  mt_captured : is_u64 (mf_captured_at_ms m);
  mt_dek : is_u64 (mf_dek_version m);
  mt_plaintext : is_u64 (mf_plaintext_bytes m);
  mt_chunks : Forall chunk_typed (mf_chunks m);
  mt_recipients : Forall (fun r => is_u64 (wk_dek_version r)) (mf_recipients m)
}.

(** Hex encoding undoes the decoding of lower-case text. *)
Class HexLaws `{!Encodings, !HexDecode} : Prop :=
  hex_restored s bytes : lower_hex s 32 = true -> hex_decode s = Some bytes -> hex_encode bytes = s.

Section ManifestFacts.
Context `{!Encodings, !HexDecode, !Sha256, !Ed25519, !HexLaws}.

Lemma lower_hex32_spec s bytes : lower_hex32 s = Some bytes -> len bytes = 32 /\ hex_encode bytes = s.
Proof.
  unfold lower_hex32. destruct (_ || _) eqn:Hor; [done |]. reflect_bool.
  destruct (hex_decode s) as [b|] eqn:Hd; [| done]. cbn. case Z.eqb_spec; [| done]. intros Hl [= <-].
  split; [done |]. apply hex_restored; [| done]. unfold lower_hex. apply andb_true_iff.
  split; [by apply Z.eqb_eq | done].
Qed.

Lemma codes_key_id e x y :
  codes (ok_or e (lower_hex32 x)) (ok_or e (lower_hex32 y)) (x = y).
Proof.
  destruct (lower_hex32 x) as [a|] eqn:Hx; [| by intros ????]. destruct (lower_hex32 y) as [b|] eqn:Hy; [| by intros ?????].
  apply lower_hex32_spec in Hx as [Ha <-], Hy as [Hb <-].
  eapply codes_conseq; [apply codes_fixed; lia | by intros ->].
Qed.

Lemma codes_previous x y :
  (forall d, x = Some d -> len d = 32) -> (forall d, y = Some d -> len d = 32) ->
  codes (enc_previous x) (enc_previous y) (x = y).
Proof.
  intros Hx Hy a b r s [= <-] [= <-] He. destruct x as [x|], y as [y|]; rewrite ?str_app_assoc in He;
    (apply str_app_cancel in He as [Hh He]; [| done]); try done.
  apply str_app_cancel in He; [naive_solver | apply len_eq; rewrite (Hx x), (Hy y); done].
Qed.

Lemma kind_name_inj k1 k2 : kind_name k1 = kind_name k2 -> k1 = k2.
Proof. by destruct k1, k2. Qed.

(** Field by field: the code of a field is known before the next one is read. *)
Ltac code_field :=
  first [ apply codes_bytes | apply codes_key_id | by apply codes_u64 | apply codes_count; lia
        | by apply codes_previous | apply codes_fixed; lia ].
Ltac code_fields list_field :=
  eapply codes_conseq;
  [ repeat first [ apply codes_nil | eapply codes_put; [first [list_field | code_field] | intros ?] ] |].

Lemma codes_chunk x y : chunk_typed x -> chunk_typed y -> codes (enc_chunk x) (enc_chunk y) (x = y).
Proof. intros [] []. unfold enc_chunk. code_fields fail. destruct x, y; cbn. naive_solver. Qed.

Lemma codes_recipient x y :
  is_u64 (wk_dek_version x) -> is_u64 (wk_dek_version y) -> codes (enc_recipient x) (enc_recipient y) (x = y).
Proof.
  intros Hx Hy. unfold enc_recipient, enc_str. code_fields fail.
  destruct x as [kx ? ? []], y as [ky ? ? []]; cbn. intros (Hk & ?). apply kind_name_inj in Hk. naive_solver.
Qed.

Lemma manifest_bytes_inj m1 m2 b :
  manifest_typed m1 -> manifest_typed m2 ->
  manifest_bytes m1 = Ok b -> manifest_bytes m2 = Ok b -> m1 = m2.
Proof.
  intros [] []. unfold manifest_bytes, enc_str.
  destruct (check_well_formed m1) as [[]|]; [| done]. destruct (check_well_formed m2) as [[]|]; [| done].
  enough (codes (put_all _) (put_all _) (m1 = m2)) as Hc
    by (intros Hb1 Hb2; by destruct (Hc b b EmptyString EmptyString Hb1 Hb2 eq_refl)).
  code_fields ltac:(first
    [ eapply codes_list; [apply codes_chunk | done | done | lia]
    | eapply (codes_list _ (fun r => is_u64 (wk_dek_version r))); [apply codes_recipient | done | done | lia] ]).
  destruct m1 as [? ? ? ? ? ? [] ? ? ? ? ?], m2 as [? ? ? ? ? ? [] ? ? ? ? ?]; cbn. naive_solver.
Qed.

Lemma first_bad_false {A} (bad : A -> bool) fields field value :
  first_bad bad fields = Ok tt -> In (field, value) fields -> bad value = false.
Proof.
  induction fields as [|[f v] fields IH]; [done |]. cbn [first_bad]. destruct (bad v) eqn:Hv; [done |].
  intros Hf [[= -> ->]|Hin]; auto.
Qed.

Lemma well_formed_sequence m :
  check_well_formed m = Ok tt ->
  mf_sequence m <> 0 /\ mf_sequence m <= MAX_SAFE_INTEGER /\
  (mf_sequence m = 1 <-> mf_previous_manifest_digest m = None).
Proof.
  unfold check_well_formed. intros Hw. destruct (negb _); [done |].
  destruct (first_bad str_is_empty _) as [[]|]; [| done].
  destruct (mf_sequence m =? 0) eqn:Hz; [done |]. destruct (negb (Bool.eqb _ _)) eqn:Hp; [done |].
  destruct (first_bad (fun _ => _) _) as [[]|] eqn:Hb; [| done]. clear Hw.
  apply (first_bad_false _ _ "sequence" (mf_sequence m)) in Hb; [| by left].
  apply Z.ltb_ge in Hb. apply Z.eqb_neq in Hz. apply negb_false_iff, eqb_prop in Hp.
  split; [done |]. split; [done |]. rewrite <- Z.eqb_eq, Hp. by destruct (mf_previous_manifest_digest m).
Qed.

Lemma digest_well_formed m d : manifest_digest m = Ok d -> check_well_formed m = Ok tt.
Proof. unfold manifest_digest, manifest_bytes. by destruct (check_well_formed m) as [[]|]. Qed.

Lemma successor_spec previous next :
  verify_successor previous next = Ok tt ->
  exists d, manifest_digest previous = Ok d /\ check_well_formed next = Ok tt /\
    mf_org previous = mf_org next /\ mf_application previous = mf_application next /\
    mf_lineage previous = mf_lineage next /\
    mf_sequence next = mf_sequence previous + 1 /\ mf_previous_manifest_digest next = Some d.
Proof.
  unfold verify_successor. intros Hs. destruct (manifest_digest previous) as [d|]; [| done].
  destruct (check_well_formed next) as [[]|]; [| done]. cbn in Hs. split_all_in Hs. reflect_bool.
  exists d. do 2 (split; [done |]). repeat (split; [by try lia |]).
  match goal with H : bool_decide _ = true |- _ => apply bool_decide_eq_true in H end. done.
Qed.

Lemma history_head m older : history_ok (m :: older) -> check_well_formed m = Ok tt.
Proof. destruct older as [|p older]; [by intros [] | intros [Hs _]]. apply successor_spec in Hs. naive_solver. Qed.

Lemma history_length m older : history_ok (m :: older) -> mf_sequence m = Z.of_nat (length (m :: older)).
Proof.
  revert m. induction older as [|p older IH]; intros m; [by intros [_ ->] |].
  intros [Hs Ho]. apply successor_spec in Hs as (d & _ & _ & _ & _ & _ & -> & _).
  rewrite (IH p Ho). cbn [length]. lia.
Qed.

(** Two manifests that differ and have the same digest. *)
Definition digests_collide (chain1 chain2 : list Manifest) : Prop :=
  exists m1 m2 d, In m1 chain1 /\ In m2 chain2 /\ m1 <> m2 /\
    manifest_bytes m1 <> manifest_bytes m2 /\ manifest_digest m1 = Ok d /\ manifest_digest m2 = Ok d.

Lemma digest_determines m1 m2 d :
  manifest_typed m1 -> manifest_typed m2 -> manifest_digest m1 = Ok d -> manifest_digest m2 = Ok d ->
  m1 = m2 \/ digests_collide [m1] [m2].
Proof.
  intros Ht1 Ht2 Hd1 Hd2.
  destruct (manifest_bytes m1) as [b1|] eqn:Hb1; [| by unfold manifest_digest in Hd1; rewrite Hb1 in Hd1].
  destruct (manifest_bytes m2) as [b2|] eqn:Hb2; [| by unfold manifest_digest in Hd2; rewrite Hb2 in Hd2].
  destruct (decide (b1 = b2)) as [->|Hne]; [left; by eapply manifest_bytes_inj |].
  right. exists m1, m2, d. rewrite Hb1, Hb2. do 2 (split; [by left |]).
  split; [intros ->; congruence |]. split; [congruence | done].
Qed.

Lemma digests_collide_cons m1 m2 older1 older2 :
  digests_collide older1 older2 -> digests_collide (m1 :: older1) (m2 :: older2).
Proof. intros (a & b & d & Ha & Hb & Hr). exists a, b, d. split; [by right |]. split; [by right | done]. Qed.

Lemma digests_collide_head m1 m2 older1 older2 :
  digests_collide [m1] [m2] -> digests_collide (m1 :: older1) (m2 :: older2).
Proof. intros (a & b & d & [<-|[]] & [<-|[]] & Hr). exists m1, m2, d. split; [by left |]. split; [by left | done]. Qed.

Lemma history_determined m1 older1 : forall m2 older2 d,
  Forall manifest_typed (m1 :: older1) -> Forall manifest_typed (m2 :: older2) ->
  history_ok (m1 :: older1) -> history_ok (m2 :: older2) ->
  manifest_digest m1 = Ok d -> manifest_digest m2 = Ok d ->
  m1 :: older1 = m2 :: older2 \/ digests_collide (m1 :: older1) (m2 :: older2).
Proof.
  revert m1. induction older1 as [|p1 older1 IH]; intros m1 m2 older2 d Ht1 Ht2 Hh1 Hh2 Hd1 Hd2;
    apply Forall_cons in Ht1 as [Hm1 Ht1]; apply Forall_cons in Ht2 as [Hm2 Ht2];
    (destruct (digest_determines m1 m2 d Hm1 Hm2 Hd1 Hd2) as [<-|Hc]; [| right; by apply digests_collide_head]).
  - pose proof (history_length _ _ Hh1) as Hl1. pose proof (history_length _ _ Hh2) as Hl2.
    destruct older2; [by left | cbn in *; lia].
  - pose proof (history_length _ _ Hh1) as Hl1. pose proof (history_length _ _ Hh2) as Hl2.
    destruct older2 as [|p2 older2]; [cbn in *; lia |].
    destruct Hh1 as [Hs1 Ho1], Hh2 as [Hs2 Ho2].
    apply successor_spec in Hs1 as (d1 & Hp1 & _ & _ & _ & _ & _ & Hl1').
    apply successor_spec in Hs2 as (d2 & Hp2 & _ & _ & _ & _ & _ & Hl2').
    destruct (IH p1 p2 older2 d1) as [->|Hc]; try done; try congruence; [by left |].
    right. by apply digests_collide_cons.
Qed.

(** C31: a head fixes its history. Of two complete manifest histories whose heads
    have the same digest, either they are the same list, or two different manifests
    in them exhibit a SHA-256 collision: nothing can be dropped, inserted, reordered
    or altered anywhere in a history behind a trusted head. Every manifest in a
    history belongs to the head's lineage, and the head's sequence is its length. *)
Theorem head_determines_history m1 older1 m2 older2 d :
  Forall manifest_typed (m1 :: older1) -> Forall manifest_typed (m2 :: older2) ->
  history_ok (m1 :: older1) -> history_ok (m2 :: older2) ->
  manifest_digest m1 = Ok d -> manifest_digest m2 = Ok d ->
  (m1 :: older1 = m2 :: older2 \/ digests_collide (m1 :: older1) (m2 :: older2)) /\
  mf_sequence m1 = Z.of_nat (length (m1 :: older1)) /\
  Forall (fun m => mf_org m = mf_org m1 /\ mf_application m = mf_application m1 /\
                   mf_lineage m = mf_lineage m1) older1.
Proof.
  intros Ht1 Ht2 Hh1 Hh2 Hd1 Hd2. split; [by eapply history_determined |].
  split; [by apply history_length |]. clear -Hh1. revert m1 Hh1.
  induction older1 as [|p older1 IH]; intros m1; [done |]. intros [Hs Ho].
  apply successor_spec in Hs as (d & _ & _ & Hg1 & Hg2 & Hg3 & _). constructor; [done |].
  eapply Forall_impl; [by apply IH |]. cbn. intros m (-> & -> & ->). done.
Qed.

Lemma verify_signature_spec m signature trusted d :
  verify_signature m signature trusted = Ok d <->
  manifest_digest m = Ok d /\ mw_signer_public_key (mf_writer m) = trusted /\
  ed25519_verify trusted (signed_message d) signature = true.
Proof.
  unfold verify_signature, verify_digest.
  destruct (manifest_digest m) as [d'|]; cbn; [| split; [done | by intros (? & _)]].
  destruct (str_eqb_spec (mw_signer_public_key (mf_writer m)) trusted) as [Hk|Hk]; cbn;
    [| split; [done | by intros (_ & ? & _)]].
  split.
  - destruct (ed25519_verify _ _ _) eqn:Hv; [by intros [= <-] | done].
  - by intros ([= ->] & _ & ->).
Qed.

(** Signing and verifying agree. What [sign] returns verifies under the signer's
    own key and yields the manifest's digest; and a signature verifies only over the
    digest of the manifest at hand, by the key the reader trusts, which is the key
    the manifest itself names. *)
Theorem signed_manifests_verify m signer signature :
  (sign_manifest m signer = Ok signature ->
   exists d, manifest_digest m = Ok d /\ verify_signature m signature (signer_key signer) = Ok d) /\
  (forall trusted d, verify_signature m signature trusted = Ok d <->
     manifest_digest m = Ok d /\ mw_signer_public_key (mf_writer m) = trusted /\
     ed25519_verify trusted (signed_message d) signature = true).
Proof.
  split; [| intros trusted d; apply verify_signature_spec].
  unfold sign_manifest. destruct (manifest_digest m) as [d|] eqn:Hd; [cbn | done].
  destruct (str_eqb_spec (signer_key signer) (mw_signer_public_key (mf_writer m))) as [Hk|]; [cbn | done].
  destruct (sign_ed25519 _ _) as [sg|]; [cbn | done].
  unfold verify_digest. destruct (ed25519_verify _ _ _) eqn:Hv; [| done]. intros [= ->].
  exists d. split; [done |]. apply verify_signature_spec. rewrite Hk. done.
Qed.

End ManifestFacts.

(** ** Examples *)

(** A cipher that leaves the text in clear behind a constant tag. *)
Definition sample_aead : Aead :=
  {| aead_seal := fun _ _ _ plaintext => (plaintext, repeat_byte 16 "t");
     aead_open := fun _ _ _ body =>
       let n := len body - CHUNK_TAG_LEN in
       if (0 <=? n) && (body =s (str_take n body +:+ repeat_byte 16 "t")) then Some (str_take n body) else None |}.
Definition sample_hkdf : Hkdf := fun _ _ info => info.
Definition sample_ed25519 : Ed25519 := fun key message signature => signature =s (key +:+ message).

Lemma sample_chunk_laws : @ChunkLaws sample_aead sample_hmac.
Proof.
  split; try done.
  - intros key nonce aad plaintext. pose proof (len_nonneg plaintext).
    cbn [aead_open aead_seal sample_aead fst snd]. cbv zeta. rewrite len_app. change (len (repeat_byte 16 "t")) with CHUNK_TAG_LEN.
    replace (len plaintext + CHUNK_TAG_LEN - CHUNK_TAG_LEN) with (len plaintext) by lia.
    rewrite str_take_app, str_eqb_refl, (proj2 (Z.leb_le _ _)); done.
  - intros key nonce aad body plaintext. cbn [aead_open sample_aead]. cbv zeta. destruct (_ && _) eqn:Ha; [| done]. intros [= <-].
    apply andb_true_iff in Ha as [_ Ha%str_eqb_eq]. rewrite Ha at 1. by rewrite len_app.
  - intros key message tag. cbn. apply str_eqb_eq.
Qed.

Lemma chunks_seal_and_open_witness :
  @open_chunk sample_aead sample_hkdf sample_hmac "dek" "lineage" (repeat_byte 32 "k")
    (byte_str 1 +:+ repeat_byte 12 "n" +:+ "state" +:+ repeat_byte 16 "t") = Ok "state".
Proof.
  exact (proj2 (proj2 (proj1 (@chunks_seal_and_open sample_aead sample_hkdf sample_hmac sample_chunk_laws
    "dek" "lineage") (repeat_byte 12 "n") "state" eq_refl))).
Defined.

Lemma sample_hex_laws : @HexLaws sample_encodings (fun s => sample_unhex s).
Proof. intros s b _ Hb. by apply (sample_hex_back (String.length s)). Qed.

Definition sample_manifest (sequence : Z) (previous : option string) : Manifest :=
  {| mf_v := 1; mf_org := "org"; mf_application := "app"; mf_lineage := "lineage"; mf_sequence := sequence;
     mf_previous_manifest_digest := previous;
     mf_writer := {| mw_job_id := "job"; mw_processor_id := "processor"; mw_generation := 1;
                     mw_signer_public_key := repeat_byte 32 "p" |};
     mf_captured_at_ms := 1000; mf_dek_version := 1; mf_plaintext_bytes := 5;
     mf_chunks := [{| mc_id := repeat_byte 32 "k"; mc_plaintext_bytes := 5; mc_object_bytes := 34 |}];
     mf_recipients := [] |}.
Definition sample_history : list Manifest :=
  [sample_manifest 2 (Some (repeat_byte 32 "s")); sample_manifest 1 None].

Lemma sample_manifest_typed sequence previous :
  is_u64 sequence -> match previous with Some d => len d = 32 | None => True end ->
  manifest_typed (sample_manifest sequence previous).
Proof.
  intros Hs Hp. split; cbn; try done; unfold is_u64, u64_max; try lia.
  - intros d ->. done.
  - repeat constructor; cbn; unfold u64_max; lia.
Qed.

Lemma sample_history_typed : Forall manifest_typed sample_history.
Proof. repeat apply Forall_cons_2; [by apply sample_manifest_typed .. | apply Forall_nil_2]. Qed.

Lemma head_determines_history_witness :
  mf_sequence (sample_manifest 2 (Some (repeat_byte 32 "s"))) = Z.of_nat (length sample_history).
Proof.
  refine (proj1 (proj2 (@head_determines_history sample_encodings (fun s => sample_unhex s) sample_sha
    sample_hex_laws (sample_manifest 2 (Some (repeat_byte 32 "s"))) [sample_manifest 1 None]
    (sample_manifest 2 (Some (repeat_byte 32 "s"))) [sample_manifest 1 None] (repeat_byte 32 "s")
    sample_history_typed sample_history_typed _ _ eq_refl eq_refl)));
    repeat split; vm_compute; reflexivity.
Defined.

Definition sample_signer : StateSigner :=
  {| signer_key := repeat_byte 32 "p"; sign_ed25519 := fun message => Some (repeat_byte 32 "p" +:+ message) |}.

Lemma signed_manifests_verify_witness :
  exists d, @verify_signature (fun s => sample_unhex s) sample_sha sample_ed25519 (sample_manifest 1 None)
    (repeat_byte 32 "p" +:+ signed_message (repeat_byte 32 "s")) (signer_key sample_signer) = Ok d.
Proof.
  destruct (proj1 (@signed_manifests_verify (fun s => sample_unhex s) sample_sha sample_ed25519
    (sample_manifest 1 None) sample_signer _) eq_refl) as (d & _ & Hd).
  exists d. exact Hd.
Defined.
