(* ===== verification/SnapshotWrite.v ===== *)
(** * State snapshots: writing

    [state_snapshot::write]: the walk of the source directory, the tar stream cut
    into chunks, and the object directory the chunks are stored in.

    The object directory is a function of the history of file-system calls on it,
    so it is known at every moment of a run. Every call may fail. The source is a
    tree of directory listings; its files are read through the host, which may
    answer with contents that no longer match the listing. The tar builder, FastCDC
    and the random generator are the interfaces of their crates. *)
From Stdlib Require Import Ascii Btauto.
From stdpp Require Import prelude strings gmap sorting.
From S2P Require Import Prelude Bridge World RestartPolicy Wire Gateway Traversal Evidence Xml SnapshotFormat.

Local Open Scope Z_scope.

Definition ROOT_ENTRY : string := "./".

(** ** The source directory *)

Inductive FileKind := KindDir | KindFile | KindSymlink | KindSpecial.

Record Meta := {
  md_kind : FileKind;
  md_mode : Z;
  md_uid : Z;
  md_gid : Z;
  md_mtime : Z;
  md_len : Z
}.

(** A file or directory as the walk finds it. [None] in place of a listing is a
    [read_dir] that fails, in place of a child an entry or metadata that fails. *)
Inductive Node := node {
  nd_meta : Meta;
  nd_listing : option (list (string * option Node))
}.

Record SourceEntry := { se_relative : string; se_meta : Meta }.

Definition child_relative (relative name : string) : string :=
  if str_is_empty relative then name else relative +:+ "/" +:+ name.

(** The three accumulators of the walk. *)
Record SourceWalk := {
  wk_entries : list SourceEntry;
  wk_skipped : Z;
  wk_pending : list (Node * string)
}.

Fixpoint walk_children (relative : string) (children : list (string * option Node)) (w : SourceWalk)
  : result SourceWalk SnapshotError :=
  match children with
  | [] => Ok w
  | (_, None) :: _ => Err (SnIo "source walk")
  | (name, Some child) :: children =>
      let child_relative := child_relative relative name in
      let entry := {| se_relative := child_relative; se_meta := nd_meta child |} in
      walk_children relative children
        match md_kind (nd_meta child) with
        | KindDir =>
            {| wk_entries := wk_entries w ++ [entry]; wk_skipped := wk_skipped w;
               wk_pending := (child, child_relative) :: wk_pending w |}
        | KindFile | KindSymlink =>
            {| wk_entries := wk_entries w ++ [entry]; wk_skipped := wk_skipped w;
               wk_pending := wk_pending w |}
        | KindSpecial =>
            {| wk_entries := wk_entries w; wk_skipped := wk_skipped w + 1; wk_pending := wk_pending w |}
        end
  end.

(** [while let Some((path, relative)) = pending.pop()]. One fuel unit per directory;
    [None] is fuel running out. *)
Fixpoint walk_pending (fuel : nat) (w : SourceWalk) : option (result SourceWalk SnapshotError) :=
  match wk_pending w with
  | [] => Some (Ok w)
  | (n, relative) :: pending =>
      match fuel with
      | O => None
      | S fuel =>
          match nd_listing n with
          | None => Some (Err (SnIo "source walk"))
          | Some children =>
              match walk_children relative children
                      {| wk_entries := wk_entries w; wk_skipped := wk_skipped w; wk_pending := pending |} with
              | Err e => Some (Err e)
              | Ok w => walk_pending fuel w
              end
          end
      end
  end.

(** The nodes of a tree, which bound the directories in it. *)
Fixpoint node_size (n : Node) : nat :=
  S match nd_listing n with
    | None => 0
    | Some children =>
        (fix sizes (l : list (string * option Node)) : nat :=
           match l with
           | [] => 0
           | (_, None) :: l => sizes l
           | (_, Some n) :: l => node_size n + sizes l
           end) children
    end%nat.

Definition entry_le (a b : SourceEntry) : Prop := String.le (se_relative a) (se_relative b).
#[global] Instance entry_le_dec a b : Decision (entry_le a b).
Proof. unfold entry_le. apply _. Defined.

Definition collect_entries (root : Node) : option (result (list SourceEntry * Z) SnapshotError) :=
  w ← walk_pending (node_size root)
        {| wk_entries := [{| se_relative := ROOT_ENTRY; se_meta := nd_meta root |}]; wk_skipped := 0;
           wk_pending := [(root, EmptyString)] |};
  Some (match w with
        | Ok w => Ok (merge_sort entry_le (wk_entries w), wk_skipped w)
        | Err e => Err e
        end).

(** ** The object directory *)

(** A regular file with its contents and whether they have reached the disk, or
    anything else. *)
Inductive Obj := ObjFile (content : string) (synced : bool) | ObjOther.
Notation Dir := (gmap string Obj).

Inductive LookResult := LookFile (n : Z) | LookOther | LookMissing | LookFault.

(** What reading a source file yields. *)
Inductive SourceRead := OpenFails | ReadFails (got : string) | Reads (content : string) (probe_fails : bool).

Inductive SnEvent :=
| Lookup (name : string) (r : LookResult)
| Random (n : Z) (r : option string)
| CreateNew (name : string) (ok : bool)
| WriteAll (name : string) (r : string * bool)
| SyncAll (name : string) (ok : bool)
| Rename (from to : string) (ok : bool)
| RemoveFile (name : string) (ok : bool)
| SourceFile (path : string) (r : SourceRead)
| SourceLink (path : string) (r : option string).

Class SnapshotHost := {
  fs_fault : list SnEvent -> bool;
  write_cut : list SnEvent -> Z;
  random_fill : list SnEvent -> Z -> option string;
  read_source : list SnEvent -> string -> SourceRead;
  read_link : list SnEvent -> string -> option string
}.

Definition apply_event (e : SnEvent) (d : Dir) : Dir :=
  match e with
  | CreateNew name true => <[name := ObjFile EmptyString false]> d
  | WriteAll name (data, _) =>
      match d !! name with
      | Some (ObjFile content _) => <[name := ObjFile (content +:+ data) false]> d
      | _ => d
      end
  | SyncAll name true =>
      match d !! name with
      | Some (ObjFile content _) => <[name := ObjFile content true]> d
      | _ => d
      end
  | Rename from to true =>
      match d !! from with Some o => <[to := o]> (delete from d) | None => d end
  | RemoveFile name true => delete name d
  | _ => d
  end.

Section Objects.
Context `{!SnapshotHost}.
Variable initial : Dir.

(** The directory after a history, newest event first. *)
Definition files (t : list SnEvent) : Dir := foldr apply_event initial t.

Definition lookup_result (t : list SnEvent) (name : string) : LookResult :=
  if fs_fault t then LookFault
  else match files t !! name with
       | Some (ObjFile content _) => LookFile (len content)
       | Some ObjOther => LookOther
       | None => LookMissing
       end.

Definition symlink_metadata (name : string) : io SnEvent LookResult :=
  ask (fun t => lookup_result t name) (Lookup name).
Definition getrandom (n : Z) : io SnEvent (option string) := ask (fun t => random_fill t n) (Random n).
Definition create_new (name : string) : io SnEvent bool :=
  ask (fun t => negb (fs_fault t) && opt_is_none (files t !! name)) (CreateNew name).
Definition write_all (name data : string) : io SnEvent (string * bool) :=
  ask (fun t => if fs_fault t then (str_take (write_cut t) data, false) else (data, true)) (WriteAll name).
Definition sync_all (name : string) : io SnEvent bool := ask (fun t => negb (fs_fault t)) (SyncAll name).
Definition rename (from to : string) : io SnEvent bool :=
  ask (fun t => negb (fs_fault t) && opt_is_some (files t !! from)) (Rename from to).
Definition remove_file (name : string) : io SnEvent bool :=
  ask (fun t => negb (fs_fault t)) (RemoveFile name).

Context `{!Encodings}.

Definition random_suffix : io SnEvent (result string SnapshotError) :=
  r ← getrandom 8;
  mret match r with Some bytes => Ok (hex_encode bytes) | None => Err SnRandomness end.

(** The closure of [write_object]: create, write, sync, rename. *)
Definition write_steps (temporary name object : string) : io SnEvent bool :=
  created ← create_new temporary;
  if negb created then mret false
  else
    wrote ← write_all temporary object;
    if negb wrote.2 then mret false
    else
      synced ← sync_all temporary;
      if negb synced then mret false else rename temporary name.

Definition temporary_name (name suffix : string) : string := "." +:+ name +:+ "." +:+ suffix +:+ ".tmp".

Definition write_object (name object : string) : io SnEvent (result unit SnapshotError) :=
  let!? suffix := random_suffix in
  let temporary := temporary_name name suffix in
  ok ← write_steps temporary name object;
  if (ok : bool) then mret (Ok tt)
  else _ ← remove_file temporary; mret (Err (SnIo "object write")).

(** ** The chunk sink *)

Class FastCdc := fastcdc_cut : string -> Z -> Z -> Z -> Z.
Context `{!Aead, !Hkdf, !Hmac, !FastCdc}.

Record WriteReport := { wr_written : Z; wr_reused : Z; wr_skipped : Z }.

Record ChunkSink := {
  sk_keys : ChunkKeys;
  sk_buffer : string;
  sk_chunks : list ManifestChunk;
  sk_report : WriteReport;
  sk_error : option SnapshotError
}.

Definition set_buffer (s : ChunkSink) (buffer : string) : ChunkSink :=
  {| sk_keys := sk_keys s; sk_buffer := buffer; sk_chunks := sk_chunks s; sk_report := sk_report s;
     sk_error := sk_error s |}.
Definition set_error (s : ChunkSink) (error : SnapshotError) : ChunkSink :=
  {| sk_keys := sk_keys s; sk_buffer := sk_buffer s; sk_chunks := sk_chunks s; sk_report := sk_report s;
     sk_error := Some error |}.

(** [chunks.push], after one of the two counters went up. *)
Definition push_chunk (s : ChunkSink) (written : bool) (chunk : ManifestChunk) : ChunkSink :=
  let r := sk_report s in
  {| sk_keys := sk_keys s; sk_buffer := sk_buffer s; sk_chunks := sk_chunks s ++ [chunk];
     sk_report := {| wr_written := wr_written r + (if written then 1 else 0);
                     wr_reused := wr_reused r + (if written then 0 else 1); wr_skipped := wr_skipped r |};
     sk_error := sk_error s |}.

Definition described (keys : ChunkKeys) (plaintext : string) : ManifestChunk :=
  {| mc_id := keys_chunk_id keys plaintext; mc_plaintext_bytes := len plaintext;
     mc_object_bytes := CHUNK_OVERHEAD + len plaintext |}.

Definition store (s : ChunkSink) (plaintext : string) : io SnEvent (ChunkSink * result unit SnapshotError) :=
  let chunk_id := keys_chunk_id (sk_keys s) plaintext in
  let name := hex_encode chunk_id in
  let object_bytes := CHUNK_OVERHEAD + len plaintext in
  let chunk := {| mc_id := chunk_id; mc_plaintext_bytes := len plaintext; mc_object_bytes := object_bytes |} in
  looked ← symlink_metadata name;
  match looked with
  | LookFile n =>
      if n =? object_bytes then mret (push_chunk s false chunk, Ok tt) else mret (s, Err (ObjectConflict name))
  | LookOther => mret (s, Err (ObjectConflict name))
  | LookMissing =>
      drawn ← getrandom CHUNK_NONCE_LEN;
      match drawn with
      | None => mret (s, Err SnRandomness)
      | Some nonce =>
          let sealed := keys_seal (sk_keys s) nonce plaintext in
          wrote ← write_object name (sc_object sealed);
          match wrote with
          | Ok _ => mret (push_chunk s true chunk, Ok tt)
          | Err e => mret (s, Err e)
          end
      end
  | LookFault => mret (s, Err (SnIo "object lookup"))
  end.

Definition cut_one (s : ChunkSink) : io SnEvent (ChunkSink * result unit SnapshotError) :=
  let cut := fastcdc_cut (sk_buffer s) CHUNK_MIN_BYTES CHUNK_AVG_BYTES CHUNK_MAX_BYTES in
  store (set_buffer s (str_drop (Z.to_nat cut) (sk_buffer s))) (str_take cut (sk_buffer s)).

(** The fuel of both loops is the buffered length: every cut takes a byte. *)
Definition buffer_fuel (s : ChunkSink) : nat := S (String.length (sk_buffer s)).

Definition flush_all (s : ChunkSink) : io SnEvent (ChunkSink * result unit SnapshotError) :=
  loop (buffer_fuel s) (fun s =>
    if str_is_empty (sk_buffer s) then mret (inr (s, Ok tt))
    else
      r ← cut_one s;
      match r.2 with Ok _ => mret (inl r.1) | Err e => mret (inr (r.1, Err e)) end) s.

(** [impl Write for ChunkSink]: whether the write succeeded; a failure leaves the
    typed error in the sink. *)
Definition sink_write (s : ChunkSink) (buf : string) : io SnEvent (ChunkSink * bool) :=
  match sk_error s with
  | Some _ => mret (s, false)
  | None =>
      let s := set_buffer s (sk_buffer s +:+ buf) in
      loop (buffer_fuel s) (fun s =>
        if len (sk_buffer s) <? CHUNK_MAX_BYTES then mret (inr (s, true))
        else
          r ← cut_one s;
          match r.2 with
          | Ok _ => mret (inl r.1)
          | Err e => mret (inr (set_error r.1 e, false))
          end) s
  end.

(** ** The archive *)

Inductive EntryType := TypeDirectory | TypeSymlink | TypeRegular.

Record Header := {
  hd_mode : Z;
  hd_uid : Z;
  hd_gid : Z;
  hd_mtime : Z;
  hd_size : Z;
  hd_type : EntryType
}.

(** The three builder calls: [append] of the root entry under its raw name,
    [append_data] with the bytes its reader yields, [append_link]. *)
Inductive TarItem :=
| TarRoot (h : Header) (name : string)
| TarData (h : Header) (path data : string)
| TarLink (h : Header) (path target : string).

(** [tar::Builder] turns an item into writes on its sink, and may refuse it. When
    the reader of an item fails, the writes before that have been made. Dropping a
    builder that was not finished may write as well. *)
Class TarBuilder := {
  tar_append : TarItem -> list string * bool;
  tar_short : TarItem -> list string;
  tar_finish : list string;
  tar_drop : list string
}.
Context `{!TarBuilder}.

(** The builder passes the first failing write on. *)
Fixpoint feed (s : ChunkSink) (pieces : list string) : io SnEvent (ChunkSink * bool) :=
  match pieces with
  | [] => mret (s, true)
  | piece :: pieces =>
      r ← sink_write s piece;
      match r with (s, true) => feed s pieces | (s, false) => mret (s, false) end
  end.

Definition append (s : ChunkSink) (item : TarItem) : io SnEvent (ChunkSink * result unit SnapshotError) :=
  r ← feed s (tar_append item).1;
  mret (r.1, if r.2 && (tar_append item).2 then Ok tt else Err SnArchive).

Definition header (meta : Meta) (size : Z) (type : EntryType) : Header :=
  {| hd_mode := Z.land (md_mode meta) 4095; hd_uid := md_uid meta; hd_gid := md_gid meta;
     hd_mtime := md_mtime meta; hd_size := size; hd_type := type |}.

(** A regular file goes through [ExactReader], which fails when the file is shorter
    than its metadata, and is probed for one more byte afterwards. *)
Definition archive_file (s : ChunkSink) (e : SourceEntry) : io SnEvent (ChunkSink * result unit SnapshotError) :=
  let size := md_len (se_meta e) in
  let item data := TarData (header (se_meta e) size TypeRegular) (se_relative e) data in
  read ← ask (fun t => read_source t (se_relative e)) (SourceFile (se_relative e));
  match read with
  | OpenFails => mret (s, Err (SnIo "source read"))
  | ReadFails got =>
      r ← feed s (tar_short (item (str_take size got)));
      mret (r.1, Err SnArchive)
  | Reads content probe_fails =>
      if len content <? size then
        r ← feed s (tar_short (item content));
        mret (r.1, Err (if (r : ChunkSink * bool).2 then SourceChanged else SnArchive))
      else
        r ← append s (item (str_take size content));
        match r.2 with
        | Err e => mret r
        | Ok _ =>
            if probe_fails then mret (r.1, Err (SnIo "source read"))
            else if size <? len content then mret (r.1, Err SourceChanged)
            else mret r
        end
  end.

Definition archive_entry (s : ChunkSink) (e : SourceEntry) : io SnEvent (ChunkSink * result unit SnapshotError) :=
  if md_mtime (se_meta e) <? 0 then mret (s, Err MtimeBeforeEpoch)
  else if se_relative e =s ROOT_ENTRY then append s (TarRoot (header (se_meta e) 0 TypeDirectory) ROOT_ENTRY)
  else
    match md_kind (se_meta e) with
    | KindDir => append s (TarData (header (se_meta e) 0 TypeDirectory) (se_relative e) EmptyString)
    | KindSymlink =>
        target ← ask (fun t => read_link t (se_relative e)) (SourceLink (se_relative e));
        match target with
        | None => mret (s, Err (SnIo "source read"))
        | Some target => append s (TarLink (header (se_meta e) 0 TypeSymlink) (se_relative e) target)
        end
    | KindFile | KindSpecial => archive_file s e
    end.

Fixpoint archive_entries (s : ChunkSink) (entries : list SourceEntry)
  : io SnEvent (ChunkSink * result unit SnapshotError) :=
  match entries with
  | [] => r ← feed s tar_finish; mret (r.1, if (r : ChunkSink * bool).2 then Ok tt else Err SnArchive)
  | e :: entries =>
      r ← archive_entry s e;
      match r.2 with
      | Ok _ => archive_entries r.1 entries
      | Err error => dropped ← feed r.1 tar_drop; mret (dropped.1, Err error)
      end
  end.

(** ** Write *)

Record SnapshotLineage := {
  ln_org : string;
  ln_application : string;
  ln_lineage : string;
  ln_job_id : string;
  ln_processor_id : string;
  ln_generation : Z;
  ln_dek_version : Z;
  ln_captured_at_ms : Z;
  ln_recipients : list WrappedDataKey
}.

Record Snapshot := { sn_signed : SignedManifest; sn_report : WriteReport }.

(** What the host answers about the two paths: the source's metadata, whether the
    object directory could be made, and the canonical components of both. *)
Record Places := {
  pl_source : option Node;
  pl_out_made : bool;
  pl_source_path : option (list string);
  pl_out_path : option (list string)
}.

Definition path_starts_with (path base : list string) : bool := bool_decide (base `prefix_of` path).

Context `{!HexDecode, !Sha256, !Ed25519}.

Definition new_manifest (lineage : SnapshotLineage) (signer : string) : Manifest :=
  {| mf_v := MANIFEST_VERSION; mf_org := ln_org lineage; mf_application := ln_application lineage;
     mf_lineage := ln_lineage lineage; mf_sequence := 1; mf_previous_manifest_digest := None;
     mf_writer := {| mw_job_id := ln_job_id lineage; mw_processor_id := ln_processor_id lineage;
                     mw_generation := ln_generation lineage; mw_signer_public_key := signer |};
     mf_captured_at_ms := ln_captured_at_ms lineage; mf_dek_version := ln_dek_version lineage;
     mf_plaintext_bytes := 0; mf_chunks := []; mf_recipients := ln_recipients lineage |}.

Definition with_link (m : Manifest) (sequence : Z) (previous : option string) : Manifest :=
  {| mf_v := mf_v m; mf_org := mf_org m; mf_application := mf_application m; mf_lineage := mf_lineage m;
     mf_sequence := sequence; mf_previous_manifest_digest := previous; mf_writer := mf_writer m;
     mf_captured_at_ms := mf_captured_at_ms m; mf_dek_version := mf_dek_version m;
     mf_plaintext_bytes := mf_plaintext_bytes m; mf_chunks := mf_chunks m; mf_recipients := mf_recipients m |}.

Definition with_chunks (m : Manifest) (chunks : list ManifestChunk) : Manifest :=
  {| mf_v := mf_v m; mf_org := mf_org m; mf_application := mf_application m; mf_lineage := mf_lineage m;
     mf_sequence := mf_sequence m; mf_previous_manifest_digest := mf_previous_manifest_digest m;
     mf_writer := mf_writer m; mf_captured_at_ms := mf_captured_at_ms m; mf_dek_version := mf_dek_version m;
     mf_plaintext_bytes := foldr (fun c sum => mc_plaintext_bytes c + sum) 0 chunks;
     mf_chunks := chunks; mf_recipients := mf_recipients m |}.

(** The manifest before its chunks, linked to the previous one and checked. *)
Definition prepare_manifest (lineage : SnapshotLineage) (previous : option Manifest) (signer : string)
  : result Manifest ManifestError :=
  let m := new_manifest lineage signer in
  let? m :=
    match previous with
    | None => Ok m
    | Some previous =>
        let? sequence := ok_or (ManifestMalformed "sequence") (checked_add_u64 (mf_sequence previous) 1) in
        let? digest := manifest_digest previous in
        let m := with_link m sequence (Some digest) in
        let? _ := verify_successor previous m in Ok m
    end in
  let? _ := check_well_formed m in Ok m.

(** The checks on the two directories. *)
Definition check_places (p : Places) : result Node SnapshotError :=
  let? root := ok_or (SnIo "source") (pl_source p) in
  match md_kind (nd_meta root) with
  | KindDir =>
      if negb (pl_out_made p) then Err (SnIo "object directory")
      else
        let? source := ok_or (SnIo "source") (pl_source_path p) in
        let? objects := ok_or (SnIo "object directory") (pl_out_path p) in
        if path_starts_with objects source then Err OutputInsideSource else Ok root
  | _ => Err SourceNotDirectory
  end.

Definition new_sink (dek lineage_id : string) (skipped : Z) : ChunkSink :=
  {| sk_keys := chunk_keys_new dek lineage_id; sk_buffer := EmptyString; sk_chunks := [];
     sk_report := {| wr_written := 0; wr_reused := 0; wr_skipped := skipped |}; sk_error := None |}.

(** The archive through the sink, to the last chunk. *)
Definition archive_all (s : ChunkSink) (entries : list SourceEntry)
  : io SnEvent (result ChunkSink SnapshotError) :=
  archived ← archive_entries s entries;
  match sk_error archived.1 with
  | Some error => mret (Err error)
  | None =>
      match archived.2 with
      | Err error => mret (Err error)
      | Ok _ =>
          flushed ← flush_all archived.1;
          mret match flushed.2 with Ok _ => Ok flushed.1 | Err error => Err error end
      end
  end.

Definition write (p : Places) (dek : string) (lineage : SnapshotLineage) (previous : option Manifest)
    (signer : StateSigner) : io SnEvent (result Snapshot SnapshotError) :=
  match map_err SnManifest (prepare_manifest lineage previous (signer_key signer)) with
  | Err error => mret (Err error)
  | Ok manifest =>
      match check_places p with
      | Err error => mret (Err error)
      | Ok root =>
          match collect_entries root with
          | None => diverge
          | Some (Err error) => mret (Err error)
          | Some (Ok (entries, skipped)) =>
              let!? sink := archive_all (new_sink dek (ln_lineage lineage) skipped) entries in
              let manifest := with_chunks manifest (sk_chunks sink) in
              mret (let? signature := sign_manifest manifest signer in
                    Ok {| sn_signed := {| sm_manifest := manifest; sm_signature := signature |};
                          sn_report := sk_report sink |})
          end
      end
  end.

End Objects.

(** * Properties *)

(** ** The walk visits every file once *)

Section NodeInd.
Variable P : Node -> Prop.
Definition child_holds (c : string * option Node) : Prop := match c.2 with Some n => P n | None => True end.
Hypothesis Hnode : forall meta listing,
  match listing with Some children => Forall child_holds children | None => True end -> P (node meta listing).

Fixpoint Node_ind' (n : Node) : P n :=
  match n with
  | node meta listing =>
      Hnode meta listing
        match listing with
        | Some children =>
            (fix go (l : list (string * option Node)) : Forall child_holds l :=
               match l with
               | [] => Forall_nil_2 _
               | (name, child) :: l =>
                   Forall_cons_2 _ (name, child) l
                     match child as c return child_holds (name, c) with Some n => Node_ind' n | None => I end (go l)
               end) children
        | None => I
        end
  end.
End NodeInd.

(** What lies below a directory: its children and what lies below those of them
    that are directories; the special files there; and whether something there
    cannot be listed. *)
Fixpoint below (relative : string) (n : Node) : list SourceEntry :=
  match nd_listing n with
  | None => []
  | Some children =>
      (fix go (l : list (string * option Node)) : list SourceEntry :=
         match l with
         | [] => []
         | (_, None) :: l => go l
         | (name, Some child) :: l =>
             let path := child_relative relative name in
             match md_kind (nd_meta child) with
             | KindDir => {| se_relative := path; se_meta := nd_meta child |} :: below path child
             | KindFile | KindSymlink => [{| se_relative := path; se_meta := nd_meta child |}]
             | KindSpecial => []
             end ++ go l
         end) children
  end.

Fixpoint specials (n : Node) : Z :=
  match nd_listing n with
  | None => 0
  | Some children =>
      (fix go (l : list (string * option Node)) : Z :=
         match l with
         | [] => 0
         | (_, None) :: l => go l
         | (_, Some child) :: l =>
             match md_kind (nd_meta child) with
             | KindDir => specials child | KindFile | KindSymlink => 0 | KindSpecial => 1
             end + go l
         end) children
  end.

Fixpoint unlistable (n : Node) : bool :=
  match nd_listing n with
  | None => true
  | Some children =>
      (fix go (l : list (string * option Node)) : bool :=
         match l with
         | [] => false
         | (_, None) :: _ => true
         | (_, Some child) :: l =>
             match md_kind (nd_meta child) with KindDir => unlistable child | _ => false end || go l
         end) children
  end.

(** Names in one directory differ, are not empty and hold no slash. *)
Definition plain_name (name : string) : Prop := name <> EmptyString /\ bytes_any (byte_is 47) name = false.
Fixpoint names_ok (n : Node) : Prop :=
  match nd_listing n with
  | None => True
  | Some children =>
      NoDup (map fst children) /\
      (fix go (l : list (string * option Node)) : Prop :=
         match l with
         | [] => True
         | (name, child) :: l =>
             plain_name name /\ match child with Some n => names_ok n | None => True end /\ go l
         end) children
  end.

(** The walk over the stack of pending directories does what the recursion does. *)
Definition stack_size (pending : list (Node * string)) : nat :=
  foldr (fun nr sum => node_size nr.1 + sum)%nat O pending.
Definition stack_below (pending : list (Node * string)) : list SourceEntry :=
  concat (map (fun nr => below nr.2 nr.1) pending).
Definition stack_specials (pending : list (Node * string)) : Z :=
  foldr (fun nr sum => specials nr.1 + sum) 0 pending.
Definition stack_unlistable (pending : list (Node * string)) : bool :=
  existsb (fun nr => unlistable nr.1) pending.

(** What one listing adds to the walk, as the recursion counts it. *)
Record walks (w : SourceWalk) (size : nat) (entries : list SourceEntry) (skipped : Z) (bad : bool)
    (r : result SourceWalk SnapshotError) : Prop := {
  walks_err e : r = Err e -> e = SnIo "source walk" /\ bad = true;
  walks_ok w' : r = Ok w' ->
    wk_entries w' ++ stack_below (wk_pending w') ≡ₚ
      wk_entries w ++ stack_below (wk_pending w) ++ entries /\
    wk_skipped w' + stack_specials (wk_pending w') = wk_skipped w + stack_specials (wk_pending w) + skipped /\
    stack_unlistable (wk_pending w') = stack_unlistable (wk_pending w) || bad /\
    (stack_size (wk_pending w') <= stack_size (wk_pending w) + size)%nat
}.

(** One more child of a directory. *)
Section Children.
Context (meta : Meta) (name : string) (child : Node) (children : list (string * option Node)).
Let dir := node meta (Some children).
Let dir' := node meta (Some ((name, Some child) :: children)).

Definition entry_of (relative : string) : SourceEntry :=
  {| se_relative := child_relative relative name; se_meta := nd_meta child |}.

Lemma below_cons relative : below relative dir' =
  match md_kind (nd_meta child) with
  | KindDir => entry_of relative :: below (child_relative relative name) child
  | KindFile | KindSymlink => [entry_of relative]
  | KindSpecial => []
  end ++ below relative dir.
Proof. done. Qed.
Lemma specials_cons : specials dir' =
  (match md_kind (nd_meta child) with KindDir => specials child | KindFile | KindSymlink => 0 | KindSpecial => 1 end)
  + specials dir.
Proof. done. Qed.
Lemma unlistable_cons : unlistable dir' =
  (match md_kind (nd_meta child) with KindDir => unlistable child | _ => false end) || unlistable dir.
Proof. done. Qed.
Lemma node_size_cons : node_size dir' = (node_size child + node_size dir)%nat.
Proof. cbn. lia. Qed.
Lemma names_ok_cons : names_ok dir' <->
  (name ∉ map fst children) /\ plain_name name /\ names_ok child /\ names_ok dir.
Proof. cbn. rewrite NoDup_cons. tauto. Qed.
Lemma names_ok_skip : names_ok (node meta (Some ((name, None) :: children))) -> names_ok dir.
Proof. cbn. rewrite NoDup_cons. tauto. Qed.
End Children.

Lemma node_size_pos n : (0 < node_size n)%nat.
Proof. destruct n. cbn. lia. Qed.

Lemma walk_children_spec meta relative children : forall w,
  let n := node meta (Some children) in
  walks w (Nat.pred (node_size n)) (below relative n) (specials n) (unlistable n)
    (walk_children relative children w).
Proof.
  induction children as [|[name [child|]] children IH]; intros w n.
  - split; [done |]. intros w' [= <-]. cbn. rewrite orb_false_r, app_nil_r. split; [done |]. split; [lia |].
    split; [done | lia].
  - cbn [walk_children]. unfold n. rewrite below_cons, specials_cons, unlistable_cons, node_size_cons.
    pose proof (node_size_pos (node meta (Some children))). pose proof (node_size_pos child).
    match goal with |- walks _ _ _ _ _ (walk_children _ _ ?w1) => specialize (IH w1) as [He Ho] end.
    set (b := below relative _) in *. set (k := specials (node _ _)) in *. set (u := unlistable (node _ _)) in *.
    set (z := node_size (node _ _)) in *. clearbody b k u z. split.
    + intros e Hr. destruct (He e Hr) as [-> Hb]. rewrite Hb. split; [done | apply orb_true_r].
    + intros w' Hr. destruct (Ho w' Hr) as (Hp & Hs & Hu & Hz). rewrite Hp, Hu. clear He Ho Hp Hu.
      unfold entry_of, stack_below, stack_unlistable, stack_size in *.
      destruct (md_kind (nd_meta child));
        cbn [map concat existsb stack_specials foldr wk_entries wk_pending wk_skipped fst snd] in *;
        (split; [solve_Permutation |]); (split; [unfold stack_specials in *; lia |]); (split; [btauto |]); lia.
  - split; [| done]. intros e [= <-]. done.
Qed.

Lemma walk_pending_spec fuel : forall w, (stack_size (wk_pending w) <= fuel)%nat ->
  exists r, walk_pending fuel w = Some r /\
    match r with
    | Err e => e = SnIo "source walk" /\ stack_unlistable (wk_pending w) = true
    | Ok w' => stack_unlistable (wk_pending w) = false /\
        wk_entries w' ≡ₚ wk_entries w ++ stack_below (wk_pending w) /\
        wk_skipped w' = wk_skipped w + stack_specials (wk_pending w)
    end.
Proof.
  induction fuel as [|fuel IH]; intros w Hf; cbn [walk_pending];
    destruct (wk_pending w) as [|[n relative] pending] eqn:Hp; cbn [stack_size foldr fst] in Hf.
  - exists (Ok w). cbn. rewrite app_nil_r. split; [done |]. split; [done |]. split; [done | lia].
  - destruct n; cbn in Hf; lia.
  - exists (Ok w). cbn. rewrite app_nil_r. split; [done |]. split; [done |]. split; [done | lia].
  - destruct n as [meta [children|]]; cbn [nd_listing]; [| eexists; split; [done |]; by cbn].
    pose proof (walk_children_spec meta relative children
      {| wk_entries := wk_entries w; wk_skipped := wk_skipped w; wk_pending := pending |}) as [He Ho].
    destruct (walk_children relative children _) as [w1|e].
    + destruct (Ho w1 eq_refl) as (Hp1 & Hs1 & Hu1 & Hz1). cbn [wk_entries wk_pending wk_skipped] in *.
      destruct (IH w1) as (r & Hr & Hspec).
      { unfold stack_size in *. pose proof (node_size_pos (node meta (Some children))). lia. }
      exists r. split; [done |]. unfold stack_unlistable in *. cbn [existsb fst].
      rewrite orb_comm, <- Hu1. destruct r as [w2|e]; [| done]. destruct Hspec as (Hb & He2 & Hk).
      split; [done |]. split; [rewrite He2, Hp1; unfold stack_below; cbn [map concat fst snd]; solve_Permutation |].
      cbn [stack_specials foldr fst]. change (foldr _ 0 pending) with (stack_specials pending). lia.
    + destruct (He e eq_refl) as [-> Hb]. eexists. split; [done |]. split; [done |].
      cbn [stack_unlistable existsb fst]. by rewrite Hb.
Qed.

(** *** Paths *)

Definition path_prefix (relative : string) : string :=
  if str_is_empty relative then EmptyString else relative +:+ "/".

Lemma child_relative_prefix relative name : child_relative relative name = path_prefix relative +:+ name.
Proof. unfold child_relative, path_prefix. destruct relative; [done |]. cbn [str_is_empty]. by rewrite str_app_assoc. Qed.

(** What may follow a file name in a path. *)
Definition path_tail (tail : string) : Prop :=
  tail = EmptyString \/ exists rest, rest <> EmptyString /\ tail = "/" +:+ rest.

Lemma first_component a b t u :
  bytes_any (byte_is 47) a = false -> bytes_any (byte_is 47) b = false -> path_tail t -> path_tail u ->
  a +:+ t = b +:+ u -> a = b.
Proof.
  revert b. induction a as [|x a IH]; intros [|y b] Ha Hb Ht Hu He; [done | | |].
  - destruct Ht as [->|(r & _ & ->)]; [done |]. injection He as <- He. by cbn in Hb.
  - destruct Hu as [->|(r & _ & ->)]; [done |]. injection He as -> He. by cbn in Ha.
  - injection He as -> He. unfold bytes_any in *. cbn in Ha, Hb. apply orb_false_iff in Ha as [_ Ha], Hb as [_ Hb].
    f_equal. by apply (IH b).
Qed.

Lemma below_path meta children relative e :
  names_ok (node meta (Some children)) -> In e (below relative (node meta (Some children))) ->
  exists name tail, In name (map fst children) /\ plain_name name /\ path_tail tail /\
    se_relative e = path_prefix relative +:+ name +:+ tail.
Proof.
  revert relative e. apply (Node_ind' (fun n => forall relative e, names_ok n -> In e (below relative n) ->
    exists name tail, In name (map fst (default [] (nd_listing n))) /\ plain_name name /\ path_tail tail /\
      se_relative e = path_prefix relative +:+ name +:+ tail)).
  clear. intros meta [children|] Hall relative e Hn Hin; [| by cbn in Hin]. cbn [nd_listing default].
  induction Hall as [|[name [child|]] children Hc Hall IH].
  - done.
  - apply names_ok_cons in Hn as (_ & Hp & Hnc & Hn). rewrite below_cons in Hin.
    apply in_app_iff in Hin as [Hin|Hin].
    + assert (e = entry_of name child relative \/ In e (below (child_relative relative name) child)) as [->|Hb]
        by (destruct (md_kind (nd_meta child)); cbn in Hin; naive_solver).
      { exists name, EmptyString. split; [by left |]. split; [done |]. split; [by left |].
        cbn. by rewrite str_app_nil_r, child_relative_prefix. }
      destruct (Hc _ _ Hnc Hb) as (name' & tail & _ & [Hne _] & _ & He).
      exists name, ("/" +:+ name' +:+ tail). split; [by left |]. split; [done |].
      split; [right; exists (name' +:+ tail); split; [by destruct name' | done] |].
      rewrite He. unfold path_prefix at 1. rewrite child_relative_prefix.
      rewrite (proj2 (str_is_empty_false _)) by (destruct Hp, (path_prefix relative); by destruct name).
      by rewrite !str_app_assoc.
    + destruct (IH Hn Hin) as (name' & tail & ? & ?). exists name', tail. split; [by right | done].
  - destruct IH as (name' & tail & ? & ?); [by eapply names_ok_skip | done |].
    exists name', tail. split; [by right | done].
Qed.

Lemma below_children_NoDup relative n : names_ok n -> NoDup (map se_relative (below relative n)).
Proof.
  revert relative. induction n as [meta [children|] Hall] using Node_ind'; intros relative Hn; [| constructor].
  induction Hall as [|[name [child|]] children Hc Hall IH]; [constructor | | by apply IH, (names_ok_skip _ name)].
  apply names_ok_cons in Hn as (Hnew & [Hne Hp] & Hnc & Hn). rewrite below_cons, map_app.
  apply NoDup_app. split; [| split; [| by apply IH]].
  - assert (NoDup (map se_relative (entry_of name child relative :: below (child_relative relative name) child)))
      as Hd; [| destruct (md_kind (nd_meta child)); [done | | | constructor]; apply NoDup_singleton].
    cbn [map]. apply NoDup_cons. split; [| by apply Hc].
    intros (e & He & Hin)%list_elem_of_fmap. destruct child as [m [ch|]]; [| by apply elem_of_nil in Hin].
    apply list_elem_of_In in Hin. destruct (below_path _ _ _ _ Hnc Hin) as (nm & tl & _ & [Hnn _] & _ & Hpath).
    rewrite Hpath in He. cbn in He. rewrite child_relative_prefix in He. unfold path_prefix at 2 in He.
    rewrite (proj2 (str_is_empty_false _)), str_app_assoc in He by (destruct (path_prefix relative); by destruct name).
    assert (forall a b, a = a +:+ b -> b = EmptyString) as Hempty.
    { intros a b Hab. apply (str_app_inj a). rewrite <- Hab, str_app_nil_r. done. }
    apply Hempty in He. done.
  - intros path (e1 & -> & Hin1%list_elem_of_In)%list_elem_of_fmap (e2 & Heq & Hin2%list_elem_of_In)%list_elem_of_fmap.
    assert (names_ok (node meta (Some [(name, Some child)]))) as Hn1
      by (apply names_ok_cons; split; [apply not_elem_of_nil | split; [done | split; [done | split; constructor]]]).
    destruct (below_path meta [(name, Some child)] relative e1 Hn1) as (n1 & t1 & [Hnm|[]] & _ & Ht1 & He1);
      [rewrite below_cons; apply in_app_iff; by left |]. cbn in Hnm. subst n1.
    destruct (below_path meta children relative e2 Hn Hin2) as (n2 & t2 & Hin & [_ Hp2] & Ht2 & He2).
    apply Hnew. rewrite He1, He2 in Heq. apply str_app_inj in Heq.
    apply first_component in Heq as ->; [by apply list_elem_of_In | done ..].
Qed.

Definition root_entry (root : Node) : SourceEntry := {| se_relative := ROOT_ENTRY; se_meta := nd_meta root |}.

Lemma tree_paths_NoDup root :
  names_ok root -> NoDup (map se_relative (root_entry root :: below EmptyString root)).
Proof.
  intros Hn. cbn [map]. apply NoDup_cons. split; [| by apply below_children_NoDup].
  intros (e & He & Hin%list_elem_of_In)%list_elem_of_fmap.
  destruct root as [meta [children|]]; [| by destruct Hin].
  destruct (below_path _ _ _ _ Hn Hin) as (name & tail & _ & [Hne Hp] & Ht & Hpath).
  rewrite Hpath in He. change (path_prefix EmptyString) with EmptyString in He.
  change (ROOT_ENTRY = name +:+ tail) in He. destruct Ht as [->|(rest & Hr & ->)].
  - rewrite str_app_nil_r in He. subst name. by cbn in Hp.
  - apply (f_equal len) in He. rewrite !len_app in He.
    destruct name; [done |]. destruct rest; [done |]. unfold len in He. cbn [String.length] in He.
    change (String.length ROOT_ENTRY) with 2%nat in He. lia.
Qed.

Lemma sorted_entries l : StronglySorted entry_le (merge_sort entry_le l) /\ merge_sort entry_le l ≡ₚ l.
Proof.
  split; [| apply merge_sort_Permutation]. apply StronglySorted_merge_sort.
  - intros a b c. unfold entry_le. apply (transitivity (R := String.le)).
  - intros a b. apply (total String.le).
Qed.

Lemma sorted_entries_unique l1 l2 :
  StronglySorted entry_le l1 -> StronglySorted entry_le l2 -> l1 ≡ₚ l2 -> NoDup (map se_relative l1) -> l1 = l2.
Proof.
  intros Hs1 Hs2 Hp Hn. apply (StronglySorted_unique_strong entry_le); try done.
  intros x1 x2 Hx1 Hx2 H12 H21.
  assert (se_relative x1 = se_relative x2) as He by (apply (anti_symm String.le); done).
  rewrite <- Hp in Hx2.
  apply list_elem_of_lookup in Hx1 as [i Hi], Hx2 as [j Hj].
  assert (i = j) as ->; [| congruence].
  eapply NoDup_lookup; [exact Hn | |]; rewrite list_lookup_fmap; [by rewrite Hi | by rewrite Hj, He].
Qed.

(** The walk is exact and canonical. [collect_entries] always returns. It
    fails exactly when something in the tree cannot be listed; otherwise it yields
    the root and everything below it that is not a special file, once each, sorted
    by path, and the number of special files left out. The result depends on what
    the directory holds, not on the order its listings come in: any tree with the
    same entries gives the same list, so an unchanged directory archives to the
    same stream. *)
Theorem source_walk_exact root :
  exists r, collect_entries root = Some r /\
  match r with
  | Err e => e = SnIo "source walk" /\ unlistable root = true
  | Ok (entries, skipped) =>
      unlistable root = false /\ skipped = specials root /\
      entries ≡ₚ root_entry root :: below EmptyString root /\
      StronglySorted entry_le entries /\
      (names_ok root -> NoDup (map se_relative entries) /\
       forall root' entries' skipped',
         nd_meta root' = nd_meta root -> below EmptyString root' ≡ₚ below EmptyString root ->
         collect_entries root' = Some (Ok (entries', skipped')) -> entries' = entries)
  end.
Proof.
  assert (forall root, exists r, collect_entries root = Some r /\
    match r with
    | Err e => e = SnIo "source walk" /\ unlistable root = true
    | Ok (entries, skipped) => unlistable root = false /\ skipped = specials root /\
        entries ≡ₚ root_entry root :: below EmptyString root /\ StronglySorted entry_le entries
    end) as Hwalk.
  { intros r0. unfold collect_entries.
    destruct (walk_pending_spec (node_size r0)
      {| wk_entries := [root_entry r0]; wk_skipped := 0; wk_pending := [(r0, EmptyString)] |})
      as (r & Hr & Hspec); [cbn; lia |].
    unfold root_entry in Hr. rewrite Hr. cbn. eexists. split; [done |].
    unfold stack_below, stack_unlistable, stack_specials in Hspec.
    cbn [wk_pending wk_entries wk_skipped map concat existsb foldr fst snd] in Hspec.
    rewrite orb_false_r, ?app_nil_r in Hspec.
    destruct r as [w|e]; [| done]. destruct Hspec as (Hu & Hp & Hk).
    destruct (sorted_entries (wk_entries w)) as [Hs Hm].
    split; [done |]. split; [lia |]. split; [by rewrite Hm, Hp | done]. }
  destruct (Hwalk root) as (r & Hr & Hspec). exists r. split; [done |].
  destruct r as [[entries skipped]|]; [| done]. destruct Hspec as (Hu & Hk & Hp & Hs).
  do 4 (split; [done |]). intros Hn.
  assert (NoDup (map se_relative entries)) as Hnd by (rewrite Hp; by apply tree_paths_NoDup).
  split; [done |]. intros root' entries' skipped' Hm Hb Hr'.
  destruct (Hwalk root') as (r' & Hr2 & Hspec'). simplify_eq. destruct Hspec' as (_ & _ & Hp' & Hs').
  symmetry. apply sorted_entries_unique; try done. rewrite Hp, Hp', Hb. unfold root_entry. by rewrite Hm.
Qed.

(** ** Objects appear whole *)

(** What the crates document: [hex::encode] writes digits from which the bytes can
    be read back, [getrandom::fill] fills its buffer. *)
Class ObjectNames `{!Encodings, !HexDecode} : Prop := {
  hex_name_back bytes : hex_decode (hex_encode bytes) = Some bytes;
  hex_name_text bytes : bytes_all (fun b => is_ascii_digit b || byte_between 97 102 b) (hex_encode bytes) = true
}.
Class RandomLaws `{!SnapshotHost} : Prop :=
  random_length t n bytes : random_fill t n = Some bytes -> len bytes = n.
(** FastCDC's cut of a non-empty buffer is in the buffer, at most the maximal chunk
    length, and decided by the bytes up to that length. *)
Class FastCdcLaws `{!FastCdc} : Prop := {
  cut_pos buffer : buffer <> EmptyString ->
    0 < fastcdc_cut buffer CHUNK_MIN_BYTES CHUNK_AVG_BYTES CHUNK_MAX_BYTES <= len buffer;
  cut_max buffer : fastcdc_cut buffer CHUNK_MIN_BYTES CHUNK_AVG_BYTES CHUNK_MAX_BYTES <= CHUNK_MAX_BYTES;
  cut_local buffer more : CHUNK_MAX_BYTES <= len buffer ->
    fastcdc_cut (buffer +:+ more) CHUNK_MIN_BYTES CHUNK_AVG_BYTES CHUNK_MAX_BYTES =
    fastcdc_cut buffer CHUNK_MIN_BYTES CHUNK_AVG_BYTES CHUNK_MAX_BYTES
}.

Section ObjectFacts.
Context `{!Encodings, !HexDecode, !ObjectNames, !SnapshotHost, !RandomLaws, !Aead, !Hkdf, !Hmac, !ChunkLaws}.
Variable initial : Dir.
Variable keys : ChunkKeys.

(** An object sealed with this lineage's keys, whole and on disk. *)
Definition sealed_as (id : string) (o : Obj) : Prop :=
  exists nonce plaintext, len nonce = CHUNK_NONCE_LEN /\ id = keys_chunk_id keys plaintext /\
    o = ObjFile (sc_object (keys_seal keys nonce plaintext)) true.

(** No object under a chunk id goes away or changes. *)
Definition grows (d d' : Dir) : Prop :=
  forall id o, d !! hex_encode id = Some o -> d' !! hex_encode id = Some o.
(** Every object under a chunk id was there at first or is whole. *)
Definition sound (d : Dir) : Prop :=
  forall id o, d !! hex_encode id = Some o -> initial !! hex_encode id = Some o \/ sealed_as id o.

(** Both hold at every moment of a history. *)
Fixpoint safe (t : list SnEvent) : Prop :=
  match t with
  | [] => True
  | e :: t' => grows (files initial t') (files initial t) /\ sound (files initial t) /\ safe t'
  end.

#[global] Instance grows_preorder : PreOrder grows.
Proof. split; [by intros d id o | intros d1 d2 d3 H12 H23 id o Ho; by apply H23, H12]. Qed.

Lemma safe_sound t : safe t -> sound (files initial t).
Proof. destruct t; [intros _ id o Ho; by left | by intros (_ & ? & _)]. Qed.

Lemma safe_suffix t s : safe (t ++ s) -> safe s /\ grows (files initial s) (files initial (t ++ s)).
Proof.
  induction t as [|e t IH]; [done |]. intros (Hg & _ & Hs). destruct (IH Hs) as [? Hg'].
  split; [done |]. by etrans.
Qed.

Lemma hex_name_inj a b : hex_encode a = hex_encode b -> a = b.
Proof. intros He. apply (f_equal hex_decode) in He. rewrite !hex_name_back in He. by injection He. Qed.

Lemma hex_name_dot a rest : hex_encode a <> "." +:+ rest.
Proof. intros He. pose proof (hex_name_text a) as Ht. rewrite He in Ht. done. Qed.

(** An event that leaves every chunk id's object alone. *)
Lemma safe_quiet e t :
  safe t -> (forall id, files initial (e :: t) !! hex_encode id = files initial t !! hex_encode id) -> safe (e :: t).
Proof.
  intros Hs Hq. split; [intros id o; by rewrite Hq |]. split; [| done].
  intros id o Ho. rewrite Hq in Ho. by apply (safe_sound t Hs).
Qed.

Definition dotted (name : string) : Prop := exists rest, name = "." +:+ rest.

Lemma dotted_insert (d : Dir) name o id : dotted name -> <[name := o]> d !! hex_encode id = d !! hex_encode id.
Proof. intros [rest ->]. apply lookup_insert_ne. intros He. by apply (hex_name_dot id rest). Qed.
Lemma dotted_delete (d : Dir) name id : dotted name -> delete name d !! hex_encode id = d !! hex_encode id.
Proof. intros [rest ->]. apply lookup_delete_ne. intros He. by apply (hex_name_dot id rest). Qed.

Lemma dotted_quiet e name t :
  dotted name ->
  match e with
  | CreateNew n _ | WriteAll n _ | SyncAll n _ | RemoveFile n _ => n = name
  | Rename _ _ ok => ok = false
  | _ => True
  end ->
  forall id, files initial (e :: t) !! hex_encode id = files initial t !! hex_encode id.
Proof.
  intros Hd He id. cbn [files foldr]. change (foldr apply_event initial t) with (files initial t).
  destruct e as [| |n []|n [data ?]|n []|? ? []|n []| |]; cbn [apply_event]; try done; subst;
    repeat case_match; by rewrite ?dotted_insert, ?dotted_delete.
Qed.

(** The step that makes an object visible. *)
Lemma safe_rename t from id o :
  safe t -> dotted from -> files initial t !! from = Some o -> sealed_as id o ->
  files initial t !! hex_encode id = None -> safe (Rename from (hex_encode id) true :: t) /\
  files initial (Rename from (hex_encode id) true :: t) !! hex_encode id = Some o.
Proof.
  intros Hs Hd Hf Hse Hn.
  assert (files initial (Rename from (hex_encode id) true :: t) =
          <[hex_encode id := o]> (delete from (files initial t))) as Hr.
  { change (files initial (Rename from (hex_encode id) true :: t)) with
      (apply_event (Rename from (hex_encode id) true) (files initial t)). cbn [apply_event]. by rewrite Hf. }
  split; [| by rewrite Hr, lookup_insert_eq]. cbn [safe]. rewrite Hr. split; [| split; [| done]].
  - intros id' o' Ho'. destruct (decide (hex_encode id' = hex_encode id)) as [He|He]; [congruence |].
    by rewrite lookup_insert_ne, dotted_delete.
  - intros id' o' Ho'. destruct (decide (hex_encode id' = hex_encode id)) as [He|He].
    + rewrite He, lookup_insert_eq in Ho'. injection Ho' as <-. apply hex_name_inj in He as ->. by right.
    + rewrite lookup_insert_ne, dotted_delete in Ho' by done. by apply (safe_sound t Hs).
Qed.

(** *** Runs

    [runs P m Q]: from a safe history satisfying [P], [m] returns, keeps every
    moment safe, and [Q] holds of its result and the history it leaves. *)
Local Notation runs := (always safe).

(** What only grows is kept by any run. *)
Definition stable (F : list SnEvent -> Prop) : Prop :=
  forall t es, grows (files initial t) (files initial (es ++ t)) -> F t -> F (es ++ t).

Lemma runs_frame {A} (F : list SnEvent -> Prop) P (m : io SnEvent A) Q :
  stable F -> runs P m Q -> runs (fun t => P t /\ F t) m (fun a t => Q a t /\ F t).
Proof.
  intros Hst Hm t Hs [HP HF]. destruct (Hm t Hs HP) as (a & es & Hr & Hs' & HQ). exists a, es.
  split; [done |]. split; [done |]. split; [done |]. apply Hst; [by apply safe_suffix | done].
Qed.

Lemma runs_ask {A} P (oracle : list SnEvent -> A) ev (Q : A -> list SnEvent -> Prop) :
  (forall t a, apply_event (ev a) (files initial t) = files initial t) ->
  (forall t, P t -> Q (oracle t) (ev (oracle t) :: t)) -> runs P (ask oracle ev) Q.
Proof.
  intros Hq HQ t Hs HP. exists (oracle t), [ev (oracle t)].
  assert (files initial ([ev (oracle t)] ++ t) = files initial t) as Hf by apply Hq.
  split; [done |]. split; [apply safe_quiet; [done |]; intros id; by rewrite <- Hf | by apply HQ].
Qed.

(** A call on a temporary file. *)
Lemma runs_temporary {A} temporary P (oracle : list SnEvent -> A) ev (Q : A -> list SnEvent -> Prop) :
  dotted temporary ->
  (forall a, match ev a with
             | CreateNew n _ | WriteAll n _ | SyncAll n _ | RemoveFile n _ => n = temporary
             | _ => False
             end) ->
  (forall t, P t -> Q (oracle t) (ev (oracle t) :: t)) ->
  runs P (ask oracle ev) Q.
Proof.
  intros Hd He HQ t Hs HP. exists (oracle t), [ev (oracle t)]. split; [done |].
  split; [| by apply HQ]. apply safe_quiet; [done |]. apply (dotted_quiet _ temporary); [done |].
  specialize (He (oracle t)). by destruct (ev (oracle t)).
Qed.

(** The objects visible under chunk ids. *)
Definition visible (v : string -> option Obj) (t : list SnEvent) : Prop :=
  forall id, files initial t !! hex_encode id = v id.
Definition with_object (v : string -> option Obj) (id : string) (o : Obj) : string -> option Obj :=
  fun id' => if decide (id' = id) then Some o else v id'.

Section OneObject.
Context (id object temporary : string) (v : string -> option Obj).
Hypothesis Hsealed : sealed_as id (ObjFile object true).
Hypothesis Hdot : dotted temporary.
Hypothesis Hfree : v id = None.
Let absent (t : list SnEvent) : Prop := visible v t.
Let held (content : string) (synced : bool) (t : list SnEvent) : Prop :=
  absent t /\ files initial t !! temporary = Some (ObjFile content synced).

(** The temporary file set to new contents. *)
Lemma held_insert e t content synced :
  absent t -> apply_event e (files initial t) = <[temporary := ObjFile content synced]> (files initial t) ->
  held content synced (e :: t).
Proof.
  unfold held, absent, visible. change (files initial (e :: t)) with (apply_event e (files initial t)).
  intros Ha ->. split; [intros id'; by rewrite dotted_insert | by rewrite lookup_insert_eq].
Qed.

Lemma create_new_runs :
  runs absent (create_new initial temporary) (fun ok t => if ok then held EmptyString false t else absent t).
Proof.
  apply (runs_temporary temporary); [done | done |]. intros t Ha.
  destruct (negb _ && _); [by apply held_insert | done].
Qed.

Lemma write_all_runs :
  runs (held EmptyString false) (write_all temporary object)
    (fun r t => if r.2 then held object false t else True).
Proof.
  apply (runs_temporary temporary); [done | done |]. intros t [Ha Ht]. destruct (fs_fault t); [done |].
  apply held_insert; [done |]. cbn [apply_event]. by rewrite Ht.
Qed.

Lemma sync_all_runs :
  runs (held object false) (sync_all temporary) (fun ok t => if ok then held object true t else True).
Proof.
  apply (runs_temporary temporary); [done | done |]. intros t [Ha Ht]. destruct (fs_fault t); [done |].
  apply held_insert; [done |]. cbn [apply_event negb]. by rewrite Ht.
Qed.

Lemma rename_runs :
  runs (held object true) (rename initial temporary (hex_encode id))
    (fun ok t => ok = true -> visible (with_object v id (ObjFile object true)) t).
Proof.
  intros t Hs [Ha Ht]. unfold rename, ask. rewrite Ht. cbn [opt_is_some]. rewrite andb_true_r.
  eexists _, [_]. split; [done |]. destruct (fs_fault t).
  - split; [| done]. apply safe_quiet; [done |]. by apply (dotted_quiet _ temporary).
  - assert (files initial t !! hex_encode id = None) as Hn by (by rewrite (Ha id)).
    destruct (safe_rename t temporary id _ Hs Hdot Ht Hsealed Hn) as [Hs' Hl]. split; [done |].
    intros _ id'. unfold with_object. destruct (decide (id' = id)) as [->|Hne]; [done |].
    cbn [app files foldr]. change (foldr apply_event initial t) with (files initial t). cbn [apply_event negb].
    rewrite Ht, lookup_insert_ne, dotted_delete by (done || by intros He; apply hex_name_inj in He). apply Ha.
Qed.

Lemma write_steps_runs :
  runs absent (write_steps initial temporary (hex_encode id) object)
    (fun ok t => ok = true -> visible (with_object v id (ObjFile object true)) t).
Proof.
  unfold write_steps. eapply always_bind; [apply create_new_runs |]. intros [|]; cbn [negb];
    [| by apply always_ret].
  eapply always_bind; [apply write_all_runs |]. intros [data [|]]; cbn [negb snd];
    [| by apply always_ret].
  eapply always_bind; [apply sync_all_runs |]. intros [|]; cbn [negb];
    [| by apply always_ret].
  apply rename_runs.
Qed.

End OneObject.

Lemma runs_any {A} P (oracle : list SnEvent -> A) ev (R : A -> Prop) :
  (forall t a, apply_event (ev a) (files initial t) = files initial t) -> (forall t, R (oracle t)) ->
  runs (fun t => P (files initial t)) (ask oracle ev) (fun a t => P (files initial t) /\ R a).
Proof.
  intros Hq HR. apply runs_ask; [done |]. intros t Ht. split; [| done].
  by rewrite <- (Hq t (oracle t)) in Ht.
Qed.

Lemma random_suffix_runs P :
  runs (fun t => P (files initial t)) random_suffix (fun _ t => P (files initial t)).
Proof.
  eapply always_bind; [apply (runs_any P _ _ (fun _ => True)); done |].
  intros r. apply always_ret. by intros t [? _].
Qed.

Lemma write_object_runs id object v :
  sealed_as id (ObjFile object true) -> v id = None ->
  runs (visible v) (write_object initial (hex_encode id) object)
    (fun r t => r = Ok tt -> visible (with_object v id (ObjFile object true)) t).
Proof.
  intros Hse Hv. unfold write_object.
  eapply always_bind; [apply (random_suffix_runs (fun d => forall id, d !! hex_encode id = v id)) |].
  intros [suffix|e]; [| by apply always_ret].
  assert (dotted (temporary_name (hex_encode id) suffix)) as Hdot by (by eexists).
  eapply always_bind; [by apply write_steps_runs |]. intros [|]; [apply always_ret; auto |].
  eapply always_bind; [| intros ok; by apply (always_ret _ (fun _ => True))].
  apply (runs_temporary (temporary_name (hex_encode id) suffix)); done.
Qed.

(** *** The sink *)

Context `{!FastCdc, !FastCdcLaws}.

(** The chunks [ps] are stored in the visible objects [v]: each has an object of its
    length, and every object that was not there at first is sealed from one of them. *)
Record kept (ps : list string) (v : string -> option Obj) : Prop := {
  kept_stored : Forall (fun p => exists content synced,
    v (keys_chunk_id keys p) = Some (ObjFile content synced) /\ len content = CHUNK_OVERHEAD + len p) ps;
  kept_origin id o : v id = Some o ->
    initial !! hex_encode id = Some o \/
    exists nonce q, q ∈ ps /\ len nonce = CHUNK_NONCE_LEN /\ id = keys_chunk_id keys q /\
      o = ObjFile (sc_object (keys_seal keys nonce q)) true
}.
Definition objects_at (t : list SnEvent) (id : string) : option Obj := files initial t !! hex_encode id.

Lemma kept_ext ps v v' : (forall id, v id = v' id) -> kept ps v -> kept ps v'.
Proof.
  intros Hv [Hs Ho]. split; [| intros id o; rewrite <- Hv; apply Ho].
  eapply Forall_impl; [exact Hs |]. intros p. cbn. by rewrite Hv.
Qed.

Lemma kept_reused ps v p content synced :
  kept ps v -> v (keys_chunk_id keys p) = Some (ObjFile content synced) ->
  len content = CHUNK_OVERHEAD + len p -> kept (ps ++ [p]) v.
Proof.
  intros [Hs Ho] Hv Hl. split.
  - apply Forall_app. split; [done |]. apply Forall_singleton. by exists content, synced.
  - intros id o Hid. destruct (Ho id o Hid) as [?|(nonce & q & Hq & ?)]; [by left |]. right.
    exists nonce, q. split; [set_solver | done].
Qed.

Lemma kept_written ps v p nonce :
  kept ps v -> len nonce = CHUNK_NONCE_LEN -> v (keys_chunk_id keys p) = None ->
  kept (ps ++ [p]) (with_object v (keys_chunk_id keys p) (ObjFile (sc_object (keys_seal keys nonce p)) true)).
Proof.
  intros [Hs Ho] Hn Hv. unfold with_object. split.
  - apply Forall_app. split; [| apply Forall_singleton].
    + eapply Forall_impl; [exact Hs |]. intros q (content & synced & Hq & Hl). exists content, synced.
      rewrite decide_False by congruence. done.
    + eexists _, true. rewrite decide_True by done. split; [done | by apply seal_length].
  - intros id o. destruct (decide _) as [->|Hne].
    + intros [= <-]. right. exists nonce, p. split; [set_solver | done].
    + intros Hid. destruct (Ho id o Hid) as [?|(n & q & Hq & ?)]; [by left |]. right.
      exists n, q. split; [set_solver | done].
Qed.

Lemma store_runs s plaintext ps :
  sk_keys s = keys ->
  runs (fun t => kept ps (objects_at t)) (store initial s plaintext)
    (fun r t => sk_keys r.1 = keys /\ sk_buffer r.1 = sk_buffer s /\ sk_error r.1 = sk_error s /\
       (r.2 = Ok tt -> sk_chunks r.1 = sk_chunks s ++ [described keys plaintext] /\
                       kept (ps ++ [plaintext]) (objects_at t))).
Proof.
  intros Hk t0 Hs0 Hkept. set (v := objects_at t0). revert t0 Hs0 Hkept v.
  enough (forall v, kept ps v -> runs (visible v) (store initial s plaintext)
    (fun r t => sk_keys r.1 = keys /\ sk_buffer r.1 = sk_buffer s /\ sk_error r.1 = sk_error s /\
       (r.2 = Ok tt -> sk_chunks r.1 = sk_chunks s ++ [described keys plaintext] /\
                       kept (ps ++ [plaintext]) (objects_at t)))) as Hrun
    by (intros t0 Hs0 Hkept v; by apply (Hrun v)).
  intros v Hkept. unfold store. rewrite Hk. eapply always_bind.
  { apply (runs_ask _ _ _ (fun r t => visible v t /\ match r with
      | LookFile n => exists content synced,
          v (keys_chunk_id keys plaintext) = Some (ObjFile content synced) /\ len content = n
      | LookMissing => v (keys_chunk_id keys plaintext) = None
      | _ => True end)); [done |].
    intros t Hv. split; [done |]. unfold lookup_result. destruct (fs_fault t); [done |].
    rewrite (Hv (keys_chunk_id keys plaintext)).
    destruct (v _) as [[content synced|]|] eqn:Hl; eauto. }
  intros [n| | |]; try by apply always_ret.
  - case Z.eqb_spec; intros Hn; [| by apply always_ret].
    apply always_ret. intros t [Hv (content & synced & Hl & Hc)].
    cbn. do 3 (split; [done |]). intros _. split; [done |].
    eapply kept_ext; [intros id; symmetry; apply Hv |]. apply (kept_reused _ _ _ content synced); [done | done | lia].
  - apply always_pure. intros Hnone. eapply always_bind.
    { apply (runs_any (fun d => forall id, d !! hex_encode id = v id) _ _
        (fun r => forall nonce, r = Some nonce -> len nonce = CHUNK_NONCE_LEN)); [done |].
      intros t nonce Hr. by apply random_length in Hr. }
    intros [nonce|]; [| by apply always_ret]. apply always_pure. intros Hn. specialize (Hn nonce eq_refl).
    eapply always_bind.
    { apply (write_object_runs (keys_chunk_id keys plaintext) _ v); [by exists nonce, plaintext | done]. }
    intros [[]|e]; apply always_ret; [| done]. intros t Ht. cbn. do 3 (split; [done |]). intros _. split; [done |].
    eapply kept_ext; [intros id; symmetry; by apply Ht |]. by apply kept_written.
Qed.

(** Cutting a whole stream at once. *)
Definition cut_at (buffer : string) : Z := fastcdc_cut buffer CHUNK_MIN_BYTES CHUNK_AVG_BYTES CHUNK_MAX_BYTES.
Inductive cuts : string -> list string -> Prop :=
| cuts_nil : cuts EmptyString []
| cuts_cons buffer ps :
    buffer <> EmptyString -> cuts (str_drop (Z.to_nat (cut_at buffer)) buffer) ps ->
    cuts buffer (str_take (cut_at buffer) buffer :: ps).

Definition flat (pieces : list string) : string := foldr String.append EmptyString pieces.

(** The sink after the first part [stream] of a stream has been written, with the
    chunks [ps] stored: whatever in [more] may still come, the whole is cut into
    [ps] and the cuts of the buffer and the rest. *)
Record sink_inv (more : string -> Prop) (s : ChunkSink) (stream : string) (ps : list string) (t : list SnEvent) : Prop := {
  si_keys : sk_keys s = keys;
  si_error : sk_error s = None;
  si_chunks : sk_chunks s = map (described keys) ps;
  si_kept : kept ps (objects_at t);
  si_stream : stream = flat ps +:+ sk_buffer s;
  si_cuts rest qs : more rest -> cuts (sk_buffer s +:+ rest) qs -> cuts (stream +:+ rest) (ps ++ qs)
}.

Lemma str_take_app_le n a b : 0 <= n <= len a -> str_take n (a +:+ b) = str_take n a.
Proof. intros Hn. unfold str_take. rewrite bytes_app, take_app_le; [done |]. pose proof (bytes_len a). lia. Qed.

Lemma str_drop_app_le n a b : (n <= String.length a)%nat -> str_drop n (a +:+ b) = str_drop n a +:+ b.
Proof.
  revert a. induction n as [|n IH]; intros [|x a] Hn; cbn in Hn; try done; try lia. cbn [str_drop].
  change ((String x a) +:+ b) with (String x (a +:+ b)). apply IH. lia.
Qed.

Lemma str_take_drop n s : 0 <= n -> str_take n s +:+ str_drop (Z.to_nat n) s = s.
Proof.
  intros Hn. unfold str_take. generalize (Z.to_nat n). clear n Hn. intros n. revert n.
  induction s as [|a s IH]; intros [|n]; try done.
  change (str_drop (S n) (String a s)) with (str_drop n s).
  change (String a (of_bytes (take n (bytes s)) +:+ str_drop n s) = String a s). by rewrite IH.
Qed.

Lemma flat_app a b : flat (a ++ b) = flat a +:+ flat b.
Proof. induction a as [|x a IH]; [done |]. cbn [flat foldr app]. fold (flat (a ++ b)) (flat a). by rewrite IH, str_app_assoc. Qed.

Lemma cut_one_runs more s stream ps :
  sk_buffer s <> EmptyString ->
  (forall rest, more rest -> cut_at (sk_buffer s +:+ rest) = cut_at (sk_buffer s)) ->
  runs (sink_inv more s stream ps) (cut_one initial s)
    (fun r t => sk_keys r.1 = keys /\
       (String.length (sk_buffer r.1) < String.length (sk_buffer s))%nat /\
       (r.2 = Ok tt -> exists p, sink_inv more r.1 stream (ps ++ [p]) t)).
Proof.
  intros Hne Hlocal. unfold cut_one. fold (cut_at (sk_buffer s)).
  pose proof (cut_pos (sk_buffer s) Hne) as Hc. fold (cut_at (sk_buffer s)) in Hc.
  set (c := cut_at (sk_buffer s)) in *. set (b := sk_buffer s) in *.
  intros t Hs Hinv.
  destruct (store_runs (set_buffer s (str_drop (Z.to_nat c) b)) (str_take c b) ps (si_keys _ _ _ _ _ Hinv)
    t Hs (si_kept _ _ _ _ _ Hinv)) as (r & es & Hr & Hs' & Hpost).
  exists r, es. split; [done |]. split; [done |]. generalize (es ++ t) Hpost. clear es Hr Hs' Hpost. revert r.
  intros [s' r] t' (Hk & Hb & He & Hok). cbn [fst snd] in *. split; [done |].
  split. { rewrite Hb. cbn. pose proof (str_drop_len (Z.to_nat c) b). unfold len in *. lia. }
  intros ->. destruct (Hok eq_refl) as [Hch Hst]. exists (str_take c b). destruct Hinv. split.
  - done.
  - rewrite He. done.
  - rewrite Hch. cbn. by rewrite si_chunks0, map_app.
  - done.
  - rewrite Hb. cbn. rewrite flat_app, str_app_assoc. cbn. by rewrite str_app_nil_r, str_take_drop by lia.
  - rewrite Hb. cbn. intros rest qs Hm Hcut. rewrite <- app_assoc. apply si_cuts0; [done |].
    assert (str_take c b :: qs = str_take (cut_at (b +:+ rest)) (b +:+ rest) :: qs) as Hq.
    { rewrite Hlocal by done. by rewrite str_take_app_le by lia. }
    cbn [app]. rewrite Hq. apply cuts_cons; [by destruct b |].
    rewrite Hlocal by done. rewrite str_drop_app_le; [done |]. unfold len in *. lia.
Qed.

Definition any_rest (rest : string) : Prop := True.
Definition no_rest (rest : string) : Prop := rest = EmptyString.

Lemma flush_all_runs s stream ps :
  runs (sink_inv any_rest s stream ps) (flush_all initial s)
    (fun r t => r.2 = Ok tt -> exists ps', sk_chunks r.1 = map (described keys) ps' /\
       kept ps' (objects_at t) /\ stream = flat ps' /\ cuts stream ps').
Proof.
  unfold flush_all, buffer_fuel.
  eapply always_conseq with (P' := fun t => exists ps, sink_inv no_rest s stream ps t);
    [| | intros r t Hr; exact Hr].
  - apply (always_loop (fun s => String.length (sk_buffer s)) (fun s t => exists ps, sink_inv no_rest s stream ps t));
      [| lia]. clear s ps. intros s. apply always_exists. intros ps.
    destruct (str_is_empty (sk_buffer s)) eqn:He.
    + apply always_ret. intros t [] _. exists ps. assert (sk_buffer s = EmptyString) as Hb by (by destruct (sk_buffer s)).
      split; [done |]. split; [done |].
      specialize (si_cuts0 EmptyString [] eq_refl). rewrite Hb, !str_app_nil_r, app_nil_r in *.
      split; [done | apply si_cuts0; constructor].
    + eapply always_bind; [apply (cut_one_runs no_rest s stream ps) |].
      * by apply str_is_empty_false.
      * intros rest ->. by rewrite str_app_nil_r.
      * intros [s' [[]|e]]; apply always_ret; [| done]. intros t (_ & Hl & Hok).
        destruct (Hok eq_refl) as [p Hinv]. split; [by eexists | done].
  - intros t []. exists ps. split; try done. intros rest qs _. by apply si_cuts0.
Qed.

Lemma sink_write_runs s stream ps buf :
  runs (sink_inv any_rest s stream ps) (sink_write initial s buf)
    (fun r t => sk_keys r.1 = keys /\ if r.2 then exists ps', sink_inv any_rest r.1 (stream +:+ buf) ps' t
                                      else sk_error r.1 <> None).
Proof.
  unfold sink_write. destruct (sk_error s) eqn:Herr; [intros t _ []; congruence |].
  set (s0 := set_buffer s (sk_buffer s +:+ buf)).
  eapply always_conseq with (P' := fun t => exists ps, sink_inv any_rest s0 (stream +:+ buf) ps t);
    [| | intros r t Hr; exact Hr].
  - apply (always_loop (fun s => String.length (sk_buffer s))
      (fun s t => exists ps, sink_inv any_rest s (stream +:+ buf) ps t)); [| unfold buffer_fuel; lia].
    intros s1. apply always_exists. intros ps1. case Z.ltb_spec; intros Hl.
    + apply always_ret. intros t Hinv. split; [apply Hinv | by exists ps1].
    + eapply always_bind; [apply (cut_one_runs any_rest s1 (stream +:+ buf) ps1) |].
      * intros Hb. rewrite Hb in Hl. done.
      * intros rest _. by apply cut_local.
      * intros [s' [[]|e]]; apply always_ret; [| by intros t (Hk & _)]. intros t (_ & Hb & Hok).
        destruct (Hok eq_refl) as [p Hinv]. split; [by eexists | done].
  - intros t []. exists ps. split; try done; cbn; [by rewrite si_stream0, str_app_assoc |].
    intros rest qs _. rewrite !str_app_assoc. by apply si_cuts0.
Qed.

Lemma feed_runs pieces : forall s stream ps,
  runs (sink_inv any_rest s stream ps) (feed initial s pieces)
    (fun r t => sk_keys r.1 = keys /\ if r.2 then exists ps', sink_inv any_rest r.1 (stream +:+ flat pieces) ps' t
                                      else sk_error r.1 <> None).
Proof.
  induction pieces as [|piece pieces IH]; intros s stream ps; cbn [feed].
  - apply always_ret. intros t Hinv. split; [apply Hinv |]. exists ps. by rewrite str_app_nil_r.
  - eapply always_bind; [apply sink_write_runs |]. intros [s' [|]]; cbn [fst snd].
    + eapply always_conseq; [apply (always_exists (sink_inv any_rest s' (stream +:+ piece))); intros ps'; apply IH | by intros t [_ ?] |].
      intros r t. by rewrite str_app_assoc.
    + apply always_ret. done.
Qed.

(** A sink whose store failed takes nothing more. *)
Lemma feed_failed s pieces : sk_error s <> None ->
  runs (fun _ => True) (feed initial s pieces) (fun r t => r.1 = s).
Proof.
  intros He. destruct pieces as [|piece pieces]; cbn [feed]; [by apply always_ret |].
  unfold sink_write. destruct (sk_error s); [| done]. eapply always_bind; [by apply (always_ret _ _ (fun r _ => r = (s, false))) |].
  intros r t Hs ->. by exists (s, false), [].
Qed.

(** *** The archive *)

Context `{!TarBuilder}.

(** What one entry is archived as: its metadata, and the contents or link target
    that the host answered with during the run. *)
Inductive item_of (t : list SnEvent) (e : SourceEntry) : TarItem -> Prop :=
| item_root :
    se_relative e = ROOT_ENTRY -> item_of t e (TarRoot (header (se_meta e) 0 TypeDirectory) ROOT_ENTRY)
| item_dir :
    se_relative e <> ROOT_ENTRY -> md_kind (se_meta e) = KindDir ->
    item_of t e (TarData (header (se_meta e) 0 TypeDirectory) (se_relative e) EmptyString)
| item_link target :
    se_relative e <> ROOT_ENTRY -> md_kind (se_meta e) = KindSymlink ->
    In (SourceLink (se_relative e) (Some target)) t ->
    item_of t e (TarLink (header (se_meta e) 0 TypeSymlink) (se_relative e) target)
| item_file content :
    se_relative e <> ROOT_ENTRY -> md_kind (se_meta e) <> KindDir -> md_kind (se_meta e) <> KindSymlink ->
    In (SourceFile (se_relative e) (Reads content false)) t -> len content = md_len (se_meta e) ->
    item_of t e (TarData (header (se_meta e) (md_len (se_meta e)) TypeRegular) (se_relative e) content).

(** An item with an mtime that is not negative, taken by the builder. *)
Definition archived (t : list SnEvent) (e : SourceEntry) (item : TarItem) : Prop :=
  item_of t e item /\ 0 <= md_mtime (se_meta e) /\ (tar_append item).2 = true.
Definition item_bytes (item : TarItem) : string := flat (tar_append item).1.

Lemma archived_stable e item : stable (fun t => archived t e item).
Proof.
  intros t es _ (Hi & Hr). split; [| done]. destruct Hi; econstructor; try done; apply in_app_iff; by right.
Qed.

(** Either the sink has failed for good, or it is consistent. *)
Definition usable (s : ChunkSink) (t : list SnEvent) : Prop :=
  sk_error s <> None \/ exists stream ps, sink_inv any_rest s stream ps t.

(** The outcome of a step that adds the bytes [added] to the stream. *)
Definition step_done {A} (stream : string) (good : list SnEvent -> string -> Prop)
    (r : ChunkSink * result A SnapshotError) (t : list SnEvent) : Prop :=
  match r.2 with
  | Ok _ => exists added ps, good t added /\ sink_inv any_rest r.1 (stream +:+ added) ps t
  | Err _ => usable r.1 t
  end.

Lemma append_runs s stream ps item :
  runs (sink_inv any_rest s stream ps) (append initial s item)
    (step_done stream (fun _ added => added = item_bytes item /\ (tar_append item).2 = true)).
Proof.
  unfold append. eapply always_bind; [apply feed_runs |]. intros [s' [|]]; apply always_ret; intros t [_ Hp]; cbn in Hp.
  - destruct Hp as [ps' Hinv]. unfold step_done. cbn [fst snd andb]. destruct (tar_append item) as [writes [|]] eqn:Hi.
    + exists (item_bytes item), ps'. cbn. split; [done |]. unfold item_bytes. by rewrite Hi.
    + right. by exists (stream +:+ flat writes), ps'.
  - by left.
Qed.

(** A failed read: whatever was fed first, the sink stays usable. *)
Lemma feed_usable s stream ps pieces (k : ChunkSink * bool -> SnapshotError) good :
  runs (sink_inv any_rest s stream ps)
    (r ← feed initial s pieces; mret (r.1, (Err (k r) : result unit SnapshotError))) (step_done stream good).
Proof.
  eapply always_bind; [apply feed_runs |]. intros [s' [|]]; apply always_ret; intros t [_ Hp]; cbn in Hp.
  - right. destruct Hp as [ps' ?]. by eexists _, ps'.
  - by left.
Qed.

Lemma sink_inv_quiet more s stream ps e t :
  apply_event e (files initial t) = files initial t ->
  sink_inv more s stream ps t -> sink_inv more s stream ps (e :: t).
Proof.
  intros Hq []. split; try done. eapply kept_ext; [| done]. intros id. unfold objects_at.
  change (files initial (e :: t)) with (apply_event e (files initial t)). by rewrite Hq.
Qed.

Lemma append_item_runs s stream ps e item (P : list SnEvent -> Prop) :
  0 <= md_mtime (se_meta e) -> stable P ->
  (forall t, P t -> item_of t e item) ->
  runs (fun t => sink_inv any_rest s stream ps t /\ P t) (append initial s item)
    (step_done stream (fun t added => exists item, archived t e item /\ added = item_bytes item)).
Proof.
  intros Hm Hst Hi. eapply always_conseq; [apply (runs_frame P _ _ _ Hst (append_runs s stream ps item)) | done |].
  intros [s' [[]|]] t [Hd HP]; unfold step_done in *; cbn in *; [| done].
  destruct Hd as (added & ps' & [-> Hacc] & Hinv). exists (item_bytes item), ps'. split; [| done].
  exists item. split; [| done]. split; [by apply Hi | done].
Qed.

Lemma seen_stable e : stable (fun t => In e t).
Proof. intros t es _ He. apply in_app_iff. by right. Qed.

Notation entry_done stream e :=
  (step_done stream (fun t added => exists item, archived t e item /\ added = item_bytes item)).

Lemma str_take_all s : str_take (len s) s = s.
Proof. rewrite <- (str_app_nil_r s) at 2. apply str_take_app. Qed.

Lemma archive_file_runs s stream ps e :
  0 <= md_mtime (se_meta e) -> se_relative e <> ROOT_ENTRY ->
  md_kind (se_meta e) <> KindDir -> md_kind (se_meta e) <> KindSymlink ->
  runs (sink_inv any_rest s stream ps) (archive_file initial s e) (entry_done stream e).
Proof.
  intros Hm Hr Hd Hl. unfold archive_file. eapply always_bind.
  { apply (runs_ask _ _ _ (fun r t => sink_inv any_rest s stream ps t /\ In (SourceFile (se_relative e) r) t)); [done |].
    intros t Hinv. split; [by apply sink_inv_quiet | by left]. }
  intros [|got|content probe]; cbn beta iota.
  - apply always_ret. intros t [Hinv _]. right. by eexists _, _.
  - eapply always_conseq; [apply (feed_usable s stream ps) | by intros t [? _] | done].
  - case Z.ltb_spec; intros Hlen.
    { eapply always_conseq; [apply (feed_usable s stream ps) | by intros t [? _] | done]. }
    destruct probe; [| case (Z.ltb_spec (md_len (se_meta e)) (len content)); intros Hlong].
    + eapply always_bind; [eapply always_conseq; [apply (append_runs s stream ps) | by intros t [? _] | intros r t Hr'; exact Hr'] |].
      intros [s' [[]|]]; apply always_ret; intros t Hst; unfold step_done in *; cbn in *; [| done].
      destruct Hst as (added & ps' & _ & Hinv). right. by eexists _, _.
    + eapply always_bind; [eapply always_conseq; [apply (append_runs s stream ps) | by intros t [? _] | intros r t Hr'; exact Hr'] |].
      intros [s' [[]|]]; apply always_ret; intros t Hst; unfold step_done in *; cbn in *; [| done].
      destruct Hst as (added & ps' & _ & Hinv). right. by eexists _, _.
    + assert (md_len (se_meta e) = len content) as Hn by lia.
      eapply always_bind; [apply (append_item_runs s stream ps e _ (fun t => In (SourceFile (se_relative e) (Reads content false)) t)); [done | apply seen_stable |] |].
      { intros t Hin. rewrite Hn at 2. rewrite str_take_all. by apply item_file. }
      intros [s' [[]|]]; by apply always_ret.
Qed.

Lemma archive_entry_runs s stream ps e :
  runs (sink_inv any_rest s stream ps) (archive_entry initial s e) (entry_done stream e).
Proof.
  unfold archive_entry. case Z.ltb_spec; intros Hm.
  { apply always_ret. intros t Hinv. right. by eexists _, _. }
  assert (stable (fun _ => True)) as Htrue by done.
  case str_eqb_spec; intros Hr.
  { eapply always_conseq; [apply (append_item_runs s stream ps e _ (fun _ => True)) | | intros r t Ht; exact Ht]; try done.
    intros t _. by apply item_root. }
  destruct (md_kind (se_meta e)) eqn:Hk.
  - eapply always_conseq; [apply (append_item_runs s stream ps e _ (fun _ => True)) | | intros r t Ht; exact Ht]; try done.
    intros t _. by apply item_dir.
  - apply archive_file_runs; congruence.
  - eapply always_bind.
    { apply (runs_ask _ _ _ (fun r t => sink_inv any_rest s stream ps t /\ In (SourceLink (se_relative e) r) t)); [done |].
      intros t Hinv. split; [by apply sink_inv_quiet | by left]. }
    intros [target|]; [| apply always_ret; intros t [Hinv _]; right; by eexists _, _].
    apply (append_item_runs s stream ps e _ (fun t => In (SourceLink (se_relative e) (Some target)) t));
      [done | apply seen_stable |]. intros t Hin. by apply item_link.
  - apply archive_file_runs; congruence.
Qed.

Definition archive_bytes (items : list TarItem) : string := flat (map item_bytes items) +:+ flat tar_finish.

Lemma archive_entries_runs entries : forall s stream ps,
  runs (sink_inv any_rest s stream ps) (archive_entries initial s entries)
    (fun r t => r.2 = Ok tt -> exists items ps', Forall2 (archived t) entries items /\
       sink_inv any_rest r.1 (stream +:+ archive_bytes items) ps' t).
Proof.
  induction entries as [|e entries IH]; intros s stream ps; cbn [archive_entries].
  - eapply always_bind; [apply feed_runs |]. intros [s' [|]]; apply always_ret; intros t [_ Hp]; cbn in *; [| done].
    intros _. destruct Hp as [ps' Hinv]. exists [], ps'. split; [constructor | done].
  - eapply always_bind; [apply archive_entry_runs |]. intros [s' [[]|error]]; cbn [snd fst].
    + eapply (always_pre _ (fun t => exists item, exists ps',
        sink_inv any_rest s' (stream +:+ item_bytes item) ps' t /\ archived t e item));
        [| intros t (added & ps' & (item & Ha & ->) & Hinv); by exists item, ps'].
      apply always_exists. intros item. apply always_exists. intros ps'.
      eapply always_conseq; [apply (runs_frame _ _ _ _ (archived_stable e item) (IH s' (stream +:+ item_bytes item) ps')) |
        done |]. intros r t [Hok Ha] Hr. destruct (Hok Hr) as (items & ps2 & Hf & Hinv).
      exists (item :: items), ps2. split; [by constructor |]. unfold archive_bytes in *. cbn [map flat foldr].
      by rewrite !str_app_assoc in Hinv |- *.
    + intros t Hs Hu.
      assert (exists r es, feed initial s' tar_drop t = (Some r, es ++ t) /\ safe (es ++ t)) as (r & es & Hf & Hs').
      { destruct Hu as [He|(stream' & ps' & Hinv)].
        - destruct (feed_failed s' tar_drop He t Hs I) as (r & es & ? & ? & _). by exists r, es.
        - destruct (feed_runs tar_drop _ _ _ t Hs Hinv) as (r & es & ? & ? & _). by exists r, es. }
      exists (r.1, Err error), es. unfold mbind, io_bind. by rewrite Hf.
Qed.

Lemma new_sink_inv dek lineage_id skipped :
  keys = chunk_keys_new dek lineage_id ->
  sink_inv any_rest (new_sink dek lineage_id skipped) EmptyString [] [].
Proof. intros ->. split; try done. split; [constructor |]. intros id o Ho. by left. Qed.

(** What a finished archive left: the entries archived in order, and their bytes
    cut into the stored chunks. *)
Definition archived_as (entries : list SourceEntry) (chunks : list ManifestChunk) (t : list SnEvent)
    (items : list TarItem) (ps : list string) : Prop :=
  Forall2 (archived t) entries items /\ flat ps = archive_bytes items /\ cuts (archive_bytes items) ps /\
  chunks = map (described keys) ps /\ kept ps (objects_at t).

Lemma archive_all_runs dek lineage_id skipped entries :
  keys = chunk_keys_new dek lineage_id ->
  runs (fun t => t = []) (archive_all initial (new_sink dek lineage_id skipped) entries)
    (fun r t => match r with
                | Ok sink => exists items ps, archived_as entries (sk_chunks sink) t items ps
                | Err _ => True
                end).
Proof.
  intros Hk. unfold archive_all. eapply always_bind.
  { eapply always_pre; [apply (archive_entries_runs entries (new_sink dek lineage_id skipped) EmptyString []) |].
    intros t ->. by apply new_sink_inv. }
  intros [s [[]|error]]; cbn [fst snd]; [| destruct (sk_error s); by apply always_ret].
  eapply (always_pre _ (fun t => exists items, exists ps,
    (sink_inv any_rest s (archive_bytes items) ps t /\ Forall2 (archived t) entries items) /\ sk_error s = None)).
  2: { intros t Ht. destruct (Ht eq_refl) as (items & ps & Hf & Hinv). exists items, ps.
       split; [done | apply Hinv]. }
  apply always_exists. intros items. apply always_exists. intros ps. apply always_pure. intros ->.
  eapply always_bind.
  { apply (runs_frame (fun t => Forall2 (archived t) entries items)); [| apply flush_all_runs].
    intros t es Hg Hf. eapply Forall2_impl; [exact Hf |]. intros e item Ha. by apply archived_stable. }
  intros [s' [[]|error]]; apply always_ret; [| done]. intros t [Hok Hf]. cbn in *.
  destruct (Hok eq_refl) as (ps' & Hch & Hst & Hfl & Hc). exists items, ps'. split; [done |]. by split.
Qed.

End ObjectFacts.

(** ** Write *)

Section WriteFacts.
Context `{!Encodings, !HexDecode, !ObjectNames, !SnapshotHost, !RandomLaws, !Aead, !Hkdf, !Hmac, !ChunkLaws}.
Context `{!FastCdc, !FastCdcLaws, !TarBuilder, !Sha256, !Ed25519}.
Variable initial : Dir.

Lemma sealed_opens keys id o :
  sealed_as keys id o -> exists content plaintext, o = ObjFile content true /\ keys_open keys id content = Ok plaintext.
Proof.
  intros (nonce & plaintext & Hn & -> & ->). eexists _, plaintext. split; [done |]. by apply seal_open.
Qed.

Lemma successor_with_chunks previous m chunks :
  verify_successor previous m = Ok tt -> check_well_formed (with_chunks m chunks) = Ok tt ->
  verify_successor previous (with_chunks m chunks) = Ok tt.
Proof.
  unfold verify_successor. destruct (manifest_digest previous); [cbn | done]. intros Hs ->. cbn.
  by destruct (check_well_formed m) as [[]|].
Qed.

Lemma prepare_linked lineage previous signer m :
  prepare_manifest lineage previous signer = Ok m ->
  mf_lineage m = ln_lineage lineage /\ mw_signer_public_key (mf_writer m) = signer /\
  match previous with
  | None => mf_sequence m = 1
  | Some previous => verify_successor previous m = Ok tt
  end.
Proof.
  unfold prepare_manifest. destruct previous as [previous|].
  - destruct (checked_add_u64 _ _) as [n|]; cbn [ok_or]; [| done].
    destruct (manifest_digest previous) as [d|]; [| done].
    destruct (verify_successor _ _) as [[]|] eqn:Hv; [| done].
    destruct (check_well_formed (with_link _ _ _)) as [[]|]; [| done]. by intros [= <-].
  - destruct (check_well_formed _) as [[]|]; [| done]. by intros [= <-].
Qed.

(** The snapshot a successful write returns. *)
Definition snapshot_of (p : Places) (dek : string) (lineage : SnapshotLineage) (previous : option Manifest)
    (signer : StateSigner) (t : list SnEvent) (snapshot : Snapshot) : Prop :=
  let m := sm_manifest (sn_signed snapshot) in
  let keys := chunk_keys_new dek (ln_lineage lineage) in
  mf_lineage m = ln_lineage lineage /\
  (exists d, verify_signature m (sm_signature (sn_signed snapshot)) (signer_key signer) = Ok d) /\
  match previous with
  | None => mf_sequence m = 1
  | Some previous => verify_successor previous m = Ok tt
  end /\
  exists root entries skipped items ps,
    check_places p = Ok root /\ collect_entries root = Some (Ok (entries, skipped)) /\
    archived_as initial keys entries (mf_chunks m) t items ps.

Lemma sign_well_formed m signer signature :
  sign_manifest m signer = Ok signature -> check_well_formed m = Ok tt.
Proof.
  unfold sign_manifest. destruct (manifest_digest m) as [d|] eqn:Hd; [| done]. intros _. by eapply digest_well_formed.
Qed.

Lemma sign_verifies m signer signature :
  sign_manifest m signer = Ok signature -> exists d, verify_signature m signature (signer_key signer) = Ok d.
Proof.
  unfold sign_manifest, verify_signature. destruct (manifest_digest m) as [d|]; [cbn | done].
  case str_eqb_spec; [intros -> | done]; cbn. rewrite str_eqb_refl. cbn.
  destruct (sign_ed25519 _ _) as [sg|]; [cbn | done].
  destruct (verify_digest _ _ _) as [[]|] eqn:Hv; [cbn | done]. intros [= ->]. rewrite Hv. by exists d.
Qed.

Lemma write_runs p dek lineage previous signer :
  always (safe initial (chunk_keys_new dek (ln_lineage lineage))) (fun t => t = [])
    (write initial p dek lineage previous signer)
    (fun r t => match r with Ok snapshot => snapshot_of p dek lineage previous signer t snapshot | Err _ => True end).
Proof.
  unfold write. destruct (prepare_manifest _ _ _) as [m|] eqn:Hm; [cbn [map_err] | by apply always_ret].
  destruct (check_places p) as [root|] eqn:Hp; [| by apply always_ret].
  destruct (collect_entries root) as [[[entries skipped]|]|] eqn:Hc; [| by apply always_ret |].
  2: { destruct (source_walk_exact root) as (r & Hr & _). congruence. }
  eapply always_bind; [by apply archive_all_runs |]. intros [sink|]; [| by apply always_ret].
  apply always_ret. intros t (items & ps & Ha).
  destruct (sign_manifest _ signer) as [sg|] eqn:Hs; [cbn | done].
  destruct (prepare_linked _ _ _ _ Hm) as (Hl & Hk & Hlink).
  split; [done |]. split; [by apply sign_verifies |]. split.
  - destruct previous as [previous|]; [| done]. cbn. apply successor_with_chunks; [done |]. by eapply sign_well_formed.
  - exists root, entries, skipped, items, ps. done.
Qed.

(** C10: a write never leaves a partial object. [write] always returns. At every
    moment of it, whatever calls failed and wherever it may be cut off, the objects
    that were in the directory under chunk ids are unchanged, and every other object
    there under a chunk id is on disk in full and opens under its id. *)
Theorem write_crash_safe p dek lineage previous signer :
  exists r t, write initial p dek lineage previous signer [] = (Some r, t) /\
  forall later moment, t = later ++ moment ->
    (forall id o, initial !! hex_encode id = Some o -> files initial moment !! hex_encode id = Some o) /\
    (forall id o, files initial moment !! hex_encode id = Some o ->
       initial !! hex_encode id = Some o \/
       exists content plaintext, o = ObjFile content true /\
         keys_open (chunk_keys_new dek (ln_lineage lineage)) id content = Ok plaintext).
Proof.
  destruct (write_runs p dek lineage previous signer [] I eq_refl) as (r & t & Hr & Hs & _).
  rewrite app_nil_r in *. exists r, t. split; [done |]. intros later moment ->.
  destruct (safe_suffix initial _ later moment Hs) as [Hm _]. split.
  - intros id o Ho. destruct (safe_suffix initial (chunk_keys_new dek (ln_lineage lineage)) moment []) as [_ Hg]; [by rewrite app_nil_r |].
    rewrite app_nil_r in Hg. by apply Hg.
  - intros id o Ho. destruct (safe_sound initial _ moment Hm id o Ho) as [?|Hse]; [by left |].
    right. by apply sealed_opens.
Qed.

Lemma cuts_unique stream ps : cuts stream ps -> forall qs, cuts stream qs -> qs = ps.
Proof.
  induction 1 as [|buffer ps Hne Hc IH]; intros qs Hq; inversion Hq; subst; try done.
  f_equal. by apply IH.
Qed.

Lemma cuts_bounded stream ps : cuts stream ps -> Forall (fun p => 0 < len p <= CHUNK_MAX_BYTES) ps.
Proof.
  induction 1 as [|buffer ps Hne Hc IH]; constructor; [| done].
  assert (0 < cut_at buffer <= len buffer) as Hp by (by apply cut_pos).
  assert (cut_at buffer <= CHUNK_MAX_BYTES) as Hm by apply cut_max.
  assert (len (str_take (cut_at buffer) buffer) = cut_at buffer) as ->; [| lia].
  assert (0 <= cut_at buffer) as Hz by lia. apply (str_take_drop _ buffer), (f_equal len) in Hz as Ht.
  rewrite len_app, str_drop_len in Ht. lia.
Qed.

(** C11: a returned snapshot is complete. When [write] succeeds, its manifest verifies
    under the signer's key and follows the previous manifest (or starts the lineage);
    every entry of the source was archived, in path order, with contents as long as
    its metadata said, read during this run; the chunks concatenate to exactly the
    archive; they are the cuts of the whole archive, however the bytes arrived; each
    is at most 4 MiB and has an object of the listed size in the directory, which was
    there before the write or opens under the chunk's id to a chunk of this archive. *)
Theorem write_snapshot_complete p dek lineage previous signer snapshot t :
  let m := sm_manifest (sn_signed snapshot) in
  let keys := chunk_keys_new dek (ln_lineage lineage) in
  write initial p dek lineage previous signer [] = (Some (Ok snapshot), t) ->
  (exists d, verify_signature m (sm_signature (sn_signed snapshot)) (signer_key signer) = Ok d) /\
  match previous with
  | None => mf_sequence m = 1
  | Some previous => verify_successor previous m = Ok tt
  end /\
  exists root entries skipped items ps,
    check_places p = Ok root /\ collect_entries root = Some (Ok (entries, skipped)) /\
    Forall2 (archived t) entries items /\
    flat ps = archive_bytes items /\ (forall qs, cuts (archive_bytes items) qs <-> qs = ps) /\
    mf_chunks m = map (described keys) ps /\
    Forall (fun plaintext => 0 < len plaintext <= CHUNK_MAX_BYTES /\
      let id := keys_chunk_id keys plaintext in
      exists content synced, files initial t !! hex_encode id = Some (ObjFile content synced) /\
        len content = CHUNK_OVERHEAD + len plaintext /\
        (initial !! hex_encode id = Some (ObjFile content synced) \/
         exists q, q ∈ ps /\ keys_chunk_id keys q = id /\ keys_open keys id content = Ok q)) ps.
Proof.
  intros m keys Hw. subst m keys. destruct (write_runs p dek lineage previous signer [] I eq_refl) as (r & es & Hr & Hs & Hq).
  rewrite app_nil_r in *. rewrite Hw in Hr. injection Hr as <- ->.
  destruct Hq as (_ & Hv & Hl & root & entries & skipped & items & ps & Hp & Hc & Hf & Hfl & Hcut & Hch & Hst).
  split; [done |]. split; [done |]. exists root, entries, skipped, items, ps. do 4 (split; [done |]).
  split; [intros qs; split; [by apply cuts_unique | by intros ->] |]. split; [done |].
  destruct Hst as [Hst Horigin]. apply cuts_bounded in Hcut. rewrite Forall_forall in Hst, Hcut |- *. intros plaintext Hin.
  split; [by apply Hcut |]. destruct (Hst plaintext Hin) as (content & synced & Hlook & Hn).
  exists content, synced. do 2 (split; [done |]).
  destruct (Horigin _ _ Hlook) as [?|(nonce & q & Hq & Hnl & Hid & [= -> ->])]; [by left |]. right.
  exists q. split; [done |]. split; [done |]. rewrite Hid. by apply seal_open.
Qed.

End WriteFacts.

(** ** Examples *)

(** A host where nothing fails and every file holds the same five bytes, a cutter
    that cuts as late as it may, a builder that writes paths and data. *)
Definition sample_snapshot_host : SnapshotHost :=
  {| fs_fault := fun _ => false; write_cut := fun _ => 0;
     random_fill := fun _ n => if 0 <=? n then Some (repeat_byte (Z.to_nat n) "r"%char) else None;
     read_source := fun _ _ => Reads "state" false; read_link := fun _ _ => None |}.
Definition sample_cdc : FastCdc := fun buffer _ _ max => Z.min (len buffer) max.
Definition sample_tar : TarBuilder :=
  {| tar_append := fun item => match item with
       | TarRoot _ name => ([name], true)
       | TarData _ path data => ([path; data], true)
       | TarLink _ path target => ([path; target], true)
       end;
     tar_short := fun _ => []; tar_finish := ["end"]; tar_drop := [] |}.

Lemma sample_hex_text s : bytes_all (fun b => is_ascii_digit b || byte_between 97 102 b) (sample_hex s) = true.
Proof.
  assert (forall n, (n < 16)%N -> is_ascii_digit (hex_digit n) || byte_between 97 102 (hex_digit n) = true) as Hd.
  { intros n Hn. assert (n ∈ map N.of_nat (seq 0 16)) as Hi.
    { apply list_elem_of_fmap. exists (N.to_nat n). split; [lia |]. apply elem_of_seq. lia. }
    cbn in Hi. set_unfold in Hi. naive_solver. }
  unfold bytes_all. induction s as [|a s IH]; [done |]. cbn [sample_hex bytes String.list_ascii_of_string forallb].
  pose proof (N_ascii_bounded a). rewrite !Hd by (apply N.mod_lt || apply N.Div0.div_lt_upper_bound; lia). exact IH.
Qed.

Lemma sample_object_names : @ObjectNames sample_encodings (fun s => sample_unhex s).
Proof. split; [apply sample_hex_round | apply sample_hex_text]. Qed.

Lemma repeat_byte_len n a : len (repeat_byte n a) = Z.of_nat n.
Proof.
  rewrite bytes_len. unfold repeat_byte, bytes, of_bytes.
  by rewrite String.list_ascii_of_string_of_list_ascii, length_replicate.
Qed.

Lemma sample_random_laws : @RandomLaws sample_snapshot_host.
Proof. intros t n bytes. cbn. case Z.leb_spec; [intros Hn [= <-] | done]. rewrite repeat_byte_len. lia. Qed.

Lemma sample_cdc_laws : @FastCdcLaws sample_cdc.
Proof.
  split; unfold fastcdc_cut, sample_cdc.
  - intros [|a b]; [done |]. intros _. unfold len, CHUNK_MAX_BYTES. cbn [String.length]. lia.
  - intros b. lia.
  - intros b more. rewrite len_app. pose proof (len_nonneg more). lia.
Qed.

Definition sample_meta (kind : FileKind) : Meta :=
  {| md_kind := kind; md_mode := 420; md_uid := 0; md_gid := 0; md_mtime := 1000; md_len := 5 |}.
Definition sample_places : Places :=
  {| pl_source := Some (node (sample_meta KindDir)
       (Some [("b", Some (node (sample_meta KindFile) None));
              ("a", Some (node (sample_meta KindDir) (Some [])))]));
     pl_out_made := true; pl_source_path := Some ["data"]; pl_out_path := Some ["objects"] |}.
Definition sample_lineage : SnapshotLineage :=
  {| ln_org := "org"; ln_application := "app"; ln_lineage := "lineage"; ln_job_id := "job";
     ln_processor_id := "processor"; ln_generation := 1; ln_dek_version := 1; ln_captured_at_ms := 1000;
     ln_recipients := [] |}.

Definition sample_write : option (result Snapshot SnapshotError) * list SnEvent :=
  @write sample_snapshot_host ∅ sample_encodings sample_aead sample_hkdf sample_hmac sample_cdc sample_tar
    (fun s => sample_unhex s) sample_sha sample_ed25519 sample_places "dek" sample_lineage None sample_signer [].

Lemma write_crash_safe_witness : exists r t, sample_write = (Some r, t).
Proof.
  destruct (@write_crash_safe sample_encodings (fun s => sample_unhex s) sample_object_names sample_snapshot_host
    sample_random_laws sample_aead sample_hkdf sample_hmac sample_chunk_laws sample_cdc sample_cdc_laws sample_tar
    sample_sha sample_ed25519 ∅ sample_places "dek" sample_lineage None sample_signer) as (r & t & Hw & _).
  exists r, t. exact Hw.
Defined.

Lemma write_snapshot_complete_witness :
  match sample_write with
  | (Some (Ok snapshot), t) => mf_sequence (sm_manifest (sn_signed snapshot)) = 1
  | _ => False
  end.
Proof.
  destruct sample_write as [[[snapshot|]|] t] eqn:Hw; try (vm_compute in Hw; discriminate).
  exact (proj1 (proj2 (@write_snapshot_complete sample_encodings (fun s => sample_unhex s) sample_object_names
    sample_snapshot_host sample_random_laws sample_aead sample_hkdf sample_hmac sample_chunk_laws sample_cdc
    sample_cdc_laws sample_tar sample_sha sample_ed25519 ∅ sample_places "dek" sample_lineage None sample_signer
    snapshot t Hw))).
Defined.
