(* ===== verification/SnapshotRestore.v ===== *)
(** * State snapshots: restoring

    [state_snapshot::restore]: the checks on the manifest and its objects, the chunk
    stream that opens each object as the archive needs it, the unpacking into a
    staging directory, and the rename that makes it the target.

    Every call on the file system is an event with the host's answer, and the host
    may answer anything. The tar reader is the interface of its crate: a parser that
    asks for more bytes, yields entries, ends or fails. *)
From Stdlib Require Import Ascii.
From stdpp Require Import prelude strings gmap.
From S2P Require Import Prelude Bridge World RestartPolicy Wire Gateway Traversal Evidence Xml.
From S2P Require Import SnapshotFormat SnapshotWrite.

Local Open Scope Z_scope.

(** ** The tar reader *)

(** A header field is [None] when it does not parse; a type that is not listed is
    [None]. *)
Record TarEntry := {
  te_path : string;
  te_path_ok : bool;
  te_mode : option Z;
  te_mtime : option Z;
  te_uid : option Z;
  te_gid : option Z;
  te_type : option EntryType;
  te_data : string
}.

Inductive TarNext := TarNeed | TarYield (e : TarEntry) (rest : string) | TarDone | TarFail.

(** [tar::Archive] reads the stream in pieces of its choice: how many bytes it asks
    for next, and what it makes of the bytes it has, at the end of the stream or
    not. *)
Class TarReader := {
  tar_want : string -> Z;
  tar_next : bool -> string -> TarNext
}.

(** ** The host *)

Inductive ObjectRead := ReadMissing | ReadOpenFault | ReadFault | ReadContent (content : string).
(** [TargetDir r]: a directory whose listing fails or says whether it is empty. *)
Inductive TargetLook := TargetDir (empty : option bool) | TargetFile | TargetMissing | TargetFault.

Inductive RsEvent :=
| RObjectLook (name : string) (r : LookResult)
| RObjectRead (name : string) (r : ObjectRead)
| RTargetLook (r : TargetLook)
| RRandom (r : option string)
| RMakeStaging (staging : string) (ok : bool)
| RUnpack (staging : string) (e : TarEntry) (r : option bool)
| RChown (path : string) (uid gid : Z) (follow ok : bool)
| RChmod (path : string) (mode : Z) (ok : bool)
| RMtime (path : string) (seconds : Z) (ok : bool)
| RStagingTree (r : option Node)
| RRename (staging target : string) (ok : bool)
| RRemoveAll (staging : string) (ok : bool).

Class RestoreHost := {
  look_object : list RsEvent -> string -> LookResult;
  read_object : list RsEvent -> string -> ObjectRead;
  look_target : list RsEvent -> TargetLook;
  rs_random : list RsEvent -> option string;
  rs_ok : list RsEvent -> bool;
  unpack_in : list RsEvent -> TarEntry -> option bool;
  staging_tree : list RsEvent -> option Node;
  effective_uid : Z
}.

(** [Path::join]: an absolute path replaces the base. *)
Definition path_join (base path : string) : string :=
  if starts_with "/" path then path else base +:+ "/" +:+ path.

Record RestoreReport := { rr_chunks : Z; rr_plaintext_bytes : Z }.
Record RestoreTrust := { tr_signer : string; tr_previous : option Manifest }.
Record Ownership := { ow_uid : Z; ow_gid : Z; ow_mode : Z; ow_symlink : bool }.

(** The part of the current chunk that was not read, the chunks that come after it,
    and the typed failure behind an [io::Error]. *)
Record ChunkStream := {
  cs_left : list ManifestChunk;
  cs_current : string;
  cs_error : option SnapshotError
}.

Section Restore.
Context `{!RestoreHost, !TarReader, !Encodings, !HexDecode, !Sha256, !Ed25519, !Aead, !Hkdf, !Hmac}.

Definition check_object (chunk : ManifestChunk) : io RsEvent (result unit SnapshotError) :=
  let name := hex_encode (mc_id chunk) in
  if MAX_CHUNK_PLAINTEXT_BYTES <? mc_plaintext_bytes chunk then mret (Err (ChunkTooLarge name))
  else if negb (mc_object_bytes chunk =? mc_plaintext_bytes chunk + CHUNK_OVERHEAD)
  then mret (Err (SnManifest (ManifestMalformed "chunks[].objectBytes")))
  else
    looked ← ask (fun t => look_object t name) (RObjectLook name);
    mret match looked with
         | LookFile n =>
             if negb (n =? mc_object_bytes chunk) then Err (ObjectLength name (mc_object_bytes chunk) n) else Ok tt
         | LookOther | LookMissing => Err (MissingChunk name)
         | LookFault => Err (SnIo "object lookup")
         end.

Fixpoint check_objects (chunks : list ManifestChunk) : io RsEvent (result unit SnapshotError) :=
  match chunks with
  | [] => mret (Ok tt)
  | chunk :: chunks => let!? _ := check_object chunk in check_objects chunks
  end.

(** ** The chunk stream *)

(** At most one byte more than the manifest says is read. *)
Definition load (keys : ChunkKeys) (chunk : ManifestChunk) : io RsEvent (result string SnapshotError) :=
  let name := hex_encode (mc_id chunk) in
  read ← ask (fun t => read_object t name) (RObjectRead name);
  mret match read with
       | ReadMissing => Err (MissingChunk name)
       | ReadOpenFault | ReadFault => Err (SnIo "object read")
       | ReadContent content =>
           let object := str_take (mc_object_bytes chunk + 1) content in
           if negb (len object =? mc_object_bytes chunk)
           then Err (ObjectLength name (mc_object_bytes chunk) (len object))
           else map_err SnChunk (keys_open keys (mc_id chunk) object)
       end.

(** [while self.position == self.current.len()]: load chunks until one has bytes.
    [None] is the [io::Error] of a refused chunk. *)
Fixpoint stream_fill (keys : ChunkKeys) (left : list ManifestChunk) (current : string)
  : io RsEvent (ChunkStream * bool) :=
  match current, left with
  | String _ _, _ | EmptyString, [] =>
      mret ({| cs_left := left; cs_current := current; cs_error := None |}, true)
  | EmptyString, chunk :: left' =>
      loaded ← load keys chunk;
      match loaded with
      | Ok plaintext => stream_fill keys left' plaintext
      | Err error => mret ({| cs_left := left; cs_current := EmptyString; cs_error := Some error |}, false)
      end
  end.

Definition stream_read (keys : ChunkKeys) (s : ChunkStream) (want : Z) : io RsEvent (ChunkStream * option string) :=
  match cs_error s with
  | Some _ => mret (s, None)
  | None =>
      filled ← stream_fill keys (cs_left s) (cs_current s);
      let s := filled.1 in
      mret (if (filled : ChunkStream * bool).2 then
              let count := Z.min want (len (cs_current s)) in
              ({| cs_left := cs_left s; cs_current := str_drop (Z.to_nat count) (cs_current s); cs_error := None |},
               Some (str_take count (cs_current s)))
            else (s, None))
  end.

(** ** Placing entries *)

Definition U32_MAX : Z := 2 ^ 32 - 1.
Definition TIME_MAX : Z := 2 ^ 63 - 1.

Definition set_mtime (path : string) (seconds : Z) : io RsEvent (result unit SnapshotError) :=
  if contains_nul path then mret (Err SnArchive)
  else if TIME_MAX <? seconds then mret (Err SnArchive)
  else
    ok ← ask rs_ok (RMtime path seconds);
    mret (if (ok : bool) then Ok tt else Err (SnIo "restore mtime")).

Definition set_permissions (path : string) (mode : Z) : io RsEvent bool := ask rs_ok (RChmod path mode).

Definition chown (path : string) (owner : Ownership) : io RsEvent (result unit SnapshotError) :=
  if U32_MAX <? ow_uid owner then mret (Err SnArchive)
  else if U32_MAX <? ow_gid owner then mret (Err SnArchive)
  else
    changed ← ask rs_ok (RChown path (ow_uid owner) (ow_gid owner) (negb (ow_symlink owner)));
    if negb changed then mret (Err (SnIo "restore ownership"))
    else if ow_symlink owner then mret (Ok tt)
    else
      ok ← set_permissions path (ow_mode owner);
      mret (if (ok : bool) then Ok tt else Err (SnIo "restore ownership")).

Definition place (staging : string) (e : TarEntry) (ownership : option Ownership) (mtime : Z)
  : io RsEvent (result unit SnapshotError) :=
  if negb (te_path_ok e) then mret (Err SnArchive)
  else
    let path := path_join staging (te_path e) in
    unpacked ← ask (fun t => unpack_in t e) (RUnpack staging e);
    match unpacked with
    | Some true =>
        let!? _ := match ownership with Some owner => chown path owner | None => mret (Ok tt) end in
        set_mtime path mtime
    | Some false | None => mret (Err SnArchive)
    end.

(** [directories.sort_by(|a, b| b.path_bytes().cmp(&a.path_bytes()))]: stable, the
    greatest path first. *)
Definition Deferred : Type := TarEntry * option Ownership * Z.
Fixpoint insert_dir (d : Deferred) (l : list Deferred) : list Deferred :=
  match l with
  | [] => [d]
  | x :: l => if String.leb (te_path x.1.1) (te_path d.1.1) then d :: x :: l else x :: insert_dir d l
  end.
Definition sort_dirs (l : list Deferred) : list Deferred := foldr insert_dir [] l.

Fixpoint place_all (staging : string) (l : list Deferred) : io RsEvent (result unit SnapshotError) :=
  match l with
  | [] => mret (Ok tt)
  | (e, ownership, mtime) :: l => let!? _ := place staging e ownership mtime in place_all staging l
  end.

(** ** Unpack *)

Record Unpack := {
  up_stream : ChunkStream;
  up_buffer : string;
  up_eof : bool;
  up_root : option (Z * Z);
  up_dirs : list Deferred
}.

Definition up_read (u : Unpack) (s : ChunkStream) (piece : string) : Unpack :=
  {| up_stream := s; up_buffer := up_buffer u +:+ piece; up_eof := str_is_empty piece; up_root := up_root u;
     up_dirs := up_dirs u |}.
Definition up_with (u : Unpack) (rest : string) (root : option (Z * Z)) (dirs : list Deferred) : Unpack :=
  {| up_stream := up_stream u; up_buffer := rest; up_eof := up_eof u; up_root := root; up_dirs := dirs |}.

(** One entry: the root's metadata is kept, directories are kept for the end, the
    rest is placed. *)
Definition unpack_entry (staging : string) (u : Unpack) (e : TarEntry) (rest : string)
  : io RsEvent (result Unpack SnapshotError) :=
  match te_mode e, te_mtime e with
  | Some mode, Some mtime =>
      let mode := Z.land mode 4095 in
      if te_path e =s ROOT_ENTRY then mret (Ok (up_with u rest (Some (mode, mtime)) (up_dirs u)))
      else
        let owned :=
          if effective_uid =? 0 then
            match te_uid e, te_gid e with
            | Some uid, Some gid =>
                Ok (Some {| ow_uid := uid; ow_gid := gid; ow_mode := mode;
                            ow_symlink := match te_type e with Some TypeSymlink => true | _ => false end |})
            | _, _ => Err SnArchive
            end
          else Ok None in
        match owned with
        | Err error => mret (Err error)
        | Ok ownership =>
            match te_type e with
            | Some TypeDirectory => mret (Ok (up_with u rest (up_root u) (up_dirs u ++ [(e, ownership, mtime)])))
            | _ =>
                let!? _ := place staging e ownership mtime in
                mret (Ok (up_with u rest (up_root u) (up_dirs u)))
            end
        end
  | _, _ => mret (Err SnArchive)
  end.

Definition unpack_step (keys : ChunkKeys) (staging : string) (u : Unpack)
  : io RsEvent (Unpack + (Unpack * result unit SnapshotError)) :=
  match tar_next (up_eof u) (up_buffer u) with
  | TarNeed =>
      if up_eof u then mret (inr (u, Err SnArchive))
      else
        read ← stream_read keys (up_stream u) (Z.max 1 (tar_want (up_buffer u)));
        match read with
        | (s, Some piece) => mret (inl (up_read u s piece))
        | (s, None) => mret (inr (up_read u s EmptyString, Err SnArchive))
        end
  | TarYield e rest =>
      placed ← unpack_entry staging u e rest;
      match placed with
      | Ok u => mret (inl u)
      | Err error => mret (inr (u, Err error))
      end
  | TarDone => mret (inr (u, Ok tt))
  | TarFail => mret (inr (u, Err SnArchive))
  end.

(** Bytes still to come, at most. *)
Definition bytes_left (s : ChunkStream) : nat :=
  (String.length (cs_current s) + foldr (fun c n => Z.to_nat (mc_object_bytes c) + n) 0 (cs_left s))%nat.

Definition new_stream (chunks : list ManifestChunk) : ChunkStream :=
  {| cs_left := chunks; cs_current := EmptyString; cs_error := None |}.

Definition unpack (keys : ChunkKeys) (chunks : list ManifestChunk) (staging : string)
  : io RsEvent (ChunkStream * result (option (Z * Z)) SnapshotError) :=
  let s := new_stream chunks in
  r ← loop (2 * bytes_left s + 2) (unpack_step keys staging)
        {| up_stream := s; up_buffer := EmptyString; up_eof := false; up_root := None; up_dirs := [] |};
  match r with
  | (u, Err error) => mret (up_stream u, Err error)
  | (u, Ok _) =>
      placed ← place_all staging (sort_dirs (up_dirs u));
      mret (up_stream u, match placed with Ok _ => Ok (up_root u) | Err error => Err error end)
  end.

(** [io::copy] into the sink: read until the end. *)
Definition drain (keys : ChunkKeys) (s : ChunkStream) : io RsEvent (ChunkStream * bool) :=
  loop (bytes_left s + 1) (fun s =>
    read ← stream_read keys s 8192;
    match read with
    | (s, Some piece) => mret (if str_is_empty piece then inr (s, true) else inl s)
    | (s, None) => mret (inr (s, false))
    end) s.

Definition extract (m : Manifest) (dek staging : string) : io RsEvent (result RestoreReport SnapshotError) :=
  let keys := chunk_keys_new dek (mf_lineage m) in
  unpacked ← unpack keys (mf_chunks m) staging;
  match cs_error unpacked.1, unpacked.2 with
  | Some error, _ => mret (Err error)
  | None, Err error => mret (Err error)
  | None, Ok root =>
      drained ← drain keys unpacked.1;
      match cs_error drained.1 with
      | Some error => mret (Err error)
      | None =>
          if negb drained.2 then mret (Err SnArchive)
          else
            let!? _ :=
              match root with
              | Some (mode, mtime) =>
                  ok ← set_permissions staging mode;
                  if negb ok then mret (Err (SnIo "restore root")) else set_mtime staging mtime
              | None => mret (Ok tt)
              end in
            mret (Ok {| rr_chunks := Z.of_nat (length (mf_chunks m)); rr_plaintext_bytes := mf_plaintext_bytes m |})
      end
  end.

(** ** Cleaning up *)

(** Make every directory of the staging tree writable, depth first. *)
Fixpoint open_up (path : string) (n : Node) : io RsEvent bool :=
  match md_kind (nd_meta n) with
  | KindDir =>
      ok ← set_permissions path 448;
      if negb ok then mret false
      else
        match nd_listing n with
        | None => mret false
        | Some children =>
            (fix go (l : list (string * option Node)) : io RsEvent bool :=
               match l with
               | [] => mret true
               | (_, None) :: _ => mret false
               | (name, Some child) :: l =>
                   opened ← open_up (path +:+ "/" +:+ name) child;
                   if negb opened then mret false else go l
               end) children
        end
  | _ => mret true
  end.

Definition remove_staging (staging : string) : io RsEvent bool :=
  tree ← ask staging_tree RStagingTree;
  match tree with
  | None => mret false
  | Some n =>
      opened ← open_up staging n;
      if negb opened then mret false else ask rs_ok (RRemoveAll staging)
  end.

(** ** Restore *)

Definition check_target : io RsEvent (result unit SnapshotError) :=
  looked ← ask look_target RTargetLook;
  mret match looked with
       | TargetDir (Some true) | TargetMissing => Ok tt
       | TargetDir (Some false) | TargetFile => Err TargetNotEmpty
       | TargetDir None | TargetFault => Err (SnIo "target")
       end.

Definition staging_path (parent name suffix : string) : string :=
  path_join (if str_is_empty parent then "." else parent) ("." +:+ name +:+ ".restore-" +:+ suffix).

Definition target_path (parent name : string) : string :=
  if str_is_empty parent then name else path_join parent name.

(** The target, given as its parent and file name when it has both. *)
Definition restore (signed : SignedManifest) (dek : string) (trust : RestoreTrust) (target : option (string * string))
  : io RsEvent (result RestoreReport SnapshotError) :=
  let m := sm_manifest signed in
  match map_err SnManifest (verify_signature m (sm_signature signed) (tr_signer trust)) with
  | Err error => mret (Err error)
  | Ok _ =>
      match match tr_previous trust with Some p => map_err SnManifest (verify_successor p m) | None => Ok tt end with
      | Err error => mret (Err error)
      | Ok _ =>
          let!? _ := check_objects (mf_chunks m) in
          match target with
          | None => mret (Err InvalidTarget)
          | Some (parent, name) =>
              let!? _ := check_target in
              drawn ← ask rs_random RRandom;
              match drawn with
              | None => mret (Err SnRandomness)
              | Some bytes =>
                  let staging := staging_path parent name (hex_encode bytes) in
                  made ← ask rs_ok (RMakeStaging staging);
                  if negb made then mret (Err (SnIo "restore staging"))
                  else
                    extracted ← extract m dek staging;
                    result ← match extracted with
                             | Ok report =>
                                 ok ← ask rs_ok (RRename staging (target_path parent name));
                                 mret (if (ok : bool) then Ok report else Err (SnIo "restore rename"))
                             | Err error => mret (Err error)
                             end;
                    match result with
                    | Ok report => mret (Ok report)
                    | Err error =>
                        removed ← remove_staging staging;
                        mret (Err (if (removed : bool) then error else SnCleanup error))
                    end
              end
          end
      end
  end.

End Restore.

(** * Properties *)

(** A reader consumes something with every entry. *)
Class TarReaderLaws `{!TarReader} : Prop :=
  tar_progress eof buffer e rest :
    tar_next eof buffer = TarYield e rest -> (String.length rest < String.length buffer)%nat.

Section RestoreFacts.
Context `{!RestoreHost, !TarReader, !Encodings, !HexDecode, !Sha256, !Ed25519, !Aead, !Hkdf, !Hmac, !ChunkLaws}.

(** ** The stream opens every chunk it passes *)

(** The object of [chunk] was read and opened to [plaintext]. *)
Definition opened_as (keys : ChunkKeys) (es : list RsEvent) (chunk : ManifestChunk) (plaintext : string) : Prop :=
  exists content, In (RObjectRead (hex_encode (mc_id chunk)) (ReadContent content)) es /\
    len (str_take (mc_object_bytes chunk + 1) content) = mc_object_bytes chunk /\
    keys_open keys (mc_id chunk) (str_take (mc_object_bytes chunk + 1) content) = Ok plaintext.

(** Events that neither make, rename nor remove the staging directory. *)
Definition inner (e : RsEvent) : Prop :=
  match e with RMakeStaging _ _ | RRename _ _ _ | RRemoveAll _ _ => False | _ => True end.

Lemma load_does keys chunk :
  does (load keys chunk) (fun r es => Forall inner es /\
    match r with
    | Ok plaintext => opened_as keys es chunk plaintext /\
        (String.length plaintext <= Z.to_nat (mc_object_bytes chunk))%nat
    | Err _ => True
    end).
Proof.
  unfold load. eapply does_bind.
  { apply (does_ask _ _ (fun r es => es = [RObjectRead (hex_encode (mc_id chunk)) r])). done. }
  intros r es ->. apply does_ret. split; [by repeat constructor |]. destruct r as [| | |content]; try done.
  case Z.eqb_spec; intros Hl; [| done]. cbn [negb]. destruct (keys_open _ _ _) as [p|] eqn:Ho; [| done].
  cbn [map_err]. split; [exists content; split; [by left | done] |].
  apply open_sound in Ho as [_ Ho]. rewrite Hl in Ho. unfold len, CHUNK_OVERHEAD, CHUNK_NONCE_LEN, CHUNK_TAG_LEN in *. lia.
Qed.

Section Stream.
Context (keys : ChunkKeys) (all : list ManifestChunk).

(** The chunks passed so far were opened, and what was delivered is their contents up
    to the unread rest of the current one. *)
Record stream_inv (s : ChunkStream) (delivered : string) (ps : list string) (es : list RsEvent) : Prop := {
  sv_error : cs_error s = None;
  sv_quiet : Forall inner es;
  sv_done : exists done, all = done ++ cs_left s /\ Forall2 (opened_as keys es) done ps;
  sv_bytes : flat ps = delivered +:+ cs_current s
}.

Lemma opened_later es es' chunk p : opened_as keys es chunk p -> opened_as keys (es' ++ es) chunk p.
Proof. intros (content & Hin & Hr). exists content. split; [apply in_app_iff; by right | done]. Qed.

Lemma stream_inv_later s delivered ps es es' :
  Forall inner es' -> stream_inv s delivered ps es -> stream_inv s delivered ps (es' ++ es).
Proof.
  intros Hq [He Hi (done & Hall & Hf) Hb]. split; [done | by apply Forall_app | | done].
  exists done. split; [done |]. eapply Forall2_impl; [exact Hf |]. intros. by apply opened_later.
Qed.

Lemma stream_fill_does left : forall current delivered ps es,
  stream_inv {| cs_left := left; cs_current := current; cs_error := None |} delivered ps es ->
  does (stream_fill keys left current) (fun r es' =>
    Forall inner es' /\ (bytes_left r.1 <= bytes_left {| cs_left := left; cs_current := current; cs_error := None |})%nat /\
    if r.2 then (exists ps', stream_inv r.1 delivered ps' (es' ++ es)) /\ (cs_current r.1 = EmptyString -> cs_left r.1 = [])
    else cs_error r.1 <> None).
Proof.
  induction left as [|chunk left IH]; intros current delivered ps es Hinv; cbn [stream_fill].
  - assert (does (E := RsEvent) (mret ({| cs_left := []; cs_current := current; cs_error := None |}, true))
      (fun r es' => Forall inner es' /\
        (bytes_left r.1 <= bytes_left {| cs_left := []; cs_current := current; cs_error := None |})%nat /\
        if r.2 then (exists ps', stream_inv r.1 delivered ps' (es' ++ es)) /\ (cs_current r.1 = EmptyString -> cs_left r.1 = [])
        else cs_error r.1 <> None)) as Hd.
    { apply does_ret. split; [constructor |]. split; [done |]. split; [by exists ps | done]. }
    destruct current; exact Hd.
  - destruct current as [|a current].
    + eapply does_bind; [apply load_does |]. intros [plaintext|error] es1 [Hq Hload].
      * destruct Hload as [Ho Hlen].
        eapply does_conseq; [apply (IH plaintext delivered (ps ++ [plaintext]) (es1 ++ es)) |].
        { destruct Hinv as [_ Hi (done & Hall & Hf) Hb]. cbn [cs_left cs_current] in Hall, Hb.
          split; [done | by apply Forall_app | | rewrite flat_app, Hb; cbn [cs_current flat foldr]; by rewrite !str_app_nil_r].
          exists (done ++ [chunk]). split; [cbn [cs_left]; by rewrite <- app_assoc |].
          apply Forall2_app; [| constructor; [| constructor]].
          - eapply Forall2_impl; [exact Hf |]. intros. by apply opened_later.
          - destruct Ho as (content & Hin & ?). exists content. split; [apply in_app_iff; by left | done]. }
        intros r es2 (Hq2 & Hb2 & Hr). rewrite <- app_assoc. split; [by apply Forall_app |].
        split; [| done]. unfold bytes_left in *. cbn in *. lia.
      * apply does_ret. rewrite app_nil_l. split; [done |]. split; [done | done].
    + apply does_ret. split; [constructor |]. split; [done |]. split; [by exists ps | done].
Qed.

Lemma stream_read_does s delivered ps es want :
  1 <= want -> stream_inv s delivered ps es ->
  does (stream_read keys s want) (fun r es' => Forall inner es' /\
    match r.2 with
    | Some piece => (exists ps', stream_inv r.1 (delivered +:+ piece) ps' (es' ++ es)) /\
        (bytes_left r.1 + String.length piece <= bytes_left s)%nat /\
        (piece = EmptyString -> cs_left r.1 = [] /\ cs_current r.1 = EmptyString)
    | None => cs_error r.1 <> None
    end).
Proof.
  intros Hw Hinv. unfold stream_read. destruct s as [left current error]. pose proof (sv_error _ _ _ _ Hinv) as He.
  cbn in He. subst error. cbn [cs_error cs_left cs_current].
  eapply does_bind; [apply (stream_fill_does left current delivered ps es Hinv) |]. intros [s1 ok] es1 (Hq & Hb & Hok). apply does_ret. cbn [fst snd] in *.
  destruct ok; cbn [fst snd]; (split; [done |]); [| done].
  destruct Hok as [[ps' Hinv'] Hend]. set (n := Z.min want (len (cs_current s1))).
  pose proof (len_nonneg (cs_current s1)). assert (0 <= n <= len (cs_current s1)) as Hn by (unfold n; lia).
  pose proof (str_take_drop n (cs_current s1) ltac:(lia)) as Hsplit.
  split; [| split].
  - exists ps'. destruct Hinv' as [He' Hi (done & Hall & Hf) Hby]. split; [done | done | by exists done |].
    cbn. by rewrite str_app_assoc, Hsplit.
  - apply (f_equal len) in Hsplit. rewrite len_app in Hsplit. unfold bytes_left, len in *. cbn in *. lia.
  - intros Hp. rewrite Hp in Hsplit. change (str_drop (Z.to_nat n) (cs_current s1) = cs_current s1) in Hsplit.
    assert (cs_current s1 = EmptyString) as Hz.
    { apply (f_equal len) in Hsplit. rewrite str_drop_len in Hsplit.
      assert (len (cs_current s1) = 0) as Hz by (unfold n in *; lia). unfold len in Hz.
      by destruct (cs_current s1). }
    cbn. split; [by apply Hend | by rewrite Hsplit].
Qed.

(** ** Unpacking *)

Lemma set_mtime_inner path seconds : emits inner (set_mtime path seconds).
Proof. unfold set_mtime. solve_emits. Qed.

Lemma chown_inner path owner : emits inner (chown path owner).
Proof. unfold chown, set_permissions. solve_emits. Qed.

Lemma place_inner staging e ownership mtime : emits inner (place staging e ownership mtime).
Proof.
  unfold place. destruct (negb _); [apply emits_ret |]. apply emits_bind; [by apply emits_ask |].
  intros [[]|]; [| apply emits_ret ..]. apply emits_bind.
  - destruct ownership; [apply chown_inner | apply emits_ret].
  - intros [|]; [apply set_mtime_inner | apply emits_ret].
Qed.

Lemma place_all_inner staging l : emits inner (place_all staging l).
Proof.
  induction l as [|[[e o] mtime] l IH]; cbn [place_all]; [apply emits_ret |].
  apply emits_bind; [apply place_inner |]. intros [|]; [done | apply emits_ret].
Qed.

Lemma unpack_entry_does staging u e rest :
  does (unpack_entry staging u e rest) (fun r es => Forall inner es /\
    match r with Ok u' => up_stream u' = up_stream u /\ up_buffer u' = rest /\ up_eof u' = up_eof u | Err _ => True end).
Proof.
  unfold unpack_entry. destruct (te_mode e) as [mode|]; [| by apply does_ret].
  destruct (te_mtime e) as [mtime|]; [| by apply does_ret]. case str_eqb_spec; intros Hroot; [by apply does_ret |].
  set (owned := if _ =? 0 then _ else _). destruct owned as [ownership|]; [| by apply does_ret].
  destruct (te_type e) as [[]|]; try (by apply does_ret);
    (eapply does_bind; [apply (place_inner staging e ownership mtime) |]; intros [|] es Hes; by apply does_ret).
Qed.

Context `{!TarReaderLaws}.

Definition unpack_measure (u : Unpack) : nat :=
  (2 * bytes_left (up_stream u) + String.length (up_buffer u) + (if up_eof u then 0 else 1))%nat.
Definition streaming (s : ChunkStream) (es : list RsEvent) : Prop :=
  exists delivered ps, stream_inv s delivered ps es.

Lemma string_length_app a b : String.length (a +:+ b) = (String.length a + String.length b)%nat.
Proof. pose proof (len_app a b). unfold len in *. lia. Qed.

Lemma unpack_step_does staging u es :
  streaming (up_stream u) es ->
  does (unpack_step keys staging u) (fun r es' =>
    match r with
    | inl u' => streaming (up_stream u') (es' ++ es) /\ (unpack_measure u' < unpack_measure u)%nat
    | inr (u', r) => Forall inner (es' ++ es) /\ (r = Ok tt -> streaming (up_stream u') (es' ++ es))
    end).
Proof.
  intros (delivered & ps & Hinv). pose proof (sv_quiet _ _ _ _ Hinv) as Hq. unfold unpack_step.
  destruct (tar_next _ _) as [|e rest| |] eqn:Hn; try by apply does_ret.
  - destruct (up_eof u) eqn:Heof; [by apply does_ret |].
    eapply does_bind; [apply (stream_read_does _ _ _ _ _ (Z.le_max_l _ _) Hinv) |].
    intros [s' [piece|]] es1 [Hq1 Hr]; apply does_ret; rewrite app_nil_l; [| split; [by apply Forall_app | done]].
    cbn [fst snd] in Hr. destruct Hr as ((ps' & Hinv') & Hb & _).
    split; [by eexists _, _ |]. unfold unpack_measure, up_read. cbn. rewrite string_length_app, Heof.
    destruct piece; cbn in *; lia.
  - eapply does_bind; [apply unpack_entry_does |]. intros [u'|e'] es1 [Hq1 Hr]; apply does_ret; rewrite app_nil_l.
    + destruct Hr as (Hs & Hb & He). split; [exists delivered, ps; rewrite Hs; by apply stream_inv_later |].
      unfold unpack_measure. rewrite Hs, Hb, He. apply tar_progress in Hn. lia.
    + split; [by apply Forall_app | done].
  - apply does_ret. split; [done |]. intros _. by exists delivered, ps.
Qed.

Lemma new_stream_inv : stream_inv (new_stream all) EmptyString [] [].
Proof. split; try done. exists []. by split. Qed.

Lemma unpack_does staging :
  does (unpack keys all staging) (fun r es => Forall inner es /\
    match r.2 with Ok _ => streaming r.1 es | Err _ => True end).
Proof.
  unfold unpack. eapply does_bind.
  { eapply does_conseq; [apply (does_loop unpack_measure (fun u es => streaming (up_stream u) es) (unpack_step keys staging)
      (fun a es => Forall inner es /\ (a.2 = Ok tt -> streaming (up_stream a.1) es)))
      with (es := []) | intros a es Ha; exact Ha].
    - intros u es Hu. eapply does_conseq; [by apply unpack_step_does |]. by intros [u'|[u' r]].
    - exists EmptyString, []. apply new_stream_inv.
    - unfold unpack_measure. cbn [up_stream up_buffer up_eof String.length]. lia. }
  intros [u [[]|error]] es [Hq Hr]; rewrite app_nil_r in *; [| by apply does_ret].
  destruct (Hr eq_refl) as (delivered & ps & Hinv). cbn [fst] in Hinv.
  eapply does_bind; [apply (place_all_inner staging (sort_dirs (up_dirs u))) |]. intros [[]|] es1 Hq1; apply does_ret;
    rewrite app_nil_l; (split; [by apply Forall_app |]); [| done].
  exists delivered, ps. by apply stream_inv_later.
Qed.

Lemma drain_does s es :
  streaming s es ->
  does (drain keys s) (fun r es' => Forall inner (es' ++ es) /\
    if r.2 then exists ps, Forall2 (opened_as keys (es' ++ es)) all ps else cs_error r.1 <> None).
Proof.
  intros Hs. unfold drain. eapply (does_loop bytes_left (fun s es => streaming s es) _
    (fun (r : ChunkStream * bool) es => Forall inner es /\
      if r.2 then exists ps, Forall2 (opened_as keys es) all ps else cs_error r.1 <> None)); [| exact Hs | lia].
  clear s es Hs. intros s es (delivered & ps & Hinv). pose proof (sv_quiet _ _ _ _ Hinv) as Hq.
  eapply does_bind; [apply (stream_read_does s delivered ps es 8192 ltac:(done) Hinv) |].
  intros [s' [piece|]] es1 [Hq1 Hr]; apply does_ret; rewrite app_nil_l; cbn [fst snd] in *.
  - destruct Hr as ((ps' & Hinv') & Hb & Hend). destruct (str_is_empty piece) eqn:He.
    + assert (piece = EmptyString) as -> by (by destruct piece). destruct (Hend eq_refl) as [Hl Hc].
      split; [apply Hinv' |]. exists ps'. destruct (sv_done _ _ _ _ Hinv') as (done & Hall & Hf).
      rewrite Hall, Hl, app_nil_r. done.
    + split; [by eexists _, _ |]. destruct piece; [done |]. cbn in Hb. lia.
  - split; [by apply Forall_app | done].
Qed.

End Stream.

Lemma set_permissions_inner path mode : emits inner (set_permissions path mode).
Proof. by apply emits_ask. Qed.

Context `{!TarReaderLaws}.

Lemma extract_does m dek staging :
  let keys := chunk_keys_new dek (mf_lineage m) in
  does (extract m dek staging) (fun r es => Forall inner es /\
    match r with
    | Ok report => report = {| rr_chunks := Z.of_nat (length (mf_chunks m)); rr_plaintext_bytes := mf_plaintext_bytes m |} /\
        exists ps, Forall2 (opened_as keys es) (mf_chunks m) ps
    | Err _ => True
    end).
Proof.
  intros keys. unfold extract. fold keys. eapply does_bind; [by apply unpack_does |].
  intros [s [root|error]] es [Hq Hs]; cbn [fst snd] in *; [| destruct (cs_error s); by apply does_ret].
  destruct (cs_error s) eqn:He; [by apply does_ret |].
  eapply does_bind; [by apply (drain_does keys (mf_chunks m)) |]. intros [s' ok] es1 [Hq1 Hr]. cbn [fst snd] in *.
  destruct (cs_error s'); [by apply does_ret; rewrite app_nil_l |]. destruct ok; [cbn [negb] | done].
  destruct Hr as [ps Hf]. eapply does_bind.
  { instantiate (1 := fun _ es => Forall inner es). destruct root as [[mode mtime]|]; [| by apply does_ret].
    apply emits_bind; [apply set_permissions_inner |]. intros [|]; cbn [negb]; [apply set_mtime_inner | apply emits_ret]. }
  intros [[]|] es2 Hq2; apply does_ret; rewrite app_nil_l, <- ?app_assoc; (split; [by apply Forall_app |]); [| done].
  split; [done |]. exists ps. eapply Forall2_impl; [exact Hf |]. intros. by apply opened_later.
Qed.

(** ** Restore *)

Lemma open_up_inner n : forall path, emits inner (open_up path n).
Proof.
  induction n as [meta listing Hall] using Node_ind'. intros path. cbn [open_up nd_meta nd_listing].
  destruct (md_kind meta); try apply emits_ret. apply emits_bind; [apply set_permissions_inner |].
  intros [|]; cbn [negb]; [| apply emits_ret]. destruct listing as [children|]; [| apply emits_ret].
  induction Hall as [|[name [child|]] children Hc Hall IH]; [apply emits_ret | | apply emits_ret].
  apply emits_bind; [apply Hc |]. intros [|]; cbn [negb]; [apply IH | apply emits_ret].
Qed.

Lemma remove_staging_does staging :
  does (remove_staging staging) (fun ok es => Forall (fun e => inner e \/ exists b, e = RRemoveAll staging b) es /\
    (ok = true -> In (RRemoveAll staging true) es)).
Proof.
  assert (forall es, Forall inner es -> Forall (fun e => inner e \/ exists b, e = RRemoveAll staging b) es) as Hweak
    by (intros es Hes; eapply Forall_impl; [exact Hes | by left]).
  unfold remove_staging. eapply does_bind; [by apply (does_ask _ _ (fun _ es => Forall inner es)); repeat constructor |].
  intros [n|] es Hq; [| apply does_ret; rewrite app_nil_l; split; [by apply Hweak | done]].
  eapply does_bind; [apply open_up_inner |]. intros [|] es1 Hq1; cbn [negb]; [| apply does_ret; rewrite app_nil_l; split; [| done]].
  - apply does_ask. intros t. cbn [app]. split; [| intros ->; by left].
    constructor; [right; by eexists |]. by apply Hweak, Forall_app.
  - by apply Hweak, Forall_app.
Qed.

Lemma check_objects_inner chunks : emits inner (check_objects chunks).
Proof.
  induction chunks as [|chunk chunks IH]; cbn [check_objects]; [apply emits_ret |]. apply emits_bind.
  - unfold check_object. solve_emits.
  - intros [|]; [done | apply emits_ret].
Qed.

Lemma check_target_inner : emits inner check_target.
Proof. unfold check_target. solve_emits. Qed.

(** What has happened when [restore] returns. *)
Definition restored (signed : SignedManifest) (dek : string) (trust : RestoreTrust)
    (target : option (string * string)) (es : list RsEvent) (report : RestoreReport) : Prop :=
  let m := sm_manifest signed in
  (exists d, verify_signature m (sm_signature signed) (tr_signer trust) = Ok d) /\
  (forall p, tr_previous trust = Some p -> verify_successor p m = Ok tt) /\
  (exists ps, Forall2 (opened_as (chunk_keys_new dek (mf_lineage m)) es) (mf_chunks m) ps) /\
  report = {| rr_chunks := Z.of_nat (length (mf_chunks m)); rr_plaintext_bytes := mf_plaintext_bytes m |} /\
  exists parent name staging before, target = Some (parent, name) /\
    es = RRename staging (target_path parent name) true :: before /\
    forall s t, ~ In (RRename s t true) before.

Definition unrestored (es : list RsEvent) (error : SnapshotError) : Prop :=
  (forall s t, ~ In (RRename s t true) es) /\
  (forall staging, In (RMakeStaging staging true) es ->
     In (RRemoveAll staging true) es \/ exists e, error = SnCleanup e).

Lemma inner_unrestored es error : Forall inner es -> unrestored es error.
Proof.
  intros Hq. rewrite Forall_forall in Hq. split.
  - intros s t Hin. by apply list_elem_of_In, Hq in Hin.
  - intros staging Hin. by apply list_elem_of_In, Hq in Hin.
Qed.

Lemma inner_no_rename es s t : Forall inner es -> ~ In (RRename s t true) es.
Proof. intros Hq Hin. rewrite Forall_forall in Hq. by apply list_elem_of_In, Hq in Hin. Qed.

(** After the staging directory was made: the rename is the last event of a success,
    the removal follows every failure. *)
Lemma staged_does m dek staging target es0 :
  Forall inner es0 ->
  does (extracted ← extract m dek staging;
        result ← match extracted with
                 | Ok report =>
                     ok ← ask rs_ok (RRename staging target);
                     mret (if (ok : bool) then Ok report else Err (SnIo "restore rename"))
                 | Err error => mret (Err error)
                 end;
        match result with
        | Ok report => mret (Ok report)
        | Err error =>
            removed ← remove_staging staging;
            mret (Err (if (removed : bool) then error else SnCleanup error))
        end)
    (fun r es' => let es := es' ++ RMakeStaging staging true :: es0 in
       match r with
       | Ok report => exists before, es = RRename staging target true :: before /\
           (forall s t, ~ In (RRename s t true) before) /\
           report = {| rr_chunks := Z.of_nat (length (mf_chunks m)); rr_plaintext_bytes := mf_plaintext_bytes m |} /\
           exists ps, Forall2 (opened_as (chunk_keys_new dek (mf_lineage m)) es) (mf_chunks m) ps
       | Err error => unrestored es error
       end).
Proof.
  intros Hq0. eapply does_bind; [apply extract_does |]. intros extracted es1 [Hq1 Hex].
  eapply (does_bind (fun r es => match r with
    | Ok report => extracted = Ok report /\ es = [RRename staging target true]
    | Err _ => es = [] \/ es = [RRename staging target false]
    end)).
  { destruct extracted as [report|error]; [| apply does_ret; by left].
    eapply does_bind; [by apply (does_ask _ _ (fun ok es => es = [RRename staging target ok])) |].
    intros [|] es ->; apply does_ret; [done | by right]. }
  intros [report|error] es2 Hr.
  - destruct Hr as [-> ->]. destruct Hex as [Hrep [ps Hf]]. apply does_ret. rewrite app_nil_l. cbn [app].
    exists (es1 ++ RMakeStaging staging true :: es0). split; [done |]. split; [| split; [done |]].
    + intros s t [Hin|[Hin|Hin]%in_inv]%in_app_iff; [exact (inner_no_rename _ _ _ Hq1 Hin) | done | exact (inner_no_rename _ _ _ Hq0 Hin)].
    + exists ps. eapply Forall2_impl; [exact Hf |]. intros chunk p (content & Hin & ?). exists content.
      split; [right; apply in_app_iff; by left | done].
  - eapply does_bind; [apply remove_staging_does |]. intros removed es3 [Hq3 Hrem]. apply does_ret. rewrite app_nil_l.
    assert (forall s t, ~ In (RRename s t true) (((es3 ++ es2) ++ es1) ++ RMakeStaging staging true :: es0)) as Hno.
    { intros s t [[[Hin|Hin]%in_app_iff|Hin]%in_app_iff|[Hin|Hin]%in_inv]%in_app_iff; [| |
        exact (inner_no_rename _ _ _ Hq1 Hin) | done | exact (inner_no_rename _ _ _ Hq0 Hin)].
      - rewrite Forall_forall in Hq3. apply list_elem_of_In, Hq3 in Hin as [[]|[b [=]]].
      - destruct Hr as [->| ->]; [done |]. by destruct Hin as [[=]|[]]. }
    rewrite <- !app_assoc in Hno |- *. split; [done |]. intros st Hin.
    destruct removed; [left | right; by eexists]. apply in_app_iff. left. cut (st = staging); [intros ->; auto |].
    apply in_app_iff in Hin as [Hin|Hin].
    { rewrite Forall_forall in Hq3. apply list_elem_of_In, Hq3 in Hin as [[]|[b [=]]]. }
    apply in_app_iff in Hin as [Hin|Hin]; [destruct Hr as [->| ->]; [done | by destruct Hin as [[=]|[]]] |].
    apply in_app_iff in Hin as [Hin|[[= ->]|Hin]]; [| done |];
      rewrite Forall_forall in Hq0, Hq1; apply list_elem_of_In in Hin; by (apply Hq0 in Hin || apply Hq1 in Hin).
Qed.

(** ** What a run changes *)

(** The path an event changes, other than by a rename. The tar reader's
    [unpack_in] writes only below the directory it is given. *)
Definition changed_path (e : RsEvent) : option string :=
  match e with
  | RMakeStaging path _ | RUnpack path _ _ | RChown path _ _ _ _ | RChmod path _ _ | RMtime path _ _
  | RRemoveAll path _ => Some path
  | _ => None
  end.

Definition below (base path : string) : Prop := path = base \/ exists rest, path = base +:+ "/" +:+ rest.

(** An entry unpacked in this run has the absolute path [path]. *)
Definition absolute_entry (es : list RsEvent) (path : string) : Prop :=
  starts_with "/" path = true /\ exists staging e, In (RUnpack staging e (Some true)) es /\ te_path e = path.

(** Everything changed is the staging directory, below it, or the absolute path of
    an entry. *)
Definition stays (staging : string) (es : list RsEvent) : Prop :=
  forall e path, In e es -> changed_path e = Some path -> below staging path \/ absolute_entry es path.

Lemma absolute_entry_app es es' path : absolute_entry es path \/ absolute_entry es' path -> absolute_entry (es' ++ es) path.
Proof.
  intros [(Ha & st & e & Hin & Hp)|(Ha & st & e & Hin & Hp)]; (split; [done |]); exists st, e;
    (split; [apply in_app_iff; auto | done]).
Qed.

Lemma stays_nil staging : stays staging [].
Proof. by intros e path []. Qed.

Lemma stays_app staging es es' : stays staging es -> stays staging es' -> stays staging (es' ++ es).
Proof.
  intros Hs Hs' e path [Hin|Hin]%in_app_iff Hc; [destruct (Hs' e path Hin Hc) | destruct (Hs e path Hin Hc)]; auto;
    right; apply absolute_entry_app; auto.
Qed.

Lemma stays_below staging es : (forall e path, In e es -> changed_path e = Some path -> below staging path) -> stays staging es.
Proof. intros Hb e path Hin Hc. left. eauto. Qed.

Abbreviation confined staging m := (adds m (fun _ es => stays staging es)).

Lemma confined_ret {A} staging (a : A) : confined staging (mret a).
Proof. apply adds_ret, stays_nil. Qed.

Lemma confined_bind {A B} staging (m : io RsEvent A) (k : A -> io RsEvent B) :
  confined staging m -> (forall a, confined staging (k a)) -> confined staging (m ≫= k).
Proof.
  intros Hm Hk. eapply adds_bind; [exact Hm | done |]. intros a es Hes. eapply adds_conseq; [apply Hk |].
  intros o es' Hes'. by apply stays_app.
Qed.

Lemma confined_ask {A} staging (oracle : list RsEvent -> A) ev :
  (forall a path, changed_path (ev a) = Some path -> below staging path) -> confined staging (ask oracle ev).
Proof. intros He. apply adds_ask. intros a. apply stays_below. intros e path [<-|[]]. apply He. Qed.

Lemma confined_loop {X A} staging (body : X -> io RsEvent (X + A)) fuel x :
  (forall x, confined staging (body x)) -> confined staging (loop fuel body x).
Proof.
  intros Hb. eapply adds_conseq;
    [apply (adds_loop (fun _ es => stays staging es) body (fun _ es => stays staging es)) with (es := []) |].
  - done.
  - intros y es Hes. eapply adds_conseq; [apply Hb |]. intros [[|]|] es' Hes'; by apply stays_app.
  - apply stays_nil.
  - intros o es. cbv beta. by rewrite app_nil_r.
Qed.

Lemma confined_quiet {A} staging (m : io RsEvent A) : emits (fun e => changed_path e = None) m -> confined staging m.
Proof.
  intros Hm t. destruct (Hm t) as (r & es & Hr & Hes). exists (Some r), es. split; [done |]. apply stays_below.
  intros e path Hin Hc. rewrite Forall_forall in Hes. apply list_elem_of_In, Hes in Hin. congruence.
Qed.

Lemma set_permissions_confined staging path mode : below staging path -> confined staging (set_permissions path mode).
Proof. intros Hb. apply confined_ask. by intros a p [= <-]. Qed.

Lemma set_mtime_confined staging path seconds : below staging path -> confined staging (set_mtime path seconds).
Proof.
  intros Hb. unfold set_mtime. do 2 (case_match; [apply confined_ret |]).
  apply confined_bind; [apply confined_ask; by intros a p [= <-] | intros ?; apply confined_ret].
Qed.

(** Placing an entry touches the one path it is joined to; an absolute one is the
    entry's own. *)
Lemma place_confined staging e ownership mtime : confined staging (place staging e ownership mtime).
Proof.
  set (P := fun path ev => changed_path ev = Some path).
  assert (forall path, emits (P path) (set_mtime path mtime)) as Hmt by (intros; unfold set_mtime, P; solve_emits).
  assert (forall path owner, emits (P path) (chown path owner)) as Hch by (intros; unfold chown, set_permissions, P; solve_emits).
  apply adds_does. unfold place. destruct (negb _); [apply does_ret, stays_nil |].
  eapply does_bind; [by apply (does_ask _ _ (fun r es => es = [RUnpack staging e r])) |]. intros r es ->.
  assert (forall r, stays staging [RUnpack staging e r]) as Hun.
  { intros r'. apply stays_below. intros ev path [<-|[]] [= <-]. by left. }
  destruct r as [[]|]; [| apply does_ret; apply Hun ..].
  set (path := path_join staging (te_path e)).
  apply (does_conseq _ _ (fun _ es => Forall (P path) es)).
  { apply emits_bind; [destruct ownership; [apply Hch | apply emits_ret] |].
    intros [|]; [apply Hmt | apply emits_ret]. }
  intros r es Hes. intros ev q Hin Hc. apply in_app_iff in Hin as [Hin|[<-|[]]].
  - rewrite Forall_forall in Hes. apply list_elem_of_In, Hes in Hin. unfold P in Hin. rewrite Hc in Hin.
    injection Hin as ->. unfold path, path_join. destruct (starts_with "/" (te_path e)) eqn:Ha.
    + right. split; [done |]. exists staging, e. split; [apply in_app_iff; right; by left | done].
    + left. right. by exists (te_path e).
  - injection Hc as <-. left. by left.
Qed.

Lemma place_all_confined staging l : confined staging (place_all staging l).
Proof.
  induction l as [|[[e o] mtime] l IH]; cbn [place_all]; [apply confined_ret |].
  apply confined_bind; [apply place_confined |]. intros [|]; [done | apply confined_ret].
Qed.

Lemma load_quiet keys chunk : emits (fun e => changed_path e = None) (load keys chunk).
Proof. unfold load. solve_emits. Qed.

Lemma stream_read_confined keys s want staging : confined staging (stream_read keys s want).
Proof.
  apply confined_quiet.
  assert (forall left current, emits (fun e => changed_path e = None) (stream_fill keys left current)) as Hf.
  { induction left as [|chunk left IH]; intros [|a current]; cbn [stream_fill]; try apply emits_ret.
    apply emits_bind; [apply load_quiet |]. intros [|]; [apply IH | apply emits_ret]. }
  unfold stream_read. destruct (cs_error s); [apply emits_ret |]. apply emits_bind; [apply Hf |].
  intros ?. apply emits_ret.
Qed.

Lemma unpack_confined keys chunks staging : confined staging (unpack keys chunks staging).
Proof.
  unfold unpack. apply confined_bind.
  - apply confined_loop. intros u. unfold unpack_step. destruct (tar_next _ _) as [|e rest| |]; try apply confined_ret.
    + destruct (up_eof u); [apply confined_ret |]. apply confined_bind; [apply stream_read_confined |].
      intros [? [?|]]; apply confined_ret.
    + apply confined_bind; [| intros [|]; apply confined_ret]. unfold unpack_entry.
      destruct (te_mode e) as [mode|], (te_mtime e) as [mtime|]; try apply confined_ret.
      destruct (te_path e =s ROOT_ENTRY); [apply confined_ret |].
      match goal with |- context [match ?o with Ok _ => _ | Err _ => _ end] => destruct o as [ownership|] end;
        [| apply confined_ret].
      destruct (te_type e) as [[]|]; try apply confined_ret;
        (apply confined_bind; [apply place_confined |]; intros [|]; apply confined_ret).
  - intros [u [[]|]]; [| apply confined_ret]. apply confined_bind; [apply place_all_confined |].
    intros ?. apply confined_ret.
Qed.

Lemma extract_confined m dek staging : confined staging (extract m dek staging).
Proof.
  unfold extract. apply confined_bind; [apply unpack_confined |]. intros [s r].
  destruct (cs_error _); [apply confined_ret |]. destruct (snd _) as [root|]; [| apply confined_ret].
  apply confined_bind.
  { apply confined_loop. intros x. apply confined_bind; [apply stream_read_confined |].
    intros [? [?|]]; apply confined_ret. }
  intros [s' ok]. destruct (cs_error _); [apply confined_ret |]. destruct (negb _); [apply confined_ret |].
  apply confined_bind; [| intros [|]; apply confined_ret].
  destruct root as [[mode mtime]|]; [| apply confined_ret].
  apply confined_bind; [apply set_permissions_confined; by left |]. intros [|]; cbn [negb]; [| apply confined_ret].
  apply set_mtime_confined. by left.
Qed.

Lemma below_child base path name : below base path -> below base (path +:+ "/" +:+ name).
Proof.
  intros [->|[rest ->]]; right; [by exists name |]. exists (rest +:+ "/" +:+ name). by rewrite !str_app_assoc.
Qed.

Lemma open_up_confined staging n : forall path, below staging path -> confined staging (open_up path n).
Proof.
  induction n as [meta listing Hall] using Node_ind'. intros path Hb. cbn [open_up nd_meta nd_listing].
  destruct (md_kind meta); try apply confined_ret.
  apply confined_bind; [by apply set_permissions_confined |].
  intros [|]; cbn [negb]; [| apply confined_ret]. destruct listing as [children|]; [| apply confined_ret].
  induction Hall as [|[name [child|]] children Hc Hall IH]; [apply confined_ret | | apply confined_ret].
  apply confined_bind; [by apply Hc, below_child |]. intros [|]; cbn [negb]; [apply IH | apply confined_ret].
Qed.

Lemma remove_staging_confined staging : confined staging (remove_staging staging).
Proof.
  unfold remove_staging. apply confined_bind; [by apply confined_ask |]. intros [n|]; [| apply confined_ret].
  apply confined_bind; [apply open_up_confined; by left |]. intros [|]; cbn [negb]; [| apply confined_ret].
  apply confined_ask. intros a path [= <-]. by left.
Qed.

(** The target is not at or below the staging directory: its path is shorter. *)
Lemma target_not_below parent name suffix : ~ below (staging_path parent name suffix) (target_path parent name).
Proof.
  assert (len (target_path parent name) < len (staging_path parent name suffix)) as Hlt.
  { unfold target_path, staging_path, path_join. change (starts_with "/" ("." +:+ _)) with false. cbn match.
    pose proof (len_nonneg suffix). pose proof (len_nonneg name). pose proof (len_nonneg parent).
    destruct (str_is_empty parent); [| destruct (starts_with "/" name)]; rewrite !len_app;
      change (len "/") with 1; change (len ".") with 1; change (len ".restore-") with 9; lia. }
  intros [Heq|[rest Heq]]; rewrite Heq in Hlt; rewrite ?len_app in Hlt; [lia |].
  pose proof (len_nonneg rest). change (len "/") with 1 in Hlt. lia.
Qed.

Lemma stays_quiet staging es : Forall (fun e => changed_path e = None) es -> stays staging es.
Proof.
  intros Hq. apply stays_below. intros e path Hin Hc. rewrite Forall_forall in Hq.
  apply list_elem_of_In, Hq in Hin. congruence.
Qed.

(** A step that changes nothing leaves the choice of the staging directory open. *)
Lemma some_confined_bind {X A B} (st : X -> string) (m : io RsEvent A) (k : A -> io RsEvent B) :
  emits (fun e => changed_path e = None) m -> (forall a, adds (k a) (fun _ es => exists x, stays (st x) es)) ->
  adds (m ≫= k) (fun _ es => exists x, stays (st x) es).
Proof.
  intros Hm Hk. eapply adds_bind with (R := fun o es => o <> None /\ Forall (fun e => changed_path e = None) es).
  - intros t. destruct (Hm t) as (a & es & Hr & Hes). by exists (Some a), es.
  - by intros es [].
  - intros a es [_ Hes]. eapply adds_conseq; [apply Hk |]. intros o es' [x Hx]. exists x.
    apply stays_app; [by apply stays_quiet | done].
Qed.

Lemma check_objects_quiet chunks : emits (fun e => changed_path e = None) (check_objects chunks).
Proof.
  induction chunks as [|chunk chunks IH]; cbn [check_objects]; [apply emits_ret |].
  apply emits_bind; [unfold check_object; solve_emits |]. intros [|]; [done | apply emits_ret].
Qed.

Lemma restore_nowhere signed dek trust : emits (fun e => changed_path e = None) (restore signed dek trust None).
Proof.
  unfold restore. destruct (map_err _ _); [| apply emits_ret].
  match goal with |- context [match ?o with Ok _ => _ | Err _ => _ end] => destruct o end; [| apply emits_ret].
  apply emits_bind; [apply check_objects_quiet |]. intros [|]; apply emits_ret.
Qed.

Lemma restore_confined signed dek trust parent name :
  adds (restore signed dek trust (Some (parent, name)))
    (fun _ es => exists suffix, stays (staging_path parent name suffix) es).
Proof.
  assert (forall A (a : A), adds (E := RsEvent) (mret a) (fun _ es => exists suffix, stays (staging_path parent name suffix) es))
    as Hret by (intros; apply adds_ret; exists EmptyString; apply stays_nil).
  unfold restore. destruct (map_err _ _); [| apply Hret].
  match goal with |- context [match ?o with Ok _ => _ | Err _ => _ end] => destruct o end; [| apply Hret].
  apply some_confined_bind; [apply check_objects_quiet |]. intros [[]|]; [| apply Hret].
  apply some_confined_bind; [unfold check_target; solve_emits |]. intros [[]|]; [| apply Hret].
  apply some_confined_bind; [by apply emits_ask |]. intros [bytes|]; [| apply Hret].
  set (staging := staging_path parent name (hex_encode bytes)).
  eapply adds_conseq; [| intros o es Hes; exists (hex_encode bytes); exact Hes]. fold staging.
  apply confined_bind; [apply confined_ask; intros ? path [= <-]; by left |]. intros [|]; cbn [negb]; [| apply confined_ret].
  apply confined_bind; [apply extract_confined |]. intros extracted. apply confined_bind.
  { destruct extracted; [| apply confined_ret]. apply confined_bind; [by apply confined_ask | intros ?; apply confined_ret]. }
  intros [|]; [apply confined_ret |]. apply confined_bind; [apply remove_staging_confined | intros ?; apply confined_ret].
Qed.

Lemma restore_does signed dek trust target :
  does (restore signed dek trust target) (fun r es =>
    match r with Ok report => restored signed dek trust target es report | Err error => unrestored es error end).
Proof.
  assert (forall error, unrestored [] error) as Hnil by (intros; by apply inner_unrestored).
  unfold restore. destruct (verify_signature _ _ _) as [d|] eqn:Hv; cbn [map_err]; [| by apply does_ret].
  set (link := match tr_previous trust with Some _ => _ | None => _ end).
  assert (link = Ok tt -> forall p, tr_previous trust = Some p -> verify_successor p (sm_manifest signed) = Ok tt) as Hlink.
  { unfold link. intros Hl p Hp. rewrite Hp in Hl. by destruct (verify_successor p _) as [[]|]. }
  destruct link as [[]|]; [| by apply does_ret].
  eapply does_bind; [apply check_objects_inner |]. intros [[]|] es1 Hq1; [| apply does_ret; by apply inner_unrestored].
  destruct target as [[parent name]|]; [| apply does_ret; by apply inner_unrestored].
  eapply does_bind; [apply check_target_inner |].
  intros [[]|] es2 Hq2; [| apply does_ret; apply inner_unrestored; by repeat apply Forall_app_2].
  eapply does_bind; [apply (does_ask _ _ (fun _ es => Forall inner es)); by repeat constructor |].
  intros [bytes|] es3 Hq3;
    [| apply does_ret; apply inner_unrestored; by repeat apply Forall_app_2].
  set (staging := staging_path parent name (hex_encode bytes)).
  eapply does_bind; [by apply (does_ask _ _ (fun ok es => es = [RMakeStaging staging ok])) |].
  intros made es4 ->. destruct made; cbn [negb].
  - eapply does_conseq; [apply (staged_does (sm_manifest signed) dek staging (target_path parent name) (es3 ++ es2 ++ es1)) |].
    { by repeat apply Forall_app_2. }
    intros [report|error] es5; cbn zeta; [| by rewrite <- !app_assoc].
    intros (before & Hes & Hno & Hrep & Hps). rewrite <- !app_assoc. cbn [app].
    split; [by exists d |]. split; [by apply Hlink |]. split; [done |]. split; [done |].
    exists parent, name, staging, before. done.
  - apply does_ret. rewrite app_nil_l, <- !app_assoc. cbn [app]. split.
    + intros s t [[=]|Hin]. revert Hin. apply inner_no_rename. by repeat apply Forall_app_2.
    + intros st [[=]|Hin]. assert (Forall inner (es3 ++ es2 ++ es1)) as Hq by (by repeat apply Forall_app_2).
      rewrite Forall_forall in Hq. by apply list_elem_of_In, Hq in Hin.
Qed.

(** C8: restore is atomic. [restore] always returns. It renames the staging
    directory to the target only as its very last step, when the manifest's
    signature by the trusted key and its link to the trusted previous manifest
    verified and every chunk's object was read in this run and opened under its id;
    it then reports success. In every other case it fails without a rename, and a
    staging directory it made has been removed, or the error says it could not be.
    In every case whatever else is created, removed or given an owner, a mode or a
    time is at or below a staging directory that is not above the target, or is the
    absolute path of an entry of the archive: an archive of relative paths leaves
    the target alone until the rename. *)
Theorem restore_atomic signed dek trust target t :
  exists r es, restore signed dek trust target t = (Some r, es ++ t) /\
  match r with
  | Ok report => restored signed dek trust target es report
  | Err error => unrestored es error
  end /\
  match target with
  | Some (parent, name) =>
      (exists suffix, stays (staging_path parent name suffix) es) /\
      (forall e, In e es -> changed_path e = Some (target_path parent name) -> absolute_entry es (target_path parent name))
  | None => Forall (fun e => changed_path e = None) es
  end.
Proof.
  destruct (restore_does signed dek trust target t) as (r & es & Hr & Hres). exists r, es. split; [done |].
  split; [done |]. destruct target as [[parent name]|]; cycle 1.
  { destruct (restore_nowhere signed dek trust t) as (r' & es' & Hr' & Hes). rewrite Hr in Hr'.
    by injection Hr' as <- <-%app_inv_tail. }
  destruct (restore_confined signed dek trust parent name t) as (o & es' & Hr' & suffix & Hst).
  rewrite Hr in Hr'. injection Hr' as <- <-%app_inv_tail. split; [by exists suffix |].
  intros e Hin Hc. destruct (Hst e _ Hin Hc) as [Hb|]; [| done]. by apply target_not_below in Hb.
Qed.

(** ** Restoring what was written *)

(** A host that answers from the object directory [d] and where nothing fails. *)
Record faithful (d : Dir) : Prop := {
  fh_look t name : look_object t name =
    match d !! name with
    | Some (ObjFile content _) => LookFile (len content)
    | Some ObjOther => LookOther
    | None => LookMissing
    end;
  fh_read t name content synced : d !! name = Some (ObjFile content synced) -> read_object t name = ReadContent content;
  fh_target t : look_target t = TargetMissing \/ look_target t = TargetDir (Some true);
  fh_random t : exists bytes, rs_random t = Some bytes;
  fh_ok t : rs_ok t = true;
  fh_unpack t e : te_path_ok e = true -> unpack_in t e = Some true
}.

(** An entry whose header fields are in range. *)
Record entry_ok (e : TarEntry) : Prop := {
  eo_path : te_path_ok e = true;
  eo_nul : contains_nul (te_path e) = false;
  eo_mode : exists mode, te_mode e = Some mode;
  eo_mtime : exists mtime, te_mtime e = Some mtime /\ mtime <= TIME_MAX;
  eo_uid : exists uid, te_uid e = Some uid /\ uid <= U32_MAX;
  eo_gid : exists gid, te_gid e = Some gid /\ gid <= U32_MAX
}.

(** [G buffer future]: with [buffer] read and [future] still to come, in whatever
    pieces, the reader yields good entries to the end. *)
Record reads_archive (G : string -> string -> Prop) : Prop := {
  ra_piece buffer piece future : G buffer (piece +:+ future) -> G (buffer +:+ piece) future;
  ra_next buffer future : G buffer future ->
    match tar_next false buffer with
    | TarYield e rest => entry_ok e /\ G rest future
    | TarNeed | TarDone => True
    | TarFail => False
    end;
  ra_end buffer : G buffer EmptyString ->
    match tar_next true buffer with
    | TarYield e rest => entry_ok e /\ G rest EmptyString
    | TarDone => True
    | TarNeed | TarFail => False
    end
}.

Section RoundTrip.
Context (d : Dir) (keys : ChunkKeys) (Hhost : faithful d).

(** The object of [chunk] is in the directory, has the listed length and opens to [p]. *)
Definition available (chunk : ManifestChunk) (p : string) : Prop :=
  exists content synced, d !! hex_encode (mc_id chunk) = Some (ObjFile content synced) /\
    len content = mc_object_bytes chunk /\ keys_open keys (mc_id chunk) content = Ok p.

Record holds (s : ChunkStream) (future : string) : Prop := {
  ho_error : cs_error s = None;
  ho_bytes : exists ps, Forall2 available (cs_left s) ps /\ future = cs_current s +:+ flat ps
}.

Lemma load_available chunk p : available chunk p -> does (load keys chunk) (fun r _ => r = Ok p).
Proof.
  intros (content & synced & Hd & Hl & Ho). unfold load. eapply does_bind.
  { apply (does_ask _ _ (fun r _ => r = ReadContent content)). intros t. by eapply fh_read. }
  intros r es ->. apply does_ret.
  assert (str_take (mc_object_bytes chunk + 1) content = content) as ->.
  { unfold str_take. rewrite take_ge by (pose proof (bytes_len content); lia). apply String.string_of_list_ascii_of_string. }
  rewrite Hl, Z.eqb_refl. cbn [negb]. by rewrite Ho.
Qed.

Lemma stream_fill_holds left : forall current future,
  holds {| cs_left := left; cs_current := current; cs_error := None |} future ->
  does (stream_fill keys left current) (fun r _ => r.2 = true /\ holds r.1 future /\
    (cs_current r.1 = EmptyString -> cs_left r.1 = [])).
Proof.
  induction left as [|chunk left IH]; intros current future Hh; cbn [stream_fill].
  - destruct current; by apply does_ret.
  - destruct current; [| by apply does_ret]. destruct Hh as [_ (ps & Hf & ->)]. cbn [cs_left cs_current] in Hf.
    inversion Hf as [|? p ? ps' Hp Hf']; subst.
    eapply does_bind; [by apply load_available |]. intros r es ->.
    eapply does_conseq; [apply (IH p (p +:+ flat ps')); split; [done | by exists ps'] |]. done.
Qed.

Lemma stream_read_holds s future want :
  1 <= want -> holds s future ->
  does (stream_read keys s want) (fun r _ => exists piece future', r.2 = Some piece /\ future = piece +:+ future' /\
    holds r.1 future' /\ (piece = EmptyString -> future = EmptyString)).
Proof.
  intros Hw Hh. unfold stream_read. destruct s as [left current error]. pose proof (ho_error _ _ Hh) as He.
  cbn in He. subst error. cbn [cs_error cs_left cs_current].
  eapply does_bind; [by apply stream_fill_holds |]. intros [s1 ok] es1 (Hok & Hh1 & Hend). apply does_ret.
  cbn [fst snd] in *. subst ok. set (n := Z.min want (len (cs_current s1))).
  pose proof (len_nonneg (cs_current s1)). assert (0 <= n) as Hn by (unfold n; lia).
  pose proof (str_take_drop n (cs_current s1) Hn) as Hsplit. destruct Hh1 as [He1 (ps & Hf & ->)].
  exists (str_take n (cs_current s1)), (str_drop (Z.to_nat n) (cs_current s1) +:+ flat ps).
  split; [done |]. split; [by rewrite <- str_app_assoc, Hsplit |]. split; [split; [done | by exists ps] |].
  intros Hp. rewrite Hp in Hsplit. change (str_drop (Z.to_nat n) (cs_current s1) = cs_current s1) in Hsplit.
  assert (cs_current s1 = EmptyString) as Hz.
  { apply (f_equal len) in Hsplit. rewrite str_drop_len in Hsplit.
    assert (len (cs_current s1) = 0) as Hz by (unfold n in *; lia). unfold len in Hz. by destruct (cs_current s1). }
  rewrite (Hend Hz) in Hf. apply Forall2_nil_inv_l in Hf as ->. by rewrite Hz.
Qed.

Lemma contains_nul_app a b : contains_nul (a +:+ b) = contains_nul a || contains_nul b.
Proof. unfold contains_nul, bytes_any. by rewrite bytes_app, existsb_app. Qed.

Context (staging : string) (Hstaging : contains_nul staging = false).

Lemma path_join_nul path : contains_nul path = false -> contains_nul (path_join staging path) = false.
Proof. intros Hp. unfold path_join. destruct (starts_with _ _); [done |]. by rewrite !contains_nul_app, Hstaging, Hp. Qed.

Lemma set_mtime_works path seconds :
  contains_nul path = false -> seconds <= TIME_MAX -> does (set_mtime path seconds) (fun r _ => r = Ok tt).
Proof.
  intros Hn Hs. unfold set_mtime. rewrite Hn, (proj2 (Z.ltb_ge _ _)) by done. eapply does_bind.
  { apply (does_ask _ _ (fun r _ => r = true)). intros t. by eapply fh_ok. }
  intros r es ->. by apply does_ret.
Qed.

Lemma set_permissions_works path mode : does (set_permissions path mode) (fun r _ => r = true).
Proof. apply does_ask. intros t. by eapply fh_ok. Qed.

Lemma chown_works path owner :
  ow_uid owner <= U32_MAX -> ow_gid owner <= U32_MAX -> does (chown path owner) (fun r _ => r = Ok tt).
Proof.
  intros Hu Hg. unfold chown. rewrite !(proj2 (Z.ltb_ge _ _)) by done. eapply does_bind.
  { apply (does_ask _ _ (fun r _ => r = true)). intros t. by eapply fh_ok. }
  intros r es ->. cbn [negb]. destruct (ow_symlink owner); [by apply does_ret |].
  eapply does_bind; [apply set_permissions_works |]. intros ok es1 ->. by apply does_ret.
Qed.

(** An owner and an mtime that an entry in range has. *)
Definition deferred_ok (x : Deferred) : Prop :=
  entry_ok x.1.1 /\ x.2 <= TIME_MAX /\
  match x.1.2 with Some owner => ow_uid owner <= U32_MAX /\ ow_gid owner <= U32_MAX | None => True end.

Lemma place_works x : deferred_ok x -> does (place staging x.1.1 x.1.2 x.2) (fun r _ => r = Ok tt).
Proof.
  destruct x as [[e ownership] mtime]. intros ([Hp Hn _ _ _ _] & Hm & Ho). cbn [fst snd] in *. unfold place. rewrite Hp.
  cbn [negb]. eapply does_bind.
  { apply (does_ask _ _ (fun r _ => r = Some true)). intros t. by eapply fh_unpack. }
  intros r es ->. eapply (does_bind (fun r _ => r = Ok tt)).
  { destruct ownership as [owner|]; [apply chown_works; apply Ho | by apply does_ret]. }
  intros r es1 ->. eapply does_conseq; [apply set_mtime_works; [by apply path_join_nul | done] | done].
Qed.

Lemma place_all_works l : Forall deferred_ok l -> does (place_all staging l) (fun r _ => r = Ok tt).
Proof.
  induction 1 as [|[[e o] m] l Hx Hl IH]; cbn [place_all]; [by apply does_ret |].
  eapply does_bind; [apply (place_works (e, o, m)); done |]. intros r es ->. done.
Qed.

Lemma insert_dir_perm x l : insert_dir x l ≡ₚ x :: l.
Proof. induction l as [|y l IH]; cbn [insert_dir]; [done |]. destruct (String.leb _ _); [done |]. rewrite IH. solve_Permutation. Qed.

Lemma sort_dirs_perm l : sort_dirs l ≡ₚ l.
Proof. induction l as [|x l IH]; cbn; [done |]. by rewrite insert_dir_perm, IH. Qed.

(** The state of the unpacking between two entries. *)
Definition unpacking (G : string -> string -> Prop) (u : Unpack) : Prop :=
  exists future, holds (up_stream u) future /\ G (up_buffer u) future /\
    (up_eof u = true -> future = EmptyString) /\ Forall deferred_ok (up_dirs u) /\
    (forall mode mtime, up_root u = Some (mode, mtime) -> mtime <= TIME_MAX).

Lemma unpack_entry_works G u e rest future :
  holds (up_stream u) future -> G rest future -> (up_eof u = true -> future = EmptyString) ->
  Forall deferred_ok (up_dirs u) -> (forall mode mtime, up_root u = Some (mode, mtime) -> mtime <= TIME_MAX) ->
  entry_ok e ->
  does (unpack_entry staging u e rest) (fun r _ => exists u', r = Ok u' /\ unpacking G u').
Proof.
  intros Hh HG Heof Hd Hroot Hok. pose proof Hok as [_ _ [mode Hm] (mtime & Ht & Htm) (uid & Hu & Hum) (gid & Hg & Hgm)].
  unfold unpack_entry. rewrite Hm, Ht, Hu, Hg. case str_eqb_spec; intros Hr.
  { apply does_ret. eexists. split; [done |]. exists future. do 4 (split; [done |]). by intros ? ? [= <- <-]. }
  set (owned := if _ =? 0 then _ else _).
  assert (exists o, owned = Ok o /\ deferred_ok (e, o, mtime)) as (o & -> & Hdef).
  { unfold owned. destruct (_ =? 0); eexists; (split; [done |]); split; done. }
  assert (unpacking G (up_with u rest (up_root u) (up_dirs u))) as Hstay by (by exists future).
  destruct (te_type e) as [[]|];
    try (eapply does_bind; [apply (place_works _ Hdef) |]; intros r es ->; apply does_ret; by eexists).
  apply does_ret. eexists. split; [done |]. exists future. do 3 (split; [done |]). split; [| done].
  apply Forall_app_2; [done |]. by apply Forall_singleton.
Qed.

Lemma unpack_step_works G u :
  reads_archive G -> unpacking G u ->
  does (unpack_step keys staging u) (fun r _ =>
    match r with inl u' => unpacking G u' | inr (u', r) => r = Ok tt /\ unpacking G u' end).
Proof.
  intros [Hpiece Hnext Hend] (future & Hh & HG & Heof & Hd & Hroot). unfold unpack_step.
  destruct (up_eof u) eqn:He.
  - specialize (Heof eq_refl) as ->. specialize (Hend _ HG). destruct (tar_next true _) as [|e rest| |]; try done.
    + destruct Hend as [Hok HG']. eapply does_bind; [apply (unpack_entry_works G u e rest EmptyString); try done; by rewrite He |].
      intros r es (u' & -> & Hu). by apply does_ret.
    + apply does_ret. split; [done |]. exists EmptyString. by rewrite He.
  - specialize (Hnext _ _ HG). destruct (tar_next false _) as [|e rest| |]; try done.
    + eapply does_bind; [apply (stream_read_holds _ future _ (Z.le_max_l _ _) Hh) |].
      intros [s' r] es (piece & future' & Hr & -> & Hh' & Hp). cbn in Hr. subst r. apply does_ret. exists future'.
      split; [done |]. split; [by apply Hpiece |]. split; [| done]. cbn. intros Hz.
      assert (piece = EmptyString) as -> by (by destruct piece). by apply Hp.
    + destruct Hnext as [Hok HG']. eapply does_bind; [apply (unpack_entry_works G u e rest future); try done; by rewrite He |].
      intros r es (u' & -> & Hu). by apply does_ret.
    + apply does_ret. split; [done |]. exists future. by rewrite He.
Qed.

Context (chunks : list ManifestChunk) (ps : list string) (G : string -> string -> Prop).
Context (Hav : Forall2 available chunks ps) (HG : G EmptyString (flat ps)) (HR : reads_archive G).

Lemma unpack_works :
  does (unpack keys chunks staging) (fun r es => streaming keys chunks r.1 es /\
    exists root future, r.2 = Ok root /\ holds r.1 future /\
      forall mode mtime, root = Some (mode, mtime) -> mtime <= TIME_MAX).
Proof.
  unfold unpack. eapply does_bind.
  { eapply does_conseq; [apply (does_loop unpack_measure (fun u es => streaming keys chunks (up_stream u) es /\ unpacking G u)
      (unpack_step keys staging) (fun a es => streaming keys chunks (up_stream a.1) es /\ a.2 = Ok tt /\ unpacking G a.1))
      with (es := []) | intros a es Ha; exact Ha].
    - intros u es [Hs Hu]. eapply does_conseq; [apply does_and; [by apply unpack_step_does | by apply (unpack_step_works G u)] |].
      intros [u'|[u' r]] es1; [naive_solver |]. intros [[_ Hst] [-> Hu']]. split; [by apply Hst | done].
    - split; [exists EmptyString, []; apply new_stream_inv |]. exists (flat ps). split; [split; [done | by exists ps] |].
      split; [done |]. split; [done |]. split; [constructor | done].
    - unfold unpack_measure. cbn [up_stream up_buffer up_eof String.length]. lia. }
  intros [u r] es (Hs & Hr & future & Hh & _ & _ & Hd & Hroot). rewrite app_nil_r in *. cbn [fst snd] in *. subst r.
  eapply does_bind; [apply does_and; [apply (place_all_inner staging (sort_dirs (up_dirs u))) | apply place_all_works; by rewrite sort_dirs_perm] |].
  intros r es1 [Hq ->]. apply does_ret. rewrite app_nil_l. split.
  - destruct Hs as (delivered & qs & Hinv). exists delivered, qs. by apply stream_inv_later.
  - by exists (up_root u), future.
Qed.

Lemma drain_works s es :
  streaming keys chunks s es -> (exists future, holds s future) ->
  does (drain keys s) (fun r _ => r.2 = true /\ cs_error r.1 = None).
Proof.
  intros Hs Hh. unfold drain.
  eapply (does_loop bytes_left (fun s es => streaming keys chunks s es /\ exists future, holds s future) _
    (fun (r : ChunkStream * bool) (_ : list RsEvent) => r.2 = true /\ cs_error r.1 = None)) with (es := es); [| done | lia].
  clear s es Hs Hh. intros s es [(delivered & qs & Hinv) [future Hh]].
  eapply does_bind; [apply does_and; [apply (stream_read_does keys chunks s delivered qs es 8192 ltac:(done) Hinv) |
    apply (stream_read_holds s future 8192 ltac:(done) Hh)] |].
  intros [s' r] es1 [[Hq Hr] (piece & future' & He & _ & Hh' & _)]. cbn [fst snd] in *. subst r. cbn in Hr.
  destruct Hr as ((qs' & Hinv') & Hb & _). apply does_ret. rewrite app_nil_l.
  destruct piece; cbn [str_is_empty]; [split; [done | apply Hh'] |].
  split; [split; [by eexists _, _ | by exists future'] |]. cbn in Hb. lia.
Qed.

Lemma extract_works m dek :
  keys = chunk_keys_new dek (mf_lineage m) -> chunks = mf_chunks m ->
  does (extract m dek staging) (fun r _ => exists report, r = Ok report).
Proof.
  intros Hk Hc. unfold extract. rewrite <- Hk, <- Hc. eapply does_bind; [apply unpack_works |].
  intros [s r] es (Hs & root & future & Hr & Hh & Hroot). cbn [fst snd] in *. subst r.
  rewrite (ho_error _ _ Hh). eapply does_bind; [apply (drain_works s es Hs); by exists future |].
  intros [s' ok] es1 [Hok He]. cbn [fst snd] in *. rewrite He, Hok. cbn [negb].
  eapply (does_bind (fun r _ => r = Ok tt)).
  - destruct root as [[mode mtime]|]; [| by apply does_ret].
    eapply does_bind; [apply set_permissions_works |]. intros r es2 ->. cbn [negb].
    eapply does_conseq; [apply set_mtime_works; [done | by eapply Hroot] | done].
  - intros r es2 ->. apply does_ret. by eexists.
Qed.

End RoundTrip.

Context `{!ObjectNames}.

Lemma hex_no_nul bytes : contains_nul (hex_encode bytes) = false.
Proof.
  pose proof (hex_name_text bytes) as Ht. unfold contains_nul, bytes_all, bytes_any in *.
  induction (Prelude.bytes (hex_encode bytes)) as [|a l IH]; [done |]. cbn [forallb existsb] in *.
  apply andb_true_iff in Ht as [Ha Ht]. rewrite IH by done. rewrite orb_false_r.
  unfold byte_is, is_ascii_digit, byte_between in *. destruct a as [[] [] [] [] [] [] [] []]; done.
Qed.

Lemma staging_no_nul parent name bytes :
  contains_nul parent = false -> contains_nul name = false ->
  contains_nul (staging_path parent name (hex_encode bytes)) = false.
Proof.
  intros Hp Hn. unfold staging_path. apply path_join_nul; [by destruct parent |].
  by rewrite !contains_nul_app, Hn, hex_no_nul.
Qed.

Lemma check_objects_work d keys chunks ps :
  faithful d -> Forall2 (available d keys) chunks ps ->
  Forall (fun c => mc_plaintext_bytes c <= MAX_CHUNK_PLAINTEXT_BYTES /\
                   mc_object_bytes c = mc_plaintext_bytes c + CHUNK_OVERHEAD) chunks ->
  does (check_objects chunks) (fun r _ => r = Ok tt).
Proof.
  intros Hh. induction 1 as [|c p chunks ps (content & synced & Hd & Hl & _) Hf IH]; intros Hok; cbn [check_objects];
    [by apply does_ret |]. apply Forall_cons in Hok as [[Hm Ho] Hok].
  eapply (does_bind (fun r _ => r = Ok tt)).
  - unfold check_object. rewrite (proj2 (Z.ltb_ge _ _)) by done. rewrite <- Ho, Z.eqb_refl. cbn [negb].
    eapply does_bind.
    { apply (does_ask _ _ (fun r _ => r = LookFile (len content))). intros t. rewrite (fh_look _ Hh), Hd. done. }
    intros r es ->. apply does_ret. by rewrite Hl, Z.eqb_refl.
  - intros r es ->. by apply IH.
Qed.

Lemma restore_works d signed dek trust parent name ps G :
  let m := sm_manifest signed in
  faithful d -> (exists dg, verify_signature m (sm_signature signed) (tr_signer trust) = Ok dg) ->
  (forall p, tr_previous trust = Some p -> verify_successor p m = Ok tt) ->
  Forall2 (available d (chunk_keys_new dek (mf_lineage m))) (mf_chunks m) ps ->
  Forall (fun c => mc_plaintext_bytes c <= MAX_CHUNK_PLAINTEXT_BYTES /\
                   mc_object_bytes c = mc_plaintext_bytes c + CHUNK_OVERHEAD) (mf_chunks m) ->
  contains_nul parent = false -> contains_nul name = false ->
  reads_archive G -> G EmptyString (flat ps) ->
  does (restore signed dek trust (Some (parent, name))) (fun r _ => exists report, r = Ok report).
Proof.
  intros m Hh [dg Hv] Hlink Hav Hok Hp Hn HR HG. unfold restore. fold m. rewrite Hv. cbn [map_err].
  assert (match tr_previous trust with Some p => map_err SnManifest (verify_successor p m) | None => Ok tt end = Ok tt) as ->.
  { destruct (tr_previous trust) as [p|]; [| done]. by rewrite (Hlink p eq_refl). }
  eapply does_bind; [by eapply check_objects_work |]. intros r es ->.
  eapply (does_bind (fun r _ => r = Ok tt)).
  { unfold check_target. eapply does_bind.
    - apply (does_ask _ _ (fun r _ => r = TargetMissing \/ r = TargetDir (Some true))). intros t. by eapply fh_target.
    - intros r es1 [->| ->]; by apply does_ret. }
  intros r es1 ->. eapply does_bind.
  { apply (does_ask _ _ (fun r _ => exists bytes, r = Some bytes)). intros t. by eapply fh_random. }
  intros r es2 [bytes ->]. eapply does_bind.
  { apply (does_ask _ _ (fun r _ => r = true)). intros t. by eapply fh_ok. }
  intros r es3 ->. cbn [negb]. eapply does_bind.
  { eapply (extract_works d _ Hh _ (staging_no_nul parent name bytes Hp Hn) (mf_chunks m) ps G); done. }
  intros r es4 [report ->]. eapply (does_bind (fun r _ => r = Ok report)).
  { eapply does_bind; [apply (does_ask _ _ (fun r _ => r = true)); intros t; by eapply fh_ok |].
    intros r es5 ->. by apply does_ret. }
  intros r es5 ->. apply does_ret. by eexists.
Qed.

(** C9: snapshots restore. Take any successful [write], and restore its snapshot from
    the object directory it left, trusting its signer and the previous manifest, on a
    host where nothing fails. If the archive's chunks have distinct ids, and an object
    that was in the directory before under one of those ids opens to that chunk, then
    the tar reader is fed exactly the bytes the tar builder wrote, and whenever the
    reader accepts those bytes [restore] succeeds. *)
Theorem snapshots_restore `{!SnapshotHost, !RandomLaws, !FastCdc, !FastCdcLaws, !TarBuilder}
    initial p dek lineage previous signer snapshot t :
  let keys := chunk_keys_new dek (ln_lineage lineage) in
  write initial p dek lineage previous signer [] = (Some (Ok snapshot), t) ->
  exists root entries skipped items ps,
    check_places p = Ok root /\ collect_entries root = Some (Ok (entries, skipped)) /\
    Forall2 (archived t) entries items /\ flat ps = archive_bytes items /\
    mf_chunks (sm_manifest (sn_signed snapshot)) = map (described keys) ps /\
    ((forall a b, a ∈ ps -> b ∈ ps -> keys_chunk_id keys a = keys_chunk_id keys b -> a = b) ->
     (forall a content synced, a ∈ ps ->
        initial !! hex_encode (keys_chunk_id keys a) = Some (ObjFile content synced) ->
        keys_open keys (keys_chunk_id keys a) content = Ok a) ->
     faithful (files initial t) ->
     forall parent name G, contains_nul parent = false -> contains_nul name = false ->
       reads_archive G -> G EmptyString (archive_bytes items) ->
       forall t0, exists report es,
         restore (sn_signed snapshot) dek {| tr_signer := signer_key signer; tr_previous := previous |}
           (Some (parent, name)) t0 = (Some (Ok report), es ++ t0)).
Proof.
  intros keys Hw. destruct (write_runs initial p dek lineage previous signer [] I eq_refl) as (r & es & Hr & Hs & Hq).
  rewrite app_nil_r in *. rewrite Hw in Hr. injection Hr as <- ->.
  destruct Hq as (Hlin & Hv & Hl & root & entries & skipped & items & ps & Hp0 & Hc0 & Hf0 & Hfl & Hcut & Hch & [Hst Horigin]).
  fold keys in Hch, Hst, Horigin. exists root, entries, skipped, items, ps. do 5 (split; [done |]).
  intros Hinj Hinit Hh parent name G Hp Hn HR HG t0.
  destruct (restore_works (files initial es) (sn_signed snapshot) dek
    {| tr_signer := signer_key signer; tr_previous := previous |} parent name ps G) with (t := t0)
    as (r & es1 & Hrun & [report ->]); try done.
  - cbn. intros q ->. done.
  - rewrite Hlin. fold keys. rewrite Hch. apply Forall2_fmap_l, Forall_Forall2_diag.
    rewrite Forall_forall in Hst |- *. intros a Ha. destruct (Hst a Ha) as (content & synced & Hlook & Hlen).
    exists content, synced. split; [done |]. split; [done |].
    destruct (Horigin _ _ Hlook) as [Hi|(nonce & q & Hq & Hnl & Hid & [= -> ->])]; [by eapply Hinit |].
    apply Hinj in Hid as ->; [by apply seal_open | done | done].
  - rewrite Hch. apply Forall_fmap. apply cuts_bounded in Hcut. eapply Forall_impl; [exact Hcut |].
    intros a Ha. cbn. unfold MAX_CHUNK_PLAINTEXT_BYTES, CHUNK_MAX_BYTES in *. lia.
  - by rewrite Hfl.
  - by exists report, es1.
Qed.

(** C33: where an entry's metadata goes. Placing an entry unpacks it into the staging
    directory and then changes the owner, mode and mtime of one path only. For a
    relative entry path that is a path below the staging directory. For an absolute
    one it is the absolute path itself: [Path::join] drops the staging directory,
    while the tar reader strips the leading slash and unpacks below it. *)
Theorem place_touches staging e ownership mtime t :
  exists r es, place staging e ownership mtime t = (Some r, es ++ t) /\
  Forall (fun ev =>
    match ev with
    | RUnpack s e' _ => s = staging /\ e' = e
    | RChown path _ _ _ _ | RChmod path _ _ | RMtime path _ _ =>
        path = (if starts_with "/" (te_path e) then te_path e else staging +:+ "/" +:+ te_path e)
    | _ => False
    end) es /\
  (starts_with "/" (te_path e) = true -> contains_nul (te_path e) = false -> 0 <= mtime <= TIME_MAX ->
   te_path_ok e = true -> ownership = None -> unpack_in t e = Some true ->
   exists ok, In (RMtime (te_path e) mtime ok) es).
Proof.
  revert t. fold (path_join staging (te_path e)).
  set (P := fun ev => match ev with
    | RUnpack s e' _ => s = staging /\ e' = e
    | RChown path _ _ _ _ | RChmod path _ _ | RMtime path _ _ => path = path_join staging (te_path e)
    | _ => False
    end).
  assert (emits P (set_mtime (path_join staging (te_path e)) mtime)) as Hmt by (unfold set_mtime; solve_emits).
  assert (emits P (place staging e ownership mtime)) as Hem.
  { unfold place. destruct (negb _); [apply emits_ret |]. apply emits_bind; [by apply emits_ask |].
    intros [[]|]; [| apply emits_ret ..]. apply emits_bind.
    - destruct ownership; [unfold chown, set_permissions; solve_emits | apply emits_ret].
    - intros [|]; [done | apply emits_ret]. }
  intros t. destruct (Hem t) as (r & es & Hr & Hes). exists r, es. split; [done |]. split; [done |].
  intros Ha Hn [_ Hm] Hp -> Hu. revert Hr. unfold place, path_join. rewrite Hp, Ha. cbn [negb].
  unfold mbind, io_bind, ask. rewrite Hu. cbn beta iota. unfold mret at 1, io_ret at 1.
  unfold set_mtime, mbind, io_bind, ask. rewrite Hn, (proj2 (Z.ltb_ge _ _)) by done.
  intros [= _ He]. eexists. apply (app_inv_tail t [_; _]) in He as <-. by left.
Qed.

End RestoreFacts.

(** ** Examples *)

(** A reader that takes the whole stream as one file, on a host that answers from
    a given object directory. *)
Definition sample_entry (path : string) : TarEntry :=
  {| te_path := path; te_path_ok := true; te_mode := Some 420; te_mtime := Some 1000; te_uid := Some 0;
     te_gid := Some 0; te_type := Some TypeRegular; te_data := EmptyString |}.
Definition sample_reader : TarReader :=
  {| tar_want := fun _ => 512;
     tar_next := fun eof buffer =>
       if eof then match buffer with EmptyString => TarDone | _ => TarYield (sample_entry "b") EmptyString end
       else TarNeed |}.
Definition sample_restore_host (d : Dir) (uid : Z) : RestoreHost :=
  {| look_object := fun _ name =>
       match d !! name with
       | Some (ObjFile content _) => LookFile (len content)
       | Some ObjOther => LookOther
       | None => LookMissing
       end;
     read_object := fun _ name =>
       match d !! name with Some (ObjFile content _) => ReadContent content | _ => ReadMissing end;
     look_target := fun _ => TargetMissing; rs_random := fun _ => Some (repeat_byte 8 "r"); rs_ok := fun _ => true;
     unpack_in := fun _ _ => Some true; staging_tree := fun _ => None; effective_uid := uid |}.

Lemma sample_reader_laws : @TarReaderLaws sample_reader.
Proof. intros [] [|a b] e rest; cbn; try done. intros [= _ <-]. cbn. lia. Qed.

Lemma sample_faithful d uid : @faithful (sample_restore_host d uid) d.
Proof.
  split; try done.
  - intros t name content synced Hl. cbn. by rewrite Hl.
  - by left.
  - intros t. by eexists.
Qed.

Lemma sample_reads : @reads_archive sample_reader (fun _ _ => True).
Proof.
  assert (entry_ok (sample_entry "b")) as Hok by (split; try done; by eexists).
  split; try done. intros [|a b] _; done.
Qed.

(** The restore of the sample snapshot from its objects, and with one of them gone
    when it is read. *)
Definition sample_signed : SignedManifest :=
  match sample_write with
  | (Some (Ok snapshot), _) => sn_signed snapshot
  | _ => {| sm_manifest := sample_manifest 1 None; sm_signature := EmptyString |}
  end.
Definition sample_lossy_host : RestoreHost :=
  {| look_object := @look_object (sample_restore_host (files ∅ sample_write.2) 0);
     read_object := fun _ _ => ReadMissing;
     look_target := fun _ => TargetMissing; rs_random := fun _ => Some (repeat_byte 8 "r"); rs_ok := fun _ => true;
     unpack_in := fun _ _ => Some true; staging_tree := fun _ => Some (node (sample_meta KindDir) (Some []));
     effective_uid := 0 |}.
Definition sample_restore (host : RestoreHost) : option (result RestoreReport SnapshotError) * list RsEvent :=
  @restore host sample_reader sample_encodings (fun s => sample_unhex s) sample_sha sample_ed25519
    sample_aead sample_hkdf sample_hmac sample_signed "dek"
    {| tr_signer := signer_key sample_signer; tr_previous := None |} (Some ("/data", "state")) [].
Lemma restore_atomic_witness :
  (exists report es staging before, sample_restore (sample_restore_host (files ∅ sample_write.2) 0) =
       (Some (Ok report), es ++ []) /\
     es = RRename staging "/data/state" true :: before /\
     forall e, In e es -> changed_path e = Some "/data/state" -> absolute_entry es "/data/state") /\
  (exists error es, sample_restore sample_lossy_host = (Some (Err error), es ++ []) /\
     (forall s t, ~ In (RRename s t true) es) /\
     forall staging, In (RMakeStaging staging true) es ->
       In (RRemoveAll staging true) es \/ exists e, error = SnCleanup e).
Proof.
  split.
  - destruct (@restore_atomic (sample_restore_host (files ∅ sample_write.2) 0) sample_reader sample_encodings
      (fun s => sample_unhex s) sample_sha sample_ed25519 sample_aead sample_hkdf sample_hmac sample_chunk_laws
      sample_reader_laws sample_signed "dek" {| tr_signer := signer_key sample_signer; tr_previous := None |}
      (Some ("/data", "state")) []) as (r & es & Hr & Hres & _ & Halone).
    assert (exists report, (sample_restore (sample_restore_host (files ∅ sample_write.2) 0)).1 = Some (Ok report))
      as [report Hok] by (eexists; vm_compute; reflexivity).
    unfold sample_restore in *. rewrite Hr in Hok. injection Hok as ->.
    destruct Hres as (_ & _ & _ & _ & parent & name & staging & before & [= <- <-] & Hes & _).
    exists report, es, staging, before. split; [exact Hr |]. split; [exact Hes | exact Halone].
  - destruct (@restore_atomic sample_lossy_host sample_reader sample_encodings
      (fun s => sample_unhex s) sample_sha sample_ed25519 sample_aead sample_hkdf sample_hmac sample_chunk_laws
      sample_reader_laws sample_signed "dek" {| tr_signer := signer_key sample_signer; tr_previous := None |}
      (Some ("/data", "state")) []) as (r & es & Hr & Hres & _).
    assert (exists error, (sample_restore sample_lossy_host).1 = Some (Err error))
      as [error Herr] by (eexists; vm_compute; reflexivity).
    unfold sample_restore in *. rewrite Hr in Herr. injection Herr as ->.
    exists error, es. split; [exact Hr | exact Hres].
Defined.

Lemma snapshots_restore_witness :
  match sample_write with
  | (Some (Ok snapshot), t) => exists report es,
      @restore (sample_restore_host (files ∅ t) 0) sample_reader sample_encodings (fun s => sample_unhex s) sample_sha
        sample_ed25519 sample_aead sample_hkdf sample_hmac (sn_signed snapshot) "dek"
        {| tr_signer := signer_key sample_signer; tr_previous := None |} (Some ("/data", "state")) []
      = (Some (Ok report), es ++ [])
  | _ => False
  end.
Proof.
  destruct sample_write as [[[snapshot|]|] t] eqn:Hw; try (vm_compute in Hw; discriminate).
  destruct (@snapshots_restore (sample_restore_host (files ∅ t) 0) sample_reader sample_encodings (fun s => sample_unhex s)
    sample_sha sample_ed25519 sample_aead sample_hkdf sample_hmac sample_chunk_laws sample_reader_laws
    sample_object_names sample_snapshot_host sample_random_laws sample_cdc sample_cdc_laws sample_tar ∅
    sample_places "dek" sample_lineage None sample_signer snapshot t Hw)
    as (root & entries & skipped & items & ps & _ & _ & _ & Hfl & Hch & Hgo).
  apply (f_equal length) in Hch. rewrite length_map in Hch.
  replace (length (mf_chunks (sm_manifest (sn_signed snapshot)))) with 1%nat in Hch
    by (vm_compute in Hw; injection Hw as <- <-; reflexivity).
  assert (forall x y, x ∈ ps -> y ∈ ps -> x = y) as Hone
    by (clear -Hch; destruct ps as [|a [|b ps]]; [done | set_solver | done]).
  refine (Hgo (fun x y Hx Hy _ => Hone x y Hx Hy) _ (sample_faithful (files ∅ t) 0) "/data" "state" (fun _ _ => True)
    eq_refl eq_refl sample_reads I []).
  intros a content synced _ Hl. by rewrite lookup_empty in Hl.
Defined.

Lemma place_touches_witness : exists ok es,
  In (RMtime "/etc/passwd" 1000 ok) es /\
  (@place (sample_restore_host ∅ 1000) "/data/.state.restore" (sample_entry "/etc/passwd") None 1000 []).2 = es ++ [].
Proof.
  destruct (@place_touches (sample_restore_host ∅ 1000) "/data/.state.restore" (sample_entry "/etc/passwd") None 1000 [])
    as (r & es & Hr & _ & Hesc).
  destruct Hesc as [ok Hin]; try done. exists ok, es. split; [done |]. by rewrite Hr.
Defined.
