(* ===== verification/PayloadProtocol.v ===== *)
(** * Payload delivery: the protocol

    [payload_protocol.rs] and [payload_protocol/descriptor.rs]: the companion
    descriptor of a payload archive with its validation, the signed download request
    with its transport and binding checks, and closed byte ranges. *)
From Stdlib Require Import Ascii Sorted.
From stdpp Require Import prelude strings pretty.
From S2P Require Import Prelude Decimal Json Bridge World RestartPolicy.

Local Open Scope Z_scope.

(** ** The descriptor *)

Definition CARGO_PAYLOAD_FORMAT_V1 : string := "liskov.cargo-payload.v1".
Definition PAYLOAD_MAX_SAFE_INTEGER : Z := 9007199254740991.
Definition MAX_PAYLOAD_ENTRIES : Z := 256.
Definition MAX_PAYLOAD_EXPANDED_BYTES : Z := 4 * 1024 * 1024 * 1024.

Inductive PayloadEncryptionV1 := EncryptionNone | EncryptionSigner.
Record PayloadTargetAbiV1 := { abi_os : string; abi_architecture : string; abi_environment : string }.
Inductive PayloadProducerKindV1 := Member | GithubWorkflow.
Record PayloadProducerV1 := {
  pr_kind : PayloadProducerKindV1;
  pr_subject : string;
  pr_source_revision : string;
  pr_build_id : string
}.

Inductive PayloadEntryV1 :=
| EntryDirectory (path : string)
| EntryRegularFile (path : string) (size_bytes : Z) (digest : string) (executable : bool).

Definition entry_path (e : PayloadEntryV1) : string :=
  match e with EntryDirectory path | EntryRegularFile path _ _ _ => path end.

Record CargoPayloadDescriptorV1 := {
  pd_format : string;
  pd_artifact_digest : string;
  pd_artifact_size_bytes : Z;
  pd_encryption : PayloadEncryptionV1;
  pd_target_abi : PayloadTargetAbiV1;
  pd_entries : list PayloadEntryV1;
  pd_entrypoints : list string;
  pd_producer : PayloadProducerV1
}.

Inductive PayloadDescriptorRefusal :=
| UnsupportedFormat | DescUnsupportedEncryption | DescInvalidDigest | InvalidSize | InvalidAbi | InvalidProvenance
| InvalidPath | InvalidInventory | InvalidEntrypoint | ExpansionLimit | DescOverflow.

Definition one_byte_of (set : string) (b : ascii) : bool := bytes_any (Ascii.eqb b) set.

Definition is_payload_sha256_digest (value : string) : bool :=
  match strip_prefix "sha256:" value with
  | Some hex => (len hex =? 64) && bytes_all (fun b => is_ascii_digit b || byte_between 97 102 b) hex
  | None => false
  end.

Definition is_payload_part (part : string) : bool :=
  negb (str_is_empty part) && negb (part =s ".") && negb (part =s "..") &&
  bytes_all (fun b => is_ascii_alphanumeric b || one_byte_of "._-" b) part.

Definition is_payload_relative_path (path : string) : bool :=
  negb (str_is_empty path) && (len path <=? 256) && forallb is_payload_part (split (byte_is 47) path).

Definition provenance_text (text : string) : bool :=
  negb (str_is_empty text) && (len text <=? 256) &&
  bytes_all (fun b => is_ascii_graphic b && negb (byte_is 34 b || byte_is 92 b)) text.

Definition abi_text (text : string) : bool :=
  negb (str_is_empty text) && (len text <=? 64) &&
  bytes_all (fun b => is_ascii_lowercase b || is_ascii_digit b || one_byte_of "_-" b) text.

(** The accumulators of the loop over the entries. *)
Record Inventory := {
  iv_previous : option string;
  iv_files : list string;
  iv_executables : list string;
  iv_expanded : Z
}.

Definition inventory_entry (v : Inventory) (e : PayloadEntryV1) : result Inventory PayloadDescriptorRefusal :=
  let path := entry_path e in
  if negb (is_payload_relative_path path) then Err InvalidPath
  else if match iv_previous v with Some previous => String.leb path previous | None => false end
  then Err InvalidInventory
  else
    match e with
    | EntryDirectory _ =>
        Ok {| iv_previous := Some path; iv_files := iv_files v; iv_executables := iv_executables v;
              iv_expanded := iv_expanded v |}
    | EntryRegularFile _ size_bytes digest executable =>
        if negb (is_payload_sha256_digest digest) then Err DescInvalidDigest
        else
          let? expanded := ok_or DescOverflow (checked_add_u64 (iv_expanded v) size_bytes) in
          Ok {| iv_previous := Some path; iv_files := path :: iv_files v;
                iv_executables := if executable then path :: iv_executables v else iv_executables v;
                iv_expanded := expanded |}
    end.

Fixpoint inventory (v : Inventory) (entries : list PayloadEntryV1) : result Inventory PayloadDescriptorRefusal :=
  match entries with
  | [] => Ok v
  | e :: entries => let? v := inventory_entry v e in inventory v entries
  end.

(** [path.match_indices('/')]: what stands before each slash. *)
Fixpoint slash_prefixes (path : string) : list string :=
  match path with
  | EmptyString => []
  | String a path =>
      (if byte_is 47 a then [EmptyString] else []) ++ map (String a) (slash_prefixes path)
  end.

Definition str_in (s : string) (l : list string) : bool := existsb (str_eqb s) l.

(** [windows(2).any(|p| p[0] >= p[1])]. *)
Fixpoint out_of_order (l : list string) : bool :=
  match l with
  | a :: ((b :: _) as l) => String.leb b a || out_of_order l
  | _ => false
  end.

Definition payload_descriptor_validate (d : CargoPayloadDescriptorV1) (artifact_limit_bytes : Z)
  : result unit PayloadDescriptorRefusal :=
  if negb (pd_format d =s CARGO_PAYLOAD_FORMAT_V1) then Err UnsupportedFormat
  else if match pd_encryption d with EncryptionNone => false | EncryptionSigner => true end
  then Err DescUnsupportedEncryption
  else if negb (is_payload_sha256_digest (pd_artifact_digest d)) then Err DescInvalidDigest
  else if (pd_artifact_size_bytes d =? 0) || (artifact_limit_bytes <? pd_artifact_size_bytes d)
       || (PAYLOAD_MAX_SAFE_INTEGER <? pd_artifact_size_bytes d) then Err InvalidSize
  else if negb (forallb abi_text [abi_os (pd_target_abi d); abi_architecture (pd_target_abi d);
                                  abi_environment (pd_target_abi d)]) then Err InvalidAbi
  else if negb (forallb provenance_text [pr_subject (pd_producer d); pr_source_revision (pd_producer d);
                                         pr_build_id (pd_producer d)]) then Err InvalidProvenance
  else if (Z.of_nat (length (pd_entries d)) =? 0) || (MAX_PAYLOAD_ENTRIES <? Z.of_nat (length (pd_entries d)))
  then Err InvalidInventory
  else
    let? v := inventory {| iv_previous := None; iv_files := []; iv_executables := []; iv_expanded := 0 |}
                (pd_entries d) in
    if MAX_PAYLOAD_EXPANDED_BYTES <? iv_expanded v then Err ExpansionLimit
    else if existsb (fun e => existsb (fun prefix => str_in prefix (iv_files v)) (slash_prefixes (entry_path e)))
              (pd_entries d) then Err InvalidInventory
    else if (Z.of_nat (length (pd_entrypoints d)) =? 0) || (MAX_PAYLOAD_ENTRIES <? Z.of_nat (length (pd_entrypoints d)))
         || out_of_order (pd_entrypoints d)
         || existsb (fun p => negb (str_in p (iv_executables v))) (pd_entrypoints d) then Err InvalidEntrypoint
    else Ok tt.

(** ** Ranges *)

Inductive PayloadDownloadRefusal :=
| MalformedEnvelope | EnvelopeTooLarge | UnsupportedDomain | InvalidDigest | InvalidIdentity | InvalidJobReference
| MethodMismatch | TargetMismatch | InvalidRange | RangeMismatch | RangeUnsatisfiable | Overflow | InvalidTime
| NotYetValid | Expired | InvalidNonce | InvalidSignature | UnknownKey | NonceReplayed | WrongApplication
| WrongJob | WrongIncarnation | WrongArtifact | WrongLaunch | WrongWorkload | UnsupportedEncryption
| EntitlementRevoked | AuthorityUnavailable | InvalidAuthorization.

Inductive PayloadDownloadRangeV1 := Whole | Bytes (start end_inclusive : Z).
Record PayloadByteSelectionV1 := { sel_offset : Z; sel_length : Z }.

Definition canonical_u64 (text : string) : option Z :=
  if str_is_empty text || negb (bytes_all is_ascii_digit text) || ((1 <? len text) && starts_with "0" text)
  then None
  else parse_unsigned u64_max text.

Definition range_validate (r : PayloadDownloadRangeV1) : result unit PayloadDownloadRefusal :=
  match r with
  | Whole => Ok tt
  | Bytes start end_inclusive =>
      if end_inclusive <? start then Err InvalidRange
      else
        let? _ := ok_or Overflow (n ← checked_sub_u64 end_inclusive start; checked_add_u64 n 1) in
        if PAYLOAD_MAX_SAFE_INTEGER <? end_inclusive then Err InvalidRange else Ok tt
  end.

Definition from_header (header : option string) : result PayloadDownloadRangeV1 PayloadDownloadRefusal :=
  match header with
  | None => Ok Whole
  | Some header =>
      let? se := ok_or InvalidRange (rest ← strip_prefix "bytes=" header; split_once "-" rest) in
      let? start := ok_or InvalidRange (canonical_u64 se.1) in
      let? end_inclusive := ok_or InvalidRange (canonical_u64 se.2) in
      let range := Bytes start end_inclusive in
      let? _ := range_validate range in
      Ok range
  end.

(** The header a range is asked for with ([payload_download.rs]). *)
Definition range_text (range : PayloadDownloadRangeV1) : option string :=
  match range with
  | Whole => None
  | Bytes start end_inclusive => Some ("bytes=" +:+ pretty start +:+ "-" +:+ pretty end_inclusive)
  end.

Definition select_range (r : PayloadDownloadRangeV1) (object_size : Z)
  : result PayloadByteSelectionV1 PayloadDownloadRefusal :=
  let? _ := range_validate r in
  if (object_size =? 0) || (PAYLOAD_MAX_SAFE_INTEGER <? object_size) then Err RangeUnsatisfiable
  else
    match r with
    | Whole => Ok {| sel_offset := 0; sel_length := object_size |}
    | Bytes start end_inclusive =>
        if end_inclusive <? object_size
        then Ok {| sel_offset := start; sel_length := end_inclusive - start + 1 |}
        else Err RangeUnsatisfiable
    end.

(** ** Requests *)

Definition PAYLOAD_DOWNLOAD_DOMAIN_V1 : string := "proof.liskov.payload-download.v1".
Definition MAX_PAYLOAD_DOWNLOAD_ENVELOPE_BYTES : Z := 8192.
Definition MAX_PAYLOAD_DOWNLOAD_VALIDITY_MS : Z := 60000.

Record PayloadJobRefV1 := { jr_origin_kind : string; jr_origin_key : string; jr_sequence : string }.
Record PayloadLaunchBindingV1 := { lb_launch_id : string; lb_policy_digest : string }.
Record PayloadWorkloadBindingV1 := {
  wb_authorization_id : string;
  wb_revision_digest : string;
  wb_policy_digest : string
}.

Record PayloadDownloadRequestV1 := {
  pq_domain : string;
  pq_method : string;
  pq_request_target : string;
  pq_range : PayloadDownloadRangeV1;
  pq_artifact_digest : string;
  pq_organisation_id : string;
  pq_application_uid : string;
  pq_job : PayloadJobRefV1;
  pq_processor_id : string;
  pq_runtime_instance_id : string;
  pq_launch : PayloadLaunchBindingV1;
  pq_workload : option PayloadWorkloadBindingV1;
  pq_issued_at_ms : Z;
  pq_expires_at_ms : Z;
  pq_nonce : string
}.

Record SignedPayloadDownloadRequestV1 := {
  sq_request : PayloadDownloadRequestV1;
  sq_signature : string
}.

Record PayloadDownloadBindingV1 := {
  pb_organisation_id : string;
  pb_application_uid : string;
  pb_job : PayloadJobRefV1;
  pb_processor_id : string;
  pb_runtime_instance_id : string;
  pb_artifact_digest : string;
  pb_launch : PayloadLaunchBindingV1;
  pb_workload : option PayloadWorkloadBindingV1;
  pb_authorization_expires_at_ms : Z
}.

#[global] Instance range_eq_dec : EqDecision PayloadDownloadRangeV1.
Proof. solve_decision. Defined.
#[global] Instance job_ref_eq_dec : EqDecision PayloadJobRefV1.
Proof. solve_decision. Defined.
#[global] Instance launch_eq_dec : EqDecision PayloadLaunchBindingV1.
Proof. solve_decision. Defined.
#[global] Instance workload_eq_dec : EqDecision PayloadWorkloadBindingV1.
Proof. solve_decision. Defined.

Definition payload_token (text : string) (max : Z) : bool :=
  negb (str_is_empty text) && (len text <=? max) &&
  bytes_all (fun b => is_ascii_alphanumeric b || one_byte_of "._:-" b) text.

Definition payload_lower_hex (text : string) (n : Z) : bool :=
  (len text =? n * 2) && bytes_all (fun b => is_ascii_digit b || byte_between 97 102 b) text.

Definition i64_max : Z := 2 ^ 63 - 1.
Definition i64_min : Z := - 2 ^ 63.
Definition u128_max : Z := 2 ^ 128 - 1.
Definition checked_i64 (z : Z) : option Z := if (i64_min <=? z) && (z <=? i64_max) then Some z else None.

Definition job_ref_ok (job : PayloadJobRefV1) : bool :=
  payload_token (jr_origin_kind job) 32 && payload_token (jr_origin_key job) 256 && negb (str_is_empty (jr_sequence job))
  && bytes_all is_ascii_digit (jr_sequence job)
  && negb ((1 <? len (jr_sequence job)) && starts_with "0" (jr_sequence job))
  && opt_is_some (parse_unsigned u128_max (jr_sequence job)).

Definition workload_check (workload : option PayloadWorkloadBindingV1) : result unit PayloadDownloadRefusal :=
  match workload with
  | None => Ok tt
  | Some workload =>
      if negb (payload_token (wb_authorization_id workload) 128) then Err InvalidIdentity
      else if negb (is_payload_sha256_digest (wb_revision_digest workload))
           || negb (is_payload_sha256_digest (wb_policy_digest workload)) then Err InvalidDigest
      else Ok tt
  end.

Definition request_validate (r : PayloadDownloadRequestV1) : result unit PayloadDownloadRefusal :=
  if negb (pq_domain r =s PAYLOAD_DOWNLOAD_DOMAIN_V1) then Err UnsupportedDomain
  else if negb (is_payload_sha256_digest (pq_artifact_digest r))
       || negb (is_payload_sha256_digest (lb_policy_digest (pq_launch r))) then Err InvalidDigest
  else if negb (pq_method r =s "GET") then Err MethodMismatch
  else if negb (pq_request_target r =s ("/v1/payloads/" +:+ pq_artifact_digest r)) then Err TargetMismatch
  else
    let? _ := range_validate (pq_range r) in
    if negb (payload_token (pq_organisation_id r) 128) || negb (payload_token (pq_application_uid r) 128)
       || negb (payload_token (pq_processor_id r) 128) || negb (payload_token (pq_runtime_instance_id r) 128)
       || negb (payload_token (lb_launch_id (pq_launch r)) 128) then Err InvalidIdentity
    else if negb (job_ref_ok (pq_job r)) then Err InvalidJobReference
    else
      let? _ := workload_check (pq_workload r) in
      let? span := ok_or Overflow (checked_i64 (pq_expires_at_ms r - pq_issued_at_ms r)) in
      if (pq_issued_at_ms r <? 0) || (PAYLOAD_MAX_SAFE_INTEGER <? pq_expires_at_ms r)
         || negb ((1 <=? span) && (span <=? MAX_PAYLOAD_DOWNLOAD_VALIDITY_MS)) then Err InvalidTime
      else if negb (payload_lower_hex (pq_nonce r) 32) then Err InvalidNonce
      else Ok tt.

(** ** Encodings *)

Definition range_fields (r : PayloadDownloadRangeV1) : list (string * Value) :=
  match r with
  | Whole => [("mode", Str "whole")]
  | Bytes start end_inclusive => [("mode", Str "bytes"); ("start", jint start); ("endInclusive", jint end_inclusive)]
  end.
Definition job_fields (j : PayloadJobRefV1) : list (string * Value) :=
  [("originKind", Str (jr_origin_kind j)); ("originKey", Str (jr_origin_key j)); ("sequence", Str (jr_sequence j))].
Definition launch_fields (l : PayloadLaunchBindingV1) : list (string * Value) :=
  [("launchId", Str (lb_launch_id l)); ("policyDigest", Str (lb_policy_digest l))].
Definition workload_value (w : option PayloadWorkloadBindingV1) : Value :=
  match w with
  | None => Null
  | Some w => Obj [("authorizationId", Str (wb_authorization_id w)); ("revisionDigest", Str (wb_revision_digest w));
                   ("policyDigest", Str (wb_policy_digest w))]
  end.

Definition request_fields (r : PayloadDownloadRequestV1) : list (string * Value) :=
  [("domain", Str (pq_domain r)); ("method", Str (pq_method r)); ("requestTarget", Str (pq_request_target r));
   ("range", Obj (range_fields (pq_range r))); ("artifactDigest", Str (pq_artifact_digest r));
   ("organisationId", Str (pq_organisation_id r)); ("applicationUid", Str (pq_application_uid r));
   ("job", Obj (job_fields (pq_job r))); ("processorId", Str (pq_processor_id r));
   ("runtimeInstanceId", Str (pq_runtime_instance_id r)); ("launch", Obj (launch_fields (pq_launch r)));
   ("workload", workload_value (pq_workload r)); ("issuedAtMs", jint (pq_issued_at_ms r));
   ("expiresAtMs", jint (pq_expires_at_ms r)); ("nonce", Str (pq_nonce r))].
Definition download_envelope_fields (s : SignedPayloadDownloadRequestV1) : list (string * Value) :=
  [("request", Obj (request_fields (sq_request s))); ("signature", Str (sq_signature s))].

Definition entry_value (e : PayloadEntryV1) : Value :=
  Obj match e with
      | EntryDirectory path => [("kind", Str "directory"); ("path", Str path)]
      | EntryRegularFile path size digest executable =>
          [("kind", Str "regular_file"); ("path", Str path); ("sizeBytes", jint size); ("digest", Str digest);
           ("executable", Bool executable)]
      end.
Definition payload_descriptor_fields (d : CargoPayloadDescriptorV1) : list (string * Value) :=
  [("format", Str (pd_format d)); ("artifactDigest", Str (pd_artifact_digest d));
   ("artifactSizeBytes", jint (pd_artifact_size_bytes d));
   ("encryption", Str match pd_encryption d with EncryptionNone => "none" | EncryptionSigner => "signer" end);
   ("targetAbi", Obj [("os", Str (abi_os (pd_target_abi d))); ("architecture", Str (abi_architecture (pd_target_abi d)));
                      ("environment", Str (abi_environment (pd_target_abi d)))]);
   ("entries", Arr (map entry_value (pd_entries d))); ("entrypoints", Arr (map Str (pd_entrypoints d)));
   ("producer", Obj [("kind", Str match pr_kind (pd_producer d) with
                              | Member => "member" | GithubWorkflow => "github_workflow" end);
                     ("subject", Str (pr_subject (pd_producer d)));
                     ("sourceRevision", Str (pr_source_revision (pd_producer d)));
                     ("buildId", Str (pr_build_id (pd_producer d)))])].

Section Encodings.
Context `{!JsonText, !Sha256, !Encodings, !Deserialize SignedPayloadDownloadRequestV1}.

Definition message (r : PayloadDownloadRequestV1) : result string PayloadDownloadRefusal :=
  let? _ := request_validate r in
  let bytes := to_vec_fields (request_fields r) in
  if MAX_PAYLOAD_DOWNLOAD_ENVELOPE_BYTES <? len bytes then Err EnvelopeTooLarge else Ok bytes.

Definition request_digest (r : PayloadDownloadRequestV1) : result string PayloadDownloadRefusal :=
  let? bytes := message r in Ok ("sha256:" +:+ hex_encode (sha256 bytes)).

Definition validate_transport (r : PayloadDownloadRequestV1) (method target : string) (range_header : option string)
    (now_ms : Z) : result unit PayloadDownloadRefusal :=
  let? _ := request_validate r in
  if negb (method =s pq_method r) then Err MethodMismatch
  else if negb (target =s pq_request_target r) then Err TargetMismatch
  else
    let? range := from_header range_header in
    if negb (bool_decide (range = pq_range r)) then Err RangeMismatch
    else if now_ms <? pq_issued_at_ms r then Err NotYetValid
    else if pq_expires_at_ms r <=? now_ms then Err Expired
    else Ok tt.

Definition validate_binding (r : PayloadDownloadRequestV1) (expected : PayloadDownloadBindingV1)
  : result unit PayloadDownloadRefusal :=
  let? _ := request_validate r in
  if negb (pq_organisation_id r =s pb_organisation_id expected)
     || negb (pq_application_uid r =s pb_application_uid expected) then Err WrongApplication
  else if negb (bool_decide (pq_job r = pb_job expected)) || negb (pq_processor_id r =s pb_processor_id expected)
  then Err WrongJob
  else if negb (pq_runtime_instance_id r =s pb_runtime_instance_id expected) then Err WrongIncarnation
  else if negb (pq_artifact_digest r =s pb_artifact_digest expected) then Err WrongArtifact
  else if negb (bool_decide (pq_launch r = pb_launch expected)) then Err WrongLaunch
  else if negb (bool_decide (pq_workload r = pb_workload expected)) then Err WrongWorkload
  else if pb_authorization_expires_at_ms expected <? pq_expires_at_ms r then Err Expired
  else Ok tt.

Definition parse_signed (bytes : string) : result SignedPayloadDownloadRequestV1 PayloadDownloadRefusal :=
  if MAX_PAYLOAD_DOWNLOAD_ENVELOPE_BYTES <? len bytes then Err EnvelopeTooLarge
  else
    let? envelope := ok_or MalformedEnvelope (from_slice bytes) in
    let? _ := request_validate (sq_request envelope) in
    if negb (payload_lower_hex (sq_signature envelope) 64) then Err InvalidSignature else Ok envelope.

Definition canonical_payload_descriptor_bytes (d : CargoPayloadDescriptorV1) (artifact_limit_bytes : Z)
  : result string PayloadDescriptorRefusal :=
  let? _ := payload_descriptor_validate d artifact_limit_bytes in Ok (to_vec_fields (payload_descriptor_fields d)).

End Encodings.

(** The regular files of an inventory, the executable ones, and the bytes they
    expand to. *)
Fixpoint file_paths (es : list PayloadEntryV1) : list string :=
  match es with
  | [] => []
  | EntryDirectory _ :: es => file_paths es
  | EntryRegularFile path _ _ _ :: es => path :: file_paths es
  end.
Fixpoint executable_paths (es : list PayloadEntryV1) : list string :=
  match es with
  | EntryRegularFile path _ _ true :: es => path :: executable_paths es
  | _ :: es => executable_paths es
  | [] => []
  end.
Fixpoint expanded_bytes (es : list PayloadEntryV1) : Z :=
  match es with
  | [] => 0
  | EntryDirectory _ :: es => expanded_bytes es
  | EntryRegularFile _ size _ _ :: es => size + expanded_bytes es
  end.

(** A path component that names an entry of the directory it is resolved in. *)
Definition plain_component (part : string) : Prop :=
  part <> EmptyString /\ part <> "." /\ part <> ".." /\
  Forall (fun b => is_ascii_graphic b = true /\ byte_is 47 b = false /\ byte_is 92 b = false) (bytes part).

(** A payload of a program and its data directory. *)
Definition sample_digest : string := "sha256:" +:+ repeat_byte 64 "a".
Definition sample_descriptor (artifact_digest : string) (size : Z) : CargoPayloadDescriptorV1 :=
  {| pd_format := CARGO_PAYLOAD_FORMAT_V1; pd_artifact_digest := artifact_digest; pd_artifact_size_bytes := size;
     pd_encryption := EncryptionNone;
     pd_target_abi := {| abi_os := "linux"; abi_architecture := "aarch64"; abi_environment := "musl" |};
     pd_entries := [EntryRegularFile "bin/app" 4096 sample_digest true; EntryDirectory "data";
                    EntryRegularFile "data/seed.json" 17 sample_digest false];
     pd_entrypoints := ["bin/app"];
     pd_producer := {| pr_kind := Member; pr_subject := "member:1"; pr_source_revision := "abc123";
                       pr_build_id := "build-7" |} |}.

(** Ranges whose bounds are ordered and safe integers. *)
Definition range_ok (r : PayloadDownloadRangeV1) : Prop :=
  match r with
  | Whole => True
  | Bytes start end_inclusive => 0 <= start <= end_inclusive /\ end_inclusive <= PAYLOAD_MAX_SAFE_INTEGER
  end.

(** ** Canonical numerals *)

Lemma canonical_u64_digits s : canonical_u64 s = if canonical_digits s then parse_unsigned u64_max s else None.
Proof. unfold canonical_u64, canonical_digits. by case_match. Qed.

(** A canonical numeral is what its value prints as. *)
Lemma canonical_u64_iff s n : canonical_u64 s = Some n <-> is_u64 n /\ s = pretty n.
Proof.
  rewrite canonical_u64_digits. split.
  - case_match eqn:Hc; [| done]. intros Hp. destruct (canonical_digits_spec s Hc) as [Hd _].
    destruct (parse_unsigned_Some _ _ _ Hd Hp) as [-> ?]. split; [done |]. by apply canonical_digits_pretty.
  - intros [Hn ->]. destruct (pretty_canonical_digits n) as [Hc Hv]; [apply Hn |]. rewrite Hc.
    destruct (canonical_digits_spec _ Hc) as [Hd Hne]. rewrite parse_unsigned_digits; [by rewrite Hv | done.. |].
    rewrite Hv. apply Hn.
Qed.

(** ** Ranges are read back and stay inside the object *)

Lemma range_validate_Ok start end_inclusive : is_u64 start -> is_u64 end_inclusive ->
  range_validate (Bytes start end_inclusive) = Ok tt <-> range_ok (Bytes start end_inclusive).
Proof.
  unfold is_u64, u64_max, range_ok, range_validate, checked_sub_u64, checked_add_u64, PAYLOAD_MAX_SAFE_INTEGER, u64_max.
  intros Hs He. cbn -[Z.ltb Z.leb].
  destruct (Z.ltb_spec end_inclusive start); [split; [done | lia] |].
  rewrite (proj2 (Z.leb_le start end_inclusive)) by lia. cbn -[Z.ltb Z.leb].
  destruct (Z.leb_spec (end_inclusive - start + 1) (2 ^ 64 - 1)); cbn -[Z.ltb Z.leb]; [| split; [done | lia]].
  destruct (Z.ltb_spec 9007199254740991 end_inclusive); split; try done; lia.
Qed.

Lemma range_ok_u64 start end_inclusive : range_ok (Bytes start end_inclusive) -> is_u64 start /\ is_u64 end_inclusive.
Proof. unfold range_ok, is_u64, u64_max, PAYLOAD_MAX_SAFE_INTEGER. lia. Qed.

(** A [Range] header is accepted exactly when it is the decimal text of a
    closed range with ordered, safe bounds, and the range read is the one
    printed; no header is the whole object. *)
Theorem range_header_exact header r :
  from_header header = Ok r <-> range_text r = header /\ range_ok r.
Proof.
  destruct header as [h|]; [| destruct r; cbn; naive_solver]. cbn [from_header]. split.
  - destruct (strip_prefix "bytes=" h) as [rest|] eqn:Hp; [| done]. apply strip_prefix_Some in Hp as ->.
    cbn [mbind option_bind]. destruct (split_once "-" rest) as [[a b]|] eqn:Hs; [| done].
    apply split_once_Some in Hs as ->. cbn [ok_or fst snd].
    destruct (canonical_u64 a) as [start|] eqn:Ha; [| done]. cbn [ok_or].
    destruct (canonical_u64 b) as [stop|] eqn:Hb; [| done]. cbn [ok_or].
    apply canonical_u64_iff in Ha as [Hs ->], Hb as [He ->].
    destruct (range_validate (Bytes start stop)) as [[]|e] eqn:Hv; intros Hr; [| done].
    injection Hr as <-. split; [done |]. by apply range_validate_Ok.
  - destruct r as [|start stop]; [intros [[=] _] |]. intros [[= <-] Hok].
    destruct (range_ok_u64 _ _ Hok) as [Hs He].
    rewrite strip_prefix_app. cbn [mbind option_bind].
    change ("-" +:+ pretty stop) with (String "-" (pretty stop)).
    rewrite split_once_byte; cbn [ok_or fst snd].
    + rewrite (proj2 (canonical_u64_iff _ start)), (proj2 (canonical_u64_iff _ stop)) by done. cbn [ok_or].
      by rewrite (proj2 (range_validate_Ok start stop Hs He) Hok).
    + destruct (pretty_canonical_digits start) as [Hc _]; [apply Hs |].
      apply canonical_digits_spec in Hc as [Hd _]. revert Hd. apply bytes_all_weaken. intros a Ha.
      destruct (Ascii.eqb_spec "-" a) as [<-|]; done.
Qed.

(** A range selects bytes of the object it names and no others; it is refused
    exactly when the object is empty, oversized or ends before the range. *)
Theorem select_in_bounds r size : range_ok r -> is_u64 size ->
  match select_range r size with
  | Ok sel =>
      0 <= sel_offset sel /\ 0 < sel_length sel /\ sel_offset sel + sel_length sel <= size /\
      match r with
      | Whole => sel_offset sel = 0 /\ sel_length sel = size
      | Bytes start stop => sel_offset sel = start /\ sel_offset sel + sel_length sel = stop + 1
      end
  | Err e =>
      e = RangeUnsatisfiable /\
      (size = 0 \/ PAYLOAD_MAX_SAFE_INTEGER < size \/ match r with Whole => False | Bytes _ stop => size <= stop end)
  end.
Proof.
  intros Hr Hsize. unfold select_range.
  assert (Hv : range_validate r = Ok tt).
  { destruct r as [|start stop]; [done |]. destruct (range_ok_u64 _ _ Hr). by apply range_validate_Ok. }
  rewrite Hv. unfold is_u64 in Hsize. destruct (Z.eqb_spec size 0); [naive_solver |].
  destruct (Z.ltb_spec PAYLOAD_MAX_SAFE_INTEGER size); [naive_solver |]. cbn [orb].
  destruct r as [|start stop]; cbn in Hr |- *; [lia |].
  destruct (Z.ltb_spec stop size); cbn; [lia |]. split; [done | lia].
Qed.

Lemma select_in_bounds_witness :
  exists sel, select_range (Bytes 10 19) 20 = Ok sel /\ sel_offset sel + sel_length sel <= 20.
Proof.
  pose proof (select_in_bounds (Bytes 10 19) 20 ltac:(done) ltac:(done)) as H.
  eexists. split; [reflexivity |]. exact (proj1 (proj2 (proj2 H))).
Defined.

(** ** The inventory of an accepted descriptor *)

Lemma str_in_spec s l : str_in s l = true <-> s ∈ l.
Proof.
  unfold str_in. rewrite existsb_exists. split.
  - intros (x & Hx & He). apply str_eqb_eq in He as ->. by apply list_elem_of_In.
  - intros Hs. exists s. split; [by apply list_elem_of_In | apply str_eqb_refl].
Qed.

Lemma str_leb_false a b : String.leb a b = false -> str_lt b a.
Proof. unfold String.leb. intros H. apply str_compare_gt. by destruct (String.compare a b). Qed.

Lemma slash_prefixes_spec p rest : p ∈ slash_prefixes (p +:+ String "/" rest).
Proof.
  induction p as [|a p IH].
  - change (EmptyString ∈ slash_prefixes (String "/" rest)). cbn. by left.
  - change (String a p ∈ slash_prefixes (String a (p +:+ String "/" rest))). cbn [slash_prefixes].
    apply elem_of_app. right. apply list_elem_of_fmap. by exists p.
Qed.

Lemma out_of_order_sorted l : out_of_order l = false -> Sorted str_lt l.
Proof.
  induction l as [|a [|b l] IH]; intros H; [constructor | by repeat constructor |].
  cbn [out_of_order] in H. apply orb_false_iff in H as [Hb H].
  constructor; [by apply IH |]. constructor. by apply str_leb_false.
Qed.

Lemma sorted_nodup l : Sorted str_lt l -> NoDup l.
Proof.
  intros H. apply Sorted_StronglySorted in H; [| exact str_lt_trans].
  induction H as [|a l _ IH Ha]; constructor; [| done].
  intros Hin. rewrite Forall_forall in Ha. by apply (str_lt_irrefl a), Ha.
Qed.

Lemma inventory_entry_Ok e v w : inventory_entry v e = Ok w ->
  is_payload_relative_path (entry_path e) = true /\
  match iv_previous v with Some p => str_lt p (entry_path e) | None => True end /\
  iv_previous w = Some (entry_path e) /\
  iv_files w = file_paths [e] ++ iv_files v /\
  iv_executables w = executable_paths [e] ++ iv_executables v /\
  iv_expanded w = iv_expanded v + expanded_bytes [e].
Proof.
  unfold inventory_entry. destruct (is_payload_relative_path (entry_path e)); [| done]. cbn [negb].
  destruct (match iv_previous v with Some p => _ | None => _ end) eqn:Hle; [done |]. intros He.
  split; [done |]. split; [destruct (iv_previous v); [by apply str_leb_false | done] |].
  destruct e as [path|path size digest exe]; cbn [expanded_bytes].
  - injection He as <-. repeat split. cbn. lia.
  - destruct (negb _); [done |]. unfold checked_add_u64 in He. destruct (_ <=? u64_max); [cbn [ok_or] in He | done].
    injection He as <-. cbn [iv_previous iv_files iv_executables iv_expanded expanded_bytes]. split_and!; [done | done | by destruct exe | lia].
Qed.

Lemma file_paths_cons e es : file_paths (e :: es) = file_paths [e] ++ file_paths es.
Proof. by destruct e. Qed.
Lemma executable_paths_cons e es : executable_paths (e :: es) = executable_paths [e] ++ executable_paths es.
Proof. by destruct e as [|? ? ? []]. Qed.
Lemma expanded_bytes_cons e es : expanded_bytes (e :: es) = expanded_bytes [e] + expanded_bytes es.
Proof. destruct e; cbn; lia. Qed.

Lemma inventory_Ok es v v' : inventory v es = Ok v' ->
  Forall (fun e => is_payload_relative_path (entry_path e) = true) es /\
  Sorted str_lt (option_list (iv_previous v) ++ map entry_path es) /\
  (forall p, p ∈ file_paths es ++ iv_files v -> p ∈ iv_files v') /\
  (forall p, p ∈ iv_executables v' -> p ∈ executable_paths es ++ iv_executables v) /\
  iv_expanded v' = iv_expanded v + expanded_bytes es.
Proof.
  revert v. induction es as [|e es IH]; intros v.
  { intros [= <-]. split_and!; [done | destruct (iv_previous v); by repeat constructor | done | done | cbn; lia]. }
  cbn [inventory]. destruct (inventory_entry v e) as [w|] eqn:He; [| done]. intros Hrest.
  destruct (IH w Hrest) as (Hpaths & Hsorted & Hfiles & Hexec & ->).
  destruct (inventory_entry_Ok e v w He) as (Hpath & Hlt & Hprev & Hf & Hx & ->).
  rewrite Hprev in Hsorted. rewrite Hf in Hfiles. rewrite Hx in Hexec.
  rewrite (file_paths_cons e es), (executable_paths_cons e es), (expanded_bytes_cons e es). split_and!.
  - by constructor.
  - cbn [map]. destruct (iv_previous v) as [p|]; [| exact Hsorted]. cbn. constructor; [exact Hsorted | by constructor].
  - intros p Hp. apply Hfiles. set_solver.
  - intros p Hp. specialize (Hexec p Hp). set_solver.
  - lia.
Qed.

Lemma relative_path_plain path : is_payload_relative_path path = true ->
  len path <= 256 /\ Forall plain_component (split (byte_is 47) path).
Proof.
  unfold is_payload_relative_path. intros H. reflect_bool. split; [done |].
  apply Forall_forall. intros part Hp. apply list_elem_of_In in Hp.
  match goal with H : forallb _ _ = true |- _ => rewrite forallb_forall in H; specialize (H _ Hp) end.
  unfold is_payload_part in *. reflect_bool. unfold plain_component. split_and!; [by apply str_is_empty_false | done | done |].
  apply Forall_forall. intros b Hb. apply list_elem_of_In in Hb.
  match goal with H : bytes_all _ _ = true |- _ => unfold bytes_all in H; rewrite forallb_forall in H; specialize (H _ Hb) end.
  destruct b as [[] [] [] [] [] [] [] []]; done.
Qed.

Lemma validate_parts d limit : payload_descriptor_validate d limit = Ok tt ->
  pd_encryption d = EncryptionNone /\
  (pd_artifact_size_bytes d <> 0 /\ pd_artifact_size_bytes d <= limit
   /\ pd_artifact_size_bytes d <= PAYLOAD_MAX_SAFE_INTEGER) /\
  (Z.of_nat (length (pd_entries d)) <> 0 /\ Z.of_nat (length (pd_entries d)) <= MAX_PAYLOAD_ENTRIES) /\
  exists v,
    inventory {| iv_previous := None; iv_files := []; iv_executables := []; iv_expanded := 0 |} (pd_entries d) = Ok v /\
    iv_expanded v <= MAX_PAYLOAD_EXPANDED_BYTES /\
    existsb (fun e => existsb (fun prefix => str_in prefix (iv_files v)) (slash_prefixes (entry_path e)))
      (pd_entries d) = false /\
    Z.of_nat (length (pd_entrypoints d)) <> 0 /\
    out_of_order (pd_entrypoints d) = false /\
    existsb (fun p => negb (str_in p (iv_executables v))) (pd_entrypoints d) = false.
Proof.
  unfold payload_descriptor_validate. intros H.
  repeat (match type of H with (if ?b then _ else _) = _ => destruct b eqn:?; [done |] end).
  destruct (inventory _ _) as [v|] eqn:Hv; [| done].
  repeat (match type of H with (if ?b then _ else _) = _ => destruct b eqn:?; [done |] end).
  destruct (pd_encryption d); [| done]. reflect_bool. split_and!; try done. exists v. by split_and!.
Qed.

(** C34: the inventory of an accepted descriptor can be unpacked below a
    directory: its paths are distinct and sorted, every component of a path is
    a plain name, no file stands where another entry needs a directory, the
    files expand to at most 4 GiB, and every entrypoint is an executable file of
    the inventory. *)
Theorem descriptor_inventory_safe d limit : payload_descriptor_validate d limit = Ok tt ->
  pd_encryption d = EncryptionNone /\ pd_artifact_size_bytes d <= limit /\
  Z.of_nat (length (pd_entries d)) <= MAX_PAYLOAD_ENTRIES /\
  NoDup (map entry_path (pd_entries d)) /\ Sorted str_lt (map entry_path (pd_entries d)) /\
  Forall (fun e => Forall plain_component (split (byte_is 47) (entry_path e))) (pd_entries d) /\
  (forall e file rest, e ∈ pd_entries d -> file ∈ file_paths (pd_entries d) ->
     entry_path e <> file +:+ "/" +:+ rest) /\
  expanded_bytes (pd_entries d) <= MAX_PAYLOAD_EXPANDED_BYTES /\
  pd_entrypoints d <> [] /\ NoDup (pd_entrypoints d) /\
  (forall p, p ∈ pd_entrypoints d -> p ∈ executable_paths (pd_entries d)).
Proof.
  intros H. destruct (validate_parts d limit H)
    as (Henc & (_ & Hsize & _) & (_ & Hcount) & v & Hv & Hexp & Hpre & Hne & Hord & Hexe).
  destruct (inventory_Ok _ _ _ Hv) as (Hpaths & Hsorted & Hfiles & Hexec & Hsum). cbn in *.
  split_and!; try done.
  - by apply sorted_nodup.
  - eapply Forall_impl; [exact Hpaths |]. intros e He. by apply relative_path_plain.
  - intros e file rest Hin Hfile Heq. apply not_true_iff_false in Hpre. apply Hpre, existsb_exists.
    exists e. split; [by apply list_elem_of_In |]. apply existsb_exists. exists file. rewrite Heq. split.
    + apply list_elem_of_In, slash_prefixes_spec.
    + apply str_in_spec, Hfiles. by rewrite app_nil_r.
  - lia.
  - by destruct (pd_entrypoints d).
  - by apply sorted_nodup, out_of_order_sorted.
  - intros p Hp. rewrite <-(app_nil_r (executable_paths _)). apply Hexec, str_in_spec.
    destruct (str_in p (iv_executables v)) eqn:Hs; [done |]. exfalso.
    apply not_true_iff_false in Hexe. apply Hexe, existsb_exists. exists p. rewrite Hs. split; [by apply list_elem_of_In | done].
Qed.

Lemma descriptor_inventory_safe_witness :
  expanded_bytes (pd_entries (sample_descriptor sample_digest 4096)) <= MAX_PAYLOAD_EXPANDED_BYTES /\
  NoDup (map entry_path (pd_entries (sample_descriptor sample_digest 4096))).
Proof.
  pose proof (descriptor_inventory_safe (sample_descriptor sample_digest 4096) 8192 ltac:(vm_compute; reflexivity))
    as (_ & _ & _ & Hnd & _ & _ & _ & Hexp & _).
  split; [exact Hexp | exact Hnd].
Defined.
