(* ===== verification/PayloadDownload.v ===== *)
(** * Payload delivery: the client

    [payload_download.rs] over the [PayloadHttpClient] seam of [http.rs]: the
    negotiated context, the conversion of the bridge's job reference, and the
    bounded download that resumes with signed closed ranges. *)
From Stdlib Require Import Ascii.
From stdpp Require Import prelude strings pretty.
From S2P Require Import Prelude Json Bridge World RestartPolicy Protocol PayloadProtocol.

Local Open Scope Z_scope.

(** ** The transport seam *)

Inductive PayloadHttpError := PayloadTransport | PayloadRejected.

(** The body is a stream, read through the world below. *)
Record PayloadHttpResponse := {
  ps_status : Z;
  ps_content_length : option Z;
  ps_content_range : option string;
  ps_content_encoding : option string;
  ps_descriptor_digest : string;
  ps_artifact_digest : string
}.

(** The bridge and the contact runtime as in [World], a request, a read of the
    response's body ([None]: an error), and the two operations on the sink. *)
Inductive PEvent :=
| PWorld (e : event)
| PGet (url envelope : string) (range_header : option string)
    (reply : result PayloadHttpResponse PayloadHttpError)
| PRead (count : Z) (got : option string)
| PWrite (bytes : string) (ok : bool)
| PFlush (ok : bool).

Class PayloadWorld := {
  at_bridge : list PEvent -> string -> Value -> result Value BridgeError;
  at_random : list PEvent -> nat -> option string;
  at_unix_time : list PEvent -> option Z;
  at_elapsed : list PEvent -> Z;
  at_get : list PEvent -> string -> string -> option string -> result PayloadHttpResponse PayloadHttpError;
  at_read : list PEvent -> option string;
  at_write : list PEvent -> bool;
  at_flush : list PEvent -> bool
}.

Section effects.
Context `{!PayloadWorld}.

(** The [World] of the bootstrap code after the history [t]; it makes no POST
    on the way to a payload. *)
Definition world_at (t : list PEvent) : World :=
  {| on_bridge := fun es => at_bridge (map PWorld es ++ t);
     on_http := fun _ _ _ => Err Transport;
     on_random := fun es => at_random (map PWorld es ++ t);
     on_unix_time := fun es => at_unix_time (map PWorld es ++ t);
     on_elapsed := fun es => at_elapsed (map PWorld es ++ t) |}.

Definition in_world {A} (m : World -> io event A) : io PEvent A := fun t =>
  let r := m (world_at t) [] in (r.1, map PWorld r.2 ++ t).

Definition http_get (url envelope : string) (range_header : option string)
  : io PEvent (result PayloadHttpResponse PayloadHttpError) :=
  ask (fun t => at_get t url envelope range_header) (PGet url envelope range_header).
(** [Read::read] fills at most the buffer it is given. *)
Definition body_read (count : Z) : io PEvent (option string) :=
  ask (fun t => str_take count <$> at_read t) (PRead count).
Definition sink_write_all (bytes : string) : io PEvent bool := ask at_write (PWrite bytes).
Definition sink_flush : io PEvent bool := ask at_flush PFlush.

End effects.

(** ** Contexts *)

Definition MAX_PAYLOAD_DESCRIPTOR_BYTES : Z := 256 * 1024.
Definition MAX_PAYLOAD_TRANSFER_ATTEMPTS : Z := 64.
Definition STREAM_BUFFER_BYTES : Z := 16 * 1024.

Inductive PayloadError :=
| PayBudget | PayUnsupportedCapability | PayInvalidOrigin | PayBinding | PayProtocol (r : PayloadDownloadRefusal)
| PayDescriptor | PayBridge | PayRuntime | PayResponse | PayRefused | PayIncomplete | PayIntegrity | PayWrite.

Record AuthenticatedPayloadContext := {
  ac_capability_version : Z;
  ac_service_origin : string;
  ac_binding : PayloadDownloadBindingV1;
  ac_descriptor_digest : string;
  ac_canonical_descriptor : string
}.

Record PayloadContext := {
  pc_origin : string;
  pc_binding : PayloadDownloadBindingV1;
  pc_descriptor_digest : string;
  pc_descriptor : CargoPayloadDescriptorV1
}.

(** [Url::origin().ascii_serialization()] of the [url] crate. *)
Class UrlOrigin := origin_ascii_serialization : Url -> string.

Definition context_request (c : PayloadContext) (range : PayloadDownloadRangeV1) (now_ms : Z) (nonce : string)
  : result PayloadDownloadRequestV1 PayloadError :=
  let binding := pc_binding c in
  if (now_ms <? 0) || (pb_authorization_expires_at_ms binding <=? now_ms) then Err (PayProtocol Expired)
  else
    let? expires := ok_or (PayProtocol Overflow) (checked_i64 (now_ms + MAX_PAYLOAD_DOWNLOAD_VALIDITY_MS)) in
    let request :=
      {| pq_domain := PAYLOAD_DOWNLOAD_DOMAIN_V1;
         pq_method := "GET";
         pq_request_target := "/v1/payloads/" +:+ pb_artifact_digest binding;
         pq_range := range;
         pq_artifact_digest := pb_artifact_digest binding;
         pq_organisation_id := pb_organisation_id binding;
         pq_application_uid := pb_application_uid binding;
         pq_job := pb_job binding;
         pq_processor_id := pb_processor_id binding;
         pq_runtime_instance_id := pb_runtime_instance_id binding;
         pq_launch := pb_launch binding;
         pq_workload := pb_workload binding;
         pq_issued_at_ms := now_ms;
         pq_expires_at_ms := Z.min expires (pb_authorization_expires_at_ms binding);
         pq_nonce := nonce |} in
    let? _ := map_err PayProtocol (validate_binding request binding) in
    Ok request.

(** The nested [fn sequence]. *)
Definition sequence (value : Value) : option string :=
  match value with
  | Str v =>
      if negb (str_is_empty v) && bytes_all is_ascii_digit v && ((len v =? 1) || negb (starts_with "0" v))
      then pretty <$> parse_unsigned u128_max v
      else None
  | Num _ => pretty <$> opt_filter (fun n => n <=? PAYLOAD_MAX_SAFE_INTEGER) (as_u64 value)
  | _ => None
  end.

Section client.
Context `{!JsonText, !Sha256, !Encodings, !UrlApi, !UrlOrigin}.
Context `{!Deserialize SignedPayloadDownloadRequestV1, !Deserialize CargoPayloadDescriptorV1}.

Definition bridge_job_ref (text : string) : result PayloadJobRefV1 PayloadError :=
  let? value := ok_or PayBinding (from_str text) in
  let? parts :=
    match value with
    | Arr [origin; raw_sequence] => Ok (origin, raw_sequence, None)
    | Obj v =>
        let? origin := ok_or PayBinding (btree_get "origin" v) in
        let? raw_sequence := ok_or PayBinding (match btree_get "sequence" v with
                                               | Some s => Some s | None => btree_get "id" v end) in
        Ok (origin, raw_sequence, btree_get "id" v)
    | _ => Err PayBinding
    end in
  let '(origin, raw_sequence, alternate) := (parts : Value * Value * option Value) in
  let? parsed := ok_or PayBinding (sequence raw_sequence) in
  if is_some_and alternate (fun v => negb (bool_decide (sequence v = Some parsed))) then Err PayBinding
  else if negb (bool_decide ((v ← value_get "kind" origin; as_str v) = Some "Acurast")) then Err PayBinding
  else
    let? key := ok_or PayBinding (v ← value_get "source" origin; as_str v) in
    let raw := default key (strip_prefix "0x" key) in
    if negb (len raw =? 64) || negb (bytes_all is_ascii_hexdigit raw) then Err PayBinding
    else Ok {| jr_origin_kind := "acurast"; jr_origin_key := "0x" +:+ to_ascii_lowercase raw; jr_sequence := parsed |}.

Definition payload_digest (bytes : string) : string := "sha256:" +:+ hex_encode (sha256 bytes).

Definition zero_nonce : string := repeat_byte 64 "0".

Definition negotiate (bootstrap : RuntimeBootstrapResponse) (context : AuthenticatedPayloadContext)
    (artifact_limit_bytes now_ms : Z) : result PayloadContext PayloadError :=
  if negb (ac_capability_version context =? 1) then Err PayUnsupportedCapability
  else
    let? origin := ok_or PayInvalidOrigin (url_parse (ac_service_origin context)) in
    if negb (url_scheme origin =s "https") || opt_is_none (url_host_str origin)
       || negb (str_is_empty (url_username origin)) || opt_is_some (url_password origin)
       || opt_is_some (url_query origin) || opt_is_some (url_fragment origin)
       || negb (url_path origin =s "/") then Err PayInvalidOrigin
    else
    let binding := ac_binding context in
    if negb (rb_ok bootstrap) || negb (rb_domain bootstrap =s RUNTIME_BOOTSTRAP_RESPONSE_DOMAIN_V2)
       || negb (rb_application_uid bootstrap =s pb_application_uid binding)
       || negb (rb_processor_id bootstrap =s pb_processor_id binding)
       || negb (rb_runtime_instance_id bootstrap =s pb_runtime_instance_id binding)
       || negb (rb_policy_digest bootstrap =s lb_policy_digest (pb_launch binding)) then Err PayBinding
    else
    let? job := bridge_job_ref (rb_job_id bootstrap) in
    if negb (bool_decide (job = pb_job binding)) then Err PayBinding
    else if (now_ms <? 0) || (pb_authorization_expires_at_ms binding <=? now_ms) then Err (PayProtocol Expired)
    else if (MAX_PAYLOAD_DESCRIPTOR_BYTES <? len (ac_canonical_descriptor context))
         || negb (payload_digest (ac_canonical_descriptor context) =s ac_descriptor_digest context)
    then Err PayDescriptor
    else
    let? descriptor := ok_or PayDescriptor (from_slice (ac_canonical_descriptor context)) in
    let? canonical := map_err (fun _ => PayDescriptor)
                        (canonical_payload_descriptor_bytes descriptor artifact_limit_bytes) in
    if negb (canonical =s ac_canonical_descriptor context)
       || negb (pd_artifact_digest descriptor =s pb_artifact_digest binding) then Err PayDescriptor
    else
    let result := {| pc_origin := origin_ascii_serialization origin; pc_binding := binding;
                     pc_descriptor_digest := ac_descriptor_digest context; pc_descriptor := descriptor |} in
    let? request := context_request result Whole now_ms zero_nonce in
    let? _ := map_err PayProtocol (request_validate request) in
    Ok result.

Definition validate_payload_response (c : PayloadContext) (request : PayloadDownloadRequestV1)
    (response : PayloadHttpResponse) : result unit PayloadError :=
  let size := pd_artifact_size_bytes (pc_descriptor c) in
  let? selection := map_err PayProtocol (select_range (pq_range request) size) in
  let content_range :=
    match pq_range request with
    | Whole => None
    | Bytes start end_inclusive =>
        Some ("bytes " +:+ pretty start +:+ "-" +:+ pretty end_inclusive +:+ "/" +:+ pretty size)
    end in
  if negb (ps_status response =? if opt_is_some content_range then 206 else 200)
  then Err (if (ps_status response =? 401) || (ps_status response =? 403) then PayRefused else PayResponse)
  else if negb (bool_decide (ps_content_length response = Some (sel_length selection)))
       || negb (bool_decide (ps_content_range response = content_range))
       || negb (ps_descriptor_digest response =s pc_descriptor_digest c)
       || negb (ps_artifact_digest response =s pb_artifact_digest (pc_binding c))
       || is_some_and (ps_content_encoding response) (fun v => negb (v =s "identity")) then Err PayResponse
  else Ok tt.

(** ** The download *)

Record PayloadTransferPolicy := { tp_max_attempts : Z; tp_max_elapsed : Z; tp_retry_delay : Z }.
Record VerifiedPayload := { vp_artifact_digest : string; vp_descriptor_digest : string; vp_size_bytes : Z }.

(** What the attempts share: the hasher's input, the offset and the nonces. *)
Record Progress := { pg_hashed : string; pg_offset : Z; pg_nonces : list string }.

Context `{!PayloadWorld}.

Definition payload_now : io PEvent (result Z PayloadError) :=
  r ← in_world (fun w => @unix_time_ms w);
  mret (ok_or PayRuntime (z ← r; checked_i64 z)).

Definition check_transport (request : PayloadDownloadRequestV1) (range_header : option string) (now_ms : Z)
  : result unit PayloadDownloadRefusal :=
  validate_transport request "GET" (pq_request_target request) range_header now_ms.

Definition out_of_time (policy : PayloadTransferPolicy) (started : Z) : io PEvent bool :=
  e ← in_world (fun w => @elapsed w);
  mret (tp_max_elapsed policy <=? duration_saturating_sub e started).

(** One turn of [while remaining > 0]: the bytes are [size - offset] short. *)
Definition stream_step (c : PayloadContext) (policy : PayloadTransferPolicy) (started : Z)
    (request : PayloadDownloadRequestV1) (range_header : option string) (s : Progress)
  : io PEvent (Progress + result Progress PayloadError) :=
  let remaining := pd_artifact_size_bytes (pc_descriptor c) - pg_offset s in
  if negb (0 <? remaining) then mret (inr (Ok s))
  else
    at_ ← payload_now;
    match at_ with
    | Err e => mret (inr (Err e))
    | Ok now_ms =>
        if pb_authorization_expires_at_ms (pc_binding c) <=? now_ms then mret (inr (Err (PayProtocol Expired)))
        else
          match check_transport request range_header now_ms with
          | Err Expired => mret (inr (Ok s))
          | Err e => mret (inr (Err (PayProtocol e)))
          | Ok _ =>
              late ← out_of_time policy started;
              if (late : bool) then mret (inr (Err PayIncomplete))
              else
                got ← body_read (Z.min remaining STREAM_BUFFER_BYTES);
                match got with
                | None | Some EmptyString => mret (inr (Ok s))
                | Some bytes =>
                    ok ← sink_write_all bytes;
                    if negb ok then mret (inr (Err PayWrite))
                    else mret (inl {| pg_hashed := pg_hashed s +:+ bytes; pg_offset := pg_offset s + len bytes;
                                      pg_nonces := pg_nonces s |})
                end
          end
    end.

(** The digest of everything written, then the flush. *)
Definition commit_payload (c : PayloadContext) (s : Progress) : io PEvent (result VerifiedPayload PayloadError) :=
  if negb (payload_digest (pg_hashed s) =s pb_artifact_digest (pc_binding c)) then mret (Err PayIntegrity)
  else
    ok ← sink_flush;
    if negb ok then mret (Err PayWrite)
    else mret (Ok {| vp_artifact_digest := pb_artifact_digest (pc_binding c);
                     vp_descriptor_digest := pc_descriptor_digest c;
                     vp_size_bytes := pg_offset s |}).

(** [if remaining == 0]: the end of the stream and the checks of the whole. *)
Definition finish (c : PayloadContext) (request : PayloadDownloadRequestV1) (range_header : option string)
    (s : Progress) : io PEvent (result VerifiedPayload PayloadError) :=
  extra ← body_read 1;
  match extra with
  | None => mret (Err PayIncomplete)
  | Some (String _ _) => mret (Err PayResponse)
  | Some EmptyString =>
      let!? now_ms := payload_now in
      if pb_authorization_expires_at_ms (pc_binding c) <=? now_ms then mret (Err (PayProtocol Expired))
      else
        match check_transport request range_header now_ms with
        | Ok _ | Err Expired => commit_payload c s
        | Err e => mret (Err (PayProtocol e))
        end
  end.

(** The signed envelope of one attempt, its body and its range header. *)
Definition signed_request (c : PayloadContext) (range : PayloadDownloadRangeV1) (nonce : string)
  : io PEvent (result (PayloadDownloadRequestV1 * string) PayloadError) :=
  let!? now_ms := payload_now in
  match context_request c range now_ms nonce with
  | Err e => mret (Err e)
  | Ok request =>
      match message request with
      | Err e => mret (Err (PayProtocol e))
      | Ok message =>
          signed ← in_world (fun w => @bridge_call w "signer_sign" (sign_params message));
          match signed with
          | Err _ => mret (Err PayBridge)
          | Ok signed =>
              match (v ← value_get "bytes" signed; as_str v) with
              | None => mret (Err PayBridge)
              | Some raw =>
                  let signature := to_ascii_lowercase (default raw (strip_prefix "0x" raw)) in
                  let body := to_vec_fields (download_envelope_fields {| sq_request := request; sq_signature := signature |}) in
                  match parse_signed body with
                  | Err e => mret (Err (PayProtocol e))
                  | Ok _ =>
                      let!? now_ms := payload_now in
                      match check_transport request (range_text range) now_ms with
                      | Err e => mret (Err (PayProtocol e))
                      | Ok _ => mret (Ok (request, body))
                      end
                  end
              end
          end
      end
  end.

(** [matches!(status, 408 | 429 | 500..=599)]. *)
Definition retryable_status (status : Z) : bool :=
  (status =? 408) || (status =? 429) || ((500 <=? status) && (status <=? 599)).

(** What the response to an attempt's request leads to: [inl] is the next
    attempt. *)
Definition receive (c : PayloadContext) (policy : PayloadTransferPolicy) (started : Z)
    (request : PayloadDownloadRequestV1) (range_header : option string) (s : Progress)
    (response : result PayloadHttpResponse PayloadHttpError)
  : io PEvent (Progress + result VerifiedPayload PayloadError) :=
  let size := pd_artifact_size_bytes (pc_descriptor c) in
  match response with
  | Err PayloadTransport => mret (inl s)
  | Err PayloadRejected => mret (inr (Err PayRefused))
  | Ok response =>
      if retryable_status (ps_status response) then mret (inl s)
      else
        match validate_payload_response c request response with
        | Err e => mret (inr (Err e))
        | Ok _ =>
            r ← loop (S (Z.to_nat (size - pg_offset s))) (stream_step c policy started request range_header) s;
            match r with
            | Err e => mret (inr (Err e))
            | Ok s' =>
                if size - pg_offset s' =? 0
                then v ← finish c request range_header s'; mret (inr v)
                else mret (inl s')
            end
        end
  end.

(** The pause after an attempt that has to be resumed. *)
Definition retry_pause (policy : PayloadTransferPolicy) (started : Z) : io PEvent unit :=
  e ← in_world (fun w => @elapsed w);
  in_world (fun _ => sleep (Z.min (tp_retry_delay policy)
                              (duration_saturating_sub (tp_max_elapsed policy) (duration_saturating_sub e started)))).

Definition missing_range (size offset : Z) : PayloadDownloadRangeV1 :=
  if offset =? 0 then Whole else Bytes offset (size - 1).

(** One turn of [for _ in 0..policy.max_attempts]. *)
Definition transfer_attempt (c : PayloadContext) (policy : PayloadTransferPolicy) (started : Z) (s : Progress)
  : io PEvent (Progress + result VerifiedPayload PayloadError) :=
  late ← out_of_time policy started;
  if (late : bool) then mret (inr (Err PayIncomplete))
  else
    let range := missing_range (pd_artifact_size_bytes (pc_descriptor c)) (pg_offset s) in
    random ← in_world (fun w => @fill_random w 32);
    match random with
    | None => mret (inr (Err PayRuntime))
    | Some random =>
        let nonce := hex_encode random in
        if str_in nonce (pg_nonces s) then mret (inr (Err (PayProtocol NonceReplayed)))
        else
          signed ← signed_request c range nonce;
          match signed with
          | Err e => mret (inr (Err e))
          | Ok (request, body) =>
              response ← http_get (pc_origin c +:+ pq_request_target request) body (range_text range);
              r ← receive c policy started request (range_text range)
                    {| pg_hashed := pg_hashed s; pg_offset := pg_offset s; pg_nonces := nonce :: pg_nonces s |}
                    response;
              match r with
              | inr v => mret (inr v)
              | inl s' => _ ← retry_pause policy started; mret (inl s')
              end
          end
    end.

Fixpoint transfer_attempts (n : nat) (c : PayloadContext) (policy : PayloadTransferPolicy) (started : Z) (s : Progress)
  : io PEvent (result VerifiedPayload PayloadError) :=
  match n with
  | O => mret (Err PayIncomplete)
  | S n =>
      r ← transfer_attempt c policy started s;
      match r with
      | inr v => mret v
      | inl s' => transfer_attempts n c policy started s'
      end
  end.

Definition download_payload (c : PayloadContext) (policy : PayloadTransferPolicy)
  : io PEvent (result VerifiedPayload PayloadError) :=
  if negb ((1 <=? tp_max_attempts policy) && (tp_max_attempts policy <=? MAX_PAYLOAD_TRANSFER_ATTEMPTS))
     || (tp_max_elapsed policy =? 0) then mret (Err PayBudget)
  else
    identity ← in_world (fun w => @discover_runtime_identity _ w);
    match identity with
    | Err _ => mret (Err PayBridge)
    | Ok identity =>
        if negb (id_processor_id identity =s pb_processor_id (pc_binding c)) then mret (Err PayBinding)
        else
          match bridge_job_ref (id_job_id identity) with
          | Err e => mret (Err e)
          | Ok job =>
              if negb (bool_decide (job = pb_job (pc_binding c))) then mret (Err PayBinding)
              else
                started ← in_world (fun w => @elapsed w);
                transfer_attempts (Z.to_nat (tp_max_attempts policy)) c policy started
                  {| pg_hashed := EmptyString; pg_offset := 0; pg_nonces := [] |}
          end
    end.

End client.

(** ** What a download promises *)

(** The bytes the sink accepted, oldest first. *)
Fixpoint written (es : list PEvent) : string :=
  match es with
  | [] => EmptyString
  | PWrite bytes true :: es => written es +:+ bytes
  | _ :: es => written es
  end.

Definition write_ok (e : PEvent) : Prop := match e with PWrite _ ok => ok = true | _ => True end.

(** Events that neither send a request nor write to the sink. *)
Definition quiet (e : PEvent) : Prop :=
  match e with PGet _ _ _ _ | PWrite _ _ => False | _ => True end.

(** ** A delivery in two requests

    A stream that breaks after three of seven bytes, resumed with a range. *)

Definition sample_json : JsonText :=
  {| to_vec := fun _ => "job";
     to_vec_fields := fun l => match l with (k, _) :: _ => k | [] => "null" end;
     from_str := fun _ => Some (Arr [jobj [("kind", Str "Acurast"); ("source", Str sample_key)]; Str "7"]) |}.
Definition sample_sha : Sha256 := fun _ => sample_nonce 32.
Definition sample_origin : UrlOrigin := fun _ => "https://payloads.test".

Definition sample_job : PayloadJobRefV1 :=
  {| jr_origin_kind := "acurast"; jr_origin_key := "0x" +:+ sample_key; jr_sequence := "7" |}.
Definition sample_artifact : string := "sha256:" +:+ sample_hex (sample_nonce 32).
Definition sample_binding : PayloadDownloadBindingV1 :=
  {| pb_organisation_id := "org"; pb_application_uid := "uid"; pb_job := sample_job; pb_processor_id := "5Proc";
     pb_runtime_instance_id := "instance"; pb_artifact_digest := sample_artifact;
     pb_launch := {| lb_launch_id := "launch"; lb_policy_digest := sample_digest |}; pb_workload := None;
     pb_authorization_expires_at_ms := 1700000100000 |}.
Definition sample_context : PayloadContext :=
  {| pc_origin := "https://payloads.test"; pc_binding := sample_binding; pc_descriptor_digest := sample_artifact;
     pc_descriptor := sample_descriptor sample_artifact 7 |}.
Definition sample_signed : SignedPayloadDownloadRequestV1 :=
  {| sq_request :=
       {| pq_domain := PAYLOAD_DOWNLOAD_DOMAIN_V1; pq_method := "GET"; pq_request_target := "/v1/payloads/" +:+ sample_artifact;
          pq_range := Whole; pq_artifact_digest := sample_artifact; pq_organisation_id := "org"; pq_application_uid := "uid";
          pq_job := sample_job; pq_processor_id := "5Proc"; pq_runtime_instance_id := "instance";
          pq_launch := pb_launch sample_binding; pq_workload := None; pq_issued_at_ms := 1700000000000;
          pq_expires_at_ms := 1700000060000; pq_nonce := repeat_byte 64 "0" |};
     sq_signature := repeat_byte 128 "b" |}.
Definition sample_signed_reader : Deserialize SignedPayloadDownloadRequestV1 := fun _ => Some sample_signed.
Definition sample_descriptor_reader : Deserialize CargoPayloadDescriptorV1 :=
  fun _ => Some (sample_descriptor sample_artifact 7).

Definition gets (t : list PEvent) : nat :=
  length (List.filter (fun e => match e with PGet _ _ _ _ => true | _ => false end) t).

Definition sample_payload_world : PayloadWorld :=
  {| at_bridge := fun _ method _ => sample_bridge method;
     at_random := fun t n => Some (repeat_byte n (ascii_of_nat (65 + gets t)));
     at_unix_time := fun _ => Some 1700000000000;
     at_elapsed := fun _ => 0;
     at_get := fun t _ _ header =>
       Ok {| ps_status := if opt_is_some header then 206 else 200;
             ps_content_length := Some (7 - len (written t));
             ps_content_range := if opt_is_some header then Some "bytes 3-6/7" else None;
             ps_content_encoding := None;
             ps_descriptor_digest := sample_artifact;
             ps_artifact_digest := sample_artifact |};
     at_read := fun t =>
       match gets t, written t with
       | 1%nat, EmptyString => Some "pay"
       | 2%nat, "pay" => Some "load"
       | _, _ => Some EmptyString
       end;
     at_write := fun _ => true;
     at_flush := fun _ => true |}.

Definition sample_policy : PayloadTransferPolicy := {| tp_max_attempts := 3; tp_max_elapsed := 1000; tp_retry_delay := 1 |}.

Definition sample_download : option (result VerifiedPayload PayloadError) * list PEvent :=
  @download_payload sample_json sample_sha sample_encodings sample_signed_reader sample_payload_world
    sample_context sample_policy [].

Definition sample_payload_bootstrap : RuntimeBootstrapResponse :=
  {| rb_ok := true; rb_domain := RUNTIME_BOOTSTRAP_RESPONSE_DOMAIN_V2; rb_application_uid := "uid";
     rb_application_id := "app"; rb_policy_digest := sample_digest; rb_deployment_id := "deployment"; rb_job_id := "job";
     rb_processor_id := "5Proc"; rb_runtime_instance_id := "instance"; rb_slipway_url := "https://slipway.test";
     rb_runtime_env := None; rb_secrets := None; rb_supervision := None; rb_logging := None;
     rb_logging_outage_canary := false; rb_diagnostics := None; rb_access := None; rb_processor_facts := None;
     rb_fact_authorization := None |}.
Definition sample_offer : AuthenticatedPayloadContext :=
  {| ac_capability_version := 1; ac_service_origin := "https://payloads.test"; ac_binding := sample_binding;
     ac_descriptor_digest := sample_artifact; ac_canonical_descriptor := "format" |}.

(** ** The invariant of a call *)

(** The range names the bytes of an object of [size] from the [n]th on. *)
Definition lacking (size n : Z) (range : PayloadDownloadRangeV1) : Prop :=
  match range with
  | Whole => n = 0
  | Bytes start stop => 0 < n /\ start = n /\ stop + 1 = size
  end.

Section promises.
Context `{!JsonText, !Sha256, !Encodings}.
Variable c : PayloadContext.

Definition artifact_size : Z := pd_artifact_size_bytes (pc_descriptor c).

(** A request that can be sent after [es]: for [range], bound to the context,
    inside its validity by the clock reading just before, and signed by the
    bridge. *)
Definition prepared (range : PayloadDownloadRangeV1) (nonce : string) (r : PayloadDownloadRequestV1) (body : string)
    (es : list PEvent) : Prop :=
  pq_range r = range /\ pq_nonce r = nonce /\
  pq_request_target r = "/v1/payloads/" +:+ pb_artifact_digest (pc_binding c) /\
  validate_binding r (pc_binding c) = Ok tt /\
  (exists now_ms, head es = Some (PWorld (EvUnixTime (Some now_ms))) /\
     pq_issued_at_ms r <= now_ms < pq_expires_at_ms r) /\
  exists message_bytes reply raw,
    message r = Ok message_bytes /\
    PWorld (EvBridge "signer_sign" (sign_params message_bytes) (Ok reply)) ∈ es /\
    (v ← value_get "bytes" reply; as_str v) = Some raw /\
    body = to_vec_fields (download_envelope_fields
             {| sq_request := r; sq_signature := to_ascii_lowercase (default raw (strip_prefix "0x" raw)) |}).

(** The GET sent after [es] carries the request [r]: at the context's origin, for
    exactly the bytes the sink does not have yet. *)
Definition sent (es : list PEvent) (url body : string) (header : option string) (r : PayloadDownloadRequestV1) : Prop :=
  url = pc_origin c +:+ pq_request_target r /\
  header = range_text (pq_range r) /\
  lacking artifact_size (len (written es)) (pq_range r) /\
  prepared (pq_range r) (pq_nonce r) r body es.

(** The GETs of [es] carry the requests [rs], newest first, each with a nonce of
    its own. *)
Inductive authorised : list PEvent -> list PayloadDownloadRequestV1 -> Prop :=
| authorised_nil : authorised [] []
| authorised_other e es rs :
    (forall url body header reply, e <> PGet url body header reply) ->
    authorised es rs -> authorised (e :: es) rs
| authorised_get url body header reply es r rs :
    sent es url body header r -> pq_nonce r ∉ map pq_nonce rs ->
    authorised es rs -> authorised (PGet url body header reply :: es) (r :: rs).

(** The whole artifact reached the sink: every byte of it, with the bound digest,
    then the end of the stream, an unexpired authorization and a flush. *)
Definition delivered (v : VerifiedPayload) (es : list PEvent) : Prop :=
  v = {| vp_artifact_digest := pb_artifact_digest (pc_binding c); vp_descriptor_digest := pc_descriptor_digest c;
         vp_size_bytes := artifact_size |} /\
  len (written es) = artifact_size /\
  payload_digest (written es) = pb_artifact_digest (pc_binding c) /\
  Forall write_ok es /\
  exists now_ms es',
    es = PFlush true :: PWorld (EvUnixTime (Some now_ms)) :: PRead 1 (Some EmptyString) :: es' /\
    now_ms < pb_authorization_expires_at_ms (pc_binding c).

Record tracks (s : Progress) (es : list PEvent) (rs : list PayloadDownloadRequestV1) : Prop := {
  tracks_hashed : pg_hashed s = written es;
  tracks_offset : pg_offset s = len (written es);
  tracks_bound : len (written es) <= artifact_size;
  tracks_writes : Forall write_ok es;
  tracks_requests : authorised es rs;
  tracks_nonces : pg_nonces s = map pq_nonce rs
}.

Definition outcome (r : result VerifiedPayload PayloadError) (es : list PEvent) (rs : list PayloadDownloadRequestV1)
  : Prop :=
  authorised es rs /\ len (written es) <= artifact_size /\
  match r with Ok v => delivered v es | Err _ => True end.

(** *** Quiet events change nothing *)

Lemma written_quiet es es' : Forall quiet es' -> written (es' ++ es) = written es.
Proof. induction 1 as [|e l He _ IH]; [done |]. by destruct e. Qed.

Lemma authorised_quiet es es' rs : Forall quiet es' -> authorised es rs -> authorised (es' ++ es) rs.
Proof.
  intros Hq Ha. induction Hq as [|e l He _ IH]; [done |]. apply authorised_other; [| exact IH]. by intros ? ? ? ? ->.
Qed.

Lemma tracks_quiet s es es' rs : Forall quiet es' -> tracks s es rs -> tracks s (es' ++ es) rs.
Proof.
  intros Hq [Hh Ho Hb Hw Ha Hn]. split; rewrite ?written_quiet by done; try done.
  - apply Forall_app. split; [| done]. eapply Forall_impl; [exact Hq |]. by intros [].
  - by apply authorised_quiet.
Qed.

Lemma tracks_outcome s es es' rs e : Forall quiet es' -> tracks s es rs -> outcome (Err e) (es' ++ es) rs.
Proof.
  intros Hq Hp. destruct (tracks_quiet s es es' rs Hq Hp) as [_ _ Hb _ Ha _]. by repeat split.
Qed.

Lemma authorised_nodup es rs : authorised es rs -> NoDup (map pq_nonce rs).
Proof. induction 1; [constructor | done | by constructor]. Qed.

(** The loop's verdict: the bytes go on, or the call ends in an error. *)
Definition streamed (r : result Progress PayloadError) (es : list PEvent) (rs : list PayloadDownloadRequestV1) : Prop :=
  match r with Ok s => tracks s es rs | Err e => outcome (Err e) es rs end.

Lemma tracks_streamed s es es' rs (r : result unit PayloadError) : Forall quiet es' -> tracks s es rs ->
  streamed (match r with Ok _ => Ok s | Err e => Err e end) (es' ++ es) rs.
Proof. intros Hq Ht. destruct r; cbn; [by apply tracks_quiet | by eapply tracks_outcome]. Qed.

Lemma tracks_write s es rs bytes : tracks s es rs -> len bytes <= artifact_size - pg_offset s ->
  tracks {| pg_hashed := pg_hashed s +:+ bytes; pg_offset := pg_offset s + len bytes; pg_nonces := pg_nonces s |}
    (PWrite bytes true :: es) rs.
Proof.
  intros [Hh Ho Hb Hw Ha Hn] Hl. split; cbn [written pg_hashed pg_offset pg_nonces]; rewrite ?len_app; try done.
  - by rewrite Hh.
  - lia.
  - lia.
  - by constructor.
  - by apply authorised_other.
Qed.

Context `{!UrlApi, !PayloadWorld}.
Context `{!Deserialize SignedPayloadDownloadRequestV1}.

Lemma does_in_world {A} (m : World -> io event A) (Q : A -> list event -> Prop) :
  (forall w, does (m w) Q) -> does (in_world m) (fun a es => exists es0, es = map PWorld es0 /\ Q a es0).
Proof.
  intros Hm t. destruct (Hm (world_at t) []) as (a & es & Hr & HQ). exists a, (map PWorld es).
  unfold in_world. rewrite Hr, app_nil_r. split; [done |]. by exists es.
Qed.

Lemma quiet_world es : Forall quiet (map PWorld es).
Proof. apply Forall_fmap, Forall_true. done. Qed.

Lemma does_quiet {A} (m : World -> io event A) :
  (forall w, emits (fun _ => True) (m w)) -> does (in_world m) (fun _ es => Forall quiet es).
Proof.
  intros Hm. eapply does_conseq; [apply (does_in_world m (fun _ _ => True)) |].
  - intros w. eapply does_conseq; [apply Hm | done].
  - intros a es (es0 & -> & _). apply quiet_world.
Qed.

Lemma does_now : does payload_now (fun r es => exists u, es = [PWorld (EvUnixTime u)] /\
  match r with Ok z => u = Some z | Err _ => True end).
Proof.
  unfold payload_now. eapply does_bind.
  { apply (does_in_world _ (fun u es => es = [EvUnixTime u])). intros w. by apply does_ask. }
  intros u ? (es & -> & ->). apply does_ret. exists u. split; [done |].
  destruct u as [z|]; [| done]. unfold checked_i64. cbn [mbind option_bind]. by destruct (_ && _).
Qed.

Lemma does_out_of_time policy started : does (out_of_time policy started) (fun _ es => Forall quiet es).
Proof.
  unfold out_of_time. eapply does_bind; [apply does_quiet; intros w; by apply emits_ask |].
  intros e es Hq. by apply does_ret.
Qed.

Section one_attempt.
Variables (policy : PayloadTransferPolicy) (started : Z).

Lemma len_str_take_le n s : 0 <= n -> len (str_take n s) <= n.
Proof.
  intros Hn. unfold str_take. rewrite bytes_len. unfold bytes, of_bytes.
  rewrite String.list_ascii_of_string_of_list_ascii, length_take. lia.
Qed.

(** What a turn of the loop leaves behind, after the events [es] of the call. *)
Definition turned (s : Progress) (rs : list PayloadDownloadRequestV1) (r : Progress + result Progress PayloadError)
    (es : list PEvent) : Prop :=
  match r with
  | inl s' => tracks s' es rs /\
      (Z.to_nat (artifact_size - pg_offset s') < Z.to_nat (artifact_size - pg_offset s))%nat
  | inr v => streamed v es rs
  end.

Lemma stream_write_does s es rs bytes : tracks s es rs -> 0 < len bytes <= artifact_size - pg_offset s ->
  does (ok ← sink_write_all bytes;
        if negb ok then mret (inr (Err PayWrite))
        else mret (inl {| pg_hashed := pg_hashed s +:+ bytes; pg_offset := pg_offset s + len bytes;
                          pg_nonces := pg_nonces s |}))
    (fun r es' => turned s rs r (es' ++ es)).
Proof.
  intros Ht Hlen. eapply does_bind; [apply (does_ask _ _ (fun ok es => es = [PWrite bytes ok])); done |].
  intros ok ? ->. destruct ok; cbn [negb]; apply does_ret.
  - split; [apply tracks_write; [done | lia] |]. cbn [pg_offset]. lia.
  - destruct Ht as [_ _ Hb _ Ha _]. split; [by apply authorised_other |]. by split.
Qed.

Lemma body_read_does count : 0 <= count ->
  does (body_read count) (fun got es => Forall quiet es /\ match got with Some b => len b <= count | None => True end).
Proof.
  intros Hc. apply does_ask. intros t. split; [by repeat constructor |].
  destruct (at_read t); cbn; [by apply len_str_take_le | done].
Qed.

Lemma stream_step_does request header s es rs : tracks s es rs ->
  does (stream_step c policy started request header s) (fun r es' => turned s rs r (es' ++ es)).
Proof.
  intros Ht. unfold stream_step, turned. fold artifact_size.
  pose proof (fun es' e (Hq : Forall quiet es') => tracks_streamed s es es' rs (Err e) Hq Ht) as Herr. cbn in Herr.
  pose proof (fun es' (Hq : Forall quiet es') => tracks_streamed s es es' rs (Ok tt) Hq Ht) as Hok. cbn in Hok.
  destruct (Z.ltb_spec 0 (artifact_size - pg_offset s)) as [Hr|]; cbn [negb]; [| by apply does_ret, Hok].
  eapply does_bind; [apply does_now |]. intros at_ ? (u & -> & _).
  assert (Hu : Forall quiet [PWorld (EvUnixTime u)]) by (by repeat constructor).
  destruct at_ as [now_ms|e]; [| by apply does_ret, Herr].
  case_match; [by apply does_ret, Herr |].
  destruct (check_transport request header now_ms) as [_|e];
    [| by destruct e; apply does_ret; first [by apply Hok | by apply Herr]].
  eapply does_bind; [apply does_out_of_time |]. intros late es1 Hq1.
  assert (Hq : Forall quiet (es1 ++ [PWorld (EvUnixTime u)])) by (by apply Forall_app).
  destruct late; [by apply does_ret, Herr |].
  eapply does_bind; [apply body_read_does; unfold STREAM_BUFFER_BYTES; lia |].
  intros got es2 [Hq2 Hgot].
  assert (Hq' : Forall quiet ((es2 ++ es1) ++ [PWorld (EvUnixTime u)])) by (rewrite <-app_assoc; by apply Forall_app).
  destruct got as [[|a bytes]|]; [by apply does_ret, Hok | | by apply does_ret, Hok].
  eapply does_conseq.
  - eapply (stream_write_does s _ rs (String a bytes)); [exact (tracks_quiet s es _ rs Hq' Ht) |]. split; [unfold len; cbn [String.length]; lia | lia].
  - intros r es3 HT. cbn beta in HT. rewrite !app_assoc in HT. exact HT.
Qed.

Lemma commit_payload_does s es rs now_ms : tracks s es rs -> pg_offset s = artifact_size ->
  now_ms < pb_authorization_expires_at_ms (pc_binding c) ->
  does (commit_payload c s) (fun r es' =>
    outcome r (((es' ++ [PWorld (EvUnixTime (Some now_ms))]) ++ [PRead 1 (Some EmptyString)]) ++ es) rs).
Proof.
  intros Ht Hfull Hnow. unfold commit_payload.
  pose proof (fun es' e (Hq : Forall quiet es') => tracks_outcome s es es' rs e Hq Ht) as Herr.
  destruct (str_eqb_spec (payload_digest (pg_hashed s)) (pb_artifact_digest (pc_binding c))) as [Hd|];
    cbn [negb]; [| apply does_ret, Herr; by repeat constructor].
  eapply does_bind; [apply (does_ask _ _ (fun ok es => es = [PFlush ok])); done |]. intros ok ? ->.
  destruct ok; cbn [negb]; apply does_ret; [| apply Herr; by repeat constructor].
  destruct (tracks_quiet s es [PFlush true; PWorld (EvUnixTime (Some now_ms)); PRead 1 (Some EmptyString)] rs)
    as [Hh Ho Hb Hw Ha _]; [by repeat constructor | done |].
  split; [exact Ha |]. split; [exact Hb |].
  split_and!; [by rewrite Hfull | exact (eq_trans (eq_sym Ho) Hfull) | exact (eq_trans (f_equal payload_digest (eq_sym Hh)) Hd) | exact Hw |].
  by exists now_ms, es.
Qed.

Lemma finish_does request header s es rs : tracks s es rs -> pg_offset s = artifact_size ->
  does (finish c request header s) (fun r es' => outcome r (es' ++ es) rs).
Proof.
  intros Ht Hfull. unfold finish.
  pose proof (fun es' e (Hq : Forall quiet es') => tracks_outcome s es es' rs e Hq Ht) as Herr.
  eapply does_bind; [apply (does_ask _ _ (fun got es => es = [PRead 1 got])); done |]. intros got ? ->.
  destruct got as [[|a bytes]|]; [| apply does_ret, Herr; by repeat constructor.. ].
  eapply does_bind; [apply does_now |]. intros at_ ? (u & -> & Hu).
  destruct at_ as [now_ms|e]; [| apply does_ret, Herr; by repeat constructor]. subst u.
  destruct (Z.leb_spec (pb_authorization_expires_at_ms (pc_binding c)) now_ms) as [|Hnow];
    [apply does_ret, Herr; by repeat constructor |].
  pose proof (commit_payload_does s es rs now_ms Ht Hfull Hnow) as Hend.
  destruct (check_transport request header now_ms) as [_|e]; [exact Hend |].
  destruct e; first [exact Hend | apply does_ret, Herr; by repeat constructor].
Qed.

Lemma receive_does request header s es rs response : tracks s es rs -> 
  does (receive c policy started request header s response) (fun r es' =>
    match r with inl s' => tracks s' (es' ++ es) rs | inr v => outcome v (es' ++ es) rs end).
Proof.
  intros Ht. unfold receive. fold artifact_size.
  pose proof (fun e => tracks_outcome s es [] rs e (Forall_nil_2 _) Ht) as Herr.
  destruct response as [response|[]]; [| by apply does_ret | by apply does_ret, Herr].
  case_match; [by apply does_ret |].
  destruct (validate_payload_response c request response) as [_|e]; [| by apply does_ret, Herr].
  eapply does_bind.
  { apply (does_loop (fun s => Z.to_nat (artifact_size - pg_offset s)) (fun s es => tracks s es rs)
             _ (fun r es => streamed r es rs)); [| exact Ht | lia].
    intros s1 es1 Ht1. by apply stream_step_does. }
  intros [s'|e] es1 Hs; cbn [streamed] in Hs.
  - destruct (Z.eqb_spec (artifact_size - pg_offset s') 0) as [Hz|]; [| by apply does_ret].
    eapply does_bind; [apply (finish_does request header s' _ rs Hs); lia |].
    intros v es2 Hv. apply does_ret. by rewrite <-app_assoc.
  - by apply does_ret.
Qed.

Lemma context_request_Ok range now_ms nonce r : context_request c range now_ms nonce = Ok r ->
  pq_range r = range /\ pq_nonce r = nonce /\
  pq_request_target r = "/v1/payloads/" +:+ pb_artifact_digest (pc_binding c) /\
  validate_binding r (pc_binding c) = Ok tt.
Proof.
  unfold context_request. case_match; [done |]. destruct (checked_i64 _); cbn [ok_or]; [| done].
  destruct (validate_binding _ _) as [[]|] eqn:Hv; cbn [map_err]; [| done]. intros [= <-]. by split_and!.
Qed.

Lemma check_transport_Ok r header now_ms u : check_transport r header now_ms = Ok u ->
  pq_issued_at_ms r <= now_ms < pq_expires_at_ms r.
Proof.
  unfold check_transport, validate_transport. intros Hc.
  destruct (request_validate r); [| done]. do 2 (case_match; [done |]).
  destruct (from_header header); [| done]. do 3 (case_match; [done |]). reflect_bool. lia.
Qed.

Lemma signed_request_does range nonce : does (signed_request c range nonce) (fun r es =>
  Forall quiet es /\ match r with Ok (request, body) => prepared range nonce request body es | Err _ => True end).
Proof.
  unfold signed_request.
  eapply does_bind; [apply does_now |]. intros at_ ? (u & -> & _).
  destruct at_ as [now_ms|e]; [| apply does_ret; by repeat constructor].
  destruct (context_request c range now_ms nonce) as [r|e] eqn:Hr; [| apply does_ret; by repeat constructor].
  destruct (context_request_Ok _ _ _ _ Hr) as (Hrange & Hnonce & Htarget & Hbind).
  destruct (message r) as [msg|e] eqn:Hmsg; [| apply does_ret; by repeat constructor].
  eapply does_bind.
  { apply (does_in_world _ (fun reply es => es = [EvBridge "signer_sign" (sign_params msg) reply])).
    intros w. by apply does_ask. }
  intros reply ? (? & -> & ->).
  destruct reply as [reply|e]; [| apply does_ret; by repeat constructor].
  destruct (v ← value_get "bytes" reply; as_str v) as [raw|] eqn:Hraw; [| apply does_ret; by repeat constructor].
  destruct (parse_signed _) as [_|e]; [| apply does_ret; by repeat constructor].
  eapply does_bind; [apply does_now |]. intros at2 ? (u2 & -> & Hu2).
  destruct at2 as [now2|e]; [| apply does_ret; by repeat constructor]. subst u2.
  destruct (check_transport r (range_text range) now2) as [u2|e] eqn:Ht; [| apply does_ret; by repeat constructor].
  apply does_ret. split; [by repeat constructor |]. split_and!; try done.
  - exists now2. split; [done |]. by eapply check_transport_Ok.
  - exists msg, reply, raw. split_and!; try done. cbn. right. left.
Qed.

Lemma prepared_app range nonce r body es es' : prepared range nonce r body es ->
  prepared range nonce r body (es ++ es').
Proof.
  intros (? & ? & ? & ? & (now_ms & Hh & ?) & msg & reply & raw & ? & Hin & ? & ?). split_and!; try done.
  - exists now_ms. split; [by destruct es |]. done.
  - exists msg, reply, raw. split_and!; try done. apply elem_of_app. by left.
Qed.

Lemma retry_pause_does : does (retry_pause policy started) (fun _ es => Forall quiet es).
Proof.
  unfold retry_pause. eapply does_bind; [apply does_quiet; intros w; by apply emits_ask |]. intros e es Hq.
  eapply does_conseq; [apply does_quiet; intros w; by apply emits_emit |]. intros u es' Hq'. by apply Forall_app.
Qed.

Lemma missing_range_lacking size n : 0 <= n -> lacking size n (missing_range size n).
Proof. intros Hn. unfold missing_range. destruct (Z.eqb_spec n 0); cbn; lia. Qed.

(** Sending a prepared request extends the authorised ones. *)
Lemma tracks_get s es es' rs nonce r body reply : tracks s es rs -> Forall quiet es' -> nonce ∉ pg_nonces s ->
  prepared (missing_range artifact_size (pg_offset s)) nonce r body es' ->
  tracks {| pg_hashed := pg_hashed s; pg_offset := pg_offset s; pg_nonces := nonce :: pg_nonces s |}
    (PGet (pc_origin c +:+ pq_request_target r) body (range_text (missing_range artifact_size (pg_offset s))) reply
       :: es' ++ es) (r :: rs).
Proof.
  intros Ht Hq Hnew Hp. destruct (tracks_quiet s es es' rs Hq Ht) as [Hh Ho Hb Hw Ha Hn].
  pose proof Hp as (Hrange & Hnonce & _).
  split; cbn [written pg_hashed pg_offset pg_nonces map]; try done.
  - by constructor.
  - apply authorised_get; [| by rewrite Hnonce, <-Hn | done].
    split_and!; [done | by rewrite Hrange | |].
    + rewrite Hrange, <-Ho. apply missing_range_lacking. rewrite Ho. apply len_nonneg.
    + rewrite Hrange, Hnonce. by apply prepared_app.
  - by rewrite Hnonce, Hn.
Qed.

Lemma attempt_does s es rs : tracks s es rs ->
  does (transfer_attempt c policy started s) (fun r es' => exists rs', (length rs' <= S (length rs))%nat /\
    match r with inl s' => tracks s' (es' ++ es) rs' | inr v => outcome v (es' ++ es) rs' end).
Proof.
  intros Ht. unfold transfer_attempt. fold artifact_size.
  pose proof (fun es' e (Hq : Forall quiet es') => tracks_outcome s es es' rs e Hq Ht) as Herr.
  eapply does_bind; [apply does_out_of_time |]. intros late es1 Hq1.
  destruct late; [apply does_ret; exists rs; split; [lia | by apply Herr] |].
  eapply does_bind; [apply does_quiet; intros w; by apply emits_ask |]. intros random es2 Hq2.
  assert (Hq12 : Forall quiet (es2 ++ es1)) by (by apply Forall_app).
  destruct random as [random|]; [| apply does_ret; exists rs; split; [lia | by apply Herr]].
  destruct (str_in (hex_encode random) (pg_nonces s)) eqn:Hnew;
    [apply does_ret; exists rs; split; [lia | by apply Herr] |].
  assert (Hfresh : hex_encode random ∉ pg_nonces s) by (by intros Hin; apply str_in_spec in Hin; rewrite Hin in Hnew).
  eapply does_bind; [apply signed_request_does |]. intros signed es3 [Hq3 Hp].
  assert (Hq123 : Forall quiet (es3 ++ es2 ++ es1)) by (by apply Forall_app).
  destruct signed as [[r body]|e].
  2: { apply does_ret. exists rs. split; [lia |]. rewrite <-(app_assoc _ es2). by apply Herr. }
  eapply does_bind; [apply (does_ask _ _ (fun reply es => es = [PGet (pc_origin c +:+ pq_request_target r) body
      (range_text (missing_range artifact_size (pg_offset s))) reply])); done |].
  intros response ? ->.
  pose proof (tracks_get s es (es3 ++ es2 ++ es1) rs _ r body response Ht Hq123 Hfresh (prepared_app _ _ _ _ _ _ Hp)) as Ht'.
  eapply does_bind; [apply (receive_does r _ _ _ (r :: rs) response Ht') |].
  intros [s'|v] es4 Hr; rewrite <-!app_assoc in Hr.
  - eapply does_bind; [apply retry_pause_does |]. intros u es5 Hq5. apply does_ret. exists (r :: rs). split; [done |].
    rewrite <-!app_assoc. exact (tracks_quiet s' _ es5 _ Hq5 Hr).
  - apply does_ret. exists (r :: rs). split; [done |]. by rewrite <-!app_assoc.
Qed.

Lemma attempts_does n s es rs : tracks s es rs ->
  does (transfer_attempts n c policy started s) (fun v es' => exists rs', (length rs' <= n + length rs)%nat /\
    outcome v (es' ++ es) rs').
Proof.
  revert s es rs. induction n as [|n IH]; intros s es rs Ht; cbn [transfer_attempts].
  { apply does_ret. exists rs. split; [done |]. by apply (tracks_outcome s es [] rs). }
  eapply does_bind; [by apply attempt_does |]. intros [s'|v] es1 (rs1 & Hlen & Hr).
  - eapply does_conseq; [by apply IH |]. intros v es2 (rs2 & Hlen2 & Hv). exists rs2. split; [lia |].
    by rewrite <-app_assoc.
  - apply does_ret. exists rs1. split; [lia | done].
Qed.

End one_attempt.

Lemma tracks_start es : Forall quiet es -> 0 <= artifact_size ->
  tracks {| pg_hashed := EmptyString; pg_offset := 0; pg_nonces := [] |} es [].
Proof.
  intros Hq Hsize. rewrite <-(app_nil_r es). apply tracks_quiet; [done |].
  split; [done.. | | constructor | done]. constructor.
Qed.

Lemma identity_quiet w : emits (fun _ => True) (@discover_runtime_identity _ w).
Proof. unfold discover_runtime_identity, bridge_call. solve_emits; by repeat split. Qed.

Lemma download_does policy : 0 <= artifact_size ->
  does (download_payload c policy) (fun v es => exists rs,
    (Z.of_nat (length rs) <= Z.max 0 (tp_max_attempts policy)) /\ Z.of_nat (length rs) <= MAX_PAYLOAD_TRANSFER_ATTEMPTS /\
    outcome v es rs).
Proof.
  intros Hsize. unfold download_payload.
  assert (Herr : forall es e, Forall quiet es -> exists rs,
    (Z.of_nat (length rs) <= Z.max 0 (tp_max_attempts policy)) /\ Z.of_nat (length rs) <= MAX_PAYLOAD_TRANSFER_ATTEMPTS /\
    outcome (Err e) es rs).
  { intros es e Hq. exists []. split; [cbn; lia |]. split; [done |].
    rewrite <-(app_nil_r es). exact (tracks_outcome _ [] es [] e Hq (tracks_start [] (Forall_nil_2 _) Hsize)). }
  destruct (_ || _) eqn:Hbudget; [apply does_ret; by apply Herr |].
  eapply does_bind; [apply does_quiet, identity_quiet |]. intros identity es1 Hq1.
  destruct identity as [identity|e]; [| apply does_ret; by apply Herr].
  case_match; [apply does_ret; by apply Herr |].
  destruct (bridge_job_ref _) as [job|e]; [| apply does_ret; by apply Herr].
  case_match; [apply does_ret; by apply Herr |].
  eapply does_bind; [apply does_quiet; intros w; by apply emits_ask |]. intros started es2 Hq2.
  eapply does_conseq.
  - apply (attempts_does policy started _ _ (es2 ++ es1) []). apply tracks_start; [by apply Forall_app | done].
  - intros v es3 (rs & Hlen & Hv). exists rs. rewrite <-app_assoc. reflect_bool. cbn in Hlen. split_and!; [lia | lia | done].
Qed.

End promises.

(** ** The theorems *)

Section theorems.
Context `{!JsonText, !Sha256, !Encodings, !UrlApi, !UrlOrigin, !PayloadWorld}.
Context `{!Deserialize SignedPayloadDownloadRequestV1, !Deserialize CargoPayloadDescriptorV1}.

(** C16: a download always returns; when it returns a verified payload, the bytes
    the sink accepted, over however many requests, are exactly the artifact: all of
    its bytes, with the bound digest, every write accepted, the end of the stream
    seen, the authorization unexpired, and the sink flushed last. *)
Theorem download_verified c policy t : 0 <= artifact_size c ->
  exists r es, download_payload c policy t = (Some r, es ++ t) /\
    match r with Ok v => delivered c v es | Err _ => True end.
Proof.
  intros Hsize. destruct (download_does c policy Hsize t) as (r & es & Hr & rs & _ & _ & _ & _ & Hv). by exists r, es.
Qed.

(** C17: every GET of a download goes to the negotiated origin, asks for exactly
    the bytes the sink does not have yet, is bound to the context, carries a
    signature the bridge made over that very request, is sent inside its validity
    and has a nonce no other request of the call has; there are no more of them
    than the policy's attempts, 64 at most, and the sink never receives more bytes
    than the artifact has. *)
Theorem download_requests_authorised c policy t : 0 <= artifact_size c ->
  exists r es rs, download_payload c policy t = (Some r, es ++ t) /\
    authorised c es rs /\ NoDup (map pq_nonce rs) /\
    Z.of_nat (length rs) <= Z.max 0 (tp_max_attempts policy) /\ Z.of_nat (length rs) <= MAX_PAYLOAD_TRANSFER_ATTEMPTS /\
    len (written es) <= artifact_size c.
Proof.
  intros Hsize. destruct (download_does c policy Hsize t) as (r & es & Hr & rs & Hmax & H64 & Ha & Hb & _).
  exists r, es, rs. split_and!; try done. by eapply authorised_nodup.
Qed.

(** A negotiated context is bound to the first contact: same application,
    processor, instance, launch policy and job; its origin is an HTTPS origin
    without credentials, query or fragment; its descriptor is valid, is the one
    the digest names, byte for byte in canonical form, and describes the bound
    artifact; and the authorization has not expired. *)
Theorem negotiate_sound bootstrap context limit now_ms c : negotiate bootstrap context limit now_ms = Ok c ->
  pc_binding c = ac_binding context /\
  rb_application_uid bootstrap = pb_application_uid (pc_binding c) /\
  rb_processor_id bootstrap = pb_processor_id (pc_binding c) /\
  rb_runtime_instance_id bootstrap = pb_runtime_instance_id (pc_binding c) /\
  rb_policy_digest bootstrap = lb_policy_digest (pb_launch (pc_binding c)) /\
  bridge_job_ref (rb_job_id bootstrap) = Ok (pb_job (pc_binding c)) /\
  (exists u, url_parse (ac_service_origin context) = Some u /\ url_scheme u = "https" /\ url_username u = EmptyString /\
     url_password u = None /\ url_query u = None /\ url_fragment u = None /\ url_path u = "/" /\
     pc_origin c = origin_ascii_serialization u) /\
  payload_descriptor_validate (pc_descriptor c) limit = Ok tt /\
  to_vec_fields (payload_descriptor_fields (pc_descriptor c)) = ac_canonical_descriptor context /\
  payload_digest (ac_canonical_descriptor context) = pc_descriptor_digest c /\
  pd_artifact_digest (pc_descriptor c) = pb_artifact_digest (pc_binding c) /\
  0 <= now_ms < pb_authorization_expires_at_ms (pc_binding c).
Proof.
  unfold negotiate. intros Hn. case_match; [done |].
  destruct (url_parse _) as [u|] eqn:Hu; cbn [ok_or] in Hn; [| done]. do 2 (case_match; [done |]).
  destruct (bridge_job_ref _) as [job|] eqn:Hj; [| done].
  destruct (bool_decide_reflect (job = pb_job (ac_binding context))) as [->|]; cbn [negb] in Hn; [| done].
  do 2 (case_match; [done |]).
  destruct (from_slice _) as [d|] eqn:Hd; cbn [ok_or] in Hn; [| done].
  destruct (canonical_payload_descriptor_bytes d limit) as [bytes|] eqn:Hb; cbn [map_err] in Hn; [| done].
  case_match; [done |].
  unfold canonical_payload_descriptor_bytes in Hb.
  destruct (payload_descriptor_validate d limit) as [[]|] eqn:Hv; [| done]. injection Hb as <-.
  destruct (context_request _ _ _ _); [| done]. destruct (request_validate _); [| done].
  injection Hn as <-. cbn [pc_binding pc_origin pc_descriptor pc_descriptor_digest]. reflect_bool.
  split_and!; try done. exists u.
  destruct (url_username u); [| done]. destruct (url_password u); [done |].
  destruct (url_query u); [done |]. by destruct (url_fragment u).
Qed.

End theorems.

Lemma sample_download_succeeds : exists v, sample_download.1 = Some (Ok v).
Proof. eexists. vm_compute. reflexivity. Qed.

Lemma download_verified_witness :
  exists v es, sample_download = (Some (Ok v), es) /\ @delivered sample_sha sample_encodings sample_context v es.
Proof.
  destruct (@download_verified sample_json sample_sha sample_encodings sample_payload_world sample_signed_reader
              sample_context sample_policy [] ltac:(vm_compute; discriminate)) as (r & es & Hr & Hv).
  rewrite app_nil_r in Hr. change (sample_download = (Some r, es)) in Hr.
  destruct sample_download_succeeds as [v Hs]. exists v, es. rewrite Hr in Hs. injection Hs as ->. split; [exact Hr | exact Hv].
Defined.

Lemma download_requests_authorised_witness :
  exists r es rs, sample_download = (Some r, es) /\
    @authorised sample_json sample_encodings sample_context es rs /\ Z.of_nat (length rs) <= 3.
Proof.
  destruct (@download_requests_authorised sample_json sample_sha sample_encodings sample_payload_world sample_signed_reader
              sample_context sample_policy [] ltac:(vm_compute; discriminate)) as (r & es & rs & Hr & Ha & _ & Hm & _).
  rewrite app_nil_r in Hr. exists r, es, rs. split; [exact Hr |]. split; [exact Ha | exact Hm].
Defined.

Lemma negotiate_sound_witness :
  @bridge_job_ref sample_json (rb_job_id sample_payload_bootstrap) = Ok (pb_job (pc_binding sample_context)).
Proof.
  pose proof (@negotiate_sound sample_json sample_sha sample_encodings sample_urls sample_origin
    sample_descriptor_reader sample_payload_bootstrap sample_offer 1024 1700000000000 sample_context
    ltac:(vm_compute; reflexivity)) as (_ & _ & _ & _ & _ & Hj & _).
  exact Hj.
Defined.
