(* ===== verification/FileSecrets.v ===== *)
(** * Secret files

    [file_secrets.rs]: the installation of a group of private files through
    staging and backup names next to each destination, with the rollback of a
    failed group and the recovery of an interrupted one.  The file system is a map
    from paths to nodes, changed by the calls of a history; any call may fail. *)
From Stdlib Require Import Ascii.
From stdpp Require Import prelude strings gmap.
From S2P Require Import Prelude Bridge World RestartPolicy.

Local Open Scope Z_scope.

(** ** The file system *)

Inductive FileSecretError := FsInvalidPath | FsInstall | FsRollback.

Inductive Node := NDir | NFile (mode : Z) (content : string) | NOther.
Notation Fs := (gmap (list string) Node).

Inductive OpenResult := Opened | NotFound | Refused.
Inductive StatResult := Stat (n : Node) | StatMissing | StatFault.

(** One system call each; a descriptor of a directory is its path. *)
Inductive FsEvent :=
| OpenRoot (ok : bool)
| OpenDir (path : list string) (r : OpenResult)
| MkDir (path : list string) (r : result unit bool)
| StatAt (path : list string) (r : StatResult)
| RenameAt (from to : list string) (ok : bool)
| UnlinkAt (path : list string) (r : result unit bool)
| CreateAt (path : list string) (ok : bool)
| WriteFd (path : list string) (r : string * bool)
| SyncFd (path : list string) (ok : bool).

Class FileHost := {
  call_fails : list FsEvent -> bool;
  written_before_fault : list FsEvent -> Z
}.

Definition private_mode : Z := 384.

Definition fs_apply (e : FsEvent) (fs : Fs) : Fs :=
  match e with
  | MkDir path (Ok _) => <[path := NDir]> fs
  | RenameAt from to true => match fs !! from with Some n => <[to := n]> (delete from fs) | None => fs end
  | UnlinkAt path (Ok _) => delete path fs
  | CreateAt path true => <[path := NFile private_mode EmptyString]> fs
  | WriteFd path (data, _) =>
      match fs !! path with
      | Some (NFile mode content) => <[path := NFile mode (content +:+ data)]> fs
      | _ => fs
      end
  | _ => fs
  end.

Section calls.
Context `{!FileHost}.
Variable initial : Fs.

Definition fs_at (t : list FsEvent) : Fs := foldr fs_apply initial t.

(** [openat] with [O_DIRECTORY | O_NOFOLLOW]. *)
Definition open_dir (path : list string) : io FsEvent OpenResult :=
  ask (fun t => if call_fails t then Refused
                else match fs_at t !! path with Some NDir => Opened | None => NotFound | Some _ => Refused end)
    (OpenDir path).
(** [mkdirat]; [Err true] is [AlreadyExists]. *)
Definition make_dir (path : list string) : io FsEvent (result unit bool) :=
  ask (fun t => if call_fails t then Err false
                else match fs_at t !! path with None => Ok tt | Some _ => Err true end) (MkDir path).
(** [fstatat] with [AT_SYMLINK_NOFOLLOW]. *)
Definition stat_at (path : list string) : io FsEvent StatResult :=
  ask (fun t => if call_fails t then StatFault
                else match fs_at t !! path with Some n => Stat n | None => StatMissing end) (StatAt path).
(** [renameat2]: a directory is not replaced by a file. *)
Definition rename_at (from to : list string) (no_replace : bool) : io FsEvent bool :=
  ask (fun t => negb (call_fails t) && opt_is_some (fs_at t !! from)
                && match fs_at t !! to with
                   | None => true
                   | Some NDir => false
                   | Some _ => negb no_replace
                   end) (RenameAt from to).
(** [unlinkat]; [Err true] is [NotFound]. *)
Definition unlink_at (path : list string) : io FsEvent (result unit bool) :=
  ask (fun t => if call_fails t then Err false
                else match fs_at t !! path with None => Err true | Some NDir => Err false | Some _ => Ok tt end)
    (UnlinkAt path).
(** [openat] with [O_CREAT | O_EXCL]. *)
Definition create_at (path : list string) : io FsEvent bool :=
  ask (fun t => negb (call_fails t) && opt_is_none (fs_at t !! path)) (CreateAt path).
Definition write_fd (path : list string) (data : string) : io FsEvent (string * bool) :=
  ask (fun t => if call_fails t then (str_take (written_before_fault t) data, false) else (data, true))
    (WriteFd path).
Definition sync_fd (path : list string) : io FsEvent bool := ask (fun t => negb (call_fails t)) (SyncFd path).
Definition open_root : io FsEvent bool := ask (fun t => negb (call_fails t)) OpenRoot.

(** ** The helpers *)

Definition c_name (name : string) : result string FileSecretError :=
  if contains_nul name then Err FsInvalidPath else Ok name.

Definition directory (parent : list string) (name : string) : io FsEvent (result (list string) FileSecretError) :=
  let path := parent ++ [name] in
  fd ← open_dir path;
  match fd with
  | Opened => mret (Ok path)
  | Refused => mret (Err FsInvalidPath)
  | NotFound =>
      made ← make_dir path;
      match made with
      | Err false => mret (Err FsInstall)
      | Ok _ | Err true =>
          fd ← open_dir path;
          mret match fd with Opened => Ok path | _ => Err FsInvalidPath end
      end
  end.

Definition regular_file (parent : list string) (name : string) : io FsEvent (result bool FileSecretError) :=
  stat ← stat_at (parent ++ [name]);
  mret match stat with
       | StatFault => Err FsInstall
       | StatMissing => Ok false
       | Stat (NFile _ _) => Ok true
       | Stat _ => Err FsInvalidPath
       end.

Definition rename (parent : list string) (source target : string) (no_replace : bool)
  : io FsEvent (result unit FileSecretError) :=
  ok ← rename_at (parent ++ [source]) (parent ++ [target]) no_replace;
  mret (if (ok : bool) then Ok tt else Err FsInstall).

Definition unlink (parent : list string) (name : string) : io FsEvent (result unit FileSecretError) :=
  r ← unlink_at (parent ++ [name]);
  mret match r with Ok _ | Err true => Ok tt | Err false => Err FsInstall end.

Definition sync_dir (parent : list string) (e : FileSecretError) : io FsEvent (result unit FileSecretError) :=
  ok ← sync_fd parent; mret (if (ok : bool) then Ok tt else Err e).

(** ** One file *)

Record PreparedFile := {
  pf_parent : list string;
  pf_destination : string;
  pf_staging : string;
  pf_backup : string;
  pf_staged : bool;
  pf_backed_up : bool;
  pf_committed : bool
}.

Definition with_flags (p : PreparedFile) (staged backed_up committed : bool) : PreparedFile :=
  {| pf_parent := pf_parent p; pf_destination := pf_destination p; pf_staging := pf_staging p;
     pf_backup := pf_backup p; pf_staged := staged; pf_backed_up := backed_up; pf_committed := committed |}.

(** [Path::components] of an absolute path after its root: repeated slashes and
    [.] disappear; [..] stays. *)
Definition normal_components (path : string) : list string :=
  List.filter (fun c => negb (str_is_empty c) && negb (c =s ".")) (split (byte_is 47) path).

Context `{!Sha256, !Encodings}.

Definition reserved_prefix : string := ".liskov-secret-".
Definition identity (path : string) : string := hex_encode (sha256 path).
Definition staging_name (path : string) : string := reserved_prefix +:+ identity path +:+ ".pending".
Definition backup_name (path : string) : string := reserved_prefix +:+ identity path +:+ ".previous".

(** [for component in &components[1..len - 1]]. *)
Fixpoint descend (parent : list string) (names : list string) : io FsEvent (result (list string) FileSecretError) :=
  match names with
  | [] => mret (Ok parent)
  | name :: names =>
      match c_name name with
      | Err e => mret (Err e)
      | Ok name => let!? parent := directory parent name in descend parent names
      end
  end.

(** The checks of [prepare] on the path alone: the directories below the root
    and the name. *)
Definition path_parts (path : string) : result (list string * string) FileSecretError :=
  if negb (starts_with "/" path) || ends_with "/" path || (4096 <? len path) then Err FsInvalidPath
  else
    let components := normal_components path in
    if existsb (fun c => c =s "..") components then Err FsInvalidPath
    else
      match rev components with
      | [] => Err FsInvalidPath
      | name :: dirs => Ok (rev dirs, name)
      end.

(** The end of [prepare]: what an interrupted installation left is undone. *)
Definition recover (parent : list string) (destination staging backup : string)
  : io FsEvent (result PreparedFile FileSecretError) :=
  let!? _d := regular_file parent destination in
  let!? stale := regular_file parent backup in
  let!? _r := (if (stale : bool) then rename parent backup destination false else mret (Ok tt)) in
  let!? pending := regular_file parent staging in
  let!? _u := (if (pending : bool) then unlink parent staging else mret (Ok tt)) in
  mret (Ok {| pf_parent := parent; pf_destination := destination; pf_staging := staging; pf_backup := backup;
              pf_staged := false; pf_backed_up := false; pf_committed := false |}).

Definition prepare (path : string) : io FsEvent (result PreparedFile FileSecretError) :=
  match path_parts path with
  | Err e => mret (Err e)
  | Ok (dirs, name) =>
      opened ← open_root;
      if negb opened then mret (Err FsInstall)
      else
        let!? parent := descend [] dirs in
        match c_name name with
        | Err e => mret (Err e)
        | Ok destination =>
            if starts_with reserved_prefix destination then mret (Err FsInvalidPath)
            else
              match c_name (staging_name path), c_name (backup_name path) with
              | Ok staging, Ok backup => recover parent destination staging backup
              | _, _ => mret (Err FsInvalidPath)
              end
        end
  end.

(** The methods that change the flags return them even when they fail. *)
Definition write (p : PreparedFile) (value : string) : io FsEvent (PreparedFile * result unit FileSecretError) :=
  created ← create_at (pf_parent p ++ [pf_staging p]);
  if negb created then mret (p, Err FsInstall)
  else
    let p := with_flags p true (pf_backed_up p) (pf_committed p) in
    wrote ← write_fd (pf_parent p ++ [pf_staging p]) value;
    if negb (wrote : string * bool).2 then mret (p, Err FsInstall)
    else
      synced ← sync_fd (pf_parent p ++ [pf_staging p]);
      mret (p, if (synced : bool) then Ok tt else Err FsInstall).

(** The second half of [commit]. *)
Definition publish (p : PreparedFile) : io FsEvent (PreparedFile * result unit FileSecretError) :=
  renamed ← rename (pf_parent p) (pf_staging p) (pf_destination p) false;
  match renamed with
  | Err e => mret (p, Err e)
  | Ok _ =>
      synced ← sync_dir (pf_parent p) FsInstall;
      mret (with_flags p false (pf_backed_up p) true, synced)
  end.

Definition commit (p : PreparedFile) : io FsEvent (PreparedFile * result unit FileSecretError) :=
  existing ← regular_file (pf_parent p) (pf_destination p);
  match existing with
  | Err e => mret (p, Err e)
  | Ok false => publish p
  | Ok true =>
      renamed ← rename (pf_parent p) (pf_destination p) (pf_backup p) true;
      match renamed with
      | Err e => mret (p, Err e)
      | Ok _ => publish (with_flags p (pf_staged p) true (pf_committed p))
      end
  end.

Definition rollback (p : PreparedFile) : io FsEvent (result unit FileSecretError) :=
  let!? _a := (if pf_committed p then unlink (pf_parent p) (pf_destination p) else mret (Ok tt)) in
  let!? _b := (if pf_backed_up p then rename (pf_parent p) (pf_backup p) (pf_destination p) false
               else mret (Ok tt)) in
  let!? _c := (if pf_staged p then unlink (pf_parent p) (pf_staging p) else mret (Ok tt)) in
  sync_dir (pf_parent p) FsRollback.

(** ** The group *)

(** The first loop: [prepared] so far, in order. *)
Fixpoint stage_all (prepared : list PreparedFile) (files : list (string * string))
  : io FsEvent (list PreparedFile * result unit FileSecretError) :=
  match files with
  | [] => mret (prepared, Ok tt)
  | (path, value) :: files =>
      p ← prepare path;
      match p with
      | Err e => mret (prepared, Err e)
      | Ok p =>
          w ← write p value;
          match (w : PreparedFile * _).2 with
          | Err e => mret (prepared ++ [w.1], Err e)
          | Ok _ => stage_all (prepared ++ [w.1]) files
          end
      end
  end.

Variable before_commit : nat -> result unit FileSecretError.

(** The second loop: the files committed so far and the ones to come. *)
Fixpoint commit_all (index : nat) (done todo : list PreparedFile)
  : io FsEvent (list PreparedFile * result unit FileSecretError) :=
  match todo with
  | [] => mret (done, Ok tt)
  | p :: todo =>
      match before_commit index with
      | Err e => mret (done ++ p :: todo, Err e)
      | Ok _ =>
          c ← commit p;
          match (c : PreparedFile * _).2 with
          | Err e => mret (done ++ c.1 :: todo, Err e)
          | Ok _ => commit_all (S index) (done ++ [c.1]) todo
          end
      end
  end.

(** [rollback_failed |= file.rollback().is_err()] over a list. *)
Fixpoint rollback_all (failed : bool) (files : list PreparedFile) : io FsEvent bool :=
  match files with
  | [] => mret failed
  | p :: files => r ← rollback p; rollback_all (failed || negb (is_ok r)) files
  end.

(** The last loop: the backups are removed. *)
Fixpoint finish_all (files : list PreparedFile) : io FsEvent (result unit FileSecretError) :=
  match files with
  | [] => mret (Ok tt)
  | p :: files =>
      let!? _u := (if pf_backed_up p then unlink (pf_parent p) (pf_backup p) else mret (Ok tt)) in
      let!? _s := sync_dir (pf_parent p) FsInstall in
      finish_all files
  end.

Definition install_at (files : list (string * string)) : io FsEvent (result unit FileSecretError) :=
  staged ← stage_all [] files;
  outcome ← match (staged : list PreparedFile * _).2 with
            | Err e => mret (staged.1, Err e)
            | Ok _ => commit_all 0 [] staged.1
            end;
  match (outcome : list PreparedFile * _).2 with
  | Err error =>
      rollback_failed ← rollback_all false (rev outcome.1);
      mret (Err (if (rollback_failed : bool) then FsRollback else error))
  | Ok _ => finish_all outcome.1
  end.

End calls.

Definition install_secret_files `{!FileHost, !Sha256, !Encodings} (initial : Fs) (files : list (string * string))
  : io FsEvent (result unit FileSecretError) :=
  install_at initial (fun _ => Ok tt) files.

(** A host on which the call after [n] others fails, and a group of two files of
    which one replaces an existing file. *)
Definition sample_file_host (n : nat) : FileHost :=
  {| call_fails := fun t => Nat.eqb (length t) n; written_before_fault := fun _ => 1 |}.
Definition sample_identity : Sha256 := fun s => s.
Definition sample_old : Node := NFile 420 "old".
Definition sample_fs : Fs := <[["run"] := NDir]> (<[["run"; "token"] := sample_old]> ∅).
Definition sample_group : list (string * string) := [("/run/keys/tls.pem", "pem"); ("/run/token", "new")].
Definition sample_install (n : nat) : option (result unit FileSecretError) * list FsEvent :=
  @install_secret_files (sample_file_host n) sample_identity sample_encodings sample_fs sample_group [].

(** ** Places and their contents *)

(** The three names a file of the group owns in its directory. *)
Inductive Slot := SDest | SStage | SBack.

#[global] Instance Slot_eq_dec : EqDecision Slot.
Proof. solve_decision. Defined.
#[global] Instance Node_eq_dec : EqDecision Node.
Proof. solve_decision. Defined.

(** The nodes at the three names. *)
Record Trip := { td : option Node; ts : option Node; tb : option Node }.
Definition cell (x : Trip) (s : Slot) : option Node :=
  match s with SDest => td x | SStage => ts x | SBack => tb x end.
Definition set_cell (x : Trip) (s : Slot) (o : option Node) : Trip :=
  match s with
  | SDest => {| td := o; ts := ts x; tb := tb x |}
  | SStage => {| td := td x; ts := o; tb := tb x |}
  | SBack => {| td := td x; ts := ts x; tb := o |}
  end.

Section places.
Context `{!Sha256, !Encodings}.

Definition slot_name (path name : string) (s : Slot) : string :=
  match s with SDest => name | SStage => staging_name path | SBack => backup_name path end.

(** A path that [prepare] does not refuse by its text. *)
Definition eligible (path : string) : bool :=
  match path_parts path with Ok (_, name) => negb (starts_with reserved_prefix name) | Err _ => false end.

Definition key (path : string) (s : Slot) : list string :=
  match path_parts path with Ok (dirs, name) => dirs ++ [slot_name path name s] | Err _ => [] end.

(** A group whose files do not get in each other's way: distinct destinations,
    distinct staging and backup names, and no destination, staging or backup name
    that another path uses as a directory. *)
Record group_ok (files : list (string * string)) : Prop := {
  group_nodup : NoDup files;
  group_dest f g : f ∈ files -> g ∈ files -> eligible f.1 = true -> eligible g.1 = true ->
    key f.1 SDest = key g.1 SDest -> f = g;
  group_identity f g : f ∈ files -> g ∈ files -> identity f.1 = identity g.1 -> f = g;
  group_dirs f dirs name : f ∈ files -> path_parts f.1 = Ok (dirs, name) ->
    Forall (fun c => starts_with reserved_prefix c = false) dirs;
  group_flat f g dirs name : f ∈ files -> g ∈ files -> eligible f.1 = true -> path_parts g.1 = Ok (dirs, name) ->
    ~ key f.1 SDest `prefix_of` dirs
}.

Variable initial : Fs.
Variable files : list (string * string).

(** What stands at the names of a file, in the beginning and later. *)
Definition trip_at (fs : Fs) (f : string * string) : Trip :=
  {| td := fs !! key f.1 SDest; ts := fs !! key f.1 SStage; tb := fs !! key f.1 SBack |}.

(** What an interrupted installation is recovered to. *)
Definition recovered (f : string * string) : option Node :=
  match tb (trip_at initial f) with Some n => Some n | None => td (trip_at initial f) end.
Definition whole (f : string * string) : option Node := Some (NFile private_mode f.2).

Definition member (f : string * string) : Prop := f ∈ files /\ eligible f.1 = true.

(** The previous file is at its destination or at its backup, and the
    destination never holds a part of the new one. *)
Definition firm (f : string * string) (x : Trip) : Prop :=
  (td x = td (trip_at initial f) /\ tb x = tb (trip_at initial f)) \/
  (td x = recovered f /\ tb x = None) \/
  (td x = None /\ tb x = recovered f) \/
  (td x = whole f /\ tb x = recovered f).

(** At every moment a file is firm, or the whole group is in place. *)
Definition intact (V : string * string -> Trip) : Prop :=
  (forall f, member f -> firm f (V f)) \/
  (forall f, member f -> td (V f) = whole f /\ (tb (V f) = recovered f \/ tb (V f) = None)).

Fixpoint safe (t : list FsEvent) : Prop :=
  intact (trip_at (fs_at initial t)) /\ match t with [] => True | _ :: t => safe t end.

(** The flags of a prepared file describe what stands at its names. *)
Definition flags_ok (f : string * string) (p : PreparedFile) (x : Trip) : Prop :=
  (if pf_staged p then exists m c, ts x = Some (NFile m c) else ts x = None) /\
  tb x = (if pf_backed_up p then recovered f else None) /\
  td x = (if pf_committed p then whole f else if pf_backed_up p then None else recovered f) /\
  (pf_committed p = true -> pf_backed_up p = false -> recovered f = None).

Definition names_of (f : string * string) (p : PreparedFile) : Prop :=
  exists name, path_parts f.1 = Ok (pf_parent p, name) /\ pf_destination p = name /\
    pf_staging p = staging_name f.1 /\ pf_backup p = backup_name f.1.

Definition ready (f : string * string) : Trip := {| td := recovered f; ts := None; tb := None |}.

Definition upd (V : string * string -> Trip) (f : string * string) (x : Trip) : string * string -> Trip :=
  fun g => if decide (g = f) then x else V g.

(** The names of the group hold what [V] says. *)
Definition sees (V : string * string -> Trip) (fs : Fs) : Prop := forall f, member f -> trip_at fs f = V f.
Definition views (V : string * string -> Trip) (t : list FsEvent) : Prop := sees V (fs_at initial t).

End places.

(** ** Names do not collide *)

Lemma starts_with_app p s : starts_with p (p +:+ s) = true.
Proof. unfold starts_with. by rewrite strip_prefix_app. Qed.

Lemma str_last_differs a b x y : x <> y -> a +:+ String x EmptyString <> b +:+ String y EmptyString.
Proof.
  intros Hne Heq. apply (f_equal bytes) in Heq. rewrite !bytes_app in Heq.
  apply app_inj_tail in Heq as [_ ?]. done.
Qed.

Section names.
Context `{!Sha256, !Encodings}.
Variable files : list (string * string).
Hypothesis Hgroup : group_ok files.

Lemma eligible_parts path : eligible path = true ->
  exists dirs name, path_parts path = Ok (dirs, name) /\ starts_with reserved_prefix name = false.
Proof.
  unfold eligible. destruct (path_parts path) as [[dirs name]|]; [| done]. intros He. exists dirs, name.
  by apply negb_true_iff in He.
Qed.

Lemma slot_reserved path name s : s <> SDest -> starts_with reserved_prefix (slot_name path name s) = true.
Proof. destruct s; [done | |]; intros _; apply starts_with_app. Qed.

Lemma suffix_inj a b s : a +:+ s = b +:+ s -> a = b.
Proof.
  intros Heq. apply bytes_inj. apply (f_equal bytes) in Heq. rewrite !bytes_app in Heq. by apply app_inv_tail in Heq.
Qed.

Lemma pending_not_previous a b : a +:+ ".pending" <> b +:+ ".previous".
Proof.
  change ".pending" with (".pendin" +:+ "g"). change ".previous" with (".previou" +:+ "s").
  rewrite <-!str_app_assoc. by apply str_last_differs.
Qed.

Lemma key_inj f g s s' : member files f -> member files g -> key f.1 s = key g.1 s' -> f = g /\ s = s'.
Proof.
  intros [Hf Ef] [Hg Eg] Heq. pose proof Heq as Hkey. revert Heq. unfold key.
  destruct (eligible_parts _ Ef) as (df & nf & Hpf & Hrf), (eligible_parts _ Eg) as (dg & ng & Hpg & Hrg).
  rewrite Hpf, Hpg. intros Heq. apply app_inj_tail in Heq as [_ Heq].
  destruct s, s'; cbn [slot_name] in Heq; subst; try done.
  - split; [by apply (group_dest _ Hgroup) | done].
  - unfold staging_name in Heq. apply str_app_inj, suffix_inj in Heq. split; [by apply (group_identity _ Hgroup) | done].
  - unfold staging_name, backup_name in Heq. apply str_app_inj in Heq. by apply pending_not_previous in Heq.
  - unfold staging_name, backup_name in Heq. apply str_app_inj in Heq. symmetry in Heq. by apply pending_not_previous in Heq.
  - unfold backup_name in Heq. apply str_app_inj, suffix_inj in Heq. split; [by apply (group_identity _ Hgroup) | done].
Qed.

(** A directory on the way to a destination is nobody's name. *)
Lemma key_not_dir f g dirs name s d : member files f -> g ∈ files -> path_parts g.1 = Ok (dirs, name) ->
  d `prefix_of` dirs -> key f.1 s <> d.
Proof.
  intros Hm Hg Hp Hd <-. destruct (decide (s = SDest)) as [->|Hs].
  { by apply (group_flat _ Hgroup f g dirs name (proj1 Hm) Hg (proj2 Hm) Hp). }
  destruct Hm as [Hf Ef]. destruct (eligible_parts _ Ef) as (df & nf & Hpf & Hrf).
  pose proof (group_dirs _ Hgroup g dirs name Hg Hp) as Hall. destruct Hd as [rest ->].
  unfold key in Hall. rewrite Hpf in Hall. apply Forall_app in Hall as [Hall _]. apply Forall_app in Hall as [_ Hall].
  rewrite Forall_singleton in Hall. pose proof (slot_reserved f.1 nf s Hs). congruence.
Qed.

End names.

(** ** Calls on the names of one file *)

Section steps.
Context `{!FileHost, !Sha256, !Encodings}.
Variable initial : Fs.
Variable files : list (string * string).
Hypothesis Hgroup : group_ok files.

Local Notation safe := (safe initial files).
Local Notation views := (views initial files).
Local Notation intact := (intact initial files).
Local Notation member := (member files).

Lemma intact_ext V W : (forall f, member f -> V f = W f) -> intact V -> intact W.
Proof. intros Hvw [Hi|Hi]; [left | right]; intros f Hf; rewrite <-Hvw by done; auto. Qed.

Lemma safe_cons e t V : safe t -> views V (e :: t) -> intact V -> safe (e :: t).
Proof.
  intros Hs Hv Hi. split; [| exact Hs]. apply (intact_ext V); [| done]. intros f Hf. symmetry. by apply Hv.
Qed.

Lemma views_intact V t : safe t -> views V t -> intact V.
Proof. intros Hs Hv. apply (intact_ext (trip_at (fs_at initial t))); [exact Hv | by destruct t; apply Hs]. Qed.

Lemma trip_cell fs f s : cell (trip_at fs f) s = fs !! key f.1 s.
Proof. by destruct s. Qed.

Lemma trip_ext x y : (forall s, cell x s = cell y s) -> x = y.
Proof. intros H'. pose proof (H' SDest). pose proof (H' SStage). pose proof (H' SBack). destruct x, y. cbn in *. congruence. Qed.

Lemma cell_set x s o s' : cell (set_cell x s o) s' = if decide (s' = s) then o else cell x s'.
Proof. destruct s, s'; reflexivity. Qed.

(** A change at one name of [f] is the change of one cell. *)
Lemma sees_alter V fs f s (o : option Node) : member f -> sees files V fs ->
  sees files (upd V f (set_cell (V f) s o)) (partial_alter (fun _ => o) (key f.1 s) fs).
Proof.
  intros Hf Hv g Hg. apply trip_ext. intros s'. rewrite trip_cell. unfold upd.
  destruct (decide (g = f)) as [->|Hne].
  - rewrite cell_set. destruct (decide (s' = s)) as [->|Hs]; [by rewrite lookup_partial_alter_eq |].
    rewrite lookup_partial_alter_ne; [by rewrite <-(Hv f Hf), trip_cell |].
    intros Heq. by destruct (key_inj files Hgroup f f s s' Hf Hf Heq).
  - rewrite lookup_partial_alter_ne; [by rewrite <-trip_cell, (Hv g Hg) |].
    intros Heq. by destruct (key_inj files Hgroup f g s s' Hf Hg Heq).
Qed.

Lemma sees_upd_twice V fs f x y : sees files (upd (upd V f x) f y) fs -> sees files (upd V f y) fs.
Proof. intros Hv g Hg. rewrite (Hv g Hg). unfold upd. by repeat case_decide. Qed.

Lemma upd_same V f x : upd V f x f = x.
Proof. unfold upd. by rewrite decide_True. Qed.

(** A call that changes no name of the group. *)
Lemma views_same V t e : views V t ->
  (forall f s, member f -> fs_at initial (e :: t) !! key f.1 s = fs_at initial t !! key f.1 s) -> views V (e :: t).
Proof.
  intros Hv Hk f Hf. rewrite <-(Hv f Hf). apply trip_ext. intros s. rewrite !trip_cell. by apply Hk.
Qed.

Lemma ask_quiet {A} V (oracle : list FsEvent -> A) ev (R : A -> Prop) :
  (forall a fs, fs_apply (ev a) fs = fs) -> (forall t, views V t -> R (oracle t)) ->
  always safe (views V) (ask oracle ev) (fun a t => views V t /\ R a).
Proof.
  intros He HR. apply always_ask. intros t Hs Hv.
  assert (views V (ev (oracle t) :: t)) as Hv'.
  { apply views_same; [done |]. intros f s _. unfold fs_at. cbn [foldr]. by rewrite He. }
  split; [| by auto]. eapply safe_cons; [done | exact Hv' | by apply (views_intact V t)].
Qed.

Lemma sync_dir_always V parent e :
  always safe (views V) (sync_dir parent e) (fun r t => views V t).
Proof.
  unfold sync_dir. eapply always_bind; [apply (ask_quiet V _ _ (fun _ => True)); [done | done] |].
  intros ok. apply always_ret. by intros t [Hv _].
Qed.

Lemma place_key f dirs name s : path_parts f = Ok (dirs, name) -> dirs ++ [slot_name f name s] = key f s.
Proof. intros Hp. unfold key. by rewrite Hp. Qed.

Section one.
Variables (f : string * string) (parent : list string) (name : string).
Hypothesis Hf : member f.
Hypothesis Hparts : path_parts f.1 = Ok (parent, name).
Variable V : string * string -> Trip.

Lemma regular_file_always s : always safe (views V) (regular_file initial parent (slot_name f.1 name s)) (fun r t =>
  views V t /\ match r with
               | Ok true => exists m c, cell (V f) s = Some (NFile m c)
               | Ok false => cell (V f) s = None
               | Err _ => True
               end).
Proof.
  unfold regular_file. rewrite (place_key _ _ _ _ Hparts). eapply always_bind.
  { apply (ask_quiet V _ _ (fun r => match r with Stat n => cell (V f) s = Some n | StatMissing => cell (V f) s = None | _ => True end));
      [done |].
    intros t Hv. destruct (call_fails t); [done |]. rewrite <-(Hv f Hf), trip_cell. by destruct (_ !! _). }
  intros stat. apply always_ret. intros t [Hv Hst]. split; [done |].
  destruct stat as [[]| |]; try done. by eexists _, _.
Qed.

Definition moved (x : Trip) (a b : Slot) : Trip := set_cell (set_cell x a None) b (cell x a).

Lemma rename_always a b no_replace : a <> b -> intact (upd V f (moved (V f) a b)) ->
  always safe (views V) (rename initial parent (slot_name f.1 name a) (slot_name f.1 name b) no_replace) (fun r t =>
    match r with
    | Ok _ => views (upd V f (moved (V f) a b)) t /\ cell (V f) a <> None
    | Err _ => views V t
    end).
Proof.
  intros Hab Hi. unfold rename. rewrite !(place_key _ _ _ _ Hparts).
  eapply (always_bind _ _ _ (fun (ok : bool) t => if ok then views (upd V f (moved (V f) a b)) t /\ cell (V f) a <> None else views V t)).
  2: { intros []; by apply always_ret. }
  apply always_ask. intros t Hs Hv.
  destruct (negb (call_fails t) && opt_is_some (fs_at initial t !! key f.1 a) && _) eqn:Hok.
  - reflect_bool. destruct (fs_at initial t !! key f.1 a) as [n|] eqn:Hn; [| done].
    assert (cell (V f) a = Some n) as Hc by (by rewrite <-(Hv f Hf), trip_cell).
    assert (views (upd V f (moved (V f) a b)) (RenameAt (key f.1 a) (key f.1 b) true :: t)) as Hv'.
    { apply sees_upd_twice with (x := set_cell (V f) a None).
      unfold FileSecrets.views, fs_at. cbn [foldr fs_apply]. fold (fs_at initial t). rewrite Hn.
      pose proof (sees_alter _ _ f a None Hf Hv) as Hv1. pose proof (sees_alter _ _ f b (Some n) Hf Hv1) as Hv2.
      rewrite upd_same in Hv2. unfold moved. rewrite Hc. exact Hv2. }
    split; [| split; [done | by rewrite Hc]]. eapply safe_cons; [done | exact Hv' | exact Hi].
  - assert (views V (RenameAt (key f.1 a) (key f.1 b) false :: t)) as Hv' by (by apply views_same).
    split; [| done]. eapply safe_cons; [done | exact Hv' | by apply (views_intact V t)].
Qed.

Lemma unlink_always s : intact (upd V f (set_cell (V f) s None)) ->
  always safe (views V) (unlink initial parent (slot_name f.1 name s)) (fun r t =>
    match r with Ok _ => views (upd V f (set_cell (V f) s None)) t | Err _ => views V t end).
Proof.
  intros Hi. unfold unlink. rewrite (place_key _ _ _ _ Hparts).
  eapply (always_bind _ _ _ (fun r t => match r with
    | Err false => views V t | _ => views (upd V f (set_cell (V f) s None)) t end)).
  2: { intros [|[]]; by apply always_ret. }
  apply always_ask. intros t Hs Hv.
  assert (Hsame : forall b, views V (UnlinkAt (key f.1 s) (Err b) :: t)) by (intros b; by apply views_same).
  destruct (call_fails t).
  { split; [| done]. eapply safe_cons; [done | apply Hsame | by apply (views_intact V t)]. }
  destruct (fs_at initial t !! key f.1 s) as [[| |]|] eqn:Hn.
  - split; [| done]. eapply safe_cons; [done | apply Hsame | by apply (views_intact V t)].
  - pose proof (sees_alter _ _ f s None Hf Hv) as Hv'. split; [eapply safe_cons; [done | exact Hv' | exact Hi] | exact Hv'].
  - pose proof (sees_alter _ _ f s None Hf Hv) as Hv'. split; [eapply safe_cons; [done | exact Hv' | exact Hi] | exact Hv'].
  - split; [eapply safe_cons; [done | apply Hsame | by apply (views_intact V t)] |].
    intros g Hg. rewrite (Hsame true g Hg). unfold upd. case_decide as Hgf; [| done]. subst g.
    apply trip_ext. intros s'. rewrite cell_set. case_decide; [subst s' | done].
    by rewrite <-(Hv f Hf), trip_cell.
Qed.

Lemma intact_stage o : intact V -> intact (upd V f (set_cell (V f) SStage o)).
Proof.
  intros [Hi|Hi]; [left | right]; intros g Hg; unfold upd; case_decide; subst; by apply Hi.
Qed.

Definition staged_view (o : option Node) : string * string -> Trip := upd V f (set_cell (V f) SStage o).

Lemma create_always : always safe (views V) (create_at initial (parent ++ [slot_name f.1 name SStage])) (fun ok t =>
  if ok then views (staged_view (Some (NFile private_mode EmptyString))) t else views V t).
Proof.
  rewrite (place_key _ _ _ _ Hparts). apply always_ask. intros t Hs Hv. pose proof (views_intact V t Hs Hv) as Hi.
  destruct (_ && _); cbn [opt_is_none].
  - pose proof (sees_alter _ _ f SStage (Some (NFile private_mode EmptyString)) Hf Hv) as Hv'.
    split; [| exact Hv']. eapply safe_cons; [done | exact Hv' | by apply intact_stage].
  - assert (views V (CreateAt (key f.1 SStage) false :: t)) as Hv' by (by apply views_same).
    split; [| exact Hv']. by eapply safe_cons.
Qed.

End one.

Lemma write_fd_always f parent name V m c value : member f -> path_parts f.1 = Ok (parent, name) ->
  ts (V f) = Some (NFile m c) ->
  always safe (views V) (write_fd (parent ++ [slot_name f.1 name SStage]) value) (fun r t =>
    exists data, views (staged_view f V (Some (NFile m (c +:+ data)))) t /\ (r.2 = true -> data = value)).
Proof.
  intros Hf Hparts Hc. rewrite (place_key _ _ _ _ Hparts). apply always_ask. intros t Hs Hv.
  pose proof (views_intact V t Hs Hv) as Hi.
  assert (Hstep : forall data ok,
    safe (WriteFd (key f.1 SStage) (data, ok) :: t) /\
    views (staged_view f V (Some (NFile m (c +:+ data)))) (WriteFd (key f.1 SStage) (data, ok) :: t)).
  { intros data ok.
    assert (views (staged_view f V (Some (NFile m (c +:+ data)))) (WriteFd (key f.1 SStage) (data, ok) :: t)) as Hv'.
    { unfold FileSecrets.views, fs_at. cbn [foldr fs_apply]. fold (fs_at initial t).
      pose proof (Hv f Hf) as Hvf. apply (f_equal ts) in Hvf. cbn in Hvf. rewrite Hvf, Hc. by apply sees_alter. }
    split; [| done]. eapply safe_cons; [done | exact Hv' | by apply intact_stage]. }
  destruct (call_fails t).
  - destruct (Hstep (str_take (written_before_fault t) value) false) as [Hs' Hv']. split; [exact Hs' |].
    eexists. split; [exact Hv' | done].
  - destruct (Hstep value true) as [Hs' Hv']. split; [exact Hs' |]. eexists. by split; [exact Hv' |].
Qed.

(** ** The methods of one file *)

Definition solid (V : string * string -> Trip) : Prop := forall f, member f -> firm initial f (V f).

Lemma solid_intact V : solid V -> intact V.
Proof. intros Hs. by left. Qed.

Lemma solid_upd V f x : solid V -> firm initial f x -> solid (upd V f x).
Proof. intros Hs Hx g Hg. unfold upd. case_decide; subst; [done | by apply Hs]. Qed.

Lemma flags_firm f p x : flags_ok initial f p x -> firm initial f x.
Proof.
  intros (_ & Hb & Hd & Hn). unfold firm. destruct (pf_committed p), (pf_backed_up p); rewrite Hb, Hd; auto 6.
  specialize (Hn eq_refl eq_refl). rewrite Hn. auto.
Qed.

Lemma views_conv V W t : (forall f, member f -> V f = W f) -> views V t -> views W t.
Proof. intros Hvw Hv f Hf. rewrite <-(Hvw f Hf). by apply Hv. Qed.

(** The file is as it was, or its stale backup is back in place. *)
Definition left_alone (f : string * string) (x : Trip) : Prop :=
  x = trip_at initial f \/ x = {| td := recovered initial f; ts := ts (trip_at initial f); tb := None |}.

Lemma left_alone_firm f x : left_alone f x -> firm initial f x.
Proof. unfold firm. intros [-> | ->]; cbn; auto. Qed.

Definition fresh (f : string * string) (p : PreparedFile) : Prop :=
  names_of f p /\ pf_staged p = false /\ pf_backed_up p = false /\ pf_committed p = false.

Lemma upd_id V f t : views V t -> views (upd V f (V f)) t.
Proof. apply views_conv. intros g _. unfold upd. case_decide; by subst. Qed.

Lemma upd_upd V f x y t : views (upd (upd V f x) f y) t -> views (upd V f y) t.
Proof. apply sees_upd_twice. Qed.

(** [let!?]: an error ends the sequence. *)
Lemma always_try {A B} (P : list FsEvent -> Prop) (m : io FsEvent (result A FileSecretError))
    (k : A -> io FsEvent (result B FileSecretError)) (R : A -> list FsEvent -> Prop) (X : list FsEvent -> Prop)
    (Q : result B FileSecretError -> list FsEvent -> Prop) :
  always safe P m (fun r t => match r with Ok a => R a t | Err _ => X t end) ->
  (forall e t, X t -> Q (Err e) t) -> (forall a, always safe (R a) (k a) Q) ->
  always safe P (let!? a := m in k a) Q.
Proof.
  intros Hm HX Hk. eapply always_bind; [exact Hm |]. intros [a|e]; [apply Hk |]. apply always_ret. auto.
Qed.

Lemma recover_unlink_always f parent name V : member f -> path_parts f.1 = Ok (parent, name) -> solid V ->
  td (V f) = recovered initial f -> tb (V f) = None ->
  always safe (views V)
    (let!? pending := regular_file initial parent (staging_name f.1) in
     let!? _u := (if (pending : bool) then unlink initial parent (staging_name f.1) else mret (Ok tt)) in
     mret (Ok {| pf_parent := parent; pf_destination := name; pf_staging := staging_name f.1;
                 pf_backup := backup_name f.1; pf_staged := false; pf_backed_up := false; pf_committed := false |}))
    (fun r t => match r with
     | Ok p => fresh f p /\ views (upd V f (ready initial f)) t
     | Err _ => views V t
     end).
Proof.
  intros Hf Hp Hs Hd Hb.
  assert (Hready : set_cell (V f) SStage None = ready initial f) by (unfold ready; cbn; by rewrite Hd, Hb).
  eapply (always_try _ _ _ (fun b t => views V t /\ (b = false -> ts (V f) = None)) (views V)).
  { eapply always_post; [apply (regular_file_always f parent name Hf Hp V SStage) |].
    intros [[]|] t [Hv Hr]; auto; by split. }
  { done. }
  intros pending.
  eapply (always_try _ _ _ (fun _ => views (upd V f (ready initial f))) (views V)).
  - destruct pending.
    + eapply always_pre; [| by intros t [Hv _]; exact Hv]. rewrite <-Hready.
      apply (unlink_always f parent name Hf Hp V SStage). apply intact_stage, solid_intact, Hs.
    + apply always_ret. intros t [Hv Hn]. specialize (Hn eq_refl). rewrite <-Hready.
      apply (upd_id V f) in Hv. revert Hv. apply views_conv. intros g _. unfold upd. case_decide; [| done].
      apply trip_ext. intros s. rewrite cell_set. case_decide; by subst.
  - done.
  - intros _. apply always_ret. intros t Hv. split; [| done]. split; [by exists name | done].
Qed.

Lemma recover_always f parent name V : member f -> path_parts f.1 = Ok (parent, name) -> solid V ->
  V f = trip_at initial f ->
  always safe (views V) (recover initial parent name (staging_name f.1) (backup_name f.1)) (fun r t =>
    match r with
    | Ok p => fresh f p /\ views (upd V f (ready initial f)) t
    | Err _ => exists x, left_alone f x /\ views (upd V f x) t
    end).
Proof.
  intros Hf Hp Hs H0f. unfold recover.
  assert (Hleft : forall t, views V t -> exists x, left_alone f x /\ views (upd V f x) t).
  { intros t Hv. exists (V f). split; [by left | by apply upd_id]. }
  eapply (always_try _ _ _ (fun _ => views V) (views V)); [| by auto |].
  { eapply always_post; [apply (regular_file_always f parent name Hf Hp V SDest) |]. by intros [] t [Hv _]. }
  intros _.
  eapply (always_try _ _ _ (fun b t => views V t /\ (b = false -> tb (V f) = None)
                                      /\ (b = true -> tb (V f) <> None)) (views V)); [| by auto |].
  { eapply always_post; [apply (regular_file_always f parent name Hf Hp V SBack) |].
    intros [[]|] t [Hv Hr]; [destruct Hr as (m & c & Hr) | |]; cbn in Hr; [split_and!; congruence || done | by split_and! | done]. }
  intros stale. apply always_pure. intros [Hno Hyes].
  destruct stale.
  - specialize (Hyes eq_refl). set (x := moved (V f) SBack SDest).
    assert (Hx : x = {| td := recovered initial f; ts := ts (trip_at initial f); tb := None |}).
    { unfold x, recovered. rewrite H0f in *. cbn. cbn in Hyes. by destruct (initial !! key f.1 SBack). }
    assert (Hs' : solid (upd V f x)) by (apply solid_upd; [done |]; apply left_alone_firm; by right).
    eapply (always_try _ _ _ (fun _ => views (upd V f x)) (views V)); [| by auto |].
    { eapply always_post; [apply (rename_always f parent name Hf Hp V SBack SDest false ltac:(done) (solid_intact _ Hs')) |].
      by intros [] t; [intros [Hv _] |]. }
    intros _. eapply always_post; [apply (recover_unlink_always f parent name (upd V f x) Hf Hp Hs'); rewrite upd_same, Hx; done |].
    intros [p|] t; cbn beta iota.
    + intros [Hfr Hv]. split; [done | by apply upd_upd in Hv].
    + intros Hv. exists x. split; [by right | done].
  - specialize (Hno eq_refl).
    assert (Hd : td (V f) = recovered initial f).
    { unfold recovered. rewrite H0f in *. cbn in *. by rewrite Hno. }
    eapply (always_try _ _ _ (fun _ => views V) (views V)); [by apply always_ret | by auto |].
    intros _. eapply always_post; [by apply (recover_unlink_always f parent name V Hf Hp Hs) |].
    by intros [p|] t; cbn beta iota; [| apply Hleft].
Qed.

Lemma directory_always V parent name : (forall f s, member f -> key f.1 s <> parent ++ [name]) ->
  always safe (views V) (directory initial parent name) (fun r t =>
    views V t /\ match r with Ok path => path = parent ++ [name] | Err _ => True end).
Proof.
  intros Hkey. unfold directory.
  assert (Hopen : always safe (views V) (open_dir initial (parent ++ [name])) (fun _ t => views V t)).
  { eapply always_post; [by apply (ask_quiet V _ _ (fun _ => True)) |]. by intros r t [Hv _]. }
  eapply always_bind; [exact Hopen |]. intros [| |]; [by apply always_ret | | by apply always_ret].
  eapply (always_bind _ _ _ (fun _ t => views V t)).
  { apply always_ask. intros t Hs Hv.
    assert (Hv' : forall r, views V (MkDir (parent ++ [name]) r :: t)).
    { intros r. apply views_same; [done |]. intros f s Hf. unfold fs_at. cbn [foldr]. fold (fs_at initial t).
      destruct r; cbn [fs_apply]; [| done]. rewrite lookup_insert_ne; [done |]. by apply not_eq_sym, Hkey. }
    split; [| apply Hv']. eapply safe_cons; [done | apply Hv' | by apply (views_intact V t)]. }
  intros [|[]]; [| | by apply always_ret];
    (eapply always_bind; [exact Hopen |]; intros []; by apply always_ret).
Qed.

Lemma descend_always V g dirs name : g ∈ files -> path_parts g.1 = Ok (dirs, name) ->
  forall names parent, parent ++ names = dirs ->
  always safe (views V) (descend initial parent names) (fun r t =>
    views V t /\ match r with Ok path => path = dirs | Err _ => True end).
Proof.
  intros Hg Hp. induction names as [|n names IH]; intros parent Hd; cbn [descend].
  { apply always_ret. intros t Hv. split; [done |]. by rewrite app_nil_r in Hd. }
  unfold c_name. destruct (contains_nul n); [by apply always_ret |].
  eapply (always_try _ _ _ (fun path t => views V t /\ path = parent ++ [n]) (views V)).
  - eapply always_post; [apply directory_always |].
    + intros f s Hf. eapply (key_not_dir files Hgroup f g dirs name); try done.
      exists names. by rewrite <-app_assoc.
    + by intros [] t [Hv Hr].
  - done.
  - intros path. apply always_pure. intros ->. apply IH. by rewrite <-app_assoc.
Qed.

Lemma prepare_always V g : g ∈ files -> solid V -> V g = trip_at initial g ->
  always safe (views V) (prepare initial g.1) (fun r t =>
    match r with
    | Ok p => member g /\ fresh g p /\ views (upd V g (ready initial g)) t
    | Err _ => exists x, left_alone g x /\ views (upd V g x) t
    end).
Proof.
  intros Hg Hs H0g. unfold prepare.
  assert (Hleft : forall t, views V t -> exists x, left_alone g x /\ views (upd V g x) t).
  { intros t Hv. exists (V g). split; [by left | by apply upd_id]. }
  destruct (path_parts g.1) as [[dirs name]|] eqn:Hp; [| by apply always_ret].
  eapply always_bind.
  { eapply always_post; [by apply (ask_quiet V _ _ (fun _ => True)) |]. intros r t [Hv _]. exact Hv. }
  intros opened. destruct opened; cbn [negb]; [| by apply always_ret].
  eapply (always_try _ _ _ (fun path t => views V t /\ path = dirs) (views V)); [| by auto |].
  { eapply always_post; [by apply (descend_always V g dirs name Hg Hp dirs []) |]. by intros [] t [Hv Hr]. }
  intros path. apply always_pure. intros ->.
  unfold c_name. destruct (contains_nul name); [by apply always_ret |].
  destruct (starts_with reserved_prefix name) eqn:Hr; [by apply always_ret |].
  destruct (contains_nul (staging_name g.1)); [by apply always_ret |].
  destruct (contains_nul (backup_name g.1)); [by apply always_ret |].
  assert (Hm : member g) by (split; [done |]; unfold eligible; by rewrite Hp, Hr).
  eapply always_post; [by apply recover_always |]. intros [p|] t Hq; [by destruct Hq | done].
Qed.

(** What a method leaves: the file it returns and what stands at its names. *)
Definition kept (f : string * string) (V : string * string -> Trip) (p : PreparedFile) (x : Trip)
    (t : list FsEvent) : Prop :=
  views (upd V f x) t /\ names_of f p /\ flags_ok initial f p x.

Lemma names_parts f p : names_of f p -> exists name, path_parts f.1 = Ok (pf_parent p, name) /\
  pf_destination p = slot_name f.1 name SDest /\ pf_staging p = slot_name f.1 name SStage /\
  pf_backup p = slot_name f.1 name SBack.
Proof. intros (name & ? & ? & ? & ?). by exists name. Qed.

Lemma names_flags f p a b c : names_of f p -> names_of f (with_flags p a b c).
Proof. done. Qed.

Lemma write_always V f p : member f -> solid V -> fresh f p -> V f = ready initial f ->
  always safe (views V) (write initial p f.2) (fun r t => exists x, kept f V r.1 x t /\
    (r.2 = Ok tt -> pf_staged r.1 = true /\ ts x = whole f /\ pf_backed_up r.1 = false /\ pf_committed r.1 = false)).
Proof.
  intros Hf Hs (Hn & Hst & Hbk & Hcm) Hr. destruct (names_parts f p Hn) as (name & Hp & Hd & Hsn & Hb).
  assert (Hflags : forall m c, flags_ok initial f (with_flags p true (pf_backed_up p) (pf_committed p))
                                 (set_cell (V f) SStage (Some (NFile m c)))).
  { intros m c. rewrite Hr. unfold flags_ok. cbn. rewrite Hbk, Hcm. split_and!; [by eexists _, _ | done..]. }
  unfold write. rewrite Hsn.
  eapply always_bind; [by apply (create_always f _ name Hf Hp V) |]. intros [|]; cbn [negb].
  2: { apply always_ret. intros t Hv. exists (V f). split; [| done]. split; [by apply upd_id |]. split; [done |].
       rewrite Hr. unfold flags_ok. cbn [fst]. by rewrite Hst, Hbk, Hcm. }
  cbn [with_flags pf_parent pf_staging]. rewrite Hsn. unfold staged_view.
  set (x0 := set_cell (V f) SStage (Some (NFile private_mode EmptyString))).
  eapply always_bind; [apply (write_fd_always f _ name (upd V f x0) private_mode EmptyString f.2 Hf Hp); by rewrite upd_same |].
  intros wrote.
  apply always_exists. intros data. unfold staged_view. rewrite upd_same. apply always_pure. intros Hdata.
  assert (Hshape : forall t, views (upd (upd V f x0) f (set_cell x0 SStage (Some (NFile private_mode (EmptyString +:+ data))))) t ->
                     views (upd V f (set_cell (V f) SStage (Some (NFile private_mode data)))) t).
  { intros t Hv. by apply upd_upd in Hv. }
  destruct (wrote.2); cbn [negb].
  - specialize (Hdata eq_refl) as ->.
    eapply always_bind; [by apply (ask_quiet _ _ _ (fun _ => True)) |]. intros synced. apply always_ret.
    intros t [Hv _]. eexists. split; [split; [by apply Hshape | split; [done | apply Hflags]] |]. done.
  - apply always_ret. intros t Hv. eexists. split; [split; [by apply Hshape | split; [done | apply Hflags]] | done].
Qed.

Lemma publish_always V f p : member f -> solid V -> names_of f p -> flags_ok initial f p (V f) ->
  pf_staged p = true -> pf_committed p = false -> ts (V f) = whole f ->
  (pf_backed_up p = false -> recovered initial f = None) ->
  always safe (views V) (publish initial p) (fun r t => exists x, kept f V r.1 x t /\
    (r.2 = Ok tt -> pf_committed r.1 = true /\ pf_staged r.1 = false)).
Proof.
  intros Hf Hs Hn Hfl Hst Hcm Hw Hrec. destruct (names_parts f p Hn) as (name & Hp & Hd & Hsn & Hb).
  set (x := moved (V f) SStage SDest).
  assert (Hx : flags_ok initial f (with_flags p false (pf_backed_up p) true) x).
  { destruct Hfl as (_ & Hbx & _ & _). unfold flags_ok, x. cbn. rewrite Hw. by split_and!. }
  unfold publish. rewrite Hsn, Hd. eapply always_bind.
  { apply (rename_always f _ name Hf Hp V SStage SDest false ltac:(done)).
    apply solid_intact, solid_upd; [done |]. by eapply flags_firm. }
  intros [u|e].
  - eapply always_bind; [eapply always_pre; [apply (sync_dir_always (upd V f x)) | by intros t [Hv _]] |].
    intros r. apply always_ret. intros t Hv. exists x. split; [by split | done].
  - apply always_ret. intros t Hv. exists (V f). split; [split; [by apply upd_id | by split] | done].
Qed.

Lemma commit_always V f p : member f -> solid V -> names_of f p -> flags_ok initial f p (V f) ->
  pf_staged p = true -> pf_backed_up p = false -> pf_committed p = false -> ts (V f) = whole f ->
  always safe (views V) (commit initial p) (fun r t => exists x, kept f V r.1 x t /\
    (r.2 = Ok tt -> pf_committed r.1 = true /\ pf_staged r.1 = false)).
Proof.
  intros Hf Hs Hn Hfl Hst Hbk Hcm Hw. destruct (names_parts f p Hn) as (name & Hp & Hd & Hsn & Hb).
  pose proof Hfl as (_ & Hbx & Hdx & _). rewrite Hbk in Hbx. rewrite Hcm, Hbk in Hdx.
  assert (Hsame : forall t e, views V t -> exists x, kept f V (p, Err e : result unit FileSecretError).1 x t /\
    ((p, Err e : result unit FileSecretError).2 = Ok tt -> pf_committed p = true /\ pf_staged p = false)).
  { intros t e Hv. exists (V f). split; [split; [by apply upd_id | by split] | done]. }
  unfold commit. rewrite Hd.
  eapply always_bind; [apply (regular_file_always f _ name Hf Hp V SDest) |].
  intros [[]|e]; cbn beta iota.
  - rewrite Hb. apply always_pure. intros (m & c & Hc). cbn [cell] in Hc.
    set (x := moved (V f) SDest SBack).
    assert (Hx : flags_ok initial f (with_flags p (pf_staged p) true (pf_committed p)) x).
    { unfold flags_ok, x. cbn. rewrite Hst, Hcm. split_and!; [by eexists _, _ | by rewrite Hdx | done | done]. }
    assert (Hs' : solid (upd V f x)) by (apply solid_upd; [done | by eapply flags_firm]).
    eapply always_bind.
    { apply (rename_always f _ name Hf Hp V SDest SBack true ltac:(done)). by apply solid_intact. }
    intros [u|e]; [| by apply always_ret; intros t; apply Hsame].
    eapply always_conseq; [apply (publish_always (upd V f x) f _ Hf Hs' (names_flags f p _ _ _ Hn)); rewrite ?upd_same; try done | by intros t [Hv _] |].
    intros r t (y & (Hv & Hny & Hfy) & Hok). exists y. split; [split; [by apply upd_upd in Hv | done] | done].
  - apply always_pure. intros Hnone. cbn [cell] in Hnone. apply publish_always; try done. intros _. by rewrite <-Hdx.
  - apply always_pure. intros _. apply always_ret. intros t. apply Hsame.
Qed.

(** The calls, from a view of the file. *)
Lemma unlink_upd f parent name V x s : member f -> path_parts f.1 = Ok (parent, name) ->
  intact (upd V f (set_cell x s None)) ->
  always safe (views (upd V f x)) (unlink initial parent (slot_name f.1 name s)) (fun r t =>
    match r with Ok _ => views (upd V f (set_cell x s None)) t | Err _ => views (upd V f x) t end).
Proof.
  intros Hf Hp Hi. eapply always_post.
  - apply (unlink_always f parent name Hf Hp (upd V f x) s). rewrite upd_same. revert Hi. apply intact_ext.
    intros g _. unfold upd. by repeat case_decide.
  - intros [] t Hv; [| done]. rewrite upd_same in Hv. by apply upd_upd in Hv.
Qed.

Lemma rename_upd f parent name V x a b no_replace : member f -> path_parts f.1 = Ok (parent, name) -> a <> b ->
  intact (upd V f (moved x a b)) ->
  always safe (views (upd V f x)) (rename initial parent (slot_name f.1 name a) (slot_name f.1 name b) no_replace)
    (fun r t => match r with Ok _ => views (upd V f (moved x a b)) t | Err _ => views (upd V f x) t end).
Proof.
  intros Hf Hp Hab Hi. eapply always_post.
  - apply (rename_always f parent name Hf Hp (upd V f x) a b no_replace Hab). rewrite upd_same. revert Hi. apply intact_ext.
    intros g _. unfold upd. by repeat case_decide.
  - intros [] t Hv; [| done]. destruct Hv as [Hv _]. rewrite upd_same in Hv. by apply upd_upd in Hv.
Qed.

(** One step of a rollback: nothing to do, or a call on the names of the file. *)
Lemma rollback_step V f (flag : bool) (m : io FsEvent (result unit FileSecretError)) (x y : Trip) :
  firm initial f x -> (flag = false -> x = y) ->
  (flag = true -> always safe (views (upd V f x)) m (fun r t =>
     match r with Ok _ => views (upd V f y) t | Err _ => views (upd V f x) t end)) ->
  always safe (views (upd V f x)) (if flag then m else mret (Ok tt)) (fun r t =>
    match r with Ok _ => views (upd V f y) t | Err _ => exists z, firm initial f z /\ views (upd V f z) t end).
Proof.
  intros Hx Hno Hyes. destruct flag.
  - eapply always_post; [by apply Hyes |]. intros [] t Hv; [done | by exists x].
  - apply always_ret. by rewrite Hno.
Qed.

Lemma rollback_always V f p : member f -> solid V -> names_of f p -> flags_ok initial f p (V f) ->
  always safe (views V) (rollback initial p) (fun r t =>
    exists x, firm initial f x /\ views (upd V f x) t /\ (r = Ok tt -> x = ready initial f)).
Proof.
  intros Hf Hs Hn Hfl. destruct (names_parts f p Hn) as (name & Hp & Hd & Hsn & Hb).
  pose proof (flags_firm f p _ Hfl) as Hfirm. destruct Hfl as (Hst & Hbx & Hdx & Hrec).
  set (x1 := if pf_committed p then set_cell (V f) SDest None else V f).
  set (x2 := if pf_backed_up p then moved x1 SBack SDest else x1).
  assert (Hx1 : ts x1 = ts (V f) /\ tb x1 = tb (V f) /\ td x1 = if pf_backed_up p then None else recovered initial f).
  { unfold x1. destruct (pf_committed p); [| done]. cbn. split_and!; [done.. |].
    destruct (pf_backed_up p); [done |]. symmetry. by apply Hrec. }
  destruct Hx1 as (Hts1 & Htb1 & Htd1). rewrite Hbx in Htb1.
  assert (Hx2 : ts x2 = ts (V f) /\ tb x2 = None /\ td x2 = recovered initial f).
  { unfold x2. destruct (pf_backed_up p); [| done]. cbn. by rewrite Htb1. }
  destruct Hx2 as (Hts2 & Htb2 & Htd2).
  assert (Hf1 : firm initial f x1) by (unfold firm; rewrite Htb1, Htd1; destruct (pf_backed_up p); auto).
  assert (Hf2 : firm initial f x2) by (unfold firm; rewrite Htb2, Htd2; auto).
  assert (Hi : forall x, firm initial f x -> intact (upd V f x)) by (intros x Hx; by apply solid_intact, solid_upd).
  assert (Herr : forall (e : FileSecretError) t, (exists z, firm initial f z /\ views (upd V f z) t) ->
     exists z, firm initial f z /\ views (upd V f z) t /\ ((Err e : result unit FileSecretError) = Ok tt -> z = ready initial f)).
  { intros e t (z & ? & ?). by exists z. }
  unfold rollback. rewrite Hd, Hsn, Hb.
  eapply always_pre; [| intros t Hv; apply (upd_id V f), Hv].
  eapply always_try; [apply (rollback_step V f _ _ (V f) x1 Hfirm) | exact Herr | intros ?]; cbn beta.
  { unfold x1. by intros ->. }
  { intros Hc. unfold x1 in *. rewrite Hc in *. by apply (unlink_upd f _ name), Hi. }
  eapply always_try; [apply (rollback_step V f _ _ x1 x2 Hf1) | exact Herr | intros ?]; cbn beta.
  { unfold x2. by intros ->. }
  { intros Hc. unfold x2 in *. rewrite Hc in *. by apply (rename_upd f _ name), Hi. }
  eapply always_try; [apply (rollback_step V f _ _ x2 (ready initial f) Hf2) | exact Herr | intros ?]; cbn beta.
  { intros Hc. rewrite Hc, <-Hts2 in Hst. destruct x2. cbn in *. unfold ready. congruence. }
  { intros _. replace (ready initial f) with (set_cell x2 SStage None) by (unfold ready; cbn; congruence).
    apply (unlink_upd f _ name); [done | done |]. apply Hi. unfold firm. cbn. rewrite Htb2, Htd2. auto. }
  eapply always_post; [apply sync_dir_always |]. intros r t Hv. exists (ready initial f).
  split; [unfold firm, ready; cbn; auto | done].
Qed.

(** ** The loops over the group *)

(** A prepared file of the group, one whose value is staged, one in place. *)
Definition linked (p : PreparedFile) (f : string * string) (x : Trip) : Prop :=
  member f /\ names_of f p /\ flags_ok initial f p x.
Definition loaded (p : PreparedFile) (f : string * string) (x : Trip) : Prop :=
  linked p f x /\ pf_staged p = true /\ pf_backed_up p = false /\ pf_committed p = false /\ ts x = whole f.
Definition placed (p : PreparedFile) (f : string * string) (x : Trip) : Prop :=
  linked p f x /\ pf_committed p = true /\ pf_staged p = false.

Definition all_are (R : PreparedFile -> string * string -> Trip -> Prop) (V : string * string -> Trip)
    (ps : list PreparedFile) (fs : list (string * string)) : Prop :=
  Forall2 (fun p f => R p f (V f)) ps fs.

Lemma all_are_upd R V ps fs g x : g ∉ fs -> all_are R V ps fs -> all_are R (upd V g x) ps fs.
Proof.
  intros Hg Hall. induction Hall as [|p f ps fs Hpf _ IH]; constructor.
  - unfold upd. rewrite decide_False; [done |]. intros ->. apply Hg. by left.
  - apply IH. intros Hin. apply Hg. by right.
Qed.

Lemma all_are_impl (R R' : PreparedFile -> string * string -> Trip -> Prop) V ps fs :
  (forall p f x, R p f x -> R' p f x) -> all_are R V ps fs -> all_are R' V ps fs.
Proof. intros Hr Hall. eapply Forall2_impl; [exact Hall |]. intros p f. apply Hr. Qed.

Lemma all_are_snoc R V ps fs p f : all_are R V ps fs -> R p f (V f) -> all_are R V (ps ++ [p]) (fs ++ [f]).
Proof. intros Hall Hr. apply Forall2_app; [done |]. by repeat constructor. Qed.

Lemma fresh_pending done f todo : done ++ f :: todo = files -> f ∉ done /\ f ∉ todo /\ f ∈ files.
Proof.
  intros Hd. pose proof (group_nodup _ Hgroup) as Hnd. rewrite <-Hd in Hnd.
  apply NoDup_app in Hnd as (_ & Hdisj & Hnd). apply NoDup_cons in Hnd as [Hft _].
  split_and!; [| done | rewrite <-Hd; set_solver]. intros Hin. apply (Hdisj f Hin). by left.
Qed.

Lemma upd_other V f x g : g <> f -> upd V f x g = V g.
Proof. intros Hne. unfold upd. by rewrite decide_False. Qed.

(** How the first loop ends: a prefix of the group is prepared. *)
Definition staged_end (r : list PreparedFile * result unit FileSecretError) (t : list FsEvent) : Prop :=
  exists W done rest, files = done ++ rest /\ views W t /\ solid W /\ all_are linked W r.1 done /\
    (forall g, g ∈ rest -> left_alone g (W g)) /\
    (r.2 = Ok tt -> rest = [] /\ all_are loaded W r.1 done).

(** The file [f] has just been written, after the files [done]. *)
Lemma write_end V f done todo prepared (w : PreparedFile * result unit FileSecretError) :
  done ++ f :: todo = files -> solid V -> all_are loaded V prepared done -> member f ->
  (forall g, g ∈ todo -> V g = trip_at initial g) ->
  (forall W, (done ++ [f]) ++ todo = files -> solid W -> all_are loaded W (prepared ++ [w.1]) (done ++ [f]) ->
     (forall g, g ∈ todo -> W g = trip_at initial g) ->
     always safe (views W) (stage_all initial (prepared ++ [w.1]) todo) staged_end) ->
  always safe (fun t => exists x, kept f (upd V f (ready initial f)) w.1 x t /\
                 (w.2 = Ok tt -> pf_staged w.1 = true /\ ts x = whole f /\ pf_backed_up w.1 = false /\ pf_committed w.1 = false))
    match w.2 with
    | Err e => mret (prepared ++ [w.1], Err e)
    | Ok _ => stage_all initial (prepared ++ [w.1]) todo
    end staged_end.
Proof.
  intros Hd Hs Hall Hm Hinit Hnext. destruct (fresh_pending done f todo Hd) as (Hfd & Hft & Hff).
  assert (Hd' : (done ++ [f]) ++ todo = files) by (by rewrite <-app_assoc).
  apply always_exists. intros x. eapply always_pre with (P' := fun t => views (upd V f x) t /\ _).
  2: { intros t [(Hv & Hn & Hfl) Hok]. split; [by apply upd_upd in Hv |]. exact (conj Hn (conj Hfl Hok)). }
  apply always_pure. intros (Hn & Hfl & Hok).
  assert (Hs' : solid (upd V f x)) by (apply solid_upd; [done | by eapply flags_firm]).
  assert (Htodo : forall g, g ∈ todo -> upd V f x g = trip_at initial g).
  { intros g Hg. rewrite upd_other; [by apply Hinit |]. by intros ->. }
  destruct (w.2) as [[]|e] eqn:Hw2.
  - destruct (Hok eq_refl) as (Hst & Hts & Hbk & Hcm). apply Hnext; try done.
    apply all_are_snoc; [by apply all_are_upd |]. rewrite upd_same. by split.
  - apply always_ret. intros t Hv. exists (upd V f x), (done ++ [f]), todo. cbn [fst snd]. split_and!; try done.
    + apply all_are_snoc; [apply all_are_upd; [done |] |]; [| rewrite upd_same; by split].
      eapply all_are_impl; [| done]. by intros q g y [? _].
    + intros g Hg. left. by apply Htodo.
Qed.

Lemma stage_all_always todo : forall done prepared V, done ++ todo = files -> solid V ->
  all_are loaded V prepared done -> (forall g, g ∈ todo -> V g = trip_at initial g) ->
  always safe (views V) (stage_all initial prepared todo) staged_end.
Proof.
  induction todo as [|f todo IH]; intros done prepared V Hd Hs Hall Hinit; cbn [stage_all].
  { apply always_ret. intros t Hv. exists V, done, []. rewrite app_nil_r in *. split_and!; try done.
    - eapply all_are_impl; [| done]. by intros p f x [? _].
    - intros g Hg. by apply elem_of_nil in Hg. }
  destruct (fresh_pending done f todo Hd) as (Hfd & Hft & Hff). destruct f as [path value] eqn:Ef. rewrite <-Ef in *.
  replace path with f.1 by (by rewrite Ef). replace value with f.2 by (by rewrite Ef).
  eapply always_bind; [apply (prepare_always V f Hff Hs); apply Hinit; by left |].
  intros [p|e]; cbn beta iota.
  - eapply always_pre with (P' := fun t => views (upd V f (ready initial f)) t /\ (member f /\ fresh f p)).
    2: { intros t (Hm & Hfr & Hv). auto. }
    apply always_pure. intros [Hm Hfr].
    eapply always_bind.
    { apply (write_always (upd V f (ready initial f)) f p Hm); [| done | apply upd_same].
      apply solid_upd; [done |]. unfold firm. cbn. auto. }
    intros w. apply (write_end V f done todo prepared w); try done.
    + intros g Hg. apply Hinit. by right.
    + intros W HdW HsW HaW HiW. by apply (IH (done ++ [f])).
  - apply always_ret. intros t (x & Hx & Hv). exists (upd V f x), done, (f :: todo). split_and!; try done.
    + apply solid_upd; [done | by apply left_alone_firm].
    + apply all_are_upd; [done |]. eapply all_are_impl; [| done]. by intros q g y [? _].
    + intros g Hg. destruct (decide (g = f)) as [->|Hne]; [by rewrite upd_same |].
      rewrite upd_other by done. left. by apply Hinit.
Qed.

(** How the second loop ends: every file prepared, all in place on success. *)
Definition committed_end (r : list PreparedFile * result unit FileSecretError) (t : list FsEvent) : Prop :=
  exists W, views W t /\ solid W /\ all_are linked W r.1 files /\ (r.2 = Ok tt -> all_are placed W r.1 files).

Lemma placed_linked V ps fs : all_are placed V ps fs -> all_are linked V ps fs.
Proof. apply all_are_impl. by intros p f x [? _]. Qed.
Lemma loaded_linked V ps fs : all_are loaded V ps fs -> all_are linked V ps fs.
Proof. apply all_are_impl. by intros p f x [? _]. Qed.

Lemma commit_all_always before_commit todo : forall index pending done prepared V, done ++ pending = files -> solid V ->
  all_are placed V prepared done -> all_are loaded V todo pending ->
  always safe (views V) (commit_all initial before_commit index prepared todo) committed_end.
Proof.
  induction todo as [|p todo IH]; intros index pending done prepared V Hd Hs Hdone Htodo; cbn [commit_all].
  { apply Forall2_nil_inv_l in Htodo as ->. rewrite app_nil_r in Hd. subst done. apply always_ret. intros t Hv. exists V.
    split_and!; [done.. | by apply placed_linked | done]. }
  apply Forall2_cons_inv_l in Htodo as (f & pend & Hp & Hpend & ->).
  destruct (fresh_pending done f pend Hd) as (Hfd & Hft & Hff).
  assert (Hd' : (done ++ [f]) ++ pend = files) by (by rewrite <-app_assoc).
  assert (Hlink : forall x q, linked q f x -> all_are linked (upd V f x) (prepared ++ q :: todo) files).
  { intros x q Hq. rewrite <-Hd. apply Forall2_app; [by apply (all_are_upd linked), placed_linked |].
    constructor; [by rewrite upd_same | by apply (all_are_upd linked), loaded_linked]. }
  destruct Hp as ((Hm & Hn & Hfl) & Hst & Hbk & Hcm & Hts).
  destruct (before_commit index) as [u|e].
  2: { apply always_ret. intros t Hv. exists (upd V f (V f)).
       split_and!; [by apply upd_id | apply solid_upd; [done | by apply Hs] | by apply Hlink | done]. }
  eapply always_bind; [by apply (commit_always V f p) |]. intros c. apply always_exists. intros x.
  eapply always_pre with (P' := fun t => views (upd V f x) t /\ _).
  2: { intros t [(Hv & Hnc & Hflc) Hok]. split; [done |]. exact (conj Hnc (conj Hflc Hok)). }
  apply always_pure. intros (Hnc & Hflc & Hok).
  assert (Hs' : solid (upd V f x)) by (apply solid_upd; [done | by eapply flags_firm]).
  destruct (c.2) as [[]|e] eqn:Hc2.
  - destruct (Hok eq_refl) as [Hcc Hsc]. apply (IH (S index) pend (done ++ [f])); try done.
    + apply all_are_snoc; [by apply all_are_upd |]. rewrite upd_same. by split.
    + by apply all_are_upd.
  - apply always_ret. intros t Hv. exists (upd V f x). cbn [fst snd]. split_and!; try done. by apply Hlink.
Qed.

Lemma rollback_all_always ps : forall fs V failed, NoDup fs -> solid V -> all_are linked V ps fs ->
  always safe (views V) (rollback_all initial failed ps) (fun b t => exists W,
    views W t /\ solid W /\ (forall g, g ∉ fs -> W g = V g) /\
    (b = false -> failed = false /\ forall g, g ∈ fs -> W g = ready initial g)).
Proof.
  induction ps as [|p ps IH]; intros fs V failed Hnd Hs Hall; cbn [rollback_all].
  { apply Forall2_nil_inv_l in Hall as ->. apply always_ret. intros t Hv. exists V. split_and!; try done. intros ->. split; [done |].
    intros g Hg. by apply elem_of_nil in Hg. }
  apply Forall2_cons_inv_l in Hall as (f & fs' & Hp & Hps & ->).
  apply NoDup_cons in Hnd as [Hf Hnd]. destruct Hp as (Hm & Hn & Hfl).
  eapply always_bind; [by apply (rollback_always V f p) |]. intros r. apply always_exists. intros x.
  eapply always_pre with (P' := fun t => views (upd V f x) t /\ _).
  2: { intros t (Hfirm & Hv & Hok). split; [done |]. exact (conj Hfirm Hok). }
  apply always_pure. intros [Hfirm Hok].
  eapply always_post.
  { apply (IH fs' (upd V f x)); [done | by apply solid_upd | by apply (all_are_upd linked)]. }
  intros b t (W & Hv & HsW & Hout & Hb). exists W. split_and!; [done | done | |].
  - intros g Hg. rewrite not_elem_of_cons in Hg. destruct Hg as [Hne Hg]. rewrite Hout by done. by apply upd_other.
  - intros Hbf. destruct (Hb Hbf) as [Hfail Hin]. apply orb_false_iff in Hfail as [Hfail Hr].
    split; [done |]. intros g Hg. apply elem_of_cons in Hg as [->|Hg]; [| by apply Hin].
    rewrite Hout, upd_same by done. apply Hok. by destruct r as [[]|].
Qed.

(** The whole group is in place; some backups may still be there. *)
Definition in_place (V : string * string -> Trip) : Prop :=
  forall g, member g -> td (V g) = whole g /\ (tb (V g) = recovered initial g \/ tb (V g) = None).

Lemma finish_all_always ps : forall fs V, NoDup fs -> all_are placed V ps fs ->
  in_place V ->
  always safe (views V) (finish_all initial ps) (fun r t => exists W,
    views W t /\ in_place W /\ (forall g, g ∉ fs -> W g = V g) /\
    (r = Ok tt -> forall g, g ∈ fs -> W g = {| td := whole g; ts := None; tb := None |})).
Proof.
  induction ps as [|p ps IH]; intros fs V Hnd Hall Hw; cbn [finish_all].
  { apply Forall2_nil_inv_l in Hall as ->. apply always_ret. intros t Hv. exists V. split_and!; try done. intros _ g Hg. by apply elem_of_nil in Hg. }
  apply Forall2_cons_inv_l in Hall as (f & fs' & Hp & Hps & ->).
  apply NoDup_cons in Hnd as [Hf Hnd]. destruct Hp as ((Hm & Hn & Hfl) & Hcm & Hst).
  destruct (names_parts f p Hn) as (name & Hparts & Hd & Hsn & Hb).
  destruct Hfl as (Hts & Htb & Htd & _). rewrite Hst in Hts. rewrite Hcm in Htd.
  set (x := {| td := whole f; ts := None; tb := None |}).
  assert (Hwx : in_place (upd V f x)).
  { intros g Hg. destruct (decide (g = f)) as [->|Hne]; [rewrite upd_same; cbn; auto | rewrite upd_other by done; by apply Hw]. }
  assert (Hstop : forall e t, views V t -> exists W, views W t /\ in_place W /\
    (forall g, g ∉ f :: fs' -> W g = V g) /\
    ((Err e : result unit FileSecretError) = Ok tt -> forall g, g ∈ f :: fs' -> W g = {| td := whole g; ts := None; tb := None |})).
  { intros e t Hv. by exists V. }
  eapply (always_try _ _ _ (fun _ => views (upd V f x)) (views V)); [| exact Hstop | intros _].
  { assert (Hx : set_cell (V f) SBack None = x) by (destruct (V f); cbn in *; unfold x; congruence).
    destruct (pf_backed_up p).
    - rewrite Hb, <-Hx. apply (unlink_always f _ name Hm Hparts V SBack). rewrite Hx. by right.
    - apply always_ret. intros t Hv. rewrite <-Hx. apply (upd_id V f) in Hv. revert Hv. apply views_conv.
      intros g _. unfold upd. case_decide; [| done]. destruct (V f); cbn in *. congruence. }
  assert (Hstop' : forall e t, views (upd V f x) t -> exists W, views W t /\ in_place W /\
    (forall g, g ∉ f :: fs' -> W g = V g) /\
    ((Err e : result unit FileSecretError) = Ok tt -> forall g, g ∈ f :: fs' -> W g = {| td := whole g; ts := None; tb := None |})).
  { intros e t Hv. exists (upd V f x). split_and!; try done. intros g Hg. apply upd_other. set_solver. }
  eapply (always_try _ _ _ (fun _ => views (upd V f x)) (views (upd V f x))); [| exact Hstop' | intros _].
  { eapply always_post; [apply sync_dir_always |]. by intros []. }
  eapply always_post; [apply (IH fs' (upd V f x)); [done | by apply all_are_upd | done] |].
  intros r t (W & Hv & HwW & Hout & Hr). exists W. split_and!; try done.
  - intros g Hg. rewrite Hout by set_solver. apply upd_other. set_solver.
  - intros Hok g Hg. apply elem_of_cons in Hg as [->|Hg]; [by rewrite Hout, upd_same | by apply Hr].
Qed.

(** What a failed group leaves of a file: as it was, recovered, or recovered
    and without a staging file. *)
Definition restored (f : string * string) (x : Trip) : Prop := x = ready initial f \/ left_alone f x.

Definition install_end (r : result unit FileSecretError) (fs : Fs) : Prop :=
  match r with
  | Ok _ => forall f, f ∈ files -> eligible f.1 = true /\ trip_at fs f = {| td := whole f; ts := None; tb := None |}
  | Err e =>
      e = FsRollback \/ (forall f, member f -> restored f (trip_at fs f)) \/
      (forall f, f ∈ files -> td (trip_at fs f) = whole f)
  end.

Lemma all_are_rev R V ps fs : all_are R V ps fs -> all_are R V (rev ps) (rev fs).
Proof.
  induction 1 as [|p f ps fs Hr _ IH]; [constructor |]. cbn [rev]. by apply all_are_snoc.
Qed.

Lemma all_are_members V ps fs f : all_are linked V ps fs -> f ∈ fs -> member f.
Proof.
  induction 1 as [|p g ps fs (Hm & _) _ IH]; intros Hin; [by apply elem_of_nil in Hin |].
  apply elem_of_cons in Hin as [->|]; auto.
Qed.

Lemma placed_view V ps fs : all_are placed V ps fs -> forall g, g ∈ fs ->
  td (V g) = whole g /\ (tb (V g) = recovered initial g \/ tb (V g) = None).
Proof.
  induction 1 as [|p f ps fs Hp _ IH]; intros g Hin; [by apply elem_of_nil in Hin |].
  apply elem_of_cons in Hin as [->|]; [| auto].
  destruct Hp as ((_ & _ & _ & Htb & Htd & _) & Hcm & _). rewrite Hcm in Htd. split; [done |].
  rewrite Htb. destruct (pf_backed_up p); auto.
Qed.

Lemma elem_of_rev {A} (l : list A) x : x ∈ rev l <-> x ∈ l.
Proof. by rewrite !list_elem_of_In, <-in_rev. Qed.

(** The rollback of the files prepared when the group failed. *)
Lemma rollback_end (e : FileSecretError) done rest ps W : files = done ++ rest -> solid W -> all_are linked W ps done ->
  (forall g, g ∈ rest -> left_alone g (W g)) ->
  always safe (views W)
    (rollback_failed ← rollback_all initial false (rev ps);
     mret (Err (if (rollback_failed : bool) then FsRollback else e)))
    (fun r t => install_end r (fs_at initial t)).
Proof.
  intros Hf Hs Hall Hrest.
  assert (Hnd : NoDup (rev done)).
  { pose proof (group_nodup _ Hgroup) as Hnd. rewrite Hf in Hnd. apply NoDup_app in Hnd as [Hnd _].
    by apply NoDup_ListNoDup, List.NoDup_rev, NoDup_ListNoDup. }
  eapply always_bind; [by apply (rollback_all_always (rev ps) (rev done)); [| | apply all_are_rev] |].
  intros b. apply always_ret. intros t (U & Hv & HsU & Hout & Hb).
  destruct b; [by left |]. right. left. intros f Hm. rewrite (Hv f Hm).
  destruct (Hb eq_refl) as [_ Hready]. destruct (decide (f ∈ done)) as [Hin|Hin].
  - left. apply Hready. by apply elem_of_rev.
  - right. rewrite Hout; [| by rewrite elem_of_rev].
    apply Hrest. destruct Hm as [Hm _]. rewrite Hf in Hm. set_solver.
Qed.

(** How the closure that stages and commits ends. *)
Definition group_end (r : list PreparedFile * result unit FileSecretError) (t : list FsEvent) : Prop :=
  exists W done rest, files = done ++ rest /\ views W t /\ solid W /\ all_are linked W r.1 done /\
    (forall g, g ∈ rest -> left_alone g (W g)) /\ (r.2 = Ok tt -> all_are placed W r.1 files).

Lemma commit_end before_commit (staged : list PreparedFile * result unit FileSecretError) :
  always safe (staged_end staged)
    match staged.2 with
    | Err e => mret (staged.1, Err e)
    | Ok _ => commit_all initial before_commit 0 [] staged.1
    end group_end.
Proof.
  unfold staged_end. do 3 (apply always_exists; intros ?).
  rename x into W, x0 into done, x1 into rest.
  eapply always_pre with (P' := fun t => views W t /\ _).
  2: { intros t (Hf & Hv & Hs & Hl & Hr & Hok). split; [done |]. exact (conj Hf (conj Hs (conj Hl (conj Hr Hok)))). }
  apply always_pure. intros (Hf & Hs & Hl & Hr & Hok). destruct (staged.2) as [[]|e] eqn:Hst.
  - destruct (Hok eq_refl) as [-> Hload]. rewrite app_nil_r in Hf. subst done.
    eapply always_post; [apply (commit_all_always before_commit staged.1 0 files [] [] W); try done; constructor |].
    intros r t (U & Hv & HsU & HlU & HpU). exists U, files, []. rewrite app_nil_r. split_and!; try done.
    intros g Hg. by apply elem_of_nil in Hg.
  - apply always_ret. intros t Hv. by exists W, done, rest.
Qed.

Lemma finish_end ps W : solid W -> all_are placed W ps files ->
  always safe (views W) (finish_all initial ps) (fun r t => install_end r (fs_at initial t)).
Proof.
  intros Hs Hall. pose proof (placed_view W ps files Hall) as Hin.
  eapply always_post.
  { apply (finish_all_always ps files W (group_nodup _ Hgroup) Hall). intros g [Hg _]. by apply Hin. }
  assert (Hmem : forall f, f ∈ files -> member f).
  { intros f Hf. eapply (all_are_members W ps); [by apply placed_linked | done]. }
  intros r t (U & Hv & HinU & _ & Hok). unfold install_end. destruct r as [[]|e].
  - intros f Hf. split; [apply (Hmem f Hf) |]. rewrite (Hv f (Hmem f Hf)). by apply Hok.
  - right. right. intros f Hf. rewrite (Hv f (Hmem f Hf)). by apply HinU, Hmem.
Qed.

Lemma install_always before_commit :
  always safe (fun t => t = []) (install_at initial before_commit files) (fun r t => install_end r (fs_at initial t)).
Proof.
  unfold install_at. eapply always_bind.
  { eapply always_pre; [apply (stage_all_always files [] [] (trip_at initial)); try done |].
    - intros f _. unfold firm. auto.
    - constructor.
    - by intros t ->. }
  intros staged. eapply always_bind; [apply commit_end |]. intros r.
  unfold group_end. do 3 (apply always_exists; intros ?). rename x into W, x0 into done, x1 into rest.
  eapply always_pre with (P' := fun t => views W t /\ _).
  2: { intros t (Hf & Hv & Hs & Hl & Hr & Hok). split; [done |]. exact (conj Hf (conj Hs (conj Hl (conj Hr Hok)))). }
  apply always_pure. intros (Hf & Hs & Hl & Hr & Hok).
  destruct (r.2) as [[]|e]; [by apply finish_end; auto | by apply (rollback_end e done rest)].
Qed.

End steps.

(** A call without a loop returns. *)
Ltac totals :=
  repeat first
    [ progress cbn beta iota
    | done
    | apply does_ret; exact I
    | match goal with H : forall _, _ |- _ => apply H end
    | apply does_ask; intros; exact I
    | eapply (does_bind (fun _ _ => True)); [| intros ? ? _]
    | case_match ].

(** ** The theorems *)

Section theorems.
Context `{!FileHost, !Sha256, !Encodings}.

Lemma safe_moment initial files t2 t1 : safe initial files (t2 ++ t1) -> intact initial files (trip_at (fs_at initial t1)).
Proof. induction t2 as [|e t2 IH]; [by destruct t1; intros [? _] |]. intros [_ Hs]. by apply IH. Qed.

Lemma firm_dest initial f x : firm initial f x ->
  td x ∈ [initial !! key f.1 SDest; recovered initial f; None; whole f].
Proof. intros [[-> _]|[[-> _]|[[-> _]|[-> _]]]]; cbn; set_solver. Qed.

Lemma firm_recovered initial fs f : firm initial f (trip_at fs f) -> recovered initial f <> None ->
  recovered fs f = recovered initial f.
Proof.
  intros Hf Hn. unfold recovered at 1.
  destruct Hf as [[Hd Hb]|[[Hd Hb]|[[Hd Hb]|[Hd Hb]]]]; rewrite Hd, Hb; [done | done | |]; by destruct (recovered initial f).
Qed.

(** Whatever is asked to be installed, and whatever fails, the call returns. *)
Lemma install_total initial before_commit files : does (install_at initial before_commit files) (fun _ _ => True).
Proof.
  assert (Hdescend : forall names parent, does (descend initial parent names) (fun _ _ => True)).
  { induction names; intros parent; cbn [descend]; unfold directory, open_dir, make_dir; totals. }
  assert (Hstage : forall todo prepared, does (stage_all initial prepared todo) (fun _ _ => True)).
  { induction todo as [|[] todo]; intros prepared; cbn [stage_all];
      unfold prepare, recover, regular_file, rename, unlink, write; totals. }
  assert (Hcommit : forall todo done index, does (commit_all initial before_commit index done todo) (fun _ _ => True)).
  { induction todo; intros done index; cbn [commit_all];
      unfold commit, publish, regular_file, rename, sync_dir; totals. }
  assert (Hrollback : forall ps failed, does (rollback_all initial failed ps) (fun _ _ => True)).
  { induction ps; intros failed; cbn [rollback_all]; unfold rollback, rename, unlink, sync_dir; totals. }
  assert (Hfinish : forall ps, does (finish_all initial ps) (fun _ _ => True)).
  { induction ps; cbn [finish_all]; unfold unlink, sync_dir; totals. }
  unfold install_at. totals.
Qed.



End theorems.

(** Go through the files of the sample group. *)
Ltac each_sample H :=
  unfold sample_group in H; repeat (apply elem_of_cons in H as [->|H]); [.. | by apply elem_of_nil in H].

Lemma sample_group_ok : @group_ok sample_identity sample_encodings sample_group.
Proof.
  split.
  - apply (bool_decide_unpack _). vm_compute. exact I.
  - intros f g Hf Hg _ _ Hk. each_sample Hf; each_sample Hg; try done; vm_compute in Hk; discriminate Hk.
  - intros f g Hf Hg Hk. each_sample Hf; each_sample Hg; try done; vm_compute in Hk; discriminate Hk.
  - intros f dirs name Hf Hp. each_sample Hf; vm_compute in Hp; injection Hp as <- <-; repeat constructor.
  - intros f g dirs name Hf Hg _ Hp [rest Hk]. each_sample Hf; each_sample Hg; vm_compute in Hp; injection Hp as <- <-;
      vm_compute in Hk; discriminate Hk.
Qed.

Lemma sample_token : ("/run/token", "new") ∈ sample_group.
Proof. unfold sample_group. set_solver. Qed.
Lemma sample_member : member sample_group ("/run/token", "new").
Proof. split; [exact sample_token | vm_compute; reflexivity]. Qed.



(** When the removal of a backup fails at the end, an error is returned although
    the new files stay in place. *)
Example failed_cleanup_keeps_new_files : exists t, sample_install 27 = (Some (Err FsInstall), t) /\
  fs_at sample_fs t !! ["run"; "token"] = Some (NFile private_mode "new") /\
  fs_at sample_fs t !! ["run"; "keys"; "tls.pem"] = Some (NFile private_mode "pem").
Proof. eexists. split; [vm_compute; reflexivity |]. split; vm_compute; reflexivity. Qed.

(** Two spellings of one path are two destinations to the checks before, but one
    file: the installation succeeds and the first secret is lost. *)
Example aliased_paths_lose_a_file : exists t,
  @install_secret_files (sample_file_host 100) sample_identity sample_encodings sample_fs
    [("/run//token", "one"); ("/run/token", "two")] [] = (Some (Ok tt), t) /\
  fs_at sample_fs t !! ["run"; "token"] = Some (NFile private_mode "two").
Proof. eexists. split; vm_compute; reflexivity. Qed.
