(* ===== verification/Lockbox.v ===== *)
(** * Job-bound secrets

    [log_config_secret.rs] and [job_secrets.rs]: the two signed Lockbox exchanges,
    the verification and decryption of a delivery, the log configuration and the
    customer secrets that are taken from it, and their hydration into the runtime
    environment and the private files of [FileSecrets]. *)
From Stdlib Require Import Ascii SpecFloat.
From stdpp Require Import prelude strings gmap.
From S2P Require Import Prelude Json EnvNames Bridge World Protocol RestartPolicy Evidence FileSecrets.

Local Open Scope Z_scope.

(** ** Data *)

Definition BLACKBOX_LOG_CONFIG_ENV : string := "BLACKBOX_LOG_CONFIG".
Definition BLACKBOX_LOG_CONFIG_SECRET_ID : string := "blackbox-log-config".
Definition BLACKBOX_LOG_CONFIG_BUNDLE_ID : string := "blackbox-log-config".
Definition DEFAULT_SECRETS_URL : string := "https://secrets.liskov.proof.computer".
Definition SECRET_BOOTSTRAP_REQUEST_DOMAIN_V2 : string := "proof.liskov.secret-bootstrap-request.v2".
Definition SECRET_BOOTSTRAP_RESPONSE_DOMAIN_V2 : string := "proof.liskov.secret-bootstrap-response.v2".
Definition REQUEST_DOMAIN_V2 : string := "proof.lockbox.job-secret-request.v2".
Definition RESPONSE_DOMAIN_V2 : string := "proof.lockbox.job-secret-response.v2".
Definition ENCRYPTED_PAYLOAD_DOMAIN_V2 : string := "proof.lockbox.job-secret-response.encrypted-payload.v2".
Definition RESPONSE_AAD_DOMAIN_V2 : string := "proof.lockbox.job-secret-response.aad.v2".
Definition SECP256K1_PRIMING_PUBLIC_KEY : string :=
  "0279be667ef9dcbbac55a06295ce870b07029bfcdb2dce28d959f2815b16f81798".
Definition REQUEST_TTL_MS : Z := 60000.
Definition MAX_CONFIG_BYTES : Z := 64 * 1024.

Inductive LogConfigSecretError :=
| SecFileInstallation | SecInvalidBootstrap | SecClock | SecTimestampOverflow | SecRandomness
| SecEncryptionKey (e : BridgeError) | SecInvalidEncryptionKey | SecSigning (e : BridgeError) | SecInvalidSignature
| SecSerialization | SecTransport | SecRejected | SecInvalidResponse | SecResponseBinding
| SecDecryption (e : BridgeError) | SecInvalidPlaintext.

Definition secret_error_code (e : LogConfigSecretError) : string :=
  match e with
  | SecFileInstallation => "file_installation"
  | SecInvalidBootstrap => "invalid_bootstrap"
  | SecClock => "clock"
  | SecTimestampOverflow => "timestamp_overflow"
  | SecRandomness => "randomness"
  | SecEncryptionKey _ => "encryption_key"
  | SecInvalidEncryptionKey => "invalid_encryption_key"
  | SecSigning _ => "signing"
  | SecInvalidSignature => "invalid_signature"
  | SecSerialization => "serialization"
  | SecTransport => "transport"
  | SecRejected => "rejected"
  | SecInvalidResponse => "invalid_response"
  | SecResponseBinding => "response_binding"
  | SecDecryption _ => "decryption"
  | SecInvalidPlaintext => "invalid_plaintext"
  end.

Inductive ResponseCurve := P256 | Secp256k1.
#[global] Instance ResponseCurve_eq_dec : EqDecision ResponseCurve.
Proof. solve_decision. Defined.

Definition bridge_curve (c : ResponseCurve) : string := match c with P256 => "p256" | Secp256k1 => "secp256k1" end.
Definition envelope (c : ResponseCurve) : string * string :=
  match c with
  | P256 => ("acurast-p256-hkdf-aes-256-gcm-v2", "secp256r1")
  | Secp256k1 => ("acurast-secp256k1-hkdf-aes-256-gcm-v1", "secp256k1")
  end.

Record CompactBootstrap := {
  cb_v : Z; cb_u : string; cb_uid : string; cb_a : string; cb_g : string; cb_p : string; cb_d : string;
  cb_s : list string
}.
Definition with_ids (c : CompactBootstrap) (s : list string) : CompactBootstrap :=
  {| cb_v := cb_v c; cb_u := cb_u c; cb_uid := cb_uid c; cb_a := cb_a c; cb_g := cb_g c; cb_p := cb_p c; cb_d := cb_d c;
     cb_s := s |}.
Definition compact_fields (c : CompactBootstrap) : list (string * Value) :=
  [("v", jint (cb_v c)); ("u", Str (cb_u c)); ("uid", Str (cb_uid c)); ("a", Str (cb_a c)); ("g", Str (cb_g c));
   ("p", Str (cb_p c)); ("d", Str (cb_d c)); ("s", Arr (map Str (cb_s c)))].

Record UnsignedRequest := {
  lq_domain : string;
  lq_application_uid : string;
  lq_application_id : string;
  lq_grant_id : string;
  lq_policy_digest : string;
  lq_job_id : string;
  lq_deployment_id : string;
  lq_processor_id : string;
  lq_requested_secret_ids : list string;
  lq_nonce : string;
  lq_issued_at_ms : Z;
  lq_expires_at_ms : Z;
  lq_response_encryption_key : string
}.
Definition lockbox_request_fields (u : UnsignedRequest) : list (string * Value) :=
  [("domain", Str (lq_domain u)); ("applicationUid", Str (lq_application_uid u));
   ("applicationId", Str (lq_application_id u)); ("grantId", Str (lq_grant_id u));
   ("policyDigest", Str (lq_policy_digest u)); ("jobId", Str (lq_job_id u));
   ("deploymentId", Str (lq_deployment_id u)); ("processorId", Str (lq_processor_id u));
   ("requestedSecretIds", Arr (map Str (lq_requested_secret_ids u))); ("nonce", Str (lq_nonce u));
   ("issuedAtMs", jint (lq_issued_at_ms u)); ("expiresAtMs", jint (lq_expires_at_ms u));
   ("responseEncryptionKey", Str (lq_response_encryption_key u))].

Record UnsignedSecretBootstrapRequest := {
  sb_domain : string;
  sb_job_id : string;
  sb_processor_id : string;
  sb_response_encryption_key : string;
  sb_nonce : string;
  sb_issued_at_ms : Z;
  sb_expires_at_ms : Z
}.
Definition secret_bootstrap_fields (u : UnsignedSecretBootstrapRequest) : list (string * Value) :=
  [("domain", Str (sb_domain u)); ("jobId", Str (sb_job_id u)); ("processorId", Str (sb_processor_id u));
   ("responseEncryptionKey", Str (sb_response_encryption_key u)); ("nonce", Str (sb_nonce u));
   ("issuedAtMs", jint (sb_issued_at_ms u)); ("expiresAtMs", jint (sb_expires_at_ms u))].

(** [SignedRequest] and [SignedSecretBootstrapRequest]: the flattened request,
    then the signature. *)
Definition with_signature (fields : list (string * Value)) (signature : string) : list (string * Value) :=
  fields ++ [("signature", Str signature)].

(** ** Normal forms *)

Definition hex_text (s : string) (n : Z) : bool := (len s =? n) && bytes_all is_ascii_hexdigit s.

Definition normalize_policy_digest (value : string) : option string :=
  let value := to_ascii_lowercase (default (trim value) (strip_prefix "sha256:" (trim value))) in
  then_some (hex_text value 64) value.

Definition strip_hex_prefix (value : string) : string :=
  match strip_prefix "0x" value with
  | Some rest => rest
  | None => default value (strip_prefix "0X" value)
  end.

Definition normalize_public_key (value : string) : option string :=
  let value := to_ascii_lowercase (strip_hex_prefix (trim value)) in
  then_some (((len value =? 66) || (len value =? 130)) && bytes_all is_ascii_hexdigit value) value.

Definition lockbox_hex_exact (value : string) (byte_len : Z) : option string :=
  let value := to_ascii_lowercase (strip_hex_prefix value) in
  then_some (hex_text value (byte_len * 2)) value.

Definition required_bounded_string (value : option Value) : result string LogConfigSecretError :=
  ok_or SecInvalidResponse
    (opt_filter (fun value => negb (str_is_empty value) && (len value <=? MAX_CONFIG_BYTES * 2))
       (v ← value; as_str v)).

Definition required_sha256 (value : option Value) : result string LogConfigSecretError :=
  let? value := ok_or SecInvalidResponse (v ← value; as_str v) in
  let? digest := ok_or SecInvalidResponse (strip_prefix "sha256:" value) in
  if negb (hex_text digest 64) then Err SecInvalidResponse else Ok ("sha256:" +:+ to_ascii_lowercase digest).

(** [value["key"].as_str() == Some(s)] and its kin. *)
Definition field_is (v : Value) (k s : string) : bool := bool_decide (as_str (value_index k v) = Some s).
Definition field_true (v : Value) (k : string) : bool := bool_decide (as_bool (value_index k v) = Some true).
Definition digest_is (v : Value) (k digest : string) : bool :=
  bool_decide (normalize_policy_digest (default EmptyString (as_str (value_index k v))) = Some digest).
Definition field_nonempty (v : Value) (k : string) : bool :=
  match as_str (value_index k v) with Some s => negb (str_is_empty s) | None => false end.

(** [Value]'s equality; numbers compare within their representation. *)
Fixpoint value_eqb (a b : Value) : bool :=
  match a, b with
  | Null, Null => true
  | Bool x, Bool y => Bool.eqb x y
  | Num (PosInt x), Num (PosInt y) => x =? y
  | Num (NegInt x), Num (NegInt y) => x =? y
  | Num (Float x), Num (Float y) => SFeqb x y
  | Str x, Str y => x =s y
  | Arr l, Arr m =>
      (fix go (l m : list Value) : bool :=
         match l, m with
         | [], [] => true
         | x :: l, y :: m => value_eqb x y && go l m
         | _, _ => false
         end) l m
  | Obj l, Obj m =>
      (fix go (l m : list (string * Value)) : bool :=
         match l, m with
         | [], [] => true
         | (k, x) :: l, (k', y) :: m => (k =s k') && value_eqb x y && go l m
         | _, _ => false
         end) l m
  | _, _ => false
  end.

(** ** Metadata *)

Record Metadata := {
  md_secret_id : string;
  md_version_id : string;
  md_target : string;
  md_name : string;
  md_required : bool;
  md_bundle_id : string
}.
#[global] Instance Metadata_eq_dec : EqDecision Metadata.
Proof. solve_decision. Defined.

(** [serde_json::from_value]: a derived struct is read from an object by field
    name, or from an array by position. *)
Definition metadata_from_value (value : Value) : option Metadata :=
  let read (secret_id version_id target name required bundle_id : option Value) :=
    secret_id ← secret_id; secret_id ← as_str secret_id;
    version_id ← version_id; version_id ← as_str version_id;
    target ← target; target ← as_str target;
    name ← name; name ← as_str name;
    required ← required; required ← as_bool required;
    bundle_id ← bundle_id; bundle_id ← as_str bundle_id;
    Some {| md_secret_id := secret_id; md_version_id := version_id; md_target := target; md_name := name;
            md_required := required; md_bundle_id := bundle_id |} in
  match value with
  | Obj m => read (btree_get "secretId" m) (btree_get "versionId" m) (btree_get "target" m) (btree_get "name" m)
               (btree_get "required" m) (btree_get "bundleId" m)
  | Arr [a; b; c; d; e; f] => read (Some a) (Some b) (Some c) (Some d) (Some e) (Some f)
  | _ => None
  end.

(** The test on each byte of a variable name, [first] at index 0. *)
Definition env_name_byte (first : bool) (c : ascii) : bool :=
  byte_is 95 c || is_ascii_uppercase c || is_ascii_lowercase c || (negb first && is_ascii_digit c).
Definition env_name_ok (name : string) : bool :=
  negb (bytes_any (byte_is 61) name) &&
  match name with
  | EmptyString => true
  | String c rest => env_name_byte true c && bytes_all (env_name_byte false) rest
  end.

Definition metadata (value : Value) : result Metadata LogConfigSecretError :=
  let? m := ok_or SecInvalidResponse (metadata_from_value value) in
  if str_is_empty (md_secret_id m) || (256 <? len (md_secret_id m))
     || str_is_empty (md_version_id m) || (1024 <? len (md_version_id m))
     || str_is_empty (md_name m) || (4096 <? len (md_name m)) || contains_nul (md_name m)
     || negb ((md_target m =s "env") || (md_target m =s "file")) then Err SecInvalidResponse
  else if (md_target m =s "env") && negb (env_name_ok (md_name m)) then Err SecInvalidResponse
  else Ok m.

Definition destination (m : Metadata) : string * string := (md_target m, md_name m).

(** The loop of [validate_versions]: the ids and destinations seen. *)
Fixpoint collect_versions (ids : list string) (destinations : list (string * string)) (versions : list Value)
  : result (list string) LogConfigSecretError :=
  match versions with
  | [] => Ok ids
  | version :: versions =>
      let? m := metadata version in
      if bool_decide (md_secret_id m ∈ ids) || bool_decide (destination m ∈ destinations) then Err SecResponseBinding
      else collect_versions (md_secret_id m :: ids) (destination m :: destinations) versions
  end.

Definition same_set (a b : list string) : bool :=
  forallb (fun x => bool_decide (x ∈ b)) a && forallb (fun x => bool_decide (x ∈ a)) b.

Definition validate_versions (versions : Value) (requested : list string) : result unit LogConfigSecretError :=
  let? versions := ok_or SecInvalidResponse (as_array versions) in
  let? ids := collect_versions [] [] versions in
  let n := Z.of_nat (length requested) in
  if (n =? 0) || (256 <? n) || negb (Z.of_nat (length ids) =? n) || negb (same_set ids requested)
  then Err SecResponseBinding
  else Ok tt.

(** The loop of [validate_deliveries]. *)
Fixpoint check_deliveries (versions : list Value) (seen : list string) (secrets : list Value)
  : result unit LogConfigSecretError :=
  match secrets with
  | [] => Ok tt
  | secret :: secrets =>
      let? m := metadata secret in
      if bool_decide (md_secret_id m ∈ seen)
         || negb (existsb (fun version => bool_decide (result_ok (metadata version) = Some m)) versions)
         || opt_is_none (as_str (value_index "value" secret)) then Err SecResponseBinding
      else if (md_target m =s "env") && is_some_and (as_str (value_index "value" secret)) contains_nul
      then Err SecInvalidPlaintext
      else check_deliveries versions (md_secret_id m :: seen) secrets
  end.

Definition validate_deliveries (secrets versions : Value) : result unit LogConfigSecretError :=
  let? secrets := ok_or SecInvalidPlaintext (as_array secrets) in
  let? versions := ok_or SecInvalidResponse (as_array versions) in
  if negb (Nat.eqb (length secrets) (length versions)) then Err SecResponseBinding
  else check_deliveries versions [] secrets.

(** ** The exchanges *)

Section lockbox.
Context `{!JsonText, !World, !UrlApi, !Encodings, !Sha256, !HexDecode, !Deserialize CompactBootstrap}.

Definition sha256_prefixed (value : string) : string := "sha256:" +:+ hex_encode (sha256 value).

Definition secure_join (raw path : string) : result Url LogConfigSecretError :=
  let? base := ok_or SecInvalidBootstrap (url_parse raw) in
  if negb (url_scheme base =s "https") || opt_is_none (url_host_str base)
     || negb (str_is_empty (url_username base)) || opt_is_some (url_password base)
     || opt_is_some (url_query base) || opt_is_some (url_fragment base) then Err SecInvalidBootstrap
  else ok_or SecInvalidBootstrap (url_join base path).

Definition lockbox_endpoint (raw : string) : result Url LogConfigSecretError :=
  secure_join raw "/api/jobs/secret-requests".

Definition deployment_encryption_keys : io event (result Value LogConfigSecretError) :=
  r ← bridge_call "deployment_encryptionKeys" (Arr []);
  mret (map_err SecEncryptionKey r).

(** [for curve in [P256, Secp256k1]]. *)
Fixpoint select_key (keys : option Value) (curves : list ResponseCurve)
  : result (option (string * ResponseCurve)) LogConfigSecretError :=
  match curves with
  | [] => Ok None
  | curve :: curves =>
      match (keys ← keys; value_get (bridge_curve curve) keys) with
      | None | Some Null => select_key keys curves
      | Some value =>
          ok_or SecInvalidEncryptionKey
            (s ← as_str value; key ← normalize_public_key s; Some (Some (key, curve)))
      end
  end.
Definition select_encryption_key (result : Value)
  : Prelude.result (option (string * ResponseCurve)) LogConfigSecretError :=
  select_key (value_get "encryptionKeys" result) [P256; Secp256k1].

Definition priming_params : Value :=
  Arr [jobj [("curve", Str "secp256k1"); ("publicKey", Str SECP256K1_PRIMING_PUBLIC_KEY); ("salt", Str "00");
             ("bytes", Str "00")]].

Definition encryption_public_key : io event (result (string * ResponseCurve) LogConfigSecretError) :=
  let!? keys := deployment_encryption_keys in
  match select_encryption_key keys with
  | Err e => mret (Err e)
  | Ok (Some selected) => mret (Ok selected)
  | Ok None =>
      _ ← bridge_call "signer_encrypt" priming_params;
      let!? keys := deployment_encryption_keys in
      mret (let? selected := select_encryption_key keys in ok_or SecInvalidEncryptionKey selected)
  end.

Definition lockbox_sign (message : string) : io event (result string LogConfigSecretError) :=
  reply ← bridge_call "signer_sign" (sign_params message);
  mret match reply with
       | Err e => Err (SecSigning e)
       | Ok result =>
           match (v ← value_get "bytes" result; s ← as_str v; lockbox_hex_exact s 64) with
           | None => Err SecInvalidSignature
           | Some signature => Ok ("0x" +:+ signature)
           end
       end.

(** Sign the canonical form of [fields] and post the signed request; a response
    with a success status. *)
Definition signed_post (endpoint : Url) (fields : list (string * Value))
  : io event (result HttpResponse LogConfigSecretError) :=
  let!? signature := lockbox_sign (canonical_json_bytes (jobj fields)) in
  reply ← http_post (url_as_str endpoint) (to_vec_fields (with_signature fields signature));
  mret match reply with
       | Err Transport => Err SecTransport
       | Err HttpResponseTooLarge => Err SecInvalidResponse
       | Ok response =>
           if (200 <=? status response) && (status response <? 300) then Ok response else Err SecRejected
       end.

(** [requestedSecretIds]: at most 256 distinct non-empty strings. *)
Definition requested_ids (response : Value) : result (list string) LogConfigSecretError :=
  let? items := ok_or SecInvalidResponse (as_array (value_index "requestedSecretIds" response)) in
  let ids := omap as_str items in
  if (Z.of_nat (length items) <=? 256)
     && forallb (fun item => is_some_and (as_str item) (fun v => negb (str_is_empty v) && (len v <=? 256))) items
     && bool_decide (NoDup ids)
  then Ok ids
  else Err SecInvalidResponse.

Definition bootstrap_bound (bootstrap : RuntimeBootstrapResponse) (u : UnsignedSecretBootstrapRequest)
    (policy_digest : string) (response : Value) : bool :=
  field_true response "ok" && field_is response "domain" SECRET_BOOTSTRAP_RESPONSE_DOMAIN_V2
  && field_is response "applicationUid" (rb_application_uid bootstrap)
  && field_is response "applicationId" (rb_application_id bootstrap)
  && digest_is response "policyDigest" policy_digest
  && field_is response "deploymentId" (rb_deployment_id bootstrap)
  && field_is response "jobId" (sb_job_id u)
  && field_is response "processorId" (sb_processor_id u).

(** The answer to the bootstrap request, turned into the compact form. *)
Definition compact_bootstrap (bootstrap : RuntimeBootstrapResponse) (u : UnsignedSecretBootstrapRequest)
    (body : string) : result string LogConfigSecretError :=
  let? response := ok_or SecInvalidResponse (from_str body) in
  let? policy_digest := ok_or SecResponseBinding (normalize_policy_digest (rb_policy_digest bootstrap)) in
  let? grant_id := required_bounded_string (value_get "grantId" response) in
  let? lockbox_url := required_bounded_string (value_get "lockboxUrl" response) in
  let? _ := secure_join lockbox_url "/api/jobs/secret-requests" in
  let? ids := requested_ids response in
  if negb (bootstrap_bound bootstrap u policy_digest response) then Err SecResponseBinding
  else
    Ok (to_vec (jobj [("v", jint 2); ("u", Str lockbox_url); ("uid", Str (rb_application_uid bootstrap));
                      ("a", Str (rb_application_id bootstrap)); ("g", Str grant_id); ("p", Str policy_digest);
                      ("d", Str (rb_deployment_id bootstrap)); ("s", Arr (map Str ids))])).

Definition discover_lockbox_bootstrap_with (bootstrap : RuntimeBootstrapResponse) (secrets_url : string) (now_ms : Z)
    (nonce : string) : io event (result (option string) LogConfigSecretError) :=
  match secure_join secrets_url "/api/jobs/secret-bootstrap" with
  | Err e => mret (Err e)
  | Ok endpoint =>
      let!? key := encryption_public_key in
      match checked_add_u64 now_ms REQUEST_TTL_MS with
      | None => mret (Err SecTimestampOverflow)
      | Some expires =>
          let unsigned :=
            {| sb_domain := SECRET_BOOTSTRAP_REQUEST_DOMAIN_V2; sb_job_id := rb_job_id bootstrap;
               sb_processor_id := rb_processor_id bootstrap; sb_response_encryption_key := fst key;
               sb_nonce := hex_encode nonce; sb_issued_at_ms := now_ms; sb_expires_at_ms := expires |} in
          let!? response := signed_post endpoint (secret_bootstrap_fields unsigned) in
          mret (let? raw := compact_bootstrap bootstrap unsigned (body response) in Ok (Some raw))
      end
  end.

(** *** Decryption *)

Definition response_bound (request : UnsignedRequest) (response : Value) : bool :=
  field_true response "ok" && field_is response "domain" RESPONSE_DOMAIN_V2
  && field_is response "applicationUid" (lq_application_uid request)
  && field_is response "applicationId" (lq_application_id request)
  && field_is response "grantId" (lq_grant_id request)
  && digest_is response "policyDigest" (lq_policy_digest request)
  && field_is response "jobId" (lq_job_id request)
  && field_is response "deploymentId" (lq_deployment_id request)
  && field_is response "processorId" (lq_processor_id request)
  && value_eqb (value_index "requestedSecretIds" response) (Arr (map Str (lq_requested_secret_ids request)))
  && field_nonempty response "requestId".

Definition plaintext_bound (request : UnsignedRequest) (response payload : Value) : bool :=
  field_is payload "domain" RESPONSE_DOMAIN_V2
  && value_eqb (value_index "requestId" payload) (value_index "requestId" response)
  && field_is payload "applicationUid" (lq_application_uid request)
  && field_is payload "applicationId" (lq_application_id request)
  && field_is payload "grantId" (lq_grant_id request)
  && digest_is payload "policyDigest" (lq_policy_digest request)
  && field_is payload "jobId" (lq_job_id request)
  && field_is payload "deploymentId" (lq_deployment_id request)
  && field_is payload "processorId" (lq_processor_id request).

Definition validate_plaintext_binding (request : UnsignedRequest) (response payload : Value)
  : result unit LogConfigSecretError :=
  if plaintext_bound request response payload then Ok tt else Err SecResponseBinding.

Definition response_aad (request : UnsignedRequest) (response : Value) : Value :=
  jobj [("domain", Str RESPONSE_AAD_DOMAIN_V2); ("requestId", value_index "requestId" response);
        ("applicationUid", Str (lq_application_uid request)); ("applicationId", Str (lq_application_id request));
        ("grantId", Str (lq_grant_id request)); ("policyDigest", Str (lq_policy_digest request));
        ("jobId", Str (lq_job_id request)); ("deploymentId", Str (lq_deployment_id request));
        ("processorId", Str (lq_processor_id request))].

Record Envelope := {
  en_sender_public_key : string;
  en_salt_hex : string;
  en_ciphertext_hex : string;
  en_plaintext_digest : string
}.

(** The checks of a response up to the decryption. *)
Definition open_envelope (request : UnsignedRequest) (curve : ResponseCurve) (response : Value)
  : result Envelope LogConfigSecretError :=
  if negb (response_bound request response) then Err SecResponseBinding
  else
    let? _ := validate_versions (value_index "secretVersions" response) (lq_requested_secret_ids request) in
    let? encrypted := ok_or SecInvalidResponse (as_object (value_index "encryptedPayload" response)) in
    let get k := btree_get k encrypted in
    let has k s := bool_decide ((v ← get k; as_str v) = Some s) in
    if negb (has "domain" ENCRYPTED_PAYLOAD_DOMAIN_V2) || negb (has "version" (envelope curve).1)
       || negb (has "curveName" (envelope curve).2) then Err SecInvalidResponse
    else
      let? sender_public_key := required_bounded_string (get "senderPublicKey") in
      let? salt_hex := required_bounded_string (get "saltHex") in
      let? ciphertext_hex := required_bounded_string (get "ciphertextHex") in
      let? plaintext_digest := required_sha256 (get "plaintextDigest") in
      let? aad_digest := required_sha256 (get "aadDigest") in
      let? encrypted_payload_digest := required_sha256 (get "encryptedPayloadDigest") in
      let digest_value := Obj (btree_remove "encryptedPayloadDigest" encrypted) in
      if negb (sha256_prefixed (canonical_json_bytes digest_value) =s encrypted_payload_digest)
      then Err SecInvalidResponse
      else if negb (sha256_prefixed (canonical_json_bytes (response_aad request response)) =s aad_digest)
      then Err SecResponseBinding
      else Ok {| en_sender_public_key := sender_public_key; en_salt_hex := salt_hex;
                 en_ciphertext_hex := ciphertext_hex; en_plaintext_digest := plaintext_digest |}.

Definition decrypt_params (curve : ResponseCurve) (e : Envelope) : Value :=
  Arr [jobj [("curve", Str (bridge_curve curve)); ("publicKey", Str (en_sender_public_key e));
             ("salt", Str (en_salt_hex e)); ("bytes", Str (en_ciphertext_hex e))]].

(** What the bridge decrypted, checked. *)
Definition open_plaintext (request : UnsignedRequest) (response decrypted : Value) (e : Envelope)
  : result Value LogConfigSecretError :=
  let? plaintext_hex := ok_or SecInvalidPlaintext (v ← value_get "bytes" decrypted; as_str v) in
  if MAX_CONFIG_BYTES * 2 <? len plaintext_hex then Err SecInvalidPlaintext
  else
    let? plaintext := ok_or SecInvalidPlaintext (hex_decode plaintext_hex) in
    if negb (sha256_prefixed plaintext =s en_plaintext_digest e) then Err SecInvalidPlaintext
    else
      let? payload := ok_or SecInvalidPlaintext (from_str plaintext) in
      let? _ := validate_plaintext_binding request response payload in
      let? _ := validate_deliveries (value_index "secrets" payload) (value_index "secretVersions" response) in
      Ok payload.

Definition decrypt_job_secret_payload (request : UnsignedRequest) (curve : ResponseCurve) (body : string)
  : io event (result Value LogConfigSecretError) :=
  match from_str body with
  | None => mret (Err SecInvalidResponse)
  | Some response =>
      match open_envelope request curve response with
      | Err e => mret (Err e)
      | Ok envelope =>
          decrypted ← bridge_call "signer_decrypt" (decrypt_params curve envelope);
          mret match decrypted with
               | Err e => Err (SecDecryption e)
               | Ok decrypted => open_plaintext request response decrypted envelope
               end
      end
  end.

(** The checks of a compact bootstrap, and the request it leads to. *)
Definition lockbox_request (bootstrap : RuntimeBootstrapResponse) (raw_bootstrap : string)
  : result (CompactBootstrap * string * Url) LogConfigSecretError :=
  let? config := ok_or SecInvalidBootstrap (from_slice raw_bootstrap) in
  let? policy_digest := ok_or SecInvalidBootstrap (normalize_policy_digest (rb_policy_digest bootstrap)) in
  if negb (cb_v config =? 2) || negb (trim (cb_uid config) =s rb_application_uid bootstrap)
     || negb (trim (cb_a config) =s rb_application_id bootstrap)
     || negb (bool_decide (normalize_policy_digest (cb_p config) = Some policy_digest))
     || negb (trim (cb_d config) =s rb_deployment_id bootstrap) || str_is_empty (trim (cb_g config))
  then Err SecInvalidBootstrap
  else let? endpoint := lockbox_endpoint (cb_u config) in Ok (config, policy_digest, endpoint).

Definition load_job_secret_payload_with (bootstrap : RuntimeBootstrapResponse) (raw_bootstrap : string) (now_ms : Z)
    (nonce : string) : io event (result Value LogConfigSecretError) :=
  match lockbox_request bootstrap raw_bootstrap with
  | Err e => mret (Err e)
  | Ok (config, policy_digest, endpoint) =>
      let!? key := encryption_public_key in
      match checked_add_u64 now_ms REQUEST_TTL_MS with
      | None => mret (Err SecTimestampOverflow)
      | Some expires =>
          let unsigned :=
            {| lq_domain := REQUEST_DOMAIN_V2; lq_application_uid := rb_application_uid bootstrap;
               lq_application_id := rb_application_id bootstrap; lq_grant_id := cb_g config;
               lq_policy_digest := policy_digest; lq_job_id := rb_job_id bootstrap;
               lq_deployment_id := rb_deployment_id bootstrap; lq_processor_id := rb_processor_id bootstrap;
               lq_requested_secret_ids := cb_s config; lq_nonce := hex_encode nonce; lq_issued_at_ms := now_ms;
               lq_expires_at_ms := expires; lq_response_encryption_key := fst key |} in
          let!? response := signed_post endpoint (lockbox_request_fields unsigned) in
          decrypt_job_secret_payload unsigned (snd key) (body response)
      end
  end.

(** ** The log configuration *)

Definition is_log_secret (secret : Value) : bool :=
  field_is secret "secretId" BLACKBOX_LOG_CONFIG_SECRET_ID && field_is secret "target" "env"
  && field_is secret "name" BLACKBOX_LOG_CONFIG_ENV && field_true secret "required"
  && field_is secret "bundleId" BLACKBOX_LOG_CONFIG_BUNDLE_ID && field_nonempty secret "versionId".

Definition validate_secret_versions (value : Value) : result unit LogConfigSecretError :=
  let? secrets := ok_or SecInvalidResponse (as_array value) in
  match secrets with
  | [secret] => if is_log_secret secret then Ok tt else Err SecResponseBinding
  | _ => Err SecInvalidResponse
  end.

Definition extract_blackbox_config (payload : Value) : result string LogConfigSecretError :=
  let? secrets := ok_or SecInvalidPlaintext (as_array (value_index "secrets" payload)) in
  match secrets with
  | [secret] =>
      let value := opt_filter (fun v => negb (str_is_empty v) && (len v <=? MAX_CONFIG_BYTES))
                     (as_str (value_index "value" secret)) in
      match value with
      | Some value => if is_log_secret secret then Ok value else Err SecInvalidPlaintext
      | None => Err SecInvalidPlaintext
      end
  | _ => Err SecInvalidPlaintext
  end.

Definition load_blackbox_log_config_with (bootstrap : RuntimeBootstrapResponse) (raw_bootstrap : string) (now_ms : Z)
    (nonce : string) : io event (result (option string) LogConfigSecretError) :=
  match from_slice raw_bootstrap with
  | None => mret (Err SecInvalidBootstrap)
  | Some config =>
      if negb (bool_decide (BLACKBOX_LOG_CONFIG_SECRET_ID ∈ cb_s config)) then mret (Ok None)
      else
        let raw := to_vec_fields (compact_fields (with_ids config [BLACKBOX_LOG_CONFIG_SECRET_ID])) in
        let!? payload := load_job_secret_payload_with bootstrap raw now_ms nonce in
        mret (let? _ := validate_secret_versions (value_index "secrets" payload) in
              let? config := extract_blackbox_config payload in
              Ok (Some config))
  end.

Definition ambient_lockbox_bootstrap (runtime_environment : list (string * string)) (process_env : string -> option string)
  : option string :=
  match first_present LOCKBOX_BOOTSTRAP_ENV_NAMES (fun name => btree_get name runtime_environment) with
  | Some raw => Some raw
  | None => first_present LOCKBOX_BOOTSTRAP_ENV_NAMES process_env
  end.

(** [SystemTime::now()] in milliseconds, as a [u64]. *)
Definition system_now_ms : io event (result Z LogConfigSecretError) :=
  now ← unix_time_ms;
  mret (ok_or SecClock (opt_filter (fun z => z <=? u64_max) now)).
Definition random_nonce : io event (result string LogConfigSecretError) :=
  r ← fill_random 16; mret (ok_or SecRandomness r).

(** The environment is a [&mut] map: it is returned with the result. *)
Definition hydrate_blackbox_log_config (process_env : string -> option string) (bootstrap : RuntimeBootstrapResponse)
    (runtime_environment : list (string * string))
  : io event (list (string * string) * result unit LogConfigSecretError) :=
  let failed e := mret (runtime_environment, Err e) in
  if negb (logging_enabled bootstrap) || btree_contains_key BLACKBOX_LOG_CONFIG_ENV runtime_environment
  then mret (runtime_environment, Ok tt)
  else
    let ambient := ambient_lockbox_bootstrap runtime_environment process_env in
    n1 ← random_nonce;
    match n1 with
    | Err e => failed e
    | Ok bootstrap_nonce =>
        n2 ← random_nonce;
        match n2 with
        | Err e => failed e
        | Ok request_nonce =>
            now ← system_now_ms;
            match now with
            | Err e => failed e
            | Ok now_ms =>
                raw ← match ambient with
                      | Some raw => mret (Ok (Some raw))
                      | None => discover_lockbox_bootstrap_with bootstrap DEFAULT_SECRETS_URL now_ms bootstrap_nonce
                      end;
                match raw with
                | Err e => failed e
                | Ok None => mret (runtime_environment, Ok tt)
                | Ok (Some raw) =>
                    config ← load_blackbox_log_config_with bootstrap raw now_ms request_nonce;
                    match config with
                    | Err e => failed e
                    | Ok None => mret (runtime_environment, Ok tt)
                    | Ok (Some config) =>
                        mret (btree_insert BLACKBOX_LOG_CONFIG_ENV config runtime_environment, Ok tt)
                    end
                end
            end
        end
    end.

(** ** Customer secrets *)

Definition SECRETS_URL : string := "https://secrets.liskov.proof.computer".
Definition LOG_SECRET : string := "blackbox-log-config".

Record CustomerSecretDelivery := {
  cd_environment : list (string * string);
  cd_files : list (string * string)
}.
Definition no_delivery : CustomerSecretDelivery := {| cd_environment := []; cd_files := [] |}.

(** [ids.retain(..)] on the array at ["s"]; [None] when it is not an array.  The
    value is the compact form just printed, so an object. *)
Definition retain_customer_ids (config : Value) : option (list Value * Value) :=
  match value_index "s" config with
  | Arr ids =>
      let ids := List.filter (fun id => negb (bool_decide (as_str id = Some LOG_SECRET))) ids in
      Some (ids, value_insert "s" (Arr ids) config)
  | _ => None
  end.

(** The loop that sorts the delivered values into the two maps. *)
Fixpoint deliver (d : CustomerSecretDelivery) (secrets : list Value)
  : result CustomerSecretDelivery LogConfigSecretError :=
  match secrets with
  | [] => Ok d
  | secret :: secrets =>
      let? m := metadata secret in
      let? value := ok_or SecInvalidPlaintext (as_str (value_index "value" secret)) in
      let target := if md_target m =s "file" then cd_files d else cd_environment d in
      if btree_contains_key (md_name m) target then Err SecResponseBinding
      else
        let target := btree_insert (md_name m) value target in
        deliver (if md_target m =s "file" then {| cd_environment := cd_environment d; cd_files := target |}
                 else {| cd_environment := target; cd_files := cd_files d |}) secrets
  end.

Definition hint (bootstrap : RuntimeBootstrapResponse) : option bool :=
  s ← rb_secrets bootstrap; customer_required s.

Definition load_customer_secrets_with (bootstrap : RuntimeBootstrapResponse) (secrets_url : string) (now_ms : Z)
    (discovery_nonce request_nonce : string) : io event (result CustomerSecretDelivery LogConfigSecretError) :=
  match hint bootstrap with
  | None => mret (Ok no_delivery)
  | Some required =>
      let!? found := discover_lockbox_bootstrap_with bootstrap secrets_url now_ms discovery_nonce in
      match (raw ← found; from_str raw) with
      | None => mret (Err SecInvalidBootstrap)
      | Some config =>
          match retain_customer_ids config with
          | None => mret (Err SecInvalidBootstrap)
          | Some ([], _) => mret (if required : bool then Err SecResponseBinding else Ok no_delivery)
          | Some (_, config) =>
              let!? payload := load_job_secret_payload_with bootstrap (to_vec config) now_ms request_nonce in
              mret (let? secrets := ok_or SecInvalidPlaintext (as_array (value_index "secrets" payload)) in
                    deliver no_delivery secrets)
          end
      end
  end.

End lockbox.

(** ** Hydration

    The exchanges and the file installation interleave with nothing else; an
    event of the whole is an event of one of them. *)

Inductive SecretEvent := SWorld (e : event) | SFile (e : FsEvent) | SNotice (code : string).

Class SecretWorld := {
  secret_world : list SecretEvent -> World;
  secret_host : list SecretEvent -> FileHost
}.

Section hydrate.
Context `{!JsonText, !UrlApi, !Encodings, !Sha256, !HexDecode, !Deserialize CompactBootstrap, !SecretWorld}.

Definition exchange {A} (m : World -> io event A) : io SecretEvent A := fun t =>
  let r := m (secret_world t) [] in (r.1, map SWorld r.2 ++ t).
Definition installing {A} (m : FileHost -> io FsEvent A) : io SecretEvent A := fun t =>
  let r := m (secret_host t) [] in (r.1, map SFile r.2 ++ t).

(** The closure [load] of [hydrate_customer_secrets]. *)
Definition load_customer_secrets (fs : Fs) (bootstrap : RuntimeBootstrapResponse)
  : io SecretEvent (result CustomerSecretDelivery LogConfigSecretError) :=
  let!? now_ms := exchange (fun w => @system_now_ms w) in
  let!? discovery := exchange (fun w => @random_nonce w) in
  let!? request := exchange (fun w => @random_nonce w) in
  let!? delivery := exchange (fun w =>
    @load_customer_secrets_with _ w _ _ _ _ _ bootstrap SECRETS_URL now_ms discovery request) in
  installed ← installing (fun h => @install_secret_files h _ _ fs (cd_files delivery));
  mret match installed with Ok _ => Ok delivery | Err _ => Err SecFileInstallation end.

(** [environment.extend(..)]. *)
Definition extend (environment values : list (string * string)) : list (string * string) :=
  foldl (fun env kv => btree_insert (fst kv) (snd kv) env) environment values.

Definition hydrate_customer_secrets (fs : Fs) (bootstrap : RuntimeBootstrapResponse)
    (environment : list (string * string))
  : io SecretEvent (list (string * string) * result unit LogConfigSecretError) :=
  match hint bootstrap with
  | None => mret (environment, Ok tt)
  | Some required =>
      loaded ← load_customer_secrets fs bootstrap;
      match loaded with
      | Ok delivery => mret (extend environment (cd_environment delivery), Ok tt)
      | Err error =>
          if (required : bool) then mret (environment, Err error)
          else _ ← emit (SNotice (secret_error_code error)); mret (environment, Ok tt)
      end
  end.

End hydrate.

(** ** A delivery of one variable and one file *)

Definition sample_secret_digest : string := "sha256:" +:+ repeat_byte 64 "7".
Definition sample_lockbox_bootstrap (required : option bool) : RuntimeBootstrapResponse :=
  {| rb_ok := true; rb_domain := RUNTIME_BOOTSTRAP_RESPONSE_DOMAIN_V2; rb_application_uid := "uid";
     rb_application_id := "app"; rb_policy_digest := sample_secret_digest; rb_deployment_id := "deployment";
     rb_job_id := "job"; rb_processor_id := "5Proc"; rb_runtime_instance_id := "instance";
     rb_slipway_url := "https://slipway.test"; rb_runtime_env := None;
     rb_secrets := Some {| customer_required := required |}; rb_supervision := None; rb_logging := None;
     rb_logging_outage_canary := false; rb_diagnostics := None; rb_access := None; rb_processor_facts := None;
     rb_fact_authorization := None |}.

Definition sample_ids : list string := ["db"; "tls"].
Definition sample_job_fields : list (string * Value) :=
  [("ok", Bool true); ("applicationUid", Str "uid"); ("applicationId", Str "app"); ("grantId", Str "grant");
   ("policyDigest", Str sample_secret_digest); ("jobId", Str "job"); ("deploymentId", Str "deployment");
   ("processorId", Str "5Proc"); ("requestId", Str "request"); ("requestedSecretIds", Arr (map Str sample_ids))].
Definition sample_secret (id target name : string) (value : list (string * Value)) : Value :=
  jobj ([("secretId", Str id); ("versionId", Str "1"); ("target", Str target); ("name", Str name);
         ("required", Bool true); ("bundleId", Str "bundle")] ++ value).
Definition sample_secrets (values : list (list (string * Value))) : Value :=
  Arr (zip_with (fun (k : string * string * string) v => sample_secret k.1.1 k.1.2 k.2 v)
         [("db", "env", "DB_PASSWORD"); ("tls", "file", "/run/token")] values).
(** Every digest is the one of the sample hash. *)
Definition sample_hash_text : string := "sha256:" +:+ sample_hex (sample_nonce 32).

Definition sample_lockbox_json : JsonText :=
  {| to_vec := fun v => if value_eqb (value_index "s" v) (Arr (map Str sample_ids)) then "compact" else "null";
     to_vec_fields := fun l => match l with (k, _) :: _ => k | [] => "null" end;
     from_str := fun s =>
       if s =s "boot" then
         Some (jobj (sample_job_fields ++ [("domain", Str SECRET_BOOTSTRAP_RESPONSE_DOMAIN_V2);
                                           ("lockboxUrl", Str "https://lockbox.test")]))
       else if s =s "compact" then Some (jobj [("s", Arr (map Str sample_ids))])
       else if s =s "sealed" then
         Some (jobj (sample_job_fields ++
           [("domain", Str RESPONSE_DOMAIN_V2); ("secretVersions", sample_secrets [[]; []]);
            ("encryptedPayload", jobj
               [("domain", Str ENCRYPTED_PAYLOAD_DOMAIN_V2); ("version", Str (envelope P256).1);
                ("curveName", Str (envelope P256).2); ("senderPublicKey", Str "02"); ("saltHex", Str "00");
                ("ciphertextHex", Str "00"); ("plaintextDigest", Str sample_hash_text);
                ("aadDigest", Str sample_hash_text); ("encryptedPayloadDigest", Str sample_hash_text)])]))
       else if s =s "open" then
         Some (jobj (sample_job_fields ++
           [("domain", Str RESPONSE_DOMAIN_V2);
            ("secrets", sample_secrets [[("value", Str "hunter2")]; [("value", Str "new")]])]))
       else None |}.
Definition sample_compact : Deserialize CompactBootstrap := fun s =>
  if s =s "compact" then
    Some {| cb_v := 2; cb_u := "https://lockbox.test"; cb_uid := "uid"; cb_a := "app"; cb_g := "grant";
            cb_p := sample_secret_digest; cb_d := "deployment"; cb_s := sample_ids |}
  else None.
Definition sample_lockbox_hash : Sha256 := fun _ => sample_nonce 32.
Definition sample_hex_decode : HexDecode := fun s => Some s.

Definition sample_lockbox_world : World :=
  {| on_bridge := fun _ method _ =>
       if method =s "deployment_encryptionKeys" then
         Ok (jobj [("encryptionKeys", jobj [("p256", Str (repeat_byte 66 "2"))])])
       else if method =s "signer_decrypt" then Ok (jobj [("bytes", Str "open")])
       else sample_bridge method;
     on_http := fun _ url _ => Ok {| status := 200; body := if ends_with "/secret-bootstrap" url then "boot" else "sealed" |};
     on_random := fun _ n => Some (sample_nonce n);
     on_unix_time := fun _ => Some 1700000000000;
     on_elapsed := fun _ => 0 |}.
(** The call after [n] others of the installation fails. *)
Definition sample_secret_world (n : nat) : SecretWorld :=
  {| secret_world := fun _ => sample_lockbox_world; secret_host := fun _ => sample_file_host n |}.

Definition sample_hydrate (n : nat) (required : option bool) (environment : list (string * string)) :=
  @hydrate_customer_secrets sample_lockbox_json sample_urls sample_encodings sample_lockbox_hash sample_hex_decode
    sample_compact (sample_secret_world n) sample_fs (sample_lockbox_bootstrap required) environment [].

(** ** Deliveries are exactly what was requested *)

(** The entries of a list and their metadata. *)
Definition described_by (values : list Value) (ms : list Metadata) : Prop :=
  Forall2 (fun v m => metadata v = Ok m) values ms.

Lemma collect_versions_Ok versions ids destinations out :
  collect_versions ids destinations versions = Ok out ->
  exists ms, described_by versions ms /\ out = rev (map md_secret_id ms) ++ ids /\
    (NoDup ids -> NoDup out) /\ (NoDup destinations -> NoDup (rev (map destination ms) ++ destinations)).
Proof.
  revert ids destinations. induction versions as [|v versions IH]; intros ids dests.
  { intros [= <-]. exists []. split; [constructor | done]. }
  cbn [collect_versions]. destruct (metadata v) as [m|] eqn:Hm; [| done].
  destruct (bool_decide_reflect (md_secret_id m ∈ ids)); [done |].
  destruct (bool_decide_reflect (destination m ∈ dests)); [done |]. cbn [orb]. intros Hrest.
  destruct (IH _ _ Hrest) as (ms & Hd & -> & Hids & Hdests). exists (m :: ms). cbn [map rev].
  rewrite <-!app_assoc. split_and!; [by constructor | done | |].
  - intros Hnd. apply Hids. by constructor.
  - intros Hnd. apply Hdests. by constructor.
Qed.

Lemma NoDup_rev_iff {A} (l : list A) : NoDup (rev l) <-> NoDup l.
Proof.
  rewrite !NoDup_ListNoDup. split; [| apply NoDup_rev]. intros Hr. apply NoDup_rev in Hr. by rewrite rev_involutive in Hr.
Qed.

Lemma NoDup_same_length {A} (l k : list A) : NoDup l -> (forall x, x ∈ l -> x ∈ k) -> length l = length k -> l ≡ₚ k.
Proof.
  intros Hnd Hsub Hlen. apply submseteq_length_Permutation; [by apply NoDup_submseteq | lia].
Qed.

Lemma validate_versions_Ok versions requested : validate_versions versions requested = Ok tt ->
  exists l ms, versions = Arr l /\ described_by l ms /\ map md_secret_id ms ≡ₚ requested /\
    NoDup (map md_secret_id ms) /\ NoDup (map destination ms).
Proof.
  unfold validate_versions. destruct versions as [| | | |l|]; try done. cbn [as_array ok_or].
  destruct (collect_versions [] [] l) as [ids|] eqn:Hc; [| done].
  destruct (collect_versions_Ok _ _ _ _ Hc) as (ms & Hd & -> & Hids & Hdests).
  rewrite app_nil_r in *. intros Hv.
  destruct (_ =? 0); [done |]. destruct (256 <? _); [done |]. cbn [orb] in Hv.
  destruct (Z.eqb_spec (Z.of_nat (length (rev (map md_secret_id ms)))) (Z.of_nat (length requested))) as [Hlen|]; [| done].
  cbn [negb orb] in Hv. destruct (same_set _ _) eqn:Hs; [| done].
  specialize (Hids ltac:(constructor)). specialize (Hdests ltac:(constructor)).
  rewrite NoDup_rev_iff in Hdests.
  exists l, ms. split_and!; [done | done | | by rewrite <-NoDup_rev_iff | done].
  rewrite (Permutation_rev (map md_secret_id ms)). apply NoDup_same_length; [done | | lia].
  intros x Hx. unfold same_set in Hs. apply andb_true_iff in Hs as [Hs _]. rewrite forallb_forall in Hs.
  specialize (Hs x ltac:(by apply list_elem_of_In)). by apply bool_decide_eq_true in Hs.
Qed.

(** An entry with its value. *)
Definition carries (secret : Value) (m : Metadata) : Prop :=
  metadata secret = Ok m /\ exists value, as_str (value_index "value" secret) = Some value /\
    (md_target m = "env" -> contains_nul value = false).

Lemma check_deliveries_Ok versions secrets seen : check_deliveries versions seen secrets = Ok tt ->
  exists ms, Forall2 carries secrets ms /\ (NoDup seen -> NoDup (rev (map md_secret_id ms) ++ seen)) /\
    forall m, m ∈ ms -> exists v, v ∈ versions /\ metadata v = Ok m.
Proof.
  revert seen. induction secrets as [|v secrets IH]; intros seen.
  { intros _. exists []. split; [constructor |]. split; [done |]. intros m Hm. by apply elem_of_nil in Hm. }
  cbn [check_deliveries]. destruct (metadata v) as [m|] eqn:Hm; [| done].
  destruct (bool_decide_reflect (md_secret_id m ∈ seen)); [done |].
  destruct (existsb _ versions) eqn:Hex; [| done].
  destruct (as_str (value_index "value" v)) as [value|] eqn:Hval; [| done]. cbn [orb negb opt_is_none is_some_and].
  destruct ((md_target m =s "env") && contains_nul value) eqn:Hnul; [done |]. intros Hrest.
  destruct (IH _ Hrest) as (ms & Hd & Hnd & Hin). exists (m :: ms). cbn [map rev]. rewrite <-app_assoc. split_and!.
  - constructor; [| done]. split; [done |]. exists value. split; [done |]. intros Ht. rewrite Ht in Hnul. done.
  - intros Hs. apply Hnd. by constructor.
  - intros m' Hm'. apply elem_of_cons in Hm' as [->|Hm']; [| by apply Hin].
    apply existsb_exists in Hex as (w & Hw & He). exists w. split; [by apply list_elem_of_In |].
    apply bool_decide_eq_true in He. by destruct (metadata w); simplify_eq/=.
Qed.

Lemma described_by_elem l ms v m : described_by l ms -> v ∈ l -> metadata v = Ok m -> m ∈ ms.
Proof.
  induction 1 as [|v' m' l ms Hm _ IH]; intros Hin Hv; [by apply elem_of_nil in Hin |].
  apply elem_of_cons in Hin as [->|Hin]; [| right; by apply IH]. rewrite Hm in Hv. injection Hv as ->. by left.
Qed.

(** What is delivered under accepted versions: every requested secret once. *)
Lemma deliveries_exact secrets versions requested :
  validate_versions versions requested = Ok tt -> validate_deliveries secrets versions = Ok tt ->
  exists l ms, secrets = Arr l /\ Forall2 carries l ms /\ map md_secret_id ms ≡ₚ requested /\ NoDup (map destination ms).
Proof.
  intros Hv Hd. destruct (validate_versions_Ok _ _ Hv) as (vs & ms & -> & Hdesc & Hperm & Hids & Hdests).
  unfold validate_deliveries in Hd. destruct secrets as [| | | |l|]; try done. cbn [as_array ok_or] in Hd.
  destruct (Nat.eqb_spec (length l) (length vs)) as [Hlen|]; [| done]. cbn [negb] in Hd.
  destruct (check_deliveries_Ok _ _ _ Hd) as (ms' & Hc & Hnd & Hin). specialize (Hnd ltac:(constructor)).
  rewrite app_nil_r in Hnd. rewrite NoDup_rev_iff in Hnd.
  assert (Hp : ms' ≡ₚ ms).
  { apply NoDup_same_length.
    - by apply NoDup_fmap_1 in Hnd.
    - intros m Hm. destruct (Hin m Hm) as (v & Hvs & Hmv). by eapply described_by_elem.
    - rewrite <-(Forall2_length _ _ _ Hc), <-(Forall2_length _ _ _ Hdesc). done. }
  exists l, ms'. split_and!; [done | done | by rewrite Hp | by rewrite Hp].
Qed.

(** ** The two maps of a delivery *)

(** The value delivered for [m] is [value]. *)
Definition delivers (l : list Value) (m : Metadata) (value : string) : Prop :=
  exists secret, secret ∈ l /\ metadata secret = Ok m /\ as_str (value_index "value" secret) = Some value.

Lemma metadata_target v m : metadata v = Ok m -> md_target m = "env" \/ md_target m = "file".
Proof.
  unfold metadata. destruct (metadata_from_value v) as [m'|]; [| done]. cbn [ok_or].
  destruct (_ || negb ((md_target m' =s "env") || (md_target m' =s "file"))) eqn:Ht; [done |].
  case_match; [done |]. intros [= ->]. apply orb_false_iff in Ht as [_ Ht]. apply negb_false_iff, orb_true_iff in Ht.
  destruct Ht as [Ht|Ht]; apply str_eqb_eq in Ht; auto.
Qed.

Lemma contains_key_false {V} k (m : list (string * V)) : btree_contains_key k m = false -> btree_get k m = None.
Proof. unfold btree_contains_key. by destruct (btree_get k m). Qed.

(** The map for [target], before and after. *)
Definition map_of (target : string) (d : CustomerSecretDelivery) : list (string * string) :=
  if target =s "file" then cd_files d else cd_environment d.

Lemma deliver_Ok secrets d d' target name value : deliver d secrets = Ok d' -> target = "env" \/ target = "file" ->
  btree_get name (map_of target d') = Some value <->
  (btree_get name (map_of target d) = Some value \/
   exists m, delivers secrets m value /\ md_target m = target /\ md_name m = name).
Proof.
  intros Hd Ht. revert d Hd. induction secrets as [|s secrets IH]; intros d.
  { intros [= <-]. split; [by left |]. intros [|(m & (x & Hx & _) & _)]; [done | by apply elem_of_nil in Hx]. }
  cbn [deliver]. destruct (metadata s) as [m|] eqn:Hm; [| done].
  destruct (as_str (value_index "value" s)) as [v|] eqn:Hv; [cbn [ok_or] | done].
  fold (map_of (md_target m) d). destruct (btree_contains_key (md_name m) _) eqn:Hk; [done |].
  apply contains_key_false in Hk. intros Hrest. rewrite (IH _ Hrest). clear IH Hrest.
  set (d1 := if md_target m =s "file" then _ else _).
  assert (Hmap : map_of target d1 = if decide (target = md_target m) then btree_insert (md_name m) v (map_of target d)
                                    else map_of target d).
  { unfold d1, map_of. destruct (metadata_target s m Hm) as [E|E], Ht as [->| ->]; rewrite E; reflexivity. }
  assert (Hcons : forall m' v', delivers (s :: secrets) m' v' <-> (m' = m /\ v' = v) \/ delivers secrets m' v').
  { intros m' v'. unfold delivers. split.
    - intros (x & Hx & Hmx & Hvx). apply elem_of_cons in Hx as [->|Hx]; [left; split; congruence | right; by exists x].
    - intros [[-> ->]|(x & Hx & Hrest)]; [exists s | exists x]; split_and!; try apply Hrest; try done; [by left | by right]. }
  rewrite Hmap. setoid_rewrite Hcons. clear Hcons Hmap.
  destruct (decide (target = md_target m)) as [E|E].
  - rewrite btree_get_insert. destruct (decide (name = md_name m)) as [Hn|Hn].
    + subst name target. rewrite Hk. split.
      * intros [Hv'|(m' & ? & ?)]; [injection Hv' as <-; right; exists m; tauto | right; exists m'; tauto].
      * intros [|(m' & [[-> ->]|?] & ? & ?)]; [done | by left | right; by exists m'].
    + split; [intros [|(m' & ? & ?)]; [by left | right; exists m'; tauto] |].
      intros [|(m' & [[-> _]|?] & ? & Hnm)]; [by left | by destruct Hn | right; by exists m'].
  - split; [intros [|(m' & ? & ?)]; [by left | right; exists m'; tauto] |].
    intros [|(m' & [[-> _]|?] & Htm & ?)]; [by left | by destruct E | right; by exists m'].
Qed.

(** ** The exchange behind a payload *)

Section exchanges.
Context `{!JsonText, !World, !UrlApi, !Encodings, !Sha256, !HexDecode, !Deserialize CompactBootstrap}.

(** The calls that look up the encryption key. *)
Definition key_event (e : event) : Prop :=
  match e with
  | EvBridge method params _ =>
      (method = "deployment_encryptionKeys" /\ params = Arr []) \/ (method = "signer_encrypt" /\ params = priming_params)
  | _ => False
  end.

Lemma bridge_does method params (Q : result Value BridgeError -> list event -> Prop) :
  (forall r, Q r [EvBridge method params r]) -> does (bridge_call method params) Q.
Proof. intros HQ. apply does_ask. intros t. apply HQ. Qed.

(** The key was exposed by the deployment when it was last asked. *)
Definition key_exposed (key : string * ResponseCurve) (es : list event) : Prop :=
  exists keys, head es = Some (EvBridge "deployment_encryptionKeys" (Arr []) (Ok keys)) /\
    select_encryption_key keys = Ok (Some key).

Lemma encryption_keys_does : does deployment_encryption_keys (fun r es =>
  exists reply, es = [EvBridge "deployment_encryptionKeys" (Arr []) reply] /\ r = map_err SecEncryptionKey reply).
Proof.
  unfold deployment_encryption_keys. eapply does_bind; [apply (bridge_does _ _ (fun r es => es = [EvBridge "deployment_encryptionKeys" (Arr []) r])); done |].
  intros r ? ->. apply does_ret. by exists r.
Qed.

Lemma encryption_public_key_does : does encryption_public_key (fun r es =>
  Forall key_event es /\ match r with Ok key => key_exposed key es | Err _ => True end).
Proof.
  unfold encryption_public_key. eapply does_bind; [apply encryption_keys_does |].
  intros r ? (reply & -> & ->). destruct reply as [keys|e]; cbn [map_err]; [| apply does_ret; by repeat constructor].
  destruct (select_encryption_key keys) as [[key|]|e] eqn:Hsel.
  - apply does_ret. split; [by repeat constructor |]. by exists keys.
  - eapply does_bind; [apply (bridge_does _ _ (fun r es => es = [EvBridge "signer_encrypt" priming_params r])); done |].
    intros r ? ->. eapply does_bind; [apply encryption_keys_does |]. intros r' ? (reply & -> & ->).
    destruct reply as [keys'|e]; cbn [map_err]; apply does_ret; cbn [app].
    all: split; [apply Forall_cons; split; [by left | apply Forall_cons; split; [by right |]]; by repeat constructor |].
    2: done.
    destruct (select_encryption_key keys') as [[key|]|] eqn:Hsel'; cbn [ok_or]; [by exists keys' | done | done].
  - apply does_ret. by repeat constructor.
Qed.

(** A signed request and its answer, newest first. *)
Definition signed_exchange (url : string) (fields : list (string * Value)) (response : HttpResponse)
    (es : list event) : Prop :=
  exists signature reply,
    es = [EvHttp url (to_vec_fields (with_signature fields ("0x" +:+ signature))) (Ok response);
          EvBridge "signer_sign" (sign_params (canonical_json_bytes (jobj fields))) (Ok reply)] /\
    (v ← value_get "bytes" reply; s ← as_str v; lockbox_hex_exact s 64) = Some signature /\
    200 <= status response < 300.

Lemma lockbox_sign_does message : does (lockbox_sign message) (fun r es =>
  exists reply, es = [EvBridge "signer_sign" (sign_params message) reply] /\
    match r with
    | Ok s => exists v signature, reply = Ok v /\ s = "0x" +:+ signature /\
        (v ← value_get "bytes" v; s ← as_str v; lockbox_hex_exact s 64) = Some signature
    | Err _ => True
    end).
Proof.
  unfold lockbox_sign.
  eapply does_bind; [apply (bridge_does _ _ (fun r es => es = [EvBridge "signer_sign" (sign_params message) r])); done |].
  intros reply ? ->. apply does_ret. exists reply. split; [done |]. destruct reply as [v|]; [| done].
  destruct (v ← value_get "bytes" v; _) as [signature|] eqn:Hs; [| done]. by exists v, signature.
Qed.

Lemma signed_post_does endpoint fields : does (signed_post endpoint fields) (fun r es =>
  match r with Ok response => signed_exchange (url_as_str endpoint) fields response es | Err _ => True end).
Proof.
  unfold signed_post. eapply does_bind; [apply lockbox_sign_does |].
  intros r ? (reply & -> & Hr). destruct r as [s|]; [| by apply does_ret].
  destruct Hr as (v & signature & -> & -> & Hs).
  eapply does_bind; [apply (does_ask _ _ (fun reply es => es = [EvHttp (url_as_str endpoint)
    (to_vec_fields (with_signature fields ("0x" +:+ signature))) reply])); done |].
  intros reply ? ->. apply does_ret. destruct reply as [response|[]]; [| done | done].
  destruct ((200 <=? status response) && (status response <? 300)) eqn:Hst; [| done].
  exists signature, v. reflect_bool. by split_and!.
Qed.

Lemma decrypt_does request curve text : does (decrypt_job_secret_payload request curve text) (fun r es =>
  match r with
  | Ok payload => exists response e decrypted,
      from_str text = Some response /\ open_envelope request curve response = Ok e /\
      es = [EvBridge "signer_decrypt" (decrypt_params curve e) (Ok decrypted)] /\
      open_plaintext request response decrypted e = Ok payload
  | Err _ => True
  end).
Proof.
  unfold decrypt_job_secret_payload. destruct (from_str text) as [response|]; [| by apply does_ret].
  destruct (open_envelope request curve response) as [e|] eqn:He; [| by apply does_ret].
  eapply does_bind; [apply (bridge_does _ _ (fun r es => es = [EvBridge "signer_decrypt" (decrypt_params curve e) r])); done |].
  intros r ? ->. apply does_ret. destruct r as [decrypted|]; [| done].
  destruct (open_plaintext request response decrypted e) as [payload|] eqn:Hp; [| done].
  by exists response, e, decrypted.
Qed.

Lemma open_envelope_Ok request curve response e : open_envelope request curve response = Ok e ->
  response_bound request response = true /\
  validate_versions (value_index "secretVersions" response) (lq_requested_secret_ids request) = Ok tt.
Proof.
  unfold open_envelope. destruct (response_bound request response); [| done]. cbn [negb].
  by destruct (validate_versions _ _) as [[]|].
Qed.

Lemma open_plaintext_Ok request response decrypted e payload : open_plaintext request response decrypted e = Ok payload ->
  (exists plaintext_hex plaintext,
     (v ← value_get "bytes" decrypted; as_str v) = Some plaintext_hex /\ hex_decode plaintext_hex = Some plaintext /\
     sha256_prefixed plaintext = en_plaintext_digest e /\ from_str plaintext = Some payload) /\
  plaintext_bound request response payload = true /\
  validate_deliveries (value_index "secrets" payload) (value_index "secretVersions" response) = Ok tt.
Proof.
  unfold open_plaintext. destruct (v ← value_get "bytes" decrypted; as_str v) as [h|]; cbn [ok_or]; [| done].
  destruct (_ <? len h); [done |]. destruct (hex_decode h) as [plaintext|] eqn:Hh; cbn [ok_or]; [| done].
  destruct (str_eqb_spec (sha256_prefixed plaintext) (en_plaintext_digest e)) as [Hd|]; cbn [negb]; [| done].
  destruct (from_str plaintext) as [p|] eqn:Hp; cbn [ok_or]; [| done].
  unfold validate_plaintext_binding. destruct (plaintext_bound request response p) eqn:Hb; [| done].
  destruct (validate_deliveries _ _) as [[]|] eqn:Hv; [| done]. intros [= <-]. split_and!; [| done | done].
  by exists h, plaintext.
Qed.

(** The request of a job for the secrets its compact bootstrap names. *)
Definition request_of (bootstrap : RuntimeBootstrapResponse) (config : CompactBootstrap) (now_ms : Z) (nonce : string)
    (u : UnsignedRequest) : Prop :=
  lq_domain u = REQUEST_DOMAIN_V2 /\ lq_application_uid u = rb_application_uid bootstrap /\
  lq_application_id u = rb_application_id bootstrap /\ lq_grant_id u = cb_g config /\
  lq_job_id u = rb_job_id bootstrap /\ lq_deployment_id u = rb_deployment_id bootstrap /\
  lq_processor_id u = rb_processor_id bootstrap /\ lq_requested_secret_ids u = cb_s config /\
  lq_nonce u = hex_encode nonce /\ lq_issued_at_ms u = now_ms /\ lq_expires_at_ms u = now_ms + REQUEST_TTL_MS.

(** Everything that stands behind a payload: the events [es] of the call, newest
    first, and what was checked of them. *)
Definition payload_exchange (bootstrap : RuntimeBootstrapResponse) (raw : string) (now_ms : Z) (nonce : string)
    (payload : Value) (u : UnsignedRequest) (es : list event) : Prop :=
  exists config endpoint curve kes ses http response e decrypted plaintext_hex plaintext,
    lockbox_request bootstrap raw = Ok (config, lq_policy_digest u, endpoint) /\
    request_of bootstrap config now_ms nonce u /\
    es = EvBridge "signer_decrypt" (decrypt_params curve e) (Ok decrypted) :: ses ++ kes /\
    signed_exchange (url_as_str endpoint) (lockbox_request_fields u) http ses /\
    Forall key_event kes /\ key_exposed (lq_response_encryption_key u, curve) kes /\
    from_str (body http) = Some response /\ response_bound u response = true /\
    open_envelope u curve response = Ok e /\
    (v ← value_get "bytes" decrypted; as_str v) = Some plaintext_hex /\ hex_decode plaintext_hex = Some plaintext /\
    sha256_prefixed plaintext = en_plaintext_digest e /\ from_str plaintext = Some payload /\
    plaintext_bound u response payload = true.

(** The secrets of a payload: the requested ones, each once, with values. *)
Definition secrets_of (payload : Value) (u : UnsignedRequest) : Prop :=
  exists l ms, value_index "secrets" payload = Arr l /\ Forall2 carries l ms /\
    map md_secret_id ms ≡ₚ lq_requested_secret_ids u /\ NoDup (map destination ms).

Lemma payload_does bootstrap raw now_ms nonce :
  does (load_job_secret_payload_with bootstrap raw now_ms nonce) (fun r es =>
    match r with
    | Ok payload => exists u, payload_exchange bootstrap raw now_ms nonce payload u es /\ secrets_of payload u
    | Err _ => True
    end).
Proof.
  unfold load_job_secret_payload_with.
  destruct (lockbox_request bootstrap raw) as [[[config digest] endpoint]|] eqn:Hq; [| by apply does_ret].
  eapply does_bind; [apply encryption_public_key_does |]. intros key kes [Hkes Hkey].
  destruct key as [[key curve]|]; [cbn [fst snd] | by apply does_ret].
  unfold checked_add_u64. destruct (_ <=? u64_max); [| by apply does_ret].
  set (u := {| lq_domain := REQUEST_DOMAIN_V2 |}).
  eapply does_bind; [apply signed_post_does |]. intros r ses Hses.
  destruct r as [http|]; [| by apply does_ret].
  eapply does_conseq; [apply decrypt_does |]. intros r des Hd. destruct r as [payload|]; [| done].
  destruct Hd as (response & e & decrypted & Hresp & Henv & -> & Hplain).
  destruct (open_envelope_Ok _ _ _ _ Henv) as [Hb Hvs].
  destruct (open_plaintext_Ok _ _ _ _ _ Hplain) as ((ph & p & Hph & Hp & Hdig & Hfrom) & Hpb & Hdel).
  exists u. split.
  - exists config, endpoint, curve, kes, ses, http, response, e, decrypted, ph, p. by split_and!.
  - destruct (deliveries_exact _ _ _ Hvs Hdel) as (l & ms & Hl & Hc & Hperm & Hnd). by exists l, ms.
Qed.

Lemma lockbox_request_https bootstrap raw config digest endpoint :
  lockbox_request bootstrap raw = Ok (config, digest, endpoint) ->
  from_slice raw = Some config /\ normalize_policy_digest (rb_policy_digest bootstrap) = Some digest /\
  exists base, url_parse (cb_u config) = Some base /\ url_scheme base = "https" /\ url_username base = EmptyString /\
    url_join base "/api/jobs/secret-requests" = Some endpoint.
Proof.
  unfold lockbox_request, lockbox_endpoint, secure_join. destruct (from_slice raw) as [c|]; cbn [ok_or]; [| done].
  destruct (normalize_policy_digest _) as [d|]; cbn [ok_or]; [| done]. case_match; [done |].
  destruct (url_parse (cb_u c)) as [base|] eqn:Hbase; cbn [ok_or]; [| done].
  destruct (negb (url_scheme base =s "https") || _ || negb (str_is_empty (url_username base)) || _ || _ || _) eqn:Hok; [done |].
  destruct (url_join base _) as [j|] eqn:Hj; cbn [ok_or]; [| done]. intros [= <- <- <-]. reflect_bool.
  split_and!; [done | done |]. exists base. split_and!; try done. by destruct (url_username base).
Qed.

End exchanges.

(** ** Customer deliveries *)

(** Decoding the text of a JSON object finds the strings of its member [s]. *)
Class CompactLaws `{!JsonText, !Deserialize CompactBootstrap} : Prop :=
  compact_ids m c : from_slice (to_vec (Obj m)) = Some c -> btree_get "s" m = Some (Arr (map Str (cb_s c))).

(** The entries of a delivery: each requested secret once, at distinct
    destinations, and each in the map of its target under its name. *)
Definition delivery_exact (d : CustomerSecretDelivery) (requested : list string) : Prop :=
  exists entries : list (Metadata * string),
    map (fun e => md_secret_id e.1) entries ≡ₚ requested /\ NoDup (map (fun e => destination e.1) entries) /\
    (forall m value, (m, value) ∈ entries -> md_target m = "env" -> contains_nul value = false) /\
    forall target name value, target = "env" \/ target = "file" ->
      btree_get name (map_of target d) = Some value <->
      exists m, (m, value) ∈ entries /\ md_target m = target /\ md_name m = name.

Lemma carries_entries l ms : Forall2 carries l ms ->
  exists entries, map fst entries = ms /\ (forall m value, (m, value) ∈ entries <-> delivers l m value) /\
    (forall m value, (m, value) ∈ entries -> md_target m = "env" -> contains_nul value = false).
Proof.
  induction 1 as [|s m l ms (Hm & value & Hv & Hnul) _ (entries & Hfst & Hin & Hsafe)].
  { exists []. split_and!; [done | |]; intros m value; [| by intros ?%elem_of_nil].
    split; [by intros ?%elem_of_nil | intros (x & Hx & _); by apply elem_of_nil in Hx]. }
  exists ((m, value) :: entries). split_and!; [cbn; by rewrite Hfst | |].
  - intros m' v'. rewrite elem_of_cons, Hin. unfold delivers. split.
    + intros [[= -> ->]|(x & Hx & ?)]; [exists s | exists x]; split_and!; try tauto; [by left | by right].
    + intros (x & Hx & Hmx & Hvx). apply elem_of_cons in Hx as [->|Hx]; [left; congruence | right; by exists x].
  - intros m' v' He. apply elem_of_cons in He as [[= -> ->]|He]; [done | by apply Hsafe].
Qed.

Lemma deliver_exact l ms requested d : Forall2 carries l ms -> map md_secret_id ms ≡ₚ requested ->
  NoDup (map destination ms) -> deliver no_delivery l = Ok d -> delivery_exact d requested.
Proof.
  intros Hc Hp Hnd Hd. destruct (carries_entries l ms Hc) as (entries & <- & Hin & Hsafe). exists entries.
  rewrite map_map in Hp, Hnd. split_and!; try done. intros target name value Ht.
  rewrite (deliver_Ok _ _ _ _ _ _ Hd Ht). setoid_rewrite Hin. split; [| by right]. intros [Hn|]; [| done].
  unfold map_of, no_delivery in Hn. by destruct (target =s "file").
Qed.

Section customer.
Context `{!JsonText, !World, !UrlApi, !Encodings, !Sha256, !HexDecode, !Deserialize CompactBootstrap, !CompactLaws}.

(** A delivery comes from an exchange that asked for customer secrets only, or
    nothing was asked for and nothing is required. *)
Definition customer_delivery (bootstrap : RuntimeBootstrapResponse) (d : CustomerSecretDelivery) (es : list event) : Prop :=
  match hint bootstrap with
  | None => d = no_delivery /\ es = []
  | Some required =>
      (d = no_delivery /\ required = false) \/
      exists raw now_ms nonce payload u es1 es0, es = es1 ++ es0 /\
        payload_exchange bootstrap raw now_ms nonce payload u es1 /\
        LOG_SECRET ∉ lq_requested_secret_ids u /\ lq_requested_secret_ids u <> [] /\
        delivery_exact d (lq_requested_secret_ids u)
  end.

Lemma retain_ids config ids config' c : retain_customer_ids config = Some (ids, config') ->
  from_slice (to_vec config') = Some c -> ids = map Str (cb_s c) /\ LOG_SECRET ∉ cb_s c.
Proof.
  unfold retain_customer_ids. destruct (value_index "s" config) as [| | | |l|] eqn:Hs; try done.
  intros [= <- <-] Hc.
  assert (Hobj : exists m, config = Obj m).
  { destruct config; cbn in Hs; try done. by eexists. }
  destruct Hobj as [m ->]. cbn [value_insert] in Hc. apply compact_ids in Hc.
  rewrite btree_get_insert_eq in Hc. injection Hc as Hc. split; [done |].
  intros Hin. assert (Hl : Str LOG_SECRET ∈ map Str (cb_s c)) by (apply list_elem_of_fmap; by exists LOG_SECRET).
  rewrite <-Hc in Hl. apply list_elem_of_In, filter_In in Hl as [_ Hl]. by rewrite bool_decide_true in Hl.
Qed.

Lemma discover_total bootstrap url now_ms nonce :
  does (discover_lockbox_bootstrap_with bootstrap url now_ms nonce) (fun _ _ => True).
Proof.
  unfold discover_lockbox_bootstrap_with. destruct (secure_join _ _); [| by apply does_ret].
  eapply does_bind; [apply encryption_public_key_does |]. intros [key|] es _; [| by apply does_ret].
  destruct (checked_add_u64 _ _); [| by apply does_ret].
  eapply does_bind; [apply signed_post_does |]. intros [r|] es' _; by apply does_ret.
Qed.

Lemma customer_does bootstrap url now_ms n1 n2 :
  does (load_customer_secrets_with bootstrap url now_ms n1 n2) (fun r es =>
    match r with Ok d => customer_delivery bootstrap d es | Err _ => True end).
Proof.
  unfold load_customer_secrets_with, customer_delivery. destruct (hint bootstrap) as [required|]; [| by apply does_ret].
  eapply does_bind; [apply discover_total |]. intros found es0 _. destruct found as [found|]; [| by apply does_ret].
  destruct (raw ← found; from_str raw) as [config|]; [| by apply does_ret].
  destruct (retain_customer_ids config) as [[[|id ids] config']|] eqn:Hret; [| | by apply does_ret].
  { apply does_ret. destruct required; [done |]. by left. }
  eapply does_bind; [apply payload_does |]. intros r es1 Hr. destruct r as [payload|]; [| by apply does_ret].
  destruct Hr as (u & Hex & l & ms & Hl & Hc & Hperm & Hnd). apply does_ret. rewrite Hl. cbn [as_array ok_or].
  destruct (deliver no_delivery l) as [d|] eqn:Hd; [| done]. right.
  exists (to_vec config'), now_ms, n2, payload, u, es1, es0.
  pose proof Hex as (c & endpoint & curve & kes & ses & http & response & e & dec & ph & p & Hq & Hu & _).
  apply lockbox_request_https in Hq as (Hc' & _). destruct (retain_ids _ _ _ _ Hret Hc') as [Hids Hlog].
  destruct Hu as (_ & _ & _ & _ & _ & _ & _ & Hreq & _). rewrite Hreq in *.
  split_and!; try done; [by destruct (cb_s c) | by eapply deliver_exact].
Qed.

End customer.

(** ** Hydration of the customer secrets *)

Lemma deliver_wf secrets d d' : deliver d secrets = Ok d' -> btree_wf (cd_environment d) -> btree_wf (cd_environment d').
Proof.
  revert d. induction secrets as [|s secrets IH]; intros d; cbn [deliver]; [by intros [= <-] |].
  destruct (metadata s) as [m|]; [| done]. destruct (as_str _) as [value|]; cbn [ok_or]; [| done].
  case_match; [done |]. intros Hd Hwf. apply IH in Hd; [done |].
  destruct (md_target m =s "file"); cbn [cd_environment]; [done | by apply btree_insert_wf].
Qed.

Section hydration.
Context `{!JsonText, !UrlApi, !Encodings, !Sha256, !HexDecode, !Deserialize CompactBootstrap, !CompactLaws, !SecretWorld}.

Lemma exchange_does {A} (m : World -> io event A) (Q : A -> list event -> Prop) :
  (forall w, does (m w) Q) -> does (exchange m) (fun a es => exists wes, es = map SWorld wes /\ Q a wes).
Proof.
  intros Hm t. destruct (Hm (secret_world t) []) as (a & wes & Hr & HQ). rewrite app_nil_r in Hr.
  exists a, (map SWorld wes). split; [unfold exchange; by rewrite Hr | by exists wes].
Qed.

Lemma install_ends fs files h r fes : @install_secret_files h _ _ fs files [] = (Some r, fes) ->
  group_ok files -> install_end fs files r (fs_at fs fes).
Proof.
  intros Hr Hg. destruct (install_always fs files Hg (fun _ => Ok tt) []) as (r' & t & Hr' & _ & He).
  { split; [| done]. left. intros g _. unfold firm. auto. }
  { done. }
  rewrite app_nil_r in Hr', He. unfold install_secret_files in Hr. rewrite Hr in Hr'. by injection Hr' as <- <-.
Qed.

Lemma installing_does fs files :
  does (installing (fun h => @install_secret_files h _ _ fs files)) (fun r es => exists fes, es = map SFile fes /\
    (group_ok files -> install_end fs files r (fs_at fs fes))).
Proof.
  intros t. destruct (@install_total (secret_host t) _ _ fs (fun _ => Ok tt) files []) as (r & fes & Hr & _).
  rewrite app_nil_r in Hr. exists r, (map SFile fes). split; [unfold installing, install_secret_files; by rewrite Hr |].
  exists fes. split; [done |]. by eapply install_ends.
Qed.

(** [d] was delivered by an exchange and its files were then handed to the
    installation, which returned [r] with the files as [FileSecrets] says. *)
Definition delivered (fs : Fs) (bootstrap : RuntimeBootstrapResponse) (d : CustomerSecretDelivery)
    (r : result unit FileSecretError) (es : list SecretEvent) : Prop :=
  exists fes wes before, es = map SFile fes ++ map SWorld wes ++ map SWorld before /\
    customer_delivery bootstrap d wes /\ btree_wf (cd_environment d) /\
    (group_ok (cd_files d) -> install_end fs (cd_files d) r (fs_at fs fes)).

(** Nothing was delivered and no file was touched. *)
Definition nothing_delivered (es : list SecretEvent) : Prop := exists wes, es = map SWorld wes.

Lemma customer_wf `{!World} bootstrap url now_ms n1 n2 :
  does (load_customer_secrets_with bootstrap url now_ms n1 n2) (fun r _ =>
    match r with Ok d => btree_wf (cd_environment d) | Err _ => True end).
Proof.
  assert (Hnone : btree_wf (cd_environment no_delivery)) by constructor.
  unfold load_customer_secrets_with. destruct (hint bootstrap) as [required|]; [| by apply does_ret].
  eapply does_bind; [apply discover_total |]. intros [found|] es0 _; [| by apply does_ret].
  destruct (raw ← found; from_str raw) as [config|]; [| by apply does_ret].
  destruct (retain_customer_ids config) as [[[|id ids] config']|]; [by apply does_ret; destruct required | | by apply does_ret].
  eapply does_bind; [apply payload_does |]. intros [payload|] es1 _; apply does_ret; [| done].
  destruct (as_array _) as [l|]; cbn [ok_or]; [| done].
  destruct (deliver no_delivery l) as [d|] eqn:Hd; [by eapply deliver_wf | done].
Qed.

Lemma now_does `{!World} : does system_now_ms (fun _ _ => True).
Proof. unfold system_now_ms, unix_time_ms. eapply does_bind; [by apply (does_ask _ _ (fun _ _ => True)) |]. intros; by apply does_ret. Qed.
Lemma nonce_does `{!World} : does random_nonce (fun _ _ => True).
Proof. unfold random_nonce, fill_random. eapply does_bind; [by apply (does_ask _ _ (fun _ _ => True)) |]. intros; by apply does_ret. Qed.

Lemma load_secrets_does fs bootstrap : does (load_customer_secrets fs bootstrap) (fun r es =>
  match r with
  | Ok d => delivered fs bootstrap d (Ok tt) es
  | Err e => nothing_delivered es \/ e = SecFileInstallation /\ exists d fe, delivered fs bootstrap d (Err fe) es
  end).
Proof.
  unfold load_customer_secrets.
  eapply does_bind; [apply exchange_does; intros; apply now_does |]. intros now es1 (w1 & -> & _).
  destruct now as [now|]; [| apply does_ret; left; by exists w1].
  eapply does_bind; [apply exchange_does; intros; apply nonce_does |]. intros n1 es2 (w2 & -> & _).
  destruct n1 as [n1|]; [| apply does_ret; left; exists (w2 ++ w1); by rewrite map_app].
  eapply does_bind; [apply exchange_does; intros; apply nonce_does |]. intros n2 es3 (w3 & -> & _).
  destruct n2 as [n2|]; [| apply does_ret; left; exists (w3 ++ w2 ++ w1); by rewrite !map_app, <-!app_assoc].
  eapply does_bind; [apply exchange_does; intros w; apply does_and; [apply customer_does | apply customer_wf] |].
  intros [d|] es4 (wes & -> & Hd & Hwf);
    [| apply does_ret; left; exists (wes ++ w3 ++ w2 ++ w1); by rewrite !map_app, <-!app_assoc].
  eapply does_bind; [apply installing_does |]. intros r es5 (fes & -> & Hok). apply does_ret.
  assert (Hdel : delivered fs bootstrap d r
    ((((([] ++ map SFile fes) ++ map SWorld wes) ++ map SWorld w3) ++ map SWorld w2) ++ map SWorld w1)).
  { exists fes, wes, (w3 ++ w2 ++ w1). split; [by rewrite !map_app, <-!app_assoc | done]. }
  destruct r as [[]|fe]; [done |]. right. split; [done |]. by exists d, fe.
Qed.

End hydration.

(** ** Hydration of the log configuration *)

(** A variable that logging may take its configuration from: the value of the
    one secret of a payload that is the log configuration. *)
Definition log_config_of (payload : Value) (config : string) : Prop :=
  exists secret, value_index "secrets" payload = Arr [secret] /\ is_log_secret secret = true /\
    as_str (value_index "value" secret) = Some config /\ 0 < len config <= MAX_CONFIG_BYTES.

Lemma extract_Ok payload config : extract_blackbox_config payload = Ok config -> log_config_of payload config.
Proof.
  unfold extract_blackbox_config, log_config_of. destruct (value_index "secrets" payload) as [| | | |[|x [|]]|]; try done.
  cbn [as_array ok_or]. destruct (as_str _) as [v|] eqn:Hv; cbn [opt_filter]; [| done].
  destruct (negb (str_is_empty v) && (len v <=? MAX_CONFIG_BYTES)) eqn:Hb; [| done].
  destruct (is_log_secret x) eqn:Hl; [| done]. intros [= <-]. exists x. reflect_bool. split_and!; try done.
  destruct v; [done |]. unfold len. cbn. lia.
Qed.

Section log_config.
Context `{!JsonText, !World, !UrlApi, !Encodings, !Sha256, !HexDecode, !Deserialize CompactBootstrap}.

(** The log configuration of an exchange that asked for it alone. *)
Definition log_exchange (bootstrap : RuntimeBootstrapResponse) (config : string) (es : list event) : Prop :=
  exists compact raw now_ms nonce payload u es1 es0, es = es1 ++ es0 /\
    BLACKBOX_LOG_CONFIG_SECRET_ID ∈ cb_s compact /\
    raw = to_vec_fields (compact_fields (with_ids compact [BLACKBOX_LOG_CONFIG_SECRET_ID])) /\
    payload_exchange bootstrap raw now_ms nonce payload u es1 /\ secrets_of payload u /\ log_config_of payload config.

Lemma load_log_does bootstrap raw now_ms nonce : does (load_blackbox_log_config_with bootstrap raw now_ms nonce) (fun r es =>
  forall config, r = Ok (Some config) -> log_exchange bootstrap config es).
Proof.
  unfold load_blackbox_log_config_with. destruct (from_slice raw) as [c|]; [| by apply does_ret].
  destruct (bool_decide_reflect (BLACKBOX_LOG_CONFIG_SECRET_ID ∈ cb_s c)) as [Hin|]; [| by apply does_ret].
  cbn [negb]. eapply does_bind; [apply payload_does |]. intros [payload|] es HQ; [| by apply does_ret].
  destruct HQ as (u & Hex & Hs). apply does_ret. intros config. destruct (validate_secret_versions _); [| done].
  destruct (extract_blackbox_config payload) as [v|] eqn:Hv; [| done]. intros [= <-].
  eexists c, _, now_ms, nonce, payload, u, es, []. rewrite app_nil_r. by split_and!; [| | | | | apply extract_Ok].
Qed.

(** The environment only ever gains the log configuration, when it has none and
    the server asked for logging, from a payload of this job; a failure leaves it
    as it was. *)
Theorem log_config_hydrated process_env bootstrap environment :
  does (hydrate_blackbox_log_config process_env bootstrap environment) (fun r es =>
    r.1 = environment \/
    r.2 = Ok tt /\ logging_enabled bootstrap = true /\ btree_get BLACKBOX_LOG_CONFIG_ENV environment = None /\
    exists config, r.1 = btree_insert BLACKBOX_LOG_CONFIG_ENV config environment /\ log_exchange bootstrap config es).
Proof.
  unfold hydrate_blackbox_log_config.
  destruct (logging_enabled bootstrap) eqn:Hlog; cbn [negb orb]; [| by apply does_ret; left].
  destruct (btree_contains_key _ environment) eqn:Hkey; [by apply does_ret; left |]. apply contains_key_false in Hkey.
  eapply does_bind; [apply nonce_does |]. intros [n1|] es1 _; [| by apply does_ret; left].
  eapply does_bind; [apply nonce_does |]. intros [n2|] es2 _; [| by apply does_ret; left].
  eapply does_bind; [apply now_does |]. intros [now|] es3 _; [| by apply does_ret; left].
  eapply (does_bind (fun _ _ => True)).
  { destruct (ambient_lockbox_bootstrap _ _); [by apply does_ret | apply discover_total]. }
  intros [[raw|]|] es4 _; [| by apply does_ret; left | by apply does_ret; left].
  eapply does_bind; [apply load_log_does |]. intros [[config|]|] es5 HQ; [| by apply does_ret; left | by apply does_ret; left].
  apply does_ret. right. split_and!; try done. exists config. split; [done |].
  destruct (HQ config eq_refl) as (c & raw' & t & n & p & u & a & b & -> & Hrest).
  exists c, raw', t, n, p, u, a, (b ++ es4 ++ es3 ++ es2 ++ es1). split; [by rewrite <-!app_assoc | done].
Qed.

End log_config.

(** ** The theorems *)

(** C15: a payload of secrets is only returned when the bridge decrypted it from
    the answer to a request of this job that was signed and posted over https to
    the Lockbox of its bootstrap, encrypted to a key the bridge exposed; the answer,
    its envelope, its digests and its plaintext are bound to that request, and the
    payload carries every requested secret exactly once, with a value and at a
    destination of its own.  The call always returns. *)
Theorem secret_payload_bound `{!JsonText, !World, !UrlApi, !Encodings, !Sha256, !HexDecode, !Deserialize CompactBootstrap}
    bootstrap raw now_ms nonce t :
  exists r es, load_job_secret_payload_with bootstrap raw now_ms nonce t = (Some r, es ++ t) /\
    forall payload, r = Ok payload -> exists u,
      payload_exchange bootstrap raw now_ms nonce payload u es /\ secrets_of payload u /\
      exists config base endpoint, from_slice raw = Some config /\ url_parse (cb_u config) = Some base /\
        url_scheme base = "https" /\ url_join base "/api/jobs/secret-requests" = Some endpoint /\
        exists request http, EvHttp (url_as_str endpoint) request (Ok http) ∈ es.
Proof.
  destruct (payload_does bootstrap raw now_ms nonce t) as (r & es & Hr & HQ). exists r, es. split; [done |].
  intros payload ->. destruct HQ as (u & Hex & Hs). exists u. split; [done |]. split; [done |].
  destruct Hex as (config & endpoint & curve & kes & ses & http & response & e & dec & ph & p & Hq & _ & -> & Hses & _).
  apply lockbox_request_https in Hq as (Hc & _ & base & Hbase & Hhttps & _ & Hjoin).
  exists config, base, endpoint. split_and!; try done.
  destruct Hses as (signature & reply & -> & _). eexists _, http. right. by left.
Qed.

(** C14: what hydrating the customer secrets does to the environment and the
    files.  Without the hint of the server nothing is asked for and nothing changes.
    With it there are three cases.  The environment gains exactly the delivered
    variables, over those of the same name, from an exchange that asked for at least
    one secret and never for the log configuration (or nothing, when there is none
    to ask for and none is required), after the installation of the delivered files
    succeeded.  Or the environment is unchanged and no file was touched.  Or the
    environment is unchanged and the installation of the delivered files failed.  In
    the last two cases the result is an error exactly when the secrets are required.
    For files at distinct destinations of which none is a directory of another, an
    installation that succeeded left every one of them whole; one that failed left
    each destination as it was or recovered, or all of them new, or could not roll
    back.  The call always returns. *)
Theorem customer_secrets_all_or_nothing
    `{!JsonText, !UrlApi, !Encodings, !Sha256, !HexDecode, !Deserialize CompactBootstrap, !CompactLaws, !SecretWorld}
    fs bootstrap environment t :
  exists env r es, hydrate_customer_secrets fs bootstrap environment t = (Some (env, r), es ++ t) /\
    match hint bootstrap with
    | None => env = environment /\ r = Ok tt /\ es = []
    | Some required =>
        (r = Ok tt /\ exists d, delivered fs bootstrap d (Ok tt) es /\
           forall k, btree_get k env =
             match btree_get k (cd_environment d) with Some v => Some v | None => btree_get k environment end) \/
        (env = environment /\ exists e notice es', r = (if required then Err e else Ok tt) /\
           es = notice ++ es' /\ notice = (if required then [] else [SNotice (secret_error_code e)]) /\
           (nothing_delivered es' \/
            e = SecFileInstallation /\ exists d fe, delivered fs bootstrap d (Err fe) es'))
    end.
Proof.
  unfold hydrate_customer_secrets. destruct (hint bootstrap) as [required|] eqn:Hh; [| by exists environment, (Ok tt), []].
  destruct (load_secrets_does fs bootstrap t) as (r & es & Hr & HQ). unfold mbind, io_bind. rewrite Hr. destruct r as [d|e].
  - exists (extend environment (cd_environment d)), (Ok tt), es. split; [done |]. left. split; [done |]. exists d.
    split; [done |]. intros k. destruct HQ as (_ & _ & _ & _ & _ & Hwf & _). by apply btree_get_foldl, btree_wf_NoDup.
  - destruct required.
    + exists environment, (Err e), es. split; [done |]. right. split; [done |]. by exists e, [], es.
    + exists environment, (Ok tt), (SNotice (secret_error_code e) :: es). split; [done |]. right. split; [done |].
      by exists e, [SNotice (secret_error_code e)], es.
Qed.

Lemma value_eqb_strings v ids : value_eqb v (Arr (map Str ids)) = true -> v = Arr (map Str ids).
Proof.
  destruct v as [| |[]| |l|]; cbn [value_eqb]; try discriminate. intros He. f_equal. revert ids He.
  induction l as [|x l IH]; intros [|id ids]; cbn [map]; try done. intros [Hx Hl]%andb_true_iff.
  destruct x as [| |[]| | |]; try discriminate Hx. cbn [value_eqb] in Hx. reflect_bool. subst. by rewrite (IH _ Hl).
Qed.

Lemma sample_compact_laws : @CompactLaws sample_lockbox_json sample_compact.
Proof.
  intros m c. unfold from_slice, to_vec, sample_compact, sample_lockbox_json.
  destruct (value_eqb _ _) eqn:He; [| done]. intros [= <-]. cbn [cb_s]. apply value_eqb_strings in He.
  unfold value_index, value_get in He. cbn [as_object] in He. by destruct (btree_get "s" m); cbn in He; simplify_eq/=.
Qed.

Lemma customer_secrets_all_or_nothing_witness : exists es,
  sample_hydrate 100 (Some true) [("A", "b")] = (Some ([("A", "b"); ("DB_PASSWORD", "hunter2")], Ok tt), es) /\
  exists d, @delivered sample_lockbox_json sample_urls sample_encodings sample_lockbox_hash sample_hex_decode
    sample_compact sample_fs (sample_lockbox_bootstrap (Some true)) d (Ok tt) es.
Proof.
  destruct (@customer_secrets_all_or_nothing sample_lockbox_json sample_urls sample_encodings sample_lockbox_hash
    sample_hex_decode sample_compact sample_compact_laws (sample_secret_world 100) sample_fs
    (sample_lockbox_bootstrap (Some true)) [("A", "b")] []) as (env & r & es & Hr & Hm).
  rewrite app_nil_r in Hr.
  change (sample_hydrate 100 (Some true) [("A", "b")] = (Some (env, r), es)) in Hr.
  assert (Hok : fst (sample_hydrate 100 (Some true) [("A", "b")]) =
    Some ([("A", "b"); ("DB_PASSWORD", "hunter2")], Ok tt)) by (vm_compute; reflexivity).
  rewrite Hr in Hok. injection Hok as -> ->. exists es. split; [exact Hr |].
  destruct Hm as [(_ & d & Hd & _)|(Henv & _)]; [by exists d | discriminate Henv].
Defined.

(** A customer secret may carry a protected name, and two spellings of one file
    path count as two destinations. *)
Example protected_name_delivered :
  validate_versions (Arr [sample_secret "id" "env" BOOTSTRAP_ENV []]) ["id"] = Ok tt /\
  deliver no_delivery [sample_secret "id" "env" BOOTSTRAP_ENV [("value", Str "forged")]] =
    Ok {| cd_environment := [(BOOTSTRAP_ENV, "forged")]; cd_files := [] |} /\
  validate_versions (Arr [sample_secret "a" "file" "/run//token" []; sample_secret "b" "file" "/run/token" []])
    ["a"; "b"] = Ok tt.
Proof. split_and!; vm_compute; reflexivity. Qed.
