(* ===== verification/Igd.v ===== *)
(** * Discovery of the router's control point

    [network_traversal/igd.rs]: the SSDP search, the fetch of the device
    description, its XML reader, the validation of every URL against the selected
    gateway, and the choice of the service that [Upnp] then talks to.  The search
    and the fetch are the two traits [IgdSearch] and [IgdDocuments]; the host's
    implementations of them come last. *)
From Stdlib Require Import Ascii.
From stdpp Require Import prelude strings pretty.
From S2P Require Import Prelude Utf8 Decimal World RestartPolicy Wire Gateway Xml Upnp.

Local Open Scope Z_scope.

Definition IGD_SSDP_ADDRESS : Ipv4Addr := ipv4 239 255 255 250.
Definition IGD_SSDP_PORT : Z := 1900.
Definition IGD_SSDP_MAX_BYTES : Z := CONTROL_MAX_BYTES.
Definition IGD_SSDP_MAX_REPLIES : nat := 4.
Definition IGD_XML_MAX_BYTES : Z := 16 * 1024.
Definition IGD_MAX_SERVICE_CANDIDATES : nat := 4.
Definition IGD_MAX_DOCUMENT_FETCHES : nat := 2.
Definition IGD_SEARCH_BUDGET : Z := from_millis 1000.
Definition IGD_HTTP_BUDGET : Z := from_millis 1000.

Definition WAN_IP_V1 : string := "urn:schemas-upnp-org:service:WANIPConnection:1".
Definition WAN_IP_V2 : string := "urn:schemas-upnp-org:service:WANIPConnection:2".
Definition WAN_PPP_V1 : string := "urn:schemas-upnp-org:service:WANPPPConnection:1".
Definition WAN_PPP_V2 : string := "urn:schemas-upnp-org:service:WANPPPConnection:2".
Definition SSDP_MSEARCH : string :=
  "M-SEARCH * HTTP/1.1" +:+ crlf +:+ "HOST: 239.255.255.250:1900" +:+ crlf
  +:+ "MAN: " +:+ quote +:+ "ssdp:discover" +:+ quote +:+ crlf +:+ "MX: 1" +:+ crlf
  +:+ "ST: urn:schemas-upnp-org:device:InternetGatewayDevice:1" +:+ crlf +:+ crlf.

Inductive IgdRefusal :=
| IrCancelled | IrDeadline | IrBounded | IrMalformed | IrMalformedPort | IrWrongTarget | IrRedirect | IrEntity.
Inductive IgdDiscovery :=
| IgdFound (d : IgdControlDescriptor)
| IgdUnsupported
| IgdNotAdvertised
| IgdRefused (r : IgdRefusal).
Inductive IgdIoError := IoUnavailable | IoCancelled | IoDeadline | IoBounded | IoMalformed | IoRedirect.

Record ResolvedLocation := { rl_url : string; rl_socket : SocketAddr }.
Record ServiceCandidate := { sc_service : IgdServiceKind; sc_control_url : string }.
Record ValidatedTarget := { vt_port : Z; vt_path_and_query : string }.

Definition io_discovery (error : IgdIoError) : IgdDiscovery :=
  match error with
  | IoUnavailable => IgdUnsupported
  | IoCancelled => IgdRefused IrCancelled
  | IoDeadline => IgdRefused IrDeadline
  | IoBounded => IgdRefused IrBounded
  | IoMalformed => IgdRefused IrMalformed
  | IoRedirect => IgdRefused IrRedirect
  end.

(** ** URLs *)

Definition byte_forbidden (a : ascii) : bool := is_ascii_control a || byte_is 32 a.

Definition looks_like_bad_port (raw : string) : bool :=
  match strip_prefix "http://" raw with
  | None => false
  | Some rest =>
      let authority := default rest (head (split (fun a => byte_is 47 a || byte_is 63 a || byte_is 35 a) rest)) in
      match rsplit_once ":" authority with
      | None => false
      | Some (_, port) =>
          if str_is_empty port || negb (bytes_all is_ascii_digit port) then true
          else is_none_or (parse_unsigned u16_max port) (fun value => value =? 0)
      end
  end.

Definition reject_control_syntax (control : string) : option IgdRefusal :=
  if CONTROL_LOCATION_MAX_BYTES <? len control then Some IrBounded
  else if starts_with "//" control || bytes_any (byte_is 92) control || bytes_any (byte_is 64) control
          || existsb (fun segment => segment =s "..")
               (split (fun a => byte_is 47 a || byte_is 92 a || byte_is 63 a) control)
          || bytes_any byte_forbidden control
  then Some IrWrongTarget
  else if looks_like_bad_port control then Some IrMalformedPort
  else None.

(** [rest.find('/').map(|index| &rest[index..])] after the scheme. *)
Definition from_slash (rest : string) : option string :=
  '(_, after) ← split_once "/" rest; Some ("/" +:+ after).
Definition path_of_url (url : string) : option string :=
  '(_, rest) ← split_once "://" url; from_slash rest.

Section urls.
Context `{!UrlApi, !UrlHost}.

Definition validate_gateway_url (gw : Ipv4Addr) (raw : string) : result ResolvedLocation IgdRefusal :=
  if CONTROL_LOCATION_MAX_BYTES <? len raw then Err IrBounded
  else if bytes_any (byte_is 64) raw || bytes_any (byte_is 92) raw || bytes_any (byte_is 32) raw
  then Err IrWrongTarget
  else
    match url_parse raw with
    | None => Err (if looks_like_bad_port raw then IrMalformedPort else IrMalformed)
    | Some url =>
        if negb (url_scheme url =s "http") || negb (str_is_empty (url_username url))
           || opt_is_some (url_password url)
        then Err IrWrongTarget
        else if opt_is_some (url_fragment url) then Err IrMalformed
        else
          match url_host_ipv4 url with
          | Some host =>
              if negb (bool_decide (host = gw)) then Err IrWrongTarget
              else
                match url_port_or_known_default url with
                | None => Err IrMalformedPort
                | Some port =>
                    if port =? 0 then Err IrMalformedPort
                    else if existsb (fun segment => segment =s "..") (split (byte_is 47) (url_path url))
                    then Err IrWrongTarget
                    else
                      let base := "http://" +:+ ipv4_str host +:+ ":" +:+ pretty port +:+ url_path url in
                      let? reconstructed :=
                        match url_query url with
                        | None => Ok base
                        | Some query =>
                            if bytes_any (byte_is 64) query || bytes_any (byte_is 92) query
                               || bytes_any (byte_is 32) query
                            then Err IrWrongTarget
                            else Ok (base +:+ "?" +:+ query)
                        end in
                      if CONTROL_LOCATION_MAX_BYTES <? len reconstructed then Err IrBounded
                      else Ok {| rl_url := reconstructed; rl_socket := {| sa_ip := host; sa_port := port |} |}
                end
          | None => Err IrWrongTarget
          end
    end.

Definition resolve_control (gw : Ipv4Addr) (base control : string) : result ValidatedTarget IgdRefusal :=
  match reject_control_syntax control with
  | Some refusal => Err refusal
  | None =>
      let? joined :=
        (if contains "://" control then Ok control
         else
           let? base := ok_or IrMalformed (url_parse base) in
           let? joined := ok_or IrMalformed (url_join base control) in
           Ok (url_as_str joined)) in
      let? location := validate_gateway_url gw joined in
      let? path := ok_or IrMalformed (path_of_url (rl_url location)) in
      Ok {| vt_port := sa_port (rl_socket location); vt_path_and_query := path |}
  end.

Definition descriptor_from (service : IgdServiceKind) (gw : Ipv4Addr) (target : ValidatedTarget)
  : IgdControlDescriptor :=
  {| igd_service := service; igd_gateway := gw; igd_port := vt_port target;
     path_and_query := vt_path_and_query target |}.

(** What the loop of [select_control] has found. *)
Record Selection := {
  se_ip : option ValidatedTarget;
  se_ppp : option ValidatedTarget;
  se_wrong_target : bool;
  se_bad_port : bool
}.
Definition no_selection : Selection :=
  {| se_ip := None; se_ppp := None; se_wrong_target := false; se_bad_port := false |}.

Fixpoint select_candidates (gw : Ipv4Addr) (base : string) (candidates : list ServiceCandidate) (s : Selection)
  : result Selection IgdRefusal :=
  match candidates with
  | [] => Ok s
  | candidate :: candidates =>
      if opt_is_some (se_ip s) then Ok s
      else
        match resolve_control gw base (sc_control_url candidate) with
        | Ok target =>
            select_candidates gw base candidates
              match sc_service candidate with
              | WanIpConnection =>
                  {| se_ip := Some target; se_ppp := se_ppp s; se_wrong_target := se_wrong_target s;
                     se_bad_port := se_bad_port s |}
              | WanPppConnection =>
                  {| se_ip := se_ip s; se_ppp := if opt_is_none (se_ppp s) then Some target else se_ppp s;
                     se_wrong_target := se_wrong_target s; se_bad_port := se_bad_port s |}
              end
        | Err IrWrongTarget =>
            select_candidates gw base candidates
              {| se_ip := se_ip s; se_ppp := se_ppp s; se_wrong_target := true; se_bad_port := se_bad_port s |}
        | Err IrMalformedPort =>
            select_candidates gw base candidates
              {| se_ip := se_ip s; se_ppp := se_ppp s; se_wrong_target := se_wrong_target s; se_bad_port := true |}
        | Err refusal => Err refusal
        end
  end.

Definition select_control (gw : Ipv4Addr) (base : string) (candidates : list ServiceCandidate)
  : result (option IgdControlDescriptor) IgdRefusal :=
  let? s := select_candidates gw base candidates no_selection in
  match se_ip s, se_ppp s with
  | Some target, _ => Ok (Some (descriptor_from WanIpConnection gw target))
  | None, Some target => Ok (Some (descriptor_from WanPppConnection gw target))
  | None, None =>
      if se_wrong_target s then Err IrWrongTarget
      else if se_bad_port s then Err IrMalformedPort
      else Ok None
  end.

(** ** The advertisement *)

Definition ssdp_target_is_igd (value : string) : bool :=
  contains "urn:schemas-upnp-org:device:InternetGatewayDevice" value || contains WAN_IP_V1 value
  || contains WAN_IP_V2 value || contains WAN_PPP_V1 value || contains WAN_PPP_V2 value.

(** The loop over the header lines: how many were seen, and the two values. *)
Fixpoint ssdp_headers (headers : Z) (location search_target : option string) (lines : list string)
  : result (option string * option string) IgdRefusal :=
  match lines with
  | [] => Ok (location, search_target)
  | line :: lines =>
      if starts_with " " line || starts_with (String (ascii_of_N 9) EmptyString) line then Err IrMalformed
      else if 32 <? headers + 1 then Err IrBounded
      else
        match split_once ":" line with
        | None => Err IrMalformed
        | Some (name, value) =>
            let value := trim value in
            if eq_ignore_ascii_case name "LOCATION" then
              if is_some_and location (fun current => negb (current =s value)) then Err IrMalformed
              else ssdp_headers (headers + 1) (Some value) search_target lines
            else if eq_ignore_ascii_case name "ST" then ssdp_headers (headers + 1) location (Some value) lines
            else ssdp_headers (headers + 1) location search_target lines
        end
  end.

Definition ssdp_location (gw : Ipv4Addr) (reply : string) : result ResolvedLocation IgdRefusal :=
  if contains_nul reply then Err IrMalformed
  else if negb (valid_utf8 reply) then Err IrMalformed
  else
    match List.filter (fun line => negb (str_is_empty line)) (split (fun a => byte_is 13 a || byte_is 10 a) reply) with
    | [] => Err IrMalformed
    | status :: lines =>
        if negb (starts_with "HTTP/1.1 200" status || starts_with "HTTP/1.0 200" status) then Err IrMalformed
        else
          let? found := ssdp_headers 0 None None lines in
          let? location := ok_or IrMalformed (fst found) in
          let? search_target := ok_or IrMalformed (snd found) in
          if negb (ssdp_target_is_igd search_target) then Err IrMalformed
          else validate_gateway_url gw location
    end.

End urls.

(** ** The device description *)

Inductive TextTarget := TextIgnore | TextServiceType | TextControlUrl.
#[global] Instance TextTarget_eq_dec : EqDecision TextTarget.
Proof. solve_decision. Defined.

Record Frame := { fr_name : string; fr_target : TextTarget }.

(** The parser without its position, which the lexer keeps. *)
Record DeviceParser := {
  xp_depth : Z;
  xp_stack : list Frame;
  xp_text_target : TextTarget;
  xp_buffer : string;
  xp_in_service : bool;
  xp_service_type : option string;
  xp_control_url : option string;
  xp_candidates : list ServiceCandidate
}.

Definition igd_faults : Faults IgdRefusal :=
  {| malformed := IrMalformed; entity := IrEntity; bounded_fault := IrBounded |}.

Definition service_kind (value : string) : option IgdServiceKind :=
  if (value =s WAN_IP_V1) || (value =s WAN_IP_V2) then Some WanIpConnection
  else if (value =s WAN_PPP_V1) || (value =s WAN_PPP_V2) then Some WanPppConnection
  else None.

Definition target_of (local : string) : TextTarget :=
  if local =s "serviceType" then TextServiceType
  else if local =s "controlURL" then TextControlUrl
  else TextIgnore.

Definition set_service (x : DeviceParser) (in_service : bool) (service_type control_url : option string)
  : DeviceParser :=
  {| xp_depth := xp_depth x; xp_stack := xp_stack x; xp_text_target := xp_text_target x; xp_buffer := xp_buffer x;
     xp_in_service := in_service; xp_service_type := service_type; xp_control_url := control_url;
     xp_candidates := xp_candidates x |}.
Definition set_text (x : DeviceParser) (target : TextTarget) (buffer : string) : DeviceParser :=
  {| xp_depth := xp_depth x; xp_stack := xp_stack x; xp_text_target := target; xp_buffer := buffer;
     xp_in_service := xp_in_service x; xp_service_type := xp_service_type x; xp_control_url := xp_control_url x;
     xp_candidates := xp_candidates x |}.
Definition set_stack (x : DeviceParser) (depth : Z) (stack : list Frame) : DeviceParser :=
  {| xp_depth := depth; xp_stack := stack; xp_text_target := xp_text_target x; xp_buffer := xp_buffer x;
     xp_in_service := xp_in_service x; xp_service_type := xp_service_type x; xp_control_url := xp_control_url x;
     xp_candidates := xp_candidates x |}.

(** [start_tag] once the name and the attributes are read. *)
Definition device_start_tag (name : string) (self_closing : bool) (x : DeviceParser)
  : result DeviceParser IgdRefusal :=
  let local := local_name name in
  let target := target_of local in
  let is_service := local =s "service" in
  if is_service && xp_in_service x then Err IrMalformed
  else
    let x := if is_service then set_service x true None None else x in
    if self_closing then
      Ok (if is_service then set_service x false (xp_service_type x) (xp_control_url x) else x)
    else
      let depth := saturating_add u64_max (xp_depth x) 1 in
      if IGD_XML_MAX_DEPTH <? depth then Err IrBounded
      else
        let pushed y := set_stack y depth ({| fr_name := name; fr_target := target |} :: xp_stack y) in
        if negb (bool_decide (target = TextIgnore)) then
          if negb (bool_decide (xp_text_target x = TextIgnore)) then Err IrMalformed
          else Ok (pushed (set_text x target EmptyString))
        else Ok (pushed x).

Definition finish_service (x : DeviceParser) : result DeviceParser IgdRefusal :=
  let service_type := xp_service_type x in
  let control_url := xp_control_url x in
  let x := set_service x false None None in
  match service_type, control_url with
  | Some service_type, Some control_url =>
      match service_kind service_type with
      | None => Ok x
      | Some service =>
          if (length (xp_candidates x) =? IGD_MAX_SERVICE_CANDIDATES)%nat then Err IrBounded
          else
            Ok {| xp_depth := xp_depth x; xp_stack := xp_stack x; xp_text_target := xp_text_target x;
                  xp_buffer := xp_buffer x; xp_in_service := xp_in_service x;
                  xp_service_type := xp_service_type x; xp_control_url := xp_control_url x;
                  xp_candidates := xp_candidates x ++
                    [{| sc_service := service; sc_control_url := control_url |}] |}
      end
  | _, _ => Ok x
  end.

(** [trim_matches(|c| c.is_ascii_whitespace())]. *)
Definition trim_ascii (s : string) : string := str_rev (skip_whitespace (str_rev (skip_whitespace s))).

(** The text collected for a frame that closes. *)
Definition take_text (frame : Frame) (x : DeviceParser) : DeviceParser :=
  match fr_target frame with
  | TextIgnore => x
  | target =>
      let text := trim_ascii (xp_buffer x) in
      let x := set_text x TextIgnore EmptyString in
      if str_is_empty text then x
      else
        match target with
        | TextServiceType => set_service x (xp_in_service x) (Some text) (xp_control_url x)
        | TextControlUrl => set_service x (xp_in_service x) (xp_service_type x) (Some text)
        | TextIgnore => x
        end
  end.

Definition device_end_tag (name : string) (x : DeviceParser) : result DeviceParser IgdRefusal :=
  match xp_stack x with
  | [] => Err IrMalformed
  | frame :: stack =>
      if negb (fr_name frame =s name) then Err IrMalformed
      else
        let x := take_text frame (set_stack x (saturating_sub_u (xp_depth x) 1) stack) in
        if local_name name =s "service" then finish_service x else Ok x
  end.

Definition device_text (raw : string) (x : DeviceParser) : result DeviceParser IgdRefusal :=
  if bool_decide (xp_text_target x = TextIgnore) then
    let? _ := decode_text igd_faults raw EmptyString true in Ok x
  else
    let? buffer := decode_text igd_faults raw (xp_buffer x) false in
    if CONTROL_LOCATION_MAX_BYTES <? len buffer then Err IrBounded
    else Ok (set_text x (xp_text_target x) buffer).

Definition device_step (tok : token) (x : DeviceParser) : result DeviceParser IgdRefusal :=
  match tok with
  | TokenText raw => device_text raw x
  | TokenComment => Ok x
  | TokenStart name self_closing => device_start_tag name self_closing x
  | TokenEnd name => device_end_tag name x
  end.

Definition device_parser : DeviceParser :=
  {| xp_depth := 0; xp_stack := []; xp_text_target := TextIgnore; xp_buffer := EmptyString; xp_in_service := false;
     xp_service_type := None; xp_control_url := None; xp_candidates := [] |}.

(** [XmlParser::parse]; the length of the document is enough fuel
    ([device_parse_total]). *)
Definition device_document (text : string) : option (result DeviceParser IgdRefusal) :=
  match document_start igd_faults text with
  | Err e => Some (Err e)
  | Ok rest => run_tokens igd_faults device_step None (String.length rest) rest device_parser
  end.

Definition parse_device_xml (body : string) : option (result (list ServiceCandidate) IgdRefusal) :=
  if IGD_XML_MAX_BYTES <? len body then Some (Err IrBounded)
  else if contains_nul body then Some (Err IrMalformed)
  else if negb (valid_utf8 body) then Some (Err IrMalformed)
  else
    match device_document body with
    | None => None
    | Some (Err e) => Some (Err e)
    | Some (Ok x) =>
        Some (match xp_stack x with
              | _ :: _ => Err IrMalformed
              | [] => if xp_in_service x then Err IrMalformed else Ok (xp_candidates x)
              end)
    end.

(** ** Discovery *)

(** The caller's two tests, and the traits [IgdSearch] and [IgdDocuments]. *)
Class IgdSeams (E : Type) := {
  igd_cancelled : io E bool;
  igd_deadline : io E bool;
  igd_search : Ipv4Addr -> SocketAddr -> string -> io E (result (list string) IgdIoError);
  igd_get : string -> SocketAddr -> io E (result string IgdIoError)
}.

Record Seen := { saw_wrong_target : bool; saw_bad_port : bool; saw_malformed : bool; fetches : nat }.
Definition nothing_seen : Seen :=
  {| saw_wrong_target := false; saw_bad_port := false; saw_malformed := false; fetches := 0 |}.
Definition note_wrong_target (s : Seen) : Seen :=
  {| saw_wrong_target := true; saw_bad_port := saw_bad_port s; saw_malformed := saw_malformed s; fetches := fetches s |}.
Definition note_bad_port (s : Seen) : Seen :=
  {| saw_wrong_target := saw_wrong_target s; saw_bad_port := true; saw_malformed := saw_malformed s; fetches := fetches s |}.
Definition note_malformed (s : Seen) : Seen :=
  {| saw_wrong_target := saw_wrong_target s; saw_bad_port := saw_bad_port s; saw_malformed := true; fetches := fetches s |}.
Definition note_fetch (s : Seen) : Seen :=
  {| saw_wrong_target := saw_wrong_target s; saw_bad_port := saw_bad_port s; saw_malformed := saw_malformed s;
     fetches := S (fetches s) |}.

Definition nothing_found (s : Seen) : IgdDiscovery :=
  if saw_wrong_target s then IgdRefused IrWrongTarget
  else if saw_bad_port s then IgdRefused IrMalformedPort
  else if saw_malformed s then IgdRefused IrMalformed
  else IgdNotAdvertised.

Section discovery.
Context {E : Type} `{!IgdSeams E, !UrlApi, !UrlHost}.

(** What one description leads to: an answer, or what to remember of it. *)
Definition read_description (gw : Ipv4Addr) (location : ResolvedLocation) (body : string) (s : Seen)
  : io E (Seen + IgdDiscovery) :=
  if IGD_XML_MAX_BYTES <? len body then mret (inr (IgdRefused IrBounded))
  else
    match parse_device_xml body with
    | None => diverge
    | Some (Err IrMalformed) => mret (inl (note_malformed s))
    | Some (Err refusal) => mret (inr (IgdRefused refusal))
    | Some (Ok candidates) =>
        mret match select_control gw (rl_url location) candidates with
             | Ok (Some descriptor) => inr (IgdFound descriptor)
             | Ok None => inl s
             | Err IrWrongTarget => inl (note_wrong_target s)
             | Err IrMalformedPort => inl (note_bad_port s)
             | Err refusal => inr (IgdRefused refusal)
             end
    end.

(** The body of the loop over the replies. *)
Definition read_reply (gw : Ipv4Addr) (reply : string) (s : Seen) : io E (Seen + IgdDiscovery) :=
  stop ← igd_cancelled;
  if stop : bool then mret (inr (IgdRefused IrCancelled))
  else
    late ← igd_deadline;
    if late : bool then mret (inr (IgdRefused IrDeadline))
    else if IGD_SSDP_MAX_BYTES <? len reply then mret (inr (IgdRefused IrBounded))
    else
      match ssdp_location gw reply with
      | Err IrMalformedPort => mret (inr (IgdRefused IrMalformedPort))
      | Err IrWrongTarget => mret (inl (note_wrong_target s))
      | Err IrMalformed => mret (inl (note_malformed s))
      | Err refusal => mret (inr (IgdRefused refusal))
      | Ok location =>
          if (fetches s =? IGD_MAX_DOCUMENT_FETCHES)%nat then mret (inr (IgdRefused IrBounded))
          else
            let s := note_fetch s in
            body ← igd_get (rl_url location) (rl_socket location);
            match body with
            | Ok body => read_description gw location body s
            | Err IoMalformed => mret (inl (note_malformed s))
            | Err error => mret (inr (io_discovery error))
            end
      end.

Fixpoint read_replies (gw : Ipv4Addr) (replies : list string) (s : Seen) : io E IgdDiscovery :=
  match replies with
  | [] => mret (nothing_found s)
  | reply :: replies =>
      r ← read_reply gw reply s;
      match r with
      | inl s => read_replies gw replies s
      | inr answer => mret answer
      end
  end.

Definition discover_igd (g : SelectedGateway) : io E IgdDiscovery :=
  stop ← igd_cancelled;
  if stop : bool then mret (IgdRefused IrCancelled)
  else
    late ← igd_deadline;
    if late : bool then mret (IgdRefused IrDeadline)
    else
      replies ← igd_search (gateway g) {| sa_ip := IGD_SSDP_ADDRESS; sa_port := IGD_SSDP_PORT |} SSDP_MSEARCH;
      match replies with
      | Err error => mret (io_discovery error)
      | Ok replies =>
          if (IGD_SSDP_MAX_REPLIES <? length replies)%nat then mret (IgdRefused IrBounded)
          else read_replies (gateway g) replies nothing_seen
      end.

(** [discover_loaded] of [gateway.rs] with this caller's test comes first. *)
Definition discover_igd_from_routes (routes : list RouteRecord) : io E IgdDiscovery :=
  stop ← igd_cancelled;
  match (if stop : bool then DiscoveryCancelled
         else if (ROUTE_TABLE_MAX_RECORDS <? length routes)%nat then DiscoveryBounded
         else select_gateway routes) with
  | Selected g => discover_igd g
  | Unsupported => mret IgdUnsupported
  | InvalidGateway => mret (IgdRefused IrWrongTarget)
  | DiscoveryCancelled => mret (IgdRefused IrCancelled)
  | DiscoveryBounded => mret (IgdRefused IrBounded)
  end.

End discovery.

(** ** The host's search and fetch *)

Inductive UdpRecv := UdpDatagram (source : Ipv4Addr) (data : string) | UdpTimeout | UdpInterrupted | UdpFault.
Inductive TcpConnect := Connected | ConnectTimeout | ConnectFault.
Inductive TcpWrite := Written | WriteTimeout | WriteFault.
Inductive TcpRead := ReadBytes (data : string) | ReadInterrupted | ReadTimeout | ReadFault.

Inductive igd_event :=
| IgCancelled (b : bool)
| IgDeadline (b : bool)
| IgNow (instant : Z)
| IgBind (ok : bool)
| IgInterface (index : Z) (ok : bool)
| IgRecvTimeout (ok : bool)
| IgSend (destination : SocketAddr) (data : string) (ok : bool)
| IgRecv (r : UdpRecv)
| IgConnect (socket : SocketAddr) (timeout : Z) (r : TcpConnect)
| IgTcpTimeout (timeout : Z) (ok : bool)
| IgWrite (socket : SocketAddr) (data : string) (r : TcpWrite)
| IgRead (r : TcpRead).

(** One answer per call.  [igd_turns] bounds the iterations of the two loops whose
    only other bound is the clock. *)
Class IgdHost := {
  ig_cancelled : list igd_event -> bool;
  ig_deadline : list igd_event -> bool;
  ig_now : list igd_event -> Z;
  ig_bind : list igd_event -> bool;
  ig_interface : list igd_event -> bool;
  ig_recv_timeout : list igd_event -> bool;
  ig_send : list igd_event -> bool;
  ig_recv : list igd_event -> UdpRecv;
  ig_connect : list igd_event -> TcpConnect;
  ig_tcp_timeout : list igd_event -> bool;
  ig_write : list igd_event -> TcpWrite;
  ig_read : list igd_event -> TcpRead;
  igd_turns : nat
}.

Section host.
Context `{!IgdHost}.

Definition host_cancelled : io igd_event bool := ask ig_cancelled IgCancelled.
Definition host_deadline : io igd_event bool := ask ig_deadline IgDeadline.
Definition instant_now : io igd_event Z := ask ig_now IgNow.
Definition recv_from : io igd_event UdpRecv := ask ig_recv IgRecv.
Definition tcp_timeout (timeout : Z) : io igd_event bool := ask ig_tcp_timeout (IgTcpTimeout timeout).

Definition bind_multicast_interface (interface_index : Z) : io igd_event (result unit IgdIoError) :=
  match i32_try_from interface_index with
  | None => mret (Err IoUnavailable)
  | Some index =>
      ok ← ask ig_interface (IgInterface index);
      mret (if (ok : bool) then Ok tt else Err IoUnavailable)
  end.

(** One turn of the receive loop, with what was kept so far. *)
Definition ssdp_turn (gw : Ipv4Addr) (started : Z) (budget : Z) (replies : list string)
  : io igd_event (list string + result (list string) IgdIoError) :=
  now ← instant_now;
  if negb (saturating_duration_since now started <? budget) || negb (length replies <? IGD_SSDP_MAX_REPLIES)%nat
  then mret (inr (Ok replies))
  else
    stop ← host_cancelled;
    if stop : bool then mret (inr (Err IoCancelled))
    else
      late ← host_deadline;
      if late : bool then mret (inr (Err IoDeadline))
      else
        received ← recv_from;
        mret match received with
             | UdpDatagram source data =>
                 let data := str_take (IGD_SSDP_MAX_BYTES + 1) data in
                 if negb (bool_decide (source = gw)) then inl replies
                 else if len data =? 0 then inl replies
                 else if IGD_SSDP_MAX_BYTES <? len data then inr (Err IoBounded)
                 else inl (replies ++ [data])
             | UdpTimeout => if (length replies =? 0)%nat then inl replies else inr (Ok replies)
             | UdpInterrupted => inl replies
             | UdpFault => inr (Err IoUnavailable)
             end.

Definition exchange_ssdp (gw : Ipv4Addr) (destination : SocketAddr) (interface_index : Z) (request : string)
    (budget : Z) : io igd_event (result (list string) IgdIoError) :=
  stop ← host_cancelled;
  if stop : bool then mret (Err IoCancelled)
  else
    late ← host_deadline;
    if late : bool then mret (Err IoDeadline)
    else if str_is_empty request || (IGD_SSDP_MAX_BYTES <? len request) then mret (Err IoBounded)
    else
      bound ← ask ig_bind IgBind;
      if negb (bound : bool) then mret (Err IoUnavailable)
      else
        let!? _i := (if is_multicast (sa_ip destination) && negb (interface_index =? 0)
                     then bind_multicast_interface interface_index else mret (Ok tt)) in
        timed ← ask ig_recv_timeout IgRecvTimeout;
        if negb (timed : bool) then mret (Err IoUnavailable)
        else
          sent ← ask ig_send (IgSend destination request);
          if negb (sent : bool) then mret (Err IoUnavailable)
          else
            started ← instant_now;
            loop igd_turns (ssdp_turn gw started budget) [].

(** [HostSsdpSearch::search]. *)
Definition host_search (interface_index : Z) (gw : Ipv4Addr) (destination : SocketAddr) (request : string)
  : io igd_event (result (list string) IgdIoError) :=
  exchange_ssdp gw destination interface_index request IGD_SEARCH_BUDGET.

Definition budget_left (started : Z) : io igd_event (result Z IgdIoError) :=
  now ← instant_now;
  let elapsed := saturating_duration_since now started in
  mret (if elapsed <? IGD_HTTP_BUDGET then Ok (IGD_HTTP_BUDGET - elapsed) else Err IoDeadline).

End host.

(** *** The HTTP response *)

Fixpoint http_headers (headers : Z) (content_length : option Z) (lines : list string)
  : result (option Z) IgdIoError :=
  match lines with
  | [] => Ok content_length
  | line :: lines =>
      if (32 <? headers + 1) || starts_with " " line || starts_with (String (ascii_of_N 9) EmptyString) line
      then Err IoMalformed
      else
        match split_once ":" line with
        | None => Err IoMalformed
        | Some (name, value) =>
            if eq_ignore_ascii_case name "Transfer-Encoding" && negb (eq_ignore_ascii_case (trim value) "identity")
            then Err IoMalformed
            else if eq_ignore_ascii_case name "Content-Length" then
              let? n := ok_or IoMalformed (parse_unsigned usize_max (trim value)) in
              http_headers (headers + 1) (Some n) lines
            else http_headers (headers + 1) content_length lines
        end
  end.

Definition is_redirect_code (code : string) : bool :=
  (code =s "301") || (code =s "302") || (code =s "303") || (code =s "307") || (code =s "308").

Definition parse_http_response (raw : string) : result string IgdIoError :=
  if negb (valid_utf8 raw) then Err IoMalformed
  else
    match split_once (crlf +:+ crlf) raw with
    | None => Err IoMalformed
    | Some (head_text, body) =>
        match split_str crlf head_text with
        | [] => Err IoMalformed
        | status :: lines =>
            let? code := ok_or IoMalformed (split_whitespace status !! 1%nat) in
            if is_redirect_code code then Err IoRedirect
            else if negb (code =s "200") then Err IoMalformed
            else
              let? content_length := http_headers 0 None lines in
              if is_some_and content_length (fun n => IGD_XML_MAX_BYTES <? n) || (IGD_XML_MAX_BYTES <? len body)
              then Err IoBounded
              else if is_some_and content_length (fun n => negb (len body =? n)) then Err IoMalformed
              else Ok body
        end
    end.

Section fetch.
Context `{!IgdHost}.

Definition HTTP_READ_LIMIT : Z := 8 * 1024 + IGD_XML_MAX_BYTES.

Definition get_turn (started : Z) (raw : string) : io igd_event (string + result string IgdIoError) :=
  stop ← host_cancelled;
  if stop : bool then mret (inr (Err IoCancelled))
  else
    late ← host_deadline;
    if late : bool then mret (inr (Err IoDeadline))
    else
      remaining ← budget_left started;
      match remaining with
      | Err e => mret (inr (Err e))
      | Ok remaining =>
          timed ← tcp_timeout remaining;
          if negb (timed : bool) then mret (inr (Err IoUnavailable))
          else
            got ← ask ig_read IgRead;
            mret match got with
                 | ReadBytes data =>
                     let data := str_take 1024 data in
                     if len data =? 0 then inr (parse_http_response raw)
                     else if HTTP_READ_LIMIT <? len raw + len data then inr (Err IoBounded)
                     else inl (raw +:+ data)
                 | ReadInterrupted => inl raw
                 | ReadTimeout => inr (Err IoDeadline)
                 | ReadFault => inr (Err IoUnavailable)
                 end
      end.

Definition get_request (host path_and_query : string) : string :=
  "GET " +:+ path_and_query +:+ " HTTP/1.0" +:+ crlf +:+ "Host: " +:+ host +:+ crlf
  +:+ "Connection: close" +:+ crlf +:+ crlf.

Definition bounded_http_get (socket : SocketAddr) (host path_and_query : string)
  : io igd_event (result string IgdIoError) :=
  stop ← host_cancelled;
  if stop : bool then mret (Err IoCancelled)
  else
    late ← host_deadline;
    if late : bool then mret (Err IoDeadline)
    else if negb (starts_with "/" path_and_query) || bytes_any byte_forbidden path_and_query
            || bytes_any byte_forbidden host
    then mret (Err IoMalformed)
    else
      started ← instant_now;
      let!? remaining := budget_left started in
      connected ← ask ig_connect (IgConnect socket remaining);
      match connected with
      | ConnectTimeout => mret (Err IoDeadline)
      | ConnectFault => mret (Err IoUnavailable)
      | Connected =>
          let!? remaining := budget_left started in
          read_timed ← tcp_timeout remaining;
          if negb (read_timed : bool) then mret (Err IoUnavailable)
          else
            write_timed ← tcp_timeout remaining;
            if negb (write_timed : bool) then mret (Err IoUnavailable)
            else
              let request := get_request host path_and_query in
              if CONTROL_MAX_BYTES <? len request then mret (Err IoBounded)
              else
                wrote ← ask ig_write (IgWrite socket request);
                match wrote with
                | WriteTimeout => mret (Err IoDeadline)
                | WriteFault => mret (Err IoUnavailable)
                | Written => loop igd_turns (get_turn started) EmptyString
                end
      end.

(** [HostIgdDocuments::get]. *)
Definition host_get (url : string) (socket : SocketAddr) : io igd_event (result string IgdIoError) :=
  match path_of_url url with
  | None => mret (Err IoMalformed)
  | Some path => bounded_http_get socket (ipv4_str (sa_ip socket) +:+ ":" +:+ pretty (sa_port socket)) path
  end.

End fetch.

(** The host's search with any way to fetch documents. *)
Definition multicast_seams `{!IgdHost} (index : Z)
    (documents : string -> SocketAddr -> io igd_event (result string IgdIoError)) : IgdSeams igd_event :=
  {| igd_cancelled := host_cancelled; igd_deadline := host_deadline;
     igd_search := host_search index; igd_get := documents |}.

Definition discover_igd_via_multicast `{!IgdHost, !UrlApi, !UrlHost} (g : SelectedGateway)
    (documents : string -> SocketAddr -> io igd_event (result string IgdIoError)) : io igd_event IgdDiscovery :=
  @discover_igd _ (multicast_seams (interface_index g) documents) _ _ g.

(** ** A router that answers *)

Definition sample_router : SelectedGateway :=
  {| gateway := ipv4 192 168 1 1; interface_index := 2; interface_name := "eth0" |}.
Definition sample_control_url : string := "http://192.168.1.1:80/c".
Definition sample_control : Url :=
  {| url_scheme := "http"; url_host_str := Some "192.168.1.1"; url_username := EmptyString; url_password := None;
     url_query := None; url_fragment := None; url_path := "/c"; url_as_str := sample_control_url |}.
Definition sample_igd_urls : UrlApi :=
  {| url_parse := fun s => if s =s sample_control_url then Some sample_control else None;
     url_join := fun _ _ => Some sample_control |}.
Definition sample_igd_host_parts : UrlHost :=
  {| url_host_ipv4 := fun _ => Some (ipv4 192 168 1 1); url_port_or_known_default := fun _ => Some 80 |}.
Definition sample_reply : string :=
  "HTTP/1.1 200 OK" +:+ crlf +:+ "LOCATION: " +:+ sample_control_url +:+ crlf
  +:+ "ST: urn:schemas-upnp-org:device:InternetGatewayDevice:1" +:+ crlf +:+ crlf.
Definition sample_description : string :=
  "<root><service><serviceType>" +:+ WAN_IP_V1 +:+ "</serviceType><controlURL>/c</controlURL></service></root>".

(** Each wait takes 300 ms; the gateway answers the first receive and read. *)
Definition sample_igd_host : IgdHost :=
  {| ig_cancelled := fun _ => false; ig_deadline := fun _ => false;
     ig_now := fun t => from_millis 300 *
       Z.of_nat (length (List.filter (fun e => match e with IgRecv _ | IgRead _ => true | _ => false end) t));
     ig_bind := fun _ => true; ig_interface := fun _ => true; ig_recv_timeout := fun _ => true; ig_send := fun _ => true;
     ig_recv := fun t => if existsb (fun e => match e with IgRecv _ => true | _ => false end) t then UdpTimeout
                         else UdpDatagram (gateway sample_router) sample_reply;
     ig_connect := fun _ => Connected; ig_tcp_timeout := fun _ => true; ig_write := fun _ => Written;
     ig_read := fun t => if existsb (fun e => match e with IgRead _ => true | _ => false end) t
                         then ReadBytes EmptyString
                         else ReadBytes ("HTTP/1.0 200 OK" +:+ crlf +:+ crlf +:+ sample_description);
     igd_turns := 5 |}.
Definition sample_discovery : option IgdDiscovery * list igd_event :=
  @discover_igd_via_multicast sample_igd_host sample_igd_urls sample_igd_host_parts sample_router
    (@host_get sample_igd_host) [].

(** * Properties *)

(** ** The device description reader *)

Definition collects (f : Frame) : bool := negb (bool_decide (fr_target f = TextIgnore)).
Definition is_service (f : Frame) : bool := local_name (fr_name f) =s "service".
Definition short_text (s : string) : Prop := s <> EmptyString /\ len s <= CONTROL_LOCATION_MAX_BYTES.
Definition short_option (o : option string) : Prop := forall s, o = Some s -> short_text s.

(** The depth counts the open elements; at most one of them collects text, and it
    is the one the parser collects for; at most one is a [service], exactly while
    the parser is inside one; texts and candidates stay within their limits. *)
Record parser_wf (x : DeviceParser) : Prop := {
  wf_depth : xp_depth x = Z.of_nat (length (xp_stack x));
  wf_bound : xp_depth x <= IGD_XML_MAX_DEPTH;
  wf_target : map fr_target (List.filter collects (xp_stack x)) =
    if bool_decide (xp_text_target x = TextIgnore) then [] else [xp_text_target x];
  wf_service : length (List.filter is_service (xp_stack x)) = if xp_in_service x then 1%nat else 0%nat;
  wf_buffer : len (xp_buffer x) <= CONTROL_LOCATION_MAX_BYTES;
  wf_type : short_option (xp_service_type x);
  wf_url : short_option (xp_control_url x);
  wf_count : (length (xp_candidates x) <= IGD_MAX_SERVICE_CANDIDATES)%nat;
  wf_candidates : Forall (fun c => short_text (sc_control_url c)) (xp_candidates x)
}.

Lemma short_none : short_option None.
Proof. by intros s. Qed.
Lemma short_some s : short_text s -> short_option (Some s).
Proof. by intros Hs ? [= <-]. Qed.
Local Hint Resolve short_none short_some : core.

Lemma device_parser_wf : parser_wf device_parser.
Proof. constructor; cbn; auto using Forall_nil with lia; done. Qed.

Lemma str_rev_len s : len (str_rev s) = len s.
Proof.
  rewrite !bytes_len. unfold str_rev, bytes, of_bytes.
  by rewrite String.list_ascii_of_string_of_list_ascii, length_rev.
Qed.

Lemma trim_ascii_len s : len (trim_ascii s) <= len s.
Proof.
  unfold trim_ascii. rewrite str_rev_len. pose proof (skip_whitespace_length (str_rev (skip_whitespace s))).
  pose proof (skip_whitespace_length s). pose proof (str_rev_len (skip_whitespace s)).
  unfold not_longer, len in *. lia.
Qed.

Lemma device_text_wf raw x x' : parser_wf x -> device_text raw x = Ok x' -> parser_wf x'.
Proof.
  intros Hx. unfold device_text. case_bool_decide as Ht.
  - destruct (decode_text _ _ _ _); [| done]. by intros [= <-].
  - destruct (decode_text _ _ _ _) as [buffer|]; [| done].
    destruct (CONTROL_LOCATION_MAX_BYTES <? len buffer) eqn:Hb; [done |]. intros [= <-]. reflect_bool.
    destruct Hx. by constructor.
Qed.

Lemma set_service_wf x b ty url : parser_wf x -> b = xp_in_service x -> short_option ty -> short_option url ->
  parser_wf (set_service x b ty url).
Proof. intros [] -> Ht Hu. by constructor. Qed.

Lemma device_start_wf name self_closing x x' : parser_wf x -> device_start_tag name self_closing x = Ok x' -> parser_wf x'.
Proof.
  intros Hx. unfold device_start_tag. destruct ((local_name name =s "service") && xp_in_service x) eqn:Hs; [done |].
  destruct self_closing.
  { destruct (local_name name =s "service"); intros [= <-]; [| done]. cbn in Hs. destruct Hx.
    constructor; cbn; auto; try done. by rewrite Hs in *. }
  set (y := if local_name name =s "service" then _ else x).
  assert (Hy : xp_depth y = xp_depth x /\ xp_stack y = xp_stack x /\ xp_text_target y = xp_text_target x /\
    xp_buffer y = xp_buffer x /\ xp_candidates y = xp_candidates x /\ short_option (xp_service_type y) /\
    short_option (xp_control_url y) /\
    xp_in_service y = (if local_name name =s "service" then true else xp_in_service x)).
  { unfold y. destruct Hx, (local_name name =s "service"); cbn; auto 10. }
  clearbody y. destruct Hy as (Hd & Hst & Htt & Hbf & Hc & Hty & Hurl & Hin), Hx as [Wd Wb Wt Ws Wbf _ _ Wc Wcs].
  rewrite Hd, Htt, Hst in *.
  destruct (IGD_XML_MAX_DEPTH <? _) eqn:Hdepth; [done |]. reflect_bool.
  assert (Hdp : saturating_add u64_max (xp_depth x) 1 = xp_depth x + 1).
  { unfold saturating_add in *. rewrite Z.min_r; [done |]. unfold IGD_XML_MAX_DEPTH, u64_max in *. lia. }
  rewrite Hdp in *.
  assert (Hserv : length (List.filter is_service ({| fr_name := name; fr_target := target_of (local_name name) |} :: xp_stack x)) =
    if xp_in_service y then 1%nat else 0%nat).
  { cbn [List.filter]. unfold is_service at 1. cbn [fr_name]. rewrite Hin.
    destruct (local_name name =s "service"); [| done]. cbn in Hs |- *. by rewrite Ws, Hs. }
  destruct (bool_decide_reflect (target_of (local_name name) = TextIgnore)) as [Htgt|Htgt]; cbn [negb].
  - intros [= <-]. constructor; cbn [xp_depth xp_stack xp_text_target xp_in_service xp_buffer xp_service_type
      xp_control_url xp_candidates set_stack]; rewrite ?Hst, ?Htt, ?Hbf, ?Hc; auto; try lia; [cbn [length]; lia |].
    cbn [List.filter]. unfold collects at 1. cbn [fr_target]. by rewrite bool_decide_true.
  - destruct (bool_decide_reflect (xp_text_target x = TextIgnore)) as [Hfree|]; [cbn [negb] | done]. intros [= <-].
    constructor; cbn [xp_depth xp_stack xp_text_target xp_in_service xp_buffer xp_service_type
      xp_control_url xp_candidates set_stack set_text]; rewrite ?Hst, ?Hc; auto; try lia; try done; [cbn [length]; lia |].
    cbn [List.filter]. unfold collects at 1. cbn [fr_target]. rewrite bool_decide_false by done. cbn [negb map].
    by rewrite Wt.
Qed.

Lemma short_trim x : parser_wf x -> trim_ascii (xp_buffer x) <> EmptyString -> short_text (trim_ascii (xp_buffer x)).
Proof. intros Hx Hne. split; [done |]. pose proof (trim_ascii_len (xp_buffer x)). destruct Hx. lia. Qed.

(** Closing an element keeps everything but the count of services, which the end
    of a [service] restores. *)
Lemma take_text_wf frame stack x : parser_wf x -> xp_stack x = frame :: stack ->
  let y := take_text frame (set_stack x (saturating_sub_u (xp_depth x) 1) stack) in
  xp_stack y = stack /\ xp_in_service y = xp_in_service x /\ xp_candidates y = xp_candidates x /\
  xp_depth y = Z.of_nat (length stack) /\ len (xp_buffer y) <= CONTROL_LOCATION_MAX_BYTES /\
  short_option (xp_service_type y) /\ short_option (xp_control_url y) /\
  map fr_target (List.filter collects stack) =
    if bool_decide (xp_text_target y = TextIgnore) then [] else [xp_text_target y].
Proof.
  intros Hx Hst. pose proof (short_trim x Hx) as Htrim. destruct Hx as [Wd Wb Wt Ws Wbf Wty Wurl Wc Wcs]. rewrite Hst in *.
  assert (Hdp : saturating_sub_u (xp_depth x) 1 = Z.of_nat (length stack)).
  { unfold saturating_sub_u. cbn [length] in Wd. lia. }
  rewrite Hdp. cbn [List.filter] in Wt. unfold collects at 1 in Wt. unfold take_text.
  destruct (fr_target frame) eqn:Hf; cbn [negb bool_decide] in Wt; cbn [map] in Wt.
  { cbn. by split_and!. }
  all: rewrite bool_decide_false in Wt by done; cbn [negb map] in Wt;
    destruct (bool_decide_reflect (xp_text_target x = TextIgnore)); [done |]; injection Wt as Wt1 Wt2;
    cbn [xp_buffer set_stack] in *; destruct (str_is_empty _) eqn:He; cbn; split_and!; auto; try done;
    apply short_some, Htrim; by apply str_is_empty_false.
Qed.

Lemma finish_service_wf x x' : parser_wf (set_service x false None None) -> short_option (xp_control_url x) ->
  finish_service x = Ok x' -> parser_wf x'.
Proof.
  intros Hx Hurl. unfold finish_service.
  destruct (xp_service_type x) as [ty|], (xp_control_url x) as [url|]; try by intros [= <-].
  destruct (service_kind ty) as [kind|]; [| by intros [= <-]].
  destruct (Nat.eqb_spec (length (xp_candidates (set_service x false None None))) IGD_MAX_SERVICE_CANDIDATES) as [|Hn];
    [done |]. intros [= <-]. destruct Hx as [? ? ? ? ? ? ? Wc Wcs]. constructor; cbn in *; auto.
  - rewrite length_app. cbn. unfold IGD_MAX_SERVICE_CANDIDATES in *. lia.
  - apply Forall_app. split; [done |]. constructor; [by apply Hurl | done].
Qed.

Lemma device_end_wf name x x' : parser_wf x -> device_end_tag name x = Ok x' -> parser_wf x'.
Proof.
  intros Hx. unfold device_end_tag. destruct (xp_stack x) as [|frame stack] eqn:Hst; [done |].
  destruct (String.eqb_spec (fr_name frame) name) as [Hn|]; unfold str_eqb at 1; [| by rewrite (proj2 (String.eqb_neq _ _))].
  rewrite (proj2 (String.eqb_eq _ _) Hn). cbn [negb].
  destruct (take_text_wf frame stack x Hx Hst) as (Ys & Yin & Yc & Yd & Yb & Yty & Yurl & Yt).
  set (y := take_text _ _) in *. destruct Hx as [Wd Wb _ Ws _ _ _ Wc Wcs]. rewrite Hst in *. cbn [List.filter] in Ws.
  unfold is_service at 1 in Ws. rewrite Hn in Ws. cbn [length] in Wd.
  destruct (local_name name =s "service").
  - apply finish_service_wf; [| done]. cbn [length] in Ws. destruct (xp_in_service x); [| done]. injection Ws as Ws.
    constructor; cbn; rewrite ?Ys, ?Yc; auto; lia.
  - intros [= <-]. constructor; rewrite ?Ys, ?Yc, ?Yin; auto; lia.
Qed.

Lemma device_step_wf tok x x' : parser_wf x -> device_step tok x = Ok x' -> parser_wf x'.
Proof.
  destruct tok as [raw| |name closing|name]; cbn [device_step].
  - apply device_text_wf.
  - by intros Hx [= <-].
  - apply device_start_wf.
  - apply device_end_wf.
Qed.

Lemma parse_device_total body : exists r, parse_device_xml body = Some r /\ forall candidates, r = Ok candidates ->
  len body <= IGD_XML_MAX_BYTES /\ (length candidates <= IGD_MAX_SERVICE_CANDIDATES)%nat /\
  Forall (fun c => short_text (sc_control_url c)) candidates.
Proof.
  unfold parse_device_xml.
  destruct (IGD_XML_MAX_BYTES <? len body) eqn:Hlen; [by eexists |]. reflect_bool.
  destruct (contains_nul body); [by eexists |]. destruct (valid_utf8 body); cbn [negb]; [| by eexists].
  unfold device_document. destruct (document_start igd_faults body) as [rest|]; [| by eexists].
  destruct (run_tokens_total igd_faults device_step None (String.length rest) rest device_parser ltac:(lia)) as (r & Hr & _).
  rewrite Hr. destruct r as [x|]; [| by eexists].
  apply (run_tokens_keeps igd_faults parser_wf) in Hr; [| exact device_step_wf | exact device_parser_wf].
  destruct (xp_stack x); [| by eexists]. destruct (xp_in_service x); [by eexists |].
  eexists. split; [done |]. intros candidates [= <-]. destruct Hr. auto.
Qed.

(** ** The control target *)

(** What the [url] crate documents of parsed URLs: the path of an http URL starts
    with a slash, a port is sixteen bits wide, and writing the parts of a parsed
    URL down again gives a URL with the same parts. *)
Class IgdUrlLaws `{!UrlApi, !UrlHost} : Prop := {
  http_path raw url : url_parse raw = Some url -> url_scheme url = "http" ->
    exists rest, url_path url = "/" +:+ rest;
  port_range url port : url_port_or_known_default url = Some port -> 0 <= port <= u16_max;
  url_reparse raw url host port : url_parse raw = Some url -> url_scheme url = "http" ->
    url_host_ipv4 url = Some host -> url_port_or_known_default url = Some port -> port <> 0 ->
    exists url', url_parse ("http://" +:+ ipv4_str host +:+ ":" +:+ pretty port +:+ url_path url +:+
                            match url_query url with Some query => "?" +:+ query | None => EmptyString end) = Some url' /\
      url_scheme url' = "http" /\ url_username url' = EmptyString /\ url_password url' = None /\
      url_host_ipv4 url' = Some host /\ url_port_or_known_default url' = Some port
}.

Section control_target.
Context `{!UrlApi, !UrlHost, !IgdUrlLaws}.

(** A location on the gateway: its text is that of its socket and of a path. *)
Definition on_gateway (gw : Ipv4Addr) (location : ResolvedLocation) : Prop :=
  sa_ip (rl_socket location) = gw /\ 0 < sa_port (rl_socket location) <= u16_max /\
  len (rl_url location) <= CONTROL_LOCATION_MAX_BYTES /\
  (exists rest, rl_url location =
     "http://" +:+ ipv4_str gw +:+ ":" +:+ pretty (sa_port (rl_socket location)) +:+ "/" +:+ rest) /\
  forall g, gateway g = gw -> upnp_location g (rl_url location) = Ok (rl_socket location).

Lemma validate_gateway_url_Ok gw raw location :
  validate_gateway_url gw raw = Ok location -> on_gateway gw location.
Proof.
  unfold validate_gateway_url. destruct (_ <? len raw); [done |]. destruct (_ || _); [done |].
  destruct (url_parse raw) as [url|] eqn:Hp; [| done]. destruct (_ || opt_is_some (url_password url)) eqn:Hu; [done |].
  destruct (opt_is_some (url_fragment url)); [done |]. destruct (url_host_ipv4 url) as [host|] eqn:Hh; [| done].
  destruct (bool_decide_reflect (host = gw)) as [->|]; [cbn [negb] | done].
  destruct (url_port_or_known_default url) as [port|] eqn:Hport; [| done].
  destruct (port =? 0) eqn:Hzero; [done |]. destruct (existsb _ _); [done |]. reflect_bool.
  destruct (http_path _ _ Hp ltac:(done)) as [rest Hpath]. pose proof (port_range _ _ Hport).
  destruct (url_reparse _ _ _ _ Hp ltac:(done) Hh Hport ltac:(done)) as (url' & Hp' & Hs' & Hu' & Hpw' & Hh' & Hport').
  set (text := "http://" +:+ ipv4_str gw +:+ ":" +:+ pretty port +:+ url_path url +:+ _) in Hp'.
  set (base := "http://" +:+ ipv4_str gw +:+ ":" +:+ pretty port +:+ url_path url).
  assert (Htext : forall r, (match url_query url with
      | Some query => if bytes_any (byte_is 64) query || bytes_any (byte_is 92) query || bytes_any (byte_is 32) query
                      then Err IrWrongTarget else Ok (base +:+ "?" +:+ query)
      | None => Ok base end) = Ok r -> r = text).
  { intros r. unfold base, text. destruct (url_query url) as [query|]; [destruct (_ || _); [done |] |];
      intros [= <-]; by rewrite ?str_app_nil_r, ?str_app_assoc. }
  fold base. match goal with |- match ?x with _ => _ end = _ -> _ => destruct x as [r|] end; [| done].
  specialize (Htext r eq_refl) as ->.
  destruct (_ <? len text) eqn:Hlen; [done |]. intros [= <-]. reflect_bool. unfold on_gateway. cbn [rl_url rl_socket sa_ip sa_port].
  split_and!; try done; try lia.
  - unfold text. rewrite Hpath. eexists. by rewrite !str_app_assoc.
  - intros g Hg. unfold upnp_location. rewrite (proj2 (Z.ltb_ge _ _) Hlen), Hp'. cbn [ok_or].
    rewrite Hs', Hu', Hpw', Hh'. cbn. rewrite Hg, bool_decide_true by done. rewrite Hport'. change (default 0 (Some port)) with port.
    by rewrite (proj2 (Z.eqb_neq _ _) Hzero).
Qed.

Lemma no_slash_text (gw : Ipv4Addr) (port : Z) :
  bytes_all (fun b => negb (Ascii.eqb "/" b)) (ipv4_str gw +:+ ":" +:+ pretty port) = true.
Proof.
  assert (Hp : forall z : Z, bytes_all (fun b => negb (Ascii.eqb "/" b)) (pretty z) = true).
  { intros z. generalize (pretty_numeral z). apply bytes_all_weaken. intros a Ha.
    destruct (Ascii.eqb_spec "/" a) as [<-|]; done. }
  unfold ipv4_str. by rewrite !bytes_all_app, !Hp.
Qed.

Lemma path_of_gateway_url (gw : Ipv4Addr) (port : Z) rest :
  path_of_url ("http://" +:+ ipv4_str gw +:+ ":" +:+ pretty port +:+ "/" +:+ rest) = Some ("/" +:+ rest).
Proof.
  unfold path_of_url. set (tail := ipv4_str gw +:+ ":" +:+ pretty port +:+ "/" +:+ rest).
  change (split_once "://" ("http://" +:+ tail)) with (Some ("http", tail)). cbn [mbind option_bind].
  unfold from_slash. unfold tail. rewrite <-(str_app_assoc (ipv4_str gw)), <-str_app_assoc. rewrite str_app_assoc.
  change ("/" +:+ rest) with (String "/" rest).
  by rewrite <-str_app_assoc, split_once_byte by (rewrite str_app_assoc; apply no_slash_text).
Qed.

(** A target that [resolve_control] accepts spells a location on the gateway. *)
Definition target_ok (gw : Ipv4Addr) (target : ValidatedTarget) : Prop :=
  on_gateway gw {| rl_url := "http://" +:+ ipv4_str gw +:+ ":" +:+ pretty (vt_port target) +:+ vt_path_and_query target;
                   rl_socket := {| sa_ip := gw; sa_port := vt_port target |} |} /\
  exists rest, vt_path_and_query target = "/" +:+ rest.

Lemma resolve_control_Ok gw base control target : resolve_control gw base control = Ok target -> target_ok gw target.
Proof.
  unfold resolve_control. destruct (reject_control_syntax control); [done |].
  destruct (if contains "://" control then _ else _) as [joined|]; [| done].
  destruct (validate_gateway_url gw joined) as [[url [ip port]]|] eqn:Hv; [| done].
  apply validate_gateway_url_Ok in Hv as (Hip & Hport & Hlen & (rest & Hurl) & Hup).
  cbn [rl_url rl_socket sa_ip sa_port] in *. subst ip url. rewrite path_of_gateway_url. cbn [ok_or]. intros [= <-].
  split; [| by exists rest]. unfold on_gateway. cbn [rl_url rl_socket sa_ip sa_port vt_port vt_path_and_query].
  split_and!; try done; try lia. by exists rest.
Qed.

Definition selection_ok (gw : Ipv4Addr) (s : Selection) : Prop :=
  (forall target, se_ip s = Some target -> target_ok gw target) /\
  (forall target, se_ppp s = Some target -> target_ok gw target).

Lemma select_candidates_Ok gw base candidates : forall s s', selection_ok gw s ->
  select_candidates gw base candidates s = Ok s' -> selection_ok gw s'.
Proof.
  induction candidates as [|c cs IH]; intros s s' Hs; cbn [select_candidates]; [by intros [= <-] |].
  destruct (opt_is_some (se_ip s)); [by intros [= <-] |].
  destruct (resolve_control gw base (sc_control_url c)) as [target|[]] eqn:Hr; try done; try by apply IH.
  apply resolve_control_Ok in Hr. apply IH. destruct Hs as [Hip Hppp].
  destruct (sc_service c); split; cbn [se_ip se_ppp]; try done; [by intros ? [= <-] |].
  intros t. destruct (opt_is_none (se_ppp s)); [by intros [= <-] | apply Hppp].
Qed.

(** A descriptor that [Upnp] can talk to: on this gateway, at a real port, and
    with a control target that the gateway's control exchange accepts. *)
Definition usable_control (g : SelectedGateway) (d : IgdControlDescriptor) : Prop :=
  igd_gateway d = gateway g /\ 0 < igd_port d <= u16_max /\ (exists rest, path_and_query d = "/" +:+ rest) /\
  len (control_target d) <= CONTROL_LOCATION_MAX_BYTES /\
  control_destination g UpnpIgd (Some (control_target d)) = Ok {| sa_ip := gateway g; sa_port := igd_port d |}.

Lemma select_control_Ok g base candidates d :
  select_control (gateway g) base candidates = Ok (Some d) -> usable_control g d.
Proof.
  unfold select_control. destruct (select_candidates _ _ _ _) as [s|] eqn:Hs; [| done].
  assert (Hok : selection_ok (gateway g) s).
  { eapply select_candidates_Ok; [| done]. by split. }
  assert (Hd : forall service target, target_ok (gateway g) target -> usable_control g (descriptor_from service (gateway g) target)).
  { intros service target [(_ & Hport & Hlen & _ & Hup) Hpath]. cbn in *. unfold usable_control. cbn. split_and!; auto; lia. }
  destruct Hok as [Hip Hppp]. destruct (se_ip s) as [target|]; [intros [= <-]; by apply Hd, Hip |].
  destruct (se_ppp s) as [target|]; [intros [= <-]; by apply Hd, Hppp |]. by repeat case_match.
Qed.

End control_target.

(** ** What the host says to the network *)

Definition ssdp_destination : SocketAddr := {| sa_ip := IGD_SSDP_ADDRESS; sa_port := IGD_SSDP_PORT |}.

(** The search goes to the multicast group; everything else is a GET of a path on
    the gateway. *)
Definition traffic (gw : Ipv4Addr) (e : igd_event) : Prop :=
  match e with
  | IgSend destination data _ => destination = ssdp_destination /\ data = SSDP_MSEARCH
  | IgConnect socket timeout _ => sa_ip socket = gw /\ 0 < timeout <= IGD_HTTP_BUDGET
  | IgWrite socket data _ =>
      sa_ip socket = gw /\ len data <= CONTROL_MAX_BYTES /\
      exists host path, data = get_request host path /\ starts_with "/" path = true /\
        bytes_any byte_forbidden path = false /\ bytes_any byte_forbidden host = false
  | _ => True
  end.
Definition is_search (e : igd_event) : bool := match e with IgSend _ _ _ => true | _ => false end.
Definition is_fetch (e : igd_event) : bool := match e with IgConnect _ _ _ => true | _ => false end.
Definition number (p : igd_event -> bool) (es : list igd_event) : nat := length (List.filter p es).

Definition talks (gw : Ipv4Addr) (searches gets : nat) (es : list igd_event) : Prop :=
  Forall (traffic gw) es /\ (number is_search es <= searches)%nat /\ (number is_fetch es <= gets)%nat.

Lemma number_app p es1 es2 : number p (es1 ++ es2) = (number p es1 + number p es2)%nat.
Proof. unfold number. by rewrite List.filter_app, length_app. Qed.

Lemma talks_app gw s1 s2 f1 f2 es1 es2 :
  talks gw s1 f1 es1 -> talks gw s2 f2 es2 -> talks gw (s1 + s2) (f1 + f2) (es1 ++ es2).
Proof.
  intros (Ha & Hs & Hf) (Ha' & Hs' & Hf'). split; [by apply Forall_app |]. rewrite !number_app. lia.
Qed.
Lemma talks_nil gw s f : talks gw s f [].
Proof. split; [constructor |]. cbn. lia. Qed.
Lemma talks_more gw s s' f f' es : talks gw s f es -> (s <= s')%nat -> (f <= f')%nat -> talks gw s' f' es.
Proof. intros (Ha & Hs & Hf) ? ?. split; [done | lia]. Qed.

Section host_traffic.

(** [m] keeps within its traffic, and [Q] holds of what it returns and does. *)
Definition keeps_to {A} (gw : Ipv4Addr) (s f : nat) (m : io igd_event A) (Q : A -> list igd_event -> Prop) : Prop :=
  adds m (fun o es => talks gw s f es /\ forall a, o = Some a -> Q a es).

Lemma keeps_to_ret {A} gw s f (a : A) Q : Q a [] -> keeps_to gw s f (mret a) Q.
Proof. intros HQ. apply adds_ret. split; [apply talks_nil |]. by intros ? [= <-]. Qed.

Lemma keeps_to_bind {A B} gw s1 s2 f1 f2 (R : A -> list igd_event -> Prop) (m : io igd_event A) (k : A -> io igd_event B) Q :
  keeps_to gw s1 f1 m R ->
  (forall a es, R a es -> keeps_to gw s2 f2 (k a) (fun b es' => Q b (es' ++ es))) ->
  keeps_to gw (s2 + s1) (f2 + f1) (m ≫= k) Q.
Proof.
  intros Hm Hk. unfold keeps_to. eapply adds_bind; [exact Hm | |].
  - intros es [Ht _]. split; [| done]. eapply talks_more; [done | lia..].
  - intros a es [Ht HR]. specialize (HR a eq_refl). eapply adds_conseq; [by apply Hk |].
    intros o es' [Ht' HQ]. split; [by apply talks_app | done].
Qed.

(** A step that says nothing to the network. *)
Lemma keeps_to_local {A B} gw s f (m : io igd_event A) (k : A -> io igd_event B) Q (R : A -> list igd_event -> Prop) :
  keeps_to gw 0 0 m R -> (forall a es, R a es -> keeps_to gw s f (k a) (fun b es' => Q b (es' ++ es))) ->
  keeps_to gw s f (m ≫= k) Q.
Proof.
  intros Hm Hk. rewrite <-(Nat.add_0_r s), <-(Nat.add_0_r f). by eapply keeps_to_bind.
Qed.

Lemma keeps_to_conseq {A} gw s f (m : io igd_event A) (Q Q' : A -> list igd_event -> Prop) :
  keeps_to gw s f m Q' -> (forall a es, Q' a es -> Q a es) -> keeps_to gw s f m Q.
Proof. intros Hm HQ. eapply adds_conseq; [exact Hm |]. intros o es [? ?]. split; auto. Qed.

Lemma keeps_to_ask {A} gw s f (oracle : list igd_event -> A) ev (Q : A -> list igd_event -> Prop) :
  (forall a, talks gw s f [ev a] /\ Q a [ev a]) -> keeps_to gw s f (ask oracle ev) Q.
Proof. intros Hev. apply adds_ask. intros a. destruct (Hev a). split; [done |]. by intros ? [= <-]. Qed.

Lemma keeps_to_loop {S A} gw (I : S -> list igd_event -> Prop) (body : S -> io igd_event (S + A)) Q fuel s :
  (forall s es, I s es -> keeps_to gw 0 0 (body s) (fun r es' =>
     match r with inl s' => I s' (es' ++ es) | inr a => Q a (es' ++ es) end)) ->
  I s [] -> keeps_to gw 0 0 (loop fuel body s) Q.
Proof.
  intros Hbody Hs. unfold keeps_to.
  eapply adds_conseq; [apply (adds_loop (fun s es => I s es /\ talks gw 0 0 es) body
    (fun o es => talks gw 0 0 es /\ forall a, o = Some a -> Q a es)) |].
  - intros s' es [_ Ht]. done.
  - intros s' es [HI Ht]. eapply adds_conseq; [by apply Hbody |]. intros o es' [Ht' HQ].
    pose proof (talks_app _ _ _ _ _ _ _ Ht' Ht) as Hall. destruct o as [[s2|a]|]; [| |done].
    + split; [exact (HQ _ eq_refl) | done].
    + split; [done |]. intros ? [= <-]. exact (HQ _ eq_refl).
  - by split; [| apply talks_nil].
  - intros o es HQ. cbn beta in HQ. by rewrite app_nil_r in HQ.
Qed.

(** One question to the host that says nothing. *)
Lemma keeps_to_ask_local {A} gw (oracle : list igd_event -> A) ev :
  (forall a, traffic gw (ev a)) -> (forall a, is_search (ev a) = false) -> (forall a, is_fetch (ev a) = false) ->
  keeps_to gw 0 0 (ask oracle ev) (fun a es => es = [ev a]).
Proof.
  intros Ht Hs Hf. apply keeps_to_ask. intros a. split; [| done]. split; [by repeat constructor |].
  unfold number. cbn. by rewrite Hs, Hf.
Qed.

End host_traffic.

(** Follow a computation that asks the host questions and says nothing. *)
Ltac say_nothing :=
  repeat first
    [ progress cbn beta iota zeta
    | apply keeps_to_ret; by auto
    | eapply keeps_to_local; [by apply keeps_to_ask_local | intros ? ? ->]
    | match goal with |- keeps_to _ _ _ (if ?b then _ else _) _ => destruct b eqn:? end ].

Section host_facts.
Context `{!IgdHost}.

(** What was read from a connection, oldest first. *)
Fixpoint bytes_read (es : list igd_event) : string :=
  match es with
  | [] => EmptyString
  | IgRead (ReadBytes data) :: es => bytes_read es +:+ str_take 1024 data
  | _ :: es => bytes_read es
  end.
Definition is_request (e : igd_event) : bool := match e with IgWrite _ _ _ | IgConnect _ _ _ => true | _ => false end.

(** The document is what was read in answer to this request, before any other one. *)
Definition fetched (socket : SocketAddr) (request body : string) (es : list igd_event) : Prop :=
  exists newer reads older, es = newer ++ reads ++ IgWrite socket request Written :: older /\
    Forall (fun e => is_request e = false) reads /\ parse_http_response (bytes_read reads) = Ok body.

Lemma fetched_more socket request body newer es older : fetched socket request body es ->
  fetched socket request body (newer ++ es ++ older).
Proof.
  intros (n & r & o & -> & Hr & Hb). exists (newer ++ n), r, (o ++ older). split; [| done].
  by rewrite <-!app_assoc, <-app_comm_cons.
Qed.

(** The replies of a search: what the gateway sent, in order. *)
Definition from_gateway (gw : Ipv4Addr) (replies : list string) (es : list igd_event) : Prop :=
  (length replies <= IGD_SSDP_MAX_REPLIES)%nat /\
  Forall (fun reply => 0 < len reply <= IGD_SSDP_MAX_BYTES /\
    exists data, IgRecv (UdpDatagram gw data) ∈ es /\ reply = str_take (IGD_SSDP_MAX_BYTES + 1) data) replies.

Lemma from_gateway_more gw replies es es' : from_gateway gw replies es -> from_gateway gw replies (es' ++ es).
Proof.
  intros [Hl Hr]. split; [done |]. eapply Forall_impl; [exact Hr |]. intros r (Hlen & data & Hin & ->).
  split; [done |]. exists data. split; [| done]. apply elem_of_app. by right.
Qed.

Lemma ssdp_turn_keeps gw started budget replies es0 : from_gateway gw replies es0 ->
  keeps_to gw 0 0 (ssdp_turn gw started budget replies) (fun r es =>
    match r with
    | inl replies => from_gateway gw replies (es ++ es0)
    | inr (Ok replies) => from_gateway gw replies (es ++ es0)
    | inr (Err _) => True
    end).
Proof.
  intros Hf. unfold ssdp_turn, instant_now, host_cancelled, host_deadline, recv_from.
  eapply keeps_to_local; [by apply keeps_to_ask_local |]. intros now es1 ->.
  destruct (negb _ || _) eqn:Hgo; [apply keeps_to_ret; by apply from_gateway_more |].
  apply orb_false_iff in Hgo as [_ Hroom%negb_false_iff%Nat.ltb_lt].
  eapply keeps_to_local; [by apply keeps_to_ask_local |]. intros stop es2 ->. destruct stop; [by apply keeps_to_ret |].
  eapply keeps_to_local; [by apply keeps_to_ask_local |]. intros late es3 ->. destruct late; [by apply keeps_to_ret |].
  eapply keeps_to_local; [by apply keeps_to_ask_local |]. intros received es4 ->. apply keeps_to_ret. cbn [app].
  assert (Hkeep : forall e1 e2 e3 e4, from_gateway gw replies (e1 :: e2 :: e3 :: e4 :: es0)).
  { intros e1 e2 e3 e4. by apply (from_gateway_more _ _ _ [e1; e2; e3; e4]). }
  destruct received as [source data| | |]; [| by destruct (_ =? _)%nat; apply Hkeep | apply Hkeep | done].
  destruct (bool_decide_reflect (source = gw)) as [->|]; [cbn [negb] | apply Hkeep].
  destruct (len _ =? 0) eqn:Hz; [apply Hkeep |]. destruct (_ <? len _) eqn:Hb; [done |]. reflect_bool.
  destruct (Hkeep (IgRecv (UdpDatagram gw data)) (IgDeadline false) (IgCancelled false) (IgNow now)) as [Hl Hr].
  split; [rewrite length_app; cbn; lia |]. apply Forall_app. split; [done |].
  apply Forall_singleton. pose proof (len_nonneg (str_take (IGD_SSDP_MAX_BYTES + 1) data)).
  split; [lia |]. exists data. split; [by left | done].
Qed.

Lemma search_sent gw ok : talks gw 1 0 [IgSend ssdp_destination SSDP_MSEARCH ok].
Proof. split; [by repeat constructor |]. cbn. lia. Qed.

Lemma exchange_ssdp_keeps gw index budget :
  keeps_to gw 1 0 (exchange_ssdp gw ssdp_destination index SSDP_MSEARCH budget) (fun r es =>
    forall replies, r = Ok replies -> from_gateway gw replies es).
Proof.
  unfold exchange_ssdp, host_cancelled, host_deadline.
  eapply keeps_to_local; [by apply keeps_to_ask_local |]. intros stop es1 _. destruct stop; [by apply keeps_to_ret |].
  eapply keeps_to_local; [by apply keeps_to_ask_local |]. intros late es2 _. destruct late; [by apply keeps_to_ret |].
  destruct (_ || _); [by apply keeps_to_ret |].
  eapply keeps_to_local; [by apply keeps_to_ask_local |]. intros bound es3 _. destruct bound; [cbn [negb] | by apply keeps_to_ret].
  eapply (keeps_to_local _ _ _ _ _ _ (fun _ _ => True)).
  { unfold bind_multicast_interface. destruct (_ && _); [| by apply keeps_to_ret].
    destruct (i32_try_from index); [| by apply keeps_to_ret].
    eapply keeps_to_local; [by apply keeps_to_ask_local |]. intros; by apply keeps_to_ret. }
  intros [[]|] es4 _; [| by apply keeps_to_ret].
  eapply keeps_to_local; [by apply keeps_to_ask_local |]. intros timed es5 _. destruct timed; [cbn [negb] | by apply keeps_to_ret].
  eapply (keeps_to_bind _ 1 0 0 0 (fun _ _ => True)); [apply keeps_to_ask; intros; split; [apply search_sent | done] |].
  intros sent es6 _. destruct sent; [cbn [negb] | by apply keeps_to_ret].
  eapply keeps_to_local; [by apply keeps_to_ask_local |]. intros started es7 _.
  eapply keeps_to_conseq; [eapply (keeps_to_loop gw (from_gateway gw) _
    (fun r es => forall replies, r = Ok replies -> from_gateway gw replies es)) |].
  - intros replies es Hf. eapply keeps_to_conseq; [by apply ssdp_turn_keeps |].
    intros [rs|[rs|e]] es' Hr; [done | by intros ? [= <-] | done].
  - split; [cbn; lia | constructor].
  - cbn beta. intros r es Hr replies Hrep. rewrite <-!app_assoc.
    specialize (Hr replies Hrep). destruct Hr as [Hl Hr]. split; [done |]. eapply Forall_impl; [exact Hr |].
    intros x (Hlen & data & Hin & ->). split; [done |]. exists data. split; [| done]. apply elem_of_app. by left.
Qed.

Lemma budget_left_keeps gw started : keeps_to gw 0 0 (budget_left started) (fun r es =>
  (exists now, es = [IgNow now]) /\ forall remaining, r = Ok remaining -> 0 < remaining <= IGD_HTTP_BUDGET).
Proof.
  unfold budget_left, instant_now. eapply keeps_to_local; [by apply keeps_to_ask_local |]. intros now es ->.
  apply keeps_to_ret. split; [by exists now |]. intros remaining. destruct (_ <? _) eqn:Hl; [| done]. intros [= <-]. reflect_bool.
  unfold saturating_duration_since in *. lia.
Qed.

Lemma get_turn_keeps gw started raw es0 : raw = bytes_read es0 -> Forall (fun e => is_request e = false) es0 ->
  keeps_to gw 0 0 (get_turn started raw) (fun r es => Forall (fun e => is_request e = false) (es ++ es0) /\
    match r with
    | inl raw => raw = bytes_read (es ++ es0)
    | inr r => forall body, r = Ok body -> parse_http_response (bytes_read (es ++ es0)) = Ok body
    end).
Proof.
  intros Hraw Hreq. unfold get_turn, host_cancelled, host_deadline, tcp_timeout. say_nothing.
  1, 2: apply keeps_to_ret; split; [by repeat apply Forall_cons_2 | done].
  eapply keeps_to_local; [apply budget_left_keeps |].
  intros [remaining|] es [[now ->] _]; [| apply keeps_to_ret; split; [by repeat apply Forall_cons_2 | done]]. say_nothing.
  1: apply keeps_to_ret; split; [by repeat apply Forall_cons_2 | done].
  apply keeps_to_ret. split; [by repeat apply Forall_cons_2 |]. cbn [app bytes_read].
  destruct a2 as [data| | |]; cbn [bytes_read]; rewrite <-?Hraw; try done.
  destruct (len _ =? 0) eqn:Hz; [| by destruct (_ <? _)]. apply Z.eqb_eq, len_0 in Hz. by rewrite Hz, str_app_nil_r.
Qed.

Lemma fetch_sent gw socket remaining r : sa_ip socket = gw -> 0 < remaining <= IGD_HTTP_BUDGET ->
  talks gw 0 1 [IgConnect socket remaining r].
Proof. intros Hip Hrem. split; [apply Forall_singleton; by split |]. cbn. lia. Qed.

Lemma bounded_http_get_keeps gw socket host path : sa_ip socket = gw ->
  keeps_to gw 0 1 (bounded_http_get socket host path) (fun r es =>
    forall body, r = Ok body -> fetched socket (get_request host path) body es).
Proof.
  intros Hip. unfold bounded_http_get, host_cancelled, host_deadline, instant_now, tcp_timeout. say_nothing.
  apply orb_false_iff in Heqb1 as [Hpath Hhost]. apply orb_false_iff in Hpath as [Hslash%negb_false_iff Hpath].
  eapply keeps_to_local; [apply budget_left_keeps |]. intros [remaining|] es [_ Hrem]; [| by apply keeps_to_ret].
  eapply (keeps_to_bind _ 0 0 1 0 (fun _ _ => True)).
  { apply keeps_to_ask. intros. split; [| done]. apply fetch_sent; auto. }
  intros [] es' _; [| by apply keeps_to_ret..].
  eapply keeps_to_local; [apply budget_left_keeps |]. intros [left2|] es2 _; [| by apply keeps_to_ret]. say_nothing.
  reflect_bool. eapply (keeps_to_local _ _ _ _ _ _ (fun r es => es = [IgWrite socket (get_request host path) r])).
  { apply keeps_to_ask. intros. split; [| done]. split; [| cbn; lia]. apply Forall_singleton. split_and!; try done.
    exists host, path. by split_and!. }
  intros [] es3 ->; [| by apply keeps_to_ret..].
  eapply keeps_to_conseq; [apply (keeps_to_loop gw (fun raw es => raw = bytes_read es /\ Forall (fun e => is_request e = false) es) _
    (fun r es => Forall (fun e => is_request e = false) es /\
       forall body, r = Ok body -> parse_http_response (bytes_read es) = Ok body)) |].
  - intros raw es4 [Hraw Hreq]. eapply keeps_to_conseq; [by apply get_turn_keeps |]. intros [raw'|r] es5 [Hq Hr]; [by split | by split].
  - by split.
  - cbn beta. intros r es4 [Hq Hr] body Hbody. rewrite <-!app_assoc. eexists [], es4, _. split; [reflexivity |]. auto.
Qed.

(** The request for the document at a place that was validated. *)
Definition document_request (socket : SocketAddr) (path : string) : string :=
  get_request (ipv4_str (sa_ip socket) +:+ ":" +:+ pretty (sa_port socket)) path.

Lemma host_get_keeps gw url socket : sa_ip socket = gw -> keeps_to gw 0 1 (host_get url socket) (fun r es =>
  forall body, r = Ok body -> exists path, path_of_url url = Some path /\
    fetched socket (document_request socket path) body es).
Proof.
  intros Hip. unfold host_get. destruct (path_of_url url) as [path|]; [| by apply keeps_to_ret].
  eapply keeps_to_conseq; [by apply bounded_http_get_keeps |]. intros r es Hr body Hbody. exists path. split; [done | by apply Hr].
Qed.

End host_facts.

(** ** Discovery *)

Section discovery_facts.
Context `{!IgdHost, !UrlApi, !UrlHost, !IgdUrlLaws}.
Variable index : Z.

#[local] Instance the_seams : IgdSeams igd_event := multicast_seams index host_get.

(** A control point that this document, fetched from this place, leads to. *)
Definition described (g : SelectedGateway) (location : ResolvedLocation) (d : IgdControlDescriptor) (es : list igd_event) : Prop :=
  exists path body candidates, path_of_url (rl_url location) = Some path /\
    fetched (rl_socket location) (document_request (rl_socket location) path) body es /\
    parse_device_xml body = Some (Ok candidates) /\
    select_control (gateway g) (rl_url location) candidates = Ok (Some d).

(** What a reply leads to is usable and described at the place that the reply names. *)
Definition found_by (g : SelectedGateway) (reply : string) (r : IgdDiscovery) (es : list igd_event) : Prop :=
  forall d, r = IgdFound d -> usable_control g d /\
    exists location, ssdp_location (gateway g) reply = Ok location /\ on_gateway (gateway g) location /\ described g location d es.

Lemma not_found g reply r es : (forall d, r <> IgdFound d) -> found_by g reply r es.
Proof. intros Hr d ->. by destruct (Hr d). Qed.

Lemma io_discovery_not_found g reply e es : found_by g reply (io_discovery e) es.
Proof. apply not_found. by destruct e. Qed.

Lemma found_more g reply r newer es older : found_by g reply r es -> found_by g reply r (newer ++ es ++ older).
Proof.
  intros Hf d Hd. destruct (Hf d Hd) as (Hu & l & Hl & Hon & path & body & cs & Hp & Hfe & Hcs & Hsel). split; [done |]. exists l.
  split_and!; [done | done |]. exists path, body, cs. split_and!; [done | by apply fetched_more | done | done].
Qed.

Lemma ssdp_location_on_gateway gw reply location : ssdp_location gw reply = Ok location -> on_gateway gw location.
Proof.
  unfold ssdp_location. destruct (contains_nul reply); [done |]. destruct (negb _); [done |].
  destruct (List.filter _ _) as [|status lines]; [done |]. destruct (negb _); [done |].
  destruct (ssdp_headers 0 None None lines) as [[[l|] [st|]]|]; cbn; try done.
  destruct (negb _); [done |]. apply validate_gateway_url_Ok.
Qed.

Lemma read_description_keeps g location body s :
  keeps_to (gateway g) 0 0 (read_description (gateway g) location body s) (fun r _ =>
    match r with
    | inl s' => fetches s' = fetches s
    | inr answer => forall d, answer = IgdFound d -> exists candidates, parse_device_xml body = Some (Ok candidates) /\
        select_control (gateway g) (rl_url location) candidates = Ok (Some d)
    end).
Proof.
  unfold read_description. destruct (_ <? _); [by apply keeps_to_ret |].
  destruct (parse_device_xml body) as [[candidates|[]]|]; try by apply keeps_to_ret.
  - apply keeps_to_ret. destruct (select_control _ _ _) as [[d|]|[]] eqn:Hc; try done.
    intros ? [= <-]. by exists candidates.
  - apply adds_diverge. split; [apply talks_nil | done].
Qed.

(** A reply costs a fetch when it names a place on the gateway and one is left. *)
Definition fetch_cost (gw : Ipv4Addr) (reply : string) (s : Seen) : nat :=
  match ssdp_location gw reply with
  | Ok _ => if (fetches s =? IGD_MAX_DOCUMENT_FETCHES)%nat then 0%nat else 1%nat
  | Err _ => 0%nat
  end.

Lemma read_reply_keeps g reply s :
  keeps_to (gateway g) 0 (fetch_cost (gateway g) reply s) (read_reply (gateway g) reply s) (fun r es =>
    match r with
    | inl s' => fetches s' = (fetches s + fetch_cost (gateway g) reply s)%nat
    | inr answer => found_by g reply answer es
    end).
Proof.
  unfold read_reply, fetch_cost. cbn [igd_cancelled igd_deadline the_seams multicast_seams]. unfold host_cancelled, host_deadline.
  eapply keeps_to_local; [by apply keeps_to_ask_local |]. intros stop es1 _.
  destruct stop; [apply keeps_to_ret; by apply not_found |].
  eapply keeps_to_local; [by apply keeps_to_ask_local |]. intros late es2 _.
  destruct late; [apply keeps_to_ret; by apply not_found |].
  destruct (_ <? len reply); [apply keeps_to_ret; by apply not_found |].
  destruct (ssdp_location (gateway g) reply) as [location|[]] eqn:Hloc;
    try (apply keeps_to_ret; first [by apply not_found | cbn; lia]).
  pose proof (ssdp_location_on_gateway _ _ _ Hloc) as Hon. pose proof Hon as [Hip _].
  destruct (fetches s =? IGD_MAX_DOCUMENT_FETCHES)%nat; [apply keeps_to_ret; by apply not_found |].
  cbn [igd_get the_seams multicast_seams].
  eapply (keeps_to_bind _ 0 0 1 0); [by apply host_get_keeps |]. intros [body|e] es3 Hget.
  - eapply keeps_to_conseq; [apply read_description_keeps |]. intros [s'|answer] es Hr; [cbn in Hr; lia |].
    cbn beta. rewrite <-!app_assoc. apply found_more. intros d Hd. destruct (Hr d Hd) as (cs & Hcs & Hsel). destruct (Hget body eq_refl) as (path & Hpath & Hf).
    split; [by eapply select_control_Ok |]. exists location. split_and!; [done | done |]. by exists path, body, cs.
  - destruct e; apply keeps_to_ret; first [apply io_discovery_not_found | cbn; lia].
Qed.

Lemma fetch_cost_le gw reply s : (fetches s <= IGD_MAX_DOCUMENT_FETCHES)%nat ->
  (fetches s + fetch_cost gw reply s <= IGD_MAX_DOCUMENT_FETCHES)%nat.
Proof.
  intros Hs. unfold fetch_cost. destruct (ssdp_location gw reply); [| lia].
  destruct (Nat.eqb_spec (fetches s) IGD_MAX_DOCUMENT_FETCHES); lia.
Qed.

Lemma read_replies_keeps g replies : forall s, (fetches s <= IGD_MAX_DOCUMENT_FETCHES)%nat ->
  keeps_to (gateway g) 0 (IGD_MAX_DOCUMENT_FETCHES - fetches s) (read_replies (gateway g) replies s)
    (fun r es => forall d, r = IgdFound d -> exists reply, reply ∈ replies /\ found_by g reply r es).
Proof.
  induction replies as [|reply replies IH]; intros s Hs; cbn [read_replies].
  { apply keeps_to_ret. unfold nothing_found. intros d. by repeat case_match. }
  pose proof (fetch_cost_le (gateway g) reply s Hs) as Hc.
  replace (IGD_MAX_DOCUMENT_FETCHES - fetches s)%nat with
    ((IGD_MAX_DOCUMENT_FETCHES - (fetches s + fetch_cost (gateway g) reply s)) + fetch_cost (gateway g) reply s)%nat by lia.
  eapply (keeps_to_bind _ 0 0); [apply read_reply_keeps |]. intros [s'|answer] es Hr.
  - rewrite <-Hr. eapply keeps_to_conseq; [apply IH; lia |]. intros r es' Hr' d Hd. destruct (Hr' d Hd) as (reply' & Hin & Hf).
    exists reply'. split; [by right | by apply (found_more _ _ _ [])].
  - apply keeps_to_ret. intros d Hd. exists reply. split; [by left | done].
Qed.

(** A datagram that fits was not cut. *)
Lemma str_take_whole n data : 0 <= n -> len (str_take (n + 1) data) <= n -> str_take (n + 1) data = data.
Proof.
  intros Hn. unfold str_take. rewrite bytes_len. unfold bytes, of_bytes. rewrite String.list_ascii_of_string_of_list_ascii, length_take.
  intros Hlen. rewrite take_ge by lia. apply String.string_of_list_ascii_of_string.
Qed.

(** The gateway sent a reply that leads to the control point. *)
Definition advertised (g : SelectedGateway) (d : IgdControlDescriptor) (es : list igd_event) : Prop :=
  exists data location, IgRecv (UdpDatagram (gateway g) data) ∈ es /\ 0 < len data <= IGD_SSDP_MAX_BYTES /\
    ssdp_location (gateway g) data = Ok location /\ on_gateway (gateway g) location /\ described g location d es.

Lemma discover_igd_keeps g : keeps_to (gateway g) 1 IGD_MAX_DOCUMENT_FETCHES (discover_igd g) (fun r es =>
  forall d, r = IgdFound d -> usable_control g d /\ advertised g d es).
Proof.
  unfold discover_igd. cbn [igd_cancelled igd_deadline igd_search the_seams multicast_seams].
  unfold host_cancelled, host_deadline, host_search.
  eapply keeps_to_local; [by apply keeps_to_ask_local |]. intros stop es1 _. destruct stop; [by apply keeps_to_ret |].
  eapply keeps_to_local; [by apply keeps_to_ask_local |]. intros late es2 _. destruct late; [by apply keeps_to_ret |].
  eapply (keeps_to_bind _ 1 0 0 IGD_MAX_DOCUMENT_FETCHES); [apply exchange_ssdp_keeps |].
  intros [replies|e] es3 Hr; [| apply keeps_to_ret; by destruct e].
  destruct (_ <? length replies)%nat; [by apply keeps_to_ret |].
  eapply keeps_to_conseq; [apply (read_replies_keeps g replies nothing_seen); cbn; lia |].
  cbn beta. intros r es Hf d Hd. destruct (Hf d Hd) as (reply & Hin & Hby). destruct (Hr _ eq_refl) as [_ Hall].
  rewrite Forall_forall in Hall. destruct (Hall reply Hin) as (Hlen & data & Hrecv & Htake).
  assert (Hdata : data = reply) by (rewrite Htake in Hlen |- *; symmetry; apply str_take_whole; [by unfold IGD_SSDP_MAX_BYTES | apply Hlen]). subst data.
  rewrite <-!app_assoc. destruct (found_more g reply r [] es (es3 ++ es2 ++ es1) Hby d Hd) as (Hu & l & Hl & Hon & Hdes).
  split; [done |]. exists reply, l. split; [rewrite !elem_of_app; auto |]. by repeat (split; [done |]).
Qed.

End discovery_facts.

(** ** Termination *)

Definition waits (e : igd_event) : bool := match e with IgRecv _ | IgRead _ => true | _ => false end.

(** A clock that moves while the host waits: within [n] receives and reads the
    budget of an exchange has passed. *)
Class IgdClock `{!IgdHost} (n : nat) : Prop :=
  clock_moves t es : (n <= number waits es)%nat -> ig_now t + IGD_HTTP_BUDGET <= ig_now (es ++ t).

(** [m] returns from every continuation of the history [t]. *)
Definition ends_after {E A} (t : list E) (m : io E A) : Prop :=
  forall es, exists a es', m (es ++ t) = (Some a, es' ++ es ++ t).

Lemma ends_after_ret {E A} (t : list E) (a : A) : ends_after t (mret a).
Proof. intros es. by exists a, []. Qed.
Lemma ends_after_bind {E A B} (t : list E) (m : io E A) (k : A -> io E B) :
  ends_after t m -> (forall a, ends_after t (k a)) -> ends_after t (m ≫= k).
Proof.
  intros Hm Hk es. destruct (Hm es) as (a & es1 & Hr). unfold mbind, io_bind. rewrite Hr.
  rewrite app_assoc. destruct (Hk a (es1 ++ es)) as (b & es2 & Hb). exists b, (es2 ++ es1).
  by rewrite Hb, <-!app_assoc.
Qed.
Lemma ends_after_ask {E A} (t : list E) (oracle : list E -> A) ev : ends_after t (ask oracle ev).
Proof. intros es. by exists (oracle (es ++ t)), [ev (oracle (es ++ t))]. Qed.

(** Follow a computation up to its loops and the start of its clocks. *)
Ltac ends :=
  repeat first
    [ progress cbn beta iota zeta
    | apply ends_after_ret
    | apply ends_after_ask
    | lazymatch goal with
      | |- ends_after _ (mbind (M := io _) _ instant_now) => fail
      | |- ends_after _ (mbind (M := io _) _ _) => apply ends_after_bind; [| intros ?]
      end
    | match goal with |- ends_after _ (match ?x with _ => _ end) => destruct x eqn:? end ].

Section termination.
Context `{!IgdHost} (n : nat) `{!IgdClock n}.
Hypothesis Hturns : (n < igd_turns)%nat.

(** A loop that waits in every turn but the last, and ends once the budget is
    spent. *)
Lemma loop_by_clock {S A} (body : S -> io igd_event (S + A)) t0 :
  (forall s t, exists r es, body s t = (Some r, es ++ t) /\
     match r with inl _ => (1 <= number waits es)%nat | inr _ => True end) ->
  (forall s es, (n <= number waits es)%nat -> exists a es', body s (es ++ t0) = (Some (inr a), es' ++ es ++ t0)) ->
  forall fuel s es, (0 < fuel)%nat -> (n < fuel + number waits es)%nat ->
    exists a es', loop fuel body s (es ++ t0) = (Some a, es' ++ es ++ t0).
Proof.
  intros Hbody Hlast fuel. induction fuel as [|fuel IH]; intros s es Hf Hn; [lia |].
  cbn [loop]. unfold mbind, io_bind. destruct (decide (n <= number waits es)%nat) as [Hle|Hlt].
  { destruct (Hlast s es Hle) as (a & es' & ->). by exists a, es'. }
  destruct (Hbody s (es ++ t0)) as ([s'|a] & es' & -> & Hw); [| by exists a, es'].
  rewrite app_assoc. destruct (IH s' (es' ++ es)) as (a & es2 & Hr); [lia | rewrite number_app; lia |].
  exists a, (es2 ++ es'). by rewrite Hr, <-!app_assoc.
Qed.

Lemma ssdp_turn_waits gw started budget replies t : exists r es, ssdp_turn gw started budget replies t = (Some r, es ++ t) /\
  match r with inl _ => (1 <= number waits es)%nat | inr _ => True end.
Proof.
  unfold ssdp_turn, instant_now, host_cancelled, host_deadline, recv_from, mbind, io_bind, ask. cbn beta iota zeta.
  destruct (negb _ || _); [eexists _, [_]; split; [reflexivity | done] |]. cbn beta iota zeta.
  destruct (ig_cancelled _); [eexists _, [_; _]; split; [reflexivity | done] |]. cbn beta iota zeta.
  destruct (ig_deadline _); [eexists _, [_; _; _]; split; [reflexivity | done] |]. cbn beta iota zeta.
  eexists _, [_; _; _; _]. split; [reflexivity |]. match goal with |- match ?x with _ => _ end => destruct x end; [cbn; lia | done].
Qed.

Lemma search_ends gw : forall t, ends_after t (loop igd_turns (ssdp_turn gw (ig_now t) IGD_SEARCH_BUDGET) []).
Proof.
  intros t es. destruct (loop_by_clock (ssdp_turn gw (ig_now t) IGD_SEARCH_BUDGET) (es ++ t)) with
    (fuel := igd_turns) (s := @nil string) (es := @nil igd_event) as (a & es' & Hr).
  - intros s t'. apply ssdp_turn_waits.
  - intros s es1 Hes. pose proof (clock_moves t (es1 ++ es)) as Hc. rewrite number_app, <-app_assoc in Hc.
    specialize (Hc ltac:(lia)). unfold ssdp_turn, instant_now, mbind, io_bind, ask. cbn beta iota zeta.
    rewrite (proj2 (Z.ltb_ge _ _)); [cbn [negb orb]; eexists _, [_]; reflexivity |].
    unfold saturating_duration_since, IGD_SEARCH_BUDGET, IGD_HTTP_BUDGET in *. lia.
  - lia.
  - lia.
  - exists a, es'. exact Hr.
Qed.

Lemma get_turn_waits started raw t : exists r es, get_turn started raw t = (Some r, es ++ t) /\
  match r with inl _ => (1 <= number waits es)%nat | inr _ => True end.
Proof.
  unfold get_turn, budget_left, instant_now, host_cancelled, host_deadline, tcp_timeout, mbind, io_bind, ask. cbn beta iota zeta.
  destruct (ig_cancelled _); [eexists _, [_]; split; [reflexivity | done] |]. cbn beta iota zeta.
  destruct (ig_deadline _); [eexists _, [_; _]; split; [reflexivity | done] |]. cbn beta iota zeta.
  unfold mret, io_ret. destruct (_ <? IGD_HTTP_BUDGET); cbn beta iota zeta; [| eexists _, [_; _; _]; split; [reflexivity | done]].
  destruct (ig_tcp_timeout _); cbn [negb]; cbn beta iota zeta; [| eexists _, [_; _; _; _]; split; [reflexivity | done]].
  eexists _, [_; _; _; _; _]. split; [reflexivity |]. match goal with |- match ?x with _ => _ end => destruct x end; [cbn; lia | done].
Qed.

Lemma fetch_ends t : ends_after t (loop igd_turns (get_turn (ig_now t)) EmptyString).
Proof.
  intros es. destruct (loop_by_clock (get_turn (ig_now t)) (es ++ t)) with
    (fuel := igd_turns) (s := EmptyString) (es := @nil igd_event) as (a & es' & Hr).
  - intros s t'. apply get_turn_waits.
  - intros s es1 Hes. unfold get_turn, budget_left, instant_now, host_cancelled, host_deadline, mbind, io_bind, ask.
    cbn beta iota zeta. destruct (ig_cancelled _); [eexists _, [_]; reflexivity |]. cbn beta iota zeta.
    destruct (ig_deadline _); [eexists _, [_; _]; reflexivity |]. cbn beta iota zeta.
    pose proof (clock_moves t ([IgDeadline false; IgCancelled false] ++ es1 ++ es)) as Hc.
    rewrite !number_app, <-!app_assoc in Hc. specialize (Hc ltac:(cbn; lia)). cbn [app] in Hc.
    unfold mret, io_ret. rewrite (proj2 (Z.ltb_ge _ _)); [eexists _, [_; _; _]; reflexivity |].
    unfold saturating_duration_since. lia.
  - lia.
  - lia.
  - exists a, es'. exact Hr.
Qed.

Lemma ends_now {A} t (k : Z -> io igd_event A) :
  (forall t', ends_after t' (k (ig_now t'))) -> ends_after t (instant_now ≫= k).
Proof.
  intros Hk es. destruct (Hk (es ++ t) [IgNow (ig_now (es ++ t))]) as (a & es' & Hr).
  exists a, (es' ++ [IgNow (ig_now (es ++ t))]). unfold instant_now, mbind, io_bind, ask.
  cbn beta iota zeta. cbn [app] in Hr. by rewrite Hr, <-app_assoc.
Qed.

Lemma budget_left_ends t started : ends_after t (budget_left started).
Proof. unfold budget_left. apply ends_now. intros t'. apply ends_after_ret. Qed.

Lemma exchange_ssdp_ends t gw destination index request :
  ends_after t (exchange_ssdp gw destination index request IGD_SEARCH_BUDGET).
Proof.
  unfold exchange_ssdp, host_cancelled, host_deadline, bind_multicast_interface. ends.
  apply ends_now. intros t'. apply search_ends.
Qed.

Lemma host_get_ends t url socket : ends_after t (host_get url socket).
Proof.
  unfold host_get, bounded_http_get, host_cancelled, host_deadline. ends.
  apply ends_now. intros t'. unfold tcp_timeout. ends; try apply budget_left_ends. apply fetch_ends.
Qed.

Lemma discover_ends `{!UrlApi, !UrlHost} g t : ends_after t (discover_igd_via_multicast g host_get).
Proof.
  assert (Hreply : forall reply s, ends_after t
    (@read_reply _ (multicast_seams (interface_index g) host_get) _ _ (gateway g) reply s)).
  { intros reply s. unfold read_reply, read_description. cbn [igd_cancelled igd_deadline igd_get multicast_seams].
    unfold host_cancelled, host_deadline. ends; try apply host_get_ends.
    match goal with H : parse_device_xml ?body = None |- _ => destruct (parse_device_total body) as (r & Hr & _) end.
    congruence. }
  assert (Hreplies : forall replies s, ends_after t
    (@read_replies _ (multicast_seams (interface_index g) host_get) _ _ (gateway g) replies s)).
  { induction replies as [|reply replies IH]; intros s; cbn [read_replies]; ends; auto. }
  unfold discover_igd_via_multicast, discover_igd. cbn [igd_cancelled igd_deadline igd_search multicast_seams].
  unfold host_cancelled, host_deadline, host_search. ends; [apply exchange_ssdp_ends | apply Hreplies].
Qed.

End termination.

(** ** The theorems *)

(** C27: the state of the device description reader is well typed at every moment:
    the depth is the number of open elements and at most sixteen, at most one open
    element collects text and at most one is a service, exactly while the reader is
    inside one, and texts and candidates are within their limits.  Every token keeps
    that, so the reader returns on every document, and an accepted document yields
    at most four candidates with short, non-empty control URLs. *)
Theorem device_parser_typed :
  (forall tok x x', parser_wf x -> device_step tok x = Ok x' -> parser_wf x') /\
  forall body, exists r, parse_device_xml body = Some r /\ forall candidates, r = Ok candidates ->
    len body <= IGD_XML_MAX_BYTES /\ (length candidates <= IGD_MAX_SERVICE_CANDIDATES)%nat /\
    Forall (fun c => short_text (sc_control_url c)) candidates.
Proof. split; [exact device_step_wf | exact parse_device_total]. Qed.

(** C26: a control point that discovery returns was advertised by the selected gateway,
    and the UPnP exchange can talk to it.  A datagram from the gateway names a place on
    the gateway; the GET of its path there was answered with a description, read before
    any other request, and the control point is the one selected from the services of
    that description.  Its port is real, its target is the http URL of a path on the
    gateway, at most 512 bytes long, and the destination check of the control exchange
    accepts it and leads to the gateway.  Whatever the host answers, discovery multicasts
    the fixed search at most once and otherwise only fetches, at most twice, paths from
    the gateway. *)
Theorem igd_discovery_safe `{!IgdHost, !UrlApi, !UrlHost, !IgdUrlLaws} g t :
  exists o es, discover_igd_via_multicast g host_get t = (o, es ++ t) /\
    Forall (traffic (gateway g)) es /\ (number is_search es <= 1)%nat /\
    (number is_fetch es <= IGD_MAX_DOCUMENT_FETCHES)%nat /\
    forall d, o = Some (IgdFound d) -> usable_control g d /\ advertised g d es.
Proof.
  destruct (discover_igd_keeps (interface_index g) g t) as (o & es & Hr & (Ht & Hs & Hf) & HQ).
  exists o, es. split_and!; try done. intros d ->. by apply (HQ _ eq_refl).
Qed.

(** C28: discovery ends: on a host whose clock passes the budget of an exchange within
    [n] receives and reads, more than [n] turns are enough for both loops, whatever
    is received, and an answer is returned. *)
Theorem igd_discovery_ends `{!IgdHost, !UrlApi, !UrlHost} n `{!IgdClock n} g t : (n < igd_turns)%nat ->
  exists r es, discover_igd_via_multicast g host_get t = (Some r, es ++ t).
Proof. intros Hn. exact (discover_ends n Hn g t []). Qed.

Lemma device_parser_typed_witness : parser_wf device_parser /\
  parse_device_xml sample_description = Some (Ok [{| sc_service := WanIpConnection; sc_control_url := "/c" |}]) /\
  short_text "/c".
Proof.
  destruct device_parser_typed as [Hstep Hparse].
  split; [apply (Hstep TokenComment device_parser); [exact device_parser_wf | reflexivity] |].
  split; [vm_compute; reflexivity |].
  destruct (Hparse sample_description) as (r & Hr & Hc).
  assert (He : parse_device_xml sample_description = Some (Ok [{| sc_service := WanIpConnection; sc_control_url := "/c" |}]))
    by (vm_compute; reflexivity).
  rewrite Hr in He. injection He as ->. destruct (Hc _ eq_refl) as (_ & _ & Hall).
  exact (Forall_inv Hall).
Defined.

Lemma sample_igd_laws : @IgdUrlLaws sample_igd_urls sample_igd_host_parts.
Proof.
  assert (Hp : forall raw url, @url_parse sample_igd_urls raw = Some url -> url = sample_control).
  { intros raw url. cbn. destruct (raw =s sample_control_url); congruence. }
  constructor.
  - intros raw url ->%Hp _. by exists "c".
  - intros url port [= <-]. unfold u16_max. lia.
  - intros raw url host port ->%Hp _ [= <-] [= <-] _. exists sample_control. by split_and!.
Qed.

Definition sample_found : IgdControlDescriptor :=
  {| igd_service := WanIpConnection; igd_gateway := ipv4 192 168 1 1; igd_port := 80; path_and_query := "/c" |}.

Lemma igd_discovery_safe_witness : exists es, sample_discovery = (Some (IgdFound sample_found), es) /\
  @usable_control sample_igd_urls sample_igd_host_parts sample_router sample_found /\
  @advertised sample_igd_urls sample_igd_host_parts sample_router sample_found es.
Proof.
  destruct (@igd_discovery_safe sample_igd_host sample_igd_urls sample_igd_host_parts sample_igd_laws sample_router [])
    as (o & es & Hr & _ & _ & _ & Hfound).
  rewrite app_nil_r in Hr. change (sample_discovery = (o, es)) in Hr.
  assert (Hok : fst sample_discovery = Some (IgdFound sample_found)) by (vm_compute; reflexivity).
  rewrite Hr in Hok. cbn in Hok. subst o. exists es. split; [exact Hr |]. exact (Hfound _ eq_refl).
Defined.

Lemma sample_igd_clock : @IgdClock sample_igd_host 4.
Proof.
  intros t es Hes. cbn [ig_now sample_igd_host]. rewrite List.filter_app, length_app.
  unfold number in Hes. unfold IGD_HTTP_BUDGET, from_millis, NANOS_PER_MILLI.
  change waits with (fun e => match e with IgRecv _ | IgRead _ => true | _ => false end) in Hes. lia.
Qed.

Lemma igd_discovery_ends_witness : exists r es, sample_discovery = (Some r, es).
Proof.
  destruct (@igd_discovery_ends sample_igd_host sample_igd_urls sample_igd_host_parts 4 sample_igd_clock sample_router [])
    as (r & es & Hr); [cbn; lia |].
  rewrite app_nil_r in Hr. exists r, es. exact Hr.
Defined.
