(* ===== verification/LogConfig.v ===== *)
(** * The log sink configuration

    The first half of [logging.rs]: the Blackbox configuration a deployment delivers,
    its parsing and binding to the bootstrap response, the two serializations of a job
    id, and the decision whether logging is attached. *)
From Stdlib Require Import Ascii.
From stdpp Require Import prelude strings pretty.
From S2P Require Import Prelude Decimal Json World Protocol Evidence.

Local Open Scope Z_scope.

(** ** Data *)

Definition BLACKBOX_CONFIG_ENV : string := "BLACKBOX_LOG_CONFIG".
Definition BLACKBOX_CONFIG_DOMAIN_V2 : string := "proof.liskov.blackbox-log-config.v2".
Definition WRITER_KEY_DERIVATION : string := "hkdf-sha256-ed25519-v1".

Definition BLACKBOX_ENV_NAMES : list string :=
  ["BLACKBOX_LOG_CONFIG"; "BLACKBOX_SINK_ID"; "BLACKBOX_JOB_ID"; "BLACKBOX_WRITE_URL"; "BLACKBOX_RESUME_URL";
   "BLACKBOX_LOG_DEK"; "BLACKBOX_LOG_CONTEXT"; "BLACKBOX_LOG_TIMEOUT_MS"; "BLACKBOX_FACTORY_TOKEN";
   "BLACKBOX_FACTORY_ID"; "BLACKBOX_BASE_URL"; "BLACKBOX_SPOOL_DIR"; "BLACKBOX_NETWORK";
   "BLACKBOX_APPLICATION_UID"; "BLACKBOX_APPLICATION_ID"; "BLACKBOX_DEPLOYMENT_ID";
   "BLACKBOX_WRITER_KEY_DERIVATION"; "BLACKBOX_RUNTIME_INSTANCE_ID"].

Definition is_blackbox_environment_name (name : string) : bool := existsb (str_eqb name) BLACKBOX_ENV_NAMES.

Inductive SinkMode :=
| Prebound (sink_id job_id write_url resume_url : string)
| Factory (factory_token factory_id base_url job_id : string) (network : option string)
    (application_uid application_id deployment_id : string).

Record BlackboxConfig := {
  bc_mode : SinkMode;
  bc_dek : string;
  bc_context : option string;
  bc_timeout : Z
}.

Record RuntimeLabels := {
  lb_application_uid : string;
  lb_deployment_id : string;
  lb_runtime_instance_id : string
}.

Definition runtime_labels_from (bootstrap : RuntimeBootstrapResponse) : RuntimeLabels :=
  {| lb_application_uid := rb_application_uid bootstrap; lb_deployment_id := rb_deployment_id bootstrap;
     lb_runtime_instance_id := rb_runtime_instance_id bootstrap |}.

(** The padded alphabet of the base64 crate, and [form_urlencoded::byte_serialize]. *)
Class Base64Standard := {
  base64_standard_decode : string -> option string;
  base64_standard_encode : string -> string
}.
Class UrlForm := byte_serialize : string -> string.

(** ** Texts *)

(** [str::strip_suffix]. *)
Definition strip_suffix (p s : string) : option string := str_rev <$> strip_prefix (str_rev p) (str_rev s).

(** [str::trim_end_matches] with a one-byte pattern or a set of them. *)
Fixpoint drop_while (p : ascii -> bool) (s : string) : string :=
  match s with
  | EmptyString => EmptyString
  | String a rest => if p a then drop_while p rest else s
  end.
Definition trim_end_matches (p : ascii -> bool) (s : string) : string := str_rev (drop_while p (str_rev s)).

(** [value[index]] on an array. *)
Definition value_at (index : nat) (v : Value) : Value :=
  match v with Arr items => default Null (items !! index) | _ => Null end.

Definition find_field {A} (f : string -> option A) (names : list string) : option A :=
  foldr (fun name rest => match f name with Some a => Some a | None => rest end) None names.

Definition field (object : list (string * Value)) (names : list string) : option string :=
  find_field (fun name =>
    opt_filter (fun value => negb (str_is_empty value)) (v ← btree_get name object; as_str v)) names.

Definition integer_field (object : list (string * Value)) (names : list string) : option Z :=
  find_field (fun name =>
    value ← btree_get name object;
    match as_u64 value with
    | Some n => Some n
    | None => text ← as_str value; parse_unsigned u64_max text
    end) names.

Definition derive_resume_url (write_url : string) : option string :=
  (fun prefix => prefix +:+ "/resume") <$> strip_suffix "/events" write_url.

Definition factory_id_byte (a : ascii) : bool :=
  is_ascii_alphanumeric a || byte_is 46 a || byte_is 58 a || byte_is 45 a.

Definition parse_factory_id (token : string) : option string :=
  rest ← strip_prefix "bbx_sf_" token;
  '(factory_id, secret) ← split_once "_" rest;
  then_some (negb (str_is_empty factory_id) && negb (str_is_empty secret) && (len factory_id <=? 128)
             && bytes_all factory_id_byte factory_id) factory_id.

Section config.
Context `{!JsonText, !UrlApi, !Encodings, !HexDecode, !Base64Standard}.

Definition normalized_https_url (value : string) : result string unit :=
  let? url := ok_or tt (url_parse value) in
  if negb (url_scheme url =s "https") || opt_is_none (url_host_str url) || negb (str_is_empty (url_username url))
     || opt_is_some (url_password url) || opt_is_some (url_fragment url)
  then Err tt
  else Ok (url_as_str url).

Definition parse_config_value (raw : string) : result Value unit :=
  let trimmed := trim raw in
  if starts_with "{" trimmed then ok_or tt (from_str trimmed)
  else
    match (decoded ← base64_url_safe_no_pad_decode trimmed; from_str decoded) with
    | Some value => Ok value
    | None => ok_or tt (decoded ← base64_standard_decode trimmed; from_str decoded)
    end.

(** ** Job ids *)

(** The bytes of the chain form: an array of integers below 256. *)
Fixpoint source_bytes (items : list Value) : option (list Z) :=
  match items with
  | [] => Some []
  | item :: items => n ← as_u64 item; b ← u8_try_from n; rest ← source_bytes items; Some (b :: rest)
  end.

(** [(origin source bytes, sequence)]. *)
Definition parse_job_ref (raw : string) : option (list Z * Z) :=
  value ← from_str (trim raw);
  match as_array value with
  | Some items =>
      origin ← head items;
      if negb (bool_decide (as_str (value_index "name" origin) = Some "Acurast")) then None
      else
        items' ← as_array (value_at 0 (value_at 0 (value_index "values" origin)));
        if negb (length items' =? 32)%nat then None
        else
          source ← source_bytes items';
          sequence ← (v ← items !! 1%nat; as_u64 v);
          Some (source, sequence)
  | None =>
      object ← as_object value;
      origin ← btree_get "origin" object;
      if negb (bool_decide (as_str (value_index "kind" origin) = Some "Acurast")) then None
      else
        source_text ← as_str (value_index "source" origin);
        decoded ← hex_decode (default source_text (strip_prefix "0x" source_text));
        if negb (len decoded =? 32) then None
        else
          id ← btree_get "id" object;
          sequence ← match as_u64 id with
                     | Some n => Some n
                     | None => text ← as_str id; parse_unsigned u64_max text
                     end;
          Some (map byte (bytes decoded), sequence)
  end.

Definition job_ids_equivalent (left_id right_id : string) : bool :=
  if left_id =s right_id then true
  else
    match parse_job_ref left_id, parse_job_ref right_id with
    | Some a, Some b => bool_decide (a = b)
    | _, _ => false
    end.

(** ** The configuration *)

(** A present field that differs from what the bootstrap says. *)
Definition differs (expected : string) (o : option string) : bool :=
  is_some_and o (fun value => negb (value =s expected)).

Definition context_text (value : Value) : string :=
  match as_str value with Some s => s | None => canonical_json_bytes value end.

Definition config_timeout (object : list (string * Value)) : Z :=
  from_millis
    (Z.min (default 5000 (opt_filter (fun timeout => 0 <? timeout)
                            (integer_field object ["timeoutMs"; "flushTimeoutMs"]))) 5000).

Definition prebound_mode (object : list (string * Value)) (bootstrap : RuntimeBootstrapResponse) (sink_id : string)
  : result SinkMode unit :=
  let? job_id := ok_or tt (field object ["jobId"; "jid"; "job"]) in
  if negb (job_ids_equivalent job_id (rb_job_id bootstrap)) then Err tt
  else
    let? raw_write := ok_or tt (field object ["writeUrl"; "url"]) in
    let? write_url := normalized_https_url raw_write in
    let? resume_url := match field object ["resumeUrl"] with
                       | Some url => normalized_https_url url
                       | None => ok_or tt (derive_resume_url write_url)
                       end in
    Ok (Prebound sink_id job_id write_url resume_url).

Definition factory_mode (object : list (string * Value)) (bootstrap : RuntimeBootstrapResponse)
    (application_uid application_id : option string) (factory_token : string) : result SinkMode unit :=
  let? factory_id := ok_or tt (match field object ["factoryId"; "fid"] with
                               | Some id => Some id
                               | None => parse_factory_id factory_token
                               end) in
  let? raw_base := ok_or tt (field object ["baseUrl"; "base"]) in
  let? base_url := normalized_https_url raw_base in
  let job_id := default (rb_job_id bootstrap) (field object ["jobId"; "jid"; "job"]) in
  if negb (job_ids_equivalent job_id (rb_job_id bootstrap)) then Err tt
  else
    Ok (Factory factory_token factory_id base_url job_id (field object ["network"; "net"])
          (default (rb_application_uid bootstrap) application_uid)
          (default (rb_application_id bootstrap) application_id)
          (default (rb_deployment_id bootstrap) (field object ["deploymentId"; "dep"]))).

(** [BlackboxConfig::parse]. *)
Definition parse_blackbox_config (raw : string) (bootstrap : RuntimeBootstrapResponse)
  : result BlackboxConfig unit :=
  let? value := parse_config_value raw in
  let? object := ok_or tt (as_object value) in
  let domain := field object ["domain"; "d"] in
  if differs BLACKBOX_CONFIG_DOMAIN_V2 domain then Err tt
  else
    let application_uid := field object ["applicationUid"; "uid"] in
    let application_id := field object ["applicationId"; "app"] in
    if bool_decide (domain = Some BLACKBOX_CONFIG_DOMAIN_V2)
       && (opt_is_none application_uid || opt_is_none application_id)
    then Err tt
    else if differs (rb_application_uid bootstrap) application_uid
            || differs (rb_application_id bootstrap) application_id
            || differs (rb_deployment_id bootstrap) (field object ["deploymentId"; "dep"])
    then Err tt
    else if differs WRITER_KEY_DERIVATION (field object ["writerKeyDerivation"; "wkd"]) then Err tt
    else
      let? dek_text := ok_or tt (field object ["dek"; "k"; "logDek"]) in
      let? dek := ok_or tt (opt_filter (fun dek => len dek =? 32) (base64_url_safe_no_pad_decode dek_text)) in
      let context := context_text <$> (match btree_get "context" object with
                                       | Some value => Some value
                                       | None => btree_get "ctx" object
                                       end) in
      let? mode := match field object ["sinkId"; "sid"], field object ["factoryToken"; "ft"] with
                   | Some sink_id, None => prebound_mode object bootstrap sink_id
                   | None, Some factory_token =>
                       factory_mode object bootstrap application_uid application_id factory_token
                   | _, _ => Err tt
                   end in
      Ok {| bc_mode := mode; bc_dek := dek; bc_context := context; bc_timeout := config_timeout object |}.

(** ** Attaching *)

Definition select_blackbox_config (runtime_environment : list (string * string)) (inherited : option string)
  : option string :=
  match btree_get BLACKBOX_CONFIG_ENV runtime_environment with
  | Some raw => Some raw
  | None => inherited
  end.

Definition runtime_ssh_log_identity (bootstrap : RuntimeBootstrapResponse) : string * string :=
  match provider_kind <$> rb_access bootstrap with
  | Some Liskov => ("liskov", "connector")
  | _ => ("tailscale", "tailscaled")
  end.

(** What [LoggingController::from_environment] builds: the worker's configuration,
    whether its transport is the outage canary, and, when provider logs are on, the
    raw window's end and the identity of the provider. *)
Record Attachment := {
  at_config : BlackboxConfig;
  at_labels : RuntimeLabels;
  at_outage_canary : bool;
  at_runtime_ssh : option (option Z * (string * string))
}.

Definition raw_window (bootstrap : RuntimeBootstrapResponse) (now_ms : Z) : option (option Z) :=
  match provider_log_mode bootstrap now_ms with
  | Disabled => None
  | Sanitized => Some None
  | RawTailscaledStderr => Some (provider_log_expiry_ms bootstrap)
  end.

(** [LoggingController::from_environment], given the inherited variable, the clock
    and whether the worker thread could be started. *)
Definition logging_from_environment (bootstrap : RuntimeBootstrapResponse)
    (runtime_environment : list (string * string)) (inherited : option string) (now_ms : Z) (spawned : bool)
  : option Attachment * string :=
  if negb (logging_enabled bootstrap) then (None, "disabled_by_policy")
  else
    match select_blackbox_config runtime_environment inherited with
    | None => (None, "config_missing")
    | Some raw =>
        match parse_blackbox_config raw bootstrap with
        | Err _ => (None, "config_invalid")
        | Ok config =>
            if negb spawned then (None, "worker_spawn_failed")
            else
              (Some {| at_config := config; at_labels := runtime_labels_from bootstrap;
                       at_outage_canary := logging_outage_canary_enabled bootstrap;
                       at_runtime_ssh := (fun expiry => (expiry, runtime_ssh_log_identity bootstrap))
                                           <$> raw_window bootstrap now_ms |},
               "attached")
        end
    end.

End config.

(** ** Examples *)

Definition sample_chain_job : Value :=
  Arr [jobj [("name", Str "Acurast"); ("values", Arr [Arr [Arr (replicate 32 (jint 97))]])]; jint 7].
Definition sample_structured_job : Value :=
  jobj [("id", Str "7"); ("origin", jobj [("kind", Str "Acurast"); ("source", Str ("0x" +:+ repeat_byte 32 "a"))])].
Definition sample_config_json : Value :=
  jobj [("domain", Str BLACKBOX_CONFIG_DOMAIN_V2); ("applicationUid", Str "app-uid-1"); ("applicationId", Str "app-1");
        ("dek", Str (repeat_byte 32 "k")); ("timeoutMs", jint 2500); ("sinkId", Str "sink"); ("jobId", Str "chain");
        ("writeUrl", Str "https://logs.test/events")].
Definition sample_log_text : JsonText :=
  {| to_vec := fun _ => "null"; to_vec_fields := fun _ => "null";
     from_str := fun s => if s =s "chain" then Some sample_chain_job
                          else if s =s "job" then Some sample_structured_job
                          else if s =s "{config}" then Some sample_config_json else None |}.
Definition sample_log_bootstrap : RuntimeBootstrapResponse :=
  {| rb_ok := true; rb_domain := "d"; rb_application_uid := "app-uid-1"; rb_application_id := "app-1";
     rb_policy_digest := "ab"; rb_deployment_id := "dep-1"; rb_job_id := "job"; rb_processor_id := "5Proc";
     rb_runtime_instance_id := "n"; rb_slipway_url := "https://s.test"; rb_runtime_env := None; rb_secrets := None;
     rb_supervision := None; rb_logging := Some (jobj [("enabled", Bool true)]); rb_logging_outage_canary := false;
     rb_diagnostics := None; rb_access := None; rb_processor_facts := None; rb_fact_authorization := None |}.
Definition sample_hex_decode : HexDecode := fun s => Some s.
Definition sample_base64 : Base64Standard :=
  {| base64_standard_decode := fun s => Some s; base64_standard_encode := fun s => s |}.

(** * Properties *)

(** ** Binding *)

Lemma differs_false expected o : differs expected o = false -> forall value, o = Some value -> value = expected.
Proof. intros Hd value ->. cbn in Hd. apply negb_false_iff in Hd. by apply str_eqb_eq. Qed.

Section binding.
Context `{!JsonText, !UrlApi, !Encodings, !HexDecode, !Base64Standard}.

(** The text of an https URL with a host and without credentials or a fragment. *)
Definition https_url (text : string) : Prop :=
  exists raw url, url_parse raw = Some url /\ url_scheme url = "https" /\ url_host_str url <> None /\
    url_username url = EmptyString /\ url_password url = None /\ url_fragment url = None /\ text = url_as_str url.

Lemma normalized_https_url_Ok value text : normalized_https_url value = Ok text -> https_url text.
Proof.
  unfold normalized_https_url. destruct (url_parse value) as [url|] eqn:Hp; [cbn | done].
  destruct (str_eqb_spec (url_scheme url) "https"); [cbn | done].
  destruct (url_host_str url) eqn:Hh; [cbn | done].
  destruct (url_username url) eqn:Hu; [cbn | done].
  destruct (url_password url) eqn:Hpw; [done | cbn].
  destruct (url_fragment url) eqn:Hf; [done | cbn]. intros [= <-].
  exists value, url. by split_and!; try congruence.
Qed.

Definition mode_bound (b : RuntimeBootstrapResponse) (mode : SinkMode) : Prop :=
  match mode with
  | Prebound _ job_id write_url resume_url =>
      job_ids_equivalent job_id (rb_job_id b) = true /\ https_url write_url /\
      (https_url resume_url \/ derive_resume_url write_url = Some resume_url)
  | Factory _ _ base_url job_id _ application_uid application_id deployment_id =>
      job_ids_equivalent job_id (rb_job_id b) = true /\ https_url base_url /\
      application_uid = rb_application_uid b /\ application_id = rb_application_id b /\
      deployment_id = rb_deployment_id b
  end.

Lemma prebound_mode_bound object b sink_id mode : prebound_mode object b sink_id = Ok mode -> mode_bound b mode.
Proof.
  unfold prebound_mode. destruct (field object _) as [job_id|]; [cbn [ok_or negb] | done].
  destruct (job_ids_equivalent job_id _) eqn:Hj; [cbn [ok_or negb] | done].
  destruct (field object ["writeUrl"; "url"]) as [raw|]; [cbn [ok_or negb] | done].
  destruct (normalized_https_url raw) as [write_url|] eqn:Hw; [| done]. apply normalized_https_url_Ok in Hw.
  destruct (field object ["resumeUrl"]) as [url|].
  - destruct (normalized_https_url url) as [resume_url|] eqn:Hr; [| done]. apply normalized_https_url_Ok in Hr.
    intros [= <-]. cbn. auto.
  - destruct (derive_resume_url write_url) eqn:Hr; [| done]. intros [= <-]. cbn. auto.
Qed.

Lemma default_bound expected o : differs expected o = false -> default expected o = expected.
Proof. destruct o; [intros Hd; exact (differs_false _ _ Hd _ eq_refl) | done]. Qed.

Lemma factory_mode_bound object b uid id token mode :
  differs (rb_application_uid b) uid = false -> differs (rb_application_id b) id = false ->
  differs (rb_deployment_id b) (field object ["deploymentId"; "dep"]) = false ->
  factory_mode object b uid id token = Ok mode -> mode_bound b mode.
Proof.
  intros Hu Hi Hd. unfold factory_mode. destruct (ok_or tt _) as [fid|]; [| done].
  destruct (field object ["baseUrl"; "base"]) as [raw|]; [cbn [ok_or negb] | done].
  destruct (normalized_https_url raw) as [base|] eqn:Hb; [| done]. apply normalized_https_url_Ok in Hb.
  destruct (job_ids_equivalent _ _) eqn:Hj; [| done]. intros [= <-]. cbn. split_and!; auto using default_bound.
Qed.

Lemma config_timeout_bounds object : 0 < config_timeout object <= from_millis 5000.
Proof.
  unfold config_timeout, from_millis, NANOS_PER_MILLI.
  destruct (integer_field object _) as [timeout|]; cbn; [| lia].
  destruct (0 <? timeout) eqn:Ht; cbn; lia.
Qed.

(** C25: an accepted log configuration is bound to the bootstrap response: every
    application, deployment or job id it names is the bootstrap's, a version 2 object
    names both application ids, its key has 32 bytes, its timeout is positive and at
    most five seconds, and each URL of its sink is https, with a host and without
    credentials or a fragment, or derived from one. *)
Theorem blackbox_config_bound raw b config : parse_blackbox_config raw b = Ok config ->
  exists object, parse_config_value raw = Ok (Obj object) /\
    (forall d, field object ["domain"; "d"] = Some d -> d = BLACKBOX_CONFIG_DOMAIN_V2 /\
       field object ["applicationUid"; "uid"] = Some (rb_application_uid b) /\
       field object ["applicationId"; "app"] = Some (rb_application_id b)) /\
    (forall id, field object ["applicationUid"; "uid"] = Some id -> id = rb_application_uid b) /\
    (forall id, field object ["applicationId"; "app"] = Some id -> id = rb_application_id b) /\
    (forall id, field object ["deploymentId"; "dep"] = Some id -> id = rb_deployment_id b) /\
    len (bc_dek config) = 32 /\ 0 < bc_timeout config <= from_millis 5000 /\ mode_bound b (bc_mode config).
Proof.
  unfold parse_blackbox_config. destruct (parse_config_value raw) as [value|]; [| done].
  destruct value as [| | | | |object]; try done. cbn [as_object ok_or].
  destruct (differs _ (field object ["domain"; "d"])) eqn:Hdom; [done |]. set (uid := field object ["applicationUid"; "uid"]).
  set (id := field object ["applicationId"; "app"]). destruct (_ && _) eqn:Hv2; [done |].
  destruct (differs _ uid) eqn:Huid; [done |]. destruct (differs _ id) eqn:Hid; [done |].
  destruct (differs _ (field object ["deploymentId"; "dep"])) eqn:Hdep; [done |]. cbn [orb].
  destruct (differs WRITER_KEY_DERIVATION _); [done |]. destruct (field object ["dek"; "k"; "logDek"]) as [dek_text|]; [cbn [ok_or] | done].
  destruct (opt_filter _ _) as [dek|] eqn:Hdek; [cbn [ok_or] | done].
  match goal with |- match ?m with Ok _ => _ | Err _ => _ end = _ -> _ => destruct m as [mode|] eqn:Hm; [| done] end.
  intros [= <-]. exists object. cbn [bc_dek bc_timeout bc_mode].
  pose proof (differs_false _ _ Hdom) as Hd. pose proof (differs_false _ _ Huid) as Hu.
  pose proof (differs_false _ _ Hid) as Hi. pose proof (config_timeout_bounds object).
  split; [done |]. split; [| split_and!; [exact Hu | exact Hi | exact (differs_false _ _ Hdep) | | lia | lia |]].
  - intros d Hf. rewrite Hf in Hv2. pose proof (Hd d Hf) as ->. rewrite bool_decide_true in Hv2 by done.
    fold uid id. destruct uid as [u|]; [| done]. destruct id as [i|]; [| done].
    by rewrite (Hu u eq_refl), (Hi i eq_refl).
  - destruct (base64_url_safe_no_pad_decode dek_text) as [x|]; cbn in Hdek; [| done].
    destruct (len x =? 32) eqn:Hl; [| done]. injection Hdek as <-. by apply Z.eqb_eq.
  - destruct (field object ["sinkId"; "sid"]), (field object ["factoryToken"; "ft"]); try done;
      eauto using prebound_mode_bound, factory_mode_bound.
Qed.

End binding.

(** ** Job ids *)

(** The two serializations of a job: the chain's and this runtime's. *)
Definition chain_form (source : string) (sequence : Z) : Value :=
  Arr [jobj [("name", Str "Acurast"); ("values", Arr [Arr [Arr (map (fun a => jint (byte a)) (bytes source))]])];
       jint sequence].
Definition structured_form (source_text : string) (sequence : Z) : Value :=
  jobj [("id", Str (pretty sequence)); ("origin", jobj [("kind", Str "Acurast"); ("source", Str source_text)])].

Section job_ids.
Context `{!JsonText, !HexDecode}.

Definition names_job (text source : string) (sequence : Z) : Prop :=
  len source = 32 /\ is_u64 sequence /\
  (from_str (trim text) = Some (chain_form source sequence) \/
   exists source_text, from_str (trim text) = Some (structured_form source_text sequence) /\
     hex_decode (default source_text (strip_prefix "0x" source_text)) = Some source).

Lemma byte_bounds a : 0 <= byte a <= 255.
Proof. unfold byte. pose proof (N_ascii_bounded a). lia. Qed.

#[local] Instance byte_inj : Inj (=) (=) byte.
Proof. intros a b Hab. unfold byte in Hab. rewrite <-(ascii_N_embedding a), <-(ascii_N_embedding b). f_equal. lia. Qed.

Lemma map_byte_bytes s s' : map byte (bytes s) = map byte (bytes s') -> s = s'.
Proof. intros Hm. apply bytes_inj. exact (inj (fmap byte) _ _ Hm). Qed.

Lemma source_bytes_chain l : source_bytes (map (fun a => jint (byte a)) l) = Some (map byte l).
Proof.
  induction l as [|a l IH]; [done |]. pose proof (byte_bounds a). cbn [map source_bytes]. rewrite IH.
  unfold jint. rewrite (proj2 (Z.leb_le 0 (byte a))) by lia. cbn [as_u64 mbind option_bind].
  unfold u8_try_from, u8_max. by rewrite (proj2 (Z.leb_le 0 (byte a))), (proj2 (Z.leb_le (byte a) _)) by lia.
Qed.

Lemma parse_job_ref_names text source sequence :
  names_job text source sequence -> parse_job_ref text = Some (map byte (bytes source), sequence).
Proof.
  intros (Hlen & Hseq & [Ht | (source_text & Ht & Hs)]); unfold parse_job_ref; rewrite Ht; cbn [mbind option_bind].
  - unfold chain_form. set (items := map _ (bytes source)). cbn [as_array head mbind option_bind].
    change (value_index "name" _) with (Str "Acurast").
    change (value_at 0 (value_at 0 (value_index "values" _))) with (Arr items). cbn [as_array mbind option_bind as_str].
    assert (length items = 32%nat) as -> by (unfold items; rewrite length_map; rewrite bytes_len in Hlen; lia).
    rewrite bool_decide_true by done. unfold items. rewrite source_bytes_chain. cbn -[byte bytes].
    unfold is_u64 in Hseq. unfold jint. by rewrite (proj2 (Z.leb_le 0 sequence)) by lia.
  - change (as_array (structured_form source_text sequence)) with (@None (list Value)). cbn iota.
    change (as_object (structured_form source_text sequence)) with (Some [("id", Str (pretty sequence));
      ("origin", jobj [("kind", Str "Acurast"); ("source", Str source_text)])]). cbn [mbind option_bind].
    change (btree_get "origin" _) with (Some (jobj [("kind", Str "Acurast"); ("source", Str source_text)])).
    cbn [mbind option_bind]. change (value_index "kind" _) with (Str "Acurast").
    change (value_index "source" _) with (Str source_text). cbn [as_str mbind option_bind].
    rewrite bool_decide_true by done. cbn [negb]. rewrite Hs. cbn [mbind option_bind]. rewrite Hlen.
    change (btree_get "id" _) with (Some (Str (pretty sequence))). cbn [Z.eqb Pos.eqb negb mbind option_bind as_u64 as_str].
    by rewrite parse_unsigned_pretty by (unfold is_u64 in Hseq; lia).
Qed.

Lemma job_ids_equivalent_iff a b : job_ids_equivalent a b = true <->
  a = b \/ exists r, parse_job_ref a = Some r /\ parse_job_ref b = Some r.
Proof.
  unfold job_ids_equivalent. destruct (str_eqb_spec a b) as [->|Hne]; [split; auto |].
  destruct (parse_job_ref a) as [ra|], (parse_job_ref b) as [rb|]; rewrite ?bool_decide_eq_true; naive_solver.
Qed.

(** Job id comparison identifies jobs, not encodings: it is an equivalence
    relation, and two texts that serialize jobs, in the chain's form or in this
    runtime's, are equivalent exactly when origin and sequence are the same. *)
Theorem job_ids_identify_jobs :
  (forall a, job_ids_equivalent a a = true) /\
  (forall a b, job_ids_equivalent a b = job_ids_equivalent b a) /\
  (forall a b c, job_ids_equivalent a b = true -> job_ids_equivalent b c = true -> job_ids_equivalent a c = true) /\
  forall a b source source' sequence sequence',
    names_job a source sequence -> names_job b source' sequence' ->
    (job_ids_equivalent a b = true <-> source = source' /\ sequence = sequence').
Proof.
  split_and!.
  - intros a. apply job_ids_equivalent_iff. by left.
  - intros a b. apply eq_true_iff_eq. rewrite !job_ids_equivalent_iff. naive_solver.
  - intros a b c. rewrite !job_ids_equivalent_iff. naive_solver congruence.
  - intros a b source source' sequence sequence' Ha Hb. rewrite job_ids_equivalent_iff.
    apply parse_job_ref_names in Ha, Hb. rewrite Ha, Hb. split.
    + intros [-> | (r & Hr & Hr')].
      * rewrite Ha in Hb. injection Hb as Hs Hq. split; [by apply map_byte_bytes | done].
      * split; [apply map_byte_bytes; congruence | congruence].
    + intros [-> ->]. eauto.
Qed.

End job_ids.

Lemma blackbox_config_bound_witness :
  exists config, @parse_blackbox_config sample_log_text sample_urls sample_encodings sample_hex_decode sample_base64
    "{config}" sample_log_bootstrap = Ok config /\
  bc_timeout config = from_millis 2500 /\
  @mode_bound sample_log_text sample_urls sample_hex_decode sample_log_bootstrap (bc_mode config).
Proof.
  destruct (@parse_blackbox_config sample_log_text sample_urls sample_encodings sample_hex_decode sample_base64
    "{config}" sample_log_bootstrap) as [config|] eqn:Hc; [| by vm_compute in Hc].
  pose proof (@blackbox_config_bound sample_log_text sample_urls sample_encodings sample_hex_decode sample_base64
    "{config}" sample_log_bootstrap config Hc) as (object & _ & _ & _ & _ & _ & _ & _ & Hm).
  exists config. split; [done |]. split; [| exact Hm].
  vm_compute in Hc. injection Hc as <-. vm_compute. reflexivity.
Defined.

Lemma job_ids_identify_jobs_witness :
  @job_ids_equivalent sample_log_text sample_hex_decode "chain" "job" = true.
Proof.
  destruct (@job_ids_identify_jobs sample_log_text sample_hex_decode) as (_ & _ & _ & Hsame).
  apply (Hsame "chain" "job" (repeat_byte 32 "a") (repeat_byte 32 "a") 7 7); [| | done].
  - split; [vm_compute; reflexivity |]. split; [unfold is_u64, u64_max; lia |]. left. vm_compute. reflexivity.
  - split; [vm_compute; reflexivity |]. split; [unfold is_u64, u64_max; lia |]. right.
    exists ("0x" +:+ repeat_byte 32 "a"). split; vm_compute; reflexivity.
Defined.
