(* ===== verification/LogRedact.v ===== *)
(** * Redaction of provider output

    [sanitize_tailscaled_line] of [logging.rs]: a line of the provider's standard error
    is cut to its limit and decoded, and the auth key, the values after the known
    markers and the user information of URLs are replaced before the line is logged. *)
From Stdlib Require Import Ascii.
From stdpp Require Import prelude strings list.
From S2P Require Import Prelude Utf8 Gateway LogConfig.

Local Open Scope Z_scope.

Definition RUNTIME_SSH_LINE_BYTES : Z := 8 * 1024.

(** ** Decoding

    [String::from_utf8_lossy]: after a lead byte as many continuation bytes are taken
    as its ranges allow; what does not complete a character becomes one U+FFFD. *)

Definition REPLACEMENT : list ascii := bytes (utf8 [239; 191; 189]%N).

Definition utf8_tail (a : ascii) : option (list (Z * Z)) :=
  if byte_between 0 127 a then Some []
  else if byte_between 194 223 a then Some [(128, 191)]
  else if byte_is 224 a then Some [(160, 191); (128, 191)]
  else if byte_between 225 236 a || byte_between 238 239 a then Some [(128, 191); (128, 191)]
  else if byte_is 237 a then Some [(128, 159); (128, 191)]
  else if byte_is 240 a then Some [(144, 191); (128, 191); (128, 191)]
  else if byte_between 241 243 a then Some [(128, 191); (128, 191); (128, 191)]
  else if byte_is 244 a then Some [(128, 143); (128, 191); (128, 191)]
  else None.

(** The continuation bytes taken, whether they are complete, and the rest. *)
Fixpoint take_tail (ranges : list (Z * Z)) (l : list ascii) : list ascii * bool * list ascii :=
  match ranges, l with
  | [], _ => ([], true, l)
  | (lo, hi) :: ranges, a :: rest =>
      if byte_between lo hi a then let '(taken, ok, rest) := take_tail ranges rest in (a :: taken, ok, rest)
      else ([], false, l)
  | _ :: _, [] => ([], false, l)
  end.

(** Every turn consumes a byte: the length is enough fuel. *)
Fixpoint lossy_from (fuel : nat) (l : list ascii) : list ascii :=
  match fuel, l with
  | S fuel, a :: rest =>
      match utf8_tail a with
      | None => REPLACEMENT ++ lossy_from fuel rest
      | Some ranges =>
          let '(taken, ok, rest) := take_tail ranges rest in
          (if ok : bool then a :: taken else REPLACEMENT) ++ lossy_from fuel rest
      end
  | _, _ => []
  end.
Definition from_utf8_lossy (l : list ascii) : list ascii := lossy_from (length l) l.

(** ** Searching *)

(** The first place where the bytes, seen through [f], are [needle]: what is before
    it, what matched, and what is after it. *)
Fixpoint find_from (f : ascii -> ascii) (needle l : list ascii) : option (list ascii * list ascii * list ascii) :=
  if bool_decide (map f (take (length needle) l) = needle)
  then Some ([], take (length needle) l, drop (length needle) l)
  else
    match l with
    | [] => None
    | a :: l => '(before, matched, after) ← find_from f needle l; Some (a :: before, matched, after)
    end.

Fixpoint span (p : ascii -> bool) (l : list ascii) : list ascii * list ascii :=
  match l with
  | [] => ([], [])
  | a :: rest => if p a then let '(taken, after) := span p rest in (a :: taken, after) else ([], l)
  end.

(** [str::replace] of a non-empty text. *)
Fixpoint replace_from (fuel : nat) (needle by_ l : list ascii) : list ascii :=
  match fuel with
  | O => l
  | S fuel =>
      match find_from id needle l with
      | None => l
      | Some (before, _, after) => before ++ by_ ++ replace_from fuel needle by_ after
      end
  end.

(** ** Redaction *)

Definition REDACTED : list ascii := bytes "[REDACTED]".
Definition REDACTED_AUTH_KEY : list ascii := bytes "[REDACTED_AUTH_KEY]".

Definition MARKERS : list string :=
  ["tskey-auth-"; "client_secret="; "client-secret="; "clientsecret="; "client_secret:"; "client-secret:";
   "clientsecret:"; "access_token="; "access-token="; "auth_key="; "auth-key="; "password="; "token="; "bearer "].

(** Blanks and quotes before a value, and what ends one. *)
Definition skip_byte (a : ascii) : bool := byte_is 32 a || byte_is 9 a || byte_is 34 a || byte_is 39 a.
Definition ends_value (a : ascii) : bool :=
  byte_is 32 a || byte_is 9 a || byte_is 13 a || byte_is 10 a || byte_is 34 a || byte_is 39 a || byte_is 38 a
  || byte_is 44 a || byte_is 59 a.

(** The loop of [redact_values_after_marker].  It reads and changes the message only
    from [offset] on, so a turn takes that part: [message[offset..]]. *)
Fixpoint redact_from (fuel : nat) (marker l : list ascii) : list ascii * bool :=
  match fuel with
  | O => (l, false)
  | S fuel =>
      match find_from byte_to_ascii_lowercase marker l with
      | None => (l, false)
      | Some (before, matched, after) =>
          let '(skipped, after) := span skip_byte after in
          let '(value, rest) := span (fun a => negb (ends_value a)) after in
          match value with
          | [] => let '(out, changed) := redact_from fuel marker after in (before ++ matched ++ skipped ++ out, changed)
          | _ => let '(out, _) := redact_from fuel marker rest in (before ++ matched ++ skipped ++ REDACTED ++ out, true)
          end
      end
  end.
Definition redact_values_after_marker (message marker : list ascii) : list ascii * bool :=
  redact_from (S (length message)) marker message.

(** [find(|c| c.is_whitespace() || c == '/')]. *)
Fixpoint authority_span (l : list ascii) : list ascii * list ascii :=
  match l with
  | [] => ([], [])
  | a :: rest =>
      if byte_is 47 a || opt_is_some (strip_any WHITE_SPACE (of_bytes l)) then ([], l)
      else let '(taken, after) := authority_span rest in (a :: taken, after)
  end.

Fixpoint userinfo_from (fuel : nat) (l : list ascii) : list ascii * bool :=
  match fuel with
  | O => (l, false)
  | S fuel =>
      match find_from id (bytes "://") l with
      | None => (l, false)
      | Some (before, scheme, after) =>
          let '(authority, rest) := authority_span after in
          match find_from id (bytes "@") authority with
          | None => let '(out, changed) := userinfo_from fuel rest in (before ++ scheme ++ authority ++ out, changed)
          | Some (_, at_, host) =>
              let '(out, _) := userinfo_from fuel (host ++ rest) in (before ++ scheme ++ REDACTED ++ at_ ++ out, true)
          end
      end
  end.
Definition redact_url_userinfo (message : list ascii) : list ascii * bool := userinfo_from (S (length message)) message.

Definition redact_marker (acc : list ascii * bool) (marker : string) : list ascii * bool :=
  let '(message, changed) := redact_values_after_marker acc.1 (bytes marker) in (message, acc.2 || changed).

(** The line, cut to its limit and decoded. *)
Definition decoded_line (line : string) : list ascii :=
  let bounded := take (Z.to_nat RUNTIME_SSH_LINE_BYTES) (bytes line) in
  bytes (trim_end_matches (fun a => byte_is 13 a || byte_is 10 a) (of_bytes (from_utf8_lossy bounded))).

(** The message, whether something was redacted, whether the line was cut. *)
Definition sanitize_tailscaled_line (line exact_auth_key : string) (input_truncated : bool) : string * bool * bool :=
  let truncated := input_truncated || (RUNTIME_SSH_LINE_BYTES <? len line) in
  let message := decoded_line line in
  let key := bytes exact_auth_key in
  let start := if negb (str_is_empty exact_auth_key) && opt_is_some (find_from id key message)
               then (replace_from (S (length message)) key REDACTED_AUTH_KEY message, true)
               else (message, false) in
  let '(message, redacted) := foldl redact_marker start MARKERS in
  let '(message, userinfo) := redact_url_userinfo message in
  (of_bytes message, redacted || userinfo, truncated).

(** ** What the markers have in common *)

(** Every value can be told from the replacement text: the marker has no bracket and
    some byte the replacement lacks; it does not overlap itself; it starts with
    something that neither precedes nor ends a value; and the replacement cannot
    continue its last byte. *)
Definition apart (f : ascii -> ascii) (m inner : list ascii) : bool :=
  forallb (fun c => negb (Ascii.eqb c (f "["%char)) && negb (Ascii.eqb c (f "]"%char))) m
  && existsb (fun c => forallb (fun d => negb (Ascii.eqb c (f d))) inner) m.
Definition unbordered (m : list ascii) : bool :=
  forallb (fun k => negb (bool_decide (drop k m = take (length m - k) m))) (seq 1 (length m - 1)).
Definition starts_apart (m : list ascii) : bool :=
  match m with
  | [] => false
  | c :: _ => negb (ends_value c) && Ascii.eqb (byte_to_ascii_lowercase c) c
  end.
Definition ends_apart (c : ascii) : bool := negb (existsb (Ascii.eqb c) (bytes "[REDACTED")).
Definition marker_ok (m : list ascii) : bool :=
  apart byte_to_ascii_lowercase m (bytes "REDACTED") && unbordered m && starts_apart m
  && is_some_and (last m) (fun c => ends_apart c && negb (is_ascii_lowercase c)).

(** * Properties *)

(** ** Occurrences *)

(** Every place where [l] reads [m] through [f] is followed by what [F] accepts. *)
Definition guarded (f : ascii -> ascii) (m : list ascii) (F : list ascii -> Prop) (l : list ascii) : Prop :=
  forall a x b, l = a ++ x ++ b -> map f x = m -> F b.

Lemma find_from_None f m l : find_from f m l = None -> forall a x b, l = a ++ x ++ b -> map f x <> m.
Proof.
  induction l as [|c l IH]; cbn [find_from]; intros Hf a x b Hl Hx.
  - destruct (bool_decide_reflect (map f (take (length m) []) = m)) as [|Hn]; [done |].
    destruct a, x; try done. cbn in Hx. subst. by apply Hn.
  - destruct (bool_decide_reflect (map f (take (length m) (c :: l)) = m)) as [|Hn]; [done |].
    destruct a as [|c' a].
    + apply Hn. rewrite Hl. cbn [app]. rewrite take_app_length'; [done |]. by rewrite <-Hx, length_map.
    + injection Hl as -> Hl. destruct (find_from f m l) as [[[? ?] ?]|]; [done |]. by apply (IH eq_refl a x b).
Qed.

Lemma find_from_Some f m l u x r : find_from f m l = Some (u, x, r) ->
  l = u ++ x ++ r /\ map f x = m /\
  forall a y b, l = a ++ y ++ b -> map f y = m -> (length u <= length a)%nat.
Proof.
  revert u. induction l as [|c l IH]; cbn [find_from]; intros u Hf;
    match type of Hf with (if bool_decide ?P then _ else _) = _ => destruct (bool_decide_reflect P) as [Hm|Hn] end.
  1, 3: injection Hf as <- <- <-; cbn [app length]; rewrite take_drop; by split_and!; [| | lia].
  - done.
  - destruct (find_from f m l) as [[[u' x'] r']|]; [| done]. injection Hf as <- <- <-.
    destruct (IH u' eq_refl) as (-> & Hx & Hfirst). split_and!; [done | done |].
    intros [|c' a] y b Hl Hy; cbn [length].
    + exfalso. apply Hn. rewrite Hl. cbn [app]. rewrite take_app_length'; [done |]. by rewrite <-Hy, length_map.
    + injection Hl as -> Hl. specialize (Hfirst a y b Hl Hy). lia.
Qed.

Lemma find_from_nil f m : m <> [] -> find_from f m [] = None.
Proof. intros Hm. cbn. rewrite bool_decide_false; [done |]. rewrite take_nil. cbn. congruence. Qed.

Section overlap.
Context (f : ascii -> ascii) (m inner : list ascii).
Hypothesis Hapart : apart f m inner = true.

Let R : list ascii := "["%char :: inner ++ ["]"%char].

Lemma apart_no_bracket c : c ∈ m -> c <> f "["%char /\ c <> f "]"%char.
Proof using Hapart.
  intros Hc. unfold apart in Hapart. apply andb_prop in Hapart as [Hall _]. rewrite forallb_forall in Hall.
  apply list_elem_of_In in Hc. specialize (Hall c Hc). apply andb_prop in Hall as [H1 H2].
  split; intros ->; [by rewrite Ascii.eqb_refl in H1 | by rewrite Ascii.eqb_refl in H2].
Qed.

Lemma apart_own_byte : exists c, c ∈ m /\ forall d, d ∈ inner -> c <> f d.
Proof using Hapart.
  unfold apart in Hapart. apply andb_prop in Hapart as [_ Hex]. apply existsb_exists in Hex as (c & Hc & Hall).
  exists c. split; [by apply list_elem_of_In |]. intros d Hd ->. rewrite forallb_forall in Hall.
  apply list_elem_of_In in Hd. specialize (Hall d Hd). by rewrite Ascii.eqb_refl in Hall.
Qed.

(** An occurrence lies before the replacement or after it. *)
Lemma overlap_none a x b p s : a ++ x ++ b = p ++ R ++ s -> map f x = m ->
  (exists p2, p = a ++ x ++ p2 /\ b = p2 ++ R ++ s) \/ (exists s1, a = p ++ R ++ s1 /\ s = s1 ++ x ++ b).
Proof using Hapart.
  intros Heq Hx.
  assert (Hin : forall j c, x !! j = Some c -> f c ∈ m).
  { intros j c Hj. rewrite <-Hx. apply list_elem_of_fmap. exists c. split; [done | by eapply list_elem_of_lookup_2]. }
  assert (Hxw : forall i, (length a <= i < length a + length x)%nat -> exists c, (p ++ R ++ s) !! i = Some c /\ f c ∈ m).
  { intros i Hi. destruct (lookup_lt_is_Some_2 x (i - length a)) as [c Hc]; [lia |]. exists c. split; [| by eapply Hin].
    rewrite <-Heq, lookup_app_r, lookup_app_l by lia. done. }
  assert (HR : length R = (length inner + 2)%nat) by (unfold R; cbn; rewrite length_app; cbn; lia).
  destruct (decide (length a + length x <= length p)%nat) as [Hl|Hl].
  { left. rewrite app_assoc in Heq. symmetry in Heq. apply app_eq_inv in Heq as [(k & -> & Hb) | (k & Hk & Hb)].
    - exists k. rewrite <-app_assoc. done.
    - pose proof (f_equal length Hk) as Hlen. rewrite !length_app in Hlen.
      assert (k = []) as -> by (apply nil_length_inv; lia). rewrite app_nil_r in Hk. subst p.
      exists []. by rewrite app_nil_r. }
  destruct (decide (length p + length R <= length a)%nat) as [Hr|Hr].
  { right. rewrite app_assoc in Heq. rewrite <-(app_assoc a) in Heq. symmetry in Heq. rewrite (app_assoc p) in Heq.
    apply app_eq_inv in Heq as [(k & Hk & Hb) | (k & -> & Hb)].
    - pose proof (f_equal length Hk) as Hlen. rewrite !length_app in Hlen.
      assert (k = []) as -> by (apply nil_length_inv; lia). rewrite app_nil_r in Hk. cbn in Hb. subst a.
      exists []. by rewrite app_nil_r.
    - exists k. by rewrite <-app_assoc. }
  exfalso. destruct (decide (length a <= length p)%nat).
  - destruct (Hxw (length p)) as (c & Hc & Hm); [lia |]. rewrite lookup_app_r, Nat.sub_diag in Hc by lia.
    injection Hc as <-. by destruct (apart_no_bracket _ Hm).
  - destruct (decide (length p + length R <= length a + length x)%nat).
    + destruct (Hxw (length p + length inner + 1)%nat) as (c & Hc & Hm); [lia |].
      rewrite lookup_app_r, lookup_app_l in Hc by lia.
      replace (length p + length inner + 1 - length p)%nat with (S (length inner)) in Hc by lia. change (R !! S (length inner)) with ((inner ++ ["]"%char]) !! length inner) in Hc.
      rewrite lookup_app_r, Nat.sub_diag in Hc by lia. injection Hc as <-. by destruct (apart_no_bracket _ Hm).
    + destruct apart_own_byte as (c & Hc & Hd). rewrite <-Hx in Hc. apply list_elem_of_fmap in Hc as (y & -> & Hy).
      apply list_elem_of_lookup in Hy as [j Hj]. pose proof (lookup_lt_Some _ _ _ Hj).
      assert (Hw : (p ++ R ++ s) !! (length a + j)%nat = Some y).
      { rewrite <-Heq, lookup_app_r, lookup_app_l by lia. by replace (length a + j - length a)%nat with j by lia. }
      rewrite lookup_app_r, lookup_app_l in Hw by lia. destruct (length a + j - length p)%nat as [|k] eqn:Hk; [lia |].
      change (R !! S k) with ((inner ++ ["]"%char]) !! k) in Hw. rewrite lookup_app_l in Hw by lia. by apply (Hd y); [eapply list_elem_of_lookup_2 |].
Qed.

Lemma replaced_guarded F p V s : guarded f m F (p ++ V ++ s) ->
  (forall p1 x p2, p = p1 ++ x ++ p2 -> F (p2 ++ V ++ s) -> F (p2 ++ R ++ s)) ->
  guarded f m F (p ++ R ++ s).
Proof using Hapart.
  intros Hg HF a x b Hl Hx. symmetry in Hl. destruct (overlap_none a x b p s Hl Hx) as [(p2 & -> & ->) | (s1 & -> & ->)].
  - apply (HF a x p2); [done |]. apply (Hg a x); [by rewrite <-!app_assoc | done].
  - apply (Hg (p ++ V ++ s1) x); [by rewrite <-!app_assoc | done].
Qed.

End overlap.

(** ** Values *)

Lemma span_spec p l t r : span p l = (t, r) ->
  l = t ++ r /\ forallb p t = true /\ forall c r', r = c :: r' -> p c = false.
Proof.
  revert t. induction l as [|a l IH]; intros t; cbn [span]; [by intros [= <- <-] |].
  destruct (p a) eqn:Ha; [| intros [= <- <-]; split_and!; [done | done | by intros c r' [= <- _]]].
  destruct (span p l) as [t' r'] eqn:Hs. intros [= <- <-]. destruct (IH t' eq_refl) as (-> & Hall & Hhd).
  cbn. by rewrite Ha.
Qed.

Lemma span_app p t l : forallb p t = true -> (span p (t ++ l)).2 = (span p l).2.
Proof.
  induction t as [|a t IH]; cbn; [done |]. intros [Ha Ht]%andb_prop. rewrite Ha.
  specialize (IH Ht). by destruct (span p (t ++ l)).
Qed.

(** What may follow a marker, after blanks and quotes: the end, the end of an empty
    value, or the replacement. *)
Definition follow_ok (b : list ascii) : Prop :=
  match (span skip_byte b).2 with
  | [] => True
  | c :: rest => ends_value c = true \/ exists k, c :: rest = REDACTED ++ k
  end.

Lemma follow_ok_skip t b : forallb skip_byte t = true -> follow_ok (t ++ b) <-> follow_ok b.
Proof. intros Ht. unfold follow_ok. by rewrite span_app. Qed.

Lemma follow_ok_redacted k : follow_ok (REDACTED ++ k).
Proof. right. by exists k. Qed.

Lemma follow_ok_cons c rest : skip_byte c = false ->
  follow_ok (c :: rest) <-> ends_value c = true \/ exists k, c :: rest = REDACTED ++ k.
Proof. intros Hc. unfold follow_ok. cbn [span]. by rewrite Hc. Qed.

Lemma redacted_prefix_last q k c : q ++ k = REDACTED -> k <> [] -> last q = Some c -> ends_apart c = false.
Proof.
  intros Heq Hk Hc. destruct k as [|e k _] using rev_ind; [done |].
  change REDACTED with (bytes "[REDACTED" ++ ["]"%char]) in Heq. rewrite app_assoc in Heq.
  apply app_inj_tail in Heq as [Heq _]. unfold ends_apart. apply negb_false_iff, existsb_exists.
  exists c. split; [| apply Ascii.eqb_refl]. rewrite <-Heq. apply list_elem_of_In, elem_of_app. left.
  by apply last_Some_elem_of.
Qed.

Lemma follow_ok_replaced p1 x p2 V s c : last (p1 ++ x ++ p2) = Some c -> ends_apart c = true ->
  follow_ok (p2 ++ V ++ s) -> follow_ok (p2 ++ REDACTED ++ s).
Proof.
  intros Hlast Hc. destruct (span skip_byte p2) as [t q] eqn:Hs. destruct (span_spec _ _ _ _ Hs) as (-> & Ht & Hq).
  rewrite <-!app_assoc, (follow_ok_skip t (q ++ V ++ s)), (follow_ok_skip t (q ++ REDACTED ++ s)) by done. destruct q as [|d q]; [intros _; exact (follow_ok_redacted s) |].
  specialize (Hq d q eq_refl). cbn [app]. rewrite (follow_ok_cons d (q ++ V ++ s)), (follow_ok_cons d (q ++ REDACTED ++ s)) by done. intros [He | [k Hk]]; [by left | right].
  change (d :: q ++ V ++ s) with ((d :: q) ++ V ++ s) in Hk. change (d :: q ++ REDACTED ++ s) with ((d :: q) ++ REDACTED ++ s).
  apply app_eq_inv in Hk as [(k' & Hk' & _) | (k' & Hk' & _)].
  - exists (k' ++ REDACTED ++ s). by rewrite Hk', <-app_assoc.
  - destruct (decide (k' = [])) as [->|Hne]; [exists (REDACTED ++ s); by rewrite Hk', app_nil_r |].
    symmetry in Hk'. rewrite (redacted_prefix_last _ _ c Hk' Hne) in Hc; [done |].
    rewrite !app_assoc in Hlast. by rewrite last_app_cons in Hlast.
Qed.

Lemma marker_last k x sk : marker_ok k = true -> map byte_to_ascii_lowercase x = k -> forallb skip_byte sk = true ->
  exists c, last (x ++ sk) = Some c /\ ends_apart c = true.
Proof.
  intros Hk Hx Hsk. destruct sk as [|c sk _] using rev_ind.
  - rewrite app_nil_r. unfold marker_ok in Hk. apply andb_prop in Hk as [_ Hl]. rewrite <-Hx in Hl.
    rewrite fmap_last in Hl. destruct (last x) as [c|]; [cbn in Hl | done]. exists c. split; [done |].
    apply andb_prop in Hl as [He Hlow]. destruct c as [[] [] [] [] [] [] [] []]; done.
  - exists c. rewrite app_assoc, last_snoc. split; [done |]. rewrite forallb_app in Hsk. apply andb_prop in Hsk as [_ Hc].
    cbn in Hc. rewrite andb_true_r in Hc. clear -Hc. destruct c as [[] [] [] [] [] [] [] []]; done.
Qed.

Lemma authority_span_app l authority rest : authority_span l = (authority, rest) -> l = authority ++ rest.
Proof.
  revert authority. induction l as [|a l IH]; intros authority; cbn; [by intros [= <- <-] |].
  destruct (_ || _); [by intros [= <- <-] |]. destruct (authority_span l) as [t r]. intros [= <- <-].
  by rewrite (IH t eq_refl).
Qed.

Section preserve.
Context (f : ascii -> ascii) (m : list ascii) (F : list ascii -> Prop).
Hypothesis Hapart : apart f m (bytes "REDACTED") = true.
Hypothesis Hclosed : forall p1 x p2 V s c, last (p1 ++ x ++ p2) = Some c -> ends_apart c = true ->
  F (p2 ++ V ++ s) -> F (p2 ++ REDACTED ++ s).

Lemma redacted_guarded p V s c : last p = Some c -> ends_apart c = true ->
  guarded f m F (p ++ V ++ s) -> guarded f m F (p ++ REDACTED ++ s).
Proof using Hapart Hclosed.
  intros Hl Hc Hg. apply (replaced_guarded f m (bytes "REDACTED") Hapart F p V s Hg).
  intros p1 x p2 -> HF. by eapply Hclosed.
Qed.

Lemma redact_preserves k fuel l pre : marker_ok k = true ->
  guarded f m F (pre ++ l) -> guarded f m F (pre ++ (redact_from fuel k l).1).
Proof using Hapart Hclosed.
  intros Hk. revert l pre. induction fuel as [|fuel IH]; intros l pre Hg; cbn [redact_from]; [done |].
  destruct (find_from _ k l) as [[[u x] after]|] eqn:Hf; [| done]. destruct (find_from_Some _ _ _ _ _ _ Hf) as (-> & Hx & _).
  destruct (span skip_byte after) as [sk after'] eqn:Hs. destruct (span_spec _ _ _ _ Hs) as (-> & Hsk & _).
  destruct (span (fun a => negb (ends_value a)) after') as [value rest] eqn:Hv. destruct (span_spec _ _ _ _ Hv) as (-> & _ & _).
  destruct (marker_last k x sk Hk Hx Hsk) as (c & Hc & Hend). destruct value as [|v value].
  - specialize (IH rest (pre ++ u ++ x ++ sk)). cbn [app] in *. destruct (redact_from fuel k rest) as [out changed].
    cbn [fst] in *. rewrite <-?app_assoc in IH. by apply IH.
  - specialize (IH rest ((pre ++ u ++ x ++ sk) ++ REDACTED)). destruct (redact_from fuel k rest) as [out changed].
    cbn [fst] in *. rewrite <-(app_assoc (pre ++ u ++ x ++ sk)) in IH. rewrite <-?app_assoc in IH. apply IH.
    rewrite <-?app_assoc in Hg. pose proof (redacted_guarded (pre ++ u ++ x ++ sk) (v :: value) rest c) as Hr.
    rewrite <-?app_assoc in Hr. apply Hr; [| done | done]. rewrite (app_assoc u), app_assoc.
    rewrite !app_assoc, <-(app_assoc _ x). rewrite last_app. by rewrite Hc.
Qed.

Lemma userinfo_preserves fuel l pre :
  guarded f m F (pre ++ l) -> guarded f m F (pre ++ (userinfo_from fuel l).1).
Proof using Hapart Hclosed.
  revert l pre. induction fuel as [|fuel IH]; intros l pre Hg; cbn [userinfo_from]; [done |].
  destruct (find_from id (bytes "://") l) as [[[u x] after]|] eqn:Hf; [| done].
  destruct (find_from_Some _ _ _ _ _ _ Hf) as (-> & Hx & _). rewrite map_id in Hx. subst x.
  destruct (authority_span after) as [authority rest] eqn:Ha.
  pose proof (authority_span_app _ _ _ Ha) as ->.
  destruct (find_from id (bytes "@") authority) as [[[info at_] host]|] eqn:Hat.
  - destruct (find_from_Some _ _ _ _ _ _ Hat) as (-> & Hx & _). rewrite map_id in Hx. subst at_.
    specialize (IH (host ++ rest) ((pre ++ u ++ bytes "://") ++ REDACTED ++ bytes "@")).
    destruct (userinfo_from fuel (host ++ rest)) as [out changed]. cbn [fst] in *. rewrite <-?app_assoc in IH. apply IH.
    rewrite <-?app_assoc in Hg.
    pose proof (redacted_guarded (pre ++ u ++ bytes "://") info (bytes "@" ++ host ++ rest) "/"%char) as Hr.
    rewrite <-?app_assoc in Hr. apply Hr; [| done | done]. rewrite app_assoc, last_app. done.
  - specialize (IH rest (pre ++ u ++ bytes "://" ++ authority)). destruct (userinfo_from fuel rest) as [out changed].
    cbn [fst] in *. rewrite <-?app_assoc in IH. apply IH. by rewrite <-?app_assoc in Hg.
Qed.

End preserve.

(** ** One marker *)

Section own.
Context (m : list ascii).
Hypothesis Hok : marker_ok m = true.

Let f : ascii -> ascii := byte_to_ascii_lowercase.

Lemma ok_apart : apart f m (bytes "REDACTED") = true.
Proof using Hok. unfold marker_ok in Hok. by do 3 apply andb_prop in Hok as [Hok _]. Qed.

Lemma ok_nonempty : m <> [].
Proof using Hok. intros ->. done. Qed.

(** No occurrence starts with a byte that ends a value. *)
Lemma ok_starts c x : map f (c :: x) = m -> ends_value c = false.
Proof using Hok.
  intros Hx. unfold marker_ok in Hok. apply andb_prop in Hok as [Ho _]. apply andb_prop in Ho as [_ Hs].
  rewrite <-Hx in Hs. cbn in Hs. apply andb_prop in Hs as [Hs _]. apply negb_true_iff in Hs.
  destruct (ends_value c) eqn:He; [| done]. rewrite <-Hs. clear -He. destruct c as [[] [] [] [] [] [] [] []]; done.
Qed.

Lemma skip_ends c : skip_byte c = true -> ends_value c = true.
Proof. destruct c as [[] [] [] [] [] [] [] []]; done. Qed.

Lemma ok_unbordered k : (0 < k < length m)%nat -> drop k m <> take (length m - k) m.
Proof using Hok.
  intros Hk Heq. unfold marker_ok in Hok. apply andb_prop in Hok as [Ho _]. apply andb_prop in Ho as [Ho _].
  apply andb_prop in Ho as [_ Hu]. unfold unbordered in Hu. rewrite forallb_forall in Hu.
  specialize (Hu k). rewrite bool_decide_true in Hu by done. cbn in Hu. apply Bool.diff_false_true, Hu, in_seq. lia.
Qed.

(** An occurrence beside a known one: before it, the known one, or after it. *)
Lemma own_cases u x w a y b : u ++ x ++ w = a ++ y ++ b -> map f x = m -> map f y = m ->
  (exists b', u ++ x = a ++ y ++ b' /\ (length a < length u)%nat) \/
  (a = u /\ b = w) \/ (exists a', a = u ++ x ++ a' /\ w = a' ++ y ++ b).
Proof using Hok.
  intros Heq Hx Hy. assert (Hlen : length x = length m /\ length y = length m) by (rewrite <-Hx at 1; rewrite <-Hy; by rewrite !length_map).
  destruct (decide (length a < length u)%nat) as [Hlt|Hge].
  { left. rewrite !app_assoc in Heq. apply app_eq_inv in Heq as [(k & Hk & _) | (k & Hk & _)].
    - exists k. by rewrite <-app_assoc in Hk.
    - pose proof (f_equal length Hk) as Hl. rewrite !length_app in Hl. assert (k = []) as -> by (apply nil_length_inv; lia).
      exists []. rewrite app_nil_r in *. by rewrite <-Hk. }
  right. destruct (decide (length a = length u)) as [He|Hne].
  { left. apply app_inj_1 in Heq as [-> Heq]; [| done]. apply app_inj_1 in Heq as [_ ->]; [done | lia]. }
  right. destruct (decide (length u + length x <= length a)%nat) as [Hle|Hgt].
  { rewrite (app_assoc u) in Heq. apply app_eq_inv in Heq as [(k & Hk & Hw) | (k & Hk & Hw)].
    - pose proof (f_equal length Hk) as Hl. rewrite !length_app in Hl. assert (k = []) as -> by (apply nil_length_inv; lia).
      rewrite app_nil_r in Hk. exists []. subst a. cbn in Hw. by rewrite app_nil_r.
    - exists k. by rewrite app_assoc. }
  exfalso. apply (ok_unbordered (length a - length u)); [lia |].
  pose proof (f_equal (drop (length a)) Heq) as Hd. rewrite drop_app_length, drop_app_ge in Hd by lia.
  rewrite drop_app_le in Hd by lia. apply (f_equal (take (length m - (length a - length u)))) in Hd.
  rewrite take_app_length' in Hd by (rewrite length_drop; lia). rewrite take_app_le in Hd by lia.
  apply (f_equal (map f)) in Hd. by rewrite <-skipn_map, <-firstn_map, Hx, Hy in Hd.
Qed.

Lemma redact_head fuel c l : ends_value c = true -> exists out, (redact_from fuel m (c :: l)).1 = c :: out.
Proof using Hok.
  intros Hc. destruct fuel as [|fuel]; cbn [redact_from]; [by exists l |].
  destruct (find_from _ m (c :: l)) as [[[u x] after]|] eqn:Hf; [| by exists l].
  destruct (find_from_Some _ _ _ _ _ _ Hf) as (Hl & Hx & _). destruct (span skip_byte after) as [sk after'].
  destruct (span _ after') as [value rest]. destruct u as [|c' u].
  - destruct x as [|c' x]; [by destruct ok_nonempty |]. injection Hl as <- _. by rewrite (ok_starts c x Hx) in Hc.
  - injection Hl as <- _. destruct value; [destruct (redact_from fuel m after') | destruct (redact_from fuel m rest)]; by eexists.
Qed.

Lemma redact_nil fuel : redact_from fuel m [] = ([], false).
Proof using Hok. destruct fuel; cbn [redact_from]; [done |]. by rewrite find_from_nil by apply ok_nonempty. Qed.

(** No occurrence starts among blanks and quotes. *)
Lemma skipped_clear sk a y b w : sk ++ w = a ++ y ++ b -> map f y = m -> forallb skip_byte sk = true ->
  exists a', a = sk ++ a' /\ w = a' ++ y ++ b.
Proof using Hok.
  intros Heq Hy Hsk. apply app_eq_inv in Heq as [(k & -> & Hw) | (k & -> & Hw)]; [| by exists k].
  destruct k as [|c k]; [exists []; rewrite !app_nil_r; cbn [app] in *; by rewrite Hw |].
  destruct y as [|c' y]; [by destruct ok_nonempty |]. injection Hw as <- Hw.
  rewrite forallb_app in Hsk. apply andb_prop in Hsk as [_ Hc]. cbn in Hc. apply andb_prop in Hc as [Hc _].
  apply skip_ends in Hc. by rewrite (ok_starts c' y Hy) in Hc.
Qed.

Lemma redact_guarded fuel l : (length l < fuel)%nat -> guarded f m follow_ok (redact_from fuel m l).1.
Proof using Hok.
  revert l. induction fuel as [|fuel IH]; intros l Hfuel; [lia |]. cbn [redact_from].
  destruct (find_from _ m l) as [[[u x] after]|] eqn:Hf.
  2: { intros a y b Hl Hy. by destruct (find_from_None _ _ _ Hf a y b Hl). }
  destruct (find_from_Some _ _ _ _ _ _ Hf) as (-> & Hx & Hfirst).
  assert (Hm : (0 < length x)%nat) by (destruct x; [by destruct ok_nonempty | cbn; lia]).
  destruct (span skip_byte after) as [sk after'] eqn:Hs. destruct (span_spec _ _ _ _ Hs) as (-> & Hsk & Hhd).
  destruct (span (fun a => negb (ends_value a)) after') as [value rest] eqn:Hv.
  destruct (span_spec _ _ _ _ Hv) as (-> & _ & Hend). rewrite !length_app in Hfuel. destruct value as [|v value].
  - specialize (IH rest ltac:(cbn in Hfuel; lia)). cbn [app] in *.
    assert (Hout : follow_ok (redact_from fuel m rest).1).
    { destruct rest as [|c rest]; [by rewrite redact_nil |]. specialize (Hend c rest eq_refl). apply negb_false_iff in Hend.
      destruct (redact_head fuel c rest Hend) as [out ->]. rewrite follow_ok_cons by (by eapply Hhd). by left. }
    destruct (redact_from fuel m rest) as [out changed]. cbn [fst] in *. intros a y b Heq Hy.
    destruct (own_cases u x (sk ++ out) a y b Heq Hx Hy) as [(b' & Hb & Hlt) | [(-> & ->) | (a' & -> & Hw)]].
    + specialize (Hfirst a y (b' ++ sk ++ rest)). exfalso. rewrite (app_assoc u), Hb, <-!app_assoc in Hfirst.
      specialize (Hfirst eq_refl Hy). lia.
    + by apply follow_ok_skip.
    + destruct (skipped_clear sk a' y b out Hw Hy Hsk) as (a'' & -> & ->). by apply (IH a'' y b).
  - specialize (IH rest ltac:(cbn in Hfuel; lia)).
    destruct (redact_from fuel m rest) as [out changed]. cbn [fst] in *. intros a y b Heq Hy.
    destruct (own_cases u x (sk ++ REDACTED ++ out) a y b Heq Hx Hy) as [(b' & Hb & Hlt) | [(-> & ->) | (a' & -> & Hw)]].
    + specialize (Hfirst a y (b' ++ sk ++ (v :: value) ++ rest)). exfalso. rewrite (app_assoc u), Hb, <-!app_assoc in Hfirst.
      specialize (Hfirst eq_refl Hy). lia.
    + apply follow_ok_skip; [done | apply follow_ok_redacted].
    + destruct (skipped_clear sk a' y b (REDACTED ++ out) Hw Hy Hsk) as (a'' & -> & Hw').
      symmetry in Hw'. change (REDACTED ++ out) with ([] ++ REDACTED ++ out) in Hw'.
      destruct (overlap_none f m (bytes "REDACTED") ok_apart a'' y b [] out Hw' Hy) as [(p2 & Hp & _) | (s1 & _ & ->)].
      * destruct a'', y; try done. by destruct ok_nonempty.
      * by apply (IH s1 y b).
Qed.

End own.

(** ** The auth key *)

(** The key cannot be confused with the texts that replace it: it has no bracket and
    some byte that the replacements lack. *)
Definition key_distinct (key : string) : bool :=
  apart id (bytes key) (bytes "REDACTED") && apart id (bytes key) (bytes "REDACTED_AUTH_KEY").

Lemma apart_nonempty f m inner : apart f m inner = true -> m <> [].
Proof. intros Ha ->. unfold apart in Ha. by rewrite andb_false_r in Ha. Qed.

Lemma absent_closed p1 x p2 V s c : last (p1 ++ x ++ p2) = Some c -> ends_apart c = true ->
  (fun _ : list ascii => False) (p2 ++ V ++ s) -> (fun _ => False) (p2 ++ REDACTED ++ s).
Proof. done. Qed.

Lemma replace_absent key fuel l : apart id key (bytes "REDACTED_AUTH_KEY") = true -> (length l < fuel)%nat ->
  guarded id key (fun _ => False) (replace_from fuel key REDACTED_AUTH_KEY l).
Proof.
  intros Ha. revert l. induction fuel as [|fuel IH]; intros l Hfuel; [lia |]. cbn [replace_from].
  destruct (find_from id key l) as [[[u x] after]|] eqn:Hf.
  2: { intros a y b Hl Hy. by destruct (find_from_None _ _ _ Hf a y b Hl). }
  destruct (find_from_Some _ _ _ _ _ _ Hf) as (-> & Hx & Hfirst). rewrite map_id in Hx. subst x.
  assert (0 < length key)%nat by (destruct key; [by apply apart_nonempty in Ha | cbn; lia]).
  rewrite !length_app in Hfuel. specialize (IH after ltac:(lia)). intros a y b Heq Hy. symmetry in Heq.
  destruct (overlap_none id key (bytes "REDACTED_AUTH_KEY") Ha a y b u _ Heq Hy) as [(p2 & -> & _) | (s1 & _ & Hs)].
  - specialize (Hfirst a y (p2 ++ key ++ after)). rewrite <-!app_assoc in Hfirst. specialize (Hfirst eq_refl Hy).
    rewrite !length_app in Hfirst. rewrite map_id in Hy. subst y. lia.
  - exact (IH s1 y b Hs Hy).
Qed.

(** ** Unchanged lines *)

Lemma redact_unchanged fuel m l l' : redact_from fuel m l = (l', false) -> l' = l.
Proof.
  revert l l'. induction fuel as [|fuel IH]; intros l l'; cbn [redact_from]; [by intros [= <-] |].
  destruct (find_from _ m l) as [[[u x] after]|] eqn:Hf; [| by intros [= <-]].
  destruct (find_from_Some _ _ _ _ _ _ Hf) as (-> & _ & _). destruct (span skip_byte after) as [sk after'] eqn:Hs.
  destruct (span_spec _ _ _ _ Hs) as (-> & _ & _). destruct (span _ after') as [value rest].
  destruct value; [| by destruct (redact_from fuel m rest)].
  destruct (redact_from fuel m after') as [out changed] eqn:Hr. intros [= <- ->]. by rewrite (IH _ _ Hr).
Qed.

Lemma userinfo_unchanged fuel l l' : userinfo_from fuel l = (l', false) -> l' = l.
Proof.
  revert l l'. induction fuel as [|fuel IH]; intros l l'; cbn [userinfo_from]; [by intros [= <-] |].
  destruct (find_from id _ l) as [[[u x] after]|] eqn:Hf; [| by intros [= <-]].
  destruct (find_from_Some _ _ _ _ _ _ Hf) as (-> & _ & _). destruct (authority_span after) as [authority rest] eqn:Ha.
  rewrite (authority_span_app _ _ _ Ha). destruct (find_from id (bytes "@") authority) as [[[? ?] host]|].
  - by destruct (userinfo_from fuel (host ++ rest)).
  - destruct (userinfo_from fuel rest) as [out changed] eqn:Hr. intros [= <- ->]. by rewrite (IH _ _ Hr).
Qed.

Lemma markers_unchanged ms acc message : foldl redact_marker acc ms = (message, false) -> acc = (message, false).
Proof.
  revert acc. induction ms as [|m ms IH]; intros [l flag]; cbn [foldl]; [done |]. intros Hm. apply IH in Hm. revert Hm.
  unfold redact_marker, redact_values_after_marker. cbn [fst snd]. destruct (redact_from _ _ l) as [l' changed] eqn:Hr.
  intros [= <- Hflag]. apply orb_false_iff in Hflag as [-> ->]. by rewrite (redact_unchanged _ _ _ _ Hr).
Qed.

(** ** All markers *)

Lemma markers_ok : Forall (fun marker => marker_ok (bytes marker) = true) MARKERS.
Proof. repeat constructor. Qed.

Definition all_guarded (ms : list string) (l : list ascii) : Prop :=
  forall marker, marker ∈ ms -> guarded byte_to_ascii_lowercase (bytes marker) follow_ok l.

Lemma redact_markers ms acc done : Forall (fun marker => marker_ok (bytes marker) = true) ms ->
  Forall (fun marker => marker_ok (bytes marker) = true) done ->
  all_guarded done acc.1 -> all_guarded (done ++ ms) (foldl redact_marker acc ms).1.
Proof.
  revert acc done. induction ms as [|k ms IH]; intros acc done Hms Hdone Hg; cbn [foldl]; [by rewrite app_nil_r |].
  apply Forall_cons in Hms as [Hk Hms]. change (k :: ms) with ([k] ++ ms). rewrite app_assoc. apply IH; [done | |].
  - apply Forall_app. by split; [| apply Forall_singleton].
  - unfold redact_marker, redact_values_after_marker. intros marker Hin.
    assert (Hout : guarded byte_to_ascii_lowercase (bytes marker) follow_ok
              (redact_from (S (length acc.1)) (bytes k) acc.1).1).
    { apply elem_of_app in Hin as [Hin | ->%list_elem_of_singleton]; [| apply redact_guarded; [done | lia]].
      apply (redact_preserves _ _ _ (ok_apart _ (proj1 (Forall_forall _ _) Hdone _ Hin)) follow_ok_replaced (bytes k)
        _ acc.1 []); [done | by apply Hg]. }
    by destruct (redact_from _ (bytes k) acc.1).
Qed.

Lemma markers_absent ms acc key : Forall (fun marker => marker_ok (bytes marker) = true) ms ->
  apart id key (bytes "REDACTED") = true -> guarded id key (fun _ => False) acc.1 ->
  guarded id key (fun _ => False) (foldl redact_marker acc ms).1.
Proof.
  intros Hms Ha. revert acc. induction ms as [|k ms IH]; intros acc Hg; cbn [foldl]; [done |].
  apply Forall_cons in Hms as [Hk Hms]. apply IH; [done |]. unfold redact_marker, redact_values_after_marker.
  pose proof (redact_preserves id key (fun _ => False) Ha absent_closed (bytes k) (S (length acc.1)) acc.1 [] Hk Hg) as Hout.
  by destruct (redact_from _ (bytes k) acc.1).
Qed.

(** ** Decoding *)

Ltac known_tail :=
  split_and!; [reflexivity | reflexivity |]; cbn [take_tail];
  repeat match goal with H : byte_between _ _ _ = true |- _ => rewrite H; clear H end; reflexivity.

(** Text that is valid UTF-8 is kept as it is. *)
Lemma lossy_valid fuel l : valid_utf8_from fuel l = true -> lossy_from fuel l = l.
Proof.
  revert l. induction fuel as [|fuel IH]; intros [|a l]; cbn [valid_utf8_from lossy_from]; try done.
  destruct (utf8_char (a :: l)) as [r|] eqn:Hc; [| done]. intros Hv. specialize (IH r Hv).
  assert (Ht : exists ranges taken, utf8_tail a = Some ranges /\ l = taken ++ r /\ take_tail ranges l = (taken, true, r)).
  { clear -Hc. unfold utf8_char in Hc. unfold utf8_tail.
    repeat match goal with
           | H : (if ?c then _ else _) = _ |- _ => destruct c
           | H : option_bind _ _ ?o = _ |- _ => destruct o eqn:?; cbn [option_bind] in H; [| discriminate H]
           | H : (_ ← ?o; _) = _ |- _ => destruct o eqn:?; cbn [mbind option_bind] in H; [| discriminate H]
           end; try discriminate Hc;
    try (injection Hc as <-; eexists [], []; by split_and!).
    all: repeat match goal with
           | H : continuation _ _ ?x = Some _ |- _ =>
               destruct x as [|? ?]; cbn in H; [discriminate H |];
               destruct (byte_between _ _ _) eqn:? in H; [injection H as -> | discriminate H]
           end.
    all: first [eexists _, [_]; by known_tail | eexists _, [_; _]; by known_tail | eexists _, [_; _; _]; by known_tail]. }
  destruct Ht as (ranges & taken & Hr & -> & Htl). rewrite Hr, Htl, IH. done.
Qed.

(** C24: a sanitized line gives no secret away: every occurrence of a known marker, in
    any case, is followed, after blanks and quotes, by the end of the text, the end of
    an empty value or the replacement; the auth key does not occur, for a key that is
    distinct from the replacement texts; and a line that is not flagged as redacted is
    the decoded input. *)
Theorem sanitized_line_safe line key input_truncated message redacted truncated :
  sanitize_tailscaled_line line key input_truncated = (message, redacted, truncated) ->
  (forall marker a x b, marker ∈ MARKERS -> bytes message = a ++ x ++ b ->
     map byte_to_ascii_lowercase x = bytes marker -> follow_ok b) /\
  (key_distinct key = true -> forall a b, bytes message <> a ++ bytes key ++ b) /\
  (redacted = false -> message = of_bytes (decoded_line line)) /\
  truncated = input_truncated || (RUNTIME_SSH_LINE_BYTES <? len line).
Proof.
  unfold sanitize_tailscaled_line. match goal with |- context [foldl redact_marker ?x MARKERS] => set (start := x) end.
  destruct (foldl redact_marker start MARKERS) as [l flag] eqn:Hfold. destruct (redact_url_userinfo l) as [out userinfo] eqn:Hu.
  intros [= <- <- <-].
  assert (Hout : (userinfo_from (S (length l)) l).1 = out) by (unfold redact_url_userinfo in Hu; by rewrite Hu).
  assert (Hb : bytes (of_bytes out) = out) by apply String.list_ascii_of_string_of_list_ascii. rewrite Hb. split_and!.
  - pose proof (redact_markers MARKERS start [] markers_ok) as Hm. rewrite Hfold in Hm. cbn [fst app] in Hm.
    specialize (Hm ltac:(constructor) ltac:(by intros ? ?%elem_of_nil)). intros marker a x b Hin. revert a x b.
    assert (Hok : marker_ok (bytes marker) = true) by (exact (proj1 (Forall_forall _ _) markers_ok _ Hin)).
    rewrite <-Hout. apply (userinfo_preserves _ _ _ (ok_apart _ Hok) follow_ok_replaced _ l []). by apply Hm.
  - intros Hkey a b Heq. apply andb_prop in Hkey as [Ha1 Ha2].
    assert (Hstart : guarded id (bytes key) (fun _ => False) start.1).
    { unfold start. destruct (find_from id (bytes key) (decoded_line line)) as [[[u x] r]|] eqn:Hf.
      - destruct key as [|c key]; [done |]. cbn [negb str_is_empty andb opt_is_some fst]. apply replace_absent; [done | lia].
      - rewrite andb_false_r. intros a' x b' Hl Hx. by destruct (find_from_None _ _ _ Hf a' x b' Hl). }
    apply (markers_absent MARKERS start (bytes key) markers_ok Ha1) in Hstart. rewrite Hfold in Hstart. cbn [fst] in Hstart.
    apply (userinfo_preserves _ _ _ Ha1 absent_closed (S (length l)) l []) in Hstart. cbn [app] in Hstart.
    rewrite Hout in Hstart. apply (Hstart a (bytes key) b Heq). by rewrite map_id.
  - intros [-> ->]%orb_false_iff. apply markers_unchanged in Hfold. apply userinfo_unchanged in Hu. subst out.
    unfold start in Hfold. destruct (_ && _); [done |]. by injection Hfold as ->.
  - done.
Qed.

Definition sample_line : string := "up: Password= 'hunter2', https://me:pw@h/x k=tskey-1".

Lemma sanitized_line_safe_witness :
  sanitize_tailscaled_line sample_line "tskey-1" false =
    ("up: Password= '[REDACTED]', https://[REDACTED]@h/x k=[REDACTED_AUTH_KEY]", true, false) /\
  forall a b, bytes (sanitize_tailscaled_line sample_line "tskey-1" false).1.1 <> a ++ bytes "tskey-1" ++ b.
Proof.
  assert (Hs : sanitize_tailscaled_line sample_line "tskey-1" false =
    ("up: Password= '[REDACTED]', https://[REDACTED]@h/x k=[REDACTED_AUTH_KEY]", true, false)) by (vm_compute; reflexivity).
  split; [exact Hs |]. destruct (sanitized_line_safe _ _ _ _ _ _ Hs) as (_ & Hkey & _). rewrite Hs.
  apply Hkey. vm_compute. reflexivity.
Defined.

(** The value of one marker can hide the next: here the word [Bearer] is taken for the
    value of [token=], and what it announces stays. *)
Example bearer_value_escapes :
  sanitize_tailscaled_line "token=Bearer s3cret" EmptyString false = ("token=[REDACTED] s3cret", true, false).
Proof. vm_compute. reflexivity. Qed.

(** User information ends at the last at sign of an authority, but the first one is
    taken; and the search goes on behind an authority that ends in a colon. *)
Example userinfo_escapes :
  sanitize_tailscaled_line "https://me:p@ss@host" EmptyString false = ("https://[REDACTED]@ss@host", true, false) /\
  sanitize_tailscaled_line "tcp://https://me:pw@host" EmptyString false = ("tcp://https://me:pw@host", false, false).
Proof. split; vm_compute; reflexivity. Qed.
