(* ===== verification/LogQueue.v ===== *)
(** * Admission to the log queues

    The producers of [logging.rs]: the reader threads that copy the customer's output,
    the emitter of provider records, and the shared state between them and the worker:
    two bounded channels, the byte budgets, the drop counters and the count of queued
    bytes.  Each task below is one thread between two atomic operations, so the theorems
    hold for every interleaving. *)
From Stdlib Require Import Ascii Sorted.
From stdpp Require Import prelude strings list.
From S2P Require Import Prelude Utf8 Json Gateway LogConfig LogRedact.

Local Open Scope Z_scope.

(** ** Data *)

Definition OUTPUT_CHUNK_BYTES : Z := 3 * 1024.
Definition OUTPUT_QUEUE_CAPACITY : nat := 128.
Definition OUTPUT_BYTES_PER_SECOND : Z := 256 * 1024.
Definition RUNTIME_SSH_BYTES_PER_SECOND : Z := 64 * 1024.
Definition RUNTIME_SSH_QUEUE_MEMORY_BYTES : Z := 1024 * 1024.

(** [DroppedOutput]: two counters, updated one after the other. *)
Record DroppedOutput := { dr_chunks : Z; dr_bytes : Z }.
Definition no_drops : DroppedOutput := {| dr_chunks := 0; dr_bytes := 0 |}.
Definition record_chunk (d : DroppedOutput) : DroppedOutput :=
  {| dr_chunks := saturating_add u64_max (dr_chunks d) 1; dr_bytes := dr_bytes d |}.
Definition record_bytes (bytes : Z) (d : DroppedOutput) : DroppedOutput :=
  {| dr_chunks := dr_chunks d; dr_bytes := saturating_add u64_max (dr_bytes d) bytes |}.

Record ByteBudget := { bb_window_started : Z; bb_admitted : Z; bb_limit : Z }.
Definition new_budget (now limit : Z) : ByteBudget :=
  {| bb_window_started := now; bb_admitted := 0; bb_limit := limit |}.

(** [ByteBudget::admit]: the clock is read at [now] and, for a new window, at [restart]. *)
Definition current_window (now restart : Z) (b : ByteBudget) : ByteBudget :=
  if from_secs 1 <=? saturating_duration_since now (bb_window_started b) then new_budget restart (bb_limit b) else b.
Definition budget_admit (now restart bytes : Z) (b : ByteBudget) : ByteBudget * bool :=
  let b := current_window now restart b in
  match checked_add_u64 (bb_admitted b) bytes with
  | None => (b, false)
  | Some next =>
      if bb_limit b <? next then (b, false)
      else ({| bb_window_started := bb_window_started b; bb_admitted := next; bb_limit := bb_limit b |}, true)
  end.

Record OutputChunk := {
  oc_output_sequence : Z;
  oc_process_attempt : Z;
  oc_stream : string;
  oc_timestamp : string;
  oc_bytes : string
}.

Inductive LogOrigin := Customer | RuntimeSsh.
#[global] Instance LogOrigin_eq_dec : EqDecision LogOrigin.
Proof. solve_decision. Defined.

Definition same_origin (a b : LogOrigin) : bool :=
  match a, b with Customer, Customer | RuntimeSsh, RuntimeSsh => true | _, _ => false end.
Definition label (o : LogOrigin) : string := match o with Customer => "customer" | RuntimeSsh => "runtime_ssh" end.
Definition source (o : LogOrigin) : string :=
  match o with Customer => "runtime-cargo-supervisor" | RuntimeSsh => "runtime-ssh-tailscaled" end.
Definition dropped_event (o : LogOrigin) : string :=
  match o with
  | Customer => "runtime.cargo.output.dropped"
  | RuntimeSsh => "runtime.access.tailscale.logs_dropped"
  end.

Record RuntimeSshRecord := {
  rr_event : string;
  rr_timestamp : string;
  rr_details : Value;
  rr_admitted_bytes : Z;
  rr_critical : bool
}.

Inductive LogWork :=
| WorkChunk (chunk : OutputChunk)
| WorkRuntimeSsh (record : RuntimeSshRecord)
| WorkFinish.

(** What the threads share.  [sh_open] tells whether the worker still has the
    receivers; [sh_sender] whether the customer's sender was not taken by [finish]. *)
Record Shared := {
  sh_customer : list LogWork;
  sh_runtime : list LogWork;
  sh_open : bool;
  sh_sender : bool;
  sh_dropped : DroppedOutput;
  sh_runtime_dropped : DroppedOutput;
  sh_budget : ByteBudget;
  sh_runtime_budget : ByteBudget;
  sh_queued_bytes : Z;
  sh_next_sequence : Z;
  sh_raw_window_marked : bool
}.

Definition set_customer (q : list LogWork) (s : Shared) : Shared :=
  {| sh_customer := q; sh_runtime := sh_runtime s; sh_open := sh_open s; sh_sender := sh_sender s;
     sh_dropped := sh_dropped s; sh_runtime_dropped := sh_runtime_dropped s; sh_budget := sh_budget s;
     sh_runtime_budget := sh_runtime_budget s; sh_queued_bytes := sh_queued_bytes s;
     sh_next_sequence := sh_next_sequence s; sh_raw_window_marked := sh_raw_window_marked s |}.
Definition set_runtime (q : list LogWork) (s : Shared) : Shared :=
  {| sh_customer := sh_customer s; sh_runtime := q; sh_open := sh_open s; sh_sender := sh_sender s;
     sh_dropped := sh_dropped s; sh_runtime_dropped := sh_runtime_dropped s; sh_budget := sh_budget s;
     sh_runtime_budget := sh_runtime_budget s; sh_queued_bytes := sh_queued_bytes s;
     sh_next_sequence := sh_next_sequence s; sh_raw_window_marked := sh_raw_window_marked s |}.
Definition set_ends (open sender : bool) (s : Shared) : Shared :=
  {| sh_customer := sh_customer s; sh_runtime := sh_runtime s; sh_open := open; sh_sender := sender;
     sh_dropped := sh_dropped s; sh_runtime_dropped := sh_runtime_dropped s; sh_budget := sh_budget s;
     sh_runtime_budget := sh_runtime_budget s; sh_queued_bytes := sh_queued_bytes s;
     sh_next_sequence := sh_next_sequence s; sh_raw_window_marked := sh_raw_window_marked s |}.
Definition set_dropped (o : LogOrigin) (f : DroppedOutput -> DroppedOutput) (s : Shared) : Shared :=
  {| sh_customer := sh_customer s; sh_runtime := sh_runtime s; sh_open := sh_open s; sh_sender := sh_sender s;
     sh_dropped := match o with Customer => f (sh_dropped s) | RuntimeSsh => sh_dropped s end;
     sh_runtime_dropped := match o with Customer => sh_runtime_dropped s | RuntimeSsh => f (sh_runtime_dropped s) end;
     sh_budget := sh_budget s; sh_runtime_budget := sh_runtime_budget s; sh_queued_bytes := sh_queued_bytes s;
     sh_next_sequence := sh_next_sequence s; sh_raw_window_marked := sh_raw_window_marked s |}.
Definition set_budgets (b r : ByteBudget) (s : Shared) : Shared :=
  {| sh_customer := sh_customer s; sh_runtime := sh_runtime s; sh_open := sh_open s; sh_sender := sh_sender s;
     sh_dropped := sh_dropped s; sh_runtime_dropped := sh_runtime_dropped s; sh_budget := b;
     sh_runtime_budget := r; sh_queued_bytes := sh_queued_bytes s;
     sh_next_sequence := sh_next_sequence s; sh_raw_window_marked := sh_raw_window_marked s |}.
Definition set_queued (q : Z) (s : Shared) : Shared :=
  {| sh_customer := sh_customer s; sh_runtime := sh_runtime s; sh_open := sh_open s; sh_sender := sh_sender s;
     sh_dropped := sh_dropped s; sh_runtime_dropped := sh_runtime_dropped s; sh_budget := sh_budget s;
     sh_runtime_budget := sh_runtime_budget s; sh_queued_bytes := q;
     sh_next_sequence := sh_next_sequence s; sh_raw_window_marked := sh_raw_window_marked s |}.
Definition set_marks (sequence : Z) (marked : bool) (s : Shared) : Shared :=
  {| sh_customer := sh_customer s; sh_runtime := sh_runtime s; sh_open := sh_open s; sh_sender := sh_sender s;
     sh_dropped := sh_dropped s; sh_runtime_dropped := sh_runtime_dropped s; sh_budget := sh_budget s;
     sh_runtime_budget := sh_runtime_budget s; sh_queued_bytes := sh_queued_bytes s;
     sh_next_sequence := sequence; sh_raw_window_marked := marked |}.

(** ** Atomic operations *)

(** [reserve_queue_bytes] and [release_queue_bytes]: one [fetch_update] each. *)
Definition reserve_queue_bytes (bytes : Z) (s : Shared) : Shared * bool :=
  match opt_filter (fun next => next <=? RUNTIME_SSH_QUEUE_MEMORY_BYTES) (checked_add_u64 (sh_queued_bytes s) bytes) with
  | Some next => (set_queued next s, true)
  | None => (s, false)
  end.
Definition release_queue_bytes (bytes : Z) (s : Shared) : Shared :=
  set_queued (saturating_sub_u (sh_queued_bytes s) bytes) s.

(** [SyncSender::try_send] on a channel of [OUTPUT_QUEUE_CAPACITY] entries. *)
Definition has_room (open : bool) (q : list LogWork) : bool := open && (length q <? OUTPUT_QUEUE_CAPACITY)%nat.

(** [next_output_sequence.fetch_add(1)] wraps. *)
Definition fetch_sequence (s : Shared) : Shared * Z :=
  (set_marks ((sh_next_sequence s + 1) mod 2 ^ 64) (sh_raw_window_marked s) s, sh_next_sequence s).

(** ** Tasks

    A thread in [enqueue_chunk], in [enqueue] or [enqueue_critical], or in the worker's
    handling of a received record or of the drop counters, before its next atomic
    operation. *)
Inductive Task :=
| ChunkAdmit (sender : bool) (chunk : OutputChunk)
| ChunkSend (chunk : OutputChunk)
| ChunkDrop (bytes : Z)
| ChunkDropBytes (bytes : Z)
| SshAdmit (record : RuntimeSshRecord)
| SshReserve (record : RuntimeSshRecord)
| SshSend (record : RuntimeSshRecord)
| SshRelease (record : RuntimeSshRecord)
| SshDrop (bytes : Z)
| SshDropBytes (bytes : Z)
| ReceivedSsh (record : RuntimeSshRecord)
| TakeBytes (origin : LogOrigin) (chunks : Z).

Definition chunk_bytes (c : OutputChunk) : Z := len (oc_bytes c).

(** The next atomic operation of a task; [now] and [restart] are the clock's readings. *)
Definition task_step (now restart : Z) (t : Task) (s : Shared) : Shared * option Task :=
  match t with
  | ChunkAdmit sender chunk =>
      let '(b, admitted) := budget_admit now restart (chunk_bytes chunk) (sh_budget s) in
      (set_budgets b (sh_runtime_budget s) s,
       Some (if admitted && sender then ChunkSend chunk else ChunkDrop (chunk_bytes chunk)))
  | ChunkSend chunk =>
      if has_room (sh_open s) (sh_customer s) then (set_customer (sh_customer s ++ [WorkChunk chunk]) s, None)
      else (s, Some (ChunkDrop (chunk_bytes chunk)))
  | ChunkDrop bytes => (set_dropped Customer record_chunk s, Some (ChunkDropBytes bytes))
  | ChunkDropBytes bytes => (set_dropped Customer (record_bytes bytes) s, None)
  | SshAdmit record =>
      let '(b, admitted) := budget_admit now restart (rr_admitted_bytes record) (sh_runtime_budget s) in
      (set_budgets (sh_budget s) b s, Some (if admitted then SshReserve record else SshDrop (rr_admitted_bytes record)))
  | SshReserve record =>
      let '(s, reserved) := reserve_queue_bytes (rr_admitted_bytes record) s in
      (s, Some (if reserved : bool then SshSend record else SshDrop (rr_admitted_bytes record)))
  | SshSend record =>
      if has_room (sh_open s) (sh_runtime s) then (set_runtime (sh_runtime s ++ [WorkRuntimeSsh record]) s, None)
      else (s, Some (SshRelease record))
  | SshRelease record => (release_queue_bytes (rr_admitted_bytes record) s, Some (SshDrop (rr_admitted_bytes record)))
  | SshDrop bytes => (set_dropped RuntimeSsh record_chunk s, Some (SshDropBytes bytes))
  | SshDropBytes bytes => (set_dropped RuntimeSsh (record_bytes bytes) s, None)
  | ReceivedSsh record => (release_queue_bytes (rr_admitted_bytes record) s, None)
  | TakeBytes origin _ =>
      (set_dropped origin (fun d => {| dr_chunks := dr_chunks d; dr_bytes := 0 |}) s, None)
  end.

(** A task run to its end with nothing in between: [enqueue_chunk], [enqueue] and
    [enqueue_critical] as sequential functions. *)
Fixpoint run_task (fuel : nat) (now restart : Z) (t : Task) (s : Shared) : Shared :=
  match fuel with
  | O => s
  | S fuel => match task_step now restart t s with
              | (s, Some t) => run_task fuel now restart t s
              | (s, None) => s
              end
  end.
Definition enqueue_chunk (now restart : Z) (sender : bool) (chunk : OutputChunk) : Shared -> Shared :=
  run_task 5 now restart (ChunkAdmit sender chunk).
Definition enqueue (now restart : Z) (record : RuntimeSshRecord) : Shared -> Shared :=
  run_task 6 now restart (SshAdmit record).
Definition enqueue_critical (now restart : Z) (record : RuntimeSshRecord) : Shared -> Shared :=
  run_task 5 now restart (SshReserve record).

(** One read of [spawn_reader]'s loop: the sequence number, then the chunk's task.
    The reader has its own clone of the sender, if there was one when it was started. *)
Definition read_chunk (sender : bool) (attempt : Z) (stream timestamp data : string) (s : Shared) : Shared * Task :=
  let '(s, output_sequence) := fetch_sequence s in
  (s, ChunkAdmit sender {| oc_output_sequence := output_sequence; oc_process_attempt := attempt;
                           oc_stream := stream; oc_timestamp := timestamp; oc_bytes := data |}).

(** [OutputLogger::finish] sends the request to finish when there is room. *)
Definition finish_customer (s : Shared) : Shared :=
  if negb (sh_sender s) then s
  else
    let s := set_ends (sh_open s) false s in
    if has_room (sh_open s) (sh_customer s) then set_customer (sh_customer s ++ [WorkFinish]) s else s.

(** ** The provider's emitter *)

Definition without_nulls (value : Value) : Value :=
  match value with
  | Obj items => Obj (List.filter (fun kv => negb (is_null kv.2)) items)
  | _ => value
  end.

Record Emitter := {
  em_raw_expires_at_ms : option Z;
  em_provider_kind : string;
  em_component : string
}.

Definition jopt_str (o : option string) : Value := match o with Some s => Str s | None => Null end.

(** [String::truncate] panics inside a character. *)
Definition is_char_boundary (n : Z) (s : string) : bool :=
  match bytes s !! Z.to_nat n with
  | None => n =? len s
  | Some a => negb (byte_between 128 191 a)
  end.
Definition truncate (n : Z) (s : string) : option string :=
  if n <=? len s then then_some (is_char_boundary n s) (str_take n s) else Some s.

Section emitter.
Context `{!JsonText}.

Definition critical_record (event timestamp : string) (details : Value) : RuntimeSshRecord :=
  {| rr_event := event; rr_timestamp := timestamp; rr_details := details;
     rr_admitted_bytes := len (canonical_json_bytes details); rr_critical := true |}.

Definition lifecycle (e : Emitter) (event : string) (code : option string) (timestamp : string) : Task :=
  SshReserve (critical_record event timestamp (without_nulls (jobj
    [("providerKind", Str (em_provider_kind e)); ("component", Str (em_component e)); ("format", Str "lifecycle");
     ("code", jopt_str code)]))).

Definition stage_with_http_status (e : Emitter) (stage : string) (elapsed_ms : Z) (outcome : string)
    (code : option string) (http_status : option Z) (timestamp : string) : Task :=
  SshReserve (critical_record "runtime.access.stage" timestamp (without_nulls (jobj
    [("providerKind", Str (em_provider_kind e)); ("component", Str (em_component e)); ("format", Str "stage");
     ("stage", Str stage); ("elapsedMs", jint elapsed_ms); ("outcome", Str outcome); ("code", jopt_str code);
     ("httpStatus", jopt_int http_status)]))).

Definition stage (e : Emitter) (stage_name : string) (elapsed_ms : Z) (outcome : string) (code : option string)
    (timestamp : string) : Task := stage_with_http_status e stage_name elapsed_ms outcome code None timestamp.
Definition connector_stage (e : Emitter) (elapsed_ms : Z) (outcome : string) (code : option string)
    (http_status : option Z) (timestamp : string) : Task :=
  stage_with_http_status e "connector" elapsed_ms outcome code http_status timestamp.

(** [None]: the report itself panics. *)
Definition panic_report (e : Emitter) (stage message timestamp : string) : option Task :=
  message ← truncate 600 message;
  Some (SshReserve (critical_record "runtime.access.panic" timestamp (without_nulls (jobj
    [("providerKind", Str (em_provider_kind e)); ("format", Str "panic"); ("stage", Str stage);
     ("message", Str message)])))).

(** [raw_tailscaled_line]: nothing without a raw window; the first line after its end
    marks the closure; before it the sanitized line. *)
Definition raw_tailscaled_line (e : Emitter) (line exact_auth_key : string) (input_truncated : bool)
    (now_ms : Z) (timestamp : string) (s : Shared) : Shared * option Task :=
  match em_raw_expires_at_ms e with
  | None => (s, None)
  | Some expires_at_ms =>
      if expires_at_ms <=? now_ms then
        if sh_raw_window_marked s then (s, None)
        else
          (set_marks (sh_next_sequence s) true s,
           Some (SshReserve (critical_record "runtime.access.tailscale.raw_window_closed" timestamp (without_nulls (jobj
             [("providerKind", Str "tailscale"); ("component", Str "tailscaled"); ("format", Str "lifecycle");
              ("expiresAtMs", jint expires_at_ms)])))))
      else
        let '(message, redacted, truncated) := sanitize_tailscaled_line line exact_auth_key input_truncated in
        (s, Some (SshAdmit
          {| rr_event := "runtime.access.tailscale.stderr"; rr_timestamp := timestamp;
             rr_details := jobj [("providerKind", Str "tailscale"); ("component", Str "tailscaled");
                                 ("format", Str "raw_canary"); ("message", Str message);
                                 ("redacted", Bool redacted); ("truncated", Bool truncated)];
             rr_admitted_bytes := Z.min (len line) RUNTIME_SSH_LINE_BYTES; rr_critical := false |}))
  end.

End emitter.

(** ** Threads together *)

(** The shared state, the unfinished tasks and, as ghost state for each origin, what was
    offered to the queue, received from it, refused by the worker after that, and
    taken from the drop counters for a report, in records and bytes.  The worker encrypts
    the report only then, and one it fails to encrypt is lost. *)
Record Tally := { ta_records : Z; ta_bytes : Z }.
Definition no_tally : Tally := {| ta_records := 0; ta_bytes := 0 |}.
Definition tally (records bytes : Z) (t : Tally) : Tally :=
  {| ta_records := ta_records t + records; ta_bytes := ta_bytes t + bytes |}.
Definition at_origin {A} (o : LogOrigin) (a b : A) : A := match o with Customer => a | RuntimeSsh => b end.

Record Pool := {
  pl_shared : Shared;
  pl_tasks : list Task;
  pl_offered : LogOrigin -> Tally;
  pl_received : LogOrigin -> Tally;
  pl_refused : LogOrigin -> Tally;
  pl_taken : LogOrigin -> Tally
}.

(** The origin and size of a new task's record; tasks of the worker have none. *)
Definition task_origin (t : Task) : LogOrigin :=
  match t with
  | ChunkAdmit _ _ | ChunkSend _ | ChunkDrop _ | ChunkDropBytes _ => Customer
  | TakeBytes origin _ => origin
  | _ => RuntimeSsh
  end.
Definition bump (o : LogOrigin) (records bytes : Z) (f : LogOrigin -> Tally) (o' : LogOrigin) : Tally :=
  if same_origin o o' then tally records bytes (f o') else f o'.

(** The task with which [enqueue_chunk], [enqueue] and [enqueue_critical] begin. *)
Definition starts_with_bytes (t : Task) (bytes : Z) : Prop :=
  match t with
  | ChunkAdmit _ chunk => bytes = chunk_bytes chunk
  | SshAdmit record | SshReserve record => bytes = rr_admitted_bytes record
  | _ => False
  end.

Definition drops_of (o : LogOrigin) (s : Shared) : DroppedOutput := at_origin o (sh_dropped s) (sh_runtime_dropped s).

Inductive pool_step : Pool -> Pool -> Prop :=
| step_offer p t bytes : starts_with_bytes t bytes -> 0 <= bytes ->
    pool_step p {| pl_shared := pl_shared p; pl_tasks := t :: pl_tasks p;
                   pl_offered := bump (task_origin t) 1 bytes (pl_offered p);
                   pl_received := pl_received p; pl_refused := pl_refused p; pl_taken := pl_taken p |}
| step_task p before t after now restart s o : pl_tasks p = before ++ t :: after ->
    task_step now restart t (pl_shared p) = (s, o) ->
    pool_step p {| pl_shared := s; pl_tasks := before ++ option_list o ++ after;
                   pl_offered := pl_offered p; pl_received := pl_received p;
                   pl_refused := pl_refused p; pl_taken := match t with
                                  | TakeBytes origin _ => bump origin 0 (dr_bytes (drops_of origin (pl_shared p))) (pl_taken p)
                                  | _ => pl_taken p
                                  end |}
| step_finish p : pool_step p {| pl_shared := finish_customer (pl_shared p); pl_tasks := pl_tasks p;
    pl_offered := pl_offered p; pl_received := pl_received p; pl_refused := pl_refused p; pl_taken := pl_taken p |}
| step_receive_chunk p chunk q : sh_customer (pl_shared p) = WorkChunk chunk :: q ->
    pool_step p {| pl_shared := set_customer q (pl_shared p); pl_tasks := pl_tasks p; pl_offered := pl_offered p;
                   pl_received := bump Customer 1 (chunk_bytes chunk) (pl_received p); pl_refused := pl_refused p; pl_taken := pl_taken p |}
| step_receive_finish p q : sh_customer (pl_shared p) = WorkFinish :: q ->
    pool_step p {| pl_shared := set_customer q (pl_shared p); pl_tasks := pl_tasks p; pl_offered := pl_offered p;
                   pl_received := pl_received p; pl_refused := pl_refused p; pl_taken := pl_taken p |}
| step_receive_ssh p record q : sh_runtime (pl_shared p) = WorkRuntimeSsh record :: q ->
    pool_step p {| pl_shared := set_runtime q (pl_shared p); pl_tasks := ReceivedSsh record :: pl_tasks p;
                   pl_offered := pl_offered p;
                   pl_received := bump RuntimeSsh 1 (rr_admitted_bytes record) (pl_received p);
                   pl_refused := pl_refused p; pl_taken := pl_taken p |}
| step_take p origin : (** [DroppedOutput::take]: first the chunks, then the bytes *)
    let s := pl_shared p in
    pool_step p {| pl_shared := set_dropped origin (fun d => {| dr_chunks := 0; dr_bytes := dr_bytes d |}) s;
                   pl_tasks := TakeBytes origin (dr_chunks (drops_of origin s)) :: pl_tasks p;
                   pl_offered := pl_offered p; pl_received := pl_received p;
                   pl_refused := pl_refused p; pl_taken := bump origin (dr_chunks (drops_of origin s)) 0 (pl_taken p) |}
| step_refuse p origin bytes : 0 <= bytes ->
    pool_step p {| pl_shared := pl_shared p;
                   pl_tasks := at_origin origin (ChunkDrop bytes) (SshDrop bytes) :: pl_tasks p;
                   pl_offered := pl_offered p; pl_received := pl_received p;
                   pl_refused := bump origin 1 bytes (pl_refused p); pl_taken := pl_taken p |}
| step_marks p sequence marked : (** [fetch_sequence] and the raw window's mark *)
    pool_step p {| pl_shared := set_marks sequence marked (pl_shared p); pl_tasks := pl_tasks p;
                   pl_offered := pl_offered p; pl_received := pl_received p; pl_refused := pl_refused p;
                   pl_taken := pl_taken p |}
| step_close p : pool_step p {| pl_shared := set_ends false (sh_sender (pl_shared p)) (pl_shared p);
    pl_tasks := pl_tasks p; pl_offered := pl_offered p; pl_received := pl_received p; pl_refused := pl_refused p; pl_taken := pl_taken p |}.

Definition initial_shared (now : Z) : Shared :=
  {| sh_customer := []; sh_runtime := []; sh_open := true; sh_sender := true; sh_dropped := no_drops;
     sh_runtime_dropped := no_drops; sh_budget := new_budget now OUTPUT_BYTES_PER_SECOND;
     sh_runtime_budget := new_budget now RUNTIME_SSH_BYTES_PER_SECOND; sh_queued_bytes := 0; sh_next_sequence := 0;
     sh_raw_window_marked := false |}.
Definition initial_pool (now : Z) : Pool :=
  {| pl_shared := initial_shared now; pl_tasks := []; pl_offered := fun _ => no_tally;
     pl_received := fun _ => no_tally; pl_refused := fun _ => no_tally; pl_taken := fun _ => no_tally |}.

Definition reachable (now : Z) (p : Pool) : Prop := rtc pool_step (initial_pool now) p.

(** * Properties *)

(** ** Accounting *)

Definition total {A} (f : A -> Z) (l : list A) : Z := foldr (fun a n => f a + n) 0 l.

Lemma total_app {A} (f : A -> Z) l l' : total f (l ++ l') = total f l + total f l'.
Proof. induction l; cbn; unfold total in *; lia. Qed.

Lemma total_cons {A} (f : A -> Z) a l : total f (a :: l) = f a + total f l.
Proof. done. Qed.
Lemma total_nil {A} (f : A -> Z) : total f [] = 0.
Proof. done. Qed.
Arguments total : simpl never.

(** Bytes reserved for a record that is not in the queue. *)
Definition reserved (t : Task) : Z :=
  match t with SshSend record | SshRelease record | ReceivedSsh record => rr_admitted_bytes record | _ => 0 end.
Definition work_bytes (w : LogWork) : Z :=
  match w with WorkChunk chunk => chunk_bytes chunk | WorkRuntimeSsh record => rr_admitted_bytes record | WorkFinish => 0 end.
Definition work_records (w : LogWork) : Z := match w with WorkFinish => 0 | _ => 1 end.

(** A record or bytes that a task still has to pass on or to count. *)
Definition task_bytes (t : Task) : Z :=
  match t with
  | ChunkAdmit _ chunk | ChunkSend chunk => chunk_bytes chunk
  | SshAdmit record | SshReserve record | SshSend record | SshRelease record => rr_admitted_bytes record
  | ChunkDrop bytes | ChunkDropBytes bytes | SshDrop bytes | SshDropBytes bytes => bytes
  | ReceivedSsh _ | TakeBytes _ _ => 0
  end.
Definition task_records (t : Task) : Z :=
  match t with ChunkDropBytes _ | SshDropBytes _ | ReceivedSsh _ | TakeBytes _ _ => 0 | _ => 1 end.
Definition of_origin (o : LogOrigin) (f : Task -> Z) (t : Task) : Z := if same_origin (task_origin t) o then f t else 0.
Definition queue_of (o : LogOrigin) (s : Shared) : list LogWork := at_origin o (sh_customer s) (sh_runtime s).

(** What was offered or refused is received, queued, on its way, counted or reported. *)
Definition balanced (p : Pool) (o : LogOrigin) : Prop :=
  let s := pl_shared p in
  ta_records (pl_offered p o) + ta_records (pl_refused p o) =
    ta_records (pl_received p o) + total work_records (queue_of o s) + total (of_origin o task_records) (pl_tasks p)
    + dr_chunks (drops_of o s) + ta_records (pl_taken p o) /\
  ta_bytes (pl_offered p o) + ta_bytes (pl_refused p o) =
    ta_bytes (pl_received p o) + total work_bytes (queue_of o s) + total (of_origin o task_bytes) (pl_tasks p)
    + dr_bytes (drops_of o s) + ta_bytes (pl_taken p o).

(** The counters, and so the sums, stay within 64 bits. *)
Definition countable (p : Pool) (o : LogOrigin) : Prop :=
  ta_records (pl_offered p o) + ta_records (pl_refused p o) <= u64_max /\
  ta_bytes (pl_offered p o) + ta_bytes (pl_refused p o) <= u64_max.

Definition is_ssh (w : LogWork) : Prop := match w with WorkRuntimeSsh _ => True | _ => False end.
Definition is_customer (w : LogWork) : Prop := match w with WorkRuntimeSsh _ => False | _ => True end.
Definition budget_wf (limit : Z) (b : ByteBudget) : Prop := bb_limit b = limit /\ 0 <= bb_admitted b <= limit.
Definition task_wf (t : Task) : Prop := 0 <= task_bytes t /\ 0 <= reserved t.

Definition shared_wf (s : Shared) : Prop :=
  sh_queued_bytes s <= RUNTIME_SSH_QUEUE_MEMORY_BYTES /\
  (forall o, (length (queue_of o s) <= OUTPUT_QUEUE_CAPACITY)%nat) /\
  Forall is_customer (sh_customer s) /\ Forall is_ssh (sh_runtime s) /\
  (forall o, Forall (fun w => 0 <= work_bytes w) (queue_of o s)) /\
  budget_wf OUTPUT_BYTES_PER_SECOND (sh_budget s) /\ budget_wf RUNTIME_SSH_BYTES_PER_SECOND (sh_runtime_budget s) /\
  (forall o, 0 <= dr_chunks (drops_of o s) /\ 0 <= dr_bytes (drops_of o s)).

Record pool_wf (p : Pool) : Prop := {
  wf_shared : shared_wf (pl_shared p);
  wf_queued : sh_queued_bytes (pl_shared p) = total work_bytes (sh_runtime (pl_shared p)) + total reserved (pl_tasks p);
  wf_tasks : Forall task_wf (pl_tasks p);
  wf_tallies : forall o, 0 <= ta_records (pl_received p o) /\ 0 <= ta_bytes (pl_received p o) /\
    0 <= ta_records (pl_taken p o) /\ 0 <= ta_bytes (pl_taken p o);
  wf_balanced : forall o, countable p o -> balanced p o
}.

Lemma total_nonneg {A} (f : A -> Z) l : Forall (fun a => 0 <= f a) l -> 0 <= total f l.
Proof. induction 1; [done |]. rewrite total_cons. lia. Qed.

Lemma admit_wf now restart bytes b limit : 0 <= bytes -> budget_wf limit b -> budget_wf limit (budget_admit now restart bytes b).1.
Proof.
  intros Hb [Hl Ha]. unfold budget_admit. set (b' := current_window now restart b).
  assert (Hb' : budget_wf limit b') by (unfold b', current_window; destruct (_ <=? _); split; cbn; lia).
  destruct Hb' as [Hl' Ha']. destruct (checked_add_u64 (bb_admitted b') bytes) as [next|] eqn:Hc; [| by split].
  unfold checked_add_u64 in Hc. destruct (_ <=? u64_max) in Hc; [| done]. injection Hc as <-.
  destruct (bb_limit b' <? bb_admitted b' + bytes) eqn:He; [by split |]. apply Z.ltb_ge in He. split; cbn; lia.
Qed.

Lemma countable_tasks p : pool_wf p -> forall o, countable p o ->
  dr_chunks (drops_of o (pl_shared p)) + total (of_origin o task_records) (pl_tasks p) <= u64_max /\
  dr_bytes (drops_of o (pl_shared p)) + total (of_origin o task_bytes) (pl_tasks p) <= u64_max.
Proof.
  intros Hwf o Hc. destruct (wf_balanced p Hwf o Hc) as [Hr Hb]. destruct Hc as [Hc1 Hc2].
  destruct (wf_tallies p Hwf o) as (? & ? & ? & ?). destruct (wf_shared p Hwf) as (_ & _ & _ & _ & Hbytes & _ & _ & _).
  pose proof (total_nonneg work_bytes _ (Hbytes o)).
  assert (0 <= total work_records (queue_of o (pl_shared p)))
    by (apply total_nonneg, Forall_true; intros []; cbn; lia).
  lia.
Qed.

Definition opt_total (f : Task -> Z) (o : option Task) : Z := match o with Some t => f t | None => 0 end.

(** What [take] moves out of the counter. *)
Definition taken_bytes (o : LogOrigin) (t : Task) (s : Shared) : Z :=
  match t with TakeBytes o' _ => if same_origin o' o then dr_bytes (drops_of o s) else 0 | _ => 0 end.

Definition step_balance (o : LogOrigin) (t : Task) (s s' : Shared) (next : option Task) : Prop :=
  total work_records (queue_of o s') + opt_total (of_origin o task_records) next + dr_chunks (drops_of o s') =
    total work_records (queue_of o s) + of_origin o task_records t + dr_chunks (drops_of o s) /\
  total work_bytes (queue_of o s') + opt_total (of_origin o task_bytes) next + dr_bytes (drops_of o s') + taken_bytes o t s =
    total work_bytes (queue_of o s) + of_origin o task_bytes t + dr_bytes (drops_of o s).

Lemma has_room_app open q w : has_room open q = true -> (length (q ++ [w]) <= OUTPUT_QUEUE_CAPACITY)%nat.
Proof. unfold has_room. intros [_ Hl]%andb_prop. apply Nat.ltb_lt in Hl. rewrite length_app. cbn in *. lia. Qed.

Lemma shared_wf_send_customer s chunk : shared_wf s -> 0 <= chunk_bytes chunk -> has_room (sh_open s) (sh_customer s) = true ->
  shared_wf (set_customer (sh_customer s ++ [WorkChunk chunk]) s).
Proof.
  intros (Hm & Hl & Hc & Hr & Hb & Hbu & Hrb & Hd) Hn Hroom. split_and!; try done.
  - intros []; cbn; [by eapply has_room_app | apply (Hl RuntimeSsh)].
  - apply Forall_app. by split; [| apply Forall_singleton].
  - intros []; cbn; [| apply (Hb RuntimeSsh)]. apply Forall_app. split; [apply (Hb Customer) | by apply Forall_singleton].
Qed.

Lemma shared_wf_send_runtime s record : shared_wf s -> 0 <= rr_admitted_bytes record ->
  has_room (sh_open s) (sh_runtime s) = true -> shared_wf (set_runtime (sh_runtime s ++ [WorkRuntimeSsh record]) s).
Proof.
  intros (Hm & Hl & Hc & Hr & Hb & Hbu & Hrb & Hd) Hn Hroom. split_and!; try done.
  - intros []; cbn; [apply (Hl Customer) | by eapply has_room_app].
  - apply Forall_app. by split; [| apply Forall_singleton].
  - intros []; cbn; [apply (Hb Customer) |]. apply Forall_app. split; [apply (Hb RuntimeSsh) | by apply Forall_singleton].
Qed.

Lemma shared_wf_dropped s o f : shared_wf s ->
  (forall d, 0 <= dr_chunks d -> 0 <= dr_bytes d -> 0 <= dr_chunks (f d) /\ 0 <= dr_bytes (f d)) ->
  shared_wf (set_dropped o f s).
Proof.
  intros (Hm & Hl & Hc & Hr & Hb & Hbu & Hrb & Hd) Hf. split_and!; try done.
  intros o'. destruct (Hd o'). destruct o, o'; cbn in *; auto.
Qed.

Lemma reserve_wf s bytes s' : shared_wf s -> reserve_queue_bytes bytes s = (s', true) ->
  shared_wf s' /\ s' = set_queued (sh_queued_bytes s + bytes) s.
Proof.
  intros (Hm & Hl & Hc & Hr & Hb & Hbu & Hrb & Hd). unfold reserve_queue_bytes, checked_add_u64.
  destruct (_ <=? u64_max); cbn; [| done]. destruct (_ <=? RUNTIME_SSH_QUEUE_MEMORY_BYTES) eqn:Hle; [| done].
  apply Z.leb_le in Hle. intros [= <-]. by split_and!.
Qed.

Lemma shared_wf_queued s q : shared_wf s -> q <= RUNTIME_SSH_QUEUE_MEMORY_BYTES -> shared_wf (set_queued q s).
Proof. intros (Hm & Hl & Hc & Hr & Hb & Hbu & Hrb & Hd) Hq. by split_and!. Qed.

Lemma shared_wf_budgets s b r : shared_wf s -> budget_wf OUTPUT_BYTES_PER_SECOND b ->
  budget_wf RUNTIME_SSH_BYTES_PER_SECOND r -> shared_wf (set_budgets b r s).
Proof. intros (Hm & Hl & Hc & Hr & Hb & Hbu & Hrb & Hd) Hq Hq'. by split_and!. Qed.

Lemma task_step_wf now restart t s s' next : task_step now restart t s = (s', next) ->
  shared_wf s -> task_wf t -> reserved t <= sh_queued_bytes s ->
  shared_wf s' /\ (forall t', next = Some t' -> task_wf t') /\
  sh_queued_bytes s' - total work_bytes (sh_runtime s') - opt_total reserved next =
    sh_queued_bytes s - total work_bytes (sh_runtime s) - reserved t.
Proof.
  intros Ht Hs [Hn Hr] Hq. pose proof Hs as (Hm & _ & _ & _ & _ & Hbu & Hrb & _).
  destruct t as [sender chunk|chunk|bytes|bytes|record|record|record|record|bytes|bytes|record|origin chunks];
    cbn [task_step task_bytes reserved] in *.
  - destruct (budget_admit now restart (chunk_bytes chunk) (sh_budget s)) as [b admitted] eqn:Ha. injection Ht as <- <-.
    pose proof (admit_wf now restart (chunk_bytes chunk) (sh_budget s) _ Hn Hbu) as Hb. rewrite Ha in Hb.
    split; [by apply shared_wf_budgets |]. destruct (admitted && sender); cbn; (split; [intros t' [= <-]; by split | lia]).
  - destruct (has_room (sh_open s) (sh_customer s)) eqn:Hroom; injection Ht as <- <-; cbn.
    + split; [by apply shared_wf_send_customer |]. by split; [intros ? [=] | lia].
    + split; [done |]. split; [intros t' [= <-]; by split | lia].
  - injection Ht as <- <-. split; [apply shared_wf_dropped; [done |]; intros d ??; cbn; unfold saturating_add, u64_max; lia |].
    split; [intros t' [= <-]; by split | cbn; lia].
  - injection Ht as <- <-. split; [apply shared_wf_dropped; [done |]; intros d ??; cbn; unfold saturating_add, u64_max; lia |].
    split; [by intros ? [=] | cbn; lia].
  - destruct (budget_admit now restart (rr_admitted_bytes record) (sh_runtime_budget s)) as [b admitted] eqn:Ha. injection Ht as <- <-.
    pose proof (admit_wf now restart (rr_admitted_bytes record) (sh_runtime_budget s) _ Hn Hrb) as Hb. rewrite Ha in Hb.
    split; [by apply shared_wf_budgets |]. destruct admitted; cbn; (split; [intros t' [= <-]; by split | lia]).
  - destruct (reserve_queue_bytes (rr_admitted_bytes record) s) as [s1 []] eqn:Hres; injection Ht as <- <-.
    + destruct (reserve_wf _ _ _ Hs Hres) as [Hs1 ->]. split; [done |]. split; [intros t' [= <-]; by split | cbn; lia].
    + unfold reserve_queue_bytes in Hres. destruct (opt_filter _ _); [done |]. injection Hres as <-.
      split; [done |]. split; [intros t' [= <-]; by split | cbn; lia].
  - destruct (has_room (sh_open s) (sh_runtime s)) eqn:Hroom; injection Ht as <- <-; cbn.
    + split; [by apply shared_wf_send_runtime |]. split; [by intros ? [=] |]. rewrite total_app, total_cons, total_nil. cbn. lia.
    + split; [done |]. split; [intros t' [= <-]; by split | lia].
  - injection Ht as <- <-. unfold release_queue_bytes, saturating_sub_u. split; [apply shared_wf_queued; [done | lia] |].
    split; [intros t' [= <-]; by split | cbn; lia].
  - injection Ht as <- <-. split; [apply shared_wf_dropped; [done |]; intros d ??; cbn; unfold saturating_add, u64_max; lia |].
    split; [intros t' [= <-]; by split | cbn; lia].
  - injection Ht as <- <-. split; [apply shared_wf_dropped; [done |]; intros d ??; cbn; unfold saturating_add, u64_max; lia |].
    split; [by intros ? [=] | cbn; lia].
  - injection Ht as <- <-. unfold release_queue_bytes, saturating_sub_u. split; [apply shared_wf_queued; [done | lia] |].
    split; [by intros ? [=] | cbn; lia].
  - injection Ht as <- <-. split; [apply shared_wf_dropped; [done |]; by cbn |]. split; [by intros ? [=] | cbn; lia].
Qed.

Lemma task_step_balance now restart t s s' next o : task_step now restart t s = (s', next) -> task_wf t ->
  (forall o, 0 <= dr_chunks (drops_of o s) /\ 0 <= dr_bytes (drops_of o s)) ->
  dr_chunks (drops_of o s) + of_origin o task_records t <= u64_max ->
  dr_bytes (drops_of o s) + of_origin o task_bytes t <= u64_max -> step_balance o t s s' next.
Proof.
  intros Ht [Hn _] Hd Hc Hb. destruct (Hd o). unfold step_balance, of_origin in *.
  destruct t as [sender chunk|chunk|bytes|bytes|record|record|record|record|bytes|bytes|record|origin chunks];
    cbn [task_step task_bytes task_records task_origin] in *.
  all: repeat match type of Ht with
       | (let '(_, _) := ?x in _) = _ => destruct x as [? ?] eqn:?
       | (if ?c then _ else _) = _ => destruct c eqn:?
       end; injection Ht as <- <-.
  all: try match goal with H : reserve_queue_bytes _ _ = (_, _) |- _ =>
    unfold reserve_queue_bytes in H; destruct (opt_filter _ _) in H; injection H as <- <- end.
  all: try (destruct (_ && _)); try match goal with b : bool |- _ => destruct b end.
  all: destruct o; cbn in *; rewrite ?total_app, ?total_cons, ?total_nil; cbn; unfold saturating_add; try lia.
  all: destruct origin; cbn in *; lia.
Qed.

Lemma of_origin_nonneg o f t : 0 <= f t -> 0 <= of_origin o f t.
Proof. unfold of_origin. destruct (same_origin _ _); lia. Qed.

Lemma task_records_nonneg t : 0 <= task_records t.
Proof. destruct t; cbn; lia. Qed.

Lemma step_task_wf p before t after now restart s o : pool_wf p -> pl_tasks p = before ++ t :: after ->
  task_step now restart t (pl_shared p) = (s, o) ->
  pool_wf {| pl_shared := s; pl_tasks := before ++ option_list o ++ after;
             pl_offered := pl_offered p; pl_received := pl_received p; pl_refused := pl_refused p;
             pl_taken := match t with
                            | TakeBytes origin _ => bump origin 0 (dr_bytes (drops_of origin (pl_shared p))) (pl_taken p)
                            | _ => pl_taken p
                            end |}.
Proof.
  intros Hwf Htasks Hstep. pose proof (wf_tasks p Hwf) as Hts. rewrite Htasks in Hts.
  apply Forall_app in Hts as [Hbefore [Ht Hafter]%Forall_cons]. pose proof (wf_queued p Hwf) as Hq.
  rewrite Htasks, total_app, total_cons in Hq. destruct (wf_shared p Hwf) as (_ & _ & _ & _ & Hb & _ & _ & Hd).
  assert (Hpos : forall l, Forall task_wf l -> 0 <= total reserved l)
    by (intros l Hl; apply total_nonneg; eapply Forall_impl; [exact Hl | by intros ? []]).
  pose proof (Hpos _ Hbefore). pose proof (Hpos _ Hafter). pose proof (total_nonneg work_bytes _ (Hb RuntimeSsh)) as Hrt.
  cbn [queue_of at_origin] in Hrt.
  destruct (task_step_wf _ _ _ _ _ _ Hstep (wf_shared p Hwf) Ht ltac:(lia)) as (Hs & Hnext & Hdelta).
  assert (Hopt : forall f, total f (option_list o) = opt_total f o)
    by (intros f; destruct o; cbn; rewrite ?total_cons, ?total_nil; cbn; lia).
  constructor; cbn [pl_shared pl_tasks pl_received pl_taken pl_offered pl_refused].
  - done.
  - rewrite !total_app, Hopt. lia.
  - apply Forall_app. split; [done |]. apply Forall_app. split; [| done]. destruct o; [by apply Forall_singleton, Hnext | done].
  - intros o'. destruct (wf_tallies p Hwf o') as (? & ? & ? & ?). split_and!; try done;
      destruct t; try done; unfold bump; destruct (Hd origin); destruct (same_origin origin o'); cbn; lia.
  - intros o' Hc. destruct (countable_tasks p Hwf o' Hc) as [Hc1 Hc2]. destruct (wf_balanced p Hwf o' Hc) as [Hr Hby].
    rewrite Htasks, total_app, total_cons in Hc1, Hc2, Hr, Hby.
    assert (Hpos' : forall l, Forall task_wf l -> 0 <= total (of_origin o' task_bytes) l /\ 0 <= total (of_origin o' task_records) l).
    { intros l Hl. split; apply total_nonneg; eapply Forall_impl; try exact Hl; intros t' [? ?];
        apply of_origin_nonneg; [done | apply task_records_nonneg]. }
    destruct (Hpos' _ Hbefore), (Hpos' _ Hafter).
    destruct (task_step_balance _ _ _ _ _ _ o' Hstep Ht Hd ltac:(lia) ltac:(lia)) as [Hbr Hbb].
    split; cbn [pl_shared pl_tasks pl_received pl_taken pl_offered pl_refused]; rewrite !total_app, Hopt;
      destruct t; cbn [taken_bytes] in *; unfold bump; try lia;
      destruct origin, o'; cbn [same_origin tally ta_records ta_bytes] in *; lia.
Qed.

Lemma finish_customer_wf s : shared_wf s -> shared_wf (finish_customer s) /\
  sh_queued_bytes (finish_customer s) = sh_queued_bytes s /\ sh_runtime (finish_customer s) = sh_runtime s /\
  (forall o, drops_of o (finish_customer s) = drops_of o s /\
     total work_records (queue_of o (finish_customer s)) = total work_records (queue_of o s) /\
     total work_bytes (queue_of o (finish_customer s)) = total work_bytes (queue_of o s)).
Proof.
  intros (Hm & Hl & Hc & Hr & Hb & Hbu & Hrb & Hd). unfold finish_customer. destruct (sh_sender s); cbn [negb]; [| by split_and!].
  destruct (has_room _ _) eqn:Hroom; [| by split_and!]. split; [split_and! |]; try done.
  - intros []; cbn; [by eapply has_room_app | apply (Hl RuntimeSsh)].
  - cbn. apply Forall_app. by split; [| apply Forall_singleton].
  - intros []; cbn; [| apply (Hb RuntimeSsh)]. apply Forall_app. split; [apply (Hb Customer) | by apply Forall_singleton].
  - split_and!; try done. intros []; cbn; rewrite ?total_app, ?total_cons, ?total_nil; cbn; split_and!; try done; lia.
Qed.

Lemma bump_tallies o r b f o' : 0 <= r -> 0 <= b -> 0 <= ta_records (f o') /\ 0 <= ta_bytes (f o') ->
  0 <= ta_records (bump o r b f o') /\ 0 <= ta_bytes (bump o r b f o').
Proof. unfold bump. destruct (same_origin o o'); cbn; lia. Qed.

(** A new task that is not the worker's: its record is offered or refused. *)
Lemma new_task_balanced o t r p q : balanced q o ->
  pl_shared p = pl_shared q -> pl_received p = pl_received q -> pl_taken p = pl_taken q ->
  pl_tasks p = t :: pl_tasks q ->
  ta_records (pl_offered p o) + ta_records (pl_refused p o) =
    ta_records (pl_offered q o) + ta_records (pl_refused q o) + of_origin o task_records t ->
  ta_bytes (pl_offered p o) + ta_bytes (pl_refused p o) =
    ta_bytes (pl_offered q o) + ta_bytes (pl_refused q o) + of_origin o r t ->
  r t = task_bytes t -> balanced p o.
Proof.
  intros [Hr Hb] Hs Hrec Hrep Htasks Hor Hob Ht. unfold balanced. rewrite Hs, Hrec, Hrep, Htasks, !total_cons.
  unfold of_origin in *. rewrite Ht in Hob. destruct (same_origin _ _); lia.
Qed.

Lemma pool_step_wf p p' : pool_wf p -> pool_step p p' -> pool_wf p'.
Proof.
  intros Hwf Hstep. pose proof (wf_shared p Hwf) as Hs. pose proof Hs as (Hm & Hl & Hcu & Hru & Hb & Hbu & Hrb & Hd).
  pose proof (wf_queued p Hwf) as Hq. pose proof (wf_tasks p Hwf) as Hts. pose proof (wf_tallies p Hwf) as Hty.
  pose proof (wf_balanced p Hwf) as Hba.
  destruct Hstep as [p t bytes Hstart Hn | p before t after now restart s o Htasks Ht | p | p chunk q Hc | p q Hc | p record q Hc
    | p origin s | p origin bytes Hn | p sequence marked | p].
  - assert (Hres : reserved t = 0 /\ task_bytes t = bytes /\ task_records t = 1 /\ task_wf t)
      by (unfold task_wf; destruct t; cbn in Hstart |- *; try done; subst; lia).
    destruct Hres as (Hr0 & Htb & Htr & Htw). constructor; cbn; try done.
    + rewrite total_cons, Hr0. lia.
    + by apply Forall_cons.
    + intros o [Hc1 Hc2]. cbn in Hc1, Hc2. eapply (new_task_balanced o t task_bytes _ p); cbn; try done.
      * apply Hba. unfold bump in *. unfold countable. destruct (same_origin _ _); cbn in *; lia.
      * unfold bump, of_origin. rewrite Htr. destruct (same_origin _ _); cbn; lia.
      * unfold bump, of_origin. rewrite Htb. destruct (same_origin _ _); cbn; lia.
  - by apply step_task_wf with now restart.
  - destruct (finish_customer_wf _ Hs) as (Hs' & Hq' & Hr' & Ho). constructor; cbn; try done.
    + by rewrite Hq', Hr'.
    + intros o Hc. destruct (Ho o) as (Hdr & Hrec & Hby). specialize (Hba o Hc). unfold balanced in *.
      cbn in *. by rewrite Hdr, Hrec, Hby.
  - constructor; cbn; try done.
    + split_and!; cbn; try done.
      * intros []; cbn; [| apply (Hl RuntimeSsh)]. specialize (Hl Customer). cbn in Hl. rewrite Hc in Hl. cbn in Hl. lia.
      * rewrite Hc in Hcu. by apply Forall_cons in Hcu as [_ ?].
      * intros []; cbn; [| apply (Hb RuntimeSsh)]. specialize (Hb Customer). cbn in Hb. rewrite Hc in Hb. by apply Forall_cons in Hb as [_ ?].
    + intros o. destruct (Hty o) as (? & ? & ? & ?). specialize (Hb Customer). cbn in Hb. rewrite Hc in Hb.
      apply Forall_cons in Hb as [? _]. destruct (bump_tallies Customer 1 (chunk_bytes chunk) (pl_received p) o); try done; lia.
    + intros o Hcount. specialize (Hba o Hcount). unfold balanced in *. cbn in *.
      destruct o; cbn in *; rewrite ?Hc, ?total_cons in Hba; cbn in *; unfold bump; cbn; lia.
  - constructor; cbn; try done.
    + split_and!; cbn; try done.
      * intros []; cbn; [| apply (Hl RuntimeSsh)]. specialize (Hl Customer). cbn in Hl. rewrite Hc in Hl. cbn in Hl. lia.
      * rewrite Hc in Hcu. by apply Forall_cons in Hcu as [_ ?].
      * intros []; cbn; [| apply (Hb RuntimeSsh)]. specialize (Hb Customer). cbn in Hb. rewrite Hc in Hb. by apply Forall_cons in Hb as [_ ?].
    + intros o Hcount. specialize (Hba o Hcount). unfold balanced in *. cbn in *.
      destruct o; cbn in *; rewrite ?Hc, ?total_cons in Hba; cbn in *; lia.
  - specialize (Hb RuntimeSsh) as Hbr. cbn in Hbr. rewrite Hc in Hbr. apply Forall_cons in Hbr as [Hn Hbr]. cbn in Hn.
    constructor; cbn; try done.
    + split_and!; cbn; try done.
      * intros []; cbn; [apply (Hl Customer) |]. specialize (Hl RuntimeSsh). cbn in Hl. rewrite Hc in Hl. cbn in Hl. lia.
      * rewrite Hc in Hru. by apply Forall_cons in Hru as [_ ?].
      * intros []; cbn; [apply (Hb Customer) | done].
    + rewrite Hc, total_cons in Hq. rewrite total_cons. cbn in *. lia.
    + apply Forall_cons. by split.
    + intros o. destruct (Hty o) as (? & ? & ? & ?).
      destruct (bump_tallies RuntimeSsh 1 (rr_admitted_bytes record) (pl_received p) o); try done; lia.
    + intros o Hcount. specialize (Hba o Hcount). unfold balanced in *. cbn in *. rewrite !total_cons.
      destruct o; cbn in *; rewrite ?Hc, ?total_cons in Hba; cbn in *; unfold bump; cbn; lia.
  - constructor; cbn; try done.
    + by apply shared_wf_dropped.
    + by apply Forall_cons.
    + intros o. destruct (Hty o) as (? & ? & ? & ?), (Hd origin).
      destruct (bump_tallies origin (dr_chunks (drops_of origin s)) 0 (pl_taken p) o); try done; lia.
    + intros o Hcount. specialize (Hba o Hcount). unfold balanced in *. cbn in *. rewrite !total_cons. subst s.
      destruct o, origin; unfold bump; cbn in *; lia.
  - constructor; cbn; try done.
    + rewrite total_cons. destruct origin; cbn; lia.
    + apply Forall_cons. split; [by destruct origin | done].
    + intros o [Hc1 Hc2]. cbn in Hc1, Hc2. eapply (new_task_balanced o _ task_bytes _ p); cbn; try done.
      * apply Hba. unfold bump in *. unfold countable. destruct (same_origin _ _); cbn in *; lia.
      * unfold bump, of_origin. destruct origin, o; cbn; lia.
      * unfold bump, of_origin. destruct origin, o; cbn; lia.
  - by constructor.
  - by constructor.
Qed.

Lemma initial_pool_wf now : pool_wf (initial_pool now).
Proof.
  constructor; cbn; try done; [| by intros []].
  split_and!; cbn; try done; intros []; cbn; (done || lia).
Qed.

Lemma reachable_wf now p : reachable now p -> pool_wf p.
Proof.
  intros Hr. unfold reachable in Hr. pattern p. eapply rtc_ind_r; [apply initial_pool_wf | | exact Hr].
  intros q q' _ Hstep Hq. by eapply pool_step_wf.
Qed.

(** C23: log admission is exact under every interleaving of the reader threads, the
    emitter and the worker: the count of queued bytes is the sum over the records in
    the provider's queue and those being passed to or from it, and never exceeds one
    MiB; no queue holds more than 128 entries; and nothing is lost silently: as long as
    the 64-bit counters suffice, what was offered (or refused by the worker) is, record
    for record and byte for byte, received, queued, on its way, counted as dropped, or
    was taken from the drop counters for a report. *)
Theorem admission_exact now p : reachable now p ->
  sh_queued_bytes (pl_shared p) = total work_bytes (sh_runtime (pl_shared p)) + total reserved (pl_tasks p) /\
  sh_queued_bytes (pl_shared p) <= RUNTIME_SSH_QUEUE_MEMORY_BYTES /\
  (forall o, (length (queue_of o (pl_shared p)) <= OUTPUT_QUEUE_CAPACITY)%nat) /\
  forall o, countable p o -> balanced p o.
Proof.
  intros Hr%reachable_wf. destruct (wf_shared p Hr) as (Hm & Hl & _). split_and!; [apply (wf_queued p Hr) | done | done |].
  apply (wf_balanced p Hr).
Qed.

(** ** Rates *)

(** Calls of [budget_admit] in time order: when, when a new window would start, how much. *)
Record Call := { ca_now : Z; ca_restart : Z; ca_bytes : Z }.

Fixpoint run_budget (calls : list Call) (b : ByteBudget) : list (Z * Z) :=
  match calls with
  | [] => []
  | c :: calls =>
      let '(b, admitted) := budget_admit (ca_now c) (ca_restart c) (ca_bytes c) b in
      (if admitted : bool then [(ca_now c, ca_bytes c)] else []) ++ run_budget calls b
  end.

Definition calls_wf (calls : list Call) : Prop :=
  StronglySorted (fun c d => ca_now c <= ca_now d) calls /\
  Forall (fun c => ca_now c <= ca_restart c /\ 0 <= ca_bytes c) calls.

(** The bytes admitted from [t] on and before [u]. *)
Definition between (t u : Z) (l : list (Z * Z)) : Z :=
  total (fun e => if (t <=? e.1) && (e.1 <? u) then e.2 else 0) l.

Lemma admit_spec c b limit : budget_wf limit b -> 0 <= ca_bytes c ->
  let b0 := current_window (ca_now c) (ca_restart c) b in
  let '(b1, admitted) := budget_admit (ca_now c) (ca_restart c) (ca_bytes c) b in
  budget_wf limit b1 /\ bb_window_started b1 = bb_window_started b0 /\
  bb_admitted b1 = bb_admitted b0 + (if admitted then ca_bytes c else 0).
Proof.
  intros Hb Hn b0. pose proof (admit_wf (ca_now c) (ca_restart c) (ca_bytes c) b limit Hn Hb) as Hwf. revert Hwf.
  unfold budget_admit. fold b0. destruct (checked_add_u64 (bb_admitted b0) (ca_bytes c)) as [next|] eqn:Hc; [| cbn; intros Hwf; split_and!; [done | done | lia]].
  unfold checked_add_u64 in Hc. destruct (_ <=? u64_max) in Hc; [| done]. injection Hc as <-.
  destruct (_ <? _); cbn; intros Hwf; (split_and!; [done | done | lia]).
Qed.

Lemma between_app t u l l' : between t u (l ++ l') = between t u l + between t u l'.
Proof. apply total_app. Qed.

Lemma between_one t u now bytes : between t u [(now, bytes)] = if (t <=? now) && (now <? u) then bytes else 0.
Proof. unfold between. rewrite total_cons, total_nil. cbn. destruct (_ && _); lia. Qed.

Lemma between_late calls b t u : calls_wf calls -> Forall (fun c => u <= ca_now c) calls -> between t u (run_budget calls b) = 0.
Proof.
  intros [_ Hwf]. revert b. induction calls as [|c calls IH]; intros b Hl; [done |].
  apply Forall_cons in Hl as [Hc Hl]. apply Forall_cons in Hwf as [_ Hwf]. cbn [run_budget].
  destruct (budget_admit _ _ _ b) as [b1 []]; rewrite between_app, (IH Hwf _ Hl); [| done].
  rewrite between_one, (proj2 (Z.ltb_ge (ca_now c) u)) by done. by rewrite andb_false_r.
Qed.

Section rate.
Context (limit t u : Z).
Hypothesis Hlimit : 0 <= limit.

Lemma calls_wf_cons c calls : calls_wf (c :: calls) ->
  ca_now c <= ca_restart c /\ 0 <= ca_bytes c /\ calls_wf calls /\ Forall (fun d => ca_now c <= ca_now d) calls.
Proof using. intros [[Hs Hle]%StronglySorted_inv [[] Hf]%Forall_cons]. by split_and!. Qed.

Lemma between_step c calls b : calls_wf (c :: calls) -> budget_wf limit b ->
  exists b1 admitted, between t u (run_budget (c :: calls) b) <= admitted + between t u (run_budget calls b1) /\
    0 <= admitted /\ (u <= ca_now c -> admitted = 0) /\ budget_wf limit b1 /\
    let b0 := current_window (ca_now c) (ca_restart c) b in
    bb_window_started b1 = bb_window_started b0 /\ bb_admitted b0 + admitted <= bb_admitted b1.
Proof using Hlimit.
  intros (Hr & Hn & Hwf & _)%calls_wf_cons Hb. pose proof (admit_spec c b limit Hb Hn) as Hspec. cbn [run_budget].
  destruct (budget_admit (ca_now c) (ca_restart c) (ca_bytes c) b) as [b1 admitted]. destruct Hspec as (Hb1 & Hstart & Hadm).
  exists b1, (if admitted then if ca_now c <? u then ca_bytes c else 0 else 0).
  rewrite between_app. destruct admitted; [rewrite between_one | change (between t u []) with 0].
  - split_and!; try done; destruct (ca_now c <? u) eqn:Hlt; try lia; destruct (t <=? ca_now c); cbn; lia.
  - split_and!; try done; lia.
Qed.

(** Within the current window. *)
Lemma between_window calls b : calls_wf calls -> budget_wf limit b -> u <= bb_window_started b + from_secs 1 ->
  between t u (run_budget calls b) <= limit - bb_admitted b.
Proof using Hlimit.
  revert b. induction calls as [|c calls IH]; intros b Hwf Hb Hu; [destruct Hb; unfold between; cbn; rewrite total_nil; lia |].
  pose proof (calls_wf_cons c calls Hwf) as (Hr & Hn & Hwf' & Hle). destruct (decide (u <= ca_now c)) as [Hlate|Hin].
  { rewrite between_late; [destruct Hb; lia | done |]. apply Forall_cons. split; [done |]. eapply Forall_impl; [exact Hle |]. cbn. lia. }
  destruct (between_step c calls b Hwf Hb) as (b1 & admitted & Hbt & Ha & _ & Hb1 & Hstart & Hadm).
  assert (Hw : current_window (ca_now c) (ca_restart c) b = b).
  { unfold current_window, saturating_duration_since. by rewrite (proj2 (Z.leb_gt _ _)) by (unfold from_secs, NANOS_PER_SEC in *; lia). }
  rewrite Hw in *. specialize (IH b1 Hwf' Hb1 ltac:(lia)). lia.
Qed.

(** Within the current window and the next. *)
Lemma between_two_windows calls b : calls_wf calls -> budget_wf limit b -> u <= bb_window_started b + from_secs 2 ->
  between t u (run_budget calls b) <= 2 * limit - bb_admitted b.
Proof using Hlimit.
  revert b. induction calls as [|c calls IH]; intros b Hwf Hb Hu; [destruct Hb; unfold between; cbn; rewrite total_nil; lia |].
  pose proof (calls_wf_cons c calls Hwf) as (Hr & Hn & Hwf' & Hle). destruct (decide (u <= ca_now c)) as [Hlate|Hin].
  { rewrite between_late; [destruct Hb; lia | done |]. apply Forall_cons. split; [done |]. eapply Forall_impl; [exact Hle |]. cbn. lia. }
  destruct (between_step c calls b Hwf Hb) as (b1 & admitted & Hbt & Ha & _ & Hb1 & Hstart & Hadm).
  unfold current_window, saturating_duration_since in Hstart, Hadm.
  destruct (from_secs 1 <=? Z.max 0 (ca_now c - bb_window_started b)) eqn:Hw.
  - apply Z.leb_le in Hw. cbn in Hstart, Hadm. pose proof (between_window calls b1 Hwf' Hb1) as Hwin.
    destruct Hb. specialize (Hwin ltac:(unfold from_secs, NANOS_PER_SEC in *; lia)). lia.
  - specialize (IH b1 Hwf' Hb1 ltac:(lia)). lia.
Qed.

End rate.

(** The byte budget bounds the rate of admission: whatever is offered, in any span of
    one second at most twice the limit is admitted, for the customer's output and for
    raw provider lines alike. *)
Theorem budget_rate limit calls b t : 0 <= limit -> calls_wf calls -> budget_wf limit b ->
  between t (t + from_secs 1) (run_budget calls b) <= 2 * limit.
Proof.
  intros Hlimit. revert b. induction calls as [|c calls IH]; intros b Hwf Hb; [unfold between; cbn; rewrite total_nil; lia |].
  pose proof (calls_wf_cons c calls Hwf) as (Hr & Hn & Hwf' & Hle).
  destruct (from_secs 1 <=? saturating_duration_since (ca_now c) (bb_window_started b)) eqn:Hw.
  - pose proof (admit_spec c b limit Hb Hn) as Hspec. cbn [run_budget]. unfold current_window in Hspec. rewrite Hw in Hspec.
    destruct (budget_admit (ca_now c) (ca_restart c) (ca_bytes c) b) as [b1 admitted]. destruct Hspec as (Hb1 & Hstart & Hadm).
    cbn in Hstart, Hadm. rewrite between_app.
    destruct (decide (t <= ca_now c)).
    + pose proof (between_window limit t (t + from_secs 1) Hlimit calls b1 Hwf' Hb1 ltac:(lia)).
      destruct admitted; [rewrite between_one | change (between t (t + from_secs 1) []) with 0];
        destruct Hb1; try destruct (_ && _); lia.
    + specialize (IH b1 Hwf' Hb1). destruct admitted; [rewrite between_one | exact IH].
      rewrite (proj2 (Z.leb_gt t (ca_now c))) by lia. cbn. lia.
  - destruct (decide (t <= ca_now c)).
    + pose proof (between_two_windows limit t (t + from_secs 1) Hlimit (c :: calls) b Hwf Hb) as H2.
      apply Z.leb_gt in Hw. unfold saturating_duration_since, from_secs, NANOS_PER_SEC in *. destruct Hb. specialize (H2 ltac:(lia)). lia.
    + pose proof (admit_spec c b limit Hb Hn) as Hspec. cbn [run_budget].
      destruct (budget_admit (ca_now c) (ca_restart c) (ca_bytes c) b) as [b1 admitted]. destruct Hspec as (Hb1 & _ & _).
      specialize (IH b1 Hwf' Hb1). rewrite between_app. destruct admitted; [rewrite between_one | exact IH].
      rewrite (proj2 (Z.leb_gt t (ca_now c))) by lia. cbn. lia.
Qed.

(** ** Examples *)

Definition sample_chunk : OutputChunk :=
  {| oc_output_sequence := 0; oc_process_attempt := 1; oc_stream := "stdout"; oc_timestamp := "t"; oc_bytes := "hello" |}.
Definition sample_record : RuntimeSshRecord :=
  {| rr_event := "e"; rr_timestamp := "t"; rr_details := Null; rr_admitted_bytes := 100; rr_critical := true |}.

(** A chunk is offered and admitted, a provider record has reserved its bytes. *)
Definition sample_pool : Pool :=
  {| pl_shared := set_queued 100 (set_budgets (budget_admit 0 0 5 (new_budget 0 OUTPUT_BYTES_PER_SECOND)).1
                    (new_budget 0 RUNTIME_SSH_BYTES_PER_SECOND) (initial_shared 0));
     pl_tasks := [SshSend sample_record; ChunkSend sample_chunk];
     pl_offered := bump RuntimeSsh 1 100 (bump Customer 1 5 (fun _ => no_tally));
     pl_received := fun _ => no_tally; pl_refused := fun _ => no_tally; pl_taken := fun _ => no_tally |}.

Lemma sample_pool_reachable : reachable 0 sample_pool.
Proof.
  unfold reachable. eapply rtc_l; [apply (step_offer _ (ChunkAdmit true sample_chunk) 5); [reflexivity | lia] |].
  eapply rtc_l; [eapply (step_task _ [] (ChunkAdmit true sample_chunk) [] 0 0); reflexivity |].
  eapply rtc_l; [apply (step_offer _ (SshReserve sample_record) 100); [reflexivity | lia] |].
  eapply rtc_l; [eapply (step_task _ [] (SshReserve sample_record) [ChunkSend sample_chunk] 0 0); reflexivity |].
  apply rtc_refl.
Qed.

Lemma admission_exact_witness : sh_queued_bytes (pl_shared sample_pool) = 100 /\ balanced sample_pool Customer.
Proof.
  destruct (admission_exact 0 sample_pool sample_pool_reachable) as (Hq & _ & _ & Hb).
  split; [rewrite Hq; vm_compute; reflexivity |]. apply Hb. split; vm_compute; discriminate.
Defined.

Definition sample_calls : list Call :=
  [{| ca_now := 0; ca_restart := 0; ca_bytes := 60 |}; {| ca_now := 1; ca_restart := 1; ca_bytes := 60 |};
   {| ca_now := from_secs 1; ca_restart := from_secs 1; ca_bytes := 60 |}].

Lemma budget_rate_witness :
  run_budget sample_calls (new_budget 0 100) = [(0, 60); (from_secs 1, 60)] /\
  between 0 (0 + from_secs 1) (run_budget sample_calls (new_budget 0 100)) <= 2 * 100.
Proof.
  split; [vm_compute; reflexivity |]. apply (budget_rate 100).
  - lia.
  - split; repeat constructor; cbn; unfold from_secs, NANOS_PER_SEC; lia.
  - split; cbn; lia.
Defined.

(** The report of a panic panics itself when byte 600 of the message is inside a character. *)
Definition sample_panic_message : string := of_bytes (replicate 599 "a"%char) +:+ utf8 [195; 169]%N.

Example panic_report_panics `{!JsonText} e stage timestamp :
  valid_utf8 sample_panic_message = true /\ panic_report e stage sample_panic_message timestamp = None.
Proof. split; vm_compute; reflexivity. Qed.
