(* ===== verification/LogWorker.v ===== *)
(** * The log worker

    The consumer of [logging.rs]: the thread that takes customer output and provider
    records from their queues, encrypts them, and writes them in signed batches to the
    sink, whose sequence numbers and hashes form a chain. *)
From Stdlib Require Import Ascii.
From stdpp Require Import prelude strings list pretty.
From S2P Require Import Prelude Utf8 Json World RestartPolicy Gateway SnapshotFormat LogConfig LogQueue.

Local Open Scope Z_scope.

(** ** Data *)

Definition WRITER_KEY_SALT : string := "proof.liskov.blackbox.writer-key.v1".
Definition WRITER_KEY_INFO : string := "Ed25519".
Definition MAX_BATCH_RECORDS : nat := 32.
Definition MAX_BATCH_BYTES : Z := 256 * 1024.
Definition MAX_RESPONSE_BYTES : Z := 16 * 1024.
Definition MAX_SEQUENCE_REBASE_ATTEMPTS : nat := 3.
Definition MIN_REQUEST_INTERVAL : Z := from_millis 100.
Definition OUTPUT_FLUSH_GRACE : Z := from_millis 250.

Record ResolvedSink := {
  rs_sink_id : string;
  rs_job_id : string;
  rs_write_url : string;
  rs_resume_url : string;
  rs_next_sequence : Z;
  rs_previous_hash : option string
}.

Record EncryptedRecord := { er_value : Value; er_origin : LogOrigin }.

(** [ring]'s Ed25519 key pair of a seed: its public key and its signatures. *)
Class Ed25519Keys := {
  ed25519_public : string -> option string;
  ed25519_sign : string -> string -> string
}.

Record WriterKey := { wk_seed : string; wk_public_key_hex : string }.

(** The worker; [lw_outage_canary] tells which transport it was given. *)
Record LogWorker := {
  lw_config : BlackboxConfig;
  lw_labels : RuntimeLabels;
  lw_outage_canary : bool;
  lw_writer : WriterKey;
  lw_resolved : option ResolvedSink;
  lw_pending_records : list EncryptedRecord;
  lw_pending_batch : option Value;
  lw_last_request : option Z;
  lw_origin : LogOrigin
}.

Definition set_resolved (r : option ResolvedSink) (w : LogWorker) : LogWorker :=
  {| lw_config := lw_config w; lw_labels := lw_labels w; lw_outage_canary := lw_outage_canary w;
     lw_writer := lw_writer w; lw_resolved := r; lw_pending_records := lw_pending_records w;
     lw_pending_batch := lw_pending_batch w; lw_last_request := lw_last_request w; lw_origin := lw_origin w |}.
Definition set_records (l : list EncryptedRecord) (w : LogWorker) : LogWorker :=
  {| lw_config := lw_config w; lw_labels := lw_labels w; lw_outage_canary := lw_outage_canary w;
     lw_writer := lw_writer w; lw_resolved := lw_resolved w; lw_pending_records := l;
     lw_pending_batch := lw_pending_batch w; lw_last_request := lw_last_request w; lw_origin := lw_origin w |}.
Definition set_batch (b : option Value) (w : LogWorker) : LogWorker :=
  {| lw_config := lw_config w; lw_labels := lw_labels w; lw_outage_canary := lw_outage_canary w;
     lw_writer := lw_writer w; lw_resolved := lw_resolved w; lw_pending_records := lw_pending_records w;
     lw_pending_batch := b; lw_last_request := lw_last_request w; lw_origin := lw_origin w |}.
Definition set_last_request (t : Z) (w : LogWorker) : LogWorker :=
  {| lw_config := lw_config w; lw_labels := lw_labels w; lw_outage_canary := lw_outage_canary w;
     lw_writer := lw_writer w; lw_resolved := lw_resolved w; lw_pending_records := lw_pending_records w;
     lw_pending_batch := lw_pending_batch w; lw_last_request := Some t; lw_origin := lw_origin w |}.

(** ** The outside *)

(** What ureq returns: a status with the body, unless reading it fails, or no response. *)
Inductive UreqReply := UreqResponse (code : Z) (read : option string) | UreqTransport.
Inductive TryRecv := Received (work : LogWork) | NothingReceived.
Inductive RecvTimeout := ReceivedInTime (work : LogWork) | RecvTimedOut | RecvDisconnected.

(** [LgQueued] notes the record that joins the pending records; the others are the
    worker's interactions. *)
Inductive log_event :=
| LgNow (now : Z)
| LgTimestamp (text : string)
| LgRandom (bytes : option string)
| LgSleep (d : Z)
| LgPost (url : string) (headers : list (string * string)) (body : string) (reply : UreqReply)
| LgCustomer (r : TryRecv)
| LgRuntime (r : TryRecv)
| LgWait (r : RecvTimeout)
| LgRecv (r : option LogWork)
| LgRelease (bytes : Z)
| LgDropped (origin : LogOrigin) (bytes : Z)
| LgTake (origin : LogOrigin) (counts : option (Z * Z))
| LgAcknowledge
| LgQueued (record : EncryptedRecord).

Class LogHost := {
  lg_now : list log_event -> Z;
  lg_timestamp : list log_event -> string;
  lg_random : list log_event -> nat -> option string;
  lg_post : list log_event -> string -> list (string * string) -> string -> UreqReply;
  lg_customer : list log_event -> TryRecv;
  lg_runtime : list log_event -> TryRecv;
  lg_wait : list log_event -> RecvTimeout;
  lg_recv : list log_event -> option LogWork;
  lg_take : list log_event -> LogOrigin -> option (Z * Z);
  lg_turns : nat
}.

(** [UreqLogHttpClient::post]: a body longer than its limit is an error. *)
Definition ureq_response (r : UreqReply) : result HttpResponse unit :=
  match r with
  | UreqTransport => Err tt
  | UreqResponse code read =>
      let? body := ok_or tt (str_take (MAX_RESPONSE_BYTES + 1) <$> read) in
      if MAX_RESPONSE_BYTES <? len body then Err tt else Ok {| status := code; body := body |}
  end.

(** ** Chains *)

Definition is_hex_hash (value : string) : bool :=
  (len value =? 66) && match strip_prefix "0x" value with
                       | Some digits => bytes_all is_ascii_hexdigit digits
                       | None => false
                       end.

Definition parse_chain (value : Value) : result (Z * option string) unit :=
  let? next_sequence := ok_or tt (opt_filter (fun n => 0 <? n) (as_u64 (value_index "nextSequence" value))) in
  let? previous_hash := match value_get "previousHash" value with
                        | None | Some Null => Ok None
                        | Some (Str hash) => if is_hex_hash hash then Ok (Some (to_ascii_lowercase hash)) else Err tt
                        | Some _ => Err tt
                        end in
  if negb (Bool.eqb (next_sequence =? 1) (opt_is_none previous_hash)) then Err tt
  else Ok (next_sequence, previous_hash).

Definition success (code : Z) : bool := (200 <=? code) && (code <? 300).

Section worker.
Context `{!JsonText, !UrlApi, !UrlForm, !Encodings, !Base64Standard, !Sha256, !Hkdf, !Aead, !Ed25519Keys}.

Definition parse_chain_response (body : string) : option (Z * option string) :=
  value ← from_str body; result_ok (parse_chain (value_index "chain" value)).

Definition response_error_code (body : string) : option string :=
  value ← from_str body; as_str (value_index "error" value).

Definition encode_path_segment (value : string) : string := byte_serialize value.

(** [normalized_https_url] under [transpose]. *)
Definition optional_url (value : Value) : result (option string) unit :=
  match as_str value with
  | None => Ok None
  | Some text => let? url := normalized_https_url text in Ok (Some url)
  end.

Definition parse_registration (text base_url job_id : string) : result ResolvedSink unit :=
  let? value := ok_or tt (from_str text) in
  let sink := default value (value_get "sink" value) in
  let? sink_id := ok_or tt (as_str (value_index "sinkId" sink)) in
  let encoded := encode_path_segment sink_id in
  let? given_write := optional_url (value_index "writeUrl" sink) in
  let write_url := default (trim_end_matches (byte_is 47) base_url +:+ "/v1/sinks/" +:+ encoded +:+ "/events") given_write in
  let? given_resume := optional_url (value_index "resumeUrl" sink) in
  let? resume_url := ok_or tt (match given_resume with Some url => Some url | None => derive_resume_url write_url end) in
  let? chain := parse_chain (value_index "chain" value) in
  Ok {| rs_sink_id := sink_id; rs_job_id := job_id; rs_write_url := write_url; rs_resume_url := resume_url;
        rs_next_sequence := chain.1; rs_previous_hash := chain.2 |}.

(** [WriterKey::derive]. *)
Definition derive_writer (dek : string) : option WriterKey :=
  let seed := hkdf_sha256 WRITER_KEY_SALT dek WRITER_KEY_INFO in
  public ← ed25519_public seed;
  Some {| wk_seed := seed; wk_public_key_hex := hex_encode public |}.

(** [LogWorker::new] and [new_shared], for the canary's transport or the real one. *)
Definition new_worker (config : BlackboxConfig) (labels : RuntimeLabels) (canary : bool) (origin : LogOrigin)
  : option LogWorker :=
  writer ← derive_writer (bc_dek config);
  then_some (len (bc_dek config) =? 32)
    {| lw_config := config; lw_labels := labels; lw_outage_canary := canary; lw_writer := writer; lw_resolved := None;
       lw_pending_records := []; lw_pending_batch := None; lw_last_request := None; lw_origin := origin |}.

Context `{!LogHost}.

Definition clock_now : io log_event Z := ask lg_now LgNow.
Definition utc_timestamp : io log_event string := ask lg_timestamp LgTimestamp.
Definition getrandom (n : nat) : io log_event (option string) := ask (fun t => lg_random t n) LgRandom.

(** ** Records *)

Definition base_record (w : LogWorker) (timestamp event : string) (details : Value) : Value :=
  let record := jobj [("timestamp", Str timestamp); ("event", Str event); ("details", details)] in
  match bc_context (lw_config w) with
  | Some context => value_insert "context" (Str context) record
  | None => record
  end.

Definition encrypt_record (w : LogWorker) (record : Value) (origin : LogOrigin)
  : io log_event (result EncryptedRecord unit) :=
  iv ← getrandom 12;
  match iv with
  | None => mret (Err tt)
  | Some iv =>
      let '(ciphertext, tag) := aead_seal (bc_dek (lw_config w)) iv EmptyString (to_vec record) in
      mret (Ok {| er_value := jobj [("v", jint 1); ("alg", Str "A256GCM"); ("iv", Str (base64_url_safe_no_pad_encode iv));
                                    ("ciphertext", Str (base64_url_safe_no_pad_encode ciphertext));
                                    ("tag", Str (base64_url_safe_no_pad_encode tag))];
                  er_origin := origin |})
  end.

Definition is_origin (o : LogOrigin) (r : EncryptedRecord) : bool := same_origin (er_origin r) o.
Definition pending_of (o : LogOrigin) (w : LogWorker) : nat := length (List.filter (is_origin o) (lw_pending_records w)).

(** The position of the first provider record, or the end. *)
Fixpoint insert_before_runtime (r : EncryptedRecord) (l : list EncryptedRecord) : list EncryptedRecord :=
  match l with
  | [] => [r]
  | x :: l' => if is_origin RuntimeSsh x then r :: l else x :: insert_before_runtime r l'
  end.

Definition queue_record (r : EncryptedRecord) (l : list EncryptedRecord) (w : LogWorker) : io log_event LogWorker :=
  _ ← emit (LgQueued r); mret (set_records l w).
Definition dropped_record (origin : LogOrigin) (bytes : Z) : io log_event unit := emit (LgDropped origin bytes).

Definition batch_origin (batch : Value) : option string := as_str (value_index "logOrigin" (value_index "labels" batch)).

Definition chunk_details (w : LogWorker) (chunk : OutputChunk) : Value :=
  let '(encoding, key, content) :=
    if valid_utf8 (oc_bytes chunk) then ("utf8", "text", oc_bytes chunk)
    else ("base64url", "bytes", base64_url_safe_no_pad_encode (oc_bytes chunk)) in
  value_insert key (Str content)
    (jobj [("runtimeInstanceId", Str (lb_runtime_instance_id (lw_labels w)));
           ("processAttempt", jint (oc_process_attempt chunk)); ("outputSequence", jint (oc_output_sequence chunk));
           ("stream", Str (oc_stream chunk)); ("encoding", Str encoding); ("byteLength", jint (len (oc_bytes chunk)));
           ("truncated", Bool false)]).

Definition admit_chunk (chunk : OutputChunk) (w : LogWorker) : io log_event LogWorker :=
  if (MAX_BATCH_RECORDS <=? pending_of Customer w)%nat then
    _ ← dropped_record Customer (len (oc_bytes chunk)); mret w
  else
    record ← encrypt_record w (base_record w (oc_timestamp chunk) "runtime.cargo.output" (chunk_details w chunk)) Customer;
    match record with
    | Ok record =>
        let w := if is_some_and (lw_pending_batch w)
                      (fun batch => bool_decide (batch_origin batch = Some "runtime_ssh"))
                 then set_batch None w else w in
        queue_record record (insert_before_runtime record (lw_pending_records w)) w
    | Err _ => _ ← dropped_record Customer (len (oc_bytes chunk)); mret w
    end.

Definition admit_runtime_ssh (record : RuntimeSshRecord) (w : LogWorker) : io log_event LogWorker :=
  let cap := if rr_critical record then (MAX_BATCH_RECORDS * 3)%nat else MAX_BATCH_RECORDS in
  if (cap <=? pending_of RuntimeSsh w)%nat then
    _ ← dropped_record RuntimeSsh (rr_admitted_bytes record); mret w
  else
    encrypted ← encrypt_record w (base_record w (rr_timestamp record) (rr_event record) (rr_details record)) RuntimeSsh;
    match encrypted with
    | Ok encrypted => queue_record encrypted (lw_pending_records w ++ [encrypted]) w
    | Err _ => _ ← dropped_record RuntimeSsh (rr_admitted_bytes record); mret w
    end.

Definition drop_details (w : LogWorker) (origin : LogOrigin) (dropped_chunks dropped_bytes : Z) : Value :=
  match origin with
  | RuntimeSsh =>
      jobj [("providerKind", Str "tailscale"); ("component", Str "tailscaled"); ("format", Str "lifecycle");
            ("droppedLines", jint dropped_chunks); ("droppedBytes", jint dropped_bytes); ("truncated", Bool true)]
  | Customer =>
      jobj [("runtimeInstanceId", Str (lb_runtime_instance_id (lw_labels w))); ("droppedChunks", jint dropped_chunks);
            ("droppedBytes", jint dropped_bytes); ("truncated", Bool true)]
  end.

Definition admit_drop_evidence_for (origin : LogOrigin) (w : LogWorker) : io log_event LogWorker :=
  if (MAX_BATCH_RECORDS <=? pending_of origin w)%nat then mret w
  else
    counts ← ask (fun t => lg_take t origin) (LgTake origin);
    match counts with
    | None => mret w
    | Some (dropped_chunks, dropped_bytes) =>
        timestamp ← utc_timestamp;
        record ← encrypt_record w (base_record w timestamp (dropped_event origin)
                                     (drop_details w origin dropped_chunks dropped_bytes)) origin;
        match record with
        | Err _ => mret w
        | Ok record =>
            queue_record record
              (match origin with
               | Customer => insert_before_runtime record (lw_pending_records w)
               | RuntimeSsh => lw_pending_records w ++ [record]
               end) w
        end
    end.

(** ** Requests *)

(** [LogHttpClient::post] of either transport. *)
Definition client_post (w : LogWorker) (url : string) (headers : list (string * string)) (body : string)
  : io log_event (result HttpResponse unit) :=
  if lw_outage_canary w then mret (Err tt)
  else
    reply ← ask (fun t => lg_post t url headers body) (LgPost url headers body);
    mret (ureq_response reply).

Definition request_path (target : Url) : string :=
  url_path target +:+ match url_query target with Some query => "?" +:+ query | None => EmptyString end.

Definition newline : string := of_bytes [ascii_of_N 10].
Definition signing_message (path body signed_at nonce : string) : string :=
  "POST" +:+ newline +:+ path +:+ newline +:+ "0x" +:+ hex_encode (sha256 body) +:+ newline +:+ signed_at
  +:+ newline +:+ nonce.

Definition signed_headers (writer : WriterKey) (path body signed_at nonce : string) : list (string * string) :=
  [("accept", "application/json"); ("content-type", "application/json");
   ("authorization", "Ed25519 " +:+ wk_public_key_hex writer +:+ ":"
      +:+ base64_standard_encode (ed25519_sign (wk_seed writer) (signing_message path body signed_at nonce)));
   ("x-signed-at", signed_at); ("x-nonce", nonce)].

(** Requests are at least [MIN_REQUEST_INTERVAL] apart. *)
Definition pace (w : LogWorker) : io log_event unit :=
  match lw_last_request w with
  | None => mret tt
  | Some previous =>
      now ← clock_now;
      let remaining := duration_saturating_sub MIN_REQUEST_INTERVAL (saturating_duration_since now previous) in
      if remaining =? 0 then mret tt else emit (LgSleep remaining)
  end.

Definition post_signed (url : string) (value : Value) (additional_headers : list (string * string)) (w : LogWorker)
  : io log_event (LogWorker * result HttpResponse unit) :=
  _ ← pace w;
  match url_parse url with
  | None => mret (w, Err tt)
  | Some target =>
      if negb (url_scheme target =s "https") || opt_is_none (url_host_str target) then mret (w, Err tt)
      else
        let path := request_path target in
        let body := canonical_json_bytes value in
        signed_at ← utc_timestamp;
        nonce ← getrandom 16;
        match nonce with
        | None => mret (w, Err tt)
        | Some nonce =>
            let nonce := base64_url_safe_no_pad_encode nonce in
            let headers := signed_headers (lw_writer w) path body signed_at nonce ++ additional_headers in
            now ← clock_now;
            let w := set_last_request now w in
            reply ← client_post w url headers body;
            mret (w, reply)
        end
  end.

Definition resume_body (w : LogWorker) (job_id : string) : Value :=
  jobj [("jobId", Str job_id); ("writerPublicKey", Str (wk_public_key_hex (lw_writer w)))].

Definition resume_sink (sink_id job_id resume_url : string) (w : LogWorker)
  : io log_event (LogWorker * result (Z * option string) unit) :=
  response ← post_signed resume_url (resume_body w job_id) [] w;
  mret (response.1,
        let? response := response.2 in
        if negb (success (status response)) then Err tt
        else
          let? parsed := ok_or tt (from_str (body response)) in
          if negb (bool_decide (as_str (value_index "sinkId" parsed) = Some sink_id)) then Err tt
          else parse_chain (value_index "chain" parsed)).

Definition registration_body (job_id : string) (network : option string)
    (application_uid application_id deployment_id : string) : Value :=
  without_nulls (jobj [("jobId", Str job_id); ("network", jopt_str network); ("applicationUid", Str application_uid);
                       ("applicationId", Str application_id); ("deploymentId", Str deployment_id)]).

Definition factory_url (base_url factory_id : string) : string :=
  trim_end_matches (byte_is 47) base_url +:+ "/v1/sink-factories/" +:+ encode_path_segment factory_id +:+ "/job-sinks".

Definition resolve_sink (w : LogWorker) : io log_event (LogWorker * result ResolvedSink unit) :=
  match bc_mode (lw_config w) with
  | Prebound sink_id job_id write_url resume_url =>
      chain ← resume_sink sink_id job_id resume_url w;
      mret (chain.1,
            let? chain := chain.2 in
            Ok {| rs_sink_id := sink_id; rs_job_id := job_id; rs_write_url := write_url; rs_resume_url := resume_url;
                  rs_next_sequence := chain.1; rs_previous_hash := chain.2 |})
  | Factory factory_token factory_id base_url job_id network application_uid application_id deployment_id =>
      response ← post_signed (factory_url base_url factory_id)
                   (registration_body job_id network application_uid application_id deployment_id)
                   [("x-blackbox-sink-factory-token", factory_token)] w;
      mret (response.1,
            let? response := response.2 in
            if negb (success (status response)) then Err tt
            else parse_registration (body response) base_url job_id)
  end.

(** ** Batches *)

Definition batch_labels (w : LogWorker) (origin : LogOrigin) : Value :=
  jobj [("applicationUid", Str (lb_application_uid (lw_labels w))); ("deploymentId", Str (lb_deployment_id (lw_labels w)));
        ("runtimeInstanceId", Str (lb_runtime_instance_id (lw_labels w))); ("source", Str (source origin));
        ("logOrigin", Str (label origin))].

Definition sequence_end (resolved : ResolvedSink) (selected : list Value) : result Z unit :=
  let? last := ok_or tt (checked_sub_u64 (Z.of_nat (length selected)) 1) in
  ok_or tt (checked_add_u64 (rs_next_sequence resolved) last).

Definition batch_value (w : LogWorker) (resolved : ResolvedSink) (selected : list Value) (origin : LogOrigin)
    (last : Z) (created_at : string) : Value :=
  jobj [("sinkId", Str (rs_sink_id resolved)); ("jobId", Str (rs_job_id resolved));
        ("writerPublicKey", Str (wk_public_key_hex (lw_writer w))); ("sequenceStart", jint (rs_next_sequence resolved));
        ("sequenceEnd", jint last); ("previousHash", jopt_str (rs_previous_hash resolved));
        ("createdAt", Str created_at); ("encrypted", Arr selected); ("labels", batch_labels w origin)].

Definition batch_without_id (w : LogWorker) (resolved : ResolvedSink) (selected : list Value) (origin : LogOrigin)
  : io log_event (result Value unit) :=
  match sequence_end resolved selected with
  | Err _ => mret (Err tt)
  | Ok last => created_at ← utc_timestamp; mret (Ok (batch_value w resolved selected origin last created_at))
  end.

(** The loop that adds records while the batch stays within its bytes. *)
Fixpoint select_records (w : LogWorker) (resolved : ResolvedSink) (origin : LogOrigin) (records : list EncryptedRecord)
    (selected : list Value) : io log_event (result (list Value) unit) :=
  match records with
  | [] => mret (Ok selected)
  | record :: records =>
      let candidate := selected ++ [er_value record] in
      let!? batch := batch_without_id w resolved candidate origin in
      if MAX_BATCH_BYTES <? len (canonical_json_bytes batch) then mret (Ok selected)
      else select_records w resolved origin records candidate
  end.

(** [iter().take_while(same origin).take(MAX_BATCH_RECORDS)]. *)
Fixpoint take_origin (o : LogOrigin) (l : list EncryptedRecord) : list EncryptedRecord :=
  match l with
  | [] => []
  | r :: l => if is_origin o r then r :: take_origin o l else []
  end.

Definition build_batch (w : LogWorker) : io log_event (result Value unit) :=
  match lw_resolved w, head (lw_pending_records w) with
  | Some resolved, Some first =>
      let origin := er_origin first in
      let!? selected := select_records w resolved origin
                          (take MAX_BATCH_RECORDS (take_origin origin (lw_pending_records w))) [] in
      match selected with
      | [] => mret (Err tt)
      | _ =>
          let!? batch := batch_without_id w resolved selected origin in
          let digest := sha256 (canonical_json_bytes batch) in
          let batch := value_insert "batchId" (Str ("0x" +:+ hex_encode digest)) batch in
          mret (if MAX_BATCH_BYTES <? len (canonical_json_bytes batch) then Err tt else Ok batch)
      end
  | _, _ => mret (Err tt)
  end.

(** ** Flushing *)

Definition advance (chain : Z * option string) (w : LogWorker) : LogWorker :=
  set_resolved ((fun r => {| rs_sink_id := rs_sink_id r; rs_job_id := rs_job_id r; rs_write_url := rs_write_url r;
                             rs_resume_url := rs_resume_url r; rs_next_sequence := chain.1;
                             rs_previous_hash := chain.2 |}) <$> lw_resolved w) w.

(** An accepted batch leaves the front of the pending records, unless the chain did
    not move past its last sequence number [last]. *)
Definition accept_batch (batch : Value) (last : Z) (chain : Z * option string) (w : LogWorker)
  : io log_event (LogWorker * result unit unit) :=
  if chain.1 <=? last then mret (w, Err tt)
  else
    let w := advance chain w in
    match as_array (value_index "encrypted" batch) with
    | None => mret (w, Err tt)
    | Some sent =>
        mret (set_batch None (set_records (drop (length sent) (lw_pending_records w)) w), Ok tt)
    end.

(** The chain after an accepted batch: from the response, or asked for. *)
Definition chain_after (response : string) (w : LogWorker)
  : io log_event (LogWorker * result (Z * option string) unit) :=
  match parse_chain_response response, lw_resolved w with
  | Some chain, _ => mret (w, Ok chain)
  | None, Some r => resume_sink (rs_sink_id r) (rs_job_id r) (rs_resume_url r) w
  | None, None => mret (w, Err tt)
  end.

Definition is_sequence_conflict (response : HttpResponse) : bool :=
  (status response =? 409) && bool_decide (response_error_code (body response) = Some "sequence_conflict").

(** The loop of [flush_once]; [left_] is how many rebases are left. *)
Fixpoint flush_attempts (left_ : nat) (w : LogWorker) : io log_event (LogWorker * result unit unit) :=
  match lw_pending_batch w, lw_resolved w with
  | Some batch, Some resolved =>
      posted ← post_signed (rs_write_url resolved) batch [] w;
      let w := posted.1 in
      match posted.2 with
      | Err _ => mret (w, Err tt)
      | Ok response =>
          if success (status response) then
            match as_u64 (value_index "sequenceEnd" batch) with
            | None => mret (w, Err tt)
            | Some last =>
                chained ← chain_after (body response) w;
                match chained.2 with
                | Err _ => mret (chained.1, Err tt)
                | Ok chain => accept_batch batch last chain chained.1
                end
            end
          else if is_sequence_conflict response then
            match left_ with
            | O => mret (w, Err tt)
            | S left_ =>
                match parse_chain_response (body response) with
                | None => mret (w, Err tt)
                | Some chain =>
                    let w := advance chain w in
                    rebuilt ← build_batch w;
                    match rebuilt with
                    | Err _ => mret (w, Err tt)
                    | Ok batch => flush_attempts left_ (set_batch (Some batch) w)
                    end
                end
            end
          else mret (w, Err tt)
      end
  | _, _ => mret (w, Err tt)
  end.

(** The sink is resolved once, the batch built unless one is pending. *)
Definition ensure_sink (w : LogWorker) : io log_event (LogWorker * result unit unit) :=
  match lw_resolved w with
  | Some _ => mret (w, Ok tt)
  | None =>
      resolved ← resolve_sink w;
      match resolved.2 with
      | Err _ => mret (resolved.1, Err tt)
      | Ok sink => mret (set_resolved (Some sink) resolved.1, Ok tt)
      end
  end.

Definition flush_once (w : LogWorker) : io log_event (LogWorker * result unit unit) :=
  match lw_pending_batch w, lw_pending_records w with
  | Some _, _ => flush_attempts MAX_SEQUENCE_REBASE_ATTEMPTS w
  | None, [] => mret (w, Ok tt)
  | None, _ :: _ =>
      ensured ← ensure_sink w;
      match ensured.2 with
      | Err _ => mret (ensured.1, Err tt)
      | Ok _ =>
          built ← build_batch ensured.1;
          match built with
          | Err _ => mret (ensured.1, Err tt)
          | Ok batch => flush_attempts MAX_SEQUENCE_REBASE_ATTEMPTS (set_batch (Some batch) ensured.1)
          end
      end
  end.

(** ** The loops *)

Definition release (bytes : Z) : io log_event unit := emit (LgRelease bytes).

(** A customer entry in [drain_prioritized]; [inr true] is a request to finish.  The
    queue of customer entries carries nothing else. *)
Definition drain_customer_turn (w : LogWorker) : io log_event (LogWorker + LogWorker * bool) :=
  if negb (length (lw_pending_records w) <? MAX_BATCH_RECORDS * 2)%nat then mret (inr (w, false))
  else
    received ← ask lg_customer LgCustomer;
    match received with
    | Received (WorkChunk chunk) => w ← admit_chunk chunk w; mret (inl w)
    | Received WorkFinish => mret (inr (w, true))
    | Received (WorkRuntimeSsh _) => diverge
    | NothingReceived => mret (inr (w, false))
    end.

Definition drain_runtime_turn (w : LogWorker) : io log_event (LogWorker + LogWorker) :=
  if negb (length (lw_pending_records w) <? MAX_BATCH_RECORDS * 2)%nat then mret (inr w)
  else
    received ← ask lg_runtime LgRuntime;
    match received with
    | Received (WorkRuntimeSsh record) =>
        _ ← release (rr_admitted_bytes record); w ← admit_runtime_ssh record w; mret (inl w)
    | Received _ => diverge
    | NothingReceived => mret (inr w)
    end.

Definition drain_prioritized (w : LogWorker) : io log_event (LogWorker * bool) :=
  drained ← loop lg_turns drain_customer_turn w;
  w ← loop lg_turns drain_runtime_turn drained.1;
  w ← admit_drop_evidence_for RuntimeSsh w;
  mret (w, drained.2).

Definition finish_turn (deadline : Z) (w : LogWorker) : io log_event (LogWorker + LogWorker) :=
  match lw_pending_records w with
  | [] => mret (inr w)
  | _ =>
      now ← clock_now;
      if negb (now <? deadline) then mret (inr w)
      else
        flushed ← flush_once w;
        mret (if is_ok flushed.2 then inl flushed.1 else inr flushed.1)
  end.

Definition finish_prioritized (w : LogWorker) : io log_event LogWorker :=
  w ← admit_drop_evidence_for Customer w;
  w ← admit_drop_evidence_for RuntimeSsh w;
  now ← clock_now;
  w ← loop (S (length (lw_pending_records w))) (finish_turn (now + OUTPUT_FLUSH_GRACE)) w;
  _ ← emit LgAcknowledge;
  mret w.

(** After a chunk: [inl] goes on, [inr] is the end of the loop. *)
Definition after_chunk (chunk : OutputChunk) (w : LogWorker) : io log_event (LogWorker + LogWorker) :=
  w ← admit_chunk chunk w;
  drained ← drain_prioritized w;
  if (drained.2 : bool) then w ← finish_prioritized drained.1; mret (inr w)
  else flushed ← flush_once drained.1; mret (inl flushed.1).

Definition on_finish (w : LogWorker) : io log_event (LogWorker + LogWorker) :=
  drained ← drain_prioritized w; w ← finish_prioritized drained.1; mret (inr w).

Definition prioritized_turn (w : LogWorker) : io log_event (LogWorker + LogWorker) :=
  customer ← ask lg_customer LgCustomer;
  match customer with
  | Received (WorkChunk chunk) => after_chunk chunk w
  | Received WorkFinish => on_finish w
  | Received (WorkRuntimeSsh _) => diverge
  | NothingReceived =>
      runtime ← ask lg_runtime LgRuntime;
      match runtime with
      | Received (WorkRuntimeSsh record) =>
          _ ← release (rr_admitted_bytes record);
          w ← admit_runtime_ssh record w;
          flushed ← flush_once w;
          mret (inl flushed.1)
      | Received _ => diverge
      | NothingReceived =>
          waited ← ask lg_wait LgWait;
          match waited with
          | ReceivedInTime (WorkChunk chunk) => after_chunk chunk w
          | ReceivedInTime WorkFinish => on_finish w
          | ReceivedInTime (WorkRuntimeSsh _) => diverge
          | RecvTimedOut => mret (inl w)
          | RecvDisconnected => drained ← drain_prioritized w; mret (inr drained.1)
          end
      end
  end.

Definition run_prioritized (w : LogWorker) : io log_event LogWorker := loop lg_turns prioritized_turn w.

(** ** The worker of a single queue *)

Definition drain_available_turn (w : LogWorker) : io log_event (LogWorker + LogWorker * bool) :=
  if negb (length (lw_pending_records w) <? MAX_BATCH_RECORDS)%nat then mret (inr (w, false))
  else
    received ← ask lg_customer LgCustomer;
    match received with
    | Received (WorkChunk chunk) => w ← admit_chunk chunk w; mret (inl w)
    | Received (WorkRuntimeSsh record) => w ← admit_runtime_ssh record w; mret (inl w)
    | Received WorkFinish => mret (inr (w, true))
    | NothingReceived => mret (inr (w, false))
    end.

Definition drain_available (w : LogWorker) : io log_event (LogWorker * bool) :=
  drained ← loop lg_turns drain_available_turn w;
  w ← admit_drop_evidence_for (lw_origin w) drained.1;
  mret (w, drained.2).

Definition flush_after (w : LogWorker) : io log_event (LogWorker + LogWorker) :=
  drained ← drain_available w;
  flushed ← flush_once drained.1;
  if (drained.2 : bool) then _ ← emit LgAcknowledge; mret (inr flushed.1) else mret (inl flushed.1).

Definition inner_turn (w : LogWorker) : io log_event (LogWorker + LogWorker) :=
  received ← ask lg_recv LgRecv;
  match received with
  | None => mret (inr w)
  | Some (WorkChunk chunk) => w ← admit_chunk chunk w; flush_after w
  | Some (WorkRuntimeSsh record) => w ← admit_runtime_ssh record w; flush_after w
  | Some WorkFinish =>
      drained ← drain_available w;
      w ← admit_drop_evidence_for (lw_origin w) drained.1;
      flushed ← flush_once w;
      _ ← emit LgAcknowledge;
      if (drained.2 : bool) then _ ← emit LgAcknowledge; mret (inr flushed.1) else mret (inr flushed.1)
  end.

(** [run_inner] without a count of queued bytes, as [run] calls it. *)
Definition run_inner (w : LogWorker) : io log_event LogWorker := loop lg_turns inner_turn w.

End worker.

(** * Properties *)

(** ** Records and batches *)

Definition has_origin (o : LogOrigin) (r : EncryptedRecord) : Prop := er_origin r = o.

(** Customer records come first, and both kinds are bounded. *)
Definition records_wf (l : list EncryptedRecord) : Prop :=
  exists cs rs, l = cs ++ rs /\ Forall (has_origin Customer) cs /\ Forall (has_origin RuntimeSsh) rs /\
    (length cs <= MAX_BATCH_RECORDS)%nat /\ (length rs <= MAX_BATCH_RECORDS * 3)%nat.

(** The batch of these records, which have one origin. *)
Definition batch_for (b : Value) (l : list EncryptedRecord) : Prop :=
  l <> [] /\ as_array (value_index "encrypted" b) = Some (map er_value l) /\
  exists o, Forall (has_origin o) l /\ batch_origin b = Some (label o).

Definition worker_inv (w : LogWorker) : Prop :=
  records_wf (lw_pending_records w) /\
  forall b, lw_pending_batch w = Some b -> exists n, (n <= length (lw_pending_records w))%nat /\
    batch_for b (take n (lw_pending_records w)).

Definition of_records (o : LogOrigin) (l : list EncryptedRecord) : list EncryptedRecord := List.filter (is_origin o) l.

Lemma of_records_app o l l' : of_records o (l ++ l') = of_records o l ++ of_records o l'.
Proof. apply List.filter_app. Qed.

Lemma of_records_same o l : Forall (has_origin o) l -> of_records o l = l.
Proof.
  induction 1 as [|r l Hr _ IH]; [done |]. unfold of_records in *. cbn. unfold is_origin at 1. rewrite Hr, IH. by destruct o.
Qed.

Lemma of_records_other o o' l : Forall (has_origin o) l -> o <> o' -> of_records o' l = [].
Proof.
  intros Hl Ho. induction Hl as [|r l Hr _ IH]; [done |]. unfold of_records in *. cbn. unfold is_origin at 1. rewrite Hr, IH.
  by destruct o, o'.
Qed.

Lemma insert_before_runtime_app r cs rs : Forall (has_origin Customer) cs -> Forall (has_origin RuntimeSsh) rs ->
  insert_before_runtime r (cs ++ rs) = cs ++ r :: rs.
Proof.
  intros Hcs Hrs. induction Hcs as [|c cs Hc _ IH]; cbn.
  - destruct Hrs as [|x rs Hx]; [done |]. cbn. unfold is_origin. by rewrite Hx.
  - unfold is_origin. by rewrite Hc, IH.
Qed.

Lemma records_wf_pending l : records_wf l -> exists cs rs, l = cs ++ rs /\ of_records Customer l = cs /\
  of_records RuntimeSsh l = rs /\ Forall (has_origin Customer) cs /\ Forall (has_origin RuntimeSsh) rs /\
  (length cs <= MAX_BATCH_RECORDS)%nat /\ (length rs <= MAX_BATCH_RECORDS * 3)%nat.
Proof.
  intros (cs & rs & -> & Hc & Hr & Hcl & Hrl). exists cs, rs.
  rewrite !of_records_app, (of_records_same Customer cs), (of_records_other RuntimeSsh Customer rs), (of_records_other Customer RuntimeSsh cs),
    (of_records_same RuntimeSsh rs) by done. rewrite app_nil_r. by split_and!.
Qed.

(** A customer record joins behind the customer records, and so behind a customer batch. *)
Lemma insert_customer_inv w r : worker_inv w -> has_origin Customer r -> (pending_of Customer w < MAX_BATCH_RECORDS)%nat ->
  (forall b, lw_pending_batch w = Some b -> batch_origin b <> Some "runtime_ssh") ->
  worker_inv (set_records (insert_before_runtime r (lw_pending_records w)) w) /\
  forall o, of_records o (insert_before_runtime r (lw_pending_records w)) =
    of_records o (lw_pending_records w) ++ of_records o [r].
Proof.
  intros [Hwf Hb] Hr Hcap Hbatch. destruct (records_wf_pending _ Hwf) as (cs & rs & Hl & Hpc & _ & Hcs & Hrs & Hcl & Hrl).
  unfold pending_of in Hcap. change (List.filter (is_origin Customer)) with (of_records Customer) in Hcap. rewrite Hpc in Hcap.
  unfold worker_inv. cbn [lw_pending_records lw_pending_batch set_records]. rewrite Hl in *.
  rewrite (insert_before_runtime_app r cs rs Hcs Hrs). split_and!.
  - exists (cs ++ [r]), rs. rewrite <-app_assoc. split_and!; [done | | done | | done].
    + apply Forall_app. by split; [| apply Forall_singleton].
    + rewrite length_app. cbn [length]. lia.
  - intros b Hpb. destruct (Hb b Hpb) as (n & Hn & Hne & Henc & o & Ho & Horig). exists n.
    assert (o = Customer) as -> by (destruct o; [done |]; by destruct (Hbatch b Hpb)).
    assert (Hncs : (n <= length cs)%nat).
    { destruct (decide (n <= length cs)%nat) as [|Hgt]; [done |]. exfalso. rewrite take_app_ge in Ho by lia.
      apply Forall_app in Ho as [_ Ho]. rewrite length_app in Hn. destruct rs as [|x rs]; [cbn in Hn; lia |].
      destruct (n - length cs)%nat as [|k] eqn:Hk; [lia |]. cbn in Ho. apply Forall_cons in Ho as [Hx _].
      apply Forall_cons in Hrs as [Hx' _]. unfold has_origin in *. congruence. }
    rewrite take_app_le in * by done. split; [rewrite length_app; lia |]. split_and!; [done | done |]. by exists Customer.
  - intros o. rewrite !of_records_app. destruct o.
    + rewrite (of_records_other RuntimeSsh Customer rs), app_nil_r by done. change (r :: rs) with ([r] ++ rs).
      by rewrite of_records_app, (of_records_other RuntimeSsh Customer rs), app_nil_r by done.
    + change (r :: rs) with ([r] ++ rs). rewrite of_records_app.
      rewrite (of_records_other Customer RuntimeSsh [r]) by (done || by apply Forall_singleton). by rewrite app_nil_r.
Qed.

Lemma push_runtime_inv w r : worker_inv w -> has_origin RuntimeSsh r -> (pending_of RuntimeSsh w < MAX_BATCH_RECORDS * 3)%nat ->
  worker_inv (set_records (lw_pending_records w ++ [r]) w).
Proof.
  intros [Hwf Hb] Hr Hcap. destruct (records_wf_pending _ Hwf) as (cs & rs & Hl & _ & Hpr & Hcs & Hrs & Hcl & Hrl).
  unfold pending_of in Hcap. change (List.filter (is_origin RuntimeSsh)) with (of_records RuntimeSsh) in Hcap. rewrite Hpr in Hcap.
  unfold worker_inv. cbn [lw_pending_records lw_pending_batch set_records]. split.
  - exists cs, (rs ++ [r]). rewrite Hl, <-app_assoc. split_and!; [done | done | | done |].
    + apply Forall_app. by split; [| apply Forall_singleton].
    + rewrite length_app. cbn [length]. lia.
  - intros b Hpb. destruct (Hb b Hpb) as (n & Hn & Hfor). exists n. rewrite length_app, take_app_le by done. split; [lia | done].
Qed.

Lemma records_wf_drop n l : records_wf l -> records_wf (drop n l).
Proof.
  intros (cs & rs & -> & Hc & Hr & Hcl & Hrl). exists (drop n cs), (drop (n - length cs) rs).
  rewrite drop_app. split_and!; [done | by apply Forall_drop | by apply Forall_drop | |]; rewrite length_drop; lia.
Qed.

(** ** The history *)

(** The records of an origin that joined the pending records, oldest first. *)
Fixpoint queued (o : LogOrigin) (es : list log_event) : list EncryptedRecord :=
  match es with
  | [] => []
  | LgQueued r :: es => queued o es ++ of_records o [r]
  | _ :: es => queued o es
  end.

Lemma queued_app o es es' : queued o (es ++ es') = queued o es' ++ queued o es.
Proof. induction es as [|[] es IH]; cbn; rewrite ?app_nil_r, ?IH; try done. by rewrite app_assoc. Qed.

(** No dropped customer output had to be reported. *)
Definition calm (es : list log_event) : Prop := forall counts, LgTake Customer (Some counts) ∉ es.

Lemma calm_app es es' : calm (es ++ es') -> calm es /\ calm es'.
Proof. intros H. split; intros c Hc; apply (H c), elem_of_app; auto. Qed.

(** Neither a request nor a record that joins. *)
Definition plain (e : log_event) : Prop := match e with LgPost _ _ _ _ | LgQueued _ => False | _ => True end.

(** ** The queue that the worker promises *)

(** The records of each origin that the sink did not acknowledge, oldest first. *)
Record Pending := { pn_customer : list EncryptedRecord; pn_runtime : list EncryptedRecord }.

Definition pending_origin (o : LogOrigin) (q : Pending) : list EncryptedRecord :=
  match o with Customer => pn_customer q | RuntimeSsh => pn_runtime q end.
Definition pending (l : list EncryptedRecord) : Pending :=
  {| pn_customer := of_records Customer l; pn_runtime := of_records RuntimeSsh l |}.

Definition arrive (r : EncryptedRecord) (q : Pending) : Pending :=
  match er_origin r with
  | Customer => {| pn_customer := pn_customer q ++ [r]; pn_runtime := pn_runtime q |}
  | RuntimeSsh => {| pn_customer := pn_customer q; pn_runtime := pn_runtime q ++ [r] |}
  end.

(** Customer records go first. *)
Definition front (q : Pending) : list EncryptedRecord :=
  match pn_customer q with [] => pn_runtime q | cs => cs end.
Definition leave (n : nat) (q : Pending) : Pending :=
  match pn_customer q with
  | [] => {| pn_customer := []; pn_runtime := drop n (pn_runtime q) |}
  | cs => {| pn_customer := drop n cs; pn_runtime := pn_runtime q |}
  end.

(** The sink acknowledges a batch by a chain that continues after its last record. *)
Definition past (b : Value) (chain : option (Z * option string)) : bool :=
  match chain, as_u64 (value_index "sequenceEnd" b) with
  | Some chain, Some last => last <? chain.1
  | _, _ => false
  end.

Section exact.
Context `{!JsonText, !UrlApi, !UrlForm, !Encodings, !Base64Standard, !Sha256, !Hkdf, !Aead, !Ed25519Keys, !LogHost}.

(** What the answer to a resume request says of the chain. *)
Definition resume_chain (sink_id : string) (reply : UreqReply) : option (Z * option string) :=
  match ureq_response reply with
  | Err _ => None
  | Ok response =>
      if success (status response) then
        parsed ← from_str (body response);
        if bool_decide (as_str (value_index "sinkId" parsed) = Some sink_id)
        then match parse_chain (value_index "chain" parsed) with Ok chain => Some chain | Err _ => None end
        else None
      else None
  end.

Definition accepted (reply : UreqReply) (response : HttpResponse) : Prop :=
  ureq_response reply = Ok response /\ success (status response) = true.

(** One write of a batch with what follows from its answer, newest first, and the chain
    that the sink then told: a write that is not answered with success tells none; the
    answer to one that is tells it, or that to the resume request which then follows,
    unless it could not be sent. *)
Inductive exchange (b : Value) : list log_event -> option (Z * option string) -> Prop :=
| exchange_refused url headers reply : (forall response, ~ accepted reply response) ->
    exchange b [LgPost url headers (canonical_json_bytes b) reply] None
| exchange_told url headers reply response chain :
    accepted reply response -> parse_chain_response (body response) = Some chain ->
    exchange b [LgPost url headers (canonical_json_bytes b) reply] (Some chain)
| exchange_asked url headers reply response mid w job_id sink_id resume_url resume_headers resumed :
    accepted reply response -> parse_chain_response (body response) = None -> Forall plain mid ->
    exchange b (LgPost resume_url resume_headers (canonical_json_bytes (resume_body w job_id)) resumed ::
                mid ++ [LgPost url headers (canonical_json_bytes b) reply]) (resume_chain sink_id resumed)
| exchange_unasked url headers reply response mid :
    accepted reply response -> parse_chain_response (body response) = None -> Forall plain mid ->
    exchange b (mid ++ [LgPost url headers (canonical_json_bytes b) reply]) None.

(** A request that carries no records: one that resumes the chain or registers a sink. *)
Definition control (body : string) : Prop :=
  (exists w job_id, body = canonical_json_bytes (resume_body w job_id)) \/
  exists job network uid id dep, body = canonical_json_bytes (registration_body job network uid id dep).
Definition other (e : log_event) : Prop :=
  match e with LgPost _ _ body _ => control body | LgQueued _ => False | _ => True end.

(** The queue's life, from a state to a later one, with the records that the sink
    acknowledged: a record joins behind those of its origin; a write carries the first
    records of the queue, and they leave it if and only if the sink told a chain that
    continues after them. *)
Inductive deliveries : Pending -> list log_event -> list EncryptedRecord -> Pending -> Prop :=
| deliveries_none q : deliveries q [] [] q
| deliveries_other q es acked q' e : deliveries q es acked q' -> other e -> deliveries q (e :: es) acked q'
| deliveries_queued q es acked q' r : deliveries q es acked q' -> deliveries q (LgQueued r :: es) acked (arrive r q')
| deliveries_write q es acked q' b n seg chain : deliveries q es acked q' ->
    (n <= length (front q'))%nat -> batch_for b (take n (front q')) -> exchange b seg chain ->
    deliveries q (seg ++ es) (acked ++ if past b chain then take n (front q') else [])
      (if past b chain then leave n q' else q').

Lemma deliveries_trans q es acked q1 es' acked' q2 : deliveries q es acked q1 -> deliveries q1 es' acked' q2 ->
  deliveries q (es' ++ es) (acked ++ acked') q2.
Proof.
  intros Hx1 Hx2. induction Hx2 as [q1|q1 es' acked' q2 e _ IH He|q1 es' acked' q2 r _ IH|q1 es' acked' q2 b n seg chain _ IH Hn Hb Hex].
  - by rewrite app_nil_r.
  - by apply deliveries_other, He; apply IH.
  - by apply deliveries_queued, IH.
  - rewrite <-(app_assoc seg es' es), (app_assoc acked). by apply deliveries_write; [apply IH | ..].
Qed.

Lemma others_delivered q es : Forall other es -> deliveries q es [] q.
Proof. induction 1 as [|e es He _ IH]; [apply deliveries_none | by apply deliveries_other]. Qed.

Lemma plain_other es : Forall plain es -> Forall other es.
Proof. intros Hes. eapply Forall_impl; [exact Hes |]. by intros []. Qed.

Lemma others_queued o es : Forall other es -> queued o es = [].
Proof. induction 1 as [|[] es He _ IH]; done. Qed.
Lemma plain_queued o es : Forall plain es -> queued o es = [].
Proof. intros. by apply others_queued, plain_other. Qed.

Lemma exchange_queued b seg chain o : exchange b seg chain -> queued o seg = [].
Proof. destruct 1; cbn [queued]; rewrite ?queued_app, ?(plain_queued o mid) by done; done. Qed.

Definition pending_wf (q : Pending) : Prop :=
  Forall (has_origin Customer) (pn_customer q) /\ Forall (has_origin RuntimeSsh) (pn_runtime q).

Lemma arrive_wf r q : pending_wf q -> pending_wf (arrive r q) /\
  forall o, pending_origin o (arrive r q) = pending_origin o q ++ of_records o [r].
Proof.
  intros [Hc Hr]. unfold arrive, pending_wf. destruct (er_origin r) eqn:Ho; cbn [pn_customer pn_runtime].
  all: split; [split; try done; apply Forall_app; split; [done | by apply Forall_singleton] |].
  all: intros []; cbn; unfold is_origin; rewrite Ho; cbn; by rewrite ?app_nil_r.
Qed.

Lemma leave_wf n q : pending_wf q -> pending_wf (leave n q) /\
  forall o, pending_origin o q = of_records o (take n (front q)) ++ pending_origin o (leave n q).
Proof.
  intros [Hc Hr]. unfold leave, pending_wf, front. destruct q as [[|c cs] rs]; cbn [pn_customer pn_runtime] in *.
  - split; [split; [done | by apply Forall_drop] |]. pose proof (Forall_take _ n _ Hr) as Ht. intros []; cbn [pending_origin pn_customer pn_runtime].
    + by rewrite (of_records_other RuntimeSsh Customer).
    + by rewrite of_records_same, take_drop.
  - split; [split; [by apply Forall_drop | done] |]. pose proof (Forall_take _ n _ Hc) as Ht. intros []; cbn [pending_origin pn_customer pn_runtime].
    + by rewrite of_records_same, take_drop.
    + by rewrite (of_records_other Customer RuntimeSsh).
Qed.

(** Nothing is lost or reordered: what was pending or joined was acknowledged or is
    still pending, in this order. *)
Lemma deliveries_conserve q es acked q' : deliveries q es acked q' -> pending_wf q -> pending_wf q' /\
  forall o, pending_origin o q ++ queued o es = of_records o acked ++ pending_origin o q'.
Proof.
  intros Hd Hq. induction Hd as [q|q es acked q' e _ IH He|q es acked q' r _ IH|q es acked q' b n seg chain _ IH Hn Hb Hex].
  - split; [done |]. intros o. by rewrite app_nil_r.
  - destruct (IH Hq) as [Hq' Heq]. split; [done |]. intros o. rewrite <-Heq. by destruct e.
  - destruct (IH Hq) as [Hq' Heq]. destruct (arrive_wf r q' Hq') as [Ha Hao]. split; [done |]. intros o. cbn [queued].
    by rewrite Hao, !app_assoc, (Heq o).
  - destruct (IH Hq) as [Hq' Heq]. destruct (leave_wf n q' Hq') as [Ha Hao].
    split; [by destruct (past b chain) |]. intros o. rewrite queued_app, (exchange_queued _ _ _ o Hex), app_nil_r, Heq, of_records_app.
    destruct (past b chain); cbn [of_records List.filter]; [| by rewrite app_nil_r]. by rewrite (Hao o), app_assoc.
Qed.

(** The batch of the first records is one of the front of the queue. *)
Lemma batch_within b n cs rs : Forall (has_origin Customer) cs -> Forall (has_origin RuntimeSsh) rs ->
  (n <= length (cs ++ rs))%nat -> batch_for b (take n (cs ++ rs)) -> cs <> [] -> (n <= length cs)%nat.
Proof.
  intros Hcs Hrs Hn (Hne & _ & o & Ho & _) Hcs'. destruct (decide (n <= length cs)%nat) as [|Hgt]; [done |]. exfalso.
  rewrite take_app_ge in Ho by lia. apply Forall_app in Ho as [Hoc Hor]. rewrite length_app in Hn.
  destruct rs as [|x rs]; [cbn in Hn; lia |]. destruct (n - length cs)%nat as [|k] eqn:Hk; [lia |].
  destruct cs as [|c cs]; [done |]. cbn in Hor. apply Forall_cons in Hor as [Hx _], Hrs as [Hx' _], Hoc as [Hc _], Hcs as [Hc' _].
  unfold has_origin in *. congruence.
Qed.

Lemma pending_front b n l : records_wf l -> (n <= length l)%nat -> batch_for b (take n l) ->
  (n <= length (front (pending l)))%nat /\ take n (front (pending l)) = take n l /\ pending (drop n l) = leave n (pending l).
Proof.
  intros Hwf Hn Hb. destruct (records_wf_pending _ Hwf) as (cs & rs & -> & Hpc & Hpr & Hcs & Hrs & _).
  unfold pending. rewrite Hpc, Hpr. unfold front, leave. cbn [pn_customer pn_runtime]. destruct cs as [|c cs].
  - split_and!; [done | done |]. f_equal; [apply (of_records_other RuntimeSsh) | apply of_records_same]; try done; by apply Forall_drop.
  - pose proof (batch_within b n _ _ Hcs Hrs Hn Hb) as Hle. specialize (Hle ltac:(done)).
    rewrite take_app_le, drop_app_le by done. split_and!; [done | done |]. pose proof (Forall_drop _ n _ Hcs) as Hd.
    rewrite !of_records_app, (of_records_same Customer _ Hd), (of_records_other Customer RuntimeSsh _ Hd),
      (of_records_other RuntimeSsh Customer rs), (of_records_same RuntimeSsh rs) by done. by rewrite app_nil_r.
Qed.

(** No further header, or the factory's token for the factory. *)
Definition extra_ok (config : BlackboxConfig) (url : string) (extra : list (string * string)) : Prop :=
  extra = [] \/ exists token fid base job network uid id dep,
    bc_mode config = Factory token fid base job network uid id dep /\ url = factory_url base fid /\
    extra = [("x-blackbox-sink-factory-token", token)].

(** Every request is signed by the writer's key, for its own target, body, time and
    nonce, and goes to an https URL; the factory's token goes only to the factory. *)
Definition post_ok (writer : WriterKey) (config : BlackboxConfig) (e : log_event) : Prop :=
  match e with
  | LgPost url headers body _ =>
      exists target signed_at nonce extra, url_parse url = Some target /\ url_scheme target = "https" /\
        url_host_str target <> None /\
        headers = signed_headers writer (request_path target) body signed_at nonce ++ extra /\
        extra_ok config url extra
  | _ => True
  end.

Definition same_keys (w w' : LogWorker) : Prop := lw_writer w' = lw_writer w /\ lw_config w' = lw_config w.

Definition worker_pending (w : LogWorker) : Pending := pending (lw_pending_records w).

(** The queue of a worker lives as promised. *)
Definition fine {A} (p : A -> LogWorker) (w : LogWorker) (o : option A) (es : list log_event) : Prop :=
  Forall (post_ok (lw_writer w) (lw_config w)) es /\ (forall a, o = Some a -> same_keys w (p a)) /\
  (worker_inv w -> calm es -> exists acked q, deliveries (worker_pending w) es acked q /\
     forall a, o = Some a -> worker_inv (p a) /\ q = worker_pending (p a)).

Definition good {A} (p : A -> LogWorker) (w : LogWorker) (m : io log_event A) : Prop := adds m (fine p w).

Lemma good_after {A} (p : A -> LogWorker) w w1 es m : fine id w (Some w1) es -> good p w1 m ->
  adds m (fun o es' => fine p w o (es' ++ es)).
Proof.
  intros (Hp & Hkeys & Hrest) Hm. destruct (Hkeys w1 eq_refl) as [Hw Hc]. cbn [id] in Hw, Hc. eapply adds_conseq; [exact Hm |].
  intros o es' (Hp' & Hkeys' & Hrest'). rewrite Hw, Hc in Hp'. split; [by apply Forall_app |]. split.
  - intros b Hb. destruct (Hkeys' b Hb). split; congruence.
  - intros Hinv [Hc' Hc0]%calm_app. destruct (Hrest Hinv Hc0) as (acked & q & Hd & Hend).
    destruct (Hend w1 eq_refl) as [Hinv' ->]. destruct (Hrest' Hinv' Hc') as (acked' & q' & Hd' & Hend').
    exists (acked ++ acked'), q'. split; [by eapply deliveries_trans | done].
Qed.

Lemma fine_with {A} (p : A -> LogWorker) w a es : fine p w (Some a) es -> fine id w (Some (p a)) es.
Proof.
  intros (Hp & Hk & Hrest). split; [done |]. split; [intros ? [= <-]; by apply Hk |]. intros Hi Hc.
  destruct (Hrest Hi Hc) as (acked & q & Hd & Hend). exists acked, q. split; [done |]. intros ? [= <-]. by apply Hend.
Qed.

(** Events that do not touch the queue. *)
Lemma fine_others {A} (p : A -> LogWorker) w a es : Forall (post_ok (lw_writer w) (lw_config w)) es -> Forall other es ->
  same_keys w (p a) -> lw_pending_records (p a) = lw_pending_records w -> lw_pending_batch (p a) = lw_pending_batch w ->
  fine p w (Some a) es.
Proof.
  intros Hp He Hk Hl Hb. split; [done |]. split; [by intros ? [= <-] |]. intros Hi _. exists [], (worker_pending w).
  split; [by apply others_delivered |]. intros ? [= <-]. unfold worker_inv, worker_pending. by rewrite Hl, Hb.
Qed.

Lemma good_ret {A} (p : A -> LogWorker) w a : p a = w -> good p w (mret a).
Proof. intros <-. by apply adds_ret, fine_others. Qed.

Lemma good_diverge {A} (p : A -> LogWorker) w : good p w diverge.
Proof.
  apply adds_diverge. split; [done |]. split; [by intros ? [=] |]. intros _ _. exists [], (worker_pending w).
  split; [apply deliveries_none | by intros ? [=]].
Qed.

Lemma good_bind {A B} (p : A -> LogWorker) (q : B -> LogWorker) w (m : io log_event A) (k : A -> io log_event B) :
  good p w m -> (forall a, good q (p a) (k a)) -> good q w (m ≫= k).
Proof.
  intros Hm Hk. eapply adds_bind; [exact Hm | |].
  - intros es (Hp & _ & Hrest). split; [done |]. split; [by intros ? [=] |]. intros Hi Hc.
    destruct (Hrest Hi Hc) as (acked & q' & Hd & _). exists acked, q'. split; [done | by intros ? [=]].
  - intros a es Hf. eapply good_after; [exact (fine_with p w a es Hf) | apply Hk].
Qed.

(** A computation without requests in which nothing joins; [Q] holds of what it
    returns. *)
Definition mute {A} (Q : A -> Prop) (m : io log_event A) : Prop := does m (fun a es => Forall plain es /\ Q a).

Lemma plain_posts writer config es : Forall plain es -> Forall (post_ok writer config) es.
Proof. intros Hes. eapply Forall_impl; [exact Hes |]. by intros []. Qed.

Lemma mute_ret {A} (Q : A -> Prop) a : Q a -> mute Q (mret a).
Proof. intros HQ. by apply does_ret. Qed.
Lemma mute_bind {A B} (R : A -> Prop) (Q : B -> Prop) (m : io log_event A) (k : A -> io log_event B) :
  mute R m -> (forall a, R a -> mute Q (k a)) -> mute Q (m ≫= k).
Proof.
  intros Hm Hk. eapply does_bind; [exact Hm |]. intros a es [Hp HR]. eapply does_conseq; [apply (Hk a HR) |].
  intros b es' [Hp' HQ]. split; [by apply Forall_app | done].
Qed.
Lemma mute_ask {A} (Q : A -> Prop) (oracle : list log_event -> A) ev :
  (forall a, plain (ev a)) -> (forall a, Q a) -> mute Q (ask oracle ev).
Proof. intros He HQ. apply does_ask. intros a. split; [by apply Forall_singleton | done]. Qed.
Lemma mute_emit (Q : unit -> Prop) e : plain e -> Q tt -> mute Q (emit e).
Proof. intros He HQ t. exists tt, [e]. split; [done |]. split; [by apply Forall_singleton | done]. Qed.
Lemma mute_conseq {A} (R Q : A -> Prop) (m : io log_event A) : mute R m -> (forall a, R a -> Q a) -> mute Q m.
Proof. intros Hm HQ. eapply does_conseq; [exact Hm |]. intros a es []. auto. Qed.

Lemma good_mute {A B} (R : A -> Prop) (q : B -> LogWorker) w (m : io log_event A) (k : A -> io log_event B) :
  mute R m -> (forall a, R a -> good q w (k a)) -> good q w (m ≫= k).
Proof.
  intros Hm Hk. apply (adds_bind (fun o es => match o with Some a => Forall plain es /\ R a | None => False end));
    [by apply adds_does | done |].
  intros a es [Hp HR]. apply (good_after _ _ w); [| by apply Hk]. by apply fine_others; [apply plain_posts | apply plain_other | ..].
Qed.

Lemma good_loop {A} (p : A -> LogWorker) (body : LogWorker -> io log_event (LogWorker + A)) :
  (forall w, good (fun r => match r with inl w => w | inr a => p a end) w (body w)) ->
  forall fuel w, good p w (loop fuel body w).
Proof.
  intros Hb fuel. induction fuel as [|fuel IH]; intros w; cbn [loop]; [apply good_diverge |].
  eapply good_bind; [apply Hb |]. intros [w'|a]; [apply IH | by apply good_ret].
Qed.

(** ** Admission *)

Lemma pending_arrive r l l' : (forall o, of_records o l' = of_records o l ++ of_records o [r]) -> pending l' = arrive r (pending l).
Proof.
  intros Hl. unfold pending, arrive. rewrite !Hl. cbn. unfold is_origin. destruct (er_origin r); cbn; by rewrite app_nil_r.
Qed.

Lemma queue_good w w1 r l : same_keys w w1 ->
  (worker_inv w -> worker_inv (set_records l w1)) -> (worker_inv w -> pending l = arrive r (worker_pending w)) ->
  good id w (queue_record r l w1).
Proof.
  intros Hkeys Hinv Hl t. exists (Some (set_records l w1)), [LgQueued r]. split; [done |].
  split; [by apply Forall_singleton |]. split; [by intros a [= <-] |]. intros Hw _.
  exists [], (arrive r (worker_pending w)). split; [by apply deliveries_queued, deliveries_none |].
  intros ? [= <-]. split; [by apply Hinv |]. by rewrite <-Hl.
Qed.

Lemma encrypt_record_mute w record origin :
  mute (fun r => forall e, r = Ok e -> has_origin origin e) (encrypt_record w record origin).
Proof.
  unfold encrypt_record, getrandom. eapply mute_bind; [by apply (mute_ask (fun _ => True)) |]. intros [iv|] _; [| by apply mute_ret].
  destruct (aead_seal _ _ _ _) as [ciphertext tag]. apply mute_ret. by intros e [= <-].
Qed.

Lemma admit_chunk_good chunk w : good id w (admit_chunk chunk w).
Proof.
  unfold admit_chunk. destruct (_ <=? _)%nat eqn:Hcap.
  { eapply good_mute; [by apply (mute_emit (fun _ => True)) |]. intros _ _. by apply good_ret. }
  apply Nat.leb_gt in Hcap. eapply good_mute; [apply encrypt_record_mute |]. intros [record|e] Ho.
  2: { eapply good_mute; [by apply (mute_emit (fun _ => True)) |]. intros _ _. by apply good_ret. }
  specialize (Ho record eq_refl). set (w1 := if _ : bool then set_batch None w else w).
  assert (Hw1 : lw_pending_records w1 = lw_pending_records w /\ lw_writer w1 = lw_writer w /\ lw_config w1 = lw_config w)
    by (unfold w1; by destruct (is_some_and _ _)). destruct Hw1 as (Hl & Hwr & Hcf).
  assert (Hinv : worker_inv w -> worker_inv w1 /\ (pending_of Customer w1 < MAX_BATCH_RECORDS)%nat /\
            forall b, lw_pending_batch w1 = Some b -> batch_origin b <> Some "runtime_ssh").
  { intros [Hwf Hb]. unfold pending_of in *. rewrite Hl. split_and!; [split; [by rewrite Hl |] | done |].
    - unfold w1. destruct (is_some_and _ _); [done | exact Hb].
    - intros b. unfold w1. destruct (lw_pending_batch w) as [b'|] eqn:Hpb; cbn [is_some_and].
      + destruct (bool_decide_reflect (batch_origin b' = Some "runtime_ssh")); [done |]. rewrite Hpb. by intros [= <-].
      + by rewrite Hpb. }
  apply queue_good; [done | |].
  - intros Hw. destruct (Hinv Hw) as (Hw1 & Hc & Hb). by apply insert_customer_inv.
  - intros Hw. destruct (Hinv Hw) as (Hw1 & Hc & Hb). unfold worker_pending. rewrite <-Hl. apply pending_arrive. by apply insert_customer_inv.
Qed.

Lemma push_good w r : has_origin RuntimeSsh r -> (pending_of RuntimeSsh w < MAX_BATCH_RECORDS * 3)%nat ->
  good id w (queue_record r (lw_pending_records w ++ [r]) w).
Proof.
  intros Hr Hcap. apply queue_good; [done | |].
  - intros Hw. by apply push_runtime_inv.
  - intros _. apply pending_arrive. intros o. apply of_records_app.
Qed.

Lemma admit_runtime_ssh_good record w : good id w (admit_runtime_ssh record w).
Proof.
  unfold admit_runtime_ssh. set (cap := if rr_critical record then _ else _). destruct (cap <=? _)%nat eqn:Hcap.
  { eapply good_mute; [by apply (mute_emit (fun _ => True)) |]. intros _ _. by apply good_ret. }
  apply Nat.leb_gt in Hcap. eapply good_mute; [apply encrypt_record_mute |]. intros [e|e] Ho.
  - apply push_good; [by apply Ho |]. unfold cap, MAX_BATCH_RECORDS in *. destruct (rr_critical record); lia.
  - eapply good_mute; [by apply (mute_emit (fun _ => True)) |]. intros _ _. by apply good_ret.
Qed.

Lemma drop_evidence_runtime_good w : good id w (admit_drop_evidence_for RuntimeSsh w).
Proof.
  unfold admit_drop_evidence_for. destruct (_ <=? _)%nat eqn:Hcap; [by apply good_ret |]. apply Nat.leb_gt in Hcap.
  eapply good_mute; [by apply (mute_ask (fun _ => True)) |]. intros [[chunks bytes]|] _; [| by apply good_ret].
  eapply good_mute; [by apply (mute_ask (fun _ => True)) |]. intros timestamp _.
  eapply good_mute; [apply encrypt_record_mute |]. intros [e|e] Ho; [| by apply good_ret].
  apply push_good; [by apply Ho |]. unfold MAX_BATCH_RECORDS in *. lia.
Qed.

(** Reporting dropped customer output is outside of [calm]. *)
Lemma drop_evidence_customer_good w : good id w (admit_drop_evidence_for Customer w).
Proof.
  unfold admit_drop_evidence_for. destruct (_ <=? _)%nat eqn:Hcap; [by apply good_ret |].
  apply (adds_bind (fun o es => match o with Some counts => es = [LgTake Customer counts] | None => False end));
    [by apply adds_ask | done |].
  intros [[chunks bytes]|] es ->.
  2: { apply adds_ret, (fine_others id w w [LgTake Customer None]); [by apply Forall_singleton | by apply Forall_singleton | done | done | done]. }
  apply (adds_bind (fun o es => match o with Some _ => Forall plain es | None => False end)); [by apply adds_ask; intros; apply Forall_singleton | done |].
  intros timestamp es1 Hes1.
  apply (adds_bind (fun o es => match o with Some _ => Forall plain es | None => False end)).
  { apply adds_does. eapply does_conseq; [apply encrypt_record_mute |]. by intros ? ? []. }
  { done. }
  intros [record|e] es2 Hes2.
  - intros t. exists (Some (set_records (insert_before_runtime record (lw_pending_records w)) w)), [LgQueued record].
    split; [done |]. split; [repeat apply Forall_app_2; try (by apply plain_posts); by apply Forall_singleton |]. split; [by intros a [= <-] |].
    intros _ Hcalm. destruct (Hcalm (chunks, bytes)). rewrite !elem_of_app, ?list_elem_of_singleton. tauto.
  - apply adds_ret. split; [repeat apply Forall_app_2; try (by apply plain_posts); by apply Forall_singleton |].
    split; [by intros a [= <-] |]. intros _ Hcalm. destruct (Hcalm (chunks, bytes)). rewrite !elem_of_app, ?list_elem_of_singleton. tauto.
Qed.

(** ** Requests *)

Definition steady (w w' : LogWorker) : Prop :=
  same_keys w w' /\ lw_pending_records w' = lw_pending_records w /\ lw_pending_batch w' = lw_pending_batch w.

(** A computation that may send requests but keeps the records and the batch. *)
Definition talk {A} (p : A -> LogWorker) (w : LogWorker) (m : io log_event A) (Q : A -> list log_event -> Prop) : Prop :=
  does m (fun a es => Forall (post_ok (lw_writer w) (lw_config w)) es /\ steady w (p a) /\ Q a es).

Lemma talk_ret {A} (p : A -> LogWorker) w a (Q : A -> list log_event -> Prop) : steady w (p a) -> Q a [] -> talk p w (mret a) Q.
Proof. intros Hs HQ. by apply does_ret. Qed.

Lemma steady_trans w w1 w2 : steady w w1 -> steady w1 w2 -> steady w w2.
Proof. intros [[] []] [[] []]. repeat split; congruence. Qed.

Lemma talk_bind {A B} (p : A -> LogWorker) (q : B -> LogWorker) w m k (R : A -> list log_event -> Prop) (Q : B -> list log_event -> Prop) :
  talk p w m R -> (forall a es, R a es -> talk q (p a) (k a) (fun b es' => Q b (es' ++ es))) -> talk q w (m ≫= k) Q.
Proof.
  intros Hm Hk. eapply does_bind; [exact Hm |]. intros a es (Hp & Hs & HR). eapply does_conseq; [apply (Hk a es HR) |].
  intros b es' (Hp' & Hs' & HQ). pose proof Hs as [[Hw Hc] _]. rewrite Hw, Hc in Hp'.
  split_and!; [by apply Forall_app | by eapply steady_trans | done].
Qed.

Lemma talk_mute {A B} (q : B -> LogWorker) w (m : io log_event A) k (R : A -> Prop) (Q : B -> list log_event -> Prop) :
  mute R m -> (forall b es es', Forall plain es -> Q b es' -> Q b (es' ++ es)) -> (forall a, R a -> talk q w (k a) Q) ->
  talk q w (m ≫= k) Q.
Proof.
  intros Hm HQ Hk. eapply does_bind; [exact Hm |]. intros a es [Hp HR]. eapply does_conseq; [apply (Hk a HR) |].
  intros b es' (Hp' & Hs' & HQ'). pose proof (plain_posts (lw_writer w) (lw_config w) es Hp).
  split_and!; [by apply Forall_app | done | by apply HQ].
Qed.

Lemma talk_conseq {A} (p : A -> LogWorker) w m (R Q : A -> list log_event -> Prop) :
  talk p w m R -> (forall a es, R a es -> Q a es) -> talk p w m Q.
Proof. intros Hm HQ. eapply does_conseq; [exact Hm |]. naive_solver. Qed.

(** The request was not sent, or its answer is the result. *)
Definition requested (url : string) (v : Value) (a : LogWorker * result HttpResponse unit) (es : list log_event) : Prop :=
  (Forall plain es /\ a.2 = Err tt) \/
  exists headers reply mid, es = LgPost url headers (canonical_json_bytes v) reply :: mid /\ Forall plain mid /\
    a.2 = ureq_response reply.

Lemma unsent url v w : requested url v (w, Err tt) [].
Proof. by left. Qed.

Lemma requested_mono url v a es es' : Forall plain es -> requested url v a es' -> requested url v a (es' ++ es).
Proof.
  intros Hp [[Hes Ha]|(h & rp & mid & -> & Hmid & Ha)].
  - left. by split; [apply Forall_app |].
  - right. exists h, rp, (mid ++ es). by split_and!; [| apply Forall_app |].
Qed.

Lemma requested_other url v a es : control (canonical_json_bytes v) -> requested url v a es -> Forall other es.
Proof.
  intros Hv [[Hes _]|(h & rp & mid & -> & Hmid & _)]; [by apply plain_other |]. apply Forall_cons. by split; [| apply plain_other].
Qed.

Lemma pace_mute w : mute (fun _ => True) (pace w).
Proof.
  unfold pace. destruct (lw_last_request w); [| by apply mute_ret].
  eapply mute_bind; [by apply (mute_ask (fun _ => True)) |]. intros now _. destruct (_ =? 0); [by apply mute_ret | by apply mute_emit].
Qed.

Lemma post_signed_talk url v extra w : extra_ok (lw_config w) url extra ->
  talk fst w (post_signed url v extra w) (requested url v).
Proof.
  intros Hextra. unfold post_signed. eapply talk_mute; [apply pace_mute | by intros; apply requested_mono |]. intros _ _.
  destruct (url_parse url) as [target|] eqn:Hu; [| apply talk_ret; [done | apply unsent]].
  destruct (str_eqb_spec (url_scheme target) "https") as [Hs|]; cbn [negb orb]; [| apply talk_ret; [done | apply unsent]].
  destruct (url_host_str target) as [host|] eqn:Hh; cbn [opt_is_none]; [| apply talk_ret; [done | apply unsent]].
  eapply talk_mute; [by apply (mute_ask (fun _ => True)) | by intros; apply requested_mono |]. intros signed_at _.
  eapply talk_mute; [by apply (mute_ask (fun _ => True)) | by intros; apply requested_mono |].
  intros [nonce|] _; [| apply talk_ret; [done | apply unsent]].
  eapply talk_mute; [by apply (mute_ask (fun _ => True)) | by intros; apply requested_mono |]. intros now _.
  unfold client_post. destruct (lw_outage_canary _); [apply talk_ret; [done | apply unsent] |].
  intros t. eexists _, [_]. split; [reflexivity |]. split.
  - apply Forall_singleton. exists target, signed_at, (base64_url_safe_no_pad_encode nonce), extra. by rewrite Hh.
  - split; [done |]. right. by eexists _, _, [].
Qed.

Lemma extra_none config url : extra_ok config url [].
Proof. by left. Qed.

Definition given {A} (r : result A unit) : option A := match r with Ok a => Some a | Err _ => None end.

(** The resume request was not sent, or its answer tells the chain. *)
Definition resumed_by (sink_id : string) (a : LogWorker * result (Z * option string) unit) (es : list log_event) : Prop :=
  (Forall plain es /\ given a.2 = None) \/
  exists url headers w job_id reply mid, es = LgPost url headers (canonical_json_bytes (resume_body w job_id)) reply :: mid /\
    Forall plain mid /\ given a.2 = resume_chain sink_id reply.

Lemma resume_sink_talk sink_id job_id url w :
  talk fst w (resume_sink sink_id job_id url w) (fun a es => resumed_by sink_id a es /\ Forall other es).
Proof.
  unfold resume_sink. eapply (talk_bind fst); [apply post_signed_talk, extra_none |]. intros [w1 r] es Hreq. cbn [fst snd].
  apply talk_ret; [done |]. cbn [app]. split; [| by eapply requested_other; [left; eauto | exact Hreq]].
  destruct Hreq as [[Hes Hr]|(h & rp & mid & -> & Hmid & Hr)]; cbn [snd] in Hr; subst r; [by left |].
  right. exists url, h, w, job_id, rp, mid. split_and!; [done | done |]. cbn [snd]. unfold resume_chain.
  destruct (ureq_response rp) as [response|]; cbn; [| done]. destruct (success (status response)); cbn; [| done].
  destruct (from_str (body response)) as [parsed|]; cbn; [| done]. by destruct (bool_decide _).
Qed.

Lemma resolve_sink_talk w : talk fst w (resolve_sink w) (fun _ => Forall other).
Proof.
  unfold resolve_sink. destruct (bc_mode (lw_config w)) as [sink job write resume|token fid base job network uid id dep] eqn:Hmode.
  - eapply (talk_bind fst); [apply resume_sink_talk |]. intros a es [_ Ho]. by apply talk_ret.
  - eapply (talk_bind fst).
    + apply post_signed_talk. right. rewrite Hmode. by exists token, fid, base, job, network, uid, id, dep.
    + intros a es Hreq. apply talk_ret; [done |]. eapply requested_other; [| exact Hreq]. right. by eexists _, _, _, _, _.
Qed.

Lemma ensure_sink_talk w : talk fst w (ensure_sink w) (fun _ => Forall other).
Proof.
  unfold ensure_sink. destruct (lw_resolved w); [by apply talk_ret |].
  eapply (talk_bind fst); [apply resolve_sink_talk |]. intros [w' [sink|e]] es Ho; by apply talk_ret.
Qed.

(** The chain is in the response, or it is asked for. *)
Definition chained_by (response : string) (a : LogWorker * result (Z * option string) unit) (es : list log_event) : Prop :=
  match parse_chain_response response with
  | Some chain => es = [] /\ given a.2 = Some chain
  | None => exists sink_id, resumed_by sink_id a es
  end.

Lemma chain_after_talk response w : talk fst w (chain_after response w) (chained_by response).
Proof.
  unfold chain_after, chained_by. destruct (parse_chain_response response); [by apply talk_ret |].
  destruct (lw_resolved w) as [r|].
  - eapply talk_conseq; [apply resume_sink_talk |]. intros a es []. by exists (rs_sink_id r).
  - apply talk_ret; [done |]. exists EmptyString. by left.
Qed.

(** ** Batches *)

Lemma batch_without_id_mute w resolved selected origin : mute (fun r => forall b, r = Ok b ->
    exists last created_at, b = batch_value w resolved selected origin last created_at /\
      sequence_end resolved selected = Ok last)
  (batch_without_id w resolved selected origin).
Proof.
  unfold batch_without_id. destruct (sequence_end resolved selected) as [last|]; [| by apply mute_ret].
  eapply mute_bind; [by apply (mute_ask (fun _ => True)) |]. intros created_at _. apply mute_ret. intros b [= <-]. by exists last, created_at.
Qed.

Lemma mute_let {A B E'} (m : io log_event (result A E')) (k : A -> io log_event (result B E')) (R : result A E' -> Prop) (Q : result B E' -> Prop) :
  mute R m -> (forall e, Q (Err e)) -> (forall a, R (Ok a) -> mute Q (k a)) -> mute Q (let!? a := m in k a).
Proof. intros Hm He Hk. eapply mute_bind; [exact Hm |]. intros [a|e] HR; [by apply Hk | by apply mute_ret]. Qed.

Lemma select_records_mute w resolved origin records selected : mute (fun r => forall l, r = Ok l ->
    exists k, l = selected ++ map er_value (take k records)) (select_records w resolved origin records selected).
Proof.
  revert selected. induction records as [|r records IH]; intros selected; cbn [select_records].
  - apply mute_ret. intros l [= <-]. exists 0%nat. by rewrite app_nil_r.
  - eapply mute_let; [apply batch_without_id_mute | done |]. intros batch _. destruct (_ <? _).
    + apply mute_ret. intros l [= <-]. exists 0%nat. by rewrite app_nil_r.
    + eapply mute_conseq; [apply IH |]. intros res Hres l Hl. destruct (Hres l Hl) as [k ->]. exists (S k).
      cbn [take map]. by rewrite <-app_assoc.
Qed.

Lemma take_origin_prefix o l : exists k, take_origin o l = take k l /\ (k <= length l)%nat /\ Forall (has_origin o) (take_origin o l).
Proof.
  induction l as [|r l (k & Hk & Hle & Hall)]; cbn [take_origin]; [by exists 0%nat |].
  destruct (is_origin o r) eqn:Ho; [| exists 0%nat; split_and!; [done | lia | done]].
  exists (S k). cbn [take length]. rewrite Hk in *. split_and!; [done | lia |]. apply Forall_cons. split; [| done].
  unfold is_origin, has_origin in *. by destruct (er_origin r), o.
Qed.

Lemma build_batch_mute w : mute (fun r => forall b, r = Ok b -> exists n, (n <= length (lw_pending_records w))%nat /\
    batch_for b (take n (lw_pending_records w))) (build_batch w).
Proof.
  unfold build_batch. destruct (lw_resolved w) as [resolved|]; [| by apply mute_ret].
  destruct (head (lw_pending_records w)) as [first|]; [| by apply mute_ret]. set (o := er_origin first).
  eapply mute_let; [apply select_records_mute | done |]. intros selected Hsel. destruct (Hsel selected eq_refl) as [k ->]. clear Hsel.
  cbn [app]. destruct (take_origin_prefix o (lw_pending_records w)) as (j & Hj & Hle & Hall). rewrite Hj in *.
  rewrite !take_take. set (n := Nat.min (Nat.min k MAX_BATCH_RECORDS) j).
  destruct (map er_value (take n (lw_pending_records w))) as [|v vs] eqn:Hm; [by apply mute_ret |]. rewrite <-Hm.
  eapply mute_let; [apply batch_without_id_mute | done |]. intros batch Hbatch.
  destruct (Hbatch batch eq_refl) as (last & created_at & -> & _). apply mute_ret. intros b Hb. destruct (_ <? _) in Hb; [done |].
  injection Hb as <-. exists n. split; [unfold n; lia |]. split; [by intros Hnil; rewrite Hnil in Hm |]. split; [reflexivity |].
  exists o. split; [| reflexivity]. replace (take n (lw_pending_records w)) with (take n (take j (lw_pending_records w)))
    by (rewrite take_take; f_equal; unfold n; lia). by apply Forall_take.
Qed.

(** ** Flushing *)

Lemma talk_good {A} (p : A -> LogWorker) w m : talk p w m (fun _ => Forall other) -> good p w m.
Proof.
  intros Hm. apply adds_does. eapply does_conseq; [exact Hm |]. intros a es (Hp & (Hk & Hl & Hb) & Ho). by apply fine_others.
Qed.

(** The same from a state with the same keys and records and an invariant batch. *)
Lemma good_start {A} (p : A -> LogWorker) w w' m : same_keys w w' -> lw_pending_records w' = lw_pending_records w ->
  (worker_inv w -> worker_inv w') -> good p w' m -> good p w m.
Proof.
  intros [Hw Hc] Hl Hinv Hm. eapply adds_conseq; [exact Hm |]. intros o es (Hp & Hk & Hrest). rewrite Hw, Hc in Hp.
  split; [done |]. split.
  - intros a Ha. destruct (Hk a Ha). split; congruence.
  - intros Hi Hcalm. unfold worker_pending in *. rewrite <-Hl. by apply Hrest; [apply Hinv |].
Qed.

(** What a write leaves of the pending records and the batch. *)
Definition settled (b : Value) (chain : option (Z * option string)) (w w' : LogWorker) : Prop :=
  same_keys w w' /\
  if past b chain then
    forall sent, as_array (value_index "encrypted" b) = Some sent ->
      lw_pending_records w' = drop (length sent) (lw_pending_records w) /\ lw_pending_batch w' = None
  else lw_pending_records w' = lw_pending_records w /\ lw_pending_batch w' = lw_pending_batch w.

Lemma fine_write {A} (p : A -> LogWorker) w a b chain seg mid : lw_pending_batch w = Some b -> Forall plain mid ->
  exchange b seg chain -> Forall (post_ok (lw_writer w) (lw_config w)) (seg ++ mid) -> settled b chain w (p a) ->
  fine p w (Some a) (seg ++ mid).
Proof.
  intros Hpb Hmid Hex Hp [Hk Hset]. split; [done |]. split; [by intros ? [= <-] |]. intros [Hwf Hb] _.
  destruct (Hb b Hpb) as (n & Hn & Hfor). destruct (pending_front b n _ Hwf Hn Hfor) as (Hnf & Htake & Hdrop).
  pose proof Hfor as (_ & Henc & _). rewrite <-Htake in Hfor.
  pose proof (deliveries_write (worker_pending w) mid [] (worker_pending w) b n seg chain
    (others_delivered _ _ (plain_other _ Hmid)) Hnf Hfor Hex) as Hd.
  eexists _, _. split; [exact Hd |]. intros ? [= <-]. unfold worker_inv, worker_pending. destruct (past b chain).
  - destruct (Hset _ Henc) as [Hl ->]. rewrite length_map, length_take, Nat.min_l in Hl by done. rewrite Hl, Hdrop.
    split; [| done]. split; [by apply records_wf_drop | done].
  - destruct Hset as [-> ->]. by split; [split |].
Qed.

Lemma settled_not b chain w w' : steady w w' -> past b chain = false -> settled b chain w w'.
Proof. intros (Hk & Hl & Hb) Hpast. split; [done |]. by rewrite Hpast. Qed.

Lemma past_none b : past b None = false.
Proof. done. Qed.
#[local] Hint Resolve settled_not past_none : core.

(** After the request of a write. *)
Lemma write_refused w w1 url b r es : lw_pending_batch w = Some b -> steady w w1 ->
  Forall (post_ok (lw_writer w) (lw_config w)) es -> requested url b (w1, r) es ->
  (forall response, r = Ok response -> success (status response) = false) -> fine id w (Some w1) es.
Proof.
  intros Hpb Hs Hp Hreq Hno. destruct Hreq as [[Hes _]|(h & rp & mid & -> & Hmid & Hr)].
  - destruct Hs as (Hk & Hl & Hb). by apply fine_others; [| apply plain_other | ..].
  - apply (fine_write id w w1 b None [_] mid); auto. apply exchange_refused. intros response [Hu Hok]. cbn [snd] in Hr.
    rewrite (Hno response) in Hok by congruence. done.
Qed.

Lemma write_accepted {A} (p : A -> LogWorker) w a url b w1 response es1 x es2 : lw_pending_batch w = Some b ->
  Forall (post_ok (lw_writer w) (lw_config w)) (es2 ++ es1) -> requested url b (w1, Ok response) es1 ->
  success (status response) = true -> chained_by (body response) x es2 -> settled b (given x.2) w (p a) ->
  fine p w (Some a) (es2 ++ es1).
Proof.
  intros Hpb Hp [[_ Hr]|(h & rp & mid & -> & Hmid & Hr)] Hok Hch Hset; [done |]. cbn [snd] in Hr.
  assert (Hacc : accepted rp response) by done. rewrite cons_middle, app_assoc in *.
  apply (fine_write p w a b (given x.2)); try done. unfold chained_by in Hch.
  destruct (parse_chain_response (body response)) as [chain|] eqn:Hc.
  - destruct Hch as [-> ->]. by eapply exchange_told.
  - destruct Hch as (sink_id & [[Hes ->]|(u & h2 & w2 & job & rp2 & mid2 & -> & Hmid2 & ->)]).
    + by eapply exchange_unasked.
    + by eapply exchange_asked.
Qed.

(** An accepted batch leaves if the chain moved past it. *)
Lemma accept_batch_settles b last chain w w1 : as_u64 (value_index "sequenceEnd" b) = Some last -> steady w w1 ->
  does (accept_batch b last chain w1) (fun a es => es = [] /\ settled b (Some chain) w a.1).
Proof.
  intros Hlast Hs. unfold accept_batch. pose proof Hs as (Hk & Hl & Hb).
  assert (Hpast : past b (Some chain) = (last <? chain.1)) by (unfold past; by rewrite Hlast).
  destruct (chain.1 <=? last) eqn:Hle.
  - apply does_ret. split; [done |]. apply settled_not; [done |]. rewrite Hpast. by apply Z.ltb_ge, Z.leb_le.
  - apply Z.leb_gt in Hle. unfold settled. rewrite Hpast. replace (last <? chain.1) with true by (symmetry; by apply Z.ltb_lt).
    destruct (as_array (value_index "encrypted" b)) as [sent|]; apply does_ret; (split; [done |]); (split; [done |]).
    + intros ? [= <-]. cbn. by rewrite Hl.
    + by intros ? [=].
Qed.

Lemma accepted_good w w1 url b response es1 : lw_pending_batch w = Some b -> steady w w1 ->
  Forall (post_ok (lw_writer w) (lw_config w)) es1 -> requested url b (w1, Ok response) es1 -> success (status response) = true ->
  adds (match as_u64 (value_index "sequenceEnd" b) with
        | None => mret (w1, Err tt)
        | Some last =>
            chained ← chain_after (body response) w1;
            match chained.2 with
            | Err _ => mret (chained.1, Err tt)
            | Ok chain => accept_batch b last chain chained.1
            end
        end) (fun o es => fine fst w o (es ++ es1)).
Proof.
  intros Hpb Hs Hp Hreq Hok. apply adds_does. destruct (as_u64 _) as [last|] eqn:Hlast.
  - eapply does_bind; [apply chain_after_talk |]. intros [w2 r] es2 (Hp2 & Hs2 & Hch). cbn [fst snd] in *.
    pose proof Hs as [[Hw Hc] _]. rewrite Hw, Hc in Hp2. pose proof (steady_trans _ _ _ Hs Hs2) as Hs02. destruct r as [chain|e].
    + eapply does_conseq; [by apply (accept_batch_settles b last chain w w2) |]. intros a es [-> Hset].
      by eapply write_accepted; [| apply Forall_app | | | exact Hch |].
    + apply does_ret. eapply write_accepted; [done | by apply Forall_app | done | done | exact Hch |]. auto.
  - assert (Hnone : forall chain, past b chain = false) by (intros [chain|]; [unfold past; by rewrite Hlast | done]).
    apply does_ret. cbn [app]. destruct Hreq as [[_ Hr]|(h & rp & mid & -> & Hmid & Hr)]; [done |]. cbn [snd] in Hr.
    destruct (parse_chain_response (body response)) as [chain|] eqn:Hc.
    + apply (fine_write fst w _ b (Some chain) [_] mid); auto. by eapply exchange_told.
    + apply (fine_write fst w _ b None [_] mid); auto. by eapply (exchange_unasked b url h rp response []).
Qed.

Lemma adds_talk {A B} (p : A -> LogWorker) w (m : io log_event A) (k : A -> io log_event B) Q (P : option B -> list log_event -> Prop) :
  talk p w m Q -> (forall a es, Forall (post_ok (lw_writer w) (lw_config w)) es -> steady w (p a) -> Q a es ->
    adds (k a) (fun o es' => P o (es' ++ es))) -> adds (m ≫= k) P.
Proof.
  intros Hm Hk. apply (adds_bind (fun o es => match o with
      | Some a => Forall (post_ok (lw_writer w) (lw_config w)) es /\ steady w (p a) /\ Q a es | None => False end));
    [by apply adds_does | done |]. intros a es (Hp & Hs & HQ). by apply Hk.
Qed.

Lemma flush_attempts_good n w : good fst w (flush_attempts n w).
Proof.
  revert w. induction n as [|n IH]; intros w; cbn [flush_attempts].
  all: destruct (lw_pending_batch w) as [batch|] eqn:Hpb; [| by apply good_ret].
  all: destruct (lw_resolved w) as [resolved|]; [| by apply good_ret].
  all: eapply adds_talk; [apply post_signed_talk, extra_none |].
  all: intros [w1 [response|e]] es1 Hp Hs Hreq; cbn [fst snd] in *;
    [| eapply (good_after _ _ w1); [by eapply write_refused | by apply good_ret]].
  all: destruct (success (status response)) eqn:Hok; [by eapply accepted_good |].
  all: eapply (good_after _ _ w1); [apply (write_refused w w1 (rs_write_url resolved) batch (Ok response)); try done; by intros ? [= <-] |].
  all: destruct (is_sequence_conflict response); [| by apply good_ret]; try by apply good_ret.
  destruct (parse_chain_response (body response)) as [chain|]; [| by apply good_ret].
  eapply (good_mute _ fst w1); [apply build_batch_mute |].
  intros [b|e] Hb; [| by apply talk_good, talk_ret].
  apply (good_start fst w1 (set_batch (Some b) (advance chain w1))); [done | done | | apply IH].
  intros [Hwf _]. split; [exact Hwf |]. intros b' [= <-]. exact (Hb b eq_refl).
Qed.

Lemma flush_once_good w : good fst w (flush_once w).
Proof.
  unfold flush_once. destruct (lw_pending_batch w) as [batch|] eqn:Hpb; [apply flush_attempts_good |].
  destruct (lw_pending_records w) as [|r l]; [by apply good_ret |].
  eapply (good_bind fst); [apply talk_good, ensure_sink_talk |]. intros [w1 [[]|e]]; cbn [fst snd]; [| by apply good_ret].
  eapply good_mute; [apply build_batch_mute |]. intros [b|e] Hb; [| by apply good_ret].
  apply (good_start fst w1 (set_batch (Some b) w1)); [done | done | | apply flush_attempts_good].
  intros [Hwf _]. split; [exact Hwf |]. intros b' [= <-]. exact (Hb b eq_refl).
Qed.

(** ** The loops *)

Definition either (r : LogWorker + LogWorker) : LogWorker := match r with inl w | inr w => w end.

Lemma mute_event {B} (q : B -> LogWorker) w e (k : unit -> io log_event B) :
  plain e -> (forall a, good q w (k a)) -> good q w (emit e ≫= k).
Proof. intros He Hk. eapply good_mute; [by apply (mute_emit (fun _ => True)) |]. auto. Qed.

Lemma mute_question {A B} (q : B -> LogWorker) w (oracle : list log_event -> A) ev (k : A -> io log_event B) :
  (forall a, plain (ev a)) -> (forall a, good q w (k a)) -> good q w (ask oracle ev ≫= k).
Proof. intros He Hk. eapply good_mute; [by apply (mute_ask (fun _ => True)) |]. auto. Qed.

Lemma drain_prioritized_good w : good fst w (drain_prioritized w).
Proof.
  unfold drain_prioritized. eapply (good_bind fst).
  { apply good_loop. intros w1. unfold drain_customer_turn. destruct (negb _); [by apply good_ret |].
    apply mute_question; [done |]. intros [[chunk|record|]|]; [| apply good_diverge | by apply good_ret | by apply good_ret].
    eapply (good_bind id); [apply admit_chunk_good |]. intros w2. by apply good_ret. }
  intros [w1 finish]. eapply (good_bind id).
  { apply good_loop. intros w2. unfold drain_runtime_turn. destruct (negb _); [by apply good_ret |].
    apply mute_question; [done |]. intros [[chunk|record|]|]; [apply good_diverge | | apply good_diverge | by apply good_ret].
    apply mute_event; [done |]. intros _. eapply (good_bind id); [apply admit_runtime_ssh_good |]. intros w3. by apply good_ret. }
  intros w2. eapply (good_bind id); [apply drop_evidence_runtime_good |]. intros w3. by apply good_ret.
Qed.

Lemma finish_prioritized_good w : good id w (finish_prioritized w).
Proof.
  unfold finish_prioritized. eapply (good_bind id); [apply drop_evidence_customer_good |]. intros w1.
  eapply (good_bind id); [apply drop_evidence_runtime_good |]. intros w2. apply mute_question; [done |]. intros now.
  eapply (good_bind id).
  { apply good_loop. intros w3. unfold finish_turn. destruct (lw_pending_records w3); [by apply good_ret |].
    apply mute_question; [done |]. intros now'. destruct (negb _); [by apply good_ret |].
    eapply (good_bind fst); [apply flush_once_good |]. intros [w4 r]. apply good_ret. cbn [fst snd]. by destruct (is_ok r). }
  intros w3. apply mute_event; [done |]. intros _. by apply good_ret.
Qed.

Lemma after_chunk_good chunk w : good either w (after_chunk chunk w).
Proof.
  unfold after_chunk. eapply (good_bind id); [apply admit_chunk_good |]. intros w1.
  eapply (good_bind fst); [apply drain_prioritized_good |]. intros [w2 []]; cbn [fst snd].
  - eapply (good_bind id); [apply finish_prioritized_good |]. intros w3. by apply good_ret.
  - eapply (good_bind fst); [apply flush_once_good |]. intros w3. by apply good_ret.
Qed.

Lemma on_finish_good w : good either w (on_finish w).
Proof.
  unfold on_finish. eapply (good_bind fst); [apply drain_prioritized_good |]. intros w1.
  eapply (good_bind id); [apply finish_prioritized_good |]. intros w3. by apply good_ret.
Qed.

Lemma run_prioritized_good w : good id w (run_prioritized w).
Proof.
  apply (good_loop id). intros w1. change (fun r : LogWorker + LogWorker => match r with inl w => w | inr a => id a end) with either.
  unfold prioritized_turn. apply mute_question; [done |].
  intros [[chunk|record|]|]; [apply after_chunk_good | apply good_diverge | apply on_finish_good |].
  apply mute_question; [done |]. intros [[chunk|record|]|]; [apply good_diverge | | apply good_diverge |].
  - apply mute_event; [done |]. intros _. eapply (good_bind id); [apply admit_runtime_ssh_good |]. intros w2.
    eapply (good_bind fst); [apply flush_once_good |]. intros w3. by apply good_ret.
  - apply mute_question; [done |]. intros [[chunk|record|]| |];
      [apply after_chunk_good | apply good_diverge | apply on_finish_good | by apply good_ret |].
    eapply (good_bind fst); [apply drain_prioritized_good |]. intros w2. by apply good_ret.
Qed.

Lemma new_worker_inv config labels canary origin w : new_worker config labels canary origin = Some w ->
  worker_inv w /\ lw_pending_records w = [] /\ lw_config w = config /\ derive_writer (bc_dek config) = Some (lw_writer w).
Proof.
  unfold new_worker. destruct (derive_writer (bc_dek config)) as [writer|]; [cbn | done].
  destruct (len (bc_dek config) =? 32); cbn; [| done]. intros [= <-]. cbn. split_and!; try done. split; [| done].
  exists [], []. unfold MAX_BATCH_RECORDS. by split_and!; try (cbn; lia).
Qed.

(** ** The end of a run *)

Definition nonempty_batch (w : LogWorker) : Prop :=
  forall b, lw_pending_batch w = Some b -> exists v vs, as_array (value_index "encrypted" b) = Some (v :: vs).

(** A flush that succeeds sends something. *)
Definition shrinks (w : LogWorker) (a : LogWorker * result unit unit) : Prop :=
  nonempty_batch a.1 /\ (length (lw_pending_records a.1) <= length (lw_pending_records w))%nat /\
  (is_ok a.2 = true -> length (lw_pending_records a.1) < length (lw_pending_records w))%nat.

Lemma shrinks_err w w' : nonempty_batch w' -> lw_pending_records w' = lw_pending_records w -> shrinks w (w', Err tt).
Proof. intros Hb Hl. split; [done |]. cbn [fst snd]. rewrite Hl. by split. Qed.

Lemma batch_for_nonempty b l : batch_for b l -> exists v vs, as_array (value_index "encrypted" b) = Some (v :: vs).
Proof. intros (Hne & Henc & _). destruct l as [|r l]; [done |]. rewrite Henc. cbn. eauto. Qed.

Lemma steady_nonempty w w' : steady w w' -> nonempty_batch w -> nonempty_batch w'.
Proof. intros (_ & _ & Hb) Hn b. rewrite Hb. apply Hn. Qed.

Lemma flush_attempts_shrinks n w : nonempty_batch w -> lw_pending_records w <> [] ->
  does (flush_attempts n w) (fun a _ => shrinks w a).
Proof.
  revert w. induction n as [|n IH]; intros w Hne Hrec; cbn [flush_attempts].
  all: destruct (lw_pending_batch w) as [batch|] eqn:Hpb; [| by apply does_ret, shrinks_err].
  all: destruct (lw_resolved w) as [resolved|]; [| by apply does_ret, shrinks_err].
  all: eapply does_bind; [apply post_signed_talk, extra_none |].
  all: intros [w1 [response|e]] es1 (_ & Hs1 & _); cbn [fst snd] in *; pose proof (steady_nonempty _ _ Hs1 Hne) as Hne1;
    pose proof Hs1 as (_ & Hl1 & Hb1); [| by apply does_ret, shrinks_err].
  all: destruct (success (status response)).
  1, 3: destruct (as_u64 _) as [last|]; [| by apply does_ret, shrinks_err]; eapply does_bind; [apply chain_after_talk |];
    intros [w2 [chain|e]] es2 (_ & Hs2 & _); cbn [fst snd] in *; pose proof (steady_nonempty _ _ Hs2 Hne1) as Hne2;
    pose proof Hs2 as (_ & Hl2 & Hb2); [| apply does_ret, shrinks_err; [done | congruence]];
    unfold accept_batch; destruct (_ <=? last); [apply does_ret, shrinks_err; [done | congruence] |];
    destruct (Hne batch Hpb) as (v & vs & Henc); rewrite Henc; apply does_ret;
    split; [done |]; cbn [fst snd lw_pending_records set_batch set_records]; change (lw_pending_records (advance chain w2)) with (lw_pending_records w2);
    rewrite length_drop, Hl2, Hl1; destruct (lw_pending_records w); [done | cbn [length]; lia].
  all: destruct (is_sequence_conflict response); [| by apply does_ret, shrinks_err]; try by apply does_ret, shrinks_err.
  destruct (parse_chain_response (body response)) as [chain|]; [| by apply does_ret, shrinks_err].
  eapply does_bind; [apply build_batch_mute |]. intros [b|e] es2 [_ Hb]; [| apply does_ret, shrinks_err; done].
  eapply does_conseq; [apply IH |].
  - intros b' [= <-]. destruct (Hb b eq_refl) as (k & _ & Hfor). by eapply batch_for_nonempty.
  - change (lw_pending_records w1 <> []). by rewrite Hl1.
  - intros a es3 Ha. unfold shrinks in *. change (lw_pending_records (set_batch (Some b) (advance chain w1))) with (lw_pending_records w1) in Ha.
    by rewrite Hl1 in Ha.
Qed.

Lemma flush_once_shrinks w : nonempty_batch w -> lw_pending_records w <> [] -> does (flush_once w) (fun a _ => shrinks w a).
Proof.
  intros Hne Hrec. unfold flush_once. destruct (lw_pending_batch w) as [batch|] eqn:Hpb; [by apply flush_attempts_shrinks |].
  destruct (lw_pending_records w) as [|r l] eqn:Hl; [done |]. eapply does_bind; [apply ensure_sink_talk |].
  intros [w1 [[]|e]] es1 (_ & Hs1 & _); cbn [fst snd] in *; pose proof (steady_nonempty _ _ Hs1 Hne) as Hne1;
    pose proof Hs1 as (_ & Hl1 & _); [| by apply does_ret, shrinks_err].
  eapply does_bind; [apply build_batch_mute |]. intros [b|e] es2 [_ Hb]; [| by apply does_ret, shrinks_err].
  eapply does_conseq; [apply flush_attempts_shrinks |].
  - intros b' [= <-]. destruct (Hb b eq_refl) as (k & _ & Hfor). by eapply batch_for_nonempty.
  - change (lw_pending_records w1 <> []). by rewrite Hl1, Hl.
  - intros a es3 Ha. unfold shrinks in *. change (lw_pending_records (set_batch (Some b) w1)) with (lw_pending_records w1) in Ha.
    by rewrite Hl1 in Ha.
Qed.

Lemma evidence_nonempty o w : nonempty_batch w -> does (admit_drop_evidence_for o w) (fun w' _ => nonempty_batch w').
Proof.
  intros Hne. unfold admit_drop_evidence_for. destruct (_ <=? _)%nat; [by apply does_ret |].
  eapply does_bind; [apply (does_ask _ _ (fun _ _ => True)); done |]. intros [[chunks bytes]|] es _; [| by apply does_ret].
  eapply does_bind; [apply (does_ask _ _ (fun _ _ => True)); done |]. intros timestamp es1 _.
  eapply does_bind; [apply encrypt_record_mute |]. intros [record|e] es2 _; [| by apply does_ret].
  intros t. by eexists _, [_].
Qed.

Lemma finish_turn_shrinks deadline w : nonempty_batch w -> does (finish_turn deadline w) (fun r _ =>
  match r with
  | inl w' => nonempty_batch w' /\ (length (lw_pending_records w') < length (lw_pending_records w))%nat
  | inr _ => True
  end).
Proof.
  intros Hne. unfold finish_turn. destruct (lw_pending_records w) as [|r l] eqn:Hl; [by apply does_ret |].
  eapply does_bind; [apply (does_ask _ _ (fun _ _ => True)); done |]. intros now' es5 _. destruct (negb _); [by apply does_ret |].
  eapply does_bind; [apply flush_once_shrinks; [done | by rewrite Hl] |]. intros [w4 r4] es6 (Hne4 & Hle & Hlt). cbn [fst snd] in *.
  apply does_ret. destruct (is_ok r4); [| done]. split; [done |]. specialize (Hlt eq_refl). by rewrite Hl in Hlt.
Qed.

(** The end of a run is always acknowledged: whatever the sink, the clock and the
    drop counters say, the last drops are reported, the pending records are flushed while
    flushing succeeds and the grace period lasts, and [finish] gets its answer. *)
Theorem finish_always_acknowledges w t : nonempty_batch w ->
  exists w' es, finish_prioritized w t = (Some w', LgAcknowledge :: es ++ t).
Proof.
  intros Hne. assert (Hdoes : does (finish_prioritized w) (fun _ es => exists es', es = LgAcknowledge :: es')).
  { unfold finish_prioritized. eapply does_bind; [by apply evidence_nonempty |]. intros w1 es1 Hne1.
    eapply does_bind; [by apply evidence_nonempty |]. intros w2 es2 Hne2.
    eapply does_bind; [apply (does_ask _ _ (fun _ _ => True)); done |]. intros now es3 _.
    eapply does_bind.
    - apply (does_loop (fun w => length (lw_pending_records w)) (fun w _ => nonempty_batch w) _ (fun _ _ => True)
               (fun w _ Hw => finish_turn_shrinks (now + OUTPUT_FLUSH_GRACE) w Hw) _ w2 []); [done | lia].
    - intros w3 es4 _. intros t'. eexists _, [_]. split; [reflexivity |]. cbn [app]. by eexists. }
  destruct (Hdoes t) as (w' & es & Hr & es' & ->). by exists w', es'.
Qed.

(** C22: the worker delivers at least once and in order.  Whatever the host answers, and
    when a run is cut off after any number of turns, as long as no dropped customer
    output has to be reported at its end, its events are those of a queue per origin:
    every record that is admitted joins the queue of its origin at the end; every write
    carries, in one batch of one origin, the first records of the customer queue, or of
    the provider's when that is empty; and these leave the queue if and only if the sink
    answered the write with success and told, there or in answer to the resume request
    that follows, a chain that continues after their last sequence number.  A batch that
    the sink stored without telling so is written again.  So the records acknowledged and
    those still pending are, in this order, those admitted, and a worker that returns
    holds exactly the pending ones.  Every request goes to an https URL and is signed,
    with the key derived for this sink, for its target, body, time and nonce. *)
Theorem log_delivery_in_order config labels canary origin w t : new_worker config labels canary origin = Some w ->
  exists o es, run_prioritized w t = (o, es ++ t) /\
    Forall (fun e => exists writer, derive_writer (bc_dek config) = Some writer /\ post_ok writer config e) es /\
    (calm es -> exists acked q,
       deliveries {| pn_customer := []; pn_runtime := [] |} es acked q /\
       (forall origin, queued origin es = of_records origin acked ++ pending_origin origin q) /\
       (forall w', o = Some w' -> lw_pending_records w' = pn_customer q ++ pn_runtime q)).
Proof.
  intros Hnew. destruct (new_worker_inv _ _ _ _ _ Hnew) as (Hinv & Hnil & Hcf & Hwr).
  destruct (run_prioritized_good w t) as (o & es & Hr & Hp & _ & Hrest). exists o, es. split; [exact Hr |]. split.
  - eapply Forall_impl; [exact Hp |]. intros e He. exists (lw_writer w). by rewrite <-Hcf at 2.
  - intros Hcalm. destruct (Hrest Hinv Hcalm) as (acked & q & Hd & Hend). unfold worker_pending in Hd. rewrite Hnil in Hd.
    exists acked, q. split; [exact Hd |]. destruct (deliveries_conserve _ _ _ _ Hd) as [_ Hall]; [done |]. split.
    + intros og. rewrite <-Hall. by destruct og.
    + intros w' Hw'. destruct (Hend w' Hw') as [[Hwf _] ->]. destruct (records_wf_pending _ Hwf) as (cs & rs & Hl & Hc & Hs & _).
      unfold worker_pending, pending. cbn [id pn_customer pn_runtime] in *. by rewrite Hc, Hs.
Qed.

End exact.

(** ** Examples *)

(** Instances that let the batches be read off the requests: a record is encrypted as the
    name of its event, and a batch is printed as what it carries. *)
Definition sample_batch_text (v : Value) : string :=
  match as_array (value_index "encrypted" v) with
  | Some records => foldr (fun r s => default EmptyString (as_str (value_index "ciphertext" r)) +:+ ";" +:+ s) EmptyString records
  | None => default "other" (as_str (value_index "event" v))
  end.
Definition sample_chain_value (next : Z) : Value :=
  jobj [("sinkId", Str "sink");
        ("chain", jobj [("nextSequence", jint next);
                        ("previousHash", if next =? 1 then Null else Str ("0x" +:+ repeat_byte 64 "a"))])].
Definition sample_sink_text : JsonText :=
  {| to_vec := sample_batch_text; to_vec_fields := fun _ => "null";
     from_str := fun s => if s =s "one" then Some (sample_chain_value 1) else if s =s "two" then Some (sample_chain_value 2)
                          else if s =s "three" then Some (sample_chain_value 3) else None |}.
Definition sample_log_aead : Aead :=
  {| aead_seal := fun _ _ _ plaintext => (plaintext, "tag"); aead_open := fun _ _ _ _ => None |}.
Definition sample_log_hkdf : Hkdf := fun _ _ _ => "seed".
Definition sample_log_keys : Ed25519Keys := {| ed25519_public := fun _ => Some "pk"; ed25519_sign := fun _ _ => "sig" |}.
Definition sample_log_sha : Sha256 := fun _ => "digest".
Definition sample_form : UrlForm := fun s => s.

Definition sample_sink_config : BlackboxConfig :=
  {| bc_mode := Prebound "sink" "job" "https://logs.test/events" "https://logs.test/resume";
     bc_dek := repeat_byte 32 "k"; bc_context := None; bc_timeout := from_secs 5 |}.
Definition sample_labels : RuntimeLabels :=
  {| lb_application_uid := "uid"; lb_deployment_id := "dep"; lb_runtime_instance_id := "n" |}.
Definition sample_stage_record : RuntimeSshRecord :=
  {| rr_event := "stage"; rr_timestamp := "t"; rr_details := Null; rr_admitted_bytes := 10; rr_critical := true |}.

Definition happened (p : log_event -> bool) (t : list log_event) : nat := length (List.filter p t).
Definition is_write (e : log_event) : bool :=
  match e with LgPost url _ _ _ => url =s "https://logs.test/events" | _ => false end.
Definition is_runtime_received (e : log_event) : bool := match e with LgRuntime (Received _) => true | _ => false end.
Definition is_finish_received (e : log_event) : bool := match e with LgCustomer (Received WorkFinish) => true | _ => false end.
Definition is_taken (e : log_event) : bool := match e with LgTake Customer (Some _) => true | _ => false end.

(** One provider record, whose first write fails; then the request to finish.  [drops]
    tells whether customer output was dropped meanwhile. *)
Definition sample_log_host (drops : bool) : LogHost :=
  {| lg_now := fun _ => 0; lg_timestamp := fun _ => "t"; lg_random := fun _ n => Some (repeat_byte n "r");
     lg_post := fun t url _ _ =>
       if url =s "https://logs.test/resume" then UreqResponse 200 (Some "one")
       else match happened is_write t with
            | O => UreqTransport
            | S O => UreqResponse 200 (Some "two")
            | _ => UreqResponse 200 (Some "three")
            end;
     lg_customer := fun t =>
       if (0 <? happened is_write t)%nat && (happened is_finish_received t =? 0)%nat then Received WorkFinish else NothingReceived;
     lg_runtime := fun t => if (happened is_runtime_received t =? 0)%nat then Received (WorkRuntimeSsh sample_stage_record)
                            else NothingReceived;
     lg_wait := fun _ => RecvTimedOut; lg_recv := fun _ => None;
     lg_take := fun t o => match o with
                           | Customer => if drops && (happened is_taken t =? 0)%nat then Some (1, 10) else None
                           | RuntimeSsh => None
                           end;
     lg_turns := 10 |}.

Definition sample_log_worker : option LogWorker :=
  @new_worker sample_encodings sample_log_hkdf sample_log_keys sample_sink_config sample_labels false Customer.

Definition sample_log_run (drops : bool) : option LogWorker * list log_event :=
  match sample_log_worker with
  | Some w => @run_prioritized sample_sink_text sample_urls sample_form sample_encodings sample_base64 sample_log_sha
                sample_log_aead sample_log_keys (sample_log_host drops) w []
  | None => (None, [])
  end.

(** What was written, oldest first. *)
Definition written (t : list log_event) : list string :=
  rev (omap (fun e => if is_write e then match e with LgPost _ _ body _ => Some body | _ => None end else None) t).

Lemma sample_log_run_calm : calm (sample_log_run false).2.
Proof.
  intros counts Hin.
  assert (Hnone : forallb (fun e => negb (is_taken e)) (sample_log_run false).2 = true) by (vm_compute; reflexivity).
  rewrite forallb_forall in Hnone. apply list_elem_of_In in Hin. specialize (Hnone _ Hin). clear Hin. discriminate Hnone.
Qed.

(** The first write gets no answer; the second is acknowledged and empties the queue. *)
Lemma log_delivery_in_order_witness :
  written (sample_log_run false).2 = ["stage;"; "stage;"] /\
  length (queued RuntimeSsh (sample_log_run false).2) = 1%nat /\
  exists acked q,
    @deliveries sample_sink_text {| pn_customer := []; pn_runtime := [] |} (sample_log_run false).2 acked q /\
    of_records RuntimeSsh acked = queued RuntimeSsh (sample_log_run false).2 /\ pn_customer q ++ pn_runtime q = [].
Proof.
  split; [vm_compute; reflexivity |]. split; [vm_compute; reflexivity |].
  assert (Hend : lw_pending_records <$> (sample_log_run false).1 = Some []) by (vm_compute; reflexivity).
  destruct sample_log_worker as [w|] eqn:Hw; [| by vm_compute in Hw].
  destruct (@log_delivery_in_order sample_sink_text sample_urls sample_form sample_encodings sample_base64 sample_log_sha
    sample_log_hkdf sample_log_aead sample_log_keys (sample_log_host false) sample_sink_config sample_labels false Customer w [] Hw)
    as (o & es & Hr & _ & Horder).
  assert (Hrun : sample_log_run false = (o, es)) by (unfold sample_log_run; rewrite Hw, Hr, app_nil_r; reflexivity).
  destruct Horder as (acked & q & Hd & Hall & Hq); [pose proof sample_log_run_calm as Hcalm; by rewrite Hrun in Hcalm |].
  rewrite Hrun in *. cbn [fst snd] in *. exists acked, q. split; [exact Hd |].
  destruct o as [w'|]; [| discriminate Hend]. injection Hend as Hend. rewrite (Hq w' eq_refl) in Hend. split; [| exact Hend].
  apply app_nil in Hend as [_ Hnil]. rewrite (Hall RuntimeSsh). cbn [pending_origin]. by rewrite Hnil, app_nil_r.
Defined.

Lemma finish_always_acknowledges_witness : exists w' es w,
  sample_log_worker = Some w /\
  @finish_prioritized sample_sink_text sample_urls sample_form sample_encodings sample_base64 sample_log_sha
    sample_log_aead sample_log_keys (sample_log_host true) w [] = (Some w', LgAcknowledge :: es ++ []).
Proof.
  destruct sample_log_worker as [w|] eqn:Hw; [| by vm_compute in Hw].
  destruct (@finish_always_acknowledges sample_sink_text sample_urls sample_form sample_encodings sample_base64
    sample_log_sha sample_log_aead sample_log_keys (sample_log_host true) w []) as (w' & es & Hr).
  - vm_compute in Hw. injection Hw as <-. by intros b.
  - exists w', es, w. split; [reflexivity | exact Hr].
Defined.

(** When a provider batch is pending and customer drops are reported at the end, the
    report is put before the records of the batch; the batch is then sent as it was and
    the report leaves in its place: it is never written, and the provider's record is
    written again. *)
Example drop_report_lost :
  written (sample_log_run true).2 = ["stage;"; "stage;"; "stage;"] /\
  length (queued Customer (sample_log_run true).2) = 1%nat /\
  lw_pending_records <$> (sample_log_run true).1 = Some [].
Proof. split_and!; vm_compute; reflexivity. Qed.
